(* ===== verification/_CoqProject ===== *)
-Q . S2P
Prelude.v
GoStd.v
Bytes.v
SortedList.v
StorageTypes.v
VolumeTtl.v
FileId.v
Needle.v
Backend.v
NeedleIO.v
NeedleSpec.v
SuperBlock.v
Idx.v
MemDb.v
CompactMap.v
NeedleMap.v
Volume.v
Vacuum.v
VolumeSpec.v
VolumeClaims.v
VacuumSpec.v
VacuumCommit.v
EcShards.v
EcIndex.v
EcFiles.v
EcFilesSpec.v
GoText.v
GoFs.v
GoFsSpec.v
TagIndex.v
TagIndexSpec.v
TagIndexProps.v
TagQuery.v
GoJson.v
GoJsonSpec.v
Hotness.v
HotnessText.v
HotnessSpec.v
HotnessClaims.v
Events.v
EventsText.v
EventsSpec.v
EventsClaims.v
FilerChunks.v
FilerChunksSpec.v
FilerRead.v
FilerReadSpec.v
FilerGroupSpec.v
FilerClaims.v
FilerManifest.v
Wildcard.v
WildcardSpec.v
GoMd5.v
LockManager.v
LockManagerSpec.v
VolumeLayout.v
VolumeLayoutSpec.v
