(* ===== verification/Prelude.v ===== *)
(** * Verification of the SeaweedFS storage engine, filer chunks and tag index

    SeaweedFS stores small files ("needles") in large append-only volume files. A volume
    server keeps, per volume, a [.dat] file of needle records behind a super block, an
    [.idx] file of (id, offset, size) rows that journals every put and delete, and an
    in-memory index rebuilt from it at start-up. Deleted and overwritten records are
    reclaimed by a vacuum, which copies the live records to a new pair of files while
    the volume goes on serving, carries over what changed meanwhile and renames the pair
    into place. A full volume can be sealed and striped over erasure-coded shards, with
    a sorted index [.ecx] and a deletion journal [.ecj]. On top of it the filer keeps
    large files as lists of chunks, each a needle somewhere, and resolves which chunk
    shows at which offset. Beside both, the tag index (src/tagindex) keeps a directory
    of files that says which paths carry which tags; tag changes reach it directly or
    through a log of events that is replayed, and a ring of the latest accesses counts
    how often each path is used. This library models the engine (weed/storage and its
    subdirectories, and the byte codecs of weed/util), the chunk lists and readers of
    the filer (weed/filer), and the tag index with its event log and access counters,
    and of the cluster around them the master's choice of volumes for writing
    (weed/topology), the locks servers share (weed/cluster/lock_manager) and the wildcard
    patterns of policies and filters (weed/util/wildcard).  It proves that what is
    written is what is read back, also across restarts, deletions, vacuums and erasure
    coding, that files show the bytes written last, that queries return the paths they
    denote, that replays and counters are exact, that writes go to volumes with all
    their copies, and that a lock has one holder until it is transferred.

    ** Conventions

    Integers are [Z] with the wrap-around of their Go type written out ([u8], [u32],
    [s32], ...) wherever it can matter.  A [[]byte] or string is a list of bytes; a
    slice that is re-sliced past its length carries its backing array ([slice]).  A
    Go function returns [res]: a value, an error value or a panic (an index out of
    range, a [glog.Fatal]).  Methods that change their receiver and may fail use the
    state monad [SE], which keeps the changes made before the error.  Loops take
    fuel, and running out of fuel is [Panic] or [None], so every theorem that gives a
    result also says that the loop ends; the fuel is a bound on the number of passes
    stated beside each loop.  Locks make the operations of an object atomic and are
    not modelled; logging, metrics gauges and stats counters are left out.

    ** Files

    - Prelude: widths, results, byte strings, slices, and their lemmas and tactics.
    - GoStd: the parts of the Go library the code uses (sort.Search, strconv, hex,
      UTF-8 ranges, CRC-32C, os.File, slices.SortFunc).
    - Bytes (weed/util/bytes.go): big-endian codecs.
    - SortedList: lists kept sorted by an integer key and searched by bisection; the
      shared theory of index segments, shard sets and sorted index files.
    - StorageTypes (storage/types): ids, cookies, sizes with their tombstones, and
      the 4-byte and 5-byte offset encodings.
    - VolumeTtl, FileId (storage/needle/volume_ttl.go, volume_id.go, file_id.go,
      parsing in needle.go): TTLs and file ids as text and as bytes.
    - Needle (needle.go, crc.go, needle_write_*.go): the record format and its
      writers; [Layout] gives the reference layout and relates both writers to it.
    - Backend (storage/backend): [BackendStorageFile] is the Go interface as a class
      with laws, in which writes and truncations may fail and reads of stored bytes do
      not; [DiskFile] (disk_file.go) is its instance.
    - NeedleIO (needle_read*.go, needle_write.go): reading and appending over any
      backend; NeedleSpec: the round trips, corruption and rollback theorems, proved
      from the laws of the backend.
    - SuperBlock (storage/super_block): replica placements and the super block.
    - Idx (storage/idx, needle_value.go): index rows, and the walk, search and check
      of index files.
    - MemDb (needle_map/memdb.go): the index over a key-value store; the store
      (goleveldb) is a class with laws, and [SortedDb] shows they can hold.
    - CompactMap (needle_map/compact_map.go): the in-memory index; [NeedleValueMap]
      is the Go interface as a class, [IndexSpec] the abstract map it promises.
    - NeedleMap (needle_map*.go): the mapper that pairs an index with its file and
      counters, against any [NeedleValueMap]; [Recovery] relates a running mapper to
      the one reloaded from its file, when no write of that file fails.
    - Volume (storage/volume_write.go, volume_read.go, parts of volume.go): a volume as
      its backend, its mapper and its flags, and the synchronous write, delete and
      read of a needle; VolumeSpec: the invariant [holds], by which the index points
      at whole records and the file is the journal of the accepted operations, and
      what each operation does to it; VolumeClaims: [vol], the abstract volume (a map
      from ids to needles), and the refinement of it by any run of requests.
    - Vacuum (storage/volume_vacuum.go): the copy of the live records by index, the
      carrying over of later changes and the commit; VacuumSpec: what the copied pair
      holds; VacuumCommit: the last row of a key, and what is served after a commit.
    - EcShards (erasure_coding/ec_shard*.go, ec_shards_info.go, ec_volume_info.go,
      the shard list of ec_volume.go): which shards a server holds.
    - EcIndex (ec_volume.go, ec_volume_delete.go, ec_decoder.go, ec_encoder.go): the
      sorted index, its journal and its way back to an [.idx] file.
    - EcFiles (ec_encoder.go, ec_decoder.go, ec_locate.go): striping, decoding and
      locating; EcFilesSpec: the three agree on one layout, [data_shard].
    - GoText, GoFs: the text functions (strings, sort.Strings, bufio.Scanner) and the
      file-system calls the tag index uses; every call can fail.  GoFsSpec: [wp], the
      weakest precondition of such code when calls may fail, and a rule per call.
    - GoJson: the parts of encoding/json the tag programs use, a parser and printer of
      values and the field matching of structs; GoJsonSpec: printed values parse back,
      and the parser ends on every text.
    - TagIndex (tagindex/internal/index/index.go): the store and its operations;
      TagIndexSpec: the abstract index a directory stands for, and each operation on
      it; TagIndexProps: Set, Update and Query; TagQuery: query expressions.
    - Hotness (tagindex/internal/hotness/store.go): the ring of accesses and the
      counters per path; HotnessText: its JSON files read back; HotnessSpec: counters
      as totals over a window, and the ring as its last accesses; HotnessClaims: the
      invariant [holds] of the directory, and the theorems.
    - Events (tagindex/internal/events/replay.go): the event log, its checkpoint and
      its replay into the index; EventsText: events as lines; EventsSpec: the files of
      a log beside an index ([state]) and what each step does to them; EventsClaims:
      whole replays, and checkpoints that point into a line.
    - FilerChunks (filer/interval_list.go, filechunks.go, filechunks_read.go): lists of
      intervals, the sweep over chunk ends, views, merging, compaction;
      FilerChunksSpec: [newest], the chunk written last at an offset, and that the
      sweep and the insertion show it.
    - FilerRead (filechunk_section.go, filechunk_group.go, reader_at.go): the sections
      of an open file, reads and seeks; FilerReadSpec, FilerGroupSpec: reads through
      views, and the invariant that ties every section to the chunks of the file.
    - FilerClaims: the theorems on views, compaction, merging and open files;
      FilerManifest (filechunk_manifest.go, cleanupChunks of filer_grpc_server.go):
      chunk lists kept in manifests, and what is stored for an entry.
    - Wildcard (util/wildcard): the matcher, the cache of matchers and filters;
      WildcardSpec: [glob], the meaning of a pattern, and the cache as a bounded map.
    - GoMd5: crypto/md5 and HashStringToLong of weed/util/bytes.go, tested on the
      vectors of RFC 1321.
    - LockManager (cluster/lock_manager): locks, the ring of servers, and the locks of a
      server; LockManagerSpec: requests to a manager, and messages to a cluster.
    - VolumeLayout (topology/volume_layout.go, volume_location_list.go): the copies of
      volumes and the writable ones; VolumeLayoutSpec: the invariant [sane] of every
      layout that the operations reach ([layout_step] has one rule per operation).

    ** What the theorems show

    - Formats: needles, super blocks, TTLs, file ids, placements, offsets and shard
      messages read back as written, within stated ranges; the two needle writers
      agree byte for byte.
    - Safety: an append that fails keeps the end of the volume file and what lies before
      it, and leaves bytes behind the end only when truncating fails as well; data that
      does not match its checksum is refused; the index check accepts exactly files whose
      records do not overlap.
    - Refinement: the compact map and the shard set implement finite maps under any
      sequence of operations, the mapper survives a restart, and the erasure-coded
      index keeps exactly the live needles through sealing, deletion, replay and
      decoding.
    - Volumes: any sequence of writes, deletes and unpaged reads that stays within the
      size limit answers as a map from ids to needles does, whichever writes and
      truncations of the data file fail (writes of the index file succeed), a write with
      another cookie than the stored one is refused unless it carries none and is not
      checked, and a needle reads back as written.  A vacuum keeps every live needle that
      the volume's TTL has not ended, and after the commit the volume serves the needles
      as they are at the time of the commit, with the writes and deletes made while the
      copy ran, except live needles without data, which the commit takes for deleted.
    - Erasure coding: decoding the shards gives the volume back, and the located
      intervals read the bytes of the volume, unless it ends just after whole large rows,
      where the reader counts one row too few.
    - Files: [newest] is the reference for everything the filer shows of a file: the
      sweep, views, incremental merging, compaction, folding into manifests and reads
      of an open file agree with it at every offset, for chunks of distinct times.
      [opened] is the relation of the states an open file can reach by setting and
      adding chunks, reading and seeking in any order.  Chunks carry their file id as
      text, as GetFileIdString gives it: BeforeEntrySerialization, which moves it into
      the parsed field in place before a manifest is saved, does not change it.
    - Tags: Set and Update refine an abstract relation of paths and tags, for tags that
      name files and paths without blanks at their ends; queries and query expressions
      denote sets over it, and the parser ends on every token list and accepts exactly
      the grammar.  The access counters are the exact totals of the accesses in the ring.
      A replay from a checkpoint at the start of a line gives every path the tags last
      asked for and rebuilds the index files; a replay after it can lose its place in the
      rewritten log, and then never recovers.
    - Cluster: on every reachable layout a volume chosen for writing has its copies on
      enough different servers; servers that agree on the ring grant a lock to one
      holder until its time or a transfer of it, no lock outlives its time and a
      clean-up, and a change of the ring hands over exactly the locks that move.
    - Patterns: the matcher decides [glob] on texts without stars, and its answer is
      sound on all; a star in the text is where it misses matches.
    - Some theorems pin down where the code does less than it means to (lost super
      block extras, an unsorted shard list, a row count that is one too small, reads
      past the last needle, a checkpoint that points into a line, patterns that miss a
      star, counters that change over a restart).

    ** Parameters

    goleveldb ([LevelDb]), the Reed-Solomon coder ([EncoderLaws]), protobuf marshalling
    of super block extras, the bloom filter of the metric scan, and [slices.SortFunc]
    beyond twelve elements are arguments of the definitions that use them; so are the
    order in which a Go map is visited (the rows a vacuum carries over), the clock, and
    the outcomes of [fsync]; so are, for the filer, saving and fetching manifests and
    fetching a range of a chunk, for the tag index the faults of the file system, for
    locks new tokens, and for layouts the reports of the data nodes and random choices.

    ** Not modelled

    The network servers and gateways, the entry stores of the filer, the tree
    of the master's topology with its usage counters, volume tiering and generated code; within the modelled packages, opening
    and closing files, memory maps and the remote backends, the asynchronous write queue
    of a volume, vacuuming by a scan of the data file, the integrity check of the last
    record at start-up, volumes that are read-only from the start, removing volumes, streamed reads of large needles, and the
    caches and prefetching of chunk readers; of the tag programs, the scores of hot paths
    (floating point) and their ranking, the SSD cache that keeps them, the HTTP client and
    the command lines.  Temporary files of the tag index are renamed or removed before
    their writer returns and are kept out of the modelled tree, which leaves out a failing
    removal of one; [os.Stat] is modelled as [os.Open], of which the code uses only
    whether the file is there. Nested manifests are resolved to a depth
    given as fuel; running out of it is a [Panic], and [resolve_deeper] shows that more
    of it never changes a result. *)

From Stdlib Require Import ZArith Lia String Ascii.
From stdpp Require Export base numbers list list_numbers gmap strings sorting.

Declare Scope go_scope.
Delimit Scope go_scope with go.
#[global] Open Scope Z_scope.
#[global] Open Scope go_scope.

(** ** Machine integers

    A Go integer of width [w] is a [Z] kept in range by an explicit wrap. *)

Definition wrap (w z : Z) : Z := z `mod` 2 ^ w.
Definition swrap (w z : Z) : Z := (z + 2 ^ (w - 1)) `mod` 2 ^ w - 2 ^ (w - 1).

Abbreviation u8 := (wrap 8).
Abbreviation u16 := (wrap 16).
Abbreviation u32 := (wrap 32).
Abbreviation u64 := (wrap 64).
Abbreviation s32 := (swrap 32).
Abbreviation s64 := (swrap 64).

Definition in_u (w z : Z) : Prop := 0 ≤ z < 2 ^ w.
Definition in_s (w z : Z) : Prop := - 2 ^ (w - 1) ≤ z < 2 ^ (w - 1).

Definition add32 (a b : Z) : Z := s32 (a + b).
Definition sub32 (a b : Z) : Z := s32 (a - b).
Definition add64 (a b : Z) : Z := s64 (a + b).
Definition sub64 (a b : Z) : Z := s64 (a - b).
Definition mul64 (a b : Z) : Z := s64 (a * b).

Lemma wrap_range w z : 0 ≤ w → in_u w (wrap w z).
Proof. intros; unfold in_u, wrap. apply Z.mod_pos_bound. lia. Qed.

Lemma wrap_id w z : in_u w z → wrap w z = z.
Proof. unfold in_u, wrap. intros. by apply Z.mod_small. Qed.

Lemma swrap_range w z : 0 < w → in_s w (swrap w z).
Proof.
  intros. unfold in_s, swrap.
  pose proof (Z.mod_pos_bound (z + 2 ^ (w - 1)) (2 ^ w) ltac:(lia)).
  replace (2 ^ w) with (2 * 2 ^ (w - 1)) in *; [lia|].
  rewrite <- Z.pow_succ_r by lia. f_equal. lia.
Qed.

Lemma swrap_id w z : 0 < w → in_s w z → swrap w z = z.
Proof.
  unfold in_s, swrap. intros.
  rewrite Z.mod_small; [lia|].
  replace (2 ^ w) with (2 * 2 ^ (w - 1)); [lia|].
  rewrite <- Z.pow_succ_r by lia. f_equal. lia.
Qed.

(** A signed value survives the trip through the unsigned type of its width. *)
Lemma swrap_wrap w z : 0 < w → in_s w z → swrap w (wrap w z) = z.
Proof.
  intros Hw Hz. unfold swrap, wrap.
  rewrite Zplus_mod_idemp_l. by apply swrap_id.
Qed.

Lemma swrap_add_l w a b : swrap w (swrap w a + b) = swrap w (a + b).
Proof.
  unfold swrap. f_equal.
  replace ((a + 2 ^ (w - 1)) `mod` 2 ^ w - 2 ^ (w - 1) + b + 2 ^ (w - 1))
    with ((a + 2 ^ (w - 1)) `mod` 2 ^ w + b) by lia.
  rewrite Zplus_mod_idemp_l. f_equal. lia.
Qed.

Lemma wrap_wrap w z : wrap w (wrap w z) = wrap w z.
Proof. apply Zmod_mod. Qed.

(** [mlia] is [lia] with division and remainder by constants understood. *)
Ltac mlia := Z.to_euclidean_division_equations; lia.

(** A decidable fact about closed terms, by evaluation. *)
Ltac decided := refine (bool_decide_unpack _ _); vm_compute; exact I.

(** Unfold the width predicates with their powers computed. *)
Ltac widths :=
  unfold in_u, in_s in *; cbn [Z.sub Z.add Z.opp Z.pow Z.pow_pos Pos.iter
    Z.mul Pos.mul Z.pos_sub Pos.pred_double Pos.add] in *;
  change (2 ^ 8) with 256 in *; change (2 ^ 16) with 65536 in *;
  change (2 ^ 32) with 4294967296 in *;
  change (2 ^ 64) with 18446744073709551616 in *;
  change (2 ^ (32 - 1)) with 2147483648 in *;
  change (2 ^ (64 - 1)) with 9223372036854775808 in *.

(** ** Errors

    Go functions return a value and an [error]; an index out of range or an
    explicit [panic] unwinds.  Sentinel errors are constructors, the errors made
    by [fmt.Errorf] carry their format string. *)

Inductive go_error :=
  | EOF
  | ErrClosed
  | ErrInvalid
  | ErrNoSpace
  | NotFoundError
  | ErrorSizeMismatch
  | ErrorNotFound
  | ErrorDeleted
  | ErrSyntax
  | ErrRange
  | ErrNotExist
  | ErrNotDir
  | ErrIsDir
  | ErrIO
  | ErrTooLong
  | Errorf (msg : string).

#[global] Instance go_error_eq_dec : EqDecision go_error.
Proof. solve_decision. Defined.

Inductive res (A : Type) : Type :=
  | Ok (a : A)
  | Fail (e : go_error)
  | Panic.
Arguments Ok {A} _.
Arguments Fail {A} _.
Arguments Panic {A}.

#[global] Instance res_eq_dec {A} `{EqDecision A} : EqDecision (res A).
Proof. solve_decision. Defined.

#[global] Instance res_ret : MRet res := λ A a, Ok a.
#[global] Instance res_bind : MBind res := λ A B f m,
  match m with Ok a => f a | Fail e => Fail e | Panic => Panic end.

Lemma bind_ok {A B} (a : A) (f : A → res B) : (Ok a ≫= f) = f a.
Proof. done. Qed.
Lemma bind_ext {A B} (m : res A) (f g : A → res B) :
  (∀ a, f a = g a) → (m ≫= f) = (m ≫= g).
Proof. destruct m; intros; cbn; auto. Qed.
Lemma bind_assoc {A B C} (m : res A) (f : A → res B) (g : B → res C) :
  ((m ≫= f) ≫= g) = (m ≫= λ a, f a ≫= g).
Proof. by destruct m. Qed.
Lemma bind_inv {A B} (m : res A) (f : A → res B) b :
  (m ≫= f) = Ok b → ∃ a, m = Ok a ∧ f a = Ok b.
Proof. destruct m; cbn; intros; [by eexists|done..]. Qed.
Lemma Ok_inj {A} (a b : A) : Ok a = Ok b → a = b.
Proof. congruence. Qed.

Definition is_ok {A} (r : res A) : bool :=
  match r with Ok _ => true | _ => false end.

(** State passing with errors: a method with a pointer receiver keeps the
    changes it made before it returned an error. *)
Definition SE (S A : Type) : Type := S → S * res A.
#[global] Instance SE_ret {S} : MRet (SE S) := λ A a s, (s, Ok a).
#[global] Instance SE_bind {S} : MBind (SE S) := λ A B f m s,
  match m s with
  | (s', Ok a) => f a s'
  | (s', Fail e) => (s', Fail e)
  | (s', Panic) => (s', Panic)
  end.
Definition se_get {S} : SE S S := λ s, (s, Ok s).
Definition se_mod {S} (f : S → S) : SE S unit := λ s, (f s, Ok tt).
Definition se_fail {S A} (e : go_error) : SE S A := λ s, (s, Fail e).
(** [if err != nil] with a branch of its own. *)
Definition se_catch {S A} (m : SE S A) (h : go_error → SE S A) : SE S A := λ s,
  match m s with
  | (s', Fail e) => h e s'
  | r => r
  end.
Definition se_read {S A} (g : S → res A) : SE S A := λ s, (s, g s).
Definition se_lift {S A} (r : res A) : SE S A := λ s, (s, r).

(** ** Byte strings

    A [[]byte] or [string] is the list of its bytes. *)

Abbreviation bytes := (list Z).
Definition is_byte (z : Z) : Prop := 0 ≤ z < 256.
Abbreviation bytes_ok := (Forall is_byte).

Definition zlen {A} (l : list A) : Z := Z.of_nat (length l).

(** The bytes of a literal. *)
Definition byte_of_ascii (c : ascii) : Z := Z.of_N (N_of_ascii c).
Fixpoint str (s : string) : bytes :=
  match s with
  | EmptyString => []
  | String c s => byte_of_ascii c :: str s
  end.

Definition zeros (n : Z) : bytes := replicate (Z.to_nat n) 0.

(** [sub l lo n]: at most [n] elements of [l] from position [lo]. *)
Definition sub {A} (l : list A) (lo n : Z) : list A :=
  take (Z.to_nat n) (drop (Z.to_nat lo) l).

Lemma zlen_nonneg {A} (l : list A) : 0 ≤ zlen l.
Proof. unfold zlen. lia. Qed.
Lemma zlen_app {A} (l k : list A) : zlen (l ++ k) = zlen l + zlen k.
Proof. unfold zlen. rewrite length_app. lia. Qed.
Lemma zlen_cons {A} (x : A) l : zlen (x :: l) = 1 + zlen l.
Proof. unfold zlen. simpl. lia. Qed.
Lemma zlen_nil {A} : zlen (@nil A) = 0.
Proof. done. Qed.
Lemma zlen_zeros n : zlen (zeros n) = Z.max 0 n.
Proof. unfold zlen, zeros. rewrite length_replicate. lia. Qed.
Lemma zlen_take {A} (l : list A) n : zlen (take n l) = Z.min (Z.of_nat n) (zlen l).
Proof. unfold zlen. rewrite length_take. lia. Qed.
Lemma zlen_drop {A} (l : list A) n : zlen (drop n l) = Z.max 0 (zlen l - Z.of_nat n).
Proof. unfold zlen. rewrite length_drop. lia. Qed.
Lemma zlen_sub {A} (l : list A) lo n :
  0 ≤ lo → zlen (sub l lo n) = Z.max 0 (Z.min n (zlen l - lo)).
Proof. intros. unfold sub. rewrite zlen_take, zlen_drop. lia. Qed.
Lemma zlen_0 {A} (l : list A) : zlen l = 0 → l = [].
Proof. destruct l; [done|]. rewrite zlen_cons. pose proof (zlen_nonneg l). lia. Qed.

Lemma drop_zlen {A} (l k : list A) : drop (Z.to_nat (zlen l)) (l ++ k) = k.
Proof. unfold zlen. rewrite Nat2Z.id. apply drop_app_length. Qed.
Lemma take_zlen {A} (l k : list A) : take (Z.to_nat (zlen l)) (l ++ k) = l.
Proof. unfold zlen. rewrite Nat2Z.id. apply take_app_length. Qed.

Create Rewrite HintDb zlen.
#[export] Hint Rewrite @zlen_app @zlen_cons @zlen_nil zlen_zeros @zlen_take
  @zlen_drop : zlen.
(** Normalise lengths, then arithmetic. *)
Ltac zl := autorewrite with zlen in *; repeat
  match goal with
  | |- context [zlen ?l] =>
      lazymatch goal with
      | _ : 0 ≤ zlen l |- _ => fail
      | _ => pose proof (zlen_nonneg l)
      end
  | _ : context [zlen ?l] |- _ =>
      lazymatch goal with
      | _ : 0 ≤ zlen l |- _ => fail
      | _ => pose proof (zlen_nonneg l)
      end
  end; try lia.

Lemma sub_app_l {A} (l k : list A) lo n :
  0 ≤ lo → lo + n ≤ zlen l → sub (l ++ k) lo n = sub l lo n.
Proof.
  intros. unfold sub, zlen in *.
  destruct (decide (n ≤ 0)).
  { replace (Z.to_nat n) with 0%nat by lia. by rewrite !take_0. }
  rewrite drop_app_le by lia. rewrite take_app_le; [done|].
  rewrite length_drop. lia.
Qed.

Lemma sub_app_r {A} (l k : list A) lo n :
  zlen l ≤ lo → sub (l ++ k) lo n = sub k (lo - zlen l) n.
Proof.
  intros. unfold sub, zlen in *. f_equal.
  rewrite drop_app_ge by lia. f_equal. lia.
Qed.

Lemma sub_all {A} (l : list A) n : zlen l ≤ n → sub l 0 n = l.
Proof. intros. unfold sub, zlen in *. simpl. apply take_ge. lia. Qed.

(** The field [m] placed right after a prefix is read back whole. *)
Lemma sub_mid {A} (l m k : list A) lo n :
  lo = zlen l → n = zlen m → sub (l ++ m ++ k) lo n = m.
Proof.
  intros -> ->. rewrite sub_app_r, Z.sub_diag by lia.
  rewrite sub_app_l by lia. apply sub_all. lia.
Qed.

Lemma sub_0 {A} (l : list A) lo : sub l lo 0 = [].
Proof. reflexivity. Qed.

Lemma sub_sub {A} (l : list A) a n b m :
  0 ≤ a → 0 ≤ b → b + m ≤ n → sub (sub l a n) b m = sub l (a + b) m.
Proof.
  intros. unfold sub.
  destruct (decide (m ≤ 0)).
  { replace (Z.to_nat m) with 0%nat by lia. by rewrite !take_0. }
  rewrite skipn_firstn_comm, drop_drop, take_take.
  f_equal; [lia|f_equal; lia].
Qed.

(** Adjacent ranges concatenate. *)
Lemma sub_split {A} (l : list A) a n m :
  0 ≤ a → 0 ≤ n → 0 ≤ m → sub l a (n + m) = sub l a n ++ sub l (a + n) m.
Proof.
  intros. unfold sub.
  replace (Z.to_nat (a + n)) with (Z.to_nat a + Z.to_nat n)%nat by lia.
  rewrite <- drop_drop.
  replace (Z.to_nat (n + m)) with (Z.to_nat n + Z.to_nat m)%nat by lia.
  by rewrite <- take_take_drop.
Qed.

Lemma sub_past {A} (l : list A) a n : zlen l ≤ a → sub l a n = [].
Proof. intros. unfold sub, zlen in *. rewrite drop_ge by lia. by rewrite take_nil. Qed.

Lemma sub_ok l a n : bytes_ok l → bytes_ok (sub l a n).
Proof. intros. unfold sub. by apply Forall_take, Forall_drop. Qed.

Lemma zeros_ok n : bytes_ok (zeros n).
Proof. apply Forall_replicate. red. lia. Qed.

Lemma zeros_add a b : 0 ≤ a → 0 ≤ b → zeros (a + b) = zeros a ++ zeros b.
Proof. intros. unfold zeros. by rewrite Z2Nat.inj_add, replicate_add. Qed.

Lemma str_ok s : bytes_ok (str s).
Proof.
  induction s; simpl; constructor; [|done]. unfold byte_of_ascii, is_byte.
  pose proof (N_ascii_bounded a). lia.
Qed.

Create HintDb bytes.
#[export] Hint Resolve sub_ok zeros_ok str_ok Forall_app_2 Forall_nil_2 : bytes.

(** ** Slices

    A Go slice sees a window of a backing array; re-slicing may extend past
    the length up to the capacity, so the backing bytes up to the capacity are
    part of the value. *)

Record slice := Slice { sl_buf : bytes; sl_len : Z }.

Definition sl_cap (s : slice) : Z := zlen (sl_buf s).
Definition sl_data (s : slice) : bytes := sub (sl_buf s) 0 (sl_len s).
(** [make([]byte, len(b))] filled with [b]. *)
Definition sl_of (b : bytes) : slice := Slice b (zlen b).

(** [s[lo:hi]]: panics unless [0 <= lo <= hi <= cap(s)]. *)
Definition reslice (s : slice) (lo hi : Z) : res slice :=
  if decide (0 ≤ lo ∧ lo ≤ hi ∧ hi ≤ sl_cap s)
  then Ok (Slice (drop (Z.to_nat lo) (sl_buf s)) (hi - lo))
  else Panic.

(** [s[lo:]] stops at the length. *)
Definition reslice_from (s : slice) (lo : Z) : res slice := reslice s lo (sl_len s).

(** [s[i]] panics unless [i < len(s)]. *)
Definition sl_index (s : slice) (i : Z) : res Z :=
  if decide (0 ≤ i < sl_len s) then
    match sl_buf s !! Z.to_nat i with Some b => Ok b | None => Panic end
  else Panic.

Lemma sl_data_of b : sl_data (sl_of b) = b.
Proof. unfold sl_data, sl_of. simpl. apply sub_all. lia. Qed.

Lemma sl_index_of b i x : 0 ≤ i → b !! Z.to_nat i = Some x → sl_index (sl_of b) i = Ok x.
Proof.
  intros Hi Hx. unfold sl_index, sl_of; cbn [sl_len sl_buf].
  apply lookup_lt_Some in Hx as Hlt. rewrite decide_True by (unfold zlen; lia).
  by rewrite Hx.
Qed.

Lemma reslice_ok s lo hi :
  0 ≤ lo ≤ hi → hi ≤ sl_cap s →
  reslice s lo hi = Ok (Slice (drop (Z.to_nat lo) (sl_buf s)) (hi - lo)).
Proof. intros. unfold reslice. rewrite decide_True by lia. done. Qed.

Lemma reslice_data s lo hi s' :
  reslice s lo hi = Ok s' → sl_data s' = sub (sl_buf s) lo (hi - lo).
Proof.
  unfold reslice. case_decide; [|done]. intros [= <-].
  unfold sl_data, sub. simpl. by rewrite drop_0.
Qed.

(** Re-slicing a field that follows a known prefix. *)
Lemma reslice_at s pre d rest lo hi :
  sl_buf s = pre ++ d ++ rest → lo = zlen pre → hi = lo + zlen d →
  ∃ w, reslice s lo hi = Ok w ∧ sl_data w = d ∧ sl_buf w = d ++ rest ∧ sl_len w = zlen d.
Proof.
  intros Hs -> ->. eexists. split.
  { apply reslice_ok; [zl|]. unfold sl_cap. rewrite Hs. zl. }
  unfold sl_data; cbn [sl_buf sl_len]. rewrite Hs.
  rewrite drop_zlen, sub_app_l, sub_all by lia.
  split_and!; [done|done|lia].
Qed.

(** [copy(b[off:], d)] for a destination that has room for [d]. *)
Definition splice {A} (b : list A) (off : Z) (d : list A) : list A :=
  take (Z.to_nat off) b ++ d ++ drop (Z.to_nat off + length d) b.

Lemma zlen_splice {A} (b : list A) off d :
  0 ≤ off → off + zlen d ≤ zlen b → zlen (splice b off d) = zlen b.
Proof. intros. unfold splice. zl. unfold zlen in *. lia. Qed.

Lemma splice_ok b off d : bytes_ok b → bytes_ok d → bytes_ok (splice b off d).
Proof. intros. unfold splice. auto using Forall_app_2, Forall_take, Forall_drop. Qed.
#[export] Hint Resolve splice_ok : bytes.

(** ** Filters and images of lists *)

Lemma filter_all {A} (P : A → Prop) `{!∀ x, Decision (P x)} (l : list A) : (∀ x, x ∈ l → P x) → filter P l = l.
Proof.
  induction l as [|x l IH]; [done|]. intros HP. rewrite filter_cons_True by (apply HP; set_solver).
  f_equal. apply IH. intros. apply HP. set_solver.
Qed.

Lemma NoDup_fmap_eq {A B} (f : A → B) (l : list A) x y :
  NoDup (f <$> l) → x ∈ l → y ∈ l → f x = f y → x = y.
Proof.
  intros Hd [i Hi]%list_elem_of_lookup [j Hj]%list_elem_of_lookup He.
  assert (i = j) as ->; [|congruence].
  eapply NoDup_lookup; [exact Hd|..]; rewrite list_lookup_fmap; [by rewrite Hi|rewrite Hj; cbn; by rewrite He].
Qed.
