(* ===== verification/GoStd.v ===== *)
(** * GoStd: the parts of Go and its standard library the sources use

    [sort.Search], [strconv], [encoding/hex], ranging over a string,
    [hash/crc32] with the Castagnoli table, and [*os.File] as a byte array with
    a device limit. *)

From S2P Require Import Prelude.

(** ** sort.Search *)
Module Sort.

(** [i, j := 0, n; for i < j { h := (i+j)/2; if !f(h) { i = h+1 } else { j = h } }; return i].
    The interval halves, so [n] iterations are enough (see [search_fuel]). *)
Fixpoint search_loop (fuel : nat) (f : Z → bool) (i j : Z) : Z :=
  match fuel with
  | O => i
  | S fuel =>
      if decide (i < j) then
        let h := (i + j) `div` 2 in
        if f h then search_loop fuel f i h else search_loop fuel f (h + 1) j
      else i
  end.

Definition Search (n : Z) (f : Z → bool) : Z := search_loop (Z.to_nat n) f 0 n.

Section spec.
Context (f : Z → bool) (n : Z).
Hypothesis mono : ∀ a b, 0 ≤ a ≤ b → b < n → f a = true → f b = true.

Lemma search_loop_spec fuel i j :
  0 ≤ i ≤ j → j ≤ n → j - i ≤ Z.of_nat fuel →
  (∀ k, 0 ≤ k < i → f k = false) → (∀ k, j ≤ k < n → f k = true) →
  let r := search_loop fuel f i j in
  i ≤ r ≤ j ∧ (∀ k, 0 ≤ k < r → f k = false) ∧ (∀ k, r ≤ k < n → f k = true).
Proof.
  revert i j. induction fuel as [|fuel IH]; intros i j Hij Hj Hfuel Hlo Hhi; simpl.
  { assert (i = j) by lia. subst. repeat split; auto; lia. }
  case_decide as Hlt; [|assert (i = j) by lia; subst; repeat split; auto; lia].
  assert (i ≤ (i + j) `div` 2 < j) by mlia.
  set (h := (i + j) `div` 2) in *. destruct (f h) eqn:Hf.
  - edestruct (IH i h) as (? & ? & ?); try lia; auto.
    { intros k Hk. destruct (decide (j ≤ k)); [apply Hhi; lia|].
      apply (mono h); auto; lia. }
    split; [lia|auto].
  - edestruct (IH (h + 1) j) as (? & ? & ?); try lia; auto.
    { intros k Hk. destruct (f k) eqn:Hk'; [|done].
      rewrite (mono k h) in Hf; [done|lia|lia|done]. }
    split; [lia|auto].
Qed.

(** For a monotone predicate, [Search] is the least index where it holds. *)
Lemma Search_spec :
  0 ≤ n →
  0 ≤ Search n f ≤ n ∧ (∀ k, 0 ≤ k < Search n f → f k = false)
  ∧ (∀ k, Search n f ≤ k < n → f k = true).
Proof. intros. apply search_loop_spec; lia. Qed.
End spec.

(** More fuel does not change the answer. *)
Lemma search_fuel f fuel fuel' i j :
  j - i ≤ Z.of_nat fuel → j - i ≤ Z.of_nat fuel' →
  search_loop fuel f i j = search_loop fuel' f i j.
Proof.
  revert fuel' i j. induction fuel as [|fuel IH]; intros [|fuel'] i j H1 H2; simpl; auto.
  - rewrite decide_False by lia. done.
  - rewrite decide_False by lia. done.
  - case_decide; [|done]. assert (i ≤ (i + j) `div` 2 < j) by mlia.
    destruct (f _); apply IH; lia.
Qed.
End Sort.

(** ** slices.SortFunc

    Up to 12 elements it is an insertion sort:
    [for i := 1; i < n; i++ { for j := i; j > 0 && cmp(data[j], data[j-1]) < 0; j-- { swap } }].
    [rev_prefix] is [data[:j]] from its last element down.  What it does on longer
    slices is a parameter. *)
Module Slices.

Fixpoint sift {A} (cmp : A → A → Z) (x : A) (rev_prefix : list A) : list A :=
  match rev_prefix with
  | [] => [x]
  | y :: l => if decide (cmp x y < 0) then y :: sift cmp x l else x :: y :: l
  end.
Definition insertion_sort {A} (cmp : A → A → Z) (l : list A) : list A :=
  reverse (foldl (λ acc x, sift cmp x acc) [] l).

Definition SortFunc {A} (sort_long : (A → A → Z) → list A → list A)
    (cmp : A → A → Z) (l : list A) : list A :=
  if decide (zlen l ≤ 12) then insertion_sort cmp l else sort_long cmp l.

(** The comparison orders the elements of [l] that differ. *)
Definition orders {A} (cmp : A → A → Z) (l : list A) : Prop :=
  (∀ a b, a ∈ l → b ∈ l → a ≠ b → cmp a b < 0 ∨ cmp b a < 0)
  ∧ (∀ a b c, a ∈ l → b ∈ l → c ∈ l → cmp a b < 0 → cmp b c < 0 → cmp a c < 0)
  ∧ (∀ a b, a ∈ l → b ∈ l → cmp a b < 0 → ¬ cmp b a < 0).

Definition sorts {A} (sort : (A → A → Z) → list A → list A) : Prop :=
  ∀ cmp l, NoDup l → orders cmp l →
    sort cmp l ≡ₚ l ∧ StronglySorted (λ a b, cmp a b < 0) (sort cmp l).

Section insertion.
Context {A : Type} (cmp : A → A → Z).

Lemma sift_perm x l : sift cmp x l ≡ₚ x :: l.
Proof.
  induction l as [|y l IH]; simpl; [done|]. case_decide; [|done].
  rewrite IH. apply Permutation_swap.
Qed.

Lemma sift_sorted x l :
  orders cmp (x :: l) → x ∉ l → StronglySorted (λ a b, cmp b a < 0) l →
  StronglySorted (λ a b, cmp b a < 0) (sift cmp x l).
Proof.
  induction l as [|y l IH]; intros Ho Hx Hs; simpl; [by repeat constructor|].
  inversion_clear Hs as [|?? Hs' Hall]. rewrite Forall_forall in Hall. case_decide as Hc.
  - constructor.
    + apply IH; [|set_solver|done]. destruct Ho as (H1 & H2 & H3).
      split_and!; intros; [apply H1|eapply H2|eapply H3]; eauto; set_solver.
    + apply Forall_forall. intros z. rewrite sift_perm. intros [-> |Hz]%elem_of_cons; [done|by apply Hall].
  - assert (cmp y x < 0) as Hyx.
    { destruct Ho as (H1 & _ & _). destruct (H1 x y); [set_solver..|done|done]. }
    constructor; [constructor; [done|by apply Forall_forall]|]. apply Forall_forall.
    intros z [-> |Hz]%elem_of_cons; [done|]. destruct Ho as (_ & H2 & _).
    apply (H2 z y x); [set_solver..|by apply Hall|done].
Qed.

Lemma insertion_sort_spec l :
  NoDup l → orders cmp l →
  insertion_sort cmp l ≡ₚ l ∧ StronglySorted (λ a b, cmp a b < 0) (insertion_sort cmp l).
Proof.
  unfold insertion_sort. intros Hnd Ho.
  assert (∀ l acc, NoDup (l ++ acc) → orders cmp (l ++ acc) →
    StronglySorted (λ a b, cmp b a < 0) acc →
    foldl (λ acc x, sift cmp x acc) acc l ≡ₚ l ++ acc
    ∧ StronglySorted (λ a b, cmp b a < 0) (foldl (λ acc x, sift cmp x acc) acc l)) as H.
  { clear l Hnd Ho. induction l as [|x l IH]; intros acc Hnd Ho Hs; simpl; [done|].
    assert (l ++ sift cmp x acc ≡ₚ x :: l ++ acc) as Hp
      by (rewrite sift_perm; symmetry; apply Permutation_middle).
    simpl in Hnd. destruct (IH (sift cmp x acc)) as [H1 H2].
    - by rewrite Hp.
    - destruct Ho as (H1 & H2 & H3).
      split_and!; intros *; rewrite !Hp; [apply H1|apply H2|apply H3].
    - apply sift_sorted; [|apply NoDup_cons in Hnd as []; set_solver|done].
      destruct Ho as (H1 & H2 & H3).
      split_and!; intros; [apply H1|eapply H2|eapply H3]; eauto; set_solver.
    - split; [by rewrite H1|done]. }
  destruct (H l []) as [H1 H2]; [by rewrite app_nil_r..|constructor|].
  rewrite app_nil_r in H1. split; [by rewrite reverse_Permutation|].
  clear -H2. induction H2 as [|x k Hk IH Hx]; [constructor|]. rewrite reverse_cons.
  apply StronglySorted_app. split_and!; [|done|by repeat constructor].
  intros a b Ha Hb%list_elem_of_singleton. subst b. rewrite elem_of_reverse in Ha.
  rewrite Forall_forall in Hx. by apply Hx.
Qed.
End insertion.

Lemma SortFunc_sorts {A} sort_long : sorts sort_long → sorts (@SortFunc A sort_long).
Proof.
  intros Hl cmp l Hnd Ho. unfold SortFunc. case_decide; [by apply insertion_sort_spec|by apply Hl].
Qed.
End Slices.

(** ** strconv and encoding/hex *)
Module Strconv.

Definition lower (c : Z) : Z := Z.lor c 32.

(** The digit a byte stands for, as in [ParseUint]'s switch. *)
Definition digit_of (c : Z) : option Z :=
  if decide (48 ≤ c ≤ 57) then Some (c - 48)
  else if decide (97 ≤ lower c ≤ 122) then Some (lower c - 97 + 10)
  else None.

Definition maxUint64 : Z := 2 ^ 64 - 1.

Fixpoint parse_loop (base maxVal : Z) (s : bytes) (n : Z) : Z * option go_error :=
  match s with
  | [] => (n, None)
  | c :: s =>
      match digit_of c with
      | None => (0, Some ErrSyntax)
      | Some d =>
          if decide (base ≤ d) then (0, Some ErrSyntax)
          else if decide (maxUint64 `div` base + 1 ≤ n) then (maxVal, Some ErrRange)
          else
            let n := n * base in
            let n1 := u64 (n + d) in
            if decide (n1 < n ∨ maxVal < n1) then (maxVal, Some ErrRange)
            else parse_loop base maxVal s n1
      end
  end.

(** [strconv.ParseUint] for an explicit base. *)
Definition ParseUint (s : bytes) (base bitSize : Z) : Z * option go_error :=
  match s with
  | [] => (0, Some ErrSyntax)
  | _ => parse_loop base (2 ^ bitSize - 1) s 0
  end.

(** [strconv.Atoi]: an optional sign, then a 64-bit unsigned decimal. *)
Definition Atoi (s : bytes) : Z * option go_error :=
  match s with
  | [] => (0, Some ErrSyntax)
  | c :: s' =>
      let neg := bool_decide (c = 45) in
      let digits := if decide (c = 45 ∨ c = 43) then s' else s in
      match ParseUint digits 10 64 with
      | (_, Some ErrSyntax) => (0, Some ErrSyntax)
      | (un, e) =>
          if negb neg && bool_decide (2 ^ 63 ≤ un) then (2 ^ 63 - 1, Some ErrRange)
          else if neg && bool_decide (2 ^ 63 < un) then (- 2 ^ 63, Some ErrRange)
          else ((if neg then - un else un), e)
      end
  end.

Definition digit_char (d : Z) : Z := if decide (d < 10) then 48 + d else 87 + d.

(** Digits of [n], most significant first; 64 digits hold any 64-bit value. *)
Fixpoint format_loop (fuel : nat) (base n : Z) (acc : bytes) : bytes :=
  match fuel with
  | O => acc
  | S fuel =>
      let acc := digit_char (n `mod` base) :: acc in
      if decide (n < base) then acc else format_loop fuel base (n `div` base) acc
  end.

Definition FormatUint (n base : Z) : bytes := format_loop 64 base n [].
Definition Itoa (n : Z) : bytes :=
  if decide (n < 0) then 45 :: FormatUint (- n) 10 else FormatUint n 10.

(** [hex.EncodeToString]. *)
Fixpoint EncodeToString (b : bytes) : bytes :=
  match b with
  | [] => []
  | x :: b => digit_char (x `div` 16) :: digit_char (x `mod` 16) :: EncodeToString b
  end.

(** [fmt.Sprintf("%03d", b)] of a byte. *)
Definition Sprintf_03d (b : Z) : bytes :=
  let d := FormatUint b 10 in replicate (3 - length d) 48 ++ d.

End Strconv.

(** ** Ranging over a string *)
Module Utf8.

Definition RuneError : Z := 65533.
Definition cont (lo hi : Z) (b : option Z) : option Z :=
  match b with
  | Some c => if decide (lo ≤ c ≤ hi) then Some (Z.land c 63) else None
  | None => None
  end.

(** [utf8.DecodeRune]: the rune at the front and its width. *)
Definition DecodeRune (s : bytes) : Z * nat :=
  let bad := (RuneError, 1%nat) in
  match s with
  | [] => (RuneError, 0%nat)
  | b :: t =>
      if decide (b < 128) then (b, 1%nat)
      else if decide (194 ≤ b ≤ 223) then
        match cont 128 191 (t !! 0%nat) with
        | Some c => (Z.lor (Z.shiftl (Z.land b 31) 6) c, 2%nat)
        | None => bad
        end
      else if decide (224 ≤ b ≤ 239) then
        let lo := if decide (b = 224) then 160 else 128 in
        let hi := if decide (b = 237) then 159 else 191 in
        match cont lo hi (t !! 0%nat), cont 128 191 (t !! 1%nat) with
        | Some c, Some d =>
            (Z.lor (Z.shiftl (Z.land b 15) 12) (Z.lor (Z.shiftl c 6) d), 3%nat)
        | _, _ => bad
        end
      else if decide (240 ≤ b ≤ 244) then
        let lo := if decide (b = 240) then 144 else 128 in
        let hi := if decide (b = 244) then 143 else 191 in
        match cont lo hi (t !! 0%nat), cont 128 191 (t !! 1%nat), cont 128 191 (t !! 2%nat) with
        | Some c, Some d, Some e =>
            (Z.lor (Z.shiftl (Z.land b 7) 18)
               (Z.lor (Z.shiftl c 12) (Z.lor (Z.shiftl d 6) e)), 4%nat)
        | _, _, _ => bad
        end
      else bad
  end.

Fixpoint range_loop (fuel : nat) (i : Z) (s : bytes) : list (Z * Z) :=
  match fuel, s with
  | S fuel, _ :: _ =>
      let '(r, w) := DecodeRune s in
      (i, r) :: range_loop fuel (i + Z.of_nat w) (drop w s)
  | _, _ => []
  end.

(** [for i, c := range s]: byte positions and runes. *)
Definition range (s : bytes) : list (Z * Z) := range_loop (length s) 0 s.

End Utf8.

(** ** hash/crc32 *)
Module Crc32.

Definition castagnoli : Z := 0x82f63b78.
Definition bit_step (c : Z) : Z :=
  if Z.odd c then Z.lxor (Z.shiftr c 1) castagnoli else Z.shiftr c 1.
Definition table_entry (i : Z) : Z := Nat.iter 8 bit_step i.
Definition complement (c : Z) : Z := Z.lxor c 0xffffffff.

(** [crc32.Update] with the byte table of the Castagnoli polynomial. *)
Definition Update (crc : Z) (p : bytes) : Z :=
  complement (foldl
    (λ c v, Z.lxor (table_entry (Z.lxor (Z.land c 255) v)) (Z.shiftr c 8))
    (complement crc) p).

Example check_value : Update 0 (str "123456789") = 0xE3069283.
Proof. reflexivity. Qed.

End Crc32.

(** ** os.File

    The contents, and the size past which the device refuses to grow the file
    ([None]: no limit).  [ReadAt] returns [io.EOF] exactly when it reads fewer
    bytes than asked for; [WriteAt] past the end zero-fills, and past the limit
    stores what fits and fails; [Truncate] fails when it would grow the file past
    the limit. *)
Module OsFile.

Record os_file := OsF { f_data : bytes; f_limit : option Z }.

Definition ReadAt (f : bytes) (off n : Z) : bytes * option go_error :=
  if decide (off < 0) then ([], Some (Errorf "negative offset"))
  else let d := sub f off n in
       (d, if decide (zlen d < n) then Some EOF else None).

Definition put (f : bytes) (off : Z) (p : bytes) : bytes :=
  splice (f ++ zeros (off + zlen p - zlen f)) off p.

Definition fits (f : os_file) (off : Z) (p : bytes) : Z :=
  match f_limit f with
  | None => zlen p
  | Some q => Z.max 0 (Z.min (zlen p) (q - off))
  end.

Definition WriteAt (f : os_file) (p : bytes) (off : Z) : os_file * Z * option go_error :=
  if decide (off < 0) then (f, 0, Some (Errorf "negative offset"))
  else
    let n := fits f off p in
    let f' := if decide (0 < n) then
                OsF (put (f_data f) off (sub p 0 n)) (f_limit f) else f in
    (f', n, if decide (n < zlen p) then Some ErrNoSpace else None).

Definition Truncate (f : os_file) (n : Z) : os_file * option go_error :=
  if decide (n < 0) then (f, Some ErrInvalid)
  else if decide (Z.max (zlen (f_data f)) (default n (f_limit f)) < n) then (f, Some ErrNoSpace)
  else (OsF (sub (f_data f ++ zeros (n - zlen (f_data f))) 0 n) (f_limit f), None).

(** Appending to a file without a limit. *)
Lemma WriteAt_end o p :
  f_limit o = None → WriteAt o p (zlen (f_data o)) = (OsF (f_data o ++ p) None, zlen p, None).
Proof.
  intros H. unfold WriteAt. rewrite decide_False by (pose proof (zlen_nonneg (f_data o)); lia).
  unfold fits. rewrite H, (decide_False (P := zlen p < zlen p)) by lia.
  case_decide as Hp.
  - do 2 f_equal. unfold put, splice. rewrite sub_all by lia.
    replace (zlen (f_data o) + zlen p - zlen (f_data o)) with (zlen p) by lia.
    rewrite take_zlen. rewrite drop_ge by (rewrite length_app; unfold zeros, zlen; rewrite length_replicate; lia).
    by rewrite app_nil_r.
  - rewrite (zlen_0 p) by (pose proof (zlen_nonneg p); lia). rewrite app_nil_r.
    destruct o; cbn in *. by subst.
Qed.

Lemma ReadAt_full f off n :
  0 ≤ off → 0 ≤ n → off + n ≤ zlen f → ReadAt f off n = (sub f off n, None).
Proof.
  intros. unfold ReadAt. rewrite decide_False by lia.
  rewrite decide_False by (rewrite zlen_sub by lia; lia). done.
Qed.

Lemma put_append f p : put f (zlen f) p = f ++ p.
Proof.
  unfold put, splice.
  rewrite take_app_le by (unfold zlen; lia).
  rewrite take_ge by (unfold zlen; lia).
  rewrite drop_ge; [by rewrite app_nil_r|].
  rewrite length_app. unfold zeros. rewrite length_replicate. unfold zlen. lia.
Qed.

Lemma zlen_put f off p : 0 ≤ off → zlen (put f off p) = Z.max (zlen f) (off + zlen p).
Proof. intros. unfold put. rewrite zlen_splice; zl. Qed.

(** Reading back what was written, and what was not. *)
Lemma put_read_same f off p : 0 ≤ off → sub (put f off p) off (zlen p) = p.
Proof.
  intros. unfold put, splice. apply sub_mid; [|done]. zl.
Qed.

Lemma put_read_below f off p lo n :
  0 ≤ lo → lo + n ≤ off → lo + n ≤ zlen f → sub (put f off p) lo n = sub f lo n.
Proof.
  intros. unfold put, splice.
  rewrite sub_app_l by (zl; unfold zlen in *; lia).
  unfold sub. destruct (decide (n ≤ 0)).
  { replace (Z.to_nat n) with 0%nat by lia. by rewrite !take_0. }
  rewrite skipn_firstn_comm, take_take.
  rewrite drop_app_le by (unfold zlen in *; lia).
  rewrite take_app_le by (rewrite length_drop; unfold zlen in *; lia).
  f_equal. lia.
Qed.

Lemma Truncate_shrink f n :
  0 ≤ n ≤ zlen (f_data f) → Truncate f n = (OsF (sub (f_data f) 0 n) (f_limit f), None).
Proof.
  intros. unfold Truncate. rewrite !decide_False by lia.
  rewrite sub_app_l by lia. done.
Qed.

End OsFile.
