(* ===== verification/Bytes.v ===== *)
(** * Bytes: big-endian integers (weed/util/bytes.go)

    The readers accept any non-empty slice; the writers store through a window
    of a larger buffer.  [be_val] and [be_split] are the reference codec. *)

From S2P Require Import Prelude.

(** [b[i] = x] *)
Definition set_index (b : bytes) (i x : Z) : res bytes :=
  if decide (0 ≤ i < zlen b) then Ok (<[Z.to_nat i := x]> b) else Panic.

(** The common loop of [BytesToUint64] and [BytesToUint32] at width [w]:
    every byte but the last is added and shifted, the last one is added.  On an
    empty slice [length-1] wraps around and [b[0]] panics. *)
Fixpoint be_load (w v : Z) (b : bytes) : res Z :=
  match b with
  | [] => Panic
  | [x] => Ok (wrap w (v + x))
  | x :: b => be_load w (wrap w (Z.shiftl (wrap w (v + x)) 8)) b
  end.

Definition BytesToUint64 (b : bytes) : res Z := be_load 64 0 b.
Definition BytesToUint32 (b : bytes) : res Z := be_load 32 0 b.
Definition BytesToUint16 (b : bytes) : res Z :=
  match b with
  | b0 :: b1 :: _ => Ok (u16 (u16 (Z.shiftl (u16 b0) 8) + b1))
  | _ => Panic
  end.

(** [for i := 0; i < n; i++ { b[n-1-i] = byte(v >> (i*8)) }] *)
Definition be_store (n : nat) (b : bytes) (v : Z) : res bytes :=
  foldl (λ r i, b ← r; set_index b (Z.of_nat n - 1 - Z.of_nat i)
                         (u8 (Z.shiftr v (Z.of_nat i * 8))))
    (Ok b) (seq 0 n).

Definition Uint64toBytes (b : bytes) (v : Z) : res bytes := be_store 8 b v.
Definition Uint32toBytes (b : bytes) (v : Z) : res bytes := be_store 4 b v.
Definition Uint16toBytes (b : bytes) (v : Z) : res bytes :=
  b ← set_index b 0 (u8 (Z.shiftr v 8)); set_index b 1 (u8 v).
Definition Uint8toBytes (b : bytes) (v : Z) : res bytes := set_index b 0 (u8 v).

(** A call [f(h[lo:hi], ...)] that fills a window of the buffer [h]. *)
Definition window (h : bytes) (lo hi : Z) (f : bytes → res bytes) : res bytes :=
  if decide (0 ≤ lo ∧ lo ≤ hi ∧ hi ≤ zlen h)
  then w ← f (sub h lo (hi - lo)); mret (splice h lo w)
  else Panic.

(** ** Reference codec *)

Definition be_val (b : bytes) : Z := foldl (λ a x, a * 256 + x) 0 b.

Fixpoint be_split (n : nat) (v : Z) : bytes :=
  match n with
  | O => []
  | S n => u8 (Z.shiftr v (8 * Z.of_nat n)) :: be_split n v
  end.

Lemma length_be_split n v : length (be_split n v) = n.
Proof. induction n; simpl; auto. Qed.
Lemma zlen_be_split n v : zlen (be_split n v) = Z.of_nat n.
Proof. unfold zlen. by rewrite length_be_split. Qed.
#[export] Hint Rewrite zlen_be_split : zlen.

Lemma be_split_ok n v : bytes_ok (be_split n v).
Proof. induction n; simpl; constructor; auto. apply (wrap_range 8). lia. Qed.
#[export] Hint Resolve be_split_ok : bytes.

Lemma foldl_be b a : foldl (λ a x, a * 256 + x) a b = a * 256 ^ zlen b + be_val b.
Proof.
  unfold be_val. revert a. induction b as [|x b IH]; intros a; cbn [foldl].
  { rewrite zlen_nil. lia. }
  rewrite (IH (a * 256 + x)), (IH (0 * 256 + x)), zlen_cons.
  rewrite Z.pow_add_r by zl. lia.
Qed.

Lemma be_val_cons x b : be_val (x :: b) = x * 256 ^ zlen b + be_val b.
Proof. unfold be_val. cbn [foldl]. rewrite foldl_be. unfold be_val. lia. Qed.
Lemma be_val_app b c : be_val (b ++ c) = be_val b * 256 ^ zlen c + be_val c.
Proof. unfold be_val at 1. rewrite foldl_app. apply foldl_be. Qed.

Lemma be_val_split n v : be_val (be_split n v) = v `mod` 2 ^ (8 * Z.of_nat n).
Proof.
  induction n as [|n IH].
  { simpl. by rewrite Z.mod_1_r. }
  cbn [be_split]. rewrite be_val_cons, IH, zlen_be_split.
  unfold wrap. rewrite Z.shiftr_div_pow2 by lia.
  replace (256 ^ Z.of_nat n) with (2 ^ (8 * Z.of_nat n))
    by (rewrite Z.pow_mul_r by lia; done).
  replace (8 * Z.of_nat (S n)) with (8 * Z.of_nat n + 8) by lia.
  rewrite Z.pow_add_r by lia.
  rewrite (Z.rem_mul_r v (2 ^ (8 * Z.of_nat n)) (2 ^ 8)) by lia. lia.
Qed.

Lemma be_val_bound b : bytes_ok b → 0 ≤ be_val b < 256 ^ zlen b.
Proof.
  induction 1 as [|x b Hx Hb IH]; [done|].
  rewrite be_val_cons, zlen_cons, Z.pow_add_r by zl. unfold is_byte in Hx. nia.
Qed.

(** Only the low [n] bytes matter. *)
Lemma be_split_ext n a c :
  a `mod` 2 ^ (8 * Z.of_nat n) = c `mod` 2 ^ (8 * Z.of_nat n) →
  be_split n a = be_split n c.
Proof.
  revert a c. induction n as [|n IH]; [done|]. intros a c Hac. cbn [be_split].
  replace (8 * Z.of_nat (S n)) with (8 * Z.of_nat n + 8) in Hac by lia.
  rewrite Z.pow_add_r, !Z.rem_mul_r in Hac by lia.
  pose proof (Z.mod_pos_bound a (2 ^ (8 * Z.of_nat n)) ltac:(lia)).
  pose proof (Z.mod_pos_bound c (2 ^ (8 * Z.of_nat n)) ltac:(lia)).
  destruct (Z.div_mod_unique (2 ^ (8 * Z.of_nat n))
    ((a `div` 2 ^ (8 * Z.of_nat n)) `mod` 2 ^ 8)
    ((c `div` 2 ^ (8 * Z.of_nat n)) `mod` 2 ^ 8)
    (a `mod` 2 ^ (8 * Z.of_nat n)) (c `mod` 2 ^ (8 * Z.of_nat n)))
    as [Hq Hr]; [lia..|].
  f_equal; [|by apply IH]. unfold wrap. by rewrite !Z.shiftr_div_pow2 by lia.
Qed.

(** Splitting the value of a byte string gives the byte string back. *)
Lemma be_split_val b : bytes_ok b → be_split (length b) (be_val b) = b.
Proof.
  induction 1 as [|x b Hx Hb IH]; [done|]. cbn [length be_split].
  pose proof (be_val_bound b Hb) as Hbound. rewrite be_val_cons.
  assert (256 ^ zlen b = 2 ^ (8 * Z.of_nat (length b))) as Hp
    by (unfold zlen; rewrite Z.pow_mul_r by lia; done).
  rewrite Hp in *. f_equal.
  - rewrite Z.shiftr_div_pow2 by lia.
    rewrite Z.div_add_l, (Z.div_small (be_val b)), Z.add_0_r by lia.
    apply wrap_id. exact Hx.
  - etransitivity; [|exact IH]. apply be_split_ext.
    rewrite Z.add_comm, Z.mod_add by lia. done.
Qed.

(** ** The loops compute the reference codec *)

Lemma be_load_val w v b :
  0 ≤ w → b ≠ [] → be_load w v b = Ok (wrap w (v * 256 ^ (zlen b - 1) + be_val b)).
Proof.
  intros Hw. revert v. induction b as [|x b IH]; [done|]. intros v _.
  destruct b as [|y b].
  { cbn [be_load]. unfold be_val; cbn [foldl]. rewrite zlen_cons, (@zlen_nil Z).
    change (256 ^ (1 + 0 - 1)) with 1. do 2 f_equal. lia. }
  change (be_load w v (x :: y :: b))
    with (be_load w (wrap w (Z.shiftl (wrap w (v + x)) 8)) (y :: b)).
  rewrite IH by done. rewrite (be_val_cons x), (zlen_cons x). f_equal. unfold wrap.
  rewrite Z.shiftl_mul_pow2 by lia.
  assert (256 ^ zlen (y :: b) = 256 * 256 ^ (zlen (y :: b) - 1)) as Hp.
  { rewrite <- Z.pow_succ_r by (rewrite zlen_cons; zl). f_equal. lia. }
  replace (1 + zlen (y :: b) - 1) with (zlen (y :: b)) by lia. rewrite Hp.
  rewrite (Zmult_mod_idemp_l (v + x)).
  rewrite <- Zplus_mod_idemp_l, Zmult_mod_idemp_l, Zplus_mod_idemp_l.
  f_equal. change (2 ^ 8) with 256. lia.
Qed.

(** Loading [b] at a width that holds it is the big-endian value. *)
Lemma be_load_exact w b :
  0 ≤ w → b ≠ [] → bytes_ok b → 8 * zlen b ≤ w → be_load w 0 b = Ok (be_val b).
Proof.
  intros Hw Hb Hok Hlen. rewrite be_load_val by done. rewrite Z.mul_0_l, Z.add_0_l.
  f_equal. apply wrap_id. pose proof (be_val_bound b Hok).
  assert (256 ^ zlen b ≤ 2 ^ w); [|red; lia].
  change 256 with (2 ^ 8). rewrite <- Z.pow_mul_r by zl.
  apply Z.pow_le_mono_r; lia.
Qed.

Lemma zlen_length {A} (l : list A) n : zlen l = Z.of_nat n → length l = n.
Proof. unfold zlen. lia. Qed.

Lemma be_store_64 b v : length b = 8%nat → Uint64toBytes b v = Ok (be_split 8 v).
Proof.
  intros H. do 8 (destruct b as [|? b]; [discriminate H|]).
  destruct b; [|discriminate H]. reflexivity.
Qed.
Lemma be_store_32 b v : length b = 4%nat → Uint32toBytes b v = Ok (be_split 4 v).
Proof.
  intros H. do 4 (destruct b as [|? b]; [discriminate H|]).
  destruct b; [|discriminate H]. reflexivity.
Qed.
Lemma be_store_16 b v : length b = 2%nat → Uint16toBytes b v = Ok (be_split 2 v).
Proof.
  intros H. do 2 (destruct b as [|? b]; [discriminate H|]).
  destruct b; [|discriminate H]. reflexivity.
Qed.
Lemma be_store_8 b v : length b = 1%nat → Uint8toBytes b v = Ok (be_split 1 v).
Proof.
  intros H. destruct b as [|? b]; [discriminate H|].
  destruct b; [|discriminate H]. reflexivity.
Qed.

(** Filling a window replaces exactly those bytes. *)
Lemma window_be n h lo hi v f :
  0 ≤ lo → hi = lo + Z.of_nat n → hi ≤ zlen h →
  (∀ w, length w = n → f w = Ok (be_split n v)) →
  window h lo hi f = Ok (splice h lo (be_split n v)).
Proof.
  intros Hlo -> Hhi Hf. unfold window. rewrite decide_True by lia.
  rewrite Hf; [done|]. apply zlen_length. rewrite zlen_sub by lia. lia.
Qed.

Lemma BytesToUint16_val b : length b = 2%nat → bytes_ok b → BytesToUint16 b = Ok (be_val b).
Proof.
  intros H Hb. do 2 (destruct b as [|? b]; [discriminate H|]).
  destruct b; [|discriminate H]. apply Forall_cons in Hb as [H1 Hb].
  apply Forall_cons in Hb as [H2 _]. unfold is_byte in *.
  unfold BytesToUint16, be_val; cbn [foldl].
  rewrite Z.shiftl_mul_pow2 by lia. unfold wrap.
  change (2 ^ 8) with 256. change (2 ^ 16) with 65536. f_equal. mlia.
Qed.

Section roundtrip.
Context (v : Z).

Lemma load_split w n :
  0 < Z.of_nat n → w = 8 * Z.of_nat n → in_u w v → be_load w 0 (be_split n v) = Ok v.
Proof.
  intros Hn -> Hv. rewrite be_load_exact; auto with bytes; try (zl; lia).
  - rewrite be_val_split. f_equal. by apply Z.mod_small.
  - intros E. apply (f_equal zlen) in E. rewrite zlen_be_split, zlen_nil in E. lia.
Qed.

(** What the writers store, the readers of the same width load. *)
Theorem uint_bytes_roundtrip b8 b4 b2 :
  length b8 = 8%nat → length b4 = 4%nat → length b2 = 2%nat →
  (in_u 64 v → (c ← Uint64toBytes b8 v; BytesToUint64 c) = Ok v) ∧
  (in_u 32 v → (c ← Uint32toBytes b4 v; BytesToUint32 c) = Ok v) ∧
  (in_u 16 v → (c ← Uint16toBytes b2 v; BytesToUint16 c) = Ok v).
Proof.
  intros. rewrite be_store_64, be_store_32, be_store_16 by done. cbn [mbind res_bind].
  split; [|split]; intros Hv.
  - by apply load_split.
  - by apply load_split.
  - rewrite BytesToUint16_val by auto using length_be_split with bytes.
    rewrite be_val_split. f_equal. by apply Z.mod_small.
Qed.
End roundtrip.

Lemma uint_bytes_roundtrip_witness :
  (c ← Uint64toBytes (zeros 8) 0x0102030405060708; BytesToUint64 c) = Ok 0x0102030405060708.
Proof.
  apply (uint_bytes_roundtrip 0x0102030405060708 (zeros 8) (zeros 4) (zeros 2)
           eq_refl eq_refl eq_refl).
  split; [intros E; discriminate E|reflexivity].
Defined.
