(* ===== verification/SortedList.v ===== *)
(** * SortedList: lists kept in ascending order of a key

    The index segments, the shard sets and the sorted index files all keep a list
    strictly ascending in an integer key and search it with [sort.Search].  The
    lemmas here are shared by them: lookup by key, the position the binary search
    returns, and insertion, update and removal at a position. *)

From S2P Require Import Prelude GoStd.

Section sorted.
Context {A : Type} {key : A → Z}.
Abbreviation keys l := (key <$> l).
Abbreviation ascending l := (StronglySorted Z.lt (keys l)).

(** Lookup by key. *)
Fixpoint find (l : list A) (k : Z) : option A :=
  match l with
  | [] => None
  | e :: l => if decide (key e = k) then Some e else find l k
  end.

(** [l[i].key >= k], the predicate the searches use; false past the end. *)
Definition at_least (l : list A) (k i : Z) : bool :=
  match (if decide (0 ≤ i) then l !! Z.to_nat i else None) with
  | Some e => bool_decide (k ≤ key e)
  | None => false
  end.

Lemma find_Some l k e : find l k = Some e → e ∈ l ∧ key e = k.
Proof.
  induction l as [|x l IH]; [done|]. cbn. case_decide.
  - intros [= <-]. split; [by left|done].
  - intros H1. destruct (IH H1). split; [by right|done].
Qed.

Lemma find_None l k : find l k = None ↔ ∀ e, e ∈ l → key e ≠ k.
Proof.
  induction l as [|x l IH]; cbn.
  { split; [|done]. intros _ e He. by apply not_elem_of_nil in He. }
  case_decide as Hx.
  - split; [done|]. intros H. destruct (H x); [by left|done].
  - rewrite IH. split; intros H e; [|intros He; apply H; by right].
    intros He. apply elem_of_cons in He as [->|He]; auto.
Qed.

Lemma find_app l l' k :
  find (l ++ l') k = match find l k with Some e => Some e | None => find l' k end.
Proof. induction l as [|x l IH]; cbn; [done|]. by case_decide. Qed.

(** ** Positions *)

Lemma sorted_lookup l i j x y :
  ascending l → l !! i = Some x → l !! j = Some y → (i < j)%nat → key x < key y.
Proof.
  revert i j. induction l as [|e l IH]; intros i j Hs Hi Hj Hij; [done|].
  cbn in Hs. apply StronglySorted_inv in Hs as [Hs Hall].
  destruct i as [|i], j as [|j]; [lia| |lia|]; cbn in Hi, Hj.
  - injection Hi as ->. rewrite Forall_forall in Hall. apply Hall.
    apply list_elem_of_fmap. exists y. split; [done|]. by eapply list_elem_of_lookup_2.
  - eapply (IH i j); eauto. lia.
Qed.

Lemma sorted_split l i :
  ascending l →
  ascending (take i l) ∧ ascending (drop i l) ∧
  ∀ x y, x ∈ take i l → y ∈ drop i l → key x < key y.
Proof.
  intros Hs. pose proof Hs as Hs2. rewrite <- (take_drop i l), fmap_app in Hs2.
  apply StronglySorted_app in Hs2 as (H1 & H2 & H3). split_and!; [done..|].
  intros x y Hx Hy. apply H1; apply list_elem_of_fmap; eauto.
Qed.

(** At a position that splits the keys around [k], [k] is not stored. *)
Lemma find_split l i k :
  (∀ x, x ∈ take i l → key x < k) → (∀ y, y ∈ drop i l → k < key y) → find l k = None.
Proof.
  intros H1 H2. apply find_None. intros e He. rewrite <- (take_drop i l) in He.
  apply elem_of_app in He as [He|He]; [specialize (H1 e He)|specialize (H2 e He)]; lia.
Qed.

Lemma find_at l i e : ascending l → l !! i = Some e → find l (key e) = Some e.
Proof.
  intros Hs Hi. rewrite <- (take_drop_middle l i e Hi), find_app.
  assert (find (take i l) (key e) = None) as ->.
  { apply find_None. intros x Hx. apply list_elem_of_lookup_1 in Hx as [j Hj].
    apply lookup_take_Some in Hj as [Hj Hlt].
    pose proof (sorted_lookup l j i x e Hs Hj Hi Hlt). lia. }
  cbn. by rewrite decide_True.
Qed.

Lemma find_elem l e : ascending l → e ∈ l → find l (key e) = Some e.
Proof. intros Hs He. apply list_elem_of_lookup_1 in He as [i Hi]. by eapply find_at. Qed.

Lemma head_least e l y : ascending (e :: l) → y ∈ e :: l → key e ≤ key y.
Proof.
  intros Hs Hy. cbn in Hs. apply StronglySorted_inv in Hs as [_ Hall].
  apply elem_of_cons in Hy as [->|Hy]; [done|]. rewrite Forall_forall in Hall.
  assert (key e < key y); [|lia]. apply Hall, list_elem_of_fmap. eauto.
Qed.

Lemma last_greatest l e y : ascending l → last l = Some e → y ∈ l → key y ≤ key e.
Proof.
  intros Hs Hl Hy. rewrite last_lookup in Hl.
  apply list_elem_of_lookup_1 in Hy as [j Hj]. pose proof (lookup_lt_Some _ _ _ Hj).
  destruct (decide (j = Nat.pred (length l))) as [->|].
  - rewrite Hl in Hj. injection Hj as <-. done.
  - pose proof (sorted_lookup l j (Nat.pred (length l)) y e Hs Hj Hl ltac:(lia)). lia.
Qed.

(** ** The binary search *)

Lemma at_least_nat l k i e : l !! i = Some e → at_least l k (Z.of_nat i) = bool_decide (k ≤ key e).
Proof. intros H. unfold at_least. rewrite decide_True by lia. by rewrite Nat2Z.id, H. Qed.

Lemma at_least_mono l k a b :
  ascending l → 0 ≤ a ≤ b → b < zlen l → at_least l k a = true → at_least l k b = true.
Proof.
  intros Hs Hab Hb. rewrite <- (Z2Nat.id a), <- (Z2Nat.id b) by lia.
  destruct (lookup_lt_is_Some_2 l (Z.to_nat a)) as [x Hx]; [unfold zlen in *; lia|].
  destruct (lookup_lt_is_Some_2 l (Z.to_nat b)) as [y Hy]; [unfold zlen in *; lia|].
  rewrite (at_least_nat _ _ _ _ Hx), (at_least_nat _ _ _ _ Hy), !bool_decide_eq_true.
  intros. destruct (decide (a = b)) as [->|]; [congruence|].
  pose proof (sorted_lookup l _ _ x y Hs Hx Hy ltac:(lia)). lia.
Qed.

(** The search stops where the smaller keys end. *)
Lemma search_position l k :
  ascending l →
  ∃ i, Sort.Search (zlen l) (at_least l k) = Z.of_nat i ∧ (i ≤ length l)%nat ∧
    (∀ x, x ∈ take i l → key x < k) ∧ (∀ y, y ∈ drop i l → k ≤ key y).
Proof.
  intros Hs. destruct (Sort.Search_spec (at_least l k) (zlen l)) as (Hr & Hlo & Hhi);
    [intros; by apply (at_least_mono l k a)|apply zlen_nonneg|].
  set (r := Sort.Search _ _) in *. clearbody r. exists (Z.to_nat r).
  split_and!; [lia|unfold zlen in Hr; lia|..].
  - intros x Hx. apply list_elem_of_lookup_1 in Hx as [j Hj].
    apply lookup_take_Some in Hj as [Hj Hlt]. specialize (Hlo (Z.of_nat j) ltac:(lia)).
    rewrite (at_least_nat _ _ _ _ Hj), bool_decide_eq_false in Hlo. lia.
  - intros y Hy. apply list_elem_of_lookup_1 in Hy as [j Hj]. rewrite lookup_drop in Hj.
    pose proof (lookup_lt_Some _ _ _ Hj).
    specialize (Hhi (Z.of_nat (Z.to_nat r + j)) ltac:(unfold zlen in *; lia)).
    by rewrite (at_least_nat _ _ _ _ Hj), bool_decide_eq_true in Hhi.
Qed.

(** What a search for [k] found at position [i]. *)
Definition located (l : list A) (k : Z) (i : nat) (found : bool) : Prop :=
  (i ≤ length l)%nat ∧
  if found then ∃ e, l !! i = Some e ∧ key e = k
  else (∀ x, x ∈ take i l → key x < k) ∧ (∀ y, y ∈ drop i l → k < key y).

Lemma position_located l k i :
  ascending l → (i ≤ length l)%nat →
  (∀ x, x ∈ take i l → key x < k) → (∀ y, y ∈ drop i l → k ≤ key y) →
  located l k i (match l !! i with Some e => bool_decide (key e = k) | None => false end).
Proof.
  intros Hs Hi H1 H2. split; [done|]. destruct (l !! i) as [e|] eqn:He.
  - case_bool_decide as Hk; [by exists e|]. split; [done|]. intros y Hy.
    pose proof (H2 e ltac:(eapply list_elem_of_lookup_2; by rewrite lookup_drop, Nat.add_0_r)).
    apply list_elem_of_lookup_1 in Hy as [j Hj]. rewrite lookup_drop in Hj.
    destruct (decide (j = 0%nat)) as [->|].
    + rewrite Nat.add_0_r, He in Hj. injection Hj as <-. lia.
    + pose proof (sorted_lookup l _ _ e y Hs He Hj ltac:(lia)). lia.
  - split; [done|]. apply lookup_ge_None in He. rewrite drop_ge by done.
    intros y Hy. by apply not_elem_of_nil in Hy.
Qed.

Lemma located_find l k i found :
  ascending l → located l k i found →
  find l k = if found then l !! i else None.
Proof.
  intros Hs [Hi Hl]. destruct found.
  - destruct Hl as (e & He & <-). by rewrite He, (find_at l i e Hs He).
  - destruct Hl. by eapply find_split.
Qed.

(** ** Changes at a position *)

Lemma find_update l i e e' k :
  ascending l → l !! i = Some e → key e' = key e →
  find (<[i := e']> l) k = if decide (key e = k) then Some e' else find l k.
Proof.
  intros Hs Hi Hk. pose proof (lookup_lt_Some _ _ _ Hi).
  case_decide as Hd.
  - subst k. rewrite <- Hk. apply (find_at _ i); [|by apply list_lookup_insert_eq].
    rewrite list_fmap_insert, list_insert_id; [done|]. by rewrite list_lookup_fmap, Hi, Hk.
  - rewrite insert_take_drop by done. rewrite <- (take_drop_middle l i e Hi) at 3.
    rewrite !find_app. cbn. by rewrite !decide_False by congruence.
Qed.

Lemma keys_update (l : list A) (i : nat) e e' :
  l !! i = Some e → key e' = key e → keys (<[i := e']> l) = keys l.
Proof.
  intros Hi Hk. rewrite list_fmap_insert, list_insert_id; [done|].
  by rewrite list_lookup_fmap, Hi, Hk.
Qed.

Lemma elem_of_update (l : list A) (i : nat) (e' x : A) : x ∈ <[i := e']> l → x = e' ∨ x ∈ l.
Proof.
  intros Hx. apply list_elem_of_lookup_1 in Hx as [j Hj].
  apply list_lookup_insert_Some in Hj as [(_ & <- & _)|(_ & Hj)]; [by left|right].
  by eapply list_elem_of_lookup_2.
Qed.

Lemma find_insert l i x k :
  find l (key x) = None →
  find (take i l ++ x :: drop i l) k = if decide (key x = k) then Some x else find l k.
Proof.
  intros Hn. rewrite <- (take_drop i l) in Hn at 1. rewrite find_app in Hn.
  assert (find l k = find (take i l ++ drop i l) k) as -> by (by rewrite take_drop).
  rewrite !find_app. cbn. case_decide as Hd.
  - subst k. by destruct (find (take i l) (key x)).
  - by destruct (find (take i l) k).
Qed.

Lemma elem_of_insert (l : list A) (i : nat) (x y : A) : y ∈ take i l ++ x :: drop i l ↔ y = x ∨ y ∈ l.
Proof. rewrite <- (take_drop i l) at 3. rewrite !elem_of_app, elem_of_cons. tauto. Qed.

Lemma sorted_insert l i x :
  ascending l → (∀ y, y ∈ take i l → key y < key x) → (∀ y, y ∈ drop i l → key x < key y) →
  ascending (take i l ++ x :: drop i l).
Proof.
  intros Hs H1 H2. destruct (sorted_split l i Hs) as (Ha & Hb & Hab).
  rewrite fmap_app, fmap_cons. apply StronglySorted_app. split_and!; [|done|].
  - intros a b Ha' Hb'. apply list_elem_of_fmap in Ha' as (y & -> & Hy).
    apply elem_of_cons in Hb' as [->|Hb']; [by apply H1|].
    apply list_elem_of_fmap in Hb' as (z & -> & Hz). by apply Hab.
  - constructor; [done|]. apply Forall_forall. intros b Hb'.
    apply list_elem_of_fmap in Hb' as (z & -> & Hz). by apply H2.
Qed.

Lemma find_remove l i e k :
  ascending l → l !! i = Some e →
  find (take i l ++ drop (S i) l) k = if decide (key e = k) then None else find l k.
Proof.
  intros Hs Hi. pose proof (take_drop_middle l i e Hi) as El.
  assert (find l k = find (take i l ++ e :: drop (S i) l) k) as Ef by (by rewrite El).
  rewrite find_app in Ef |- *. cbn [find] in Ef. case_decide as Hd.
  - subst k. pose proof (find_at l i e Hs Hi) as Ha. rewrite Ef in Ha.
    destruct (sorted_split l i Hs) as (_ & _ & Hab).
    destruct (sorted_split l (S i) Hs) as (_ & _ & Hab2).
    destruct (find (take i l) (key e)) as [x|] eqn:Ex.
    + apply find_Some in Ex as [Hx Hk].
      assert (key x < key e); [|lia]. apply Hab; [done|].
      rewrite (drop_S l e i Hi). by left.
    + apply find_None. intros y Hy. assert (key e < key y); [|lia]. apply Hab2; [|done].
      eapply (list_elem_of_lookup_2 _ i). by rewrite lookup_take_lt by lia.
  - by rewrite Ef.
Qed.

Lemma sorted_remove l i : ascending l → ascending (take i l ++ drop (S i) l).
Proof.
  intros Hs. destruct (sorted_split l i Hs) as (Ha & _ & _).
  destruct (sorted_split l (S i) Hs) as (_ & Hb & Hab).
  rewrite fmap_app. apply StronglySorted_app. split_and!; [|done..].
  intros a b Ha' Hb'. apply list_elem_of_fmap in Ha' as (y & -> & Hy).
  apply list_elem_of_fmap in Hb' as (z & -> & Hz). apply Hab; [|done].
  apply list_elem_of_lookup_1 in Hy as [j Hj]. apply lookup_take_Some in Hj as [Hj Hlt].
  eapply (list_elem_of_lookup_2 _ j). rewrite lookup_take_lt by lia. exact Hj.
Qed.

(** A sorted list is determined by its lookups. *)
Lemma sorted_ext l l' :
  ascending l → ascending l' → (∀ k, find l k = find l' k) → l = l'.
Proof.
  revert l'. induction l as [|x l IH]; intros l' Hs Hs' Hf.
  - destruct l' as [|y l']; [done|]. specialize (Hf (key y)). cbn in Hf.
    by rewrite decide_True in Hf.
  - destruct l' as [|y l'].
    { specialize (Hf (key x)). cbn in Hf. by rewrite decide_True in Hf. }
    assert (x = y) as <-.
    { pose proof (find_elem _ x Hs ltac:(by left)) as Hx. rewrite Hf in Hx.
      pose proof (find_elem _ y Hs' ltac:(by left)) as Hy. rewrite <- Hf in Hy.
      apply find_Some in Hx as [Hx _], Hy as [Hy _].
      pose proof (head_least _ _ _ Hs Hy). pose proof (head_least _ _ _ Hs' Hx).
      pose proof (find_elem _ x Hs' Hx) as E1. cbn in E1.
      rewrite decide_True in E1 by lia. by injection E1 as ->. }
    cbn in Hs, Hs'. apply StronglySorted_inv in Hs as [Hs Ha], Hs' as [Hs' Ha'].
    f_equal. apply IH; [done..|]. intros k. specialize (Hf k). cbn in Hf.
    case_decide as Hk; [|done]. subst k. rewrite Forall_forall in Ha, Ha'.
    transitivity (@None A); [|symmetry]; apply find_None; intros e He E;
      [specialize (Ha (key e) ltac:(apply list_elem_of_fmap; eauto))
      |specialize (Ha' (key e) ltac:(apply list_elem_of_fmap; eauto))]; lia.
Qed.

End sorted.

#[global] Arguments find {A} key l k.
#[global] Arguments at_least {A} key l k i.
#[global] Arguments located {A} key l k i found.

(** [append(l, hole); copy(l[i+1:], l[i:]); l[i] = x] *)
Lemma fill_hole {A} (l : list A) i h x :
  (i ≤ length l)%nat → <[i := x]> (take i l ++ [h] ++ drop i l) = take i l ++ x :: drop i l.
Proof.
  intros. rewrite insert_app_r_alt by (rewrite length_take; lia).
  rewrite length_take. by replace (i - i `min` length l)%nat with 0%nat by lia.
Qed.

(** Distinct keys below a bound are no more than the bound. *)
Lemma bounded_length (l : list Z) n :
  NoDup l → (∀ x, x ∈ l → 0 ≤ x < n) → zlen l ≤ Z.max 0 n.
Proof.
  intros Hn Hb. assert (l ⊆+ seqZ 0 n) as Hsub.
  { apply NoDup_submseteq; [done|]. intros x Hx. apply elem_of_seqZ. specialize (Hb x Hx). lia. }
  apply submseteq_length in Hsub. rewrite length_seqZ in Hsub. unfold zlen. lia.
Qed.

Lemma sorted_nodup (l : list Z) : StronglySorted Z.lt l → NoDup l.
Proof.
  induction 1 as [|x l Hs IH Hall]; constructor; [|done]. intros Hx.
  rewrite Forall_forall in Hall. specialize (Hall x Hx). lia.
Qed.
