(* ===== verification/StorageTypes.v ===== *)
(** * StorageTypes: needle ids, cookies, sizes and offsets (weed/storage/types)

    [Offset] is the default build's 4-byte offset; [Offset5] is the build with
    the [5BytesOffset] tag. *)

From S2P Require Import Prelude GoStd Bytes.

Definition NeedleIdSize : Z := 8.
Definition NeedleIdEmpty : Z := 0.
Definition SizeSize : Z := 4.
Definition CookieSize : Z := 4.
Definition NeedleHeaderSize : Z := CookieSize + NeedleIdSize + SizeSize.
Definition DataSizeSize : Z := 4.
Definition TimestampSize : Z := 8.
Definition NeedlePaddingSize : Z := 8.
Definition TombstoneFileSize : Z := -1.

(** ** NeedleId, an unsigned 64-bit integer *)

Definition NeedleIdToBytes (b : bytes) (needleId : Z) : res bytes := Uint64toBytes b needleId.
Definition BytesToNeedleId (b : bytes) : res Z := BytesToUint64 b.
Definition NeedleId_String (k : Z) : bytes := Strconv.FormatUint k 16.
Definition NeedleId_FileId (k volumeId : Z) : bytes :=
  Strconv.FormatUint volumeId 10 ++ str "," ++ NeedleId_String k ++ str "00000000".
Definition ParseNeedleId (idString : bytes) : res Z :=
  match Strconv.ParseUint idString 16 64 with
  | (key, None) => Ok key
  | (_, Some _) => Fail (Errorf "needle id %s format error: %v")
  end.

(** ** Cookie, an unsigned 32-bit integer *)

Definition CookieToBytes (b : bytes) (cookie : Z) : res bytes := Uint32toBytes b cookie.
Definition BytesToCookie (b : bytes) : res Z :=
  s ← reslice (sl_of b) 0 4; BytesToUint32 (sl_data s).
Definition ParseCookie (cookieString : bytes) : res Z :=
  match Strconv.ParseUint cookieString 16 32 with
  | (cookie, None) => Ok (u32 cookie)
  | (_, Some _) => Fail (Errorf "needle cookie %s format error: %v")
  end.

(** ** Size, a signed 32-bit integer *)
Module Size.

Definition IsTombstone (s : Z) : bool := bool_decide (s = TombstoneFileSize).
Definition IsDeleted (s : Z) : bool := bool_decide (s < 0 ∨ s = TombstoneFileSize).
Definition IsValid (s : Z) : bool := bool_decide (s > 0 ∧ s ≠ TombstoneFileSize).
Definition Raw (s : Z) : Z :=
  if decide (s = TombstoneFileSize) then 0
  else if decide (s < 0) then u32 (s32 (-1 * s))
  else u32 s.

Definition BytesToSize (b : bytes) : res Z := v ← BytesToUint32 b; mret (s32 v).
Definition SizeToBytes (b : bytes) (size : Z) : res bytes := Uint32toBytes b (u32 size).

Lemma IsDeleted_spec s : IsDeleted s = true ↔ s < 0.
Proof. unfold IsDeleted, TombstoneFileSize. rewrite bool_decide_eq_true. lia. Qed.
Lemma IsDeleted_false s : IsDeleted s = false ↔ 0 ≤ s.
Proof. unfold IsDeleted, TombstoneFileSize. rewrite bool_decide_eq_false. lia. Qed.
Lemma IsValid_spec s : IsValid s = true ↔ 0 < s.
Proof. unfold IsValid, TombstoneFileSize. rewrite bool_decide_eq_true. lia. Qed.

(** Every stored size survives the disk, negative ones included. *)
Lemma size_roundtrip b s :
  length b = 4%nat → in_s 32 s → (c ← SizeToBytes b s; BytesToSize c) = Ok s.
Proof.
  intros Hb Hs. unfold SizeToBytes, BytesToSize. rewrite be_store_32 by done.
  cbn [mbind res_bind]. unfold BytesToUint32.
  rewrite load_split; [|lia..|apply wrap_range; lia]. cbn.
  rewrite swrap_wrap; [done|lia|done].
Qed.
End Size.

(** ** Offset: four bytes counting 8-byte units *)
Module Offset.

Definition OffsetSize : Z := 4.
Definition MaxPossibleVolumeSize : Z := 4 * 1024 * 1024 * 1024 * 8.

Record t := Mk { b3 : Z; b2 : Z; b1 : Z; b0 : Z }.
#[global] Instance t_eq_dec : EqDecision t.
Proof. solve_decision. Defined.

(** The zero value [Offset{}]. *)
Definition zero : t := Mk 0 0 0 0.
Definition wf (o : t) : Prop := is_byte (b3 o) ∧ is_byte (b2 o) ∧ is_byte (b1 o) ∧ is_byte (b0 o).

Definition OffsetToBytes (b : bytes) (offset : t) : res bytes :=
  b ← set_index b 3 (b0 offset);
  b ← set_index b 2 (b1 offset);
  b ← set_index b 1 (b2 offset);
  set_index b 0 (b3 offset).

Definition Uint32ToOffset (offset : Z) : t :=
  {| b0 := u8 offset;
     b1 := u8 (Z.shiftr offset 8);
     b2 := u8 (Z.shiftr offset 16);
     b3 := u8 (Z.shiftr offset 24) |}.

Definition BytesToOffset (b : bytes) : res t :=
  let s := sl_of b in
  x0 ← sl_index s 3; x1 ← sl_index s 2; x2 ← sl_index s 1; x3 ← sl_index s 0;
  mret {| b0 := x0; b1 := x1; b2 := x2; b3 := x3 |}.

Definition IsZero (o : t) : bool :=
  bool_decide (b0 o = 0) && bool_decide (b1 o = 0)
  && bool_decide (b2 o = 0) && bool_decide (b3 o = 0).

Definition ToOffset (offset : Z) : t :=
  let smaller := u32 (Z.quot offset NeedlePaddingSize) in
  Uint32ToOffset smaller.

(** The bytes are widened to int64 first, so nothing overflows. *)
Definition units (o : t) : Z :=
  b0 o + Z.shiftl (b1 o) 8 + Z.shiftl (b2 o) 16 + Z.shiftl (b3 o) 24.
Definition ToActualOffset (o : t) : Z := units o * NeedlePaddingSize.

Lemma units_val o : units o = be_val [b3 o; b2 o; b1 o; b0 o].
Proof.
  unfold units, be_val; cbn [foldl]. rewrite !Z.shiftl_mul_pow2 by lia.
  change (2 ^ 8) with 256. change (2 ^ 16) with 65536. change (2 ^ 24) with 16777216. lia.
Qed.

Lemma Uint32ToOffset_units z : units (Uint32ToOffset z) = u32 z.
Proof.
  rewrite units_val. unfold Uint32ToOffset; cbn [b0 b1 b2 b3].
  transitivity (be_val (be_split 4 z)); [|apply (be_val_split 4)].
  cbn [be_split Z.of_nat Z.mul]. by rewrite Z.shiftr_0_r.
Qed.

Lemma Uint32ToOffset_wf z : wf (Uint32ToOffset z).
Proof. unfold wf, Uint32ToOffset; cbn. split_and!; apply (wrap_range 8); lia. Qed.

Lemma Uint32ToOffset_inv o : wf o → Uint32ToOffset (units o) = o.
Proof.
  destruct o as [x3 x2 x1 x0]. unfold wf; cbn. intros (?&?&?&?).
  rewrite units_val; cbn. assert (bytes_ok [x3; x2; x1; x0]) as Hok by (repeat apply Forall_cons_2; auto using Forall_nil_2).
  pose proof (be_split_val _ Hok) as E. cbn [length be_split Z.of_nat Z.mul] in E.
  injection E as E3 E2 E1 E0. unfold Uint32ToOffset.
  rewrite Z.shiftr_0_r in E0. f_equal; assumption.
Qed.

Lemma IsZero_spec o : wf o → IsZero o = true ↔ units o = 0.
Proof.
  destruct o as [x3 x2 x1 x0]. unfold wf, is_byte; cbn. intros.
  unfold IsZero; cbn. rewrite units_val; unfold be_val; cbn [foldl b0 b1 b2 b3].
  rewrite !andb_true_iff, !bool_decide_eq_true. lia.
Qed.

Lemma offset_bytes b o :
  length b = 4%nat → OffsetToBytes b o = Ok [b3 o; b2 o; b1 o; b0 o].
Proof.
  intros H. do 4 (destruct b as [|? b]; [discriminate H|]).
  destruct b; [|discriminate H]. reflexivity.
Qed.

Lemma bytes_offset x3 x2 x1 x0 : BytesToOffset [x3; x2; x1; x0] = Ok (Mk x3 x2 x1 x0).
Proof. reflexivity. Qed.

Lemma offset_spec offset :
  0 ≤ offset →
  ToActualOffset (ToOffset offset)
    = (offset - offset `mod` NeedlePaddingSize) `mod` MaxPossibleVolumeSize ∧
  (ToActualOffset (ToOffset offset) = offset
     ↔ offset `mod` NeedlePaddingSize = 0 ∧ offset < MaxPossibleVolumeSize).
Proof.
  intros Ho. unfold ToActualOffset, ToOffset. rewrite Uint32ToOffset_units, wrap_wrap.
  rewrite Z.quot_div_nonneg by (unfold NeedlePaddingSize; lia).
  unfold wrap, NeedlePaddingSize, MaxPossibleVolumeSize.
  change (2 ^ 32) with 4294967296.
  change (4 * 1024 * 1024 * 1024 * 8) with 34359738368.
  split; [|split]; mlia.
Qed.

(** Byte offsets survive the 4-byte encoding exactly when they are aligned and
    below [MaxPossibleVolumeSize]; beyond it they wrap around. *)
Theorem offset_roundtrip offset :
  0 ≤ offset →
  ToActualOffset (ToOffset offset)
    = (offset - offset `mod` NeedlePaddingSize) `mod` MaxPossibleVolumeSize ∧
  (ToActualOffset (ToOffset offset) = offset
     ↔ offset `mod` NeedlePaddingSize = 0 ∧ offset < MaxPossibleVolumeSize).
Proof. apply offset_spec. Qed.

Lemma aligned_offset offset :
  0 ≤ offset < MaxPossibleVolumeSize → offset `mod` NeedlePaddingSize = 0 →
  ToActualOffset (ToOffset offset) = offset.
Proof. intros Ho Hm. destruct (offset_spec offset) as [_ Hi]; [lia|]. apply Hi. split; [done|lia]. Qed.

Lemma ToOffset_wf offset : wf (ToOffset offset).
Proof. apply Uint32ToOffset_wf. Qed.

Lemma aligned_nonzero offset :
  0 < offset < MaxPossibleVolumeSize → offset `mod` NeedlePaddingSize = 0 →
  IsZero (ToOffset offset) = false.
Proof.
  intros Ho Hm. apply not_true_iff_false. rewrite IsZero_spec by apply ToOffset_wf. intros Hz.
  assert (ToActualOffset (ToOffset offset) = offset) as E by (apply aligned_offset; [lia|done]).
  unfold ToActualOffset in E. rewrite Hz in E. lia.
Qed.

Lemma offset_roundtrip_witness : ToActualOffset (ToOffset 34359738376) = 8.
Proof. rewrite (proj1 (offset_roundtrip 34359738376 ltac:(discriminate))). reflexivity. Defined.

End Offset.

(** ** The 5-byte offset: [b4] holds bits 32 to 39 *)
Module Offset5.

Definition OffsetSize : Z := 4 + 1.
Definition MaxPossibleVolumeSize : Z := 4 * 1024 * 1024 * 1024 * 8 * 256.

Record t := Mk { b4 : Z; b3 : Z; b2 : Z; b1 : Z; b0 : Z }.

Definition OffsetToBytes (b : bytes) (offset : t) : res bytes :=
  b ← set_index b 4 (b4 offset);
  b ← set_index b 3 (b0 offset);
  b ← set_index b 2 (b1 offset);
  b ← set_index b 1 (b2 offset);
  set_index b 0 (b3 offset).

Definition BytesToOffset (b : bytes) : res t :=
  let s := sl_of b in
  x4 ← sl_index s 4; x0 ← sl_index s 3; x1 ← sl_index s 2; x2 ← sl_index s 1;
  x3 ← sl_index s 0;
  mret {| b4 := x4; b0 := x0; b1 := x1; b2 := x2; b3 := x3 |}.

Definition IsZero (o : t) : bool :=
  bool_decide (b0 o = 0) && bool_decide (b1 o = 0) && bool_decide (b2 o = 0)
  && bool_decide (b3 o = 0) && bool_decide (b4 o = 0).

Definition ToOffset (offset : Z) : t :=
  let smaller := Z.quot offset NeedlePaddingSize in
  {| b4 := u8 (Z.shiftr smaller 32);
     b0 := u8 smaller;
     b1 := u8 (Z.shiftr smaller 8);
     b2 := u8 (Z.shiftr smaller 16);
     b3 := u8 (Z.shiftr smaller 24) |}.

Definition ToActualOffset (o : t) : Z :=
  (b0 o + Z.shiftl (b1 o) 8 + Z.shiftl (b2 o) 16 + Z.shiftl (b3 o) 24
   + Z.shiftl (b4 o) 32) * NeedlePaddingSize.

(** The 5-byte build has the same contract with a bound of 8 TB, and its
    stored form keeps the extra byte last. *)
Theorem offset5_roundtrip offset b :
  0 ≤ offset → length b = 5%nat →
  (ToActualOffset (ToOffset offset) = offset
     ↔ offset `mod` NeedlePaddingSize = 0 ∧ offset < MaxPossibleVolumeSize) ∧
  (c ← OffsetToBytes b (ToOffset offset); BytesToOffset c) = Ok (ToOffset offset).
Proof.
  intros Ho Hb. split.
  - unfold ToActualOffset, ToOffset; cbn [b0 b1 b2 b3 b4].
    rewrite Z.quot_div_nonneg by (unfold NeedlePaddingSize; lia).
    set (q := offset `div` NeedlePaddingSize).
    pose proof (be_val_split 5 q) as E. cbn [be_split] in E.
    rewrite Z.shiftr_0_r in E. unfold be_val in E; cbn [foldl] in E.
    rewrite !Z.shiftl_mul_pow2 by lia.
    change (8 * Z.of_nat 4) with 32 in E. change (8 * Z.of_nat 3) with 24 in E.
    change (8 * Z.of_nat 2) with 16 in E. change (8 * Z.of_nat 1) with 8 in E.
    change (2 ^ (8 * Z.of_nat 5)) with 1099511627776 in E.
    change (2 ^ 8) with 256. change (2 ^ 16) with 65536.
    change (2 ^ 24) with 16777216. change (2 ^ 32) with 4294967296.
    match goal with |- ?X * _ = _ ↔ _ =>
      replace X with (q `mod` 1099511627776) by (rewrite <- E; lia) end.
    subst q. unfold NeedlePaddingSize, MaxPossibleVolumeSize. clear E. mlia.
  - do 5 (destruct b as [|? b]; [discriminate Hb|]).
    destruct b; [|discriminate Hb]. reflexivity.
Qed.

Lemma offset5_roundtrip_witness : ToActualOffset (ToOffset 34359738376) = 34359738376.
Proof.
  refine (proj2 (proj1 (offset5_roundtrip 34359738376 (zeros 5) ltac:(discriminate) eq_refl)) _).
  split; reflexivity.
Defined.
End Offset5.
