(* ===== verification/VolumeTtl.v ===== *)
(** * VolumeTtl: time-to-live values (weed/storage/needle/volume_ttl.go) *)

From S2P Require Import Prelude GoStd.

Module Ttl.

Definition Empty : Z := 0.
Definition Minute : Z := 1.
Definition Hour : Z := 2.
Definition Day : Z := 3.
Definition Week : Z := 4.
Definition Month : Z := 5.
Definition Year : Z := 6.

Record TTL := MkTTL { Count : Z; Unit : Z }.
#[global] Instance TTL_eq_dec : EqDecision TTL.
Proof. solve_decision. Defined.

Definition EMPTY_TTL : TTL := MkTTL 0 0.

Definition mulu64 (a b : Z) : Z := u64 (a * b).

(** [ToSeconds(count int, unit byte) uint64]; the products wrap at 64 bits. *)
Definition ToSeconds (count unit : Z) : Z :=
  let c := u64 count in
  if decide (unit = Empty) then 0
  else if decide (unit = Minute) then mulu64 c 60
  else if decide (unit = Hour) then mulu64 (mulu64 c 60) 60
  else if decide (unit = Day) then mulu64 (mulu64 (mulu64 c 60) 24) 60
  else if decide (unit = Week) then mulu64 (mulu64 (mulu64 (mulu64 c 60) 24) 7) 60
  else if decide (unit = Month) then mulu64 (mulu64 (mulu64 (mulu64 c 60) 24) 30) 60
  else if decide (unit = Year) then mulu64 (mulu64 (mulu64 (mulu64 c 60) 24) 365) 60
  else 0.

Definition TTL_ToSeconds (t : TTL) : Z := ToSeconds (Count t) (Unit t).

Definition toStoredByte (readableUnitByte : Z) : Z :=
  if decide (readableUnitByte = 109) then Minute        (* 'm' *)
  else if decide (readableUnitByte = 104) then Hour     (* 'h' *)
  else if decide (readableUnitByte = 100) then Day      (* 'd' *)
  else if decide (readableUnitByte = 119) then Week     (* 'w' *)
  else if decide (readableUnitByte = 77) then Month     (* 'M' *)
  else if decide (readableUnitByte = 121) then Year     (* 'y' *)
  else 0.

Definition fitTtlCount (count unit : Z) : TTL :=
  let seconds := ToSeconds count unit in
  if decide (seconds = 0) then EMPTY_TTL
  else if decide (seconds `mod` (3600*24*365) = 0 ∧ seconds `div` (3600*24*365) < 256)
    then MkTTL (u8 (seconds `div` (3600*24*365))) Year
  else if decide (seconds `mod` (3600*24*30) = 0 ∧ seconds `div` (3600*24*30) < 256)
    then MkTTL (u8 (seconds `div` (3600*24*30))) Month
  else if decide (seconds `mod` (3600*24*7) = 0 ∧ seconds `div` (3600*24*7) < 256)
    then MkTTL (u8 (seconds `div` (3600*24*7))) Week
  else if decide (seconds `mod` (3600*24) = 0 ∧ seconds `div` (3600*24) < 256)
    then MkTTL (u8 (seconds `div` (3600*24))) Day
  else if decide (seconds `mod` 3600 = 0 ∧ seconds `div` 3600 < 256)
    then MkTTL (u8 (seconds `div` 3600)) Hour
  else if decide (seconds `div` 60 < 256) then MkTTL (u8 (seconds `div` 60)) Minute
  else if decide (seconds `div` 3600 < 256) then MkTTL (u8 (seconds `div` 3600)) Hour
  else if decide (seconds `div` (3600*24) < 256)
    then MkTTL (u8 (seconds `div` (3600*24))) Day
  else if decide (seconds `div` (3600*24*7) < 256)
    then MkTTL (u8 (seconds `div` (3600*24*7))) Week
  else if decide (seconds `div` (3600*24*30) < 256)
    then MkTTL (u8 (seconds `div` (3600*24*30))) Month
  else if decide (seconds `div` (3600*24*365) < 256)
    then MkTTL (u8 (seconds `div` (3600*24*365))) Year
  else EMPTY_TTL.

(** [ReadTTL] returns the fitted value together with [Atoi]'s error. *)
Definition ReadTTL (ttlString : bytes) : TTL * option go_error :=
  match last ttlString with
  | None => (EMPTY_TTL, None)
  | Some unitByte =>
      let '(countBytes, unitByte) :=
        if decide (48 ≤ unitByte ≤ 57) then (ttlString, 109)
        else (take (length ttlString - 1) ttlString, unitByte) in
      let '(count, err) := Strconv.Atoi countBytes in
      let unit := toStoredByte unitByte in
      (fitTtlCount count unit, err)
  end.

Definition LoadTTLFromBytes (input : bytes) : res TTL :=
  let s := sl_of input in
  i0 ← sl_index s 0;
  if decide (i0 = 0) then
    i1 ← sl_index s 1;
    if decide (i1 = 0) then mret EMPTY_TTL else mret (MkTTL i0 i1)
  else i1 ← sl_index s 1; mret (MkTTL i0 i1).

Definition LoadTTLFromUint32 (ttl : Z) : res TTL :=
  LoadTTLFromBytes [u8 (Z.shiftr ttl 8); u8 ttl].

(** [t.ToBytes(output)] stores [output[0]] and [output[1]]. *)
Definition ToBytes (t : TTL) (output : bytes) : res bytes :=
  match output with
  | _ :: _ :: rest => Ok (Count t :: Unit t :: rest)
  | _ => Panic
  end.

(** A nil receiver is [None]. *)
Definition ToUint32 (t : option TTL) : Z :=
  match t with
  | None => 0
  | Some t =>
      if decide (Count t = 0) then 0
      else u32 (u32 (Z.shiftl (Count t) 8) + Unit t)
  end.

Definition String (t : option TTL) : bytes :=
  match t with
  | None => []
  | Some t =>
      if decide (Count t = 0) then []
      else if decide (Unit t = Empty) then []
      else
        let countString := Strconv.Itoa (Count t) in
        if decide (Unit t = Minute) then countString ++ str "m"
        else if decide (Unit t = Hour) then countString ++ str "h"
        else if decide (Unit t = Day) then countString ++ str "d"
        else if decide (Unit t = Week) then countString ++ str "w"
        else if decide (Unit t = Month) then countString ++ str "M"
        else if decide (Unit t = Year) then countString ++ str "y"
        else []
  end.

Definition Minutes (t : TTL) : Z :=
  let c := Count t in
  if decide (Unit t = Empty) then 0
  else if decide (Unit t = Minute) then c
  else if decide (Unit t = Hour) then u32 (c * 60)
  else if decide (Unit t = Day) then u32 (u32 (c * 60) * 24)
  else if decide (Unit t = Week) then u32 (u32 (u32 (c * 60) * 24) * 7)
  else if decide (Unit t = Month) then u32 (u32 (u32 (c * 60) * 24) * 30)
  else if decide (Unit t = Year) then u32 (u32 (u32 (c * 60) * 24) * 365)
  else 0.

(** [SecondsToTTL(seconds int32)]: signed division and remainder. *)
Definition SecondsToTTL (seconds : Z) : bytes :=
  let d k := Z.quot seconds k in
  let show k u := Strconv.Itoa (d k) ++ str u in
  if decide (seconds = 0) then []
  else if decide (Z.rem seconds (3600*24*365) = 0 ∧ d (3600*24*365) < 256)
    then show (3600*24*365) "y"
  else if decide (Z.rem seconds (3600*24*30) = 0 ∧ d (3600*24*30) < 256)
    then show (3600*24*30) "M"
  else if decide (Z.rem seconds (3600*24*7) = 0 ∧ d (3600*24*7) < 256)
    then show (3600*24*7) "w"
  else if decide (Z.rem seconds (3600*24) = 0 ∧ d (3600*24) < 256)
    then show (3600*24) "d"
  else if decide (Z.rem seconds 3600 = 0 ∧ d 3600 < 256) then show 3600 "h"
  else if decide (d 60 < 256) then show 60 "m"
  else if decide (d 3600 < 256) then show 3600 "h"
  else if decide (d (3600*24) < 256) then show (3600*24) "d"
  else if decide (d (3600*24*7) < 256) then show (3600*24*7) "w"
  else if decide (d (3600*24*30) < 256) then show (3600*24*30) "M"
  else if decide (d (3600*24*365) < 256) then show (3600*24*365) "y"
  else [].

(** ** Properties *)

(** The TTLs [fitTtlCount] and the stored form produce. *)
Definition wf (t : TTL) : Prop := 1 ≤ Count t ≤ 255 ∧ 1 ≤ Unit t ≤ 6.

Definition unit_seconds (unit : Z) : Z :=
  if decide (unit = Minute) then 60 else if decide (unit = Hour) then 3600
  else if decide (unit = Day) then 3600*24 else if decide (unit = Week) then 3600*24*7
  else if decide (unit = Month) then 3600*24*30
  else if decide (unit = Year) then 3600*24*365 else 0.

Lemma mulu64_u64 x k : mulu64 (u64 x) k = u64 (x * k).
Proof. apply Zmult_mod_idemp_l. Qed.

Lemma ToSeconds_unit count unit :
  ToSeconds count unit = u64 (count * unit_seconds unit).
Proof.
  unfold ToSeconds, unit_seconds, Empty, Minute, Hour, Day, Week, Month, Year in *.
  repeat case_decide; try lia; rewrite ?mulu64_u64, ?Z.mul_0_r; try done; f_equal; lia.
Qed.

(** Every (count, unit) pair as a list, for properties decided by evaluation. *)
Definition all_ttls : list TTL :=
  c ← seqZ 1 255; u ← seqZ 1 6; [MkTTL c u].

Lemma all_ttls_spec t : wf t → t ∈ all_ttls.
Proof.
  destruct t as [c u]. intros [Hc Hu]; simpl in *. unfold all_ttls.
  apply list_elem_of_bind. exists c. split; [|apply elem_of_seqZ; lia].
  apply list_elem_of_bind. exists u. split; [|apply elem_of_seqZ; lia].
  apply list_elem_of_singleton. done.
Qed.

Lemma forall_ttls (P : TTL → bool) :
  forallb P all_ttls = true → ∀ t, wf t → P t = true.
Proof.
  intros H t Ht. apply all_ttls_spec in Ht. rewrite forallb_forall in H.
  apply H. by apply list_elem_of_In.
Qed.

(** Printing a TTL and reading it back keeps its duration, though the count
    and unit may be normalised (60m becomes 1h). *)
Theorem ttl_string_roundtrip t :
  wf t → ∃ t', ReadTTL (String (Some t)) = (t', None) ∧ wf t' ∧
               TTL_ToSeconds t' = TTL_ToSeconds t.
Proof.
  intros Ht.
  pose (P := λ t, match ReadTTL (String (Some t)) with
                  | (t', None) => bool_decide (wf t' ∧ TTL_ToSeconds t' = TTL_ToSeconds t)
                  | _ => false
                  end).
  assert (P t = true) as HP by (apply (forall_ttls P); [vm_compute; done|done]).
  unfold P in HP. destruct (ReadTTL _) as [t' [e|]]; [done|].
  apply bool_decide_eq_true in HP as [? ?]. eauto.
Qed.

Lemma ttl_string_roundtrip_witness :
  wf (MkTTL 60 Minute) ∧ ∃ t', ReadTTL (String (Some (MkTTL 60 Minute))) = (t', None) ∧ wf t' ∧
               TTL_ToSeconds t' = TTL_ToSeconds (MkTTL 60 Minute).
Proof.
  assert (wf (MkTTL 60 Minute)) as H by (unfold wf, Minute; simpl; lia).
  split; [exact H|exact (ttl_string_roundtrip _ H)].
Defined.

Lemma load_two i0 i1 rest : LoadTTLFromBytes (i0 :: i1 :: rest) = Ok (MkTTL i0 i1).
Proof.
  unfold LoadTTLFromBytes. rewrite (sl_index_of _ 0 i0), (sl_index_of _ 1 i1) by done.
  simpl. repeat case_decide; by subst.
Qed.

(** The two-byte form, the 32-bit form and the superblock bytes all give the
    TTL back. *)
Theorem ttl_stored_roundtrip t b0 b1 rest :
  wf t →
  LoadTTLFromUint32 (ToUint32 (Some t)) = Ok t ∧
  (o ← ToBytes t (b0 :: b1 :: rest); LoadTTLFromBytes o) = Ok t.
Proof.
  destruct t as [c u]. intros [Hc Hu]; simpl in *. split; [|apply load_two].
  unfold LoadTTLFromUint32, ToUint32; cbn [Count Unit]. rewrite decide_False by lia.
  rewrite load_two, Z.shiftl_mul_pow2, Z.shiftr_div_pow2 by lia. unfold wrap.
  change (2 ^ 8) with 256. change (2 ^ 32) with 4294967296.
  do 2 f_equal; mlia.
Qed.

Lemma ttl_stored_roundtrip_witness :
  wf (MkTTL 7 Week) ∧ LoadTTLFromUint32 (ToUint32 (Some (MkTTL 7 Week))) = Ok (MkTTL 7 Week).
Proof.
  assert (wf (MkTTL 7 Week)) as H by (unfold wf, Week; simpl; lia).
  split; [exact H|exact (proj1 (ttl_stored_roundtrip _ 0 0 [] H))].
Defined.

Lemma unit_seconds_range u : 1 ≤ u ≤ 6 → 60 ≤ unit_seconds u ≤ 31536000.
Proof.
  intros. unfold unit_seconds, Minute, Hour, Day, Week, Month, Year. repeat case_decide; lia.
Qed.

Lemma fit_case s u k :
  1 ≤ u ≤ 6 → unit_seconds u = k → 1 ≤ s `div` k < 256 →
  let t := MkTTL (u8 (s `div` k)) u in
  wf t ∧ TTL_ToSeconds t ≤ s < TTL_ToSeconds t + unit_seconds (Unit t).
Proof.
  intros Hu Hk Hq. pose proof (unit_seconds_range u Hu). cbn zeta.
  unfold wf, TTL_ToSeconds; cbn [Count Unit].
  rewrite (wrap_id 8) by (red; widths; lia).
  rewrite ToSeconds_unit, Hk, wrap_id by (red; change (2 ^ 64) with 18446744073709551616; nia).
  pose proof (Z.div_mod s k ltac:(lia)). pose proof (Z.mod_pos_bound s k ltac:(lia)). lia.
Qed.

(** Fitting a requested duration into one count byte never lengthens it, and
    loses less than one of the chosen unit. *)
Theorem fit_ttl_bound count unit :
  0 ≤ count → 1 ≤ unit ≤ 6 → count * unit_seconds unit < 256 * unit_seconds Year →
  let t := fitTtlCount count unit in
  let seconds := count * unit_seconds unit in
  (count = 0 → t = EMPTY_TTL) ∧
  (0 < count → wf t ∧ TTL_ToSeconds t ≤ seconds < TTL_ToSeconds t + unit_seconds (Unit t)).
Proof.
  intros Hc Hu Hb. cbn zeta. pose proof (unit_seconds_range unit Hu) as Hpos.
  change (unit_seconds Year) with 31536000 in Hb.
  assert (ToSeconds count unit = count * unit_seconds unit) as Hs.
  { rewrite ToSeconds_unit. apply wrap_id. split; [nia|]. lia. }
  split; [intros ->; unfold fitTtlCount; rewrite Hs; done|].
  intros Hc0. unfold fitTtlCount. rewrite Hs. set (s := count * unit_seconds unit) in *.
  assert (60 ≤ s) by (subst s; nia). clearbody s. clear Hs Hpos.
  rewrite decide_False by lia.
  repeat case_decide; first [exfalso; mlia | apply fit_case; [done|reflexivity|mlia]].
Qed.

Lemma fit_ttl_bound_witness :
  fitTtlCount 257 Minute = MkTTL 4 Hour ∧
  wf (MkTTL 4 Hour) ∧ TTL_ToSeconds (MkTTL 4 Hour) ≤ 257 * 60.
Proof.
  split; [reflexivity|].
  destruct (fit_ttl_bound 257 Minute) as [_ H]; [lia|unfold Minute; lia|vm_compute; done|].
  destruct (H ltac:(lia)) as [Hw [Hl _]]. split; [exact Hw|exact Hl].
Defined.

End Ttl.
