(* ===== verification/FileId.v ===== *)
(** * FileId: volume ids and file ids
    (weed/storage/needle/volume_id.go, file_id.go and the path parsers of
    needle.go) *)

From S2P Require Import Prelude GoStd Bytes StorageTypes.

(** ** strings.Index and strings.LastIndex of a one-byte separator *)

Fixpoint Index_from (s : bytes) (c i : Z) : Z :=
  match s with
  | [] => -1
  | x :: s => if decide (x = c) then i else Index_from s c (i + 1)
  end.
Definition Index (s : bytes) (c : Z) : Z := Index_from s c 0.
Definition LastIndex (s : bytes) (c : Z) : Z :=
  let i := Index (reverse s) c in if decide (i < 0) then -1 else zlen s - 1 - i.

Module FileId.

(** ** VolumeId, an unsigned 32-bit integer *)

Definition NewVolumeId (vid : bytes) : res Z :=
  match Strconv.ParseUint vid 10 64 with
  | (volumeId, None) => Ok (u32 volumeId)
  | (_, Some e) => Fail e
  end.
Definition VolumeId_String (vid : Z) : bytes := Strconv.FormatUint vid 10.
Definition Next (vid : Z) : Z := u32 (vid + 1).

(** ** FileId *)

Record t := Mk { VolumeId : Z; Key : Z; Cookie : Z }.
#[global] Instance t_eq_dec : EqDecision t.
Proof. solve_decision. Defined.

(** [for ; bytes[i] == 0 && i < NeedleIdSize; i++ {}]; at most
    [NeedleIdSize] increments. *)
Fixpoint nonzero_index (fuel : nat) (b : slice) (i : Z) : res Z :=
  x ← sl_index b i;
  match fuel with
  | S fuel =>
      if decide (x = 0 ∧ i < NeedleIdSize) then nonzero_index fuel b (i + 1) else mret i
  | O => mret i
  end.

Definition formatNeedleIdCookie (key cookie : Z) : res bytes :=
  let b := zeros (NeedleIdSize + CookieSize) in
  b ← window b 0 NeedleIdSize (λ w, NeedleIdToBytes w key);
  b ← window b NeedleIdSize (NeedleIdSize + CookieSize) (λ w, CookieToBytes w cookie);
  i ← nonzero_index 8 (sl_of b) 0;
  s ← reslice_from (sl_of b) i;
  mret (Strconv.EncodeToString (sl_data s)).

Definition String (n : t) : res bytes :=
  s ← formatNeedleIdCookie (Key n) (Cookie n);
  mret (VolumeId_String (VolumeId n) ++ str "," ++ s).

Definition splitVolumeId (fid : bytes) : res (bytes * bytes) :=
  let commaIndex := Index fid 44 in
  if decide (commaIndex ≤ 0) then Fail (Errorf "wrong fid format")
  else mret (sub fid 0 commaIndex, drop (Z.to_nat (commaIndex + 1)) fid).

Definition ParseNeedleIdCookie (key_hash_string : bytes) : res (Z * Z) :=
  if decide (zlen key_hash_string ≤ CookieSize * 2) then Fail (Errorf "KeyHash is too short.")
  else if decide (zlen key_hash_string > (NeedleIdSize + CookieSize) * 2)
    then Fail (Errorf "KeyHash is too long.")
  else
    let split := zlen key_hash_string - CookieSize * 2 in
    match ParseNeedleId (sub key_hash_string 0 split) with
    | Fail _ => Fail (Errorf "Parse needleId error: %w")
    | Panic => Panic
    | Ok needleId =>
        match ParseCookie (drop (Z.to_nat split) key_hash_string) with
        | Fail _ => Fail (Errorf "Parse cookie error: %w")
        | Panic => Panic
        | Ok cookie => Ok (needleId, cookie)
        end
    end.

Definition ParseFileIdFromString (fid : bytes) : res t :=
  '(vid, needleKeyCookie) ← splitVolumeId fid;
  volumeId ← NewVolumeId vid;
  '(nid, cookie) ← ParseNeedleIdCookie needleKeyCookie;
  mret (Mk volumeId nid cookie).

(** [n.ParsePath(fid)]: the id and cookie it stores in the needle.  An [_n]
    suffix adds [n] to the id, wrapping at 64 bits. *)
Definition ParsePath (fid : bytes) : res (Z * Z) :=
  if decide (zlen fid ≤ CookieSize * 2) then Fail (Errorf "Invalid fid: %s")
  else
    let deltaIndex := LastIndex fid 95 in
    let '(fid, delta) :=
      if decide (deltaIndex > 0)
      then (sub fid 0 deltaIndex, drop (Z.to_nat (deltaIndex + 1)) fid) else (fid, []) in
    '(id, cookie) ← ParseNeedleIdCookie fid;
    if decide (delta ≠ []) then
      match Strconv.ParseUint delta 10 64 with
      | (d, None) => mret (u64 (id + d), cookie)
      | (_, Some e) => Fail e
      end
    else mret (id, cookie).

Definition wf (f : t) : Prop := in_u 32 (VolumeId f) ∧ in_u 64 (Key f) ∧ in_u 32 (Cookie f).

End FileId.

(** ** Numerals *)
Section numerals.
Import Strconv.
Context (base : Z).
Hypothesis base_range : 2 ≤ base ≤ 16.

Definition digits_val (ds : list Z) (n : Z) : Z := foldl (λ a d, a * base + d) n ds.
Definition digits_ok (ds : list Z) : Prop := Forall (λ d, 0 ≤ d < base) ds.

Lemma digit_of_char d : 0 ≤ d < 16 → digit_of (digit_char d) = Some d.
Proof.
  intros Hd. assert (d ∈ seqZ 0 16) as Hin by (apply elem_of_seqZ; lia).
  clear Hd. revert d Hin. apply Forall_forall. repeat constructor.
Qed.

Lemma digits_val_mono ds n : digits_ok ds → 0 ≤ n → n ≤ digits_val ds n.
Proof.
  intros Hds. revert n. induction Hds as [|d ds Hd Hds IH]; intros n Hn; [done|].
  unfold digits_val; cbn [foldl]. fold (digits_val ds (n * base + d)).
  etransitivity; [|apply IH]; nia.
Qed.

Lemma parse_digits maxVal ds n :
  digits_ok ds → 0 ≤ n → digits_val ds n ≤ maxVal ≤ maxUint64 →
  parse_loop base maxVal (digit_char <$> ds) n = (digits_val ds n, None).
Proof.
  intros Hds. revert n. induction Hds as [|d ds Hd Hds IH]; intros n Hn Hmax; [done|].
  cbn [fmap list_fmap parse_loop].
  rewrite digit_of_char, decide_False by lia.
  assert (n * base + d ≤ digits_val (d :: ds) n) as Hstep.
  { unfold digits_val; cbn [foldl]. apply digits_val_mono; [done|nia]. }
  assert (n ≤ maxUint64 `div` base).
  { apply Z.div_le_lower_bound; lia. }
  rewrite decide_False by lia. cbn zeta.
  rewrite wrap_id by (unfold in_u, maxUint64 in *; nia).
  rewrite decide_False by lia. apply IH; [nia|done].
Qed.

Lemma format_digits fuel n acc :
  0 ≤ n < base ^ Z.of_nat fuel → (0 < fuel)%nat →
  ∃ ds, format_loop fuel base n acc = (digit_char <$> ds) ++ acc
        ∧ digits_ok ds ∧ digits_val ds 0 = n ∧ ds ≠ [].
Proof.
  revert n acc. induction fuel as [|fuel IH]; intros n acc Hn Hf; [lia|].
  cbn [format_loop]. case_decide as Hlt.
  - exists [n]. rewrite Z.mod_small by lia. split_and!; [done| |unfold digits_val; cbn; lia|done].
    apply Forall_singleton. lia.
  - assert (0 < fuel)%nat.
    { destruct fuel; [|lia]. rewrite Z.pow_1_r in Hn. lia. }
    destruct (IH (n `div` base) (digit_char (n `mod` base) :: acc)) as (ds & -> & Hok & Hv & _);
      [|done|].
    { rewrite Nat2Z.inj_succ, Z.pow_succ_r in Hn by lia.
      split; [apply Z.div_pos; lia|apply Z.div_lt_upper_bound; lia]. }
    exists (ds ++ [n `mod` base]). split_and!.
    + rewrite fmap_app, <- app_assoc. done.
    + apply Forall_app_2; [done|]. apply Forall_singleton, Z.mod_pos_bound. lia.
    + unfold digits_val in *. rewrite foldl_app. cbn [foldl]. rewrite Hv.
      pose proof (Z.div_mod n base ltac:(lia)). lia.
    + by destruct ds.
Qed.

Lemma ParseUint_digits bitSize ds :
  digits_ok ds → ds ≠ [] → bitSize ≤ 64 → digits_val ds 0 < 2 ^ bitSize →
  ParseUint (digit_char <$> ds) base bitSize = (digits_val ds 0, None).
Proof.
  intros Hok Hne Hb Hv. unfold ParseUint.
  destruct ds as [|d ds]; [done|]. cbn [fmap list_fmap].
  apply (parse_digits _ (d :: ds)); [done|lia|].
  unfold maxUint64. assert (2 ^ bitSize ≤ 2 ^ 64); [|lia].
  apply Z.pow_le_mono_r; lia.
Qed.

Lemma ParseUint_FormatUint n :
  in_u 64 n → ParseUint (FormatUint n base) base 64 = (n, None).
Proof.
  intros Hn. unfold FormatUint.
  destruct (format_digits 64 n []) as (ds & -> & Hok & Hv & Hne); [|lia|].
  { split; [apply Hn|]. eapply Z.lt_le_trans; [apply Hn|].
    apply Z.pow_le_mono_l. lia. }
  rewrite app_nil_r. rewrite ParseUint_digits; rewrite ?Hv; auto; try lia. apply Hn.
Qed.
End numerals.

(** ** Hexadecimal of a byte string *)
Section hex.
Import Strconv.

Fixpoint nibbles (b : bytes) : list Z :=
  match b with [] => [] | x :: b => x `div` 16 :: x `mod` 16 :: nibbles b end.

Lemma EncodeToString_nibbles b : EncodeToString b = digit_char <$> nibbles b.
Proof. induction b as [|x b IH]; [done|]. cbn. by rewrite IH. Qed.

Lemma nibbles_ok b : bytes_ok b → digits_ok 16 (nibbles b).
Proof.
  unfold digits_ok. induction 1 as [|x b Hx Hb IH]; [constructor|]. unfold is_byte in Hx.
  cbn. repeat apply Forall_cons_2; [mlia|mlia|done].
Qed.

Lemma nibbles_val b n : digits_val 16 (nibbles b) n = foldl (λ a x, a * 256 + x) n b.
Proof.
  revert n. induction b as [|x b IH]; intros n; [done|]. cbn [nibbles foldl].
  rewrite <- IH. unfold digits_val; cbn [foldl]. f_equal. mlia.
Qed.

Lemma zlen_EncodeToString b : zlen (EncodeToString b) = 2 * zlen b.
Proof. induction b as [|x b IH]; [done|]. cbn. rewrite !zlen_cons, IH. lia. Qed.

Lemma EncodeToString_app b c : EncodeToString (b ++ c) = EncodeToString b ++ EncodeToString c.
Proof. induction b as [|x b IH]; [done|]. cbn. by rewrite IH. Qed.

Lemma ParseUint_hex bitSize b :
  bytes_ok b → b ≠ [] → bitSize ≤ 64 → be_val b < 2 ^ bitSize →
  ParseUint (EncodeToString b) 16 bitSize = (be_val b, None).
Proof.
  intros Hok Hne Hb Hv. rewrite EncodeToString_nibbles.
  rewrite ParseUint_digits; rewrite ?nibbles_val; auto using nibbles_ok; [lia|by destruct b].
Qed.
End hex.

Section format.
Import FileId.

Lemma be_val_all_zero l : Forall (eq 0) l → be_val l = 0.
Proof. induction 1 as [|x l <- Hl IH]; [done|]. rewrite be_val_cons, IH. lia. Qed.

Lemma nonzero_index_spec b fuel i :
  (8 < length b)%nat → 0 ≤ i → i + Z.of_nat fuel = 8 →
  ∃ j, nonzero_index fuel (sl_of b) i = Ok j ∧ i ≤ j ≤ 8
       ∧ (∀ k, i ≤ k < j → b !! Z.to_nat k = Some 0)
       ∧ (j = 8 ∨ b !! Z.to_nat j ≠ Some 0).
Proof.
  intros Hb. revert i. induction fuel as [|fuel IH]; intros i Hi Hf; cbn [nonzero_index];
    destruct (lookup_lt_is_Some_2 b (Z.to_nat i)) as [x Hx]; try lia;
    rewrite (sl_index_of _ _ _ Hi Hx); cbn [mbind res_bind].
  { exists i. split; [done|]. split; [lia|]. split; [intros; lia|left; lia]. }
  case_decide as Hc.
  - destruct Hc as [-> Hlt]. destruct (IH (i + 1)) as (j & -> & Hj & Hz & Hend); [lia..|].
    exists j. split; [done|]. split; [lia|]. split; [|done].
    intros k Hk. destruct (decide (k = i)); [by subst|]. apply Hz. lia.
  - exists i. split; [done|]. split; [lia|]. split; [intros; lia|].
    right. rewrite Hx. intros [= ->]. apply Hc. unfold NeedleIdSize. lia.
Qed.

Lemma format_spec key cookie :
  in_u 64 key →
  ∃ kb, formatNeedleIdCookie key cookie
          = Ok (Strconv.EncodeToString (kb ++ be_split 4 cookie))
        ∧ bytes_ok kb ∧ be_val kb = key ∧ zlen kb ≤ 8 ∧ (kb = [] ↔ key = 0).
Proof.
  intros Hkey. unfold formatNeedleIdCookie, NeedleIdSize, CookieSize.
  rewrite (window_be 8 _ _ _ key); [|done..|intros; by apply be_store_64].
  cbn [mbind res_bind].
  change (splice (zeros (8 + 4)) 0 (be_split 8 key)) with (be_split 8 key ++ zeros 4).
  rewrite (window_be 4 _ _ _ cookie); [|done..|intros; by apply be_store_32].
  cbn [mbind res_bind].
  replace (splice (be_split 8 key ++ zeros 4) 8 (be_split 4 cookie))
    with (be_split 8 key ++ be_split 4 cookie) by reflexivity.
  set (b := be_split 8 key ++ be_split 4 cookie).
  destruct (nonzero_index_spec b 8 0) as (j & -> & Hj & Hz & Hend); [cbn; lia..|].
  cbn [mbind res_bind]. unfold reslice_from.
  rewrite reslice_ok by (unfold sl_cap, sl_of, b; cbn; zl). cbn [mbind res_bind].
  exists (drop (Z.to_nat j) (be_split 8 key)).
  assert (be_val (take (Z.to_nat j) (be_split 8 key)) = 0) as Htake.
  { apply be_val_all_zero, Forall_forall. intros x Hx.
    apply list_elem_of_lookup in Hx as [k Hk]. apply lookup_take_Some in Hk as [Hk Hlt].
    specialize (Hz (Z.of_nat k) ltac:(lia)). rewrite Nat2Z.id in Hz.
    unfold b in Hz. rewrite lookup_app_l in Hz by (rewrite length_be_split; lia). congruence. }
  assert (be_val (drop (Z.to_nat j) (be_split 8 key)) = key) as Hval.
  { pose proof (be_val_split 8 key) as E. rewrite Z.mod_small in E by apply Hkey.
    rewrite <- (take_drop (Z.to_nat j) (be_split 8 key)), be_val_app, Htake in E. lia. }
  split_and!.
  - unfold mret, res_ret. do 2 f_equal. unfold sl_data, sl_of; cbn [sl_len sl_buf].
    rewrite sub_all by (unfold b; zl; lia).
    unfold b. rewrite drop_app_le by (rewrite length_be_split; lia). done.
  - apply Forall_drop. auto with bytes.
  - done.
  - zl.
  - split; [intros E; by rewrite E in Hval|]. intros ->.
    destruct (drop (Z.to_nat j) (be_split 8 0)) as [|x kb] eqn:E; [done|exfalso].
    assert (b !! Z.to_nat j = Some x) as Hx.
    { unfold b. rewrite lookup_app_l.
      - rewrite <- (Nat.add_0_r (Z.to_nat j)), <- lookup_drop, E. done.
      - apply (f_equal length) in E. rewrite length_drop, length_be_split in E. simpl in E.
        rewrite length_be_split. lia. }
    destruct Hend as [->|Hne]; [by vm_compute in E|]. rewrite Hx in Hne.
    assert (bytes_ok (x :: kb)) as Hok by (rewrite <- E; auto using Forall_drop with bytes).
    apply Forall_cons in Hok as [Hb Hkb]. apply be_val_bound in Hkb. unfold is_byte in Hb.
    rewrite be_val_cons in Hval. apply Hne. f_equal.
    assert (0 < 256 ^ zlen kb) by (apply Z.pow_pos_nonneg; zl). nia.
Qed.

Lemma parse_format kb key cookie :
  bytes_ok kb → be_val kb = key → zlen kb ≤ 8 → in_u 64 key → in_u 32 cookie →
  ParseNeedleIdCookie (Strconv.EncodeToString (kb ++ be_split 4 cookie))
    = if decide (kb = []) then Fail (Errorf "KeyHash is too short.") else Ok (key, cookie).
Proof.
  intros Hok Hv Hlen Hkey Hc. unfold ParseNeedleIdCookie, CookieSize, NeedleIdSize.
  rewrite !zlen_EncodeToString. rewrite EncodeToString_app. case_decide as Hs; zl.
  { rewrite decide_True; [done|]. apply zlen_0. lia. }
  assert (kb ≠ []) as Hne by (intros ->; rewrite zlen_nil in Hs; lia).
  rewrite decide_False by (zl; lia). rewrite (decide_False (P := kb = [])) by done.
  replace (2 * (zlen kb + Z.of_nat 4) - 4 * 2) with (zlen (Strconv.EncodeToString kb))
    by (rewrite zlen_EncodeToString; lia).
  rewrite sub_app_l, sub_all by lia.
  rewrite drop_app_ge by (unfold zlen; lia).
  replace (Z.to_nat (zlen (Strconv.EncodeToString kb)) - length (Strconv.EncodeToString kb))%nat
    with 0%nat by (unfold zlen; lia). rewrite drop_0.
  unfold ParseNeedleId, ParseCookie.
  rewrite !ParseUint_hex; rewrite ?be_val_split, ?Hv; auto with bytes; try lia.
  - rewrite Z.mod_small by apply Hc. rewrite wrap_id by done. done.
  - rewrite Z.mod_small by apply Hc. apply Hc.
  - apply Hkey.
Qed.
End format.

Section roundtrip.
Import FileId.

Lemma Index_from_app l c r i : c ∉ l → Index_from (l ++ c :: r) c i = i + zlen l.
Proof.
  revert i. induction l as [|x l IH]; intros i Hc; cbn [Index_from app].
  { rewrite decide_True by done. unfold zlen; simpl; lia. }
  apply not_elem_of_cons in Hc as [Hx Hl]. rewrite decide_False by congruence.
  rewrite IH by done. rewrite zlen_cons. lia.
Qed.

Lemma digit_chars_no_comma base ds :
  2 ≤ base ≤ 16 → digits_ok base ds → 44 ∉ Strconv.digit_char <$> ds.
Proof.
  intros Hb Hds Hin. apply list_elem_of_fmap in Hin as (d & Hd & Hin).
  unfold digits_ok in Hds. rewrite Forall_forall in Hds. specialize (Hds _ Hin).
  unfold Strconv.digit_char in Hd. case_decide; lia.
Qed.

Lemma FormatUint_shape n :
  in_u 64 n → ∃ ds, Strconv.FormatUint n 10 = Strconv.digit_char <$> ds
                    ∧ digits_ok 10 ds ∧ ds ≠ [].
Proof.
  intros Hn. unfold Strconv.FormatUint.
  destruct (format_digits 10 ltac:(lia) 64 n []) as (ds & E & Hok & _ & Hne); [|lia|].
  { split; [apply Hn|]. eapply Z.lt_le_trans; [apply Hn|]. vm_compute. done. }
  exists ds. by rewrite E, app_nil_r.
Qed.

Lemma split_volume_id n s :
  in_u 64 n →
  splitVolumeId (Strconv.FormatUint n 10 ++ str "," ++ s) = Ok (Strconv.FormatUint n 10, s).
Proof.
  intros Hn. destruct (FormatUint_shape n Hn) as (ds & E & Hok & Hne). rewrite E.
  unfold splitVolumeId, Index. change (str ",") with [44]. cbn [app].
  rewrite Index_from_app by (eapply digit_chars_no_comma; [|done]; lia).
  assert (0 < zlen (Strconv.digit_char <$> ds)).
  { destruct ds; [done|]. cbn [fmap list_fmap]. rewrite zlen_cons. zl. }
  rewrite decide_False by lia. unfold mret, res_ret. do 2 f_equal.
  - rewrite sub_app_l by lia. apply sub_all. lia.
  - rewrite (app_assoc _ [44] s). rewrite drop_app_ge.
    + rewrite length_app. simpl. replace (_ - _)%nat with 0%nat by (unfold zlen; lia). done.
    + rewrite length_app. simpl. unfold zlen. lia.
Qed.

Lemma NewVolumeId_decimal v :
  in_u 64 v → NewVolumeId (Strconv.FormatUint v 10) = Ok (u32 v).
Proof. intros Hv. unfold NewVolumeId. by rewrite ParseUint_FormatUint. Qed.

(** A volume id is parsed as 64 bits and silently truncated to 32: decimal
    ids that differ by a multiple of 2^32 name the same volume. *)
Theorem volume_id_truncation v :
  in_u 64 v → NewVolumeId (Strconv.FormatUint v 10) = Ok (v `mod` 2 ^ 32).
Proof. apply NewVolumeId_decimal. Qed.

Lemma volume_id_truncation_witness :
  in_u 64 4294967297 ∧ NewVolumeId (Strconv.FormatUint 4294967297 10) = Ok 1.
Proof.
  assert (in_u 64 4294967297) as H by (vm_compute; split; [intros E; discriminate E|reflexivity]).
  split; [exact H|exact (volume_id_truncation _ H)].
Defined.

(** A file id prints, and the printed form parses back to it unless its
    key is 0, the one key whose hexadecimal is dropped entirely. *)
Theorem file_id_roundtrip f :
  wf f →
  ∃ s, String f = Ok s ∧
       ParseFileIdFromString s
         = if decide (Key f = 0) then Fail (Errorf "KeyHash is too short.") else Ok f.
Proof.
  destruct f as [vid key cookie]. intros (Hvid & Hkey & Hc); cbn [VolumeId Key Cookie] in *.
  destruct (format_spec key cookie Hkey) as (kb & E & Hok & Hv & Hlen & Hz).
  assert (in_u 64 vid) as Hvid' by (unfold in_u in *; widths; lia).
  unfold String; cbn [Key Cookie VolumeId]. rewrite E. eexists; split; [done|].
  unfold ParseFileIdFromString, VolumeId_String.
  rewrite split_volume_id by done. cbn [mbind res_bind].
  rewrite NewVolumeId_decimal, wrap_id by done. cbn [mbind res_bind].
  rewrite parse_format with (key := key) by done.
  destruct (decide (kb = [])) as [Hkb|Hkb].
  - rewrite decide_True by tauto. done.
  - rewrite decide_False by tauto. done.
Qed.

Lemma file_id_roundtrip_witness :
  wf (Mk 3 0x1 0x637037d6) ∧
  ∃ s, String (Mk 3 0x1 0x637037d6) = Ok s ∧ ParseFileIdFromString s = Ok (Mk 3 0x1 0x637037d6).
Proof.
  assert (wf (Mk 3 0x1 0x637037d6)) as H by (unfold wf, in_u; cbn; lia).
  split; [exact H|exact (file_id_roundtrip _ H)].
Defined.
End roundtrip.
