(* ===== verification/Needle.v ===== *)
(** * Needle: the needle record, its size accounting and its on-disk writers
    (weed/storage/needle/needle.go, needle_read_tail.go, needle_write_v1.go,
    needle_write_v2.go, needle_write_v3.go, needle_write_version.go,
    needle_write_legacy.go, crc.go, volume_version.go) *)

From S2P Require Import Prelude GoStd Bytes StorageTypes VolumeTtl.

Module Needle.

Definition NeedleChecksumSize : Z := 4.
Definition LastModifiedBytesLength : Z := 5.
Definition TtlBytesLength : Z := 2.
Definition FlagIsCompressed : Z := 0x01.
Definition FlagHasName : Z := 0x02.
Definition FlagHasMime : Z := 0x04.
Definition FlagHasLastModifiedDate : Z := 0x08.
Definition FlagHasTtl : Z := 0x10.
Definition FlagHasPairs : Z := 0x20.
Definition FlagIsChunkManifest : Z := 0x80.

Definition Version1 : Z := 1.
Definition Version2 : Z := 2.
Definition Version3 : Z := 3.
Definition GetCurrentVersion : Z := Version3.
Definition IsSupportedVersion (v : Z) : bool := bool_decide (Version1 ≤ v ∧ v ≤ Version3).

(** ** CRC *)

Definition NewCRC (b : bytes) : Z := Crc32.Update 0 b.
Definition CRC_Update (c : Z) (b : bytes) : Z := Crc32.Update c b.
Definition CRC_Value (c : Z) : Z :=
  u32 (Z.lor (Z.shiftr c 15) (u32 (Z.shiftl c 17)) + 0xa282ead8).

(** ** The record; a nil [Ttl] is [None] *)

Record t := Mk {
  Cookie : Z; Id : Z; Size : Z;
  DataSize : Z; Data : bytes; Flags : Z;
  NameSize : Z; Name : bytes;
  MimeSize : Z; Mime : bytes;
  PairsSize : Z; Pairs : bytes;
  LastModified : Z; Ttl : option Ttl.TTL;
  Checksum : Z; AppendAtNs : Z }.

(** [new(Needle)] *)
Definition new : t := Mk 0 0 0 0 [] 0 0 [] 0 [] 0 [] 0 None 0 0.

Definition set_header (c i s : Z) (n : t) : t :=
  Mk c i s (DataSize n) (Data n) (Flags n) (NameSize n) (Name n) (MimeSize n) (Mime n)
     (PairsSize n) (Pairs n) (LastModified n) (Ttl n) (Checksum n) (AppendAtNs n).
Definition set_Size (s : Z) (n : t) : t := set_header (Cookie n) (Id n) s n.
Definition set_Cookie (c : Z) (n : t) : t := set_header c (Id n) (Size n) n.
Definition set_DataSize (v : Z) (n : t) : t :=
  Mk (Cookie n) (Id n) (Size n) v (Data n) (Flags n) (NameSize n) (Name n) (MimeSize n) (Mime n)
     (PairsSize n) (Pairs n) (LastModified n) (Ttl n) (Checksum n) (AppendAtNs n).
Definition set_Data (v : bytes) (n : t) : t :=
  Mk (Cookie n) (Id n) (Size n) (DataSize n) v (Flags n) (NameSize n) (Name n) (MimeSize n)
     (Mime n) (PairsSize n) (Pairs n) (LastModified n) (Ttl n) (Checksum n) (AppendAtNs n).
Definition set_Flags (v : Z) (n : t) : t :=
  Mk (Cookie n) (Id n) (Size n) (DataSize n) (Data n) v (NameSize n) (Name n) (MimeSize n)
     (Mime n) (PairsSize n) (Pairs n) (LastModified n) (Ttl n) (Checksum n) (AppendAtNs n).
Definition set_NameSize (v : Z) (n : t) : t :=
  Mk (Cookie n) (Id n) (Size n) (DataSize n) (Data n) (Flags n) v (Name n) (MimeSize n)
     (Mime n) (PairsSize n) (Pairs n) (LastModified n) (Ttl n) (Checksum n) (AppendAtNs n).
Definition set_Name (v : bytes) (n : t) : t :=
  Mk (Cookie n) (Id n) (Size n) (DataSize n) (Data n) (Flags n) (NameSize n) v (MimeSize n)
     (Mime n) (PairsSize n) (Pairs n) (LastModified n) (Ttl n) (Checksum n) (AppendAtNs n).
Definition set_MimeSize (v : Z) (n : t) : t :=
  Mk (Cookie n) (Id n) (Size n) (DataSize n) (Data n) (Flags n) (NameSize n) (Name n) v
     (Mime n) (PairsSize n) (Pairs n) (LastModified n) (Ttl n) (Checksum n) (AppendAtNs n).
Definition set_Mime (v : bytes) (n : t) : t :=
  Mk (Cookie n) (Id n) (Size n) (DataSize n) (Data n) (Flags n) (NameSize n) (Name n)
     (MimeSize n) v (PairsSize n) (Pairs n) (LastModified n) (Ttl n) (Checksum n) (AppendAtNs n).
Definition set_PairsSize (v : Z) (n : t) : t :=
  Mk (Cookie n) (Id n) (Size n) (DataSize n) (Data n) (Flags n) (NameSize n) (Name n)
     (MimeSize n) (Mime n) v (Pairs n) (LastModified n) (Ttl n) (Checksum n) (AppendAtNs n).
Definition set_Pairs (v : bytes) (n : t) : t :=
  Mk (Cookie n) (Id n) (Size n) (DataSize n) (Data n) (Flags n) (NameSize n) (Name n)
     (MimeSize n) (Mime n) (PairsSize n) v (LastModified n) (Ttl n) (Checksum n) (AppendAtNs n).
Definition set_LastModified (v : Z) (n : t) : t :=
  Mk (Cookie n) (Id n) (Size n) (DataSize n) (Data n) (Flags n) (NameSize n) (Name n)
     (MimeSize n) (Mime n) (PairsSize n) (Pairs n) v (Ttl n) (Checksum n) (AppendAtNs n).
Definition set_Ttl (v : option Ttl.TTL) (n : t) : t :=
  Mk (Cookie n) (Id n) (Size n) (DataSize n) (Data n) (Flags n) (NameSize n) (Name n)
     (MimeSize n) (Mime n) (PairsSize n) (Pairs n) (LastModified n) v (Checksum n) (AppendAtNs n).
Definition set_Checksum (v : Z) (n : t) : t :=
  Mk (Cookie n) (Id n) (Size n) (DataSize n) (Data n) (Flags n) (NameSize n) (Name n)
     (MimeSize n) (Mime n) (PairsSize n) (Pairs n) (LastModified n) (Ttl n) v (AppendAtNs n).
Definition set_AppendAtNs (v : Z) (n : t) : t :=
  Mk (Cookie n) (Id n) (Size n) (DataSize n) (Data n) (Flags n) (NameSize n) (Name n)
     (MimeSize n) (Mime n) (PairsSize n) (Pairs n) (LastModified n) (Ttl n) (Checksum n) v.

(** [max(uint64(now), volumeLastAppendAtNs+1)]; [now] is the clock. *)
Definition GetAppendAtNs (now volumeLastAppendAtNs : Z) : Z :=
  let y := u64 (volumeLastAppendAtNs + 1) in if decide (now ≤ y) then y else now.
Definition UpdateAppendAtNs (now volumeLastAppendAtNs : Z) (n : t) : t :=
  set_AppendAtNs (GetAppendAtNs now volumeLastAppendAtNs) n.

(** ** Flags *)

Definition has (flag : Z) (n : t) : bool := bool_decide (Z.land (Flags n) flag > 0).
Definition IsCompressed (n : t) : bool := has FlagIsCompressed n.
Definition HasName (n : t) : bool := has FlagHasName n.
Definition HasMime (n : t) : bool := has FlagHasMime n.
Definition HasLastModifiedDate (n : t) : bool := has FlagHasLastModifiedDate n.
Definition HasTtl (n : t) : bool := has FlagHasTtl n.
Definition IsChunkedManifest (n : t) : bool := has FlagIsChunkManifest n.
Definition HasPairs (n : t) : bool := bool_decide (Z.land (Flags n) FlagHasPairs ≠ 0).
Definition set_flag (flag : Z) (n : t) : t := set_Flags (Z.lor (Flags n) flag) n.
Definition SetIsCompressed (n : t) : t := set_flag FlagIsCompressed n.
Definition SetHasName (n : t) : t := set_flag FlagHasName n.
Definition SetHasMime (n : t) : t := set_flag FlagHasMime n.
Definition SetHasLastModifiedDate (n : t) : t := set_flag FlagHasLastModifiedDate n.
Definition SetHasTtl (n : t) : t := set_flag FlagHasTtl n.
Definition SetIsChunkManifest (n : t) : t := set_flag FlagIsChunkManifest n.
Definition SetHasPairs (n : t) : t := set_flag FlagHasPairs n.

(** ** Sizes.  [PaddingLength] computes in int32, with a truncated remainder;
    [NeedleBodyLength] adds 32-bit values in int64, which cannot overflow. *)

Definition PaddingLength (needleSize version : Z) : Z :=
  if decide (version = Version3) then
    sub32 NeedlePaddingSize
      (Z.rem (add32 (add32 (add32 NeedleHeaderSize needleSize) NeedleChecksumSize)
                TimestampSize) NeedlePaddingSize)
  else
    sub32 NeedlePaddingSize
      (Z.rem (add32 (add32 NeedleHeaderSize needleSize) NeedleChecksumSize) NeedlePaddingSize).

Definition NeedleBodyLength (needleSize version : Z) : Z :=
  if decide (version = Version3) then
    needleSize + NeedleChecksumSize + TimestampSize + PaddingLength needleSize version
  else needleSize + NeedleChecksumSize + PaddingLength needleSize version.

Definition GetActualSize (size version : Z) : Z :=
  NeedleHeaderSize + NeedleBodyLength size version.
Definition DiskSize (n : t) (version : Z) : Z := GetActualSize (Size n) version.

(** ** Writers

    A writer returns the needle with the sizes it filled in, the bytes put in
    the buffer, and the size and actual size it reports.  [header] is a scratch
    buffer that is reused, so the padding carries stale header bytes. *)

(** [header[lo:hi]] as written to the buffer. *)
Definition head (h : bytes) (lo hi : Z) : res bytes :=
  s ← reslice (sl_of h) lo hi; mret (sl_data s).

Definition put_u8 (h : bytes) (v : Z) : res bytes := window h 0 1 (λ w, Uint8toBytes w v).
Definition put_u16 (h : bytes) (v : Z) : res bytes := window h 0 2 (λ w, Uint16toBytes w v).
Definition put_u32 (h : bytes) (v : Z) : res bytes := window h 0 4 (λ w, Uint32toBytes w v).
Definition put_u64 (h : bytes) (v : Z) : res bytes := window h 0 8 (λ w, Uint64toBytes w v).

(** The header fields common to all versions. *)
Definition put_ids (h : bytes) (n : t) : res bytes :=
  h ← window h 0 CookieSize (λ w, CookieToBytes w (Cookie n));
  window h CookieSize (CookieSize + NeedleIdSize) (λ w, NeedleIdToBytes w (Id n)).
Definition put_size (h : bytes) (n : t) : res bytes :=
  window h (CookieSize + NeedleIdSize) (CookieSize + NeedleIdSize + SizeSize)
    (λ w, Size.SizeToBytes w (Size n)).

Definition writeNeedleV1 (n : t) : res (t * bytes * Z * Z) :=
  let header := zeros NeedleHeaderSize in
  header ← put_ids header n;
  let n := set_Size (s32 (zlen (Data n))) n in
  header ← put_size header n;
  let size := Size n in
  let actualSize := NeedleHeaderSize + Size n in
  let buffer := header ++ Data n in
  let padding := PaddingLength (Size n) Version1 in
  header ← put_u32 header (Checksum n);
  tail ← head header 0 (add32 NeedleChecksumSize padding);
  mret (n, buffer ++ tail, size, actualSize).

(** [n.Size] of version 2 and 3, accumulated in int32 from the other sizes. *)
Definition body_size (n : t) : Z :=
  if decide (DataSize n > 0) then
    let size := add32 (add32 4 (s32 (DataSize n))) 1 in
    let size := if HasName n then add32 (add32 size 1) (NameSize n) else size in
    let size := if HasMime n then add32 (add32 size 1) (MimeSize n) else size in
    let size := if HasLastModifiedDate n then add32 size LastModifiedBytesLength else size in
    let size := if HasTtl n then add32 size TtlBytesLength else size in
    if HasPairs n then add32 size (add32 2 (PairsSize n)) else size
  else 0.

(** [n.NameSize], [n.DataSize], [n.MimeSize] and [n.Size] as the writers set them. *)
Definition fill_sizes (n : t) : t :=
  let n := if decide (255 ≤ zlen (Name n)) then set_NameSize 255 n
           else set_NameSize (u8 (zlen (Name n))) n in
  let n := set_MimeSize (u8 (zlen (Mime n))) (set_DataSize (u32 (zlen (Data n))) n) in
  set_Size (body_size n) n.

(** The optional fields after the data: the scratch header and the bytes written. *)
Definition write_name (n : t) (header : bytes) : res (bytes * bytes) :=
  if HasName n then
    header ← put_u8 header (NameSize n);
    b ← head header 0 1;
    name ← head (Name n) 0 (NameSize n);
    mret (header, b ++ name)
  else mret (header, []).
Definition write_mime (n : t) (header : bytes) : res (bytes * bytes) :=
  if HasMime n then
    header ← put_u8 header (MimeSize n);
    b ← head header 0 1;
    mret (header, b ++ Mime n)
  else mret (header, []).
Definition write_last_modified (n : t) (header : bytes) : res (bytes * bytes) :=
  if HasLastModifiedDate n then
    header ← put_u64 header (LastModified n);
    b ← head header (8 - LastModifiedBytesLength) 8;
    mret (header, b)
  else mret (header, []).
Definition write_ttl (n : t) (header : bytes) : res (bytes * bytes) :=
  match HasTtl n, Ttl n with
  | true, Some ttl =>
      header ← window header 0 TtlBytesLength (Ttl.ToBytes ttl);
      b ← head header 0 TtlBytesLength;
      mret (header, b)
  | _, _ => mret (header, [])
  end.
Definition write_pairs (n : t) (header : bytes) : res (bytes * bytes) :=
  if HasPairs n then
    header ← put_u16 header (PairsSize n);
    b ← head header 0 2;
    mret (header, b ++ Pairs n)
  else mret (header, []).

Definition write_body (n : t) (header : bytes) : res (bytes * bytes) :=
  if decide (DataSize n > 0) then
    header ← put_u32 header (DataSize n);
    b0 ← head header 0 4;
    header ← put_u8 header (Flags n);
    b1 ← head header 0 1;
    '(header, b2) ← write_name n header;
    '(header, b3) ← write_mime n header;
    '(header, b4) ← write_last_modified n header;
    '(header, b5) ← write_ttl n header;
    '(header, b6) ← write_pairs n header;
    mret (header, b0 ++ Data n ++ b1 ++ b2 ++ b3 ++ b4 ++ b5 ++ b6)
  else mret (header, []).

Definition writeNeedleCommon (n : t) (version : Z)
    (writeFooter : t → bytes → Z → res bytes) : res (t * bytes * Z * Z) :=
  let header := zeros (NeedleHeaderSize + TimestampSize) in
  header ← put_ids header n;
  let n := fill_sizes n in
  header ← put_size header n;
  b ← head header 0 NeedleHeaderSize;
  '(header, body) ← write_body n header;
  let padding := PaddingLength (Size n) version in
  footer ← writeFooter n header padding;
  mret (n, b ++ body ++ footer, s32 (DataSize n), GetActualSize (Size n) version).

Definition writeNeedleV2 (n : t) : res (t * bytes * Z * Z) :=
  writeNeedleCommon n Version2 (λ n header padding,
    header ← put_u32 header (Checksum n);
    head header 0 (NeedleChecksumSize + padding)).

Definition writeNeedleV3 (n : t) : res (t * bytes * Z * Z) :=
  writeNeedleCommon n Version3 (λ n header padding,
    header ← put_u32 header (Checksum n);
    header ← window header NeedleChecksumSize (NeedleChecksumSize + TimestampSize)
               (λ w, Uint64toBytes w (AppendAtNs n));
    head header 0 (NeedleChecksumSize + TimestampSize + padding)).

Definition writeNeedleByVersion (version : Z) (n : t) : res (t * bytes * Z * Z) :=
  if decide (version = Version1) then writeNeedleV1 n
  else if decide (version = Version2) then writeNeedleV2 n
  else if decide (version = Version3) then writeNeedleV3 n
  else Fail (Errorf "unsupported version: %d").

(** The writer before it was split by version: one function, with the padding
    kept in int32 where the split one converts it to int. *)
Definition LegacyPrepareWriteBuffer (version : Z) (n : t) : res (t * bytes * Z * Z) :=
  if decide (version = Version1) then
    let header := zeros NeedleHeaderSize in
    header ← put_ids header n;
    let n := set_Size (s32 (zlen (Data n))) n in
    header ← put_size header n;
    let size := Size n in
    let actualSize := NeedleHeaderSize + Size n in
    let buffer := header ++ Data n in
    let padding := PaddingLength (Size n) version in
    header ← put_u32 header (Checksum n);
    tail ← head header 0 (add32 NeedleChecksumSize padding);
    mret (n, buffer ++ tail, size, actualSize)
  else if decide (version = Version2 ∨ version = Version3) then
    let header := zeros (NeedleHeaderSize + TimestampSize) in
    header ← put_ids header n;
    let n := fill_sizes n in
    header ← put_size header n;
    b ← head header 0 NeedleHeaderSize;
    '(header, body) ← write_body n header;
    let padding := PaddingLength (Size n) version in
    header ← put_u32 header (Checksum n);
    tail ←
      (if decide (version = Version2) then head header 0 (add32 NeedleChecksumSize padding)
       else
         header ← window header NeedleChecksumSize (NeedleChecksumSize + TimestampSize)
                    (λ w, Uint64toBytes w (AppendAtNs n));
         head header 0 (add32 (NeedleChecksumSize + TimestampSize) padding));
    mret (n, b ++ body ++ tail, s32 (DataSize n), GetActualSize (Size n) version)
  else Fail (Errorf "Unsupported Version! (%d)").

End Needle.

(** ** The layout the writers produce *)
Module Layout.
Import Needle.

(** The optional fields, as a reader expects them. *)
Definition name_ref (n : t) : bytes :=
  if HasName n then let m := take 255 (Name n) in zlen m :: m else [].
Definition mime_ref (n : t) : bytes := if HasMime n then zlen (Mime n) :: Mime n else [].
Definition last_modified_ref (n : t) : bytes :=
  if HasLastModifiedDate n then be_split 5 (LastModified n) else [].
Definition ttl_ref (n : t) : bytes :=
  match HasTtl n, Ttl n with
  | true, Some t => [Ttl.Count t; Ttl.Unit t]
  | _, _ => []
  end.
Definition pairs_ref (n : t) : bytes :=
  if HasPairs n then be_split 2 (zlen (Pairs n)) ++ Pairs n else [].
Definition meta_ref (n : t) : bytes :=
  [Flags n] ++ name_ref n ++ mime_ref n ++ last_modified_ref n ++ ttl_ref n ++ pairs_ref n.
Definition body_ref (n : t) : bytes :=
  match Data n with
  | [] => []
  | _ => be_split 4 (zlen (Data n)) ++ Data n ++ meta_ref n
  end.
Definition header_ref (n : t) (size : Z) : bytes :=
  be_split 4 (Cookie n) ++ be_split 8 (Id n) ++ be_split 4 (u32 size).

(** What [CreateNeedleFromRequest] and the volume guarantee of a needle: the
    optional fields fit their length prefixes, a TTL flag has a TTL, and the whole
    fits the 32-bit size with room for header, checksum and padding. *)
Record writable (n : t) : Prop := {
  w_flags : is_byte (Flags n);
  w_mime : HasMime n = true → zlen (Mime n) < 256;
  w_ttl : HasTtl n = true → Ttl n ≠ None;
  w_pairs : HasPairs n = true → PairsSize n = zlen (Pairs n) ∧ zlen (Pairs n) < 65536;
  w_size : zlen (Data n) + 5 + zlen (meta_ref n) < 2147483600 }.

Lemma add32_id a b : in_s 32 (a + b) → add32 a b = a + b.
Proof. intros. apply swrap_id; [lia|done]. Qed.

Lemma padding_spec size version :
  0 ≤ size < 2147483620 →
  1 ≤ PaddingLength size version ≤ 8 ∧ GetActualSize size version `mod` 8 = 0.
Proof.
  intros Hs.
  unfold GetActualSize, NeedleBodyLength, PaddingLength, NeedleHeaderSize, CookieSize,
    NeedleIdSize, SizeSize, NeedleChecksumSize, TimestampSize, NeedlePaddingSize.
  case_decide; unfold add32, sub32, swrap; change (2 ^ (32 - 1)) with 2147483648;
    change (2 ^ 32) with 4294967296; mlia.
Qed.

(** Padding is between 1 and 8 bytes and makes every record a multiple of 8
    bytes long, in all three versions. *)
Theorem padding_aligns size version :
  0 ≤ size < 2 ^ 31 - 28 →
  1 ≤ PaddingLength size version ≤ 8 ∧
  GetActualSize size version `mod` NeedlePaddingSize = 0.
Proof. apply padding_spec. Qed.

Lemma padding_aligns_witness :
  (0 ≤ 12 < 2 ^ 31 - 28) ∧ GetActualSize 12 Version3 `mod` NeedlePaddingSize = 0.
Proof.
  assert (0 ≤ 12 < 2 ^ 31 - 28) as H by (split; [lia|reflexivity]).
  split; [exact H|exact (proj2 (padding_aligns 12 Version3 H))].
Defined.

(** ** Scratch-header steps *)

Lemma head_front d r hi : hi = zlen d → head (d ++ r) 0 hi = Ok d.
Proof.
  intros ->. unfold head. rewrite reslice_ok by (unfold sl_cap, sl_of; cbn; zl).
  cbn [mbind res_bind]. unfold mret, res_ret, sl_data; cbn [sl_buf sl_len sl_of]. f_equal.
  rewrite drop_0, sub_app_l, sub_all by lia. done.
Qed.

Lemma splice_front {A} (h d : list A) : splice h 0 d = d ++ drop (length d) h.
Proof. unfold splice. by rewrite take_0. Qed.

Lemma put_u8_spec h v : zlen h = 24 → put_u8 h v = Ok (splice h 0 (be_split 1 v)).
Proof. intros. apply window_be; [done|done|lia|intros; by apply be_store_8]. Qed.
Lemma put_u16_spec h v : zlen h = 24 → put_u16 h v = Ok (splice h 0 (be_split 2 v)).
Proof. intros. apply window_be; [done|done|lia|intros; by apply be_store_16]. Qed.
Lemma put_u32_spec h v : 4 ≤ zlen h → put_u32 h v = Ok (splice h 0 (be_split 4 v)).
Proof. intros. apply window_be; [done|done|lia|intros; by apply be_store_32]. Qed.
Lemma put_u64_spec h v : zlen h = 24 → put_u64 h v = Ok (splice h 0 (be_split 8 v)).
Proof. intros. apply window_be; [done|done|lia|intros; by apply be_store_64]. Qed.

Lemma zlen_splice_front h (d : bytes) m :
  zlen h = m → zlen d ≤ m → zlen (splice h 0 d) = m.
Proof. intros <- H. apply zlen_splice; lia. Qed.

(** One scratch step: store at the front, emit what was stored. *)
Lemma head_splice (h d : bytes) hi : hi = zlen d → head (splice h 0 d) 0 hi = Ok d.
Proof. intros. rewrite splice_front. by apply head_front. Qed.

Lemma be_split_1 v : is_byte v → be_split 1 v = [v].
Proof. intros. cbn. rewrite Z.shiftr_0_r, (wrap_id 8); [done|exact H]. Qed.

Ltac keep_len := apply zlen_splice_front; [done|rewrite zlen_be_split; lia].
Ltac scratch := rewrite ?put_u8_spec, ?put_u16_spec, ?put_u32_spec, ?put_u64_spec by lia;
  cbn [mbind res_bind mret res_ret]; rewrite ?head_splice by (rewrite zlen_be_split; done);
  cbn [mbind res_bind mret res_ret].

Lemma write_name_spec n h :
  zlen h = 24 → NameSize n = zlen (take 255 (Name n)) →
  ∃ h', write_name n h = Ok (h', name_ref n) ∧ zlen h' = 24.
Proof.
  intros Hh Hn. unfold write_name, name_ref. destruct (HasName n); [|by eexists].
  scratch.
  assert (head (Name n) 0 (NameSize n) = Ok (take 255 (Name n))) as ->.
  { rewrite <- (take_drop 255 (Name n)) at 1. by apply head_front. }
  exists (splice h 0 (be_split 1 (NameSize n))). split; [|keep_len].
  cbn. do 2 f_equal. rewrite Hn. rewrite Z.shiftr_0_r, (wrap_id 8); [done|].
  rewrite zlen_take. pose proof (zlen_nonneg (Name n)). red. widths. lia.
Qed.

Lemma write_mime_spec n h :
  zlen h = 24 → MimeSize n = zlen (Mime n) → (HasMime n = true → zlen (Mime n) < 256) →
  ∃ h', write_mime n h = Ok (h', mime_ref n) ∧ zlen h' = 24.
Proof.
  intros Hh Hn Hm. unfold write_mime, mime_ref. destruct (HasMime n); [|by eexists].
  scratch. exists (splice h 0 (be_split 1 (MimeSize n))). split; [|keep_len].
  rewrite Hn, be_split_1; [done|]. pose proof (zlen_nonneg (Mime n)). red. naive_solver lia.
Qed.

Lemma be_split_drop n m v : be_split n v = drop m (be_split (m + n) v).
Proof. induction m as [|m IH]; [done|]. cbn. exact IH. Qed.

Lemma write_last_modified_spec n h :
  zlen h = 24 → ∃ h', write_last_modified n h = Ok (h', last_modified_ref n) ∧ zlen h' = 24.
Proof.
  intros Hh. unfold write_last_modified, last_modified_ref.
  destruct (HasLastModifiedDate n); [|by eexists].
  rewrite put_u64_spec by done. cbn [mbind res_bind].
  exists (splice h 0 (be_split 8 (LastModified n))). split; [|keep_len].
  rewrite splice_front. unfold head.
  rewrite reslice_ok by (unfold sl_cap, sl_of, LastModifiedBytesLength; cbn; zl).
  reflexivity.
Qed.

Lemma write_ttl_spec n h :
  zlen h = 24 → ∃ h', write_ttl n h = Ok (h', ttl_ref n) ∧ zlen h' = 24.
Proof.
  intros Hh. unfold write_ttl, ttl_ref. destruct (HasTtl n), (Ttl n) as [[c u]|]; try by eexists.
  assert (window h 0 TtlBytesLength (Ttl.ToBytes (Ttl.MkTTL c u)) = Ok (splice h 0 [c; u])) as ->.
  { unfold window, TtlBytesLength. rewrite decide_True by lia.
    pose proof (zlen_sub h 0 (2 - 0) ltac:(lia)) as E. rewrite Hh in E.
    apply (zlen_length _ 2) in E. destruct (sub h 0 (2 - 0)) as [|x [|y [|]]]; try done. }
  cbn [mbind res_bind]. rewrite head_splice by done.
  exists (splice h 0 [c; u]). split; [done|]. by apply zlen_splice_front.
Qed.

Lemma write_pairs_spec n h :
  zlen h = 24 → (HasPairs n = true → PairsSize n = zlen (Pairs n)) →
  ∃ h', write_pairs n h = Ok (h', pairs_ref n) ∧ zlen h' = 24.
Proof.
  intros Hh Hp. unfold write_pairs, pairs_ref. destruct (HasPairs n); [|by eexists].
  scratch. rewrite Hp by done. eexists; split; [done|].
  keep_len.
Qed.

(** The sizes the writers fill in do not change what is written. *)
Definition filled (n m : t) : Prop :=
  m = set_header (Cookie n) (Id n) (zlen (body_ref n))
        (set_MimeSize (u8 (zlen (Mime n)))
        (set_DataSize (zlen (Data n))
        (set_NameSize (zlen (take 255 (Name n))) n))).

Lemma zlen_meta n :
  zlen (meta_ref n) =
    1 + (if HasName n then 1 + zlen (take 255 (Name n)) else 0)
      + (if HasMime n then 1 + zlen (Mime n) else 0)
      + (if HasLastModifiedDate n then 5 else 0)
      + (match HasTtl n, Ttl n with true, Some _ => 2 | _, _ => 0 end)
      + (if HasPairs n then 2 + zlen (Pairs n) else 0).
Proof.
  unfold meta_ref, name_ref, mime_ref, last_modified_ref, ttl_ref, pairs_ref.
  destruct (HasName n), (HasMime n), (HasLastModifiedDate n), (HasTtl n), (Ttl n),
    (HasPairs n); zl.
Qed.

Lemma name_size n :
  (if decide (255 ≤ zlen (Name n)) then 255 else u8 (zlen (Name n))) = zlen (take 255 (Name n)).
Proof.
  rewrite zlen_take. pose proof (zlen_nonneg (Name n)). case_decide; [lia|].
  rewrite (wrap_id 8); [lia|]. widths. lia.
Qed.

(** Remove int32 additions that do not overflow, innermost first. *)
Ltac drop_wraps := repeat
  match goal with |- context [add32 ?a ?b] =>
    lazymatch a with context [add32 _ _] => fail | _ =>
    lazymatch b with context [add32 _ _] => fail | _ =>
      rewrite (add32_id a b) by (widths; lia) end end end.

(** Within the size limit nothing overflows and [n.Size] is the body's length. *)
Lemma body_size_spec n :
  writable n → DataSize n = zlen (Data n) → NameSize n = zlen (take 255 (Name n)) →
  MimeSize n = u8 (zlen (Mime n)) → body_size n = zlen (body_ref n).
Proof.
  intros [_ Hm Ht Hp Hs] Hds Hns Hms.
  assert (Hbody : zlen (body_ref n)
    = if decide (zlen (Data n) > 0) then 4 + zlen (Data n) + zlen (meta_ref n) else 0).
  { unfold body_ref. destruct (Data n); [done|]. rewrite decide_True by zl. zl. }
  rewrite Hbody. unfold body_size. rewrite Hds. case_decide; [|done].
  pose proof (zlen_meta n) as Hmeta. rewrite Hmeta in Hs |- *. rewrite <- Hns in *.
  pose proof (zlen_nonneg (Data n)). pose proof (zlen_nonneg (Mime n)).
  pose proof (zlen_nonneg (Pairs n)).
  assert (0 ≤ NameSize n) by (rewrite Hns; apply zlen_nonneg).
  assert (HasMime n = true → MimeSize n = zlen (Mime n)).
  { intros HM. rewrite Hms. apply wrap_id. widths. specialize (Hm HM). lia. }
  clear Hms Hm Hmeta Hbody Hns Hds.
  destruct (HasName n), (HasMime n), (HasLastModifiedDate n), (HasTtl n), (HasPairs n),
    (Ttl n); try (destruct (Hp eq_refl) as [-> _]); try (destruct (Ht eq_refl eq_refl));
    try (rewrite H4 by done);
    rewrite (swrap_id 32) by (widths; lia);
    unfold LastModifiedBytesLength, TtlBytesLength;
    drop_wraps; lia.
Qed.

Lemma fill_sizes_spec n : writable n → filled n (fill_sizes n).
Proof.
  intros Hw. pose proof Hw as [_ _ _ _ Hs]. unfold filled, fill_sizes.
  replace (if decide (255 ≤ zlen (Name n)) then set_NameSize 255 n
           else set_NameSize (u8 (zlen (Name n))) n)
    with (set_NameSize (zlen (take 255 (Name n))) n)
    by (rewrite <- name_size; by case_decide).
  pose proof (zlen_nonneg (Data n)). pose proof (zlen_nonneg (meta_ref n)).
  rewrite (wrap_id 32) by (cbn [set_NameSize Data]; widths; lia).
  unfold set_Size. rewrite body_size_spec; [done| |done..].
  destruct Hw. constructor; assumption.
Qed.

Lemma write_body_spec n h :
  zlen h = 24 → writable n → DataSize n = zlen (Data n) →
  NameSize n = zlen (take 255 (Name n)) → MimeSize n = u8 (zlen (Mime n)) →
  ∃ h', write_body n h = Ok (h', body_ref n) ∧ zlen h' = 24.
Proof.
  intros Hh [Hf Hm Ht Hp Hs] Hds Hns Hms. unfold write_body, body_ref. rewrite Hds.
  destruct (Data n) as [|x d] eqn:Hd; [by eexists|].
  rewrite decide_True by zl. rewrite <- Hd in *. scratch.
  set (h1 := splice h 0 _). assert (zlen h1 = 24) by keep_len. scratch.
  set (h2 := splice h1 0 _). assert (zlen h2 = 24) by keep_len.
  destruct (write_name_spec n h2) as (h3 & -> & ?); [done..|].
  cbn [mbind res_bind].
  assert (∃ h', write_mime n h3 = Ok (h', mime_ref n) ∧ zlen h' = 24) as (h4 & -> & ?).
  { destruct (HasMime n) eqn:HM.
    - apply write_mime_spec; [done| |auto]. rewrite Hms. apply (wrap_id 8).
      pose proof (zlen_nonneg (Mime n)). specialize (Hm eq_refl). widths. lia.
    - unfold write_mime, mime_ref. rewrite HM. by eexists. }
  cbn [mbind res_bind].
  destruct (write_last_modified_spec n h4) as (h5 & -> & ?); [done|]. cbn [mbind res_bind].
  destruct (write_ttl_spec n h5) as (h6 & -> & ?); [done|]. cbn [mbind res_bind].
  destruct (write_pairs_spec n h6) as (h7 & -> & ?); [done|intros E; by destruct (Hp E)|].
  exists h7. split; [|done]. unfold meta_ref.
  by rewrite (be_split_1 (Flags n)) by done.
Qed.

Lemma splice_after {A} (a r d : list A) lo :
  lo = zlen a → splice (a ++ r) lo d = a ++ d ++ drop (length d) r.
Proof.
  intros ->. unfold splice, zlen. rewrite Nat2Z.id, take_app_length, drop_app_add. done.
Qed.

(** Filling the window that follows a finished prefix. *)
Lemma window_after n (a r : bytes) lo hi v f :
  lo = zlen a → hi = lo + Z.of_nat n → Z.of_nat n ≤ zlen r →
  (∀ w, length w = n → f w = Ok (be_split n v)) →
  window (a ++ r) lo hi f = Ok ((a ++ be_split n v) ++ drop n r).
Proof.
  intros Hlo Hhi Hn Hf.
  rewrite (window_be n _ _ _ v) by (auto; rewrite ?zlen_app; pose proof (zlen_nonneg a); lia).
  by rewrite splice_after, length_be_split, app_assoc by done.
Qed.

(** The header fields, written into consecutive windows. *)
Lemma header_spec n m h h0 :
  put_ids h n = Ok h0 → 16 ≤ zlen h →
  put_size h0 m = Ok (header_ref n (Size m) ++ drop 16 h).
Proof.
  intros Hh0 Hh. unfold put_ids in Hh0. change h with ([] ++ h) in Hh0 at 1.
  rewrite (window_after 4 [] h _ _ (Cookie n)) in Hh0;
    [|done|done|lia|intros; by apply be_store_32].
  cbn [mbind res_bind] in Hh0.
  rewrite (window_after 8 _ _ _ _ (Id n)) in Hh0;
    [|zl; done|done|zl|intros; by apply be_store_64].
  apply Ok_inj in Hh0 as <-. unfold put_size.
  rewrite (window_after 4 _ _ _ _ (u32 (Size m)));
    [|zl; done|done|zl|intros; by apply be_store_32].
  rewrite !drop_drop. unfold header_ref. by rewrite <- !app_assoc.
Qed.

Lemma put_ids_ok h n : 16 ≤ zlen h → ∃ h0, put_ids h n = Ok h0.
Proof.
  intros Hh. unfold put_ids. change h with ([] ++ h) at 1.
  rewrite (window_after 4 [] h _ _ (Cookie n)); [|done|done|lia|intros; by apply be_store_32].
  cbn [mbind res_bind].
  rewrite (window_after 8 _ _ _ _ (Id n)); [|zl; done|done|zl|intros; by apply be_store_64].
  by eexists.
Qed.

Lemma zlen_header n size : zlen (header_ref n size) = 16.
Proof. unfold header_ref. zl. Qed.

(** The record each version writes, up to the padding bytes. *)
Definition body_of (version : Z) (n : t) : bytes :=
  if decide (version = Version1) then Data n else body_ref n.
Definition record_ref (version : Z) (n : t) (pad : bytes) : bytes :=
  header_ref n (zlen (body_of version n)) ++ body_of version n ++ be_split 4 (Checksum n)
  ++ (if decide (version = Version3) then be_split 8 (AppendAtNs n) else []) ++ pad.
(** The needle with the sizes its writer filled in. *)
Definition filled_by (version : Z) (n m : t) : Prop :=
  if decide (version = Version1) then m = set_Size (zlen (Data n)) n else filled n m.
Definition reported_actual (version : Z) (n : t) : Z :=
  if decide (version = Version1) then NeedleHeaderSize + zlen (Data n)
  else GetActualSize (zlen (body_of version n)) version.

Lemma zlen_body n : writable n → 0 ≤ zlen (body_ref n) < 2147483600.
Proof.
  intros [_ _ _ _ Hs]. unfold body_ref. pose proof (zlen_nonneg (meta_ref n)).
  destruct (Data n); zl.
Qed.

Lemma footer_split (d h : bytes) m pad :
  zlen d = m → 0 ≤ pad → m + pad ≤ zlen (d ++ h) →
  ∃ p, head (d ++ h) 0 (m + pad) = Ok (d ++ p) ∧ zlen p = pad.
Proof.
  intros <- Hpad Hle. exists (sub h 0 pad). rewrite zlen_app in Hle. split.
  - unfold head. rewrite reslice_ok by (pose proof (zlen_nonneg d); unfold sl_cap; cbn [sl_of sl_buf]; zl).
    cbn [mbind res_bind]. unfold sl_data; cbn [sl_buf sl_len sl_of]. rewrite drop_0, Z.sub_0_r.
    rewrite sub_split, sub_app_l, sub_all, sub_app_r by zl.
    by replace (0 + zlen d - zlen d) with 0 by lia.
  - rewrite zlen_sub by lia. lia.
Qed.

Lemma common_spec n version writeFooter foot :
  writable n → 
  (∀ h m, zlen h = 24 → filled n m →
     ∃ p, writeFooter m h (PaddingLength (Size m) version) = Ok (foot ++ p)
       ∧ zlen p = PaddingLength (Size m) version) →
  ∃ m p, writeNeedleCommon n version writeFooter
         = Ok (m, header_ref n (zlen (body_ref n)) ++ body_ref n ++ foot ++ p,
               zlen (Data n), GetActualSize (zlen (body_ref n)) version)
       ∧ filled n m ∧ zlen p = PaddingLength (zlen (body_ref n)) version.
Proof.
  intros Hw Hfoot. unfold writeNeedleCommon.
  set (h := zeros _). assert (zlen h = 24) as Hh by done.
  destruct (put_ids_ok h n) as [h0 Hh0]; [lia|]. rewrite Hh0. cbn [mbind res_bind].
  pose proof (fill_sizes_spec n Hw) as Hm. set (m := fill_sizes n) in *.
  rewrite (header_spec n m h h0) by (done || lia). cbn [mbind res_bind].
  rewrite head_front by (by rewrite zlen_header). cbn [mbind res_bind].
  assert (Hsz : Size m = zlen (body_ref n)) by (by rewrite Hm).
  destruct (write_body_spec m (header_ref n (Size m) ++ drop 16 h)) as (h' & -> & Hh').
  { rewrite zlen_app, zlen_header. done. }
  { rewrite Hm. destruct Hw; constructor; assumption. }
  1-3: by rewrite Hm.
  cbn [mbind res_bind]. destruct (Hfoot h' m) as (p & -> & Hp); [done..|].
  cbn [mbind res_bind]. exists m, p. rewrite Hsz in *. split; [|done].
  pose proof Hw as [_ _ _ _ Hs]. pose proof (zlen_nonneg (Data n)).
  pose proof (zlen_nonneg (meta_ref n)).
  replace (DataSize m) with (zlen (Data n)) by (by rewrite Hm).
  rewrite (swrap_id 32) by (widths; lia).
  replace (body_ref m) with (body_ref n) by (by rewrite Hm). done.
Qed.

Lemma put_checksum h v : 4 ≤ zlen h → put_u32 h v = Ok (be_split 4 v ++ drop 4 h).
Proof. intros. rewrite put_u32_spec by done. by rewrite splice_front. Qed.

Lemma zlen_data n : writable n → 0 ≤ zlen (Data n) < 2147483600.
Proof.
  intros [_ _ _ _ Hs]. pose proof (zlen_nonneg (meta_ref n)).
  pose proof (zlen_nonneg (Data n)). lia.
Qed.

Lemma pad_bounds size version :
  0 ≤ size < 2147483600 → 1 ≤ PaddingLength size version ≤ 8.
Proof. intros. apply padding_spec. lia. Qed.

Lemma record_ref_v1 n pad :
  record_ref Version1 n pad
  = header_ref n (zlen (Data n)) ++ Data n ++ be_split 4 (Checksum n) ++ pad.
Proof. reflexivity. Qed.

Lemma write_v1_spec n :
  writable n →
  ∃ pad, writeNeedleV1 n = Ok (set_Size (zlen (Data n)) n, record_ref Version1 n pad,
                               zlen (Data n), NeedleHeaderSize + zlen (Data n))
       ∧ zlen pad = PaddingLength (zlen (Data n)) Version1.
Proof.
  intros Hw. pose proof (zlen_data n Hw). pose proof (pad_bounds (zlen (Data n)) Version1 H).
  unfold writeNeedleV1. set (h := zeros _). assert (zlen h = 16) as Hh by done. clearbody h.
  destruct (put_ids_ok h n) as [h0 Hh0]; [lia|]. rewrite Hh0. rewrite bind_ok.
  rewrite (swrap_id 32) by (widths; lia).
  set (m := set_Size (zlen (Data n)) n) in *.
  assert (Size m = zlen (Data n) ∧ Data m = Data n ∧ Checksum m = Checksum n)
    as (Esz & Ed & Ec) by (subst m; done).
  clearbody m. rewrite (header_spec n m h h0), Esz, Ed, Ec by (done || lia). rewrite bind_ok.
  rewrite (drop_ge h), app_nil_r by (unfold zlen in Hh; lia).
  pose proof (zlen_header n (zlen (Data n))) as Hhd.
  remember (header_ref n (zlen (Data n))) as hd eqn:Ehd.
  rewrite put_checksum by lia. rewrite bind_ok.
  set (pl := PaddingLength _ _) in *. clearbody pl.
  rewrite add32_id by (unfold NeedleChecksumSize; widths; lia).
  destruct (footer_split (be_split 4 (Checksum n)) (drop 4 hd)
              NeedleChecksumSize pl) as (p & -> & Hp);
    [by rewrite zlen_be_split|lia|unfold NeedleChecksumSize; zl|].
  exists p. split; [|done]. by rewrite record_ref_v1, <- Ehd, app_assoc.
Qed.

Lemma write_v2_spec n :
  writable n →
  ∃ m pad, writeNeedleV2 n = Ok (m, record_ref Version2 n pad, zlen (Data n),
                                 GetActualSize (zlen (body_ref n)) Version2)
       ∧ filled n m ∧ zlen pad = PaddingLength (zlen (body_ref n)) Version2.
Proof.
  intros Hw.
  destruct (common_spec n Version2 (λ n header padding,
    header ← put_u32 header (Checksum n); head header 0 (NeedleChecksumSize + padding))
    (be_split 4 (Checksum n)) Hw) as (m & p & E & Hm & Hp).
  { intros h m Hh Hm. rewrite put_checksum by lia. cbn [mbind res_bind].
    pose proof (zlen_body n Hw). rewrite Hm; cbn [set_header Size Checksum].
    pose proof (pad_bounds (zlen (body_ref n)) Version2).
    apply footer_split; [by rewrite zlen_be_split|lia|unfold NeedleChecksumSize; zl]. }
  exists m, p. split; [exact E|done].
Qed.

Lemma write_v3_spec n :
  writable n →
  ∃ m pad, writeNeedleV3 n = Ok (m, record_ref Version3 n pad, zlen (Data n),
                                 GetActualSize (zlen (body_ref n)) Version3)
       ∧ filled n m ∧ zlen pad = PaddingLength (zlen (body_ref n)) Version3.
Proof.
  intros Hw. set (foot := be_split 4 (Checksum n) ++ be_split 8 (AppendAtNs n)).
  destruct (common_spec n Version3 (λ n header padding,
    header ← put_u32 header (Checksum n);
    header ← window header NeedleChecksumSize (NeedleChecksumSize + TimestampSize)
               (λ w, Uint64toBytes w (AppendAtNs n));
    head header 0 (NeedleChecksumSize + TimestampSize + padding)) foot Hw)
    as (m & p & E & Hm & Hp).
  { intros h m Hh Hm. rewrite put_checksum by lia. cbn [mbind res_bind].
    pose proof (zlen_body n Hw). rewrite Hm;
      cbn [set_header set_MimeSize set_DataSize set_NameSize Size Checksum AppendAtNs].
    rewrite (window_after 8 _ _ _ _ (AppendAtNs n));
      [|zl; done|done|zl|intros; by apply be_store_64].
    pose proof (pad_bounds (zlen (body_ref n)) Version3).
    apply footer_split; [subst foot; zl; done|lia|].
    subst foot. unfold NeedleChecksumSize, TimestampSize; zl. }
  exists m, p. split; [|done]. unfold writeNeedleV3. rewrite E. unfold record_ref, body_of.
  rewrite decide_False, decide_True by done. subst foot. by rewrite <- app_assoc.
Qed.

Definition supported (version : Z) : Prop :=
  version = Version1 ∨ version = Version2 ∨ version = Version3.

Lemma write_spec version n :
  writable n → supported version →
  ∃ m pad, writeNeedleByVersion version n
           = Ok (m, record_ref version n pad, zlen (Data n), reported_actual version n)
       ∧ filled_by version n m ∧ zlen pad = PaddingLength (zlen (body_of version n)) version.
Proof.
  intros Hw [->|[->| ->]].
  - destruct (write_v1_spec n Hw) as (p & E & Hp). by exists (set_Size (zlen (Data n)) n), p.
  - apply write_v2_spec; done.
  - apply write_v3_spec; done.
Qed.

Lemma zlen_record version n pad :
  writable n → supported version →
  zlen pad = PaddingLength (zlen (body_of version n)) version →
  zlen (record_ref version n pad) = GetActualSize (zlen (body_of version n)) version.
Proof.
  intros Hw _ Hp. unfold record_ref, GetActualSize, NeedleBodyLength.
  rewrite !zlen_app, zlen_header, Hp, zlen_be_split.
  case_decide; unfold NeedleHeaderSize, CookieSize, NeedleIdSize, SizeSize,
    NeedleChecksumSize, TimestampSize; zl.
Qed.

Lemma body_range version n : writable n → 0 ≤ zlen (body_of version n) < 2147483600.
Proof. intros. unfold body_of. case_decide; [by apply zlen_data|by apply zlen_body]. Qed.

(** C37: every version writes header, body, checksum (and, in version 3, the append
    time) and padding, in that order, and the record takes exactly
    [GetActualSize] bytes, a multiple of 8; the padding has 1 to 8 bytes, never none,
    and the body of versions 2 and 3 is empty when the data is (no data size and no
    flags then).  The only fields changed are the sizes. *)
Theorem write_layout version n :
  writable n → supported version →
  ∃ m pad,
    writeNeedleByVersion version n
    = Ok (m, record_ref version n pad, zlen (Data n), reported_actual version n) ∧
    filled_by version n m ∧
    zlen pad = PaddingLength (zlen (body_of version n)) version ∧ 1 ≤ zlen pad ≤ 8 ∧
    zlen (record_ref version n pad) = GetActualSize (zlen (body_of version n)) version ∧
    zlen (record_ref version n pad) `mod` 8 = 0 ∧
    (Data n = [] → body_of version n = []).
Proof.
  intros Hw Hv. destruct (write_spec version n Hw Hv) as (m & p & E & Hm & Hp).
  pose proof (body_range version n Hw) as Hb.
  destruct (padding_spec (zlen (body_of version n)) version) as [H1 H2]; [lia|].
  pose proof (zlen_record version n p Hw Hv Hp) as Hl.
  exists m, p. rewrite Hl, Hp. split_and!; try done; try lia.
  unfold body_of, body_ref. intros ->. by case_decide.
Qed.

(** A small needle with a name, a TTL and pairs. *)
Definition sample : t :=
  {| Cookie := 0x12345678; Id := 7; Size := 0; DataSize := 0; Data := str "hello";
     Flags := FlagHasName + FlagHasTtl + FlagHasPairs + FlagHasLastModifiedDate;
     NameSize := 0; Name := str "a.txt"; MimeSize := 0; Mime := [];
     PairsSize := 2; Pairs := str "{}"; LastModified := 1700000000;
     Ttl := Some (Ttl.MkTTL 3 Ttl.Day); Checksum := NewCRC (str "hello");
     AppendAtNs := 1700000000000000000 |}.

Lemma sample_writable : writable sample.
Proof. constructor; vm_compute; try split; intros; discriminate || reflexivity. Qed.

Lemma write_layout_witness :
  ∃ m pad,
    writeNeedleByVersion Version3 sample
    = Ok (m, record_ref Version3 sample pad, 5, reported_actual Version3 sample) ∧
    zlen pad = 1.
Proof.
  destruct (write_layout Version3 sample sample_writable (or_intror (or_intror eq_refl)))
    as (m & pad & E & _ & Hp & _).
  exists m, pad. split; [exact E|rewrite Hp; vm_compute; reflexivity].
Defined.

(** Whatever the size, the padding stays small enough for int32 sums. *)
Lemma padding_range size version : 1 ≤ PaddingLength size version ≤ 15.
Proof.
  unfold PaddingLength, NeedlePaddingSize.
  case_decide; match goal with |- context [Z.rem ?x 8] => generalize x; intros y end;
    assert (-8 < Z.rem y 8 < 8) by mlia; unfold sub32;
    rewrite swrap_id by (widths; lia); lia.
Qed.

Lemma add32_padding c size version :
  0 ≤ c ≤ 100 → add32 c (PaddingLength size version) = c + PaddingLength size version.
Proof. intros. pose proof (padding_range size version). apply add32_id. widths. lia. Qed.

(** Both writers run the same steps up to the footer. *)
Ltac common_steps :=
  apply bind_ext; intros ?; apply bind_ext; intros ?; apply bind_ext; intros ?;
  apply bind_ext; intros [? ?]; rewrite bind_assoc; apply bind_ext; intros ?;
  rewrite ?bind_assoc.

(** The split writers and the legacy one produce the same bytes, the same sizes
    and the same needle, for every needle and every version; both refuse an
    unsupported version. *)
Theorem legacy_equivalent version n :
  (supported version → LegacyPrepareWriteBuffer version n = writeNeedleByVersion version n) ∧
  (¬ supported version →
     is_ok (LegacyPrepareWriteBuffer version n) = false ∧
     is_ok (writeNeedleByVersion version n) = false).
Proof.
  split; intros Hv; unfold supported in Hv.
  - unfold LegacyPrepareWriteBuffer, writeNeedleByVersion.
    destruct (decide (version = Version1)) as [->|N1]; [unfold writeNeedleV1; reflexivity|].
    rewrite (decide_True (P := _ ∨ _)) by tauto.
    destruct (decide (version = Version2)) as [->|N2].
    + unfold writeNeedleV2, writeNeedleCommon. common_steps.
      by rewrite add32_padding by (unfold NeedleChecksumSize; lia).
    + destruct (decide (version = Version3)) as [->|N3]; [|tauto].
      unfold writeNeedleV3, writeNeedleCommon. common_steps.
      apply bind_ext; intros ?.
      by rewrite add32_padding by (unfold NeedleChecksumSize, TimestampSize; lia).
  - unfold LegacyPrepareWriteBuffer, writeNeedleByVersion.
    by rewrite !decide_False by tauto.
Qed.

End Layout.
