(* ===== verification/Backend.v ===== *)
(** * Backend: the volume data file (weed/storage/backend)

    [BackendStorageFile] is the Go interface; [BackendLaws] states what the
    needle and volume code relies on, and [DiskFile] (disk_file.go) discharges
    it.  Modification times are not kept. *)

From S2P Require Import Prelude GoStd StorageTypes.

(** ** The interface *)

Class BackendStorageFile (F : Type) := {
  ReadAt : F → Z → Z → bytes * option go_error;
  WriteAt : F → bytes → Z → F * Z * option go_error;
  Truncate : F → Z → F * option go_error;
  GetStat : F → Z * option go_error }.

(** [contents] is what is on the device; the reported end may lie past it (a file
    that does not end on a padding boundary) or before it (bytes that a failed write
    left and a failed [Truncate] did not remove).  Writes and truncations may fail; a
    read of bytes that are there does not. *)
Class BackendLaws (F : Type) `{BackendStorageFile F} := {
  contents : F → bytes;
  read_law f e off n :
    GetStat f = (e, None) → 0 ≤ off → 0 ≤ n → off + n ≤ zlen (contents f) →
    ReadAt f off n = (sub (contents f) off n, None);
  read_short f e off n :
    GetStat f = (e, None) → 0 ≤ off → zlen (contents f) < off + n →
    ReadAt f off n = (sub (contents f) off n, Some EOF) ∨ n ≤ 0;
  write_ok f e p off f' n :
    GetStat f = (e, None) → 0 ≤ off → p ≠ [] → WriteAt f p off = (f', n, None) →
    contents f' = OsFile.put (contents f) off p ∧ n = zlen p ∧
    GetStat f' = (Z.max e (off + zlen p), None);
  write_fail f e p off f' n err :
    GetStat f = (e, None) → 0 ≤ off → WriteAt f p off = (f', n, Some err) →
    (contents f' = contents f ∨ contents f' = OsFile.put (contents f) off (sub p 0 n)) ∧
    GetStat f' = (e, None);
  truncate_ok f e n f' :
    GetStat f = (e, None) → 0 ≤ n → Truncate f n = (f', None) →
    contents f' = sub (contents f ++ zeros (n - zlen (contents f))) 0 n ∧
    GetStat f' = (n, None);
  truncate_fail f e n f' err :
    GetStat f = (e, None) → Truncate f n = (f', Some err) →
    contents f' = contents f ∧ GetStat f' = (e, None) }.

(** ** DiskFile: [File = nil] after [Close] is [None] *)
Module DiskFile.

Record t := Mk { File : option OsFile.os_file; fileSize : Z }.

Definition NewDiskFile (f : OsFile.os_file) : t :=
  let offset := zlen (OsFile.f_data f) in
  let offset := if decide (Z.rem offset NeedlePaddingSize ≠ 0)
                then offset + (NeedlePaddingSize - Z.rem offset NeedlePaddingSize)
                else offset in
  Mk (Some f) offset.

Definition ReadAt (df : t) (off n : Z) : bytes * option go_error :=
  match File df with
  | None => ([], Some ErrClosed)
  | Some f =>
      let '(p, err) := OsFile.ReadAt (OsFile.f_data f) off n in
      (p, if decide (err = Some EOF ∧ zlen p = n) then None else err)
  end.

Definition WriteAt (df : t) (p : bytes) (off : Z) : t * Z * option go_error :=
  match File df with
  | None => (df, 0, Some ErrClosed)
  | Some f =>
      let '(f, n, err) := OsFile.WriteAt f p off in
      match err with
      | None =>
          let waterMark := off + n in
          (Mk (Some f) (if decide (waterMark > fileSize df) then waterMark else fileSize df), n, err)
      | Some _ => (Mk (Some f) (fileSize df), n, err)
      end
  end.

Definition Write (df : t) (p : bytes) : t * Z * option go_error := WriteAt df p (fileSize df).

Definition Truncate (df : t) (off : Z) : t * option go_error :=
  match File df with
  | None => (df, Some ErrClosed)
  | Some f =>
      let '(f, err) := OsFile.Truncate f off in
      match err with
      | None => (Mk (Some f) off, None)
      | Some _ => (Mk (Some f) (fileSize df), err)
      end
  end.

(** [sync] and [close] are the outcomes of the system calls. *)
Definition Sync (df : t) (sync : option go_error) : option go_error :=
  match File df with None => Some ErrClosed | Some _ => sync end.
Definition Close (df : t) (sync close : option go_error) : t * option go_error :=
  match File df with
  | None => (df, None)
  | Some _ =>
      let err := Sync df sync in
      (Mk None (fileSize df), match err with Some _ => err | None => close end)
  end.

Definition GetStat (df : t) : Z * option go_error :=
  (fileSize df, match File df with None => Some ErrClosed | Some _ => None end).

#[global] Instance backend : BackendStorageFile t :=
  { ReadAt := ReadAt; WriteAt := WriteAt; Truncate := Truncate; GetStat := GetStat }.

Definition disk_contents (df : t) : bytes :=
  match File df with None => [] | Some f => OsFile.f_data f end.

Lemma stat_open df e : GetStat df = (e, None) → ∃ f, df = Mk (Some f) e.
Proof. destruct df as [[f|] s]; intros [= <-]. by eexists. Qed.

Lemma fits_range f off p : 0 ≤ OsFile.fits f off p ≤ zlen p.
Proof. unfold OsFile.fits. pose proof (zlen_nonneg p). destruct (OsFile.f_limit f); lia. Qed.

#[global, refine] Instance laws : BackendLaws t := {| contents := disk_contents |}.
Proof.
  all: cbn [Backend.GetStat Backend.ReadAt Backend.WriteAt Backend.Truncate backend].
  - intros df e off n (f & ->)%stat_open Ho Hn Hle. unfold disk_contents, ReadAt in *.
    cbn [File] in *. rewrite OsFile.ReadAt_full by done.
    by rewrite decide_False by (intros [? _]; done).
  - intros df e off n (f & ->)%stat_open Ho Hle. unfold disk_contents, ReadAt, OsFile.ReadAt in *.
    cbn [File] in *. destruct (decide (n ≤ 0)); [by right|left].
    rewrite (decide_False (P := off < 0)) by lia.
    pose proof (zlen_nonneg (OsFile.f_data f)).
    assert (zlen (sub (OsFile.f_data f) off n) < n) by (rewrite zlen_sub; lia).
    cbv zeta. rewrite (decide_True (P := _ < n)) by done. by rewrite decide_False by lia.
  - intros df e p off f' n (f & ->)%stat_open Ho Hp. unfold WriteAt, OsFile.WriteAt.
    cbn [File fileSize]. rewrite (decide_False (P := off < 0)) by lia.
    pose proof (fits_range f off p).
    assert (0 < zlen p) by (destruct p; [done|zl]).
    case_decide as Hn; case_decide; try done. all: intros [= <- <-]; try lia.
    assert (OsFile.fits f off p = zlen p) as E by lia. rewrite E in *.
    unfold disk_contents, GetStat; cbn [File fileSize OsFile.f_data].
    rewrite sub_all by lia. split_and!; [done|done|]. do 2 f_equal. case_decide; lia.
  - intros df e p off f' n err (f & ->)%stat_open Ho. unfold WriteAt, OsFile.WriteAt.
    cbn [File fileSize]. rewrite (decide_False (P := off < 0)) by lia.
    case_decide as Hn; case_decide; try done; intros [= <- <- <-];
      unfold disk_contents, GetStat; cbn; auto.
  - intros df e n df' (f & ->)%stat_open Hn. unfold Truncate, OsFile.Truncate; cbn [File].
    rewrite (decide_False (P := n < 0)) by lia. case_decide; [done|]. by intros [= <-].
  - intros df e n df' err (f & ->)%stat_open. unfold Truncate, OsFile.Truncate; cbn [File fileSize].
    repeat case_decide; try done; by intros [= <- _].
Defined.

(** A new handle reports the next padding boundary at or after the file's end. *)
Lemma new_aligned f :
  let df := NewDiskFile f in
  disk_contents df = OsFile.f_data f ∧ fileSize df `mod` NeedlePaddingSize = 0 ∧
  zlen (OsFile.f_data f) ≤ fileSize df < zlen (OsFile.f_data f) + NeedlePaddingSize.
Proof.
  cbn. pose proof (zlen_nonneg (OsFile.f_data f)). unfold NeedlePaddingSize.
  case_decide; split_and!; try done; mlia.
Qed.

End DiskFile.
