(* ===== verification/NeedleIO.v ===== *)
(** * NeedleIO: reading and appending needles
    (weed/storage/needle/needle_read.go, needle_read_page.go,
    needle_read_tail.go, needle_write.go, needle_write_legacy.go)

    The readers fill a needle in place and keep what they filled when they
    return an error, so they run in the state monad [SE t].  Statistics and log
    lines are not kept. *)

From S2P Require Import Prelude GoStd Bytes StorageTypes VolumeTtl Needle Backend.

Module NeedleIO.
Import Needle.

(** [recover()] turns a panic into an error and keeps the state. *)
Definition recovering {A} (m : SE t A) : SE t A := λ n,
  match m n with
  | (n, Panic) => (n, Fail (Errorf "panic occurred: %+v"))
  | r => r
  end.

(** ** Parsing a record in memory *)

Definition ParseNeedleHeader (b : slice) : SE t unit :=
  s ← se_lift (reslice b 0 CookieSize);
  cookie ← se_lift (BytesToCookie (sl_data s));
  se_mod (set_Cookie cookie);;
  s ← se_lift (reslice b CookieSize (CookieSize + NeedleIdSize));
  id ← se_lift (BytesToNeedleId (sl_data s));
  se_mod (λ n, set_header (Cookie n) id (Size n) n);;
  s ← se_lift (reslice b (CookieSize + NeedleIdSize) NeedleHeaderSize);
  size ← se_lift (Size.BytesToSize (sl_data s));
  se_mod (set_Size size).

(** One optional field: from an index, the next index and the error to return. *)
Definition field : Type := slice → Z → SE t (Z * option go_error).

(** The bytes [s[lo:hi]]. *)
Definition cut (s : slice) (lo hi : Z) : SE t bytes :=
  w ← se_lift (reslice s lo hi); mret (sl_data w).

Definition out_of_range : option go_error := Some (Errorf "index out of range %d").

Definition read_flags : field := λ b index,
  if decide (index < sl_len b) then
    f ← se_lift (sl_index b index);
    se_mod (set_Flags f);;
    mret (index + 1, None)
  else mret (index, None).

(** [if index < lenBytes && n.HasX() { ... }] *)
Definition when (b : slice) (index : Z) (flag : t → bool)
    (body : SE t (Z * option go_error)) : SE t (Z * option go_error) :=
  n ← se_get;
  if bool_decide (index < sl_len b) && flag n then body else mret (index, None).

Definition read_name : field := λ b index,
  when b index HasName (
    nameSize ← se_lift (sl_index b index);
    se_mod (set_NameSize nameSize);;
    let index := index + 1 in
    if decide (nameSize + index > sl_len b) then mret (index, out_of_range)
    else
      name ← cut b index (index + nameSize);
      se_mod (set_Name name);;
      mret (index + nameSize, None)).

Definition read_mime : field := λ b index,
  when b index HasMime (
    mimeSize ← se_lift (sl_index b index);
    se_mod (set_MimeSize mimeSize);;
    let index := index + 1 in
    if decide (mimeSize + index > sl_len b) then mret (index, out_of_range)
    else
      mime ← cut b index (index + mimeSize);
      se_mod (set_Mime mime);;
      mret (index + mimeSize, None)).

Definition read_last_modified : field := λ b index,
  when b index HasLastModifiedDate (
    if decide (LastModifiedBytesLength + index > sl_len b) then mret (index, out_of_range)
    else
      w ← cut b index (index + LastModifiedBytesLength);
      v ← se_lift (BytesToUint64 w);
      se_mod (set_LastModified v);;
      mret (index + LastModifiedBytesLength, None)).

Definition read_ttl : field := λ b index,
  when b index HasTtl (
    if decide (TtlBytesLength + index > sl_len b) then mret (index, out_of_range)
    else
      w ← cut b index (index + TtlBytesLength);
      v ← se_lift (Ttl.LoadTTLFromBytes w);
      se_mod (set_Ttl (Some v));;
      mret (index + TtlBytesLength, None)).

Definition read_pairs : field := λ b index,
  when b index HasPairs (
    if decide (2 + index > sl_len b) then mret (index, out_of_range)
    else
      w ← cut b index (index + 2);
      v ← se_lift (BytesToUint16 w);
      se_mod (set_PairsSize v);;
      let index := index + 2 in
      if decide (v + index > sl_len b) then mret (index, out_of_range)
      else
        let end_ := index + v in
        pairs ← cut b index end_;
        se_mod (set_Pairs pairs);;
        mret (end_, None)).

(** Run a block, return early on its error. *)
Definition then_ (f g : field) : field := λ b index,
  '(index, err) ← f b index;
  match err with Some _ => mret (index, err) | None => g b index end.

Definition readNeedleDataVersion2NonData (b : slice) : SE t (Z * option go_error) :=
  then_ read_flags (then_ read_name (then_ read_mime (then_ read_last_modified
    (then_ read_ttl read_pairs)))) b 0.

Definition readNeedleDataVersion2 (b : slice) : SE t (option go_error) :=
  let lenBytes := sl_len b in
  let rest (index : Z) : SE t (option go_error) :=
    w ← se_lift (reslice_from b index);
    '(_, err) ← readNeedleDataVersion2NonData w;
    mret err in
  if decide (0 < lenBytes) then
    w ← cut b 0 4;
    dataSize ← se_lift (BytesToUint32 w);
    se_mod (set_DataSize dataSize);;
    if decide (dataSize + 4 > lenBytes) then mret out_of_range
    else
      d ← cut b 4 (4 + dataSize);
      se_mod (set_Data d);;
      rest (4 + dataSize)
  else rest 0.

Definition readNeedleTail (needleBody : slice) (version : Z) : SE t unit :=
  n ← se_get;
  w ← cut needleBody 0 NeedleChecksumSize;
  stored ← se_lift (BytesToUint32 w);
  (if decide (zlen (Data n) > 0) then
     let dataChecksum := NewCRC (Data n) in
     if decide (stored ≠ dataChecksum) then se_fail (Errorf "invalid CRC for needle")
     else se_mod (set_Checksum dataChecksum)
   else se_mod (set_Checksum stored));;
  if decide (version = Version3) then
    w ← cut needleBody NeedleChecksumSize (NeedleChecksumSize + TimestampSize);
    v ← se_lift (BytesToUint64 w);
    se_mod (set_AppendAtNs v)
  else mret tt.

Definition or_fail (err : option go_error) : SE t unit :=
  match err with None => mret tt | Some e => se_fail e end.

Definition ReadBytes (b : slice) (offset size version : Z) : SE t unit :=
  ParseNeedleHeader b;;
  n ← se_get;
  if decide (Size n ≠ size) then
    if decide (Offset.OffsetSize = 4 ∧ offset < Offset.MaxPossibleVolumeSize)
    then se_fail ErrorSizeMismatch
    else se_fail (Errorf "entry not found: offset %d found id %x size %d, expected size %d")
  else
    (if decide (version = Version1) then
       d ← cut b NeedleHeaderSize (add32 NeedleHeaderSize size);
       se_mod (set_Data d)
     else
       w ← se_lift (reslice b NeedleHeaderSize (NeedleHeaderSize + size));
       err ← readNeedleDataVersion2 w;
       if decide (err = Some EOF) then mret tt else or_fail err);;
    w ← se_lift (reslice_from b (add32 NeedleHeaderSize size));
    readNeedleTail w version.

Definition ReadNeedleBodyBytes (needleBody : slice) (version : Z) : SE t unit :=
  n ← se_get;
  if decide (sl_len needleBody ≤ 0) then mret tt
  else if decide (version = Version1) then
    d ← cut needleBody 0 (Size n);
    se_mod (set_Data d);;
    w ← se_lift (reslice_from needleBody (Size n));
    readNeedleTail w version
  else if decide (version = Version2 ∨ version = Version3) then
    w ← se_lift (reslice needleBody 0 (Size n));
    err ← readNeedleDataVersion2 w;
    or_fail err;;
    w ← se_lift (reslice_from needleBody (Size n));
    readNeedleTail w version
  else se_fail (Errorf "unsupported version %d!").

(** ** Reading from a file *)

Section file.
Context {F : Type} `{BackendStorageFile F}.

(** [make([]byte, n)] filled by [r.ReadAt(_, offset)]: the buffer, the count and
    the error.  A negative length panics. *)
Definition fill (r : F) (offset n : Z) : res (slice * Z * option go_error) :=
  if decide (n < 0) then Panic
  else
    let '(d, err) := ReadAt r offset n in
    Ok (sl_of (d ++ zeros (n - zlen d)), zlen d, err).

Definition ReadNeedleBlob (r : F) (offset size version : Z) : res slice :=
  let dataSize := GetActualSize size version in
  '(dataSlice, n, err) ← fill r offset dataSize;
  match err with
  | Some e => if decide (n = dataSize) then mret dataSlice else Fail e
  | None => mret dataSlice
  end.

(** The retry at [offset + MaxPossibleVolumeSize] after a size mismatch. *)
Definition ReadData (r : F) (offset size version : Z) : SE t unit := λ n,
  match ReadNeedleBlob r offset size version with
  | Ok b =>
      match ReadBytes b offset size version n with
      | (n, Fail ErrorSizeMismatch) =>
          if decide (Offset.OffsetSize = 4) then
            let offset := add64 offset Offset.MaxPossibleVolumeSize in
            match ReadNeedleBlob r offset size version with
            | Ok b => ReadBytes b offset size version n
            | Fail e => (n, Fail e)
            | Panic => (n, Panic)
            end
          else (n, Fail ErrorSizeMismatch)
      | out => out
      end
  | Fail e => (n, Fail e)
  | Panic => (n, Panic)
  end.

Definition ReadNeedleHeader (r : F) (version offset : Z) : res (option (t * bytes * Z)) :=
  '(b, count, err) ← fill r offset NeedleHeaderSize;
  let err := if decide (err = Some EOF ∧ count = NeedleHeaderSize) then None else err in
  match err with
  | Some e => Fail e
  | None =>
      if decide (count ≤ 0) then mret None
      else
        match ParseNeedleHeader b new with
        | (n, Ok _) => mret (Some (n, sl_data b, NeedleBodyLength (Size n) version))
        | (_, Fail e) => Fail e
        | (_, Panic) => Panic
        end
  end.

Definition ReadNeedleBody (r : F) (version offset bodyLength : Z) : SE t bytes :=
  if decide (bodyLength ≤ 0) then mret []
  else
    '(b, readCount, err) ← se_lift (fill r offset bodyLength);
    let err := if decide (err = Some EOF ∧ readCount = bodyLength) then None else err in
    or_fail err;;
    ReadNeedleBodyBytes b version;;
    mret (sl_data b).

(** Reads into [data[:sizeToRead]]: the bytes read. *)
Definition ReadNeedleData (n : t) (r : F) (volumeOffset len needleOffset : Z)
    : bytes * option go_error :=
  let sizeToRead := Z.min len (sub64 (DataSize n) needleOffset) in
  if decide (sizeToRead ≤ 0) then ([], Some EOF)
  else
    let startOffset := add64 (volumeOffset + NeedleHeaderSize + DataSizeSize) needleOffset in
    let '(d, err) := ReadAt r startOffset sizeToRead in
    (d, if decide (err = Some EOF ∧ zlen d = sizeToRead) then None else err).

Definition ReadNeedleMeta (r : F) (offset size version : Z) : SE t unit := recovering (
  '(b, count, err) ← se_lift (fill r offset (NeedleHeaderSize + DataSizeSize));
  let err := if decide (err = Some EOF ∧ count = NeedleHeaderSize + DataSizeSize)
             then None else err in
  if decide (count ≠ NeedleHeaderSize + DataSizeSize ∨ err ≠ None) then or_fail err
  else
    ParseNeedleHeader b;;
    n ← se_get;
    if decide (Size n ≠ size) then
      if decide (Offset.OffsetSize = 4 ∧ offset < Offset.MaxPossibleVolumeSize)
      then se_fail ErrorSizeMismatch
      else se_fail (Errorf "size mismatch for entry at offset %d: found id %x size %d, expected size %d")
    else
      w ← cut b NeedleHeaderSize (NeedleHeaderSize + DataSizeSize);
      dataSize ← se_lift (BytesToUint32 w);
      se_mod (set_DataSize dataSize);;
      let startOffset := if Size.IsValid size
        then offset + NeedleHeaderSize + DataSizeSize + dataSize
        else offset + NeedleHeaderSize in
      let stopOffset := offset + GetActualSize size version in
      let metaSize := stopOffset - startOffset in
      if decide (metaSize < 0 ∨ metaSize > 128 * 1024) then
        se_fail (Errorf "invalid needle meta size %d: DataSize=%d, size=%d, offset=%d")
      else
        '(metaSlice, count, err) ← se_lift (fill r startOffset metaSize);
        or_fail (if decide (count = metaSize) then None else err);;
        (* the error of the first call is overwritten by the second *)
        '(index, _) ← (if Size.IsValid size then readNeedleDataVersion2NonData metaSlice
                       else mret (0, None));
        w ← se_lift (reslice_from metaSlice index);
        readNeedleTail w version).

(** ** Appending *)

(** [defer] of [Append]: cut the file back to [end_] when an error is returned. *)
Definition rollback (w : F) (end_ : Z) : F := fst (Truncate w end_).

(** The file, the needle and (offset, size, actual size). *)
Definition Append (n : t) (w : F) (version : Z) : F * t * res (Z * Z * Z) :=
  match GetStat w with
  | (_, Some _) => (w, n, Fail (Errorf "Cannot Read Current Volume Position: %w"))
  | (end_, None) =>
      let offset := u64 end_ in
      if decide (Offset.MaxPossibleVolumeSize ≤ offset ∧ zlen (Data n) ≠ 0) then
        (w, n, Fail (Errorf "Volume Size %d Exceeded %d"))
      else
        match writeNeedleByVersion version n with
        | Ok (n, b, size, actualSize) =>
            match WriteAt w b (s64 offset) with
            | (w, _, None) => (w, n, Ok (offset, size, actualSize))
            | (w, _, Some _) =>
                (rollback w end_, n, Fail (Errorf "failed to write %d bytes to %s at offset %d: %w"))
            end
        | Fail e => (rollback w end_, n, Fail e)
        | Panic => (w, n, Panic)
        end
  end.

(** The version before the split also cuts back when the volume is full. *)
Definition LegacyAppend (n : t) (w : F) (version : Z) : F * t * res (Z * Z * Z) :=
  match GetStat w with
  | (_, Some _) => (w, n, Fail (Errorf "Cannot Read Current Volume Position: %w"))
  | (end_, None) =>
      let offset := u64 end_ in
      if decide (Offset.MaxPossibleVolumeSize ≤ offset ∧ zlen (Data n) ≠ 0) then
        (rollback w end_, n, Fail (Errorf "Volume Size %d Exceeded %d"))
      else
        match LegacyPrepareWriteBuffer version n with
        | Ok (n, b, size, actualSize) =>
            match WriteAt w b (s64 offset) with
            | (w, _, None) => (w, n, Ok (offset, size, actualSize))
            | (w, _, Some _) =>
                (rollback w end_, n, Fail (Errorf "failed to write %d bytes to %s at offset %d: %w"))
            end
        | Fail e => (rollback w end_, n, Fail e)
        | Panic => (w, n, Panic)
        end
  end.

Definition WriteNeedleBlob (w : F) (dataSlice : bytes) (size appendAtNs version : Z)
    : F * res Z :=
  match GetStat w with
  | (_, Some _) => (w, Fail (Errorf "Cannot Read Current Volume Position: %v"))
  | (end_, None) =>
      let offset := u64 end_ in
      let write (b : bytes) :=
        match WriteAt w b (s64 offset) with
        | (w, _, None) => (w, Ok offset)
        | (w, _, Some e) => (rollback w end_, Fail e)
        end in
      if decide (version = Version3) then
        let tsOffset := NeedleHeaderSize + size + NeedleChecksumSize in
        if decide (tsOffset < 0) then
          (rollback w end_, Fail (Errorf "invalid needle size %d results in negative timestamp offset %d"))
        else if decide (tsOffset + TimestampSize > zlen dataSlice) then
          (rollback w end_, Fail (Errorf "needle blob buffer too small: need %d bytes, have %d"))
        else
          match window dataSlice tsOffset (tsOffset + TimestampSize)
                  (λ b, Uint64toBytes b appendAtNs) with
          | Ok b => write b
          | Fail e => (rollback w end_, Fail e)
          | Panic => (w, Panic)
          end
      else write dataSlice
  end.

End file.
End NeedleIO.
