(* ===== verification/NeedleSpec.v ===== *)
(** * NeedleSpec: what reading and appending needles guarantee

    Every record a writer produces is read back field by field; a record whose
    data does not match its checksum is refused; a failed append leaves the
    file as it was; an append is visible to the readers. *)

From S2P Require Import Prelude GoStd Bytes StorageTypes VolumeTtl Needle Backend NeedleIO.
Import Needle Layout NeedleIO.

(** ** Running the state monad *)

Lemma se_bind_ok {S A B} (m : SE S A) (f : A → SE S B) s s' a :
  m s = (s', Ok a) → (m ≫= f) s = f a s'.
Proof. intros E. unfold mbind, SE_bind. by rewrite E. Qed.
Lemma se_bind_fail {S A B} (m : SE S A) (f : A → SE S B) s s' e :
  m s = (s', Fail e) → (m ≫= f) s = (s', Fail e).
Proof. intros E. unfold mbind, SE_bind. by rewrite E. Qed.

Section slices.
Context (s : slice) (pre rest : bytes).

Lemma cut_at d lo hi n :
  sl_buf s = pre ++ d ++ rest → lo = zlen pre → hi = lo + zlen d → cut s lo hi n = (n, Ok d).
Proof.
  intros Hs -> ->. unfold cut. rewrite (se_bind_ok _ _ n n
    (Slice (drop (Z.to_nat (zlen pre)) (sl_buf s)) (zlen pre + zlen d - zlen pre))).
  - cbn. unfold mret, SE_ret. do 2 f_equal. unfold sl_data; cbn. rewrite Hs.
    rewrite drop_zlen, sub_app_l, sub_all by lia. done.
  - unfold se_lift. rewrite reslice_ok; [done|zl|]. unfold sl_cap. rewrite Hs. zl.
Qed.

Lemma index_at x i :
  sl_buf s = pre ++ x :: rest → i = zlen pre → i < sl_len s → sl_index s i = Ok x.
Proof.
  intros Hs -> Hi. unfold sl_index. rewrite decide_True by (pose proof (zlen_nonneg pre); lia).
  rewrite Hs. unfold zlen. rewrite Nat2Z.id, list_lookup_middle by done. done.
Qed.
End slices.

(** ** Each optional field is read back *)

Section fields.
Context (n m : t) (s : slice) (pre rest : bytes) (i : Z).
Hypothesis Hi : i = zlen pre.
Hypothesis Hflags : Flags m = Flags n.

(** Unfold a flagged block at its position. *)
Ltac enter flag :=
  unfold when; erewrite se_bind_ok by reflexivity; cbn beta;
  change (flag m) with (flag (set_Flags (Flags m) m));
  rewrite Hflags; change (flag (set_Flags (Flags n) m)) with (flag n);
  destruct (flag n); [|rewrite andb_false_r, zlen_nil, Z.add_0_r; done].
(** Step over an assignment. *)
Ltac assign := erewrite se_bind_ok by reflexivity; cbv zeta beta.

Lemma read_name_at :
  sl_buf s = pre ++ name_ref n ++ rest → i + zlen (name_ref n) ≤ sl_len s →
  read_name s i m =
    ((if HasName n then set_Name (take 255 (Name n))
        (set_NameSize (zlen (take 255 (Name n))) m) else m),
     Ok (i + zlen (name_ref n), None)).
Proof.
  unfold name_ref. intros Hs Hl. unfold read_name. enter HasName.
  rewrite zlen_cons in Hl |- *. pose proof (zlen_nonneg (take 255 (Name n))).
  set (l := zlen (take 255 (Name n))) in *.
  rewrite bool_decide_true by lia. cbn [andb].
  assert (sl_index s i = Ok l) as El by (eapply index_at; [by rewrite Hs|done|lia]).
  rewrite (se_bind_ok _ _ m m l) by (unfold se_lift; by rewrite El).
  assign. rewrite decide_False by lia.
  assert (cut s (i + 1) (i + 1 + l) (set_NameSize l m)
          = (set_NameSize l m, Ok (take 255 (Name n)))) as E.
  { apply (cut_at s (pre ++ [l]) rest); [rewrite Hs, <- app_assoc; reflexivity|zl|lia]. }
  rewrite (se_bind_ok _ _ _ _ _ E). assign. unfold mret, SE_ret. by rewrite Z.add_assoc.
Qed.

Lemma read_mime_at :
  sl_buf s = pre ++ mime_ref n ++ rest → i + zlen (mime_ref n) ≤ sl_len s →
  read_mime s i m =
    ((if HasMime n then set_Mime (Mime n) (set_MimeSize (zlen (Mime n)) m) else m),
     Ok (i + zlen (mime_ref n), None)).
Proof.
  unfold mime_ref. intros Hs Hl. unfold read_mime. enter HasMime.
  rewrite zlen_cons in Hl |- *. pose proof (zlen_nonneg (Mime n)).
  set (l := zlen (Mime n)) in *.
  rewrite bool_decide_true by lia. cbn [andb].
  assert (sl_index s i = Ok l) as El by (eapply index_at; [by rewrite Hs|done|lia]).
  rewrite (se_bind_ok _ _ m m l) by (unfold se_lift; by rewrite El).
  assign. rewrite decide_False by lia.
  assert (cut s (i + 1) (i + 1 + l) (set_MimeSize l m)
          = (set_MimeSize l m, Ok (Mime n))) as E.
  { apply (cut_at s (pre ++ [l]) rest); [rewrite Hs, <- app_assoc; reflexivity|zl|lia]. }
  rewrite (se_bind_ok _ _ _ _ _ E). assign. unfold mret, SE_ret. by rewrite Z.add_assoc.
Qed.

Lemma read_last_modified_at :
  sl_buf s = pre ++ last_modified_ref n ++ rest →
  i + zlen (last_modified_ref n) ≤ sl_len s →
  read_last_modified s i m =
    ((if HasLastModifiedDate n then set_LastModified (LastModified n `mod` 2 ^ 40) m else m),
     Ok (i + zlen (last_modified_ref n), None)).
Proof.
  unfold last_modified_ref. intros Hs Hl. unfold read_last_modified.
  enter HasLastModifiedDate. rewrite zlen_be_split in Hl |- *.
  change (Z.of_nat 5) with LastModifiedBytesLength in *.
  rewrite bool_decide_true by (unfold LastModifiedBytesLength in *; lia). cbn [andb].
  rewrite decide_False by lia.
  assert (cut s i (i + LastModifiedBytesLength) m = (m, Ok (be_split 5 (LastModified n)))) as E.
  { apply (cut_at s pre rest); [done|done|by rewrite zlen_be_split]. }
  rewrite (se_bind_ok _ _ _ _ _ E).
  assert (BytesToUint64 (be_split 5 (LastModified n)) = Ok (LastModified n `mod` 2 ^ 40)) as E2.
  { unfold BytesToUint64. rewrite be_load_exact;
      [by rewrite be_val_split|lia|done|auto with bytes|rewrite zlen_be_split; lia]. }
  rewrite (se_bind_ok _ _ m m _) by (unfold se_lift; by rewrite E2). assign. done.
Qed.

Lemma read_ttl_at :
  (HasTtl n = true → Ttl n ≠ None) →
  sl_buf s = pre ++ ttl_ref n ++ rest → i + zlen (ttl_ref n) ≤ sl_len s →
  read_ttl s i m =
    ((if HasTtl n then set_Ttl (Ttl n) m else m), Ok (i + zlen (ttl_ref n), None)).
Proof.
  unfold ttl_ref. intros Ht Hs Hl. unfold read_ttl. enter HasTtl.
  destruct (Ttl n) as [[c u]|]; [|by destruct Ht].
  change (zlen [_; _]) with TtlBytesLength in *.
  rewrite bool_decide_true by (unfold TtlBytesLength in *; lia). cbn [andb].
  rewrite decide_False by lia.
  assert (cut s i (i + TtlBytesLength) m = (m, Ok [c; u])) as E.
  { by apply (cut_at s pre rest). }
  rewrite (se_bind_ok _ _ _ _ _ E).
  assert (Ttl.LoadTTLFromBytes [c; u] = Ok (Ttl.MkTTL c u)) as E2.
  { apply Ttl.load_two. }
  rewrite (se_bind_ok _ _ m m _) by (unfold se_lift; by rewrite E2). assign. done.
Qed.

Lemma read_pairs_at :
  (HasPairs n = true → zlen (Pairs n) < 65536) →
  sl_buf s = pre ++ pairs_ref n ++ rest → i + zlen (pairs_ref n) ≤ sl_len s →
  read_pairs s i m =
    ((if HasPairs n then set_Pairs (Pairs n) (set_PairsSize (zlen (Pairs n)) m) else m),
     Ok (i + zlen (pairs_ref n), None)).
Proof.
  unfold pairs_ref. intros Hp Hs Hl. unfold read_pairs. enter HasPairs.
  specialize (Hp eq_refl). rewrite zlen_app, zlen_be_split in Hl |- *.
  change (Z.of_nat 2) with 2 in *. pose proof (zlen_nonneg (Pairs n)).
  rewrite <- app_assoc in Hs. set (l := zlen (Pairs n)) in *.
  rewrite bool_decide_true by lia. cbn [andb]. rewrite decide_False by lia.
  assert (cut s i (i + 2) m = (m, Ok (be_split 2 l))) as E.
  { by apply (cut_at s pre (Pairs n ++ rest)). }
  rewrite (se_bind_ok _ _ _ _ _ E).
  assert (BytesToUint16 (be_split 2 l) = Ok l) as E2.
  { rewrite BytesToUint16_val by auto using length_be_split with bytes.
    rewrite be_val_split. f_equal. apply Z.mod_small.
    change (2 ^ (8 * Z.of_nat 2)) with 65536. lia. }
  rewrite (se_bind_ok _ _ m m _) by (unfold se_lift; by rewrite E2).
  assign. rewrite decide_False by lia.
  assert (cut s (i + 2) (i + 2 + l) (set_PairsSize l m) = (set_PairsSize l m, Ok (Pairs n))) as E3.
  { apply (cut_at s (pre ++ be_split 2 l) rest); [by rewrite Hs, <- app_assoc|zl|done]. }
  rewrite (se_bind_ok _ _ _ _ _ E3). assign. unfold mret, SE_ret. by rewrite Z.add_assoc.
Qed.
End fields.

(** ** The whole body *)

(** What reading the metadata of [n] does to a needle. *)
Definition restore_meta (n m : t) : t :=
  let m := set_Flags (Flags n) m in
  let m := if HasName n then set_Name (take 255 (Name n))
             (set_NameSize (zlen (take 255 (Name n))) m) else m in
  let m := if HasMime n then set_Mime (Mime n) (set_MimeSize (zlen (Mime n)) m) else m in
  let m := if HasLastModifiedDate n
           then set_LastModified (LastModified n `mod` 2 ^ 40) m else m in
  let m := if HasTtl n then set_Ttl (Ttl n) m else m in
  if HasPairs n then set_Pairs (Pairs n) (set_PairsSize (zlen (Pairs n)) m) else m.

Lemma then_at f g s i m m' j :
  f s i m = (m', Ok (j, None)) → then_ f g s i m = g s j m'.
Proof. intros E. unfold then_. by rewrite (se_bind_ok _ _ _ _ _ E). Qed.

Lemma Flags_if (b : bool) (x y : t) : Flags (if b then x else y) = if b then Flags x else Flags y.
Proof. by destruct b. Qed.

(** The blocks after the first leave the flags alone. *)
Ltac flags := rewrite ?Flags_if; cbn [Flags set_Flags set_Name set_NameSize set_Mime set_MimeSize
  set_LastModified set_Ttl]; rewrite ?Flags_if; cbn [Flags set_Flags set_Name set_NameSize set_Mime
  set_MimeSize set_LastModified set_Ttl];
  repeat match goal with |- context [if ?b then _ else _] => destruct b end; reflexivity.

Lemma read_meta_at n m s rest :
  writable n → sl_buf s = meta_ref n ++ rest → zlen (meta_ref n) ≤ sl_len s →
  readNeedleDataVersion2NonData s m = (restore_meta n m, Ok (zlen (meta_ref n), None)).
Proof.
  intros [_ _ Ht Hp _] Hs Hl. unfold readNeedleDataVersion2NonData, restore_meta.
  unfold meta_ref in *. rewrite <- !app_assoc in Hs. rewrite !zlen_app in Hl |- *.
  change (zlen [Flags n]) with 1 in *.
  pose proof (zlen_nonneg (name_ref n)). pose proof (zlen_nonneg (mime_ref n)).
  pose proof (zlen_nonneg (last_modified_ref n)). pose proof (zlen_nonneg (ttl_ref n)).
  pose proof (zlen_nonneg (pairs_ref n)).
  erewrite then_at.
  2: { unfold read_flags. rewrite decide_True by lia.
       assert (sl_index s 0 = Ok (Flags n)) as E by (eapply (index_at s []); [by rewrite Hs|done|lia]).
       rewrite (se_bind_ok _ _ m m (Flags n)) by (unfold se_lift; by rewrite E). reflexivity. }
  erewrite then_at; [|eapply (read_name_at n _ s [Flags n]); [done|done|by rewrite Hs|lia]].
  erewrite then_at; [|eapply (read_mime_at n _ s ([Flags n] ++ name_ref n));
    [zl; done|flags|by rewrite Hs, <- app_assoc|lia]].
  erewrite then_at; [|eapply (read_last_modified_at n _ s ([Flags n] ++ name_ref n ++ mime_ref n));
    [zl|flags|by rewrite Hs, <- !app_assoc|lia]].
  erewrite then_at; [|eapply (read_ttl_at n _ s
      ([Flags n] ++ name_ref n ++ mime_ref n ++ last_modified_ref n));
    [zl|flags|done|by rewrite Hs, <- !app_assoc|lia]].
  erewrite (read_pairs_at n _ s
      ([Flags n] ++ name_ref n ++ mime_ref n ++ last_modified_ref n ++ ttl_ref n) rest);
    [|zl|flags|intros E; by destruct (Hp E)|by rewrite Hs, <- !app_assoc|lia].
  do 3 f_equal. lia.
Qed.

Definition restore_body (n m : t) : t :=
  match Data n with
  | [] => m
  | _ => restore_meta n (set_Data (Data n) (set_DataSize (zlen (Data n)) m))
  end.

Lemma nondata_empty s m :
  sl_len s = 0 → readNeedleDataVersion2NonData s m = (m, Ok (0, None)).
Proof.
  intros Hl. assert (∀ flag body, when s 0 flag body m = (m, Ok (0, None))) as Hw.
  { intros. unfold when. erewrite se_bind_ok by reflexivity. cbn beta.
    by rewrite bool_decide_false by lia. }
  unfold readNeedleDataVersion2NonData.
  rewrite (then_at read_flags _ s 0 m m 0) by (unfold read_flags; by rewrite decide_False by lia).
  do 4 (erewrite then_at; [|apply Hw]). apply Hw.
Qed.

Lemma lift_ok {S A B} (r : res A) (a : A) (k : A → SE S B) s :
  r = Ok a → (se_lift r ≫= k) s = k a s.
Proof. intros ->. reflexivity. Qed.

Lemma load_split_mod v k :
  (0 < k ≤ 8)%nat → be_load 64 0 (be_split k v) = Ok (v `mod` 2 ^ (8 * Z.of_nat k)).
Proof.
  intros Hk. rewrite be_load_exact;
    [by rewrite be_val_split|lia| |auto with bytes|rewrite zlen_be_split; lia].
  destruct k; [lia|done].
Qed.

Lemma load32 v : in_u 32 v → BytesToUint32 (be_split 4 v) = Ok v.
Proof. intros. by apply load_split. Qed.
Lemma load64 v : in_u 64 v → BytesToUint64 (be_split 8 v) = Ok v.
Proof. intros. by apply load_split. Qed.

Lemma read_body_at n m s rest :
  writable n → sl_buf s = body_ref n ++ rest → sl_len s = zlen (body_ref n) →
  readNeedleDataVersion2 s m = (restore_body n m, Ok None).
Proof.
  intros Hw Hs Hl. unfold readNeedleDataVersion2, restore_body, body_ref in *.
  pose proof (zlen_data n Hw) as Hd. pose proof (zlen_nonneg (meta_ref n)).
  destruct (Data n) as [|x d] eqn:HD.
  { rewrite decide_False by (rewrite Hl; done).
    erewrite lift_ok.
    2: { unfold reslice_from. apply reslice_ok; [by rewrite Hl|]. unfold sl_cap. rewrite Hl. zl. }
    erewrite se_bind_ok; cycle 1; [apply nondata_empty; cbn; by rewrite Hl|reflexivity]. }
  rewrite <- HD in *. rewrite !zlen_app, zlen_be_split in Hl. rewrite <- !app_assoc in Hs.
  rewrite decide_True by lia. set (l := zlen (Data n)) in *.
  assert (cut s 0 4 m = (m, Ok (be_split 4 l))) as E by (by eapply (cut_at s [])).
  rewrite (se_bind_ok _ _ _ _ _ E). erewrite lift_ok by (apply load32; widths; lia).
  erewrite se_bind_ok by reflexivity. rewrite decide_False by lia.
  assert (cut s 4 (4 + l) (set_DataSize l m) = (set_DataSize l m, Ok (Data n))) as E2
    by (by apply (cut_at s (be_split 4 l) (meta_ref n ++ rest))).
  rewrite (se_bind_ok _ _ _ _ _ E2). erewrite se_bind_ok by reflexivity. cbv zeta.
  erewrite lift_ok.
  2: { unfold reslice_from. apply reslice_ok; [lia|]. unfold sl_cap. rewrite Hs. zl. }
  erewrite se_bind_ok; cycle 1; [apply (read_meta_at n _ _ rest); [done| |cbn [sl_len]; lia]|reflexivity].
  cbn [sl_buf]. rewrite Hs, app_assoc.
  replace (Z.to_nat (4 + l)) with (length (be_split 4 l ++ Data n)); [apply drop_app_length|].
  subst l. unfold zlen. rewrite length_app, length_be_split. lia.
Qed.

(** ** The tail *)

Definition restore_tail (version : Z) (n m : t) : t :=
  let m := set_Checksum (Checksum n) m in
  if decide (version = Version3) then set_AppendAtNs (AppendAtNs n) m else m.

(** The fields that are not part of the body are in range of their types. *)
Record ranged (n : t) : Prop := {
  r_cookie : in_u 32 (Cookie n); r_id : in_u 64 (Id n);
  r_checksum : in_u 32 (Checksum n); r_append : in_u 64 (AppendAtNs n) }.

Definition tail_ref (version : Z) (n : t) : bytes :=
  be_split 4 (Checksum n)
  ++ (if decide (version = Version3) then be_split 8 (AppendAtNs n) else []).

Lemma zlen_tail version n :
  zlen (tail_ref version n) = if decide (version = Version3) then 12 else 4.
Proof. unfold tail_ref. case_decide; zl. Qed.

Lemma read_tail_at version n m s rest :
  ranged n → sl_buf s = tail_ref version n ++ rest →
  (Data m ≠ [] → Checksum n = NewCRC (Data m)) →
  readNeedleTail s version m = (restore_tail version n m, Ok tt).
Proof.
  intros [_ _ Hc Ha] Hs Hcrc. unfold readNeedleTail, tail_ref, restore_tail in *.
  erewrite se_bind_ok by reflexivity. rewrite <- app_assoc in Hs.
  assert (cut s 0 NeedleChecksumSize m = (m, Ok (be_split 4 (Checksum n)))) as E
    by (by eapply (cut_at s [])).
  rewrite (se_bind_ok _ _ _ _ _ E). erewrite lift_ok by (by apply load32).
  erewrite se_bind_ok.
  2: { instantiate (1 := tt). instantiate (1 := set_Checksum (Checksum n) m).
       destruct (Data m) eqn:HD; [done|]. rewrite <- HD in *.
       rewrite decide_True by (rewrite HD; zl).
       assert (Checksum n = NewCRC (Data m)) as -> by (apply Hcrc; by rewrite HD).
       by rewrite decide_False by (intros N; by apply N). }
  destruct (decide (version = Version3)); [|done].
  assert (∀ m, cut s NeedleChecksumSize (NeedleChecksumSize + TimestampSize) m
            = (m, Ok (be_split 8 (AppendAtNs n)))) as E2
    by (intros; by apply (cut_at s (be_split 4 (Checksum n)) rest)).
  rewrite (se_bind_ok _ _ _ _ _ (E2 _)). by erewrite lift_ok by (by apply load64).
Qed.

Lemma read_tail_corrupt version n m s rest :
  ranged n → sl_buf s = tail_ref version n ++ rest →
  Data m ≠ [] → Checksum n ≠ NewCRC (Data m) →
  readNeedleTail s version m = (m, Fail (Errorf "invalid CRC for needle")).
Proof.
  intros [_ _ Hc Ha] Hs HD Hcrc. unfold readNeedleTail, tail_ref in *.
  erewrite se_bind_ok by reflexivity. rewrite <- app_assoc in Hs.
  assert (cut s 0 NeedleChecksumSize m = (m, Ok (be_split 4 (Checksum n)))) as E
    by (by eapply (cut_at s [])).
  rewrite (se_bind_ok _ _ _ _ _ E). erewrite lift_ok by (by apply load32).
  apply se_bind_fail. rewrite decide_True by (destruct (Data m); [done|zl]).
  by rewrite decide_True.
Qed.

(** ** Header and whole record *)

Lemma parse_header_at n size s rest m :
  ranged n → in_s 32 size → sl_buf s = header_ref n size ++ rest →
  ParseNeedleHeader s m = (set_header (Cookie n) (Id n) size m, Ok tt).
Proof.
  intros [Hc Hi _ _] Hz Hs. unfold ParseNeedleHeader, header_ref in *.
  rewrite <- !app_assoc in Hs.
  destruct (reslice_at s [] (be_split 4 (Cookie n)) _ 0 CookieSize Hs) as (w & Ew & Dw & _);
    [done|done|].
  rewrite (lift_ok _ _ _ _ Ew). rewrite Dw.
  assert (BytesToCookie (be_split 4 (Cookie n)) = Ok (Cookie n)) as E1
    by (by apply load32 in Hc).
  rewrite (lift_ok _ _ _ _ E1). erewrite se_bind_ok by reflexivity.
  destruct (reslice_at s (be_split 4 (Cookie n)) (be_split 8 (Id n)) _ CookieSize
              (CookieSize + NeedleIdSize) Hs) as (w2 & Ew2 & Dw2 & _); [done|done|].
  rewrite (lift_ok _ _ _ _ Ew2), Dw2. rewrite (lift_ok _ _ _ _ (load64 _ Hi)).
  erewrite se_bind_ok by reflexivity.
  rewrite app_assoc in Hs.
  destruct (reslice_at s (be_split 4 (Cookie n) ++ be_split 8 (Id n)) (be_split 4 (u32 size)) rest
      (CookieSize + NeedleIdSize) NeedleHeaderSize Hs) as (w3 & Ew3 & Dw3 & _); [done|done|].
  rewrite (lift_ok _ _ _ _ Ew3), Dw3.
  assert (Size.BytesToSize (be_split 4 (u32 size)) = Ok size) as E3.
  { unfold Size.BytesToSize. rewrite load32 by (apply wrap_range; lia). cbn.
    unfold mret, res_ret. by rewrite swrap_wrap. }
  by rewrite (lift_ok _ _ _ _ E3).
Qed.

(** The needle a reader that starts from [m] gets from the record of [n]. *)
Definition restore (version : Z) (n m : t) : t :=
  let m := set_header (Cookie n) (Id n) (zlen (body_of version n)) m in
  let m := if decide (version = Version1) then set_Data (Data n) m else restore_body n m in
  restore_tail version n m.

Lemma Data_restore_meta n m : Data (restore_meta n m) = Data m.
Proof.
  unfold restore_meta.
  destruct (HasName n), (HasMime n), (HasLastModifiedDate n), (HasTtl n), (HasPairs n); done.
Qed.
Lemma Data_restore_body n m : Data m = [] → Data (restore_body n m) = Data n.
Proof.
  intros Hm. unfold restore_body. destruct (Data n) eqn:E; [done|].
  by rewrite Data_restore_meta.
Qed.

Lemma record_split version n pad :
  record_ref version n pad
  = header_ref n (zlen (body_of version n)) ++ body_of version n ++ tail_ref version n ++ pad.
Proof. unfold record_ref, tail_ref. by rewrite <- app_assoc. Qed.

(** Reading a record up to its tail. *)
Lemma read_bytes_body version n pad offset m :
  writable n → ranged n → Data m = [] →
  let size := zlen (body_of version n) in
  let m1 := set_header (Cookie n) (Id n) size m in
  let m2 := if decide (version = Version1) then set_Data (Data n) m1 else restore_body n m1 in
  ∃ w, ReadBytes (sl_of (record_ref version n pad)) offset size version m
       = readNeedleTail w version m2
     ∧ sl_buf w = tail_ref version n ++ pad ∧ Data m2 = Data n.
Proof.
  intros Hw Hr Hm size m1 m2. pose proof (body_range version n Hw).
  set (s := sl_of _). pose proof (record_split version n pad) as Hs.
  change (record_ref version n pad) with (sl_buf s) in Hs at 1. fold size in Hs.
  pose proof (zlen_header n size) as Hh.
  destruct (reslice_at s (header_ref n size) (body_of version n) _ NeedleHeaderSize
    (NeedleHeaderSize + size) Hs) as (w & Ew & Dw & Bw & Lw); [by rewrite Hh|done|].
  assert (∃ w, reslice_from s (add32 NeedleHeaderSize size) = Ok w
               ∧ sl_buf w = tail_ref version n ++ pad) as (w2 & Ew2 & Bw2).
  { pose proof Hs as Hs2.
    rewrite app_assoc, <- (app_nil_r (tail_ref version n ++ pad)) in Hs2.
    unfold reslice_from. rewrite add32_id by (unfold NeedleHeaderSize, CookieSize,
      NeedleIdSize, SizeSize; widths; lia).
    destruct (reslice_at s _ _ _ (NeedleHeaderSize + size) (sl_len s) Hs2) as (w2 & E2 & _ & B2 & _).
    - rewrite zlen_app, Hh. done.
    - subst s. cbn [sl_of sl_len sl_buf] in *. rewrite Hs2, app_nil_r, !zlen_app, Hh.
      fold size. unfold NeedleHeaderSize, CookieSize, NeedleIdSize, SizeSize. lia.
    - exists w2. by rewrite app_nil_r in B2. }
  assert (Data m2 = Data n) as HD2.
  { subst m2. case_decide; [done|]. by apply Data_restore_body. }
  exists w2. split; [|done]. unfold ReadBytes.
  erewrite se_bind_ok; cycle 1.
  { eapply (parse_header_at n size s _ m Hr); [widths; lia|exact Hs]. }
  fold m1. erewrite se_bind_ok by reflexivity. rewrite decide_False by (intros N; by apply N).
  erewrite se_bind_ok; cycle 1.
  { instantiate (1 := tt). instantiate (1 := m2). subst m2.
    destruct (decide (version = Version1)) as [->|Hv].
    - rewrite add32_id by (unfold NeedleHeaderSize, CookieSize,
        NeedleIdSize, SizeSize; widths; lia).
      assert (cut s NeedleHeaderSize (NeedleHeaderSize + size) m1 = (m1, Ok (Data n))) as E
        by (unfold cut; by rewrite (lift_ok _ _ _ _ Ew), Dw).
      by rewrite (se_bind_ok _ _ _ _ _ E).
    - rewrite (lift_ok _ _ _ _ Ew). unfold body_of in Bw, Lw. rewrite decide_False in Bw, Lw by done.
      by rewrite (se_bind_ok _ _ _ _ _ (read_body_at n m1 w _ Hw Bw Lw)). }
  by rewrite (lift_ok _ _ _ _ Ew2).
Qed.

(** The checksum a needle with data must carry to be readable. *)
Definition crc_ok (n : t) : Prop := Data n ≠ [] → Checksum n = NewCRC (Data n).

Lemma read_record version n pad offset m :
  writable n → ranged n → crc_ok n → Data m = [] →
  ReadBytes (sl_of (record_ref version n pad)) offset (zlen (body_of version n)) version m
  = (restore version n m, Ok tt).
Proof.
  intros Hw Hr Hc Hm.
  destruct (read_bytes_body version n pad offset m Hw Hr Hm) as (w & -> & Hs & HD).
  apply (read_tail_at version n _ w pad); [done..|]. by rewrite HD.
Qed.

Lemma filled_size version n m : filled_by version n m → Size m = zlen (body_of version n).
Proof. unfold filled_by, body_of. case_decide; by intros ->. Qed.

(** C1: the bytes a version's writer emits for a needle, read back with the size it
    recorded, give the fields that version stores, as [restore] lists them: header,
    data and checksum in every version; in versions 2 and 3 also flags, name (cut to
    255 bytes), mime, modification time (40 bits), ttl and pairs as flagged, but none
    of them when the data is empty; the append time in version 3 only.  The other
    fields are left as they were before the read. *)
Theorem needle_roundtrip version n m b size actual offset :
  writable n → ranged n → crc_ok n → supported version →
  writeNeedleByVersion version n = Ok (m, b, size, actual) →
  ReadBytes (sl_of b) offset (Size m) version new = (restore version n new, Ok tt).
Proof.
  intros Hw Hr Hc Hv E.
  destruct (write_spec version n Hw Hv) as (m' & pad & E' & Hm & _).
  rewrite E' in E. apply Ok_inj in E as [= <- <- _ _].
  rewrite (filled_size _ _ _ Hm). by apply read_record.
Qed.

(** C36: a record whose stored checksum is not the CRC of its data is refused,
    whatever else it holds. *)
Theorem corrupt_data_refused version n m b size actual offset :
  writable n → ranged n → supported version → Data n ≠ [] → Checksum n ≠ NewCRC (Data n) →
  writeNeedleByVersion version n = Ok (m, b, size, actual) →
  snd (ReadBytes (sl_of b) offset (Size m) version new)
  = Fail (Errorf "invalid CRC for needle").
Proof.
  intros Hw Hr Hv Hd Hc E.
  destruct (write_spec version n Hw Hv) as (m' & pad & E' & Hm & _).
  rewrite E' in E. apply Ok_inj in E as [= <- <- _ _]. rewrite (filled_size _ _ _ Hm).
  destruct (read_bytes_body version n pad offset new Hw Hr eq_refl) as (w & -> & Hs & HD).
  by erewrite (read_tail_corrupt version n _ w pad Hr Hs) by (by rewrite HD).
Qed.

(** ** Appending to a volume file *)

Section append.
Context {F : Type} `{BF : BackendStorageFile F} {BL : BackendLaws F}.

(** The first [e] bytes of a file, zero-filled. *)
Definition upto (c : bytes) (e : Z) : bytes := sub c 0 e ++ zeros (e - zlen c).

Lemma zlen_upto c e : 0 ≤ e → zlen (upto c e) = e.
Proof. intros. unfold upto. pose proof (zlen_nonneg c). rewrite zlen_app, zlen_sub, zlen_zeros by lia. lia. Qed.

Lemma upto_past c e : zlen c ≤ e → upto c e = c ++ zeros (e - zlen c).
Proof. intros. unfold upto. by rewrite sub_all. Qed.

Lemma put_upto c e p : 0 ≤ e → OsFile.put c e p = upto c e ++ p ++ drop (Z.to_nat (e + zlen p)) c.
Proof.
  intros He. pose proof (zlen_nonneg c). pose proof (zlen_nonneg p). unfold OsFile.put, upto, splice, sub.
  rewrite drop_0, take_app, drop_app. f_equal; [f_equal|].
  - unfold zeros. rewrite take_replicate. f_equal. unfold zlen in *. lia.
  - rewrite (drop_ge (zeros _)).
    { rewrite app_nil_r. do 2 f_equal. unfold zlen in *. lia. }
    unfold zeros. rewrite length_replicate. unfold zlen in *. lia.
Qed.

Lemma truncated_upto c e : 0 ≤ e → sub (c ++ zeros (e - zlen c)) 0 e = upto c e.
Proof.
  intros He. pose proof (zlen_nonneg c). unfold upto, sub. rewrite !drop_0, take_app. f_equal.
  rewrite take_ge; [done|]. unfold zeros. rewrite length_replicate. unfold zlen in *. lia.
Qed.

Lemma upto_put c e p : 0 ≤ e → upto (OsFile.put c e p) e = upto c e.
Proof.
  intros He. rewrite (put_upto c) by done. pose proof (zlen_upto c e He). unfold upto at 1.
  rewrite sub_app_l, sub_all by lia.
  pose proof (zlen_nonneg p). pose proof (zlen_nonneg (drop (Z.to_nat (e + zlen p)) c)).
  replace (zeros _) with (@nil Z); [by rewrite app_nil_r|]. unfold zeros.
  rewrite !zlen_app, zlen_upto by done. by replace (Z.to_nat _) with 0%nat by lia.
Qed.

(** Cutting back to the end after a failed write: the first bytes are kept, and
    nothing else remains unless [Truncate] fails as well. *)
Lemma rollback_spec w e c k :
  GetStat w = (e, None) → 0 ≤ e → contents w = c ∨ contents w = OsFile.put c e k →
  GetStat (rollback w e) = (e, None) ∧
  (contents (rollback w e) = upto c e
   ∨ (∃ err, Truncate w e = (rollback w e, Some err)) ∧ contents (rollback w e) = contents w).
Proof.
  intros Hst He Hw. unfold rollback. destruct (Truncate w e) as [w' [err|]] eqn:E; cbn [fst].
  - destruct (truncate_fail w e e w' err Hst E) as [-> ->]. split; [done|]. right. split; [by exists err|done].
  - destruct (truncate_ok w e e w' Hst He E) as [-> ->]. split; [done|]. left.
    rewrite truncated_upto by done. destruct Hw as [->| ->]; [done|]. by apply upto_put.
Qed.

(** What an append promises.  It either adds exactly one record at the old end,
    which reads back, or fails with the old end: then the bytes before the end are
    kept (zero-filled at most) and nothing lies after it, unless [Truncate] failed
    too, when a part of the record may lie there. *)
Definition append_post (n : t) (w : F) (e version : Z) (out : F * t * res (Z * Z * Z)) : Prop :=
  let '(w', n', r) := out in
  ∃ pad, zlen pad = PaddingLength (zlen (body_of version n)) version ∧
  match r with
  | Ok (offset, size, actualSize) =>
      offset = e ∧ size = zlen (Data n) ∧ actualSize = reported_actual version n ∧
      Size n' = zlen (body_of version n) ∧
      let e' := e + GetActualSize (Size n') version in
      contents w' = upto (contents w) e ++ record_ref version n pad ++ drop (Z.to_nat e') (contents w) ∧
      GetStat w' = (e', None) ∧
      ReadData w' offset (Size n') version new = (restore version n new, Ok tt)
  | Fail _ =>
      GetStat w' = (e, None) ∧
      (contents w' = upto (contents w) e
       ∨ (∃ w1 err, Truncate w1 e = (w', Some err)) ∧
         (contents w' = contents w
          ∨ ∃ k, contents w' = OsFile.put (contents w) e (sub (record_ref version n pad) 0 k)))
  | Panic => False
  end.

(** Reading a record that lies at [off]. *)
Lemma read_data_at w e off n version pad pre rest m :
  GetStat w = (e, None) → contents w = pre ++ record_ref version n pad ++ rest →
  off = zlen pre → writable n → ranged n → crc_ok n → supported version →
  zlen pad = PaddingLength (zlen (body_of version n)) version → Data m = [] →
  ReadData w off (zlen (body_of version n)) version m = (restore version n m, Ok tt).
Proof.
  intros Hst Hc -> Hw Hr Hcrc Hv Hpad Hm. pose proof (zlen_record version n pad Hw Hv Hpad) as Hl.
  assert (ReadNeedleBlob w (zlen pre) (zlen (body_of version n)) version
          = Ok (sl_of (record_ref version n pad))) as E.
  { unfold ReadNeedleBlob, fill. rewrite <- Hl.
    rewrite decide_False by (pose proof (zlen_nonneg (record_ref version n pad)); lia).
    rewrite (read_law w e) by (rewrite ?Hc; zl; done).
    rewrite Hc, sub_mid by done. rewrite Z.sub_diag.
    change (zeros 0) with (@nil Z). by rewrite app_nil_r. }
  unfold ReadData. rewrite E. by rewrite (read_record version n pad).
Qed.

Lemma append_ok n w e version :
  GetStat w = (e, None) → 0 ≤ e < Offset.MaxPossibleVolumeSize →
  writable n → ranged n → crc_ok n → supported version →
  append_post n w e version (Append n w version).
Proof.
  intros Hst He Hw Hr Hc Hv. unfold Append. rewrite Hst.
  pose proof (zlen_nonneg (contents w)).
  assert (u64 e = e) as Eu.
  { apply wrap_id. unfold Offset.MaxPossibleVolumeSize in He. widths. lia. }
  rewrite Eu, decide_False by lia.
  destruct (write_spec version n Hw Hv) as (m & pad & -> & Hm & Hpad).
  pose proof (zlen_record version n pad Hw Hv Hpad) as Hl.
  rewrite (swrap_id 64) by (unfold Offset.MaxPossibleVolumeSize in He; widths; lia).
  destruct (WriteAt w (record_ref version n pad) e) as [[w' k] [err|]] eqn:EW; cbn.
  - destruct (write_fail w e (record_ref version n pad) e w' k err Hst) as [Hk Hst']; [lia|done|].
    exists pad. split; [done|].
    destruct (rollback_spec w' e (contents w) (sub (record_ref version n pad) 0 k) Hst')
      as [-> [->|[[er Her] ->]]]; [lia|done|split; [done|by left]|]. split; [done|]. right.
    split; [by exists w', er|]. destruct Hk; [by left|right; by exists k].
  - destruct (write_ok w e (record_ref version n pad) e w' k) as (Hk & _ & Hst');
      [done|lia| |done|].
    { intros N. apply (f_equal zlen) in N. rewrite Hl in N. change (zlen []) with 0 in N.
      pose proof (body_range version n Hw) as Hb. pose proof (pad_bounds _ version Hb).
      unfold GetActualSize, NeedleBodyLength, NeedleHeaderSize, CookieSize, NeedleIdSize,
        SizeSize, NeedleChecksumSize, TimestampSize in N. case_decide; lia. }
    rewrite put_upto, Hl in Hk by lia. rewrite Hl in Hst'. rewrite (filled_size _ _ _ Hm).
    pose proof (zlen_nonneg (record_ref version n pad)).
    exists pad. split_and!; try done.
    + rewrite Hst'. f_equal. lia.
    + eapply (read_data_at w' _ e n version pad (upto (contents w) e) _); try done.
      by rewrite zlen_upto by lia.
Qed.

Lemma record_body_v2 version n pad :
  version ≠ Version1 → Data n ≠ [] →
  record_ref version n pad
  = header_ref n (zlen (body_of version n)) ++ be_split 4 (zlen (Data n)) ++ Data n
    ++ meta_ref n ++ tail_ref version n ++ pad.
Proof.
  intros Hv Hd. rewrite record_split. unfold body_of, body_ref. rewrite !decide_False by done.
  destruct (Data n); [done|]. by rewrite <- !app_assoc.
Qed.

(** The buffer a full read fills. *)
Lemma fill_at w e pre d rest off k :
  GetStat w = (e, None) → contents w = pre ++ d ++ rest → off = zlen pre → k = zlen d →
  fill w off k = Ok (sl_of d, k, None).
Proof.
  intros Hst Hc -> ->. unfold fill.
  rewrite decide_False by (pose proof (zlen_nonneg d); lia).
  rewrite (read_law w e) by (rewrite ?Hc; zl; done).
  rewrite Hc, sub_mid by done. rewrite Z.sub_diag.
  change (zeros 0) with (@nil Z). by rewrite app_nil_r.
Qed.

Lemma meta_bound n : writable n → 1 ≤ zlen (meta_ref n) ≤ 70000.
Proof.
  intros [_ Hm _ Hp _]. rewrite zlen_meta.
  pose proof (zlen_nonneg (Mime n)). pose proof (zlen_nonneg (Pairs n)).
  pose proof (zlen_take (Name n) 255). pose proof (zlen_nonneg (take 255 (Name n))).
  destruct (HasName n), (HasMime n), (HasLastModifiedDate n), (HasTtl n), (Ttl n),
    (HasPairs n); try specialize (Hm eq_refl); try destruct (Hp eq_refl); lia.
Qed.

(** Reading only the metadata of a stored needle restores every field but the
    data, without touching the data bytes. *)
Theorem read_needle_meta w e off n version pad pre rest m :
  GetStat w = (e, None) → contents w = pre ++ record_ref version n pad ++ rest →
  off = zlen pre → writable n → ranged n → (version = Version2 ∨ version = Version3) →
  zlen pad = PaddingLength (zlen (body_of version n)) version →
  Data n ≠ [] → Data m = [] →
  ReadNeedleMeta w off (zlen (body_of version n)) version m
  = (restore_tail version n (restore_meta n (set_DataSize (zlen (Data n))
       (set_header (Cookie n) (Id n) (zlen (body_of version n)) m))), Ok tt).
Proof.
  intros Hst Hc -> Hw Hr Hv Hpad Hd Hm. unfold ReadNeedleMeta, recovering.
  assert (version ≠ Version1) as Hv1 by (destruct Hv as [->| ->]; done).
  pose proof (body_range version n Hw) as Hb. pose proof (zlen_data n Hw).
  pose proof (meta_bound n Hw).
  rewrite record_body_v2 in Hc by done. set (size := zlen (body_of version n)) in *.
  assert (size = 4 + zlen (Data n) + zlen (meta_ref n)) as Hsz.
  { subst size. unfold body_of, body_ref. rewrite decide_False by done.
    destruct (Data n); [done|]. zl. }
  pose proof (zlen_header n size) as Hh.
  assert (fill w (zlen pre) (NeedleHeaderSize + DataSizeSize) = Ok
    (sl_of (header_ref n size ++ be_split 4 (zlen (Data n))), NeedleHeaderSize + DataSizeSize, None))
    as E1.
  { eapply (fill_at w e pre); [done|rewrite Hc, <- !app_assoc; done|done|].
    rewrite zlen_app, Hh. done. }
  rewrite (lift_ok _ _ _ _ E1). cbv beta iota.
  rewrite (decide_False (P := None = Some EOF ∧ _)) by (intros [? _]; done).
  rewrite decide_False by (intros [N|N]; by apply N).
  erewrite se_bind_ok; cycle 1.
  { eapply (parse_header_at n size _ (be_split 4 (zlen (Data n)))); [done|widths; lia|done]. }
  erewrite se_bind_ok by reflexivity. rewrite decide_False by (intros N; by apply N).
  set (m1 := set_header _ _ _ m).
  assert (cut (sl_of (header_ref n size ++ be_split 4 (zlen (Data n)))) NeedleHeaderSize
            (NeedleHeaderSize + DataSizeSize) m1 = (m1, Ok (be_split 4 (zlen (Data n))))) as E2.
  { eapply (cut_at _ (header_ref n size) []); [by rewrite app_nil_r|by rewrite Hh|done]. }
  rewrite (se_bind_ok _ _ _ _ _ E2). erewrite lift_ok by (apply load32; widths; lia).
  erewrite se_bind_ok by reflexivity. cbv zeta.
  assert (Size.IsValid size = true) as -> by (apply Size.IsValid_spec; lia).
  set (d := meta_ref n ++ tail_ref version n ++ pad).
  assert (zlen pre + GetActualSize size version
    - (zlen pre + NeedleHeaderSize + DataSizeSize + zlen (Data n)) = zlen d) as ->.
  { subst d. rewrite !zlen_app, Hpad, zlen_tail. unfold GetActualSize, NeedleBodyLength,
      NeedleHeaderSize, CookieSize, NeedleIdSize, SizeSize, DataSizeSize, NeedleChecksumSize,
      TimestampSize. case_decide; lia. }
  assert (zlen d ≤ 128 * 1024).
  { subst d. pose proof (pad_bounds size version Hb). rewrite !zlen_app, Hpad, zlen_tail.
    case_decide; lia. }
  rewrite decide_False by (pose proof (zlen_nonneg d); lia).
  erewrite lift_ok; cycle 1.
  { eapply (fill_at w e (pre ++ header_ref n size ++ be_split 4 (zlen (Data n)) ++ Data n) d rest);
      [done|rewrite Hc; subst d; by rewrite <- !app_assoc| |done].
    rewrite !zlen_app, Hh, zlen_be_split. unfold NeedleHeaderSize, CookieSize, NeedleIdSize,
      SizeSize, DataSizeSize. lia. }
  cbv beta iota. rewrite decide_True by done. erewrite se_bind_ok by reflexivity.
  erewrite se_bind_ok; cycle 1.
  { apply (read_meta_at n _ (sl_of d) (tail_ref version n ++ pad)); [done|done|].
    subst d. cbn [sl_of sl_len]. zl. }
  cbv beta iota.
  destruct (reslice_at (sl_of d) (meta_ref n) (tail_ref version n ++ pad) []
    (zlen (meta_ref n)) (zlen d)) as (w2 & E3 & _ & B2 & _);
    [by rewrite app_nil_r|done|subst d; zl|].
  erewrite lift_ok by exact E3. rewrite app_nil_r in B2.
  erewrite (read_tail_at version n _ w2 pad Hr B2); [done|].
  by rewrite Data_restore_meta.
Qed.

(** Reading a page of the data returns exactly the asked range of the stored
    data, clipped at its end, and [io.EOF] past the end. *)
Theorem read_needle_page w e off n m version pad pre rest len needleOffset :
  GetStat w = (e, None) → contents w = pre ++ record_ref version n pad ++ rest →
  off = zlen pre → zlen (contents w) < 2 ^ 62 → writable n →
  (version = Version2 ∨ version = Version3) →
  Data n ≠ [] → DataSize m = zlen (Data n) → 0 ≤ needleOffset < 2 ^ 62 →
  ReadNeedleData m w off len needleOffset
  = (sub (Data n) needleOffset len,
     if decide (0 < len ∧ needleOffset < zlen (Data n)) then None else Some EOF).
Proof.
  intros Hst Hc -> Hbig Hw Hv Hd Hm Hno. unfold ReadNeedleData.
  assert (version ≠ Version1) as Hv1 by (destruct Hv as [->| ->]; done).
  rewrite record_body_v2 in Hc by done. pose proof (zlen_data n Hw).
  unfold sub64. rewrite Hm, (swrap_id 64) by (widths; lia).
  case_decide as Hz.
  { rewrite decide_False by lia. f_equal. destruct (decide (len ≤ 0)).
    - unfold sub. by replace (Z.to_nat len) with 0%nat by lia.
    - symmetry. apply sub_past. lia. }
  rewrite (decide_True (P := 0 < len ∧ _)) by lia.
  pose proof (zlen_nonneg pre).
  set (h := header_ref n (zlen (body_of version n))) in *.
  assert (zlen h = 16) as Hh by apply zlen_header.
  set (tl := meta_ref n ++ _) in *.
  assert (zlen (contents w) = zlen pre + 20 + zlen (Data n) + zlen (tl ++ rest)) as Hcl.
  { rewrite Hc. rewrite !zlen_app, Hh, zlen_be_split. lia. }
  pose proof (zlen_nonneg (tl ++ rest)).
  assert (zlen pre < 2 ^ 62) by lia.
  unfold add64. rewrite swrap_id by (unfold NeedleHeaderSize, CookieSize, NeedleIdSize,
    SizeSize, DataSizeSize; widths; lia).
  set (k := Z.min len (zlen (Data n) - needleOffset)).
  assert (sub (contents w) (zlen pre + NeedleHeaderSize + DataSizeSize + needleOffset) k
          = sub (Data n) needleOffset len) as Es.
  { rewrite Hc. replace (pre ++ (h ++ be_split 4 (zlen (Data n)) ++ Data n ++ tl) ++ rest)
      with ((pre ++ h ++ be_split 4 (zlen (Data n))) ++ Data n ++ (tl ++ rest))
      by (by rewrite <- !app_assoc).
    rewrite sub_app_r by (rewrite !zlen_app, Hh, zlen_be_split; unfold NeedleHeaderSize,
      CookieSize, NeedleIdSize, SizeSize, DataSizeSize; lia).
    rewrite !zlen_app, Hh, zlen_be_split.
    replace (zlen pre + NeedleHeaderSize + DataSizeSize + needleOffset - _)
      with needleOffset by (unfold NeedleHeaderSize, CookieSize, NeedleIdSize, SizeSize,
        DataSizeSize; lia).
    rewrite sub_app_l by lia. unfold sub. subst k.
    destruct (decide (len ≤ zlen (Data n) - needleOffset)); [by rewrite Z.min_l|].
    rewrite Z.min_r by lia. rewrite !take_ge; [done|rewrite length_drop; unfold zlen in *; lia..]. }
  rewrite (read_law w e), Es by (done || unfold NeedleHeaderSize, CookieSize, NeedleIdSize,
    SizeSize, DataSizeSize; lia).
  by rewrite decide_False by (intros [? _]; done).
Qed.

(** C2: [Append] to an open file below the size limit: on success exactly one record
    is at the old end, which is the reported offset, all earlier bytes are unchanged,
    the new end is the old one plus the record, and [ReadData] at that offset (reads of
    bytes that are there succeed) restores the needle as [restore] says.  On a failed
    write the end and the bytes before it are kept, zero-filled at most, and nothing
    lies after them; only when [Truncate] fails too may a part of the record stay
    behind the end. *)
Theorem append_spec n w e version :
  GetStat w = (e, None) → 0 ≤ e < Offset.MaxPossibleVolumeSize →
  writable n → ranged n → crc_ok n → supported version →
  append_post n w e version (Append n w version).
Proof. apply append_ok. Qed.
End append.

(** ** Concrete instances *)

Lemma sample_ranged : ranged sample.
Proof. constructor; vm_compute; split; intros; discriminate || reflexivity. Qed.
Lemma sample_crc : crc_ok sample.
Proof. intros _. vm_compute. reflexivity. Qed.

(** The record of [sample], and a volume file that holds it after 8 bytes. *)
Definition sample_out : t * bytes * Z * Z :=
  match writeNeedleByVersion Version3 sample with Ok o => o | _ => (new, [], 0, 0) end.
Definition sample_bytes : bytes := snd (fst (fst sample_out)).
Definition empty_disk : DiskFile.t := DiskFile.NewDiskFile (OsFile.OsF (zeros 8) None).
Definition sample_disk : DiskFile.t :=
  DiskFile.NewDiskFile (OsFile.OsF (zeros 8 ++ sample_bytes) None).
Definition sample_pad : bytes := drop (length sample_bytes - 1) sample_bytes.

Lemma needle_roundtrip_witness :
  ReadBytes (sl_of sample_bytes) 8 (Size (fst (fst (fst sample_out)))) Version3 new
  = (restore Version3 sample new, Ok tt).
Proof.
  apply (needle_roundtrip Version3 sample _ _ 5 56 8 sample_writable sample_ranged sample_crc);
    [right; right; reflexivity|vm_compute; reflexivity].
Defined.

(** A needle stored with the deprecated [crc.Value()] checksum. *)
Definition legacy_sample : t := set_Checksum (CRC_Value (Checksum sample)) sample.

Lemma legacy_writable : writable legacy_sample.
Proof. destruct sample_writable. constructor; assumption. Qed.
Lemma legacy_ranged : ranged legacy_sample.
Proof. destruct sample_ranged. constructor; [assumption..|apply (wrap_range 32); lia|assumption]. Qed.

Lemma corrupt_data_refused_witness :
  match writeNeedleByVersion Version3 legacy_sample with
  | Ok (m, b, _, _) =>
      snd (ReadBytes (sl_of b) 8 (Size m) Version3 new) = Fail (Errorf "invalid CRC for needle")
  | _ => False
  end.
Proof.
  destruct (writeNeedleByVersion Version3 legacy_sample) as [[[[m b] size] actual]| |] eqn:E;
    [|vm_compute in E; discriminate E..].
  apply (corrupt_data_refused Version3 legacy_sample m b size actual 8).
  - exact legacy_writable.
  - exact legacy_ranged.
  - right; right; reflexivity.
  - discriminate.
  - vm_compute. discriminate.
  - exact E.
Defined.

(** A disk that is full after 20 bytes, and one that cannot be truncated either. *)
Definition full_disk : DiskFile.t := DiskFile.NewDiskFile (OsFile.OsF (zeros 8) (Some 20)).

Module StuckFile.
Record t := Mk { disk : DiskFile.t }.

#[global] Instance backend : BackendStorageFile t := {
  ReadAt f off n := ReadAt (disk f) off n;
  WriteAt f p off := let '(d, n, err) := WriteAt (disk f) p off in (Mk d, n, err);
  Truncate f n := (f, Some (Errorf "input/output error"));
  GetStat f := GetStat (disk f) }.

#[global, refine] Instance laws : BackendLaws t := {| contents f := contents (disk f) |}.
Proof.
  all: cbn [Backend.GetStat Backend.ReadAt Backend.WriteAt Backend.Truncate backend].
  - intros f. apply (read_law (disk f)).
  - intros f. apply (read_short (disk f)).
  - intros f e p off f' n Hst Ho Hp. destruct (WriteAt (disk f) p off) as [[d k] err] eqn:E.
    intros [= <- <- ->]. cbn [disk]. by apply (write_ok (disk f) e p off d k).
  - intros f e p off f' n err Hst Ho. destruct (WriteAt (disk f) p off) as [[d k] er] eqn:E.
    intros [= <- <- ->]. cbn [disk]. by apply (write_fail (disk f) e p off d k err).
  - done.
  - by intros f e n f' err Hst [= <- _].
Defined.
End StuckFile.

Lemma append_spec_witness :
  append_post sample empty_disk 8 Version3 (Append sample empty_disk Version3)
  ∧ append_post sample full_disk 8 Version3 (Append sample full_disk Version3)
  ∧ append_post sample (StuckFile.Mk full_disk) 8 Version3 (Append sample (StuckFile.Mk full_disk) Version3).
Proof.
  split; [|split]; apply append_spec; try reflexivity; try (vm_compute; split; [discriminate|reflexivity]);
    exact sample_writable || exact sample_ranged || exact sample_crc || (right; right; reflexivity).
Defined.

(** The first 12 bytes of the record stay behind the end when nothing can be cut off. *)
Example partial_record_stays :
  let out f := let '(w, _, r) := f in (contents w, fst (GetStat w), match r with Fail _ => true | _ => false end) in
  out (Append sample empty_disk Version3) = (zeros 8 ++ sample_bytes, 64, false)
  ∧ out (Append sample full_disk Version3) = (zeros 8, 8, true)
  ∧ (let '(w, _, r) := Append sample (StuckFile.Mk full_disk) Version3 in
     contents w = zeros 8 ++ take 12 sample_bytes ∧ fst (GetStat w) = 8).
Proof. vm_compute. repeat split. Qed.

Lemma read_needle_meta_witness :
  snd (ReadNeedleMeta sample_disk 8 (zlen (body_of Version3 sample)) Version3 new) = Ok tt.
Proof.
  erewrite (read_needle_meta sample_disk 64 8 sample Version3 sample_pad (zeros 8) [] new);
    [reflexivity|reflexivity|vm_compute; reflexivity|reflexivity|exact sample_writable
    |exact sample_ranged|right; reflexivity|vm_compute; reflexivity|discriminate|reflexivity].
Defined.

Lemma read_needle_page_witness :
  ReadNeedleData (set_DataSize 5 new) sample_disk 8 3 1 = (str "ell", None).
Proof.
  erewrite (read_needle_page sample_disk 64 8 sample (set_DataSize 5 new) Version3 sample_pad
              (zeros 8) [] 3 1);
    [reflexivity|reflexivity|vm_compute; reflexivity|reflexivity|vm_compute; reflexivity
    |exact sample_writable|right; reflexivity|discriminate|reflexivity|split; [lia|reflexivity]].
Defined.
