(* ===== verification/SuperBlock.v ===== *)
(** * SuperBlock: replica placement and the volume super block
    (weed/storage/super_block)

    [Marshal] and [Unmarshal] stand for [google.golang.org/protobuf/proto] on
    [master_pb.SuperBlockExtra]. *)

From S2P Require Import Prelude GoStd Bytes StorageTypes VolumeTtl Needle Backend NeedleIO.

Module ReplicaPlacement.

Record t := Mk { SameRackCount : Z; DiffRackCount : Z; DiffDataCenterCount : Z }.
#[global] Instance t_eq_dec : EqDecision t.
Proof. solve_decision. Defined.

Definition assign (rp : t) (i count : Z) : t :=
  if decide (i = 0) then Mk (SameRackCount rp) (DiffRackCount rp) count
  else if decide (i = 1) then Mk (SameRackCount rp) count (DiffDataCenterCount rp)
  else if decide (i = 2) then Mk count (DiffRackCount rp) (DiffDataCenterCount rp)
  else rp.

(** The loop over the runes of the string, with its early return. *)
Fixpoint scan (rp : t) (runes : list (Z * Z)) : t * option go_error :=
  match runes with
  | [] => (rp, None)
  | (i, c) :: runes =>
      let count := c - 48 in
      if decide (count < 0) then (rp, Some (Errorf "unknown replication type: %s"))
      else scan (assign rp i count) runes
  end.

Definition value (rp : t) : Z :=
  DiffDataCenterCount rp * 100 + DiffRackCount rp * 10 + SameRackCount rp.

Definition NewReplicaPlacementFromString (t : bytes) : ReplicaPlacement.t * option go_error :=
  let t := match t with
           | [] => str "000"
           | [_] => str "00" ++ t
           | [_; _] => str "0" ++ t
           | _ => t
           end in
  match scan (Mk 0 0 0) (Utf8.range t) with
  | (rp, Some e) => (rp, Some e)
  | (rp, None) =>
      if decide (value rp > 255) then (rp, Some (Errorf "unexpected replication type: %s"))
      else (rp, None)
  end.

Definition NewReplicaPlacementFromByte (b : Z) : t * option go_error :=
  NewReplicaPlacementFromString (Strconv.Sprintf_03d b).

Definition HasReplication (rp : t) : bool :=
  bool_decide (DiffDataCenterCount rp ≠ 0) || bool_decide (DiffRackCount rp ≠ 0)
  || bool_decide (SameRackCount rp ≠ 0).

(** Nil receivers are [None]. *)
Definition Equals (a b : option t) : bool :=
  match a, b with
  | Some a, Some b =>
      bool_decide (SameRackCount a = SameRackCount b)
      && bool_decide (DiffRackCount a = DiffRackCount b)
      && bool_decide (DiffDataCenterCount a = DiffDataCenterCount b)
  | _, _ => false
  end.
Definition Byte (rp : option t) : Z :=
  match rp with None => 0 | Some rp => u8 (value rp) end.

Definition String (rp : t) : bytes :=
  [u8 (DiffDataCenterCount rp + 48); u8 (DiffRackCount rp + 48); u8 (SameRackCount rp + 48)].
Definition GetCopyCount (rp : t) : Z :=
  DiffDataCenterCount rp + DiffRackCount rp + SameRackCount rp + 1.

(** Three decimal digits that fit one byte. *)
Definition wf (rp : t) : Prop :=
  0 ≤ SameRackCount rp ≤ 9 ∧ 0 ≤ DiffRackCount rp ≤ 9 ∧ 0 ≤ DiffDataCenterCount rp ≤ 9
  ∧ value rp ≤ 255.

Definition zrange (n : nat) : list Z := Z.of_nat <$> seq 0 n.
Lemma zrange_spec n z : 0 ≤ z < Z.of_nat n → z ∈ zrange n.
Proof.
  intros. unfold zrange. apply list_elem_of_fmap. exists (Z.to_nat z).
  split; [lia|]. apply elem_of_seq. lia.
Qed.

Lemma byte_roundtrip_all :
  forallb (λ b, bool_decide (let '(rp, e) := NewReplicaPlacementFromByte b in
    e = None ∧ Byte (Some rp) = b ∧
    bool_decide (0 ≤ SameRackCount rp ≤ 9) && bool_decide (0 ≤ DiffRackCount rp ≤ 9)
    && bool_decide (0 ≤ DiffDataCenterCount rp ≤ 9) && bool_decide (value rp ≤ 255) = true))
  (zrange 256) = true.
Proof. vm_compute. reflexivity. Qed.

Lemma string_roundtrip_all :
  forallb (λ x, forallb (λ y, forallb (λ z,
    let rp := Mk z y x in
    bool_decide (value rp > 255)
    || bool_decide (NewReplicaPlacementFromString (String rp) = (rp, None)))
    (zrange 10)) (zrange 10)) (zrange 10) = true.
Proof. vm_compute. reflexivity. Qed.

Lemma byte_roundtrip b :
  is_byte b → ∃ rp, NewReplicaPlacementFromByte b = (rp, None) ∧ Byte (Some rp) = b ∧ wf rp.
Proof.
  intros Hb. pose proof byte_roundtrip_all as H. rewrite forallb_forall in H.
  specialize (H b). rewrite <- list_elem_of_In in H. specialize (H (zrange_spec 256 b Hb)).
  apply bool_decide_eq_true in H. destruct (NewReplicaPlacementFromByte b) as [rp e].
  destruct H as (-> & Hv & H). exists rp. split_and!; [done..|].
  rewrite !andb_true_iff, !bool_decide_eq_true in H. unfold wf. tauto.
Qed.

Lemma placement_facts :
  (∀ b, is_byte b → ∃ rp, NewReplicaPlacementFromByte b = (rp, None) ∧ Byte (Some rp) = b ∧ wf rp) ∧
  (∀ rp, wf rp → NewReplicaPlacementFromByte (Byte (Some rp)) = (rp, None)).
Proof.
  split; [apply byte_roundtrip|]. intros [z y x] (Hz & Hy & Hx & Hv). cbn in Hz, Hy, Hx.
  unfold value in Hv; cbn in Hv.
  assert (is_byte (x * 100 + y * 10 + z)) as Hb by (red; lia).
  destruct (byte_roundtrip _ Hb) as ([z' y' x'] & E & Hby & (Hz' & Hy' & Hx' & Hv')).
  cbn in Hz', Hy', Hx'. unfold Byte, value in *; cbn in *.
  rewrite (wrap_id 8) in Hby |- * by (widths; lia). rewrite E.
  assert (x' = x ∧ y' = y ∧ z' = z) as (-> & -> & ->) by lia. done.
Qed.

(** Every byte is the code of exactly one well-formed placement, and every
    well-formed placement is read back from its byte and from its string. *)
Theorem placement_roundtrip :
  (∀ b, is_byte b → ∃ rp, NewReplicaPlacementFromByte b = (rp, None) ∧ Byte (Some rp) = b ∧ wf rp) ∧
  (∀ rp, wf rp → NewReplicaPlacementFromString (String rp) = (rp, None)
               ∧ NewReplicaPlacementFromByte (Byte (Some rp)) = (rp, None)).
Proof.
  split; [apply byte_roundtrip|]. intros [z y x] Hwf. pose proof Hwf as (Hz & Hy & Hx & Hv).
  cbn in Hz, Hy, Hx. split.
  - pose proof string_roundtrip_all as H. rewrite forallb_forall in H.
    specialize (H x). rewrite <- list_elem_of_In in H. specialize (H (zrange_spec 10 x ltac:(lia))).
    rewrite forallb_forall in H.
    specialize (H y). rewrite <- list_elem_of_In in H. specialize (H (zrange_spec 10 y ltac:(lia))).
    rewrite forallb_forall in H.
    specialize (H z). rewrite <- list_elem_of_In in H. specialize (H (zrange_spec 10 z ltac:(lia))).
    cbv zeta in H. rewrite bool_decide_false in H by lia. by apply bool_decide_eq_true in H.
  - by apply placement_facts.
Qed.

End ReplicaPlacement.

(** ** The super block *)
Module SuperBlock.
Import Needle.

Definition SuperBlockSize : Z := 8.

Section extra.
Context {E : Type} (Marshal : E → res bytes) (Unmarshal : bytes → E * option go_error).

Record t := Mk {
  Version : Z;
  ReplicaPlacement : option ReplicaPlacement.t;
  Ttl : option Ttl.TTL;
  CompactionRevision : Z;
  Extra : option E;
  ExtraSize : Z }.

Definition set_ExtraSize (v : Z) (s : t) : t :=
  Mk (Version s) (ReplicaPlacement s) (Ttl s) (CompactionRevision s) (Extra s) v.

Definition BlockSize (s : t) : Z :=
  if decide (Version s = Version2 ∨ Version s = Version3)
  then SuperBlockSize + ExtraSize s else SuperBlockSize.

(** The receiver with [ExtraSize] set, and the bytes.  A nil [Ttl] panics;
    [glog.Fatalf] stops the process and is a panic here. *)
Definition Bytes (s : t) : res (t * bytes) :=
  let header := zeros SuperBlockSize in
  header ← set_index header 0 (u8 (Version s));
  header ← set_index header 1 (ReplicaPlacement.Byte (ReplicaPlacement s));
  header ← match Ttl s with
           | None => Panic
           | Some ttl => window header 2 4 (Ttl.ToBytes ttl)
           end;
  header ← window header 4 6 (λ b, Uint16toBytes b (CompactionRevision s));
  match Extra s with
  | None => mret (s, header)
  | Some x =>
      match Marshal x with
      | Ok extraData =>
          let extraSize := zlen extraData in
          if decide (extraSize > 256 * 256 - 2) then Panic
          else
            let s := set_ExtraSize (u16 extraSize) s in
            header ← window header 6 8 (λ b, Uint16toBytes b (ExtraSize s));
            mret (s, header ++ extraData)
      | _ => Panic
      end
  end.

Definition Initialized (s : t) : bool :=
  match ReplicaPlacement s, Ttl s with Some _, Some _ => true | _, _ => false end.

(** The buffer the extra data is unmarshalled from is never filled. *)
Definition ReadSuperBlock {F} `{BackendStorageFile F} (datBackend : F) : res t :=
  '(header, n, e) ← NeedleIO.fill datBackend 0 SuperBlockSize;
  if decide (e ≠ None ∧ n ≠ SuperBlockSize)
  then Fail (Errorf "cannot read volume %s super block: %v")
  else
    version ← sl_index header 0;
    b ← sl_index header 1;
    match ReplicaPlacement.NewReplicaPlacementFromByte b with
    | (_, Some _) => Fail (Errorf "cannot read replica type: %s")
    | (rp, None) =>
        w ← reslice header 2 4;
        ttl ← Ttl.LoadTTLFromBytes (sl_data w);
        w ← reslice header 4 6;
        revision ← BytesToUint16 (sl_data w);
        w ← reslice header 6 8;
        extraSize ← BytesToUint16 (sl_data w);
        if decide (extraSize > 0) then
          let extraData := zeros extraSize in
          let '(x, e) := Unmarshal extraData in
          match e with
          | Some _ => Fail (Errorf "cannot read volume %s super block extra: %v")
          | None => mret (Mk version (Some rp) (Some ttl) revision (Some x) extraSize)
          end
        else mret (Mk version (Some rp) (Some ttl) revision None extraSize)
    end.

(** What [volume_create] and [volume_loading] put in a super block. *)
Record wf (s : t) : Prop := {
  wf_version : is_byte (Version s);
  wf_placement : ∃ rp, ReplicaPlacement s = Some rp ∧ ReplicaPlacement.wf rp;
  wf_ttl : ∃ ttl, Ttl s = Some ttl;
  wf_revision : in_u 16 (CompactionRevision s);
  wf_extra : ∀ x, Extra s = Some x → ∃ b, Marshal x = Ok b ∧ zlen b ≤ 65534;
  wf_no_extra : Extra s = None → ExtraSize s = 0 }.

Definition header_ref (s : t) (rp : ReplicaPlacement.t) (ttl : Ttl.TTL) (extraSize : Z) : bytes :=
  [Version s; ReplicaPlacement.Byte (Some rp); Ttl.Count ttl; Ttl.Unit ttl]
  ++ be_split 2 (CompactionRevision s) ++ be_split 2 extraSize.

(** The marshalled extra data, if any. *)
Definition extra_bytes (s : t) : bytes :=
  match Extra s with
  | Some x => match Marshal x with Ok b => b | _ => [] end
  | None => []
  end.

Lemma bytes_layout s rp ttl :
  wf s → ReplicaPlacement s = Some rp → Ttl s = Some ttl →
  Bytes s = Ok (set_ExtraSize (zlen (extra_bytes s)) s,
                header_ref s rp ttl (zlen (extra_bytes s)) ++ extra_bytes s).
Proof.
  intros [Hv _ _ Hr Hx Hn] Erp Ettl. unfold Bytes, header_ref, extra_bytes. rewrite Erp, Ettl.
  rewrite (wrap_id 8) by exact Hv. destruct s as [v rp' ttl' rev ex es].
  cbn [Version ReplicaPlacement Ttl CompactionRevision Extra ExtraSize] in *. subst.
  destruct ttl as [c u].
  set (b1 := ReplicaPlacement.Byte (Some rp)).
  assert (set_index (zeros SuperBlockSize) 0 v = Ok [v; 0; 0; 0; 0; 0; 0; 0]) as -> by done.
  rewrite bind_ok.
  assert (set_index [v; 0; 0; 0; 0; 0; 0; 0] 1 b1 = Ok [v; b1; 0; 0; 0; 0; 0; 0]) as -> by done.
  rewrite bind_ok.
  assert (window [v; b1; 0; 0; 0; 0; 0; 0] 2 4 (Ttl.ToBytes (Ttl.MkTTL c u))
          = Ok [v; b1; c; u; 0; 0; 0; 0]) as -> by done.
  rewrite bind_ok, (window_be 2 _ _ _ rev); [|done..|intros; by apply be_store_16].
  rewrite bind_ok. destruct ex as [x|].
  - destruct (Hx x eq_refl) as (b & -> & Hb).
    pose proof (zlen_nonneg b). rewrite decide_False by lia. cbv zeta.
    rewrite (wrap_id 16) by (widths; lia).
    rewrite (window_be 2 _ _ _ (zlen b)); [|done..|intros; by apply be_store_16].
    reflexivity.
  - rewrite (Hn eq_refl). reflexivity.
Qed.

Section backend.
Context {F : Type} `{BF : BackendStorageFile F} {BL : BackendLaws F}.

(** What is read back: everything but the extra data. *)
Lemma read_layout (w : F) e s rp ttl extraSize rest :
  GetStat w = (e, None) → wf s → ReplicaPlacement s = Some rp → Ttl s = Some ttl →
  ReplicaPlacement.wf rp → 0 ≤ extraSize < 65536 →
  contents w = header_ref s rp ttl extraSize ++ rest →
  ReadSuperBlock w =
    if decide (extraSize > 0) then
      match Unmarshal (zeros extraSize) with
      | (x, None) => Ok (Mk (Version s) (Some rp) (Some ttl) (CompactionRevision s) (Some x) extraSize)
      | (_, Some _) => Fail (Errorf "cannot read volume %s super block extra: %v")
      end
    else Ok (Mk (Version s) (Some rp) (Some ttl) (CompactionRevision s) None extraSize).
Proof.
  intros Hst [_ _ _ Hr _ _] Erp Ettl Hrp Hx Hc. unfold ReadSuperBlock.
  set (h := header_ref s rp ttl extraSize) in *.
  assert (NeedleIO.fill w 0 SuperBlockSize = Ok (sl_of h, SuperBlockSize, None)) as ->.
  { assert (zlen h = SuperBlockSize) as Hh by done. unfold SuperBlockSize in *.
    unfold NeedleIO.fill. rewrite decide_False by lia.
    pose proof (zlen_nonneg rest).
    rewrite (read_law w e) by (done || lia || (rewrite Hc, zlen_app; lia)).
    rewrite Hc, sub_app_l, sub_all, Hh by lia. by rewrite app_nil_r. }
  cbn [mbind res_bind]. rewrite decide_False by (intros [N _]; by apply N).
  assert (sl_index (sl_of h) 0 = Ok (Version s)) as -> by done. rewrite bind_ok.
  assert (sl_index (sl_of h) 1 = Ok (ReplicaPlacement.Byte (Some rp))) as -> by done.
  rewrite bind_ok. destruct ReplicaPlacement.placement_facts as [_ Hpl].
  rewrite (Hpl rp Hrp).
  assert (Hw : ∀ lo d r, h = take lo h ++ d ++ r → length (take lo h) = lo →
    ∃ w, reslice (sl_of h) (Z.of_nat lo) (Z.of_nat lo + zlen d) = Ok w ∧ sl_data w = d).
  { intros lo d r Eh Hl.
    destruct (reslice_at (sl_of h) (take lo h) d r (Z.of_nat lo)
      (Z.of_nat lo + zlen d)) as (w' & ? & ? & _); [done|unfold zlen; by rewrite Hl|done|].
    by exists w'. }
  destruct (Hw 2%nat [Ttl.Count ttl; Ttl.Unit ttl] _ eq_refl eq_refl) as (w2 & E2 & D2).
  destruct (Hw 4%nat (be_split 2 (CompactionRevision s)) _ eq_refl eq_refl) as (w4 & E4 & D4).
  destruct (Hw 6%nat (be_split 2 extraSize) [] eq_refl eq_refl) as (w6 & E6 & D6).
  change (reslice (sl_of h) 2 4 = Ok w2) in E2. change (reslice (sl_of h) 4 6 = Ok w4) in E4.
  change (reslice (sl_of h) 6 8 = Ok w6) in E6.
  assert (∀ v, in_u 16 v → BytesToUint16 (be_split 2 v) = Ok v) as H16.
  { intros v Hv. rewrite BytesToUint16_val by auto using length_be_split with bytes.
    rewrite be_val_split. f_equal. by apply Z.mod_small. }
  rewrite E2, bind_ok, D2, Ttl.load_two, bind_ok, E4, bind_ok, D4, H16, bind_ok, E6, bind_ok, D6,
    H16, bind_ok by (done || (widths; lia)).
  destruct ttl. case_decide; [|done]. by destruct (Unmarshal _) as [x [|]].
Qed.

(** A super block without extra data is read back from the start of the file. *)
Theorem super_block_roundtrip (w : F) e s s' b rest :
  GetStat w = (e, None) → wf s → Extra s = None →
  Bytes s = Ok (s', b) → contents w = b ++ rest →
  ReadSuperBlock w = Ok s ∧ zlen b = BlockSize s.
Proof.
  intros Hst Hwf Hx Hb Hc. destruct (wf_placement s Hwf) as (rp & Erp & Hrp).
  destruct (wf_ttl s Hwf) as (ttl & Ettl).
  rewrite (bytes_layout s rp ttl) in Hb by done. apply Ok_inj, pair_equal_spec in Hb as [_ <-].
  pose proof (wf_no_extra s Hwf Hx) as Hes.
  assert (extra_bytes s = []) as Ee by (unfold extra_bytes; by rewrite Hx).
  rewrite Ee, app_nil_r in Hc |- *.
  rewrite (read_layout w e s rp ttl 0 rest) by (done || lia). rewrite decide_False by done.
  split; [|unfold BlockSize; rewrite Hes; by case_decide].
  destruct s; cbn in *; congruence.
Qed.

(** The extra data of a super block is never read: whatever was stored, what
    comes back is [Unmarshal] of zero bytes, so two super blocks that differ only
    in extra data of the same length read back the same. *)
Theorem super_block_extra_lost (w : F) e s s' b rest x :
  GetStat w = (e, None) → wf s → Extra s = Some x → extra_bytes s ≠ [] →
  Bytes s = Ok (s', b) → contents w = b ++ rest →
  ReadSuperBlock w
  = match Unmarshal (zeros (zlen (extra_bytes s))) with
    | (y, None) => Ok (Mk (Version s) (ReplicaPlacement s) (Ttl s) (CompactionRevision s)
                          (Some y) (ExtraSize s'))
    | (_, Some _) => Fail (Errorf "cannot read volume %s super block extra: %v")
    end.
Proof.
  intros Hst Hwf Hx Hne Hb Hc. destruct (wf_placement s Hwf) as (rp & Erp & Hrp).
  destruct (wf_ttl s Hwf) as (ttl & Ettl).
  rewrite (bytes_layout s rp ttl) in Hb by done. apply Ok_inj, pair_equal_spec in Hb as [<- <-].
  assert (0 < zlen (extra_bytes s) < 65536).
  { destruct (wf_extra s Hwf x Hx) as (b & E1 & Hb). unfold extra_bytes in *.
    rewrite Hx, E1 in *. destruct b; [done|]. zl. }
  rewrite <- app_assoc in Hc.
  rewrite (read_layout w e s rp ttl (zlen (extra_bytes s)) _ Hst Hwf Erp Ettl Hrp ltac:(lia) Hc).
  rewrite decide_True by lia. by rewrite Erp, Ettl.
Qed.
End backend.

End extra.

(** ** Concrete instances: extra data as raw bytes, kept verbatim *)

Definition raw_marshal (x : bytes) : res bytes := Ok x.
Definition raw_unmarshal (b : bytes) : bytes * option go_error := (b, None).
Definition plain_block : t :=
  Mk (E := bytes) Version3 (Some (ReplicaPlacement.Mk 1 0 0)) (Some (Ttl.MkTTL 3 Ttl.Day)) 7 None 0.
Definition extra_block : t :=
  Mk (E := bytes) Version3 (Some (ReplicaPlacement.Mk 1 0 0)) (Some (Ttl.MkTTL 3 Ttl.Day)) 7
     (Some (str "abc")) 0.
Definition disk_of (b : bytes) : DiskFile.t := DiskFile.NewDiskFile (OsFile.OsF b None).
Definition block_bytes (s : t) : bytes :=
  match Bytes raw_marshal s with Ok (_, b) => b | _ => [] end.

Lemma block_wf x es :
  (x = None → es = 0) → (∀ b, x = Some b → zlen b ≤ 65534) →
  wf raw_marshal (Mk Version3 (Some (ReplicaPlacement.Mk 1 0 0)) (Some (Ttl.MkTTL 3 Ttl.Day)) 7 x es).
Proof.
  intros Hn Hx. constructor; cbn.
  - split; [discriminate|reflexivity].
  - eexists; split; [done|]. unfold ReplicaPlacement.wf, ReplicaPlacement.value; cbn. lia.
  - by eexists.
  - split; [discriminate|reflexivity].
  - intros b ->. exists b. split; [done|by apply Hx].
  - exact Hn.
Qed.

Lemma super_block_roundtrip_witness :
  ReadSuperBlock raw_unmarshal (disk_of (block_bytes plain_block)) = Ok plain_block.
Proof.
  apply (super_block_roundtrip raw_marshal raw_unmarshal (disk_of (block_bytes plain_block)) 8
           plain_block plain_block (block_bytes plain_block) []);
    [reflexivity|apply block_wf; [reflexivity|discriminate]|reflexivity|reflexivity|reflexivity].
Defined.

Lemma super_block_extra_lost_witness :
  ReadSuperBlock raw_unmarshal (disk_of (block_bytes extra_block))
  = Ok (Mk Version3 (Some (ReplicaPlacement.Mk 1 0 0)) (Some (Ttl.MkTTL 3 Ttl.Day)) 7
          (Some [0; 0; 0]) 3).
Proof.
  apply (super_block_extra_lost raw_marshal raw_unmarshal (disk_of (block_bytes extra_block)) 16
           extra_block (set_ExtraSize 3 extra_block) (block_bytes extra_block) [] (str "abc"));
    [reflexivity|apply block_wf; [discriminate|intros b [= <-]; vm_compute; discriminate]
    |reflexivity|discriminate|reflexivity|reflexivity].
Defined.

End SuperBlock.
