(* ===== verification/Idx.v ===== *)
(** * Idx: index file entries and the walks over them
    (weed/storage/needle_map/needle_value.go, weed/storage/idx)

    An index file is a sequence of 16-byte rows: needle id, offset, size.  The
    callbacks close over state [S]; an error they return stops the walk. *)

From S2P Require Import Prelude GoStd Bytes StorageTypes Needle.

Definition NeedleMapEntrySize : Z := NeedleIdSize + Offset.OffsetSize + SizeSize.

(** ** Rows *)
Module NeedleValue.

Record t := Mk { Key : Z; Offset : Offset.t; Size : Z }.
#[global] Instance t_eq_dec : EqDecision t.
Proof. solve_decision. Defined.

Definition Less (a b : t) : bool := bool_decide (Key a < Key b).

Definition ToBytes (key : Z) (offset : Offset.t) (size : Z) : res bytes :=
  let bytes := zeros (NeedleIdSize + Offset.OffsetSize + SizeSize) in
  bytes ← window bytes 0 NeedleIdSize (λ b, NeedleIdToBytes b key);
  bytes ← window bytes NeedleIdSize (NeedleIdSize + Offset.OffsetSize)
            (λ b, Offset.OffsetToBytes b offset);
  window bytes (NeedleIdSize + Offset.OffsetSize) (NeedleIdSize + Offset.OffsetSize + SizeSize)
    (λ b, Uint32toBytes b (u32 size)).

Definition NeedleValue_ToBytes (nv : t) : res bytes := ToBytes (Key nv) (Offset nv) (Size nv).

(** In range of the stored types. *)
Definition wf (nv : t) : Prop :=
  in_u 64 (Key nv) ∧ StorageTypes.Offset.wf (Offset nv) ∧ in_s 32 (Size nv).

Definition row (nv : t) : bytes :=
  be_split 8 (Key nv)
  ++ [Offset.b3 (Offset nv); Offset.b2 (Offset nv); Offset.b1 (Offset nv); Offset.b0 (Offset nv)]
  ++ be_split 4 (u32 (Size nv)).

Lemma row_length nv : length (row nv) = 16%nat.
Proof. reflexivity. Qed.

Lemma ToBytes_row nv : NeedleValue_ToBytes nv = Ok (row nv).
Proof. destruct nv as [k [x3 x2 x1 x0] s]. reflexivity. Qed.

End NeedleValue.

Module Idx.
Import NeedleValue.

Definition RowsToRead : Z := 1024.

Definition IdxFileEntry (b : bytes) : res NeedleValue.t :=
  let s := sl_of b in
  w ← reslice s 0 NeedleIdSize;
  key ← BytesToNeedleId (sl_data w);
  w ← reslice s NeedleIdSize (NeedleIdSize + Offset.OffsetSize);
  offset ← Offset.BytesToOffset (sl_data w);
  w ← reslice s (NeedleIdSize + Offset.OffsetSize) (NeedleIdSize + Offset.OffsetSize + SizeSize);
  size ← Size.BytesToSize (sl_data w);
  mret (Mk key offset size).

Section walk.
Context {S : Type} (fn : NeedleValue.t → S → S * option go_error).

(** The rows of one buffer: the state, and the new [e] or the error to return. *)
Fixpoint walk_rows (fuel : nat) (b : bytes) (i count : Z) (e : option go_error) (s : S)
    : S * res (option go_error) :=
  match fuel with
  | O => (s, Ok e)
  | Datatypes.S fuel =>
      if decide (i + NeedleMapEntrySize ≤ count) then
        match (w ← reslice (sl_of b) i (i + NeedleMapEntrySize); IdxFileEntry (sl_data w)) with
        | Ok nv =>
            match fn nv s with
            | (s, Some err) => (s, Fail err)
            | (s, None) => walk_rows fuel b (i + NeedleMapEntrySize) count None s
            end
        | Fail err => (s, Fail err)
        | Panic => (s, Panic)
        end
      else (s, Ok e)
  end.

(** [count, e = r.ReadAt(bytes, readerOffset)] into the reused buffer. *)
Definition read_rows (r : bytes) (readerOffset : Z) : bytes * option go_error :=
  OsFile.ReadAt r readerOffset (NeedleMapEntrySize * RowsToRead).

Definition to_error (out : S * res (option go_error)) : S * res (option go_error) :=
  match out with
  | (s, Fail err) => (s, Ok (Some err))
  | out => out
  end.

Fixpoint walk_loop (fuel : nat) (r : bytes) (readerOffset : Z) (b : bytes)
    (e : option go_error) (s : S) : S * res (option go_error) :=
  match fuel with
  | O => (s, Panic)
  | Datatypes.S fuel =>
      let count := zlen b in
      if bool_decide (count > 0) && bool_decide (e = None) || bool_decide (e = Some EOF) then
        match walk_rows (length b) b 0 count e s with
        | (s, Ok e) =>
            if decide (e = Some EOF) then (s, Ok None)
            else
              let '(b, e) := read_rows r readerOffset in
              walk_loop fuel r (readerOffset + zlen b) b e s
        | out => to_error out
        end
      else (s, Ok e)
  end.

(** The error returned, [Ok None] for nil. *)
Definition WalkIndexFile (r : bytes) (startFrom : Z) (s : S) : S * res (option go_error) :=
  let readerOffset := s64 (u64 (startFrom * NeedleMapEntrySize)) in
  let '(b, e) := read_rows r readerOffset in
  if decide (zlen b = 0 ∧ e = Some EOF) then (s, Ok None)
  else walk_loop (length r + 3) r (readerOffset + zlen b) b e s.

End walk.

(** ** Binary search over rows *)

(** The key, offset and size of the row at byte [loc]. *)
Definition row_at (b : bytes) (loc : Z) : res NeedleValue.t :=
  let s := sl_of b in
  w ← reslice s loc (loc + NeedleIdSize);
  key ← BytesToNeedleId (sl_data w);
  w ← reslice s (loc + NeedleIdSize) (loc + NeedleIdSize + Offset.OffsetSize);
  offset ← Offset.BytesToOffset (sl_data w);
  w ← reslice s (loc + NeedleIdSize + Offset.OffsetSize)
        (loc + NeedleIdSize + Offset.OffsetSize + SizeSize);
  size ← Size.BytesToSize (sl_data w);
  mret (Mk key offset size).

Section search.
Context (lessThanOrEqualToFn : NeedleValue.t → bool * option go_error).

Fixpoint search_loop (fuel : nat) (b : bytes) (left right index : Z) : res Z :=
  match fuel with
  | O => Ok index
  | S fuel =>
      if decide (left ≤ right) then
        let mid := left + Z.shiftr (right - left) 1 in
        let loc := mid * NeedleMapEntrySize in
        nv ← row_at b loc;
        match lessThanOrEqualToFn nv with
        | (_, Some err) => Fail err
        | (true, None) => search_loop fuel b (mid + 1) right index
        | (false, None) => search_loop fuel b left (mid - 1) mid
        end
      else Ok index
  end.

Definition FirstInvalidIndex (b : bytes) : res Z :=
  let right := zlen b `div` NeedleMapEntrySize - 1 in
  search_loop (length b) b 0 right (right + 1).

End search.

(** ** Integrity check *)

Record indexEntry := Entry { ie_index : Z; ie_id : Z; ie_offset : Z; ie_size : Z }.

Definition Compare (ie other : indexEntry) : Z :=
  if decide (ie_offset ie < ie_offset other) then -1
  else if decide (ie_offset ie > ie_offset other) then 1
  else if decide (ie_size ie < ie_size other) then -1
  else if decide (ie_size ie > ie_size other) then 1
  else 0.

Inductive check_error :=
  | WalkError (e : go_error)
  | Overlap (e last : indexEntry) (start end_ lastStart lastEnd : Z)
  | SizeMismatch (want got : Z).

(** The extent [[start, end]] of an entry. *)
Definition extent (version : Z) (e : indexEntry) : Z * Z :=
  let size := Needle.GetActualSize (ie_size e) version in
  (ie_offset e, if decide (size ≠ 0) then ie_offset e + (size - 1) else ie_offset e).

(** The pass over neighbours; [last] is the entry before. *)
Fixpoint check_pass (version : Z) (last : option indexEntry) (es : list indexEntry)
    : list check_error :=
  match es with
  | [] => []
  | e :: es =>
      match last with
      | None => check_pass version (Some e) es
      | Some last =>
          let '(start, end_) := extent version e in
          let '(lastStart, lastEnd) := extent version last in
          (if decide (start ≤ lastEnd) then [Overlap e last start end_ lastStart lastEnd] else [])
          ++ check_pass version (Some e) es
      end
  end.

(** [sort.Slice] by [Compare]; entries that compare equal may come in any order,
    here they keep theirs. *)
Definition ie_le (a b : indexEntry) : Prop := Compare a b ≤ 0.
#[global] Instance ie_le_dec a b : Decision (ie_le a b).
Proof. unfold ie_le. apply _. Defined.

Definition collect (nv : NeedleValue.t) (s : list indexEntry) : list indexEntry * option go_error :=
  (s ++ [Entry (zlen s) (Key nv) (StorageTypes.Offset.ToActualOffset (Offset nv)) (Size nv)], None).

Definition CheckIndexFile (r : bytes) (indexFileSize version : Z) : res (Z * list check_error) :=
  let '(entries, out) := WalkIndexFile collect r 0 [] in
  err ← out;
  let errs := match err with Some e => [WalkError e] | None => [] end in
  let entries := merge_sort ie_le entries in
  let errs := errs ++ check_pass version None entries in
  let count := zlen entries in
  let got := count * NeedleMapEntrySize in
  let errs := if decide (got ≠ indexFileSize) then errs ++ [SizeMismatch indexFileSize got]
              else errs in
  mret (count, errs).

End Idx.

(** ** What the walks do *)
Module IdxSpec.
Import NeedleValue Idx.

(** The row at the front of [b]. *)
Definition entry_of (b : bytes) : NeedleValue.t :=
  match IdxFileEntry b with Ok nv => nv | _ => Mk 0 StorageTypes.Offset.zero 0 end.

Fixpoint entries_n (n : nat) (b : bytes) : list NeedleValue.t :=
  match n with
  | O => []
  | S n => entry_of (take 16 b) :: entries_n n (drop 16 b)
  end.
(** The whole rows of a file; a partial row at the end does not count. *)
Definition entries (b : bytes) : list NeedleValue.t := entries_n (length b / 16) b.

(** A callback over a list of entries. *)
Fixpoint visit {S} (fn : NeedleValue.t → S → S * option go_error) (es : list NeedleValue.t) (s : S)
    : S * option go_error :=
  match es with
  | [] => (s, None)
  | nv :: es =>
      match fn nv s with
      | (s, Some err) => (s, Some err)
      | (s, None) => visit fn es s
      end
  end.

Lemma IdxFileEntry_ok b : length b = 16%nat → IdxFileEntry b = Ok (entry_of b).
Proof.
  intros H. do 16 (destruct b as [|? b]; [discriminate H|]).
  destruct b; [|discriminate H]. reflexivity.
Qed.

Lemma entry_of_row nv : wf nv → entry_of (row nv) = nv.
Proof.
  intros (Hk & Ho & Hs). destruct nv as [k [x3 x2 x1 x0] s]; cbn [Key Offset Size] in *.
  unfold entry_of, IdxFileEntry, row; cbn [Key Offset Size StorageTypes.Offset.b3
    StorageTypes.Offset.b2 StorageTypes.Offset.b1 StorageTypes.Offset.b0].
  set (o := [x3; x2; x1; x0]). set (r := be_split 8 k ++ o ++ be_split 4 (u32 s)).
  destruct (reslice_at (sl_of r) [] (be_split 8 k) (o ++ be_split 4 (u32 s)) 0 NeedleIdSize)
    as (w1 & -> & E1 & _); [done..|]. rewrite bind_ok, E1.
  destruct (reslice_at (sl_of r) (be_split 8 k) o (be_split 4 (u32 s)) NeedleIdSize
    (NeedleIdSize + StorageTypes.Offset.OffsetSize)) as (w2 & -> & E2 & _); [done..|].
  destruct (reslice_at (sl_of r) (be_split 8 k ++ o) (be_split 4 (u32 s)) []
    (NeedleIdSize + StorageTypes.Offset.OffsetSize)
    (NeedleIdSize + StorageTypes.Offset.OffsetSize + SizeSize)) as (w3 & -> & E3 & _);
    [by rewrite app_nil_r, <- app_assoc|done..|].
  unfold BytesToNeedleId, BytesToUint64, Size.BytesToSize, BytesToUint32.
  rewrite (load_split k), bind_ok, bind_ok, E2 by (done || lia). subst o.
  rewrite StorageTypes.Offset.bytes_offset, bind_ok, bind_ok, E3.
  rewrite load_split by (lia || (apply wrap_range; lia)). rewrite !bind_ok.
  by rewrite swrap_wrap by (done || lia).
Qed.

Lemma entries_short b : (length b < 16)%nat → entries b = [].
Proof. intros. unfold entries. by rewrite Nat.div_small. Qed.

Lemma entries_step b :
  (16 ≤ length b)%nat → entries b = entry_of (take 16 b) :: entries (drop 16 b).
Proof.
  intros. unfold entries. rewrite length_drop.
  replace (length b / 16)%nat with (S ((length b - 16) / 16)); [done|].
  replace (length b) with (length b - 16 + 1 * 16)%nat at 2 by lia.
  rewrite Nat.div_add by lia. lia.
Qed.

Lemma entries_app_rows n a b :
  length a = (n * 16)%nat → entries (a ++ b) = entries a ++ entries b.
Proof.
  revert a. induction n as [|n IH]; intros a Ha.
  { destruct a; [done|discriminate Ha]. }
  rewrite entries_step by (rewrite length_app; lia). rewrite (entries_step a) by lia.
  rewrite take_app_le, drop_app_le by lia. cbn [app]. f_equal. apply IH.
  rewrite length_drop. lia.
Qed.

Lemma visit_app {S} (fn : NeedleValue.t → S → S * option go_error) es es' s :
  visit fn (es ++ es') s =
    match visit fn es s with
    | (s, Some e) => (s, Some e)
    | (s, None) => visit fn es' s
    end.
Proof.
  revert s. induction es as [|nv es IH]; intros s; [done|]. cbn.
  destruct (fn nv s) as [s' [e|]]; [done|]. apply IH.
Qed.

Section walk.
Context {S : Type} (fn : NeedleValue.t → S → S * option go_error).

Definition rows_out (es : list NeedleValue.t) (e : option go_error) (s : S)
    : S * res (option go_error) :=
  match visit fn es s with
  | (s, Some err) => (s, Fail err)
  | (s, None) => (s, Ok (if decide (es = []) then e else None))
  end.

Lemma walk_rows_spec fuel b i e s :
  0 ≤ i ≤ zlen b → zlen b - i ≤ Z.of_nat fuel →
  walk_rows fn fuel b i (zlen b) e s = rows_out (entries (drop (Z.to_nat i) b)) e s.
Proof.
  revert i e s. induction fuel as [|fuel IH]; intros i e s Hi Hf; cbn [walk_rows].
  { rewrite entries_short by (rewrite length_drop; unfold zlen in *; lia). done. }
  unfold NeedleMapEntrySize, NeedleIdSize, StorageTypes.Offset.OffsetSize, SizeSize.
  change (8 + 4 + 4) with 16. case_decide as Hle.
  2: { rewrite entries_short by (rewrite length_drop; unfold zlen in *; lia). done. }
  rewrite reslice_ok by (unfold sl_cap; cbn [sl_of sl_buf]; lia). rewrite bind_ok.
  assert (sl_data (Slice (drop (Z.to_nat i) (sl_buf (sl_of b))) (i + 16 - i))
          = take 16 (drop (Z.to_nat i) b)) as ->.
  { unfold sl_data, sub. cbn [sl_buf sl_len sl_of]. rewrite drop_0. f_equal. lia. }
  rewrite IdxFileEntry_ok by (rewrite length_take, length_drop; unfold zlen in *; lia).
  rewrite entries_step by (rewrite length_drop; unfold zlen in *; lia).
  set (nv := entry_of _). unfold rows_out. cbn [visit].
  destruct (fn nv s) as [s' [err|]]; [done|]. rewrite IH by lia. unfold rows_out.
  replace (drop (Z.to_nat (i + 16)) b) with (drop 16 (drop (Z.to_nat i) b))
    by (rewrite drop_drop; f_equal; lia).
  destruct (visit fn _ s') as [s'' [err|]]; [done|]. by case_decide.
Qed.

Definition walk_out (es : list NeedleValue.t) (s : S) : S * res (option go_error) :=
  let '(s, e) := visit fn es s in (s, Ok e).

Abbreviation batch := 16384.

Lemma read_rows_spec r off :
  0 ≤ off →
  read_rows r off = (sub r off batch, if decide (zlen (sub r off batch) < batch) then Some EOF else None).
Proof. intros. unfold read_rows, OsFile.ReadAt. by rewrite decide_False by lia. Qed.

(** A batch is whole rows unless it is the last. *)
Lemma entries_batch r off :
  0 ≤ off →
  entries (drop (Z.to_nat off) r)
  = entries (sub r off batch) ++
    (if decide (zlen (sub r off batch) < batch) then []
     else entries (drop (Z.to_nat (off + batch)) r)).
Proof.
  intros Ho. unfold sub. set (d := drop (Z.to_nat off) r). rewrite zlen_take. case_decide as Hl.
  - rewrite take_ge by (unfold zlen in Hl; lia). by rewrite app_nil_r.
  - rewrite <- (take_drop (Z.to_nat batch) d) at 1.
    rewrite (entries_app_rows 1024) by (rewrite length_take; unfold zlen in Hl; lia).
    do 2 f_equal. subst d. rewrite drop_drop. f_equal. lia.
Qed.

Lemma walk_loop_spec fuel r off s :
  0 ≤ off → zlen r - off + 2 ≤ Z.of_nat fuel + Z.min 1 (zlen (sub r off batch)) →
  (2 ≤ fuel)%nat ∨ zlen r ≤ off ∧ (1 ≤ fuel)%nat →
  let b := sub r off batch in
  walk_loop fn fuel r (off + zlen b) b (if decide (zlen b < batch) then Some EOF else None) s
  = walk_out (entries (drop (Z.to_nat off) r)) s.
Proof.
  revert off s. induction fuel as [|fuel IH]; intros off s Ho Hf Hf2; [lia|].
  cbv zeta. rewrite (entries_batch r off Ho). cbn [walk_loop]. set (b := sub r off batch) in *.
  assert (zlen b = Z.max 0 (Z.min batch (zlen r - off))) as Hb by (apply zlen_sub; lia).
  pose proof (zlen_nonneg r).
  assert (bool_decide (zlen b > 0)
    && bool_decide ((if decide (zlen b < batch) then Some EOF else None) = None)
    || bool_decide ((if decide (zlen b < batch) then Some EOF else None) = Some EOF) = true) as ->.
  { destruct (decide (zlen b < batch)); [by rewrite orb_true_r|].
    rewrite bool_decide_true by lia. done. }
  rewrite walk_rows_spec by (unfold zlen; lia). rewrite drop_0. unfold rows_out, walk_out.
  rewrite visit_app. destruct (visit fn (entries b) s) as [s' [err|]]; [done|].
  destruct (decide (zlen b < batch)) as [Hlt|Hge].
  - cbn [visit]. destruct (decide (entries b = [])) as [En|En].
    { by rewrite decide_True. }
    rewrite decide_False by done.
    assert (b ≠ []) as Hne by (intros E; by rewrite E in En).
    assert (0 < zlen b) by (destruct b; [done|zl]).
    rewrite read_rows_spec by lia.
    assert (sub r (off + zlen b) batch = []) as E by (apply sub_past; lia). rewrite E.
    destruct fuel; [lia|]. cbn. done.
  - rewrite decide_False by (by case_decide). rewrite read_rows_spec by lia.
    assert (zlen b = batch) as -> by (pose proof (zlen_nonneg b); lia).
    assert (zlen (sub r (off + batch) batch) = Z.max 0 (Z.min batch (zlen r - (off + batch))))
      as Hb' by (apply zlen_sub; lia).
    rewrite IH by lia. done.
Qed.

Lemma walk_file r startFrom s :
  0 ≤ startFrom → startFrom * NeedleMapEntrySize < 2 ^ 63 →
  WalkIndexFile fn r startFrom s
  = walk_out (entries (drop (Z.to_nat (startFrom * NeedleMapEntrySize)) r)) s.
Proof.
  intros Hs Hb. unfold WalkIndexFile. assert (0 ≤ startFrom * NeedleMapEntrySize).
  { unfold NeedleMapEntrySize, NeedleIdSize, StorageTypes.Offset.OffsetSize, SizeSize. lia. }
  set (off := startFrom * NeedleMapEntrySize) in *.
  rewrite (wrap_id 64), (swrap_id 64) by (unfold in_u, in_s; change (2 ^ (64 - 1)) with (2 ^ 63);
    assert (2 ^ 63 < 2 ^ 64) by done; lia).
  rewrite read_rows_spec by lia. pose proof (zlen_sub r off batch H) as Hl.
  case_decide as Hz.
  { destruct Hz as [Hz _]. assert (zlen r ≤ off) as Hr by lia. clear Hl Hz.
    rewrite entries_short; [done|]. rewrite length_drop. unfold zlen in Hr. lia. }
  assert (0 < zlen (sub r off batch)).
  { pose proof (zlen_nonneg (sub r off batch)).
    destruct (decide (zlen (sub r off batch) = 0)) as [E0|]; [|lia].
    destruct Hz. split; [done|]. by rewrite decide_True by lia. }
  assert (zlen r - off + 2 ≤ Z.of_nat (length r + 3) + Z.min 1 (zlen (sub r off batch)))
    as Hf by (unfold zlen at 1; lia).
  pose proof (walk_loop_spec (length r + 3) r off s H Hf ltac:(left; lia)) as W.
  cbv zeta in W. rewrite W. reflexivity.
Qed.

(** C39: the batched walk calls the function on every whole row from the starting
    row on, in file order, stops at its first error and ignores a partial last
    row; a file of any length is walked to the end. *)
Theorem walk_index_file r startFrom s :
  0 ≤ startFrom → startFrom * NeedleMapEntrySize < 2 ^ 63 →
  WalkIndexFile fn r startFrom s
  = let '(s, e) := visit fn (entries (drop (Z.to_nat (startFrom * NeedleMapEntrySize)) r)) s in
    (s, Ok e).
Proof. apply walk_file. Qed.
End walk.

Lemma walk_index_file_witness :
  WalkIndexFile (λ nv s, (s ++ [nv], None)) (row (Mk 7 (StorageTypes.Offset.Mk 0 0 0 1) 5)) 0 []
  = ([Mk 7 (StorageTypes.Offset.Mk 0 0 0 1) 5], Ok None).
Proof.
  rewrite (walk_index_file _ _ 0); [vm_compute; reflexivity|lia|reflexivity].
Defined.

(** ** Rows by position *)

Lemma entries_lookup b i :
  (i < length b / 16)%nat → entries b !! i = Some (entry_of (take 16 (drop (i * 16) b))).
Proof.
  revert b. induction i as [|i IH]; intros b Hi.
  - assert (16 ≤ length b)%nat.
    { destruct (decide (length b < 16)%nat); [|lia]. rewrite Nat.div_small in Hi; lia. }
    by rewrite entries_step.
  - assert (16 ≤ length b)%nat as Hl.
    { destruct (decide (length b < 16)%nat); [|lia]. rewrite Nat.div_small in Hi; lia. }
    rewrite entries_step by done. cbn [lookup list_lookup].
    change (entries (drop 16 b) !! i = Some (entry_of (take 16 (drop (S i * 16) b)))).
    rewrite IH, drop_drop; [do 3 f_equal; lia|]. rewrite length_drop.
    replace (length b) with (length b - 16 + 1 * 16)%nat in Hi by lia.
    rewrite Nat.div_add in Hi by lia. lia.
Qed.

Lemma length_entries b : length (entries b) = (length b / 16)%nat.
Proof. unfold entries. generalize (length b / 16)%nat as n. intros n. revert b.
  induction n; intros; cbn; auto. Qed.

Lemma row_at_entry b loc :
  0 ≤ loc → loc + 16 ≤ zlen b → row_at b loc = Ok (entry_of (sub b loc 16)).
Proof.
  intros Hl Hb. rewrite <- IdxFileEntry_ok.
  2: { pose proof (zlen_sub b loc 16 Hl) as E. unfold zlen in *. lia. }
  assert (zlen (sub b loc 16) = 16) as Hs by (rewrite zlen_sub; lia).
  assert (∀ a n, 0 ≤ a → 0 ≤ n → a + n ≤ 16 → ∃ w w', reslice (sl_of b) (loc + a) (loc + a + n) = Ok w
    ∧ reslice (sl_of (sub b loc 16)) a (a + n) = Ok w' ∧ sl_data w = sl_data w') as Hr.
  { intros a n Ha Hn Han. do 2 eexists. split_and!.
    - apply reslice_ok; [lia|]. unfold sl_cap; cbn [sl_of sl_buf]. lia.
    - apply reslice_ok; [lia|]. unfold sl_cap; cbn [sl_of sl_buf]. lia.
    - unfold sl_data; cbn [sl_buf sl_len sl_of].
      replace (loc + a + n - (loc + a)) with n by lia. replace (a + n - a) with n by lia.
      pose proof (sub_sub b loc 16 a n Hl Ha ltac:(lia)) as E.
      unfold sub in *. cbn. rewrite !drop_0. by rewrite E. }
  unfold row_at, IdxFileEntry. unfold NeedleIdSize, StorageTypes.Offset.OffsetSize, SizeSize.
  destruct (Hr 0 8) as (w1 & v1 & E1 & F1 & D1); [lia..|].
  destruct (Hr 8 4) as (w2 & v2 & E2 & F2 & D2); [lia..|].
  destruct (Hr 12 4) as (w3 & v3 & E3 & F3 & D3); [lia..|].
  rewrite Z.add_0_r in E1. change (0 + 8) with 8 in F1. change (8 + 4) with 12 in *.
  change (12 + 4) with 16 in *. replace (loc + 8 + 4) with (loc + 12) in * by lia.
  rewrite E1, F1, !bind_ok, D1. apply bind_ext; intros key.
  rewrite E2, F2, !bind_ok, D2. apply bind_ext; intros o.
  by rewrite E3, F3, !bind_ok, D3.
Qed.

Section search.
Context (b : bytes) (p : NeedleValue.t → bool).
Let len : Z := zlen b `div` 16.
Definition entry_at (i : Z) : NeedleValue.t := entry_of (sub b (i * 16) 16).
Hypothesis mono : ∀ i j, 0 ≤ i ≤ j → j < len → p (entry_at j) = true → p (entry_at i) = true.

Lemma search_loop_inv fuel left right index :
  0 ≤ left → right < len → left ≤ right + 1 → index = right + 1 →
  right - left < Z.of_nat fuel →
  (∀ i, 0 ≤ i < left → p (entry_at i) = true) →
  (∀ i, right < i < len → p (entry_at i) = false) →
  ∃ r, search_loop (λ nv, (p nv, None)) fuel b left right index = Ok r ∧ 0 ≤ r ≤ len ∧
    (∀ i, 0 ≤ i < r → p (entry_at i) = true) ∧ (∀ i, r ≤ i < len → p (entry_at i) = false).
Proof.
  revert left right index. induction fuel as [|fuel IH]; intros left right index Hl Hr Hlr -> Hf Hlo Hhi.
  { exists (right + 1). cbn. split_and!; [done|lia..| |]; intros; [apply Hlo|apply Hhi]; lia. }
  cbn [search_loop]. case_decide as Hle.
  2: { exists (right + 1). split_and!; [done|lia..| |]; intros; [apply Hlo|apply Hhi]; lia. }
  rewrite Z.shiftr_div_pow2 by lia. change (2 ^ 1) with 2.
  assert (left ≤ left + (right - left) `div` 2 ≤ right) as Hm by mlia.
  set (mid := left + (right - left) `div` 2) in *. clearbody mid.
  change NeedleMapEntrySize with 16.
  rewrite row_at_entry; [|lia|subst len; mlia]. rewrite bind_ok. fold (entry_at mid).
  destruct (p (entry_at mid)) eqn:Hp.
  - apply IH; try lia; [|done]. intros i Hi. destruct (decide (i < left)); [apply Hlo; lia|].
    apply (mono i mid); [lia|lia|done].
  - replace mid with (mid - 1 + 1) at 2 by lia.
    apply IH; try lia; [done|]. intros i Hi. destruct (decide (right < i)); [apply Hhi; lia|].
    destruct (p (entry_at i)) eqn:Hpi; [|done].
    rewrite (mono mid i) in Hp; [done|lia|lia|done].
Qed.

(** On a sorted file, the binary search returns the first row that fails the
    predicate, or the number of rows. *)
Theorem first_invalid_index :
  ∃ r, FirstInvalidIndex (λ nv, (p nv, None)) b = Ok r ∧ 0 ≤ r ≤ zlen b `div` NeedleMapEntrySize ∧
    (∀ i, 0 ≤ i < r → p (entry_at i) = true) ∧
    (∀ i, r ≤ i < zlen b `div` NeedleMapEntrySize → p (entry_at i) = false).
Proof.
  unfold FirstInvalidIndex. change NeedleMapEntrySize with 16. fold len.
  pose proof (zlen_nonneg b). assert (0 ≤ len) by (subst len; mlia).
  apply search_loop_inv; try lia. subst len. unfold zlen in *. mlia.
Qed.
End search.

Lemma first_invalid_index_witness :
  ∃ r, FirstInvalidIndex (λ nv, (bool_decide (Key nv ≤ 5), None))
         (row (Mk 3 StorageTypes.Offset.zero 1) ++ row (Mk 9 StorageTypes.Offset.zero 1)) = Ok r
       ∧ r = 1.
Proof.
  set (b := row (Mk 3 StorageTypes.Offset.zero 1) ++ row (Mk 9 StorageTypes.Offset.zero 1)).
  destruct (first_invalid_index b (λ nv, bool_decide (Key nv ≤ 5))) as (r & E & Hr & Hlo & Hhi).
  { intros i k Hik Hk. change (zlen b `div` 16) with 2 in Hk.
    assert (i = k ∨ i = 0 ∧ k = 1) as [->|[-> ->]] by lia; [done|vm_compute; discriminate]. }
  exists r. split; [exact E|]. change (zlen b `div` NeedleMapEntrySize) with 2 in *.
  destruct (decide (r = 0)) as [->|]; [specialize (Hhi 0 ltac:(lia)); vm_compute in Hhi; discriminate Hhi|].
  destruct (decide (r = 2)) as [->|]; [specialize (Hlo 1 ltac:(lia)); vm_compute in Hlo; discriminate Hlo|].
  lia.
Defined.

(** ** The integrity check *)

#[global] Instance ie_le_total : Total ie_le.
Proof. intros a b. unfold ie_le, Compare. repeat case_decide; lia. Qed.

Lemma ie_le_offset a b : ie_le a b → ie_offset a ≤ ie_offset b.
Proof. unfold ie_le, Compare. repeat case_decide; lia. Qed.

Section disjoint.
Context (version : Z).
Definition sized (e : indexEntry) : Prop := -1 ≤ ie_size e.
Definition first_byte (e : indexEntry) : Z := fst (extent version e).
Definition last_byte (e : indexEntry) : Z := snd (extent version e).
(** No byte of the volume belongs to both. *)
Definition apart (a b : indexEntry) : Prop :=
  last_byte a < first_byte b ∨ last_byte b < first_byte a.

Lemma extent_sized e : sized e → first_byte e = ie_offset e ∧ first_byte e ≤ last_byte e.
Proof.
  unfold sized, first_byte, last_byte, extent. intros. cbn [fst snd]. split; [done|].
  case_decide; [|lia].
  pose proof (Layout.padding_range (ie_size e) version).
  unfold Needle.GetActualSize, Needle.NeedleBodyLength, NeedleHeaderSize, CookieSize, NeedleIdSize,
    SizeSize, Needle.NeedleChecksumSize, TimestampSize. case_decide; lia.
Qed.

(** [check_pass] finds nothing exactly when neighbours do not overlap. *)
Fixpoint neighbours (last : indexEntry) (es : list indexEntry) : Prop :=
  match es with
  | [] => True
  | e :: es => last_byte last < first_byte e ∧ neighbours e es
  end.

Lemma check_pass_nil last es : check_pass version (Some last) es = [] ↔ neighbours last es.
Proof.
  revert last. induction es as [|e es IH]; intros last; [done|].
  cbn [check_pass neighbours]. rewrite <- IH. unfold last_byte, first_byte.
  destruct (extent version e) as [st en], (extent version last) as [ls le]; cbn [fst snd].
  case_decide; [split; [done|lia]|]. split; [|by intros [_ ->]]. intros E.
  split; [lia|exact E].
Qed.

Lemma neighbours_all last es :
  Forall sized es → neighbours last es → Forall (λ e, last_byte last < first_byte e) es.
Proof.
  revert last. induction es as [|e es IH]; intros last Hs; [constructor|].
  apply Forall_cons in Hs as [He Hs]. intros [H1 H2]. constructor; [done|].
  eapply Forall_impl; [exact (IH e Hs H2)|]. intros x Hx. cbv beta in *.
  destruct (extent_sized e He). lia.
Qed.

Lemma neighbours_apart last es :
  Forall sized (last :: es) → Sorted ie_le (last :: es) →
  neighbours last es ↔ ForallOrdPairs apart (last :: es).
Proof.
  revert last. induction es as [|e es IH]; intros last Hs Hso.
  { split; [|done]. intros _. repeat constructor. }
  apply Forall_cons in Hs as [Hl Hs]. apply Sorted_inv in Hso as [Hso Hhd].
  pose proof Hs as Hs'. apply Forall_cons in Hs' as [He _].
  inversion Hhd as [|? ? Hle]; subst. apply ie_le_offset in Hle.
  destruct (extent_sized last Hl), (extent_sized e He). cbn [neighbours]. split.
  - intros [H3 H4]. constructor; [|by apply IH].
    eapply Forall_impl; [exact (neighbours_all last (e :: es) Hs (conj H3 H4))|].
    intros x Hx. by left.
  - intros H3. inversion H3 as [|? ? Hall Hfop]; subst. apply IH in Hfop; [|done..].
    split; [|done]. apply Forall_cons in Hall as [[?|?] _]; lia.
Qed.

Lemma apart_sym a b : apart a b → apart b a.
Proof. unfold apart. tauto. Qed.

Lemma ordpairs_perm l k : l ≡ₚ k → ForallOrdPairs apart l → ForallOrdPairs apart k.
Proof.
  induction 1 as [|x l k Hp IH|x y l|l k m _ IH1 _ IH2]; [done| |  |by auto].
  - intros H. inversion H; subst. constructor; [by rewrite <- Hp|auto].
  - intros H. inversion H as [|? ? H1 H2]; subst. inversion H2 as [|? ? H3 H4]; subst.
    apply Forall_cons in H1 as [H1 H5]. constructor; [|by constructor].
    apply Forall_cons; auto using apart_sym.
Qed.

Lemma check_sorted l :
  Forall sized l → check_pass version None (merge_sort ie_le l) = [] ↔ ForallOrdPairs apart l.
Proof.
  intros Hs. pose proof (merge_sort_Permutation ie_le l) as Hp.
  pose proof (Sorted_merge_sort ie_le l) as Hso.
  rewrite <- Hp in Hs.
  transitivity (ForallOrdPairs apart (merge_sort ie_le l));
    [|split; apply ordpairs_perm; [done|by symmetry]].
  destruct (merge_sort ie_le l) as [|e es]; [split; [constructor|done]|].
  cbn [check_pass]. by rewrite check_pass_nil, neighbours_apart.
Qed.
End disjoint.

(** The entries as the check numbers them. *)
Definition index_entries (r : bytes) : list indexEntry :=
  imap (λ i nv, Entry (Z.of_nat i) (Key nv)
                  (StorageTypes.Offset.ToActualOffset (Offset nv)) (Size nv)) (entries r).

Lemma visit_collect es s :
  visit collect es s =
    (s ++ imap (λ i nv, Entry (zlen s + Z.of_nat i) (Key nv)
                  (StorageTypes.Offset.ToActualOffset (Offset nv)) (Size nv)) es, None).
Proof.
  revert s. induction es as [|nv es IH]; intros s; cbn.
  { by rewrite app_nil_r. }
  rewrite IH, <- app_assoc. do 2 f_equal. cbn. f_equal; [f_equal; lia|].
  apply imap_ext. intros i x _. cbn. f_equal. zl.
Qed.

Lemma check_index_out r indexFileSize version :
  CheckIndexFile r indexFileSize version =
    let l := merge_sort ie_le (index_entries r) in
    let errs := check_pass version None l in
    let got := zlen l * NeedleMapEntrySize in
    Ok (zlen l, if decide (got ≠ indexFileSize)
                then errs ++ [SizeMismatch indexFileSize got] else errs).
Proof.
  unfold CheckIndexFile. rewrite walk_file by done. unfold walk_out. rewrite visit_collect.
  rewrite bind_ok. unfold index_entries. rewrite drop_0. reflexivity.
Qed.

(** For entries with live or tombstone sizes, the check reports nothing exactly
    when no two entries share a byte of the volume and the file is whole rows of
    the announced size. *)
Theorem check_index_file r indexFileSize version :
  Forall sized (index_entries r) →
  (∃ n, CheckIndexFile r indexFileSize version = Ok (n, [])) ↔
  ForallOrdPairs (apart version) (index_entries r) ∧
  indexFileSize = Z.of_nat (length (entries r)) * NeedleMapEntrySize.
Proof.
  intros Hs. rewrite check_index_out. cbv zeta.
  assert (zlen (merge_sort ie_le (index_entries r)) = Z.of_nat (length (entries r))) as ->.
  { unfold zlen. rewrite merge_sort_Permutation. unfold index_entries. by rewrite length_imap. }
  rewrite <- (check_sorted version _ Hs). split.
  - intros [n E]. apply Ok_inj, pair_equal_spec in E as [_ E]. case_decide as Hd.
    + by destruct (check_pass _ _ _).
    + split; [done|]. destruct (decide (indexFileSize = Z.of_nat (length (entries r)) * NeedleMapEntrySize));
        [done|]. destruct Hd. congruence.
  - intros [E ->]. rewrite E, decide_False by (intros N; by apply N). by eexists.
Qed.

Lemma check_index_file_witness :
  ∃ n, CheckIndexFile (row (Mk 3 (StorageTypes.Offset.Mk 0 0 0 1) 5)
                       ++ row (Mk 9 (StorageTypes.Offset.Mk 0 0 0 6) 5)) 32 Needle.Version3 = Ok (n, []).
Proof.
  apply (check_index_file (row (Mk 3 (StorageTypes.Offset.Mk 0 0 0 1) 5)
                       ++ row (Mk 9 (StorageTypes.Offset.Mk 0 0 0 6) 5)) 32 Needle.Version3).
  - repeat (constructor; [vm_compute; discriminate|]). constructor.
  - split; [|reflexivity]. constructor; [constructor; [left; vm_compute; reflexivity|constructor]|].
    constructor; [constructor|constructor].
Defined.

End IdxSpec.

(** ** Files of whole rows *)
Module IdxRows.
Import NeedleValue Idx IdxSpec.

Definition rows (nvs : list NeedleValue.t) : bytes := concat (row <$> nvs).

Lemma rows_app a b : rows (a ++ b) = rows a ++ rows b.
Proof. unfold rows. by rewrite fmap_app, concat_app. Qed.

Lemma length_rows nvs : length (rows nvs) = (length nvs * 16)%nat.
Proof.
  induction nvs as [|nv nvs IH]; [done|].
  change (rows (nv :: nvs)) with (row nv ++ rows nvs). rewrite length_app, row_length, IH. cbn. lia.
Qed.
Lemma zlen_rows nvs : zlen (rows nvs) = zlen nvs * 16.
Proof. unfold zlen. rewrite length_rows. lia. Qed.

Lemma rows_split nvs m nv :
  nvs !! m = Some nv → rows nvs = rows (take m nvs) ++ row nv ++ rows (drop (S m) nvs).
Proof.
  intros H. rewrite <- (take_drop_middle nvs m nv H) at 1. rewrite rows_app.
  by change (rows (nv :: drop (S m) nvs)) with (row nv ++ rows (drop (S m) nvs)).
Qed.

Lemma zlen_rows_take nvs m nv : nvs !! m = Some nv → zlen (rows (take m nvs)) = Z.of_nat m * 16.
Proof.
  intros H. apply lookup_lt_Some in H. rewrite zlen_rows. unfold zlen. rewrite length_take. lia.
Qed.

Lemma row_read nvs m nv :
  nvs !! m = Some nv → OsFile.ReadAt (rows nvs) (Z.of_nat m * 16) 16 = (row nv, None).
Proof.
  intros H. pose proof (zlen_rows_take nvs m nv H) as Ht. rewrite (rows_split nvs m nv H).
  rewrite OsFile.ReadAt_full; [|lia|lia|].
  - f_equal. apply sub_mid; [lia|]. unfold zlen. by rewrite row_length.
  - rewrite !zlen_app, Ht. unfold zlen at 1. rewrite row_length. pose proof (zlen_nonneg (rows (drop (S m) nvs))). lia.
Qed.

Lemma entries_rows nvs : Forall NeedleValue.wf nvs → entries (rows nvs) = nvs.
Proof.
  induction 1 as [|nv nvs Hw _ IH]; [done|].
  change (rows (nv :: nvs)) with (row nv ++ rows nvs).
  rewrite (entries_app_rows 1) by done. rewrite IH.
  rewrite entries_step by done. rewrite take_ge by (by rewrite row_length).
  rewrite entry_of_row by done. done.
Qed.

End IdxRows.
