(* ===== verification/MemDb.v ===== *)
(** * MemDb: the needle index as an in-memory key-value store
    (weed/storage/needle_map/memdb.go)

    Used to sort an index file by key.  The store itself is goleveldb: a byte-string
    map with lexicographic iteration, given here by its interface and laws. *)

From S2P Require Import Prelude GoStd Bytes SortedList StorageTypes Idx.

(** ** The store *)

(** The order of [bytes.Compare]. *)
Fixpoint bytes_lt (a b : bytes) : Prop :=
  match a, b with
  | _, [] => False
  | [], _ :: _ => True
  | x :: a, y :: b => x < y ∨ x = y ∧ bytes_lt a b
  end.

Class LevelDb (D : Type) := {
  db_new : D;
  db_Put : D → bytes → bytes → D * option go_error;
  db_Delete : D → bytes → D * option go_error;
  db_Get : D → bytes → res bytes;
  (** The pairs an iterator visits from [First] on with [Next]. *)
  db_iter : D → list (bytes * bytes) }.

Class LevelDbLaws (D : Type) `{LevelDb D} := {
  db_view : D → bytes → option bytes;
  new_law k : db_view db_new k = None;
  get_db_law d k : db_Get d k = match db_view d k with Some v => Ok v | None => Fail NotFoundError end;
  put_law d k v : ∃ d', db_Put d k v = (d', None) ∧
    ∀ j, db_view d' j = if decide (k = j) then Some v else db_view d j;
  remove_law d k : ∃ d', db_Delete d k = (d', None) ∧
    ∀ j, db_view d' j = if decide (k = j) then None else db_view d j;
  iter_sorted d : StronglySorted bytes_lt (db_iter d).*1;
  iter_view d k v : (k, v) ∈ db_iter d ↔ db_view d k = Some v }.

Module MemDb.
Import NeedleValue.

Section memdb.
Context {D : Type} `{LevelDb D}.

Definition NewMemDb : D := db_new.

(** Put [bytes[0:8]] to [bytes[8:16]]. *)
Definition Set_ (cm : D) (key : Z) (offset : StorageTypes.Offset.t) (size : Z) : res (D * option go_error) :=
  b ← NeedleValue.ToBytes key offset size;
  k ← reslice (sl_of b) 0 NeedleIdSize;
  v ← reslice (sl_of b) NeedleIdSize (NeedleIdSize + StorageTypes.Offset.OffsetSize + SizeSize);
  match db_Put cm (sl_data k) (sl_data v) with
  | (cm, Some _) => mret (cm, Some (Errorf "failed to write temp leveldb: %w"))
  | (cm, None) => mret (cm, None)
  end.

Definition Delete (cm : D) (key : Z) : res (D * option go_error) :=
  b ← NeedleIdToBytes (zeros NeedleIdSize) key;
  mret (db_Delete cm b).

(** The offset and size of a stored value. *)
Definition value_of (data : bytes) : res (StorageTypes.Offset.t * Z) :=
  o ← reslice (sl_of data) 0 StorageTypes.Offset.OffsetSize;
  offset ← StorageTypes.Offset.BytesToOffset (sl_data o);
  s ← reslice (sl_of data) StorageTypes.Offset.OffsetSize (StorageTypes.Offset.OffsetSize + SizeSize);
  size ← Size.BytesToSize (sl_data s);
  mret (offset, size).

Definition Get (cm : D) (key : Z) : res (option NeedleValue.t) :=
  b ← NeedleIdToBytes (zeros NeedleIdSize) key;
  match db_Get cm b with
  | Ok data =>
      if decide (zlen data ≠ StorageTypes.Offset.OffsetSize + SizeSize) then mret None
      else '(offset, size) ← value_of data; mret (Some (Mk key offset size))
  | _ => mret None
  end.

Section visit.
Context {S : Type} (visit : NeedleValue.t → S → S * option go_error).

Definition doVisit (kv : bytes * bytes) (s : S) : res (S * option go_error) :=
  key ← BytesToNeedleId kv.1;
  '(offset, size) ← value_of kv.2;
  mret (visit (Mk key offset size) s).

Fixpoint visit_pairs (l : list (bytes * bytes)) (s : S) : res (S * option go_error) :=
  match l with
  | [] => mret (s, None)
  | kv :: l =>
      '(s, ret) ← doVisit kv s;
      match ret with
      | Some e => mret (s, Some e)
      | None => visit_pairs l s
      end
  end.
Definition AscendingVisit (cm : D) (s : S) : res (S * option go_error) := visit_pairs (db_iter cm) s.
Definition DescendingVisit (cm : D) (s : S) : res (S * option go_error) :=
  visit_pairs (reverse (db_iter cm)) s.
End visit.

(** The live entries, in key order, as an index file. *)
Definition save_step (value : NeedleValue.t) (out : res bytes) : res bytes * option go_error :=
  if StorageTypes.Offset.IsZero (Offset value) || Size.IsDeleted (Size value) then (out, None)
  else ((o ← out; b ← NeedleValue.NeedleValue_ToBytes value; Ok (o ++ b)), None).
Definition SaveToIdx (cm : D) : res (res bytes * option go_error) :=
  AscendingVisit save_step cm (Ok []).

(** A panic in the callback unwinds the walk: the state stays [Panic]. *)
Definition load_step (isFilterOffsetZero isFilterDeleted : bool) (nv : NeedleValue.t) (st : res D)
    : res D * option go_error :=
  match st with
  | Ok cm =>
      let filtered := (isFilterOffsetZero && StorageTypes.Offset.IsZero (Offset nv))
                      || (isFilterDeleted && Size.IsDeleted (Size nv)) in
      match (if filtered then Delete cm (Key nv) else Set_ cm (Key nv) (Offset nv) (Size nv)) with
      | Ok (cm, err) => (Ok cm, err)
      | Fail e => (Fail e, None)
      | Panic => (Panic, None)
      end
  | st => (st, None)
  end.

Definition LoadFilterFromReaderAt (cm : D) (reader : bytes) (isFilterOffsetZero isFilterDeleted : bool)
    : res D * res (option go_error) :=
  Idx.WalkIndexFile (load_step isFilterOffsetZero isFilterDeleted) reader 0 (Ok cm).
Definition LoadFromReaderAt (cm : D) (reader : bytes) : res D * res (option go_error) :=
  LoadFilterFromReaderAt cm reader true true.
End memdb.
End MemDb.

(** ** A sorted index *)
Module MemDbSpec.
Import NeedleValue IdxRows MemDb.

(** Big-endian keys compare as numbers. *)
Lemma be_split_lt n a b :
  in_u (8 * Z.of_nat n) a → in_u (8 * Z.of_nat n) b → bytes_lt (be_split n a) (be_split n b) → a < b.
Proof.
  assert (∀ l k, bytes_ok l → bytes_ok k → length l = length k → bytes_lt l k → be_val l < be_val k) as Hlt.
  { clear. induction l as [|x l IH]; intros [|y k] Hl Hk Hlen H; try done.
    apply Forall_cons in Hl as [Hx Hl], Hk as [Hy Hk]. injection Hlen as Hlen.
    rewrite !be_val_cons. pose proof (be_val_bound l Hl) as Bl. pose proof (be_val_bound k Hk) as Bk.
    assert (zlen k = zlen l) as E by (unfold zlen; lia). rewrite E in *.
    destruct H as [H|[-> H]]; [nia|]. specialize (IH k Hl Hk Hlen H). lia. }
  intros Ha Hb H. apply Hlt in H; [|auto with bytes..|by rewrite !length_be_split].
  rewrite !be_val_split, !Z.mod_small in H by done. done.
Qed.

(** The stored value of an entry. *)
Definition stored (nv : NeedleValue.t) : bytes * bytes :=
  (be_split 8 (Key nv),
   [StorageTypes.Offset.b3 (Offset nv); StorageTypes.Offset.b2 (Offset nv);
    StorageTypes.Offset.b1 (Offset nv); StorageTypes.Offset.b0 (Offset nv)]
   ++ be_split 4 (u32 (Size nv))).

Lemma stored_key nv k v : stored nv = (k, v) → be_split 8 (Key nv) = k.
Proof. intros E. exact (f_equal fst E). Qed.

Abbreviation index := (gmap Z (StorageTypes.Offset.t * Z)).
Definition at_key (m : index) (nv : NeedleValue.t) : Prop :=
  m !! Key nv = Some (Offset nv, Size nv).

Section spec.
Context {D : Type} `{DL : LevelDbLaws D}.

(** The store holds the entries of [m]. *)
Record holds (d : D) (m : index) : Prop := {
  holds_wf nv : at_key m nv → NeedleValue.wf nv;
  holds_view k v : db_view d k = Some v ↔ ∃ nv, at_key m nv ∧ stored nv = (k, v) }.

Lemma key_inj a b : in_u 64 a → in_u 64 b → be_split 8 a = be_split 8 b → a = b.
Proof.
  intros Ha Hb E. apply (f_equal be_val) in E. by rewrite !be_val_split, !Z.mod_small in E.
Qed.

Lemma new_holds : holds NewMemDb ∅.
Proof.
  split; unfold at_key.
  - intros nv Hn. by rewrite lookup_empty in Hn.
  - intros k v. unfold NewMemDb. rewrite new_law. split; [done|]. intros (nv & Hn & _).
    by rewrite lookup_empty in Hn.
Qed.

Lemma set_holds d m nv :
  holds d m → NeedleValue.wf nv →
  ∃ d', Set_ d (Key nv) (Offset nv) (Size nv) = Ok (d', None) ∧
    holds d' (<[Key nv := (Offset nv, Size nv)]> m).
Proof.
  intros [Hw Hv] Hnv. destruct (put_law d (stored nv).1 (stored nv).2) as (d' & E & Hd').
  exists d'. split.
  - unfold Set_. pose proof (ToBytes_row nv) as Et. unfold NeedleValue_ToBytes in Et. rewrite Et, bind_ok.
    destruct (reslice_at (sl_of (row nv)) [] (be_split 8 (Key nv)) (stored nv).2 0 NeedleIdSize)
      as (w1 & -> & E1 & _); [done..|]. rewrite bind_ok.
    destruct (reslice_at (sl_of (row nv)) (be_split 8 (Key nv)) (stored nv).2 [] NeedleIdSize
      (NeedleIdSize + StorageTypes.Offset.OffsetSize + SizeSize)) as (w2 & -> & E2 & _); [done..|].
    rewrite bind_ok, E1, E2. change (be_split 8 (Key nv)) with (stored nv).1. by rewrite E.
  - assert (∀ nv', NeedleValue.wf nv' → (stored nv').1 = (stored nv).1 → Key nv' = Key nv) as Hinj.
    { intros nv' Hw' Ek. apply key_inj; [apply Hw'|apply Hnv|done]. }
    split; unfold at_key.
    + intros nv' H'. destruct (decide (Key nv = Key nv')) as [Ek|Hne].
      * rewrite <- Ek, lookup_insert_eq in H'. injection H' as E1 E2.
        destruct nv, nv'; cbn in *; by subst.
      * rewrite lookup_insert_ne in H' by done. by apply Hw.
    + intros k v. rewrite Hd'. case_decide as Hk.
      * split.
        { intros [= <-]. exists nv. rewrite lookup_insert_eq. split; [done|]. by rewrite <- Hk. }
        intros (nv' & H' & Es). destruct (decide (Key nv = Key nv')) as [Ek|Hne].
        -- rewrite <- Ek, lookup_insert_eq in H'. injection H' as E1 E2.
           assert (nv' = nv) as -> by (destruct nv, nv'; cbn in *; by subst). by rewrite Es.
        -- rewrite lookup_insert_ne in H' by done. destruct Hne. symmetry. apply Hinj; [by apply Hw|].
           by rewrite Es.
      * rewrite Hv. split; intros (nv' & H' & Es); exists nv'; (split; [|done]).
        -- rewrite lookup_insert_ne; [done|]. intros Ek. destruct Hk. change (stored nv).1 with (be_split 8 (Key nv)). rewrite Ek. by eapply stored_key.
        -- destruct (decide (Key nv = Key nv')) as [Ek|Hne]; [|by rewrite lookup_insert_ne in H'].
           destruct Hk. change (stored nv).1 with (be_split 8 (Key nv)). rewrite Ek. by eapply stored_key.
Qed.

Lemma delete_holds d m k :
  holds d m → in_u 64 k → ∃ d', Delete d k = Ok (d', None) ∧ holds d' (delete k m).
Proof.
  intros [Hw Hv] Hk. destruct (remove_law d (be_split 8 k)) as (d' & E & Hd'). exists d'. split.
  { unfold Delete, NeedleIdToBytes. rewrite be_store_64, bind_ok by done. unfold mret, res_ret. by rewrite E. }
  split; unfold at_key.
  - intros nv Hn. apply lookup_delete_Some in Hn as [_ Hn]. by apply Hw.
  - intros j v. rewrite Hd'. case_decide as Hj.
    + split; [done|]. intros (nv & Hn & Es). apply lookup_delete_Some in Hn as [Hne Hn].
      destruct Hne. apply key_inj; [done|by apply (Hw nv)|]. rewrite Hj. symmetry. by eapply stored_key.
    + rewrite Hv. split; intros (nv & Hn & Es); exists nv; (split; [|done]).
      * apply lookup_delete_Some. split; [|done]. intros ->. destruct Hj. by eapply stored_key.
      * by apply lookup_delete_Some in Hn as [_ Hn].
Qed.

Lemma value_of_stored nv : NeedleValue.wf nv → value_of (stored nv).2 = Ok (Offset nv, Size nv).
Proof.
  intros (_ & Ho & Hs). unfold value_of. destruct nv as [k [x3 x2 x1 x0] s]; cbn [Key Offset Size] in *.
  set (o := [x3; x2; x1; x0]). set (b := be_split 4 (u32 s)).
  assert ((stored (Mk k (StorageTypes.Offset.Mk x3 x2 x1 x0) s)).2 = o ++ b) as -> by done.
  destruct (reslice_at (sl_of (o ++ b)) [] o b 0 StorageTypes.Offset.OffsetSize) as (w1 & -> & E1 & _); [done..|].
  rewrite bind_ok, E1. subst o. rewrite StorageTypes.Offset.bytes_offset, bind_ok.
  destruct (reslice_at (sl_of ([x3; x2; x1; x0] ++ b)) [x3; x2; x1; x0] b [] StorageTypes.Offset.OffsetSize
    (StorageTypes.Offset.OffsetSize + SizeSize)) as (w2 & -> & E2 & _); [by rewrite app_nil_r|done..|].
  rewrite bind_ok, E2. unfold Size.BytesToSize, BytesToUint32. subst b.
  rewrite load_split, !bind_ok by (lia || (apply wrap_range; lia)). by rewrite swrap_wrap by (done || lia).
Qed.

Lemma get_holds d m k :
  holds d m → in_u 64 k →
  Get d k = Ok ((λ '(o, s), Mk k o s) <$> m !! k).
Proof.
  intros [Hw Hv] Hk. unfold Get, NeedleIdToBytes. rewrite be_store_64, bind_ok by done.
  rewrite get_db_law. destruct (m !! k) as [[o s]|] eqn:Em.
  - assert (at_key m (Mk k o s)) as Ha by done.
    assert (db_view d (be_split 8 k) = Some (stored (Mk k o s)).2) as -> by (apply Hv; eauto).
    rewrite decide_False by (intros Hne; apply Hne; reflexivity).
    rewrite value_of_stored by (by apply Hw). done.
  - destruct (db_view d (be_split 8 k)) as [v|] eqn:Ev; [|done]. apply Hv in Ev as (nv & Hn & Es).
    assert (k = Key nv) as ->; [|unfold at_key in Hn; by rewrite Hn in Em].
    apply key_inj; [done|by apply (Hw nv)|]. symmetry. by eapply stored_key.
Qed.

(** The entries in key order. *)
Lemma iter_entries d m :
  holds d m →
  ∃ nvs, db_iter d = stored <$> nvs ∧ StronglySorted Z.lt (Key <$> nvs) ∧
    Forall NeedleValue.wf nvs ∧ ∀ nv, nv ∈ nvs ↔ at_key m nv.
Proof.
  intros [Hw Hv].
  assert (∀ l, (∀ kv, kv ∈ l → kv ∈ db_iter d) → ∃ nvs, l = stored <$> nvs ∧ Forall (at_key m) nvs) as Hex.
  { induction l as [|[k v] l IH]; intros Hin; [by exists []|].
    destruct IH as (nvs & -> & Hf); [intros; apply Hin; by right|].
    pose proof (Hin (k, v) ltac:(by left)) as H1. apply iter_view, Hv in H1 as (nv & Hn & Es).
    exists (nv :: nvs). split; [by rewrite fmap_cons, Es|by constructor]. }
  destruct (Hex (db_iter d)) as (nvs & E & Hf); [done|]. exists nvs.
  assert (Forall NeedleValue.wf nvs) as Hfw by (eapply Forall_impl; [done|apply Hw]).
  split_and!; [done| |done|].
  - pose proof (iter_sorted d) as Hs. rewrite E in Hs. clear -Hs Hfw. induction Hfw as [|nv nvs H0 Hfw IH];
      [constructor|]. apply StronglySorted_inv in Hs as [Hs Hall]. constructor; [by apply IH|].
    rewrite Forall_forall in Hall. apply Forall_forall. intros k Hk. apply list_elem_of_fmap in Hk as (x & -> & Hx).
    apply (be_split_lt 8); [apply H0|rewrite Forall_forall in Hfw; by apply Hfw|].
    apply (Hall (stored x).1), (list_elem_of_fmap_2 fst), (list_elem_of_fmap_2 stored), Hx.
  - intros nv. split; [rewrite Forall_forall in Hf; apply Hf|]. intros Hn.
    assert (stored nv ∈ db_iter d) as Hin.
    { destruct (stored nv) as [k v] eqn:Es. apply iter_view, Hv. eauto. }
    rewrite E in Hin. apply list_elem_of_fmap in Hin as (x & Ex & Hx).
    rewrite Forall_forall in Hf, Hfw. specialize (Hf x Hx). specialize (Hfw x Hx).
    assert (Key x = Key nv) as Ek.
    { apply key_inj; [apply Hfw|by apply (Hw nv)|]. symmetry. exact (f_equal fst Ex). }
    unfold at_key in *. rewrite Ek, Hn in Hf. injection Hf as E1 E2.
    destruct x, nv; cbn in *; by subst.
Qed.

Lemma visit_stored {S} (visit : NeedleValue.t → S → S * option go_error) nvs s :
  Forall NeedleValue.wf nvs → visit_pairs visit (stored <$> nvs) s = Ok (IdxSpec.visit visit nvs s).
Proof.
  intros Hf. revert s. induction Hf as [|nv nvs Hw Hf IH]; intros s; [done|].
  cbn [fmap list_fmap visit_pairs]. unfold doVisit.
  change (stored nv).1 with (be_split 8 (Key nv)).
  unfold BytesToNeedleId, BytesToUint64. rewrite load_split, bind_ok by (apply Hw || lia).
  rewrite value_of_stored, !bind_ok by done. cbn [IdxSpec.visit].
  replace (Mk (Key nv) (Offset nv) (Size nv)) with nv by (by destruct nv).
  destruct (visit nv s) as [s' [e|]]; [done|apply IH].
Qed.

Lemma visit_holds {S} (visit : NeedleValue.t → S → S * option go_error) d m s :
  holds d m →
  ∃ nvs, AscendingVisit visit d s = Ok (IdxSpec.visit visit nvs s) ∧ StronglySorted Z.lt (Key <$> nvs) ∧
    Forall NeedleValue.wf nvs ∧ ∀ nv, nv ∈ nvs ↔ at_key m nv.
Proof.
  intros Hh. destruct (iter_entries d m Hh) as (nvs & E & Hs & Hw & He). exists nvs.
  split_and!; [|done..]. unfold AscendingVisit. rewrite E. by apply visit_stored.
Qed.

(** ** Loading an index file *)

Definition live (nv : NeedleValue.t) : bool :=
  negb (StorageTypes.Offset.IsZero (Offset nv)) && negb (Size.IsDeleted (Size nv)).

(** The effect of a row, and of a file. *)
Definition row_effect (m : index) (nv : NeedleValue.t) : index :=
  if live nv then <[Key nv := (Offset nv, Size nv)]> m else delete (Key nv) m.
Definition live_index (nvs : list NeedleValue.t) : index := foldl row_effect ∅ nvs.

Lemma load_rows nvs d m :
  holds d m → Forall NeedleValue.wf nvs →
  ∃ d', IdxSpec.visit (load_step true true) nvs (Ok d) = (Ok d', None) ∧ holds d' (foldl row_effect m nvs).
Proof.
  intros Hh Hf. revert d m Hh. induction Hf as [|nv nvs Hw Hf IH]; intros d m Hh; [by exists d|].
  cbn [IdxSpec.visit foldl]. unfold load_step at 1. cbn [andb].
  assert (∃ d', (if StorageTypes.Offset.IsZero (Offset nv) || Size.IsDeleted (Size nv)
                 then Delete d (Key nv) else Set_ d (Key nv) (Offset nv) (Size nv)) = Ok (d', None)
                ∧ holds d' (row_effect m nv)) as (d' & -> & Hd').
  { unfold row_effect, live. rewrite <- negb_orb.
    destruct (_ || _); cbn [negb]; [apply delete_holds; [done|apply Hw]|by apply set_holds]. }
  by apply IH.
Qed.
End spec.
End MemDbSpec.

(** ** A store that satisfies the laws: a sorted association list *)
Module SortedDb.

#[global] Instance bytes_lt_dec a b : Decision (bytes_lt a b).
Proof.
  revert b. induction a as [|x a IH]; intros [|y b]; cbn; try (left; exact I); try (right; tauto).
  apply _.
Defined.

Lemma bytes_lt_irrefl a : ¬ bytes_lt a a.
Proof. induction a as [|x a IH]; cbn; [tauto|]. intros [?|[_ ?]]; [lia|done]. Qed.
Lemma bytes_lt_trans a b c : bytes_lt a b → bytes_lt b c → bytes_lt a c.
Proof.
  revert b c. induction a as [|x a IH]; intros [|y b] [|z c]; cbn; try tauto.
  intros [?|[-> ?]] [?|[-> ?]]; [left; lia|by left|by left|]. right. split; [done|]. by eapply IH.
Qed.
Lemma bytes_lt_total a b : a ≠ b → ¬ bytes_lt a b → bytes_lt b a.
Proof.
  revert b. induction a as [|x a IH]; intros [|y b] Hne Hlt; cbn in *; [done|tauto|tauto|].
  destruct (decide (x = y)) as [->|]; [|left; lia]. right. split; [done|]. apply IH; [congruence|tauto].
Qed.

Record t := Db { pairs : list (bytes * bytes); pairs_sorted : StronglySorted bytes_lt pairs.*1 }.

Fixpoint lookup_pair (l : list (bytes * bytes)) (k : bytes) : option bytes :=
  match l with
  | [] => None
  | (k', v) :: l => if decide (k = k') then Some v else lookup_pair l k
  end.
Fixpoint put_pair (l : list (bytes * bytes)) (k v : bytes) : list (bytes * bytes) :=
  match l with
  | [] => [(k, v)]
  | (k', v') :: l =>
      if decide (k = k') then (k, v) :: l
      else if decide (bytes_lt k k') then (k, v) :: (k', v') :: l else (k', v') :: put_pair l k v
  end.
Definition remove_pair (l : list (bytes * bytes)) (k : bytes) : list (bytes * bytes) :=
  filter (λ kv, kv.1 ≠ k) l.

Lemma put_elem l k v x : x ∈ (put_pair l k v).*1 → x = k ∨ x ∈ l.*1.
Proof.
  induction l as [|[k' v'] l IH]; cbn; [rewrite list_elem_of_singleton; auto|].
  repeat case_decide; cbn; rewrite !elem_of_cons; tauto.
Qed.

Lemma sorted_cons_elem l k : StronglySorted bytes_lt l → (∀ x, x ∈ l → bytes_lt k x) → StronglySorted bytes_lt (k :: l).
Proof. intros. constructor; [done|]. by apply Forall_forall. Qed.

Lemma put_sorted l k v : StronglySorted bytes_lt l.*1 → StronglySorted bytes_lt (put_pair l k v).*1.
Proof.
  induction l as [|[k' v'] l IH]; cbn; intros Hs; [repeat constructor|].
  apply StronglySorted_inv in Hs as [Hs Hall]. rewrite Forall_forall in Hall.
  repeat case_decide; cbn.
  - subst. by apply sorted_cons_elem.
  - apply sorted_cons_elem; [by apply sorted_cons_elem|]. intros x Hx.
    apply elem_of_cons in Hx as [->|Hx]; [done|]. eapply bytes_lt_trans; eauto.
  - apply sorted_cons_elem; [by apply IH|]. intros x Hx. apply put_elem in Hx as [->|Hx]; [|by apply Hall].
    by apply bytes_lt_total.
Qed.

Lemma remove_sorted l k : StronglySorted bytes_lt l.*1 → StronglySorted bytes_lt (remove_pair l k).*1.
Proof.
  unfold remove_pair. induction l as [|[k' v'] l IH]; intros Hs; [done|]. rewrite filter_cons.
  apply StronglySorted_inv in Hs as [Hs Hall]. case_decide; [|by apply IH].
  apply sorted_cons_elem; [by apply IH|]. rewrite Forall_forall in Hall. intros x Hx. apply Hall.
  apply list_elem_of_fmap in Hx as (y & -> & Hy). apply list_elem_of_filter in Hy as [_ Hy].
  by apply (list_elem_of_fmap_2 fst).
Qed.

#[global] Instance leveldb : LevelDb t := {
  db_new := Db [] (SSorted_nil _);
  db_Put d k v := (Db (put_pair (pairs d) k v) (put_sorted _ k v (pairs_sorted d)), None);
  db_Delete d k := (Db (remove_pair (pairs d) k) (remove_sorted _ k (pairs_sorted d)), None);
  db_Get d k := match lookup_pair (pairs d) k with Some v => Ok v | None => Fail NotFoundError end;
  db_iter := pairs }.

Lemma lookup_elem l k v : StronglySorted bytes_lt l.*1 → (k, v) ∈ l ↔ lookup_pair l k = Some v.
Proof.
  induction l as [|[k' v'] l IH]; cbn; intros Hs.
  { split; [|done]. intros Hx. by apply not_elem_of_nil in Hx. }
  apply StronglySorted_inv in Hs as [Hs Hall]. rewrite Forall_forall in Hall.
  rewrite elem_of_cons, IH by done. case_decide as E.
  - subst k'. split; [|intros [= ->]; by left]. intros [[= ->]|Hx]; [done|].
    apply IH in Hx; [|done]. destruct (bytes_lt_irrefl k). apply Hall. by apply (list_elem_of_fmap_2 fst) in Hx.
  - split; [|by right]. intros [[= -> ->]|]; done.
Qed.

Lemma lookup_put l k v j : lookup_pair (put_pair l k v) j = if decide (k = j) then Some v else lookup_pair l j.
Proof.
  induction l as [|[k' v'] l IH]; cbn.
  { destruct (decide (j = k)), (decide (k = j)); congruence. }
  repeat (case_decide; cbn); subst; try congruence; try done; by rewrite IH, decide_False in * by congruence.
Qed.

Lemma lookup_remove l k j : lookup_pair (remove_pair l k) j = if decide (k = j) then None else lookup_pair l j.
Proof.
  unfold remove_pair. induction l as [|[k' v'] l IH]; [by case_decide|]. rewrite filter_cons. cbn.
  repeat (case_decide; cbn); subst; try congruence; tauto.
Qed.

#[global] Instance leveldb_laws : LevelDbLaws t.
Proof.
  refine {| db_view := λ d, lookup_pair (pairs d) |}; cbn.
  - done.
  - done.
  - intros d k v. eexists. split; [done|]. intros j. apply lookup_put.
  - intros d k. eexists. split; [done|]. intros j. apply lookup_remove.
  - apply pairs_sorted.
  - intros d k v. apply lookup_elem, pairs_sorted.
Defined.
End SortedDb.
