(* ===== verification/CompactMap.v ===== *)
(** * CompactMap: the in-memory needle index
    (weed/storage/needle_map/needle_value_map.go, compact_map.go)

    [NeedleValueMap] is the Go interface with the map it promises; [CompactMap]
    implements it with sorted segments of 50000 keys.  The segment pointers are
    only reachable through the map, so the segments are values here; the lock
    makes each operation atomic. *)

From S2P Require Import Prelude GoStd Bytes SortedList StorageTypes Needle Idx.

(** ** The interface *)

Class NeedleValueMap (M : Type) := {
  map_Set : M → Z → Offset.t → Z → res (M * (Offset.t * Z));
  map_Delete : M → Z → res (M * Z);
  map_Get : M → Z → res (option NeedleValue.t);
  map_AscendingVisit {S} : (NeedleValue.t → S → S * option go_error) → M → S → S * option go_error }.

(** What a deletion stores for a live size. *)
Definition deleted_size (size : Z) : Z :=
  if decide (size = 0) then TombstoneFileSize else - size.

(** What the index promises: a finite map from ids to offset and size, in which a
    deletion keeps the entry and marks its size. *)
Class NeedleValueMapLaws (M : Type) `{NeedleValueMap M} := {
  valid : M → Prop;
  view : M → Z → option (Offset.t * Z);
  get_law m k : valid m → in_u 64 k →
    map_Get m k = Ok ((λ '(o, s), NeedleValue.Mk k o s) <$> view m k);
  set_law m k o s : valid m → in_u 64 k → Offset.wf o → in_s 32 s →
    ∃ m', map_Set m k o s = Ok (m', default (Offset.zero, 0) (view m k)) ∧ valid m' ∧
      ∀ j, in_u 64 j → view m' j = if decide (k = j) then Some (o, s) else view m j;
  delete_law m k : valid m → in_u 64 k →
    ∃ m', map_Delete m k =
        Ok (m', match view m k with Some (_, s) => Z.max 0 s | None => 0 end) ∧ valid m' ∧
      ∀ j, in_u 64 j → view m' j =
        if decide (k = j) then
          match view m k with
          | Some (o, s) => Some (o, if decide (0 ≤ s) then deleted_size s else s)
          | None => None
          end
        else view m j;
  sizes_law m k o s : valid m → in_u 64 k → view m k = Some (o, s) → in_s 32 s ∧ Offset.wf o }.

(** ** The abstract index, and any implementation of the interface against it *)
Module IndexSpec.

Inductive op := OSet (k : Z) (o : Offset.t) (s : Z) | ODelete (k : Z).
Inductive output := OldValue (o : Offset.t) (s : Z) | OldSize (s : Z).
Abbreviation index := (gmap Z (Offset.t * Z)).

Definition op_ok (x : op) : Prop :=
  match x with
  | OSet k o s => in_u 64 k ∧ Offset.wf o ∧ in_s 32 s
  | ODelete k => in_u 64 k
  end.

Definition spec_step (m : index) (x : op) : index * output :=
  match x with
  | OSet k o s =>
      let '(o', s') := default (Offset.zero, 0) (m !! k) in (<[k := (o, s)]> m, OldValue o' s')
  | ODelete k =>
      match m !! k with
      | Some (o, s) =>
          (<[k := (o, if decide (0 ≤ s) then deleted_size s else s)]> m, OldSize (Z.max 0 s))
      | None => (m, OldSize 0)
      end
  end.

Fixpoint spec_run (m : index) (xs : list op) : index * list output :=
  match xs with
  | [] => (m, [])
  | x :: xs =>
      let '(m, y) := spec_step m x in
      let '(m, ys) := spec_run m xs in (m, y :: ys)
  end.

Section impl.
Context {M : Type} `{NM : NeedleValueMap M} {NL : NeedleValueMapLaws M}.

Definition step (m : M) (x : op) : res (M * output) :=
  match x with
  | OSet k o s => '(m, (o', s')) ← map_Set m k o s; mret (m, OldValue o' s')
  | ODelete k => '(m, s) ← map_Delete m k; mret (m, OldSize s)
  end.

Fixpoint run (m : M) (xs : list op) : res (M * list output) :=
  match xs with
  | [] => mret (m, [])
  | x :: xs =>
      '(m, y) ← step m x;
      '(m, ys) ← run m xs; mret (m, y :: ys)
  end.

(** The simulation relation. *)
Definition sim (m : M) (a : index) : Prop := valid m ∧ ∀ k, in_u 64 k → view m k = a !! k.

Lemma step_sim m a x :
  sim m a → op_ok x →
  ∃ m', step m x = Ok (m', snd (spec_step a x)) ∧ sim m' (fst (spec_step a x)).
Proof.
  intros [Hv Hs] Hx. destruct x as [k o s|k]; cbn in Hx |- *.
  - destruct Hx as (Hk & Ho & Hz). destruct (set_law m k o s Hv Hk Ho Hz) as (m' & E & Hv' & Hm').
    rewrite E, Hs by done. cbn [mbind res_bind]. destruct (default _ (a !! k)) as [o' s'].
    exists m'. split; [done|]. split; [done|]. intros j Hj. rewrite (Hm' j Hj), (Hs j Hj).
    cbn. case_decide; [subst; by rewrite lookup_insert_eq|by rewrite lookup_insert_ne].
  - destruct (delete_law m k Hv Hx) as (m' & E & Hv' & Hm'). rewrite E, (Hs k Hx).
    cbn [mbind res_bind]. destruct (a !! k) as [[o s]|] eqn:Ek.
    + exists m'. split; [done|]. split; [done|]. intros j Hj. rewrite (Hm' j Hj), (Hs k Hx), (Hs j Hj), Ek.
      cbn [fst]. case_decide; [subst; by rewrite lookup_insert_eq|by rewrite lookup_insert_ne].
    + exists m'. split; [done|]. split; [done|]. intros j Hj. rewrite (Hm' j Hj), (Hs k Hx), (Hs j Hj), Ek.
      case_decide; [by subst|done].
Qed.

Lemma run_sim m a xs :
  sim m a → Forall op_ok xs →
  ∃ m', run m xs = Ok (m', snd (spec_run a xs)) ∧ sim m' (fst (spec_run a xs)).
Proof.
  intros Hs Hxs. revert m a Hs. induction Hxs as [|x xs Hx _ IH]; intros m a Hs; cbn.
  { by exists m. }
  destruct (step_sim m a x Hs Hx) as (m1 & E & H1). rewrite E. cbn [mbind res_bind].
  destruct (spec_step a x) as [a1 y]; cbn in *.
  destruct (IH m1 a1 H1) as (m2 & E2 & H2). rewrite E2. cbn [mbind res_bind].
  destruct (spec_run a1 xs) as [a2 ys]; cbn in *. by exists m2.
Qed.

Lemma get_sim m a k :
  sim m a → in_u 64 k → map_Get m k = Ok ((λ '(o, s), NeedleValue.Mk k o s) <$> a !! k).
Proof. intros [Hv Hs] Hk. by rewrite (get_law m k Hv Hk), (Hs k Hk). Qed.
End impl.
End IndexSpec.

(** ** Segments *)
Module CompactMap.

Definition MaxCompactKey : Z := 65535.
Definition SegmentChunkSize : Z := 50000.

Record CompactNeedleValue := CNV { cnv_key : Z; cnv_offset : bytes; cnv_size : Z }.
Record CompactMapSegment := Seg {
  list : Datatypes.list CompactNeedleValue; chunk : Z; firstKey : Z; lastKey : Z }.
Definition t : Type := gmap Z CompactMapSegment.

Definition Key (ck chunk : Z) : Z := u64 (u64 (SegmentChunkSize * chunk) + ck).

(** Four bytes always convert; the other branch is unreachable. *)
Definition OffsetToCompact (offset : Offset.t) : bytes :=
  match Offset.OffsetToBytes (zeros Offset.OffsetSize) offset with Ok b => b | _ => [] end.
Definition CompactOffset_Offset (co : bytes) : res Offset.t := Offset.BytesToOffset co.

Definition CNV_NeedleValue (cnv : CompactNeedleValue) (chunk : Z) : res NeedleValue.t :=
  offset ← CompactOffset_Offset (cnv_offset cnv);
  mret (NeedleValue.Mk (Key (cnv_key cnv) chunk) offset (cnv_size cnv)).

Definition newCompactMapSegment (chunk : Z) : CompactMapSegment := Seg [] chunk MaxCompactKey 0.

Definition compactKey (cs : CompactMapSegment) (key : Z) : Z :=
  u16 (u64 (key - u64 (SegmentChunkSize * chunk cs))).

(** [cs.list[i]] *)
Definition nth (l : Datatypes.list CompactNeedleValue) (i : Z) : res CompactNeedleValue :=
  if decide (0 ≤ i) then match l !! Z.to_nat i with Some e => Ok e | None => Panic end else Panic.

Definition bsearchKey (cs : CompactMapSegment) (key : Z) : res (Z * bool) :=
  let ck := compactKey cs key in
  let len := zlen (list cs) in
  if decide (len = 0) then Ok (0, false)
  else if decide (ck = firstKey cs) then Ok (0, true)
  else if decide (ck ≤ firstKey cs) then Ok (0, false)
  else if decide (ck = lastKey cs) then Ok (len - 1, true)
  else if decide (ck > lastKey cs) then Ok (len, false)
  else
    let i := Sort.Search len (at_least cnv_key (list cs) ck) in
    e ← nth (list cs) i;
    mret (i, bool_decide (cnv_key e = ck)).

Definition with_list (l : Datatypes.list CompactNeedleValue) (cs : CompactMapSegment)
    : CompactMapSegment := Seg l (chunk cs) (firstKey cs) (lastKey cs).

(** The segment and the old offset and size.  Both ways of making room for an
    insert leave [list[:i]], a hole, [list[i:]]. *)
Definition set (cs : CompactMapSegment) (key : Z) (offset : Offset.t) (size : Z)
    : res (CompactMapSegment * (Offset.t * Z)) :=
  '(i, found) ← bsearchKey cs key;
  if found : bool then
    e ← nth (list cs) i;
    oldOffset ← CompactOffset_Offset (cnv_offset e);
    let oldSize := cnv_size e in
    mret (with_list (<[Z.to_nat i := CNV (cnv_key e) (OffsetToCompact offset) size]> (list cs)) cs,
          (oldOffset, oldSize))
  else if decide (SegmentChunkSize ≤ zlen (list cs)) then Panic
  else
    let ck := compactKey cs key in
    let room := take (Z.to_nat i) (list cs) ++ [CNV 0 [] 0] ++ drop (Z.to_nat i) (list cs) in
    let l := <[Z.to_nat i := CNV ck (OffsetToCompact offset) size]> room in
    mret (Seg l (chunk cs)
            (if decide (ck < firstKey cs) then ck else firstKey cs)
            (if decide (ck > lastKey cs) then ck else lastKey cs),
          (Offset.zero, 0)).

Definition get (cs : CompactMapSegment) (key : Z) : res (option CompactNeedleValue) :=
  '(i, found) ← bsearchKey cs key;
  if found : bool then e ← nth (list cs) i; mret (Some e) else mret None.

Definition delete (cs : CompactMapSegment) (key : Z) : res (CompactMapSegment * Z) :=
  '(i, found) ← bsearchKey cs key;
  if found : bool then
    e ← nth (list cs) i;
    if negb (Size.IsDeleted (cnv_size e)) then
      let ret := cnv_size e in
      let size := if decide (cnv_size e = 0) then TombstoneFileSize else s32 (- cnv_size e) in
      mret (with_list (<[Z.to_nat i := CNV (cnv_key e) (cnv_offset e) size]> (list cs)) cs, ret)
    else mret (cs, 0)
  else mret (cs, 0).

(** ** The map *)

Definition NewCompactMap : t := ∅.

(** [for _, s := range cm.segments]; the sum does not depend on the order. *)
Definition Len (cm : t) : Z := map_fold (λ _ s l, l + zlen (list s)) 0 cm.

(** The segment of a key, made (and kept in the map) on first use. *)
Definition segmentForKey (cm : t) (key : Z) : t * CompactMapSegment :=
  let chunk := key `div` SegmentChunkSize in
  match cm !! chunk with
  | Some cs => (cm, cs)
  | None => let cs := newCompactMapSegment chunk in (<[chunk := cs]> cm, cs)
  end.

Definition Set_ (cm : t) (key : Z) (offset : Offset.t) (size : Z) : res (t * (Offset.t * Z)) :=
  let '(cm, cs) := segmentForKey cm key in
  '(cs, old) ← set cs key offset size;
  mret (<[key `div` SegmentChunkSize := cs]> cm, old).

Definition Get (cm : t) (key : Z) : res (option NeedleValue.t) :=
  let chunk_ := key `div` SegmentChunkSize in
  match cm !! chunk_ with
  | None => mret None
  | Some cs =>
      found ← get cs key;
      match found with
      | Some cnv => nv ← CNV_NeedleValue cnv (chunk cs); mret (Some nv)
      | None => mret None
      end
  end.

Definition Delete (cm : t) (key : Z) : res (t * Z) :=
  let chunk_ := key `div` SegmentChunkSize in
  match cm !! chunk_ with
  | None => mret (cm, 0)
  | Some cs =>
      '(cs, size) ← delete cs key;
      mret (<[chunk_ := cs]> cm, size)
  end.

(** [slices.Sort] of the chunk numbers. *)
Definition chunks (cm : t) : Datatypes.list Z := merge_sort (≤) (map_to_list cm).*1.

Section visit.
Context {S : Type} (visit : NeedleValue.t → S → S * option go_error).

Fixpoint visit_list (c : Z) (l : Datatypes.list CompactNeedleValue) (s : S)
    : S * option go_error :=
  match l with
  | [] => (s, None)
  | cnv :: l =>
      match CNV_NeedleValue cnv c with
      | Ok nv =>
          match visit nv s with
          | (s, Some err) => (s, Some err)
          | (s, None) => visit_list c l s
          end
      | _ => (s, Some (Errorf "index out of range"))
      end
  end.

Fixpoint visit_chunks (cm : t) (cs : Datatypes.list Z) (s : S) : S * option go_error :=
  match cs with
  | [] => (s, None)
  | c :: cs =>
      match cm !! c with
      | None => visit_chunks cm cs s
      | Some seg =>
          match visit_list (chunk seg) (list seg) s with
          | (s, Some err) => (s, Some err)
          | (s, None) => visit_chunks cm cs s
          end
      end
  end.

Definition AscendingVisit (cm : t) (s : S) : S * option go_error := visit_chunks cm (chunks cm) s.
End visit.

#[global] Instance needle_value_map : NeedleValueMap t :=
  { map_Set := Set_; map_Delete := Delete; map_Get := Get; map_AscendingVisit := @AscendingVisit }.

End CompactMap.

(** ** Sorted segments implement a map *)
Module SegmentSpec.
Import CompactMap.

Abbreviation keys l := (cnv_key <$> l).

(** Lookup by key, the specification of the binary search. *)
Abbreviation find := (SortedList.find cnv_key).

Record seg_ok (c : Z) (cs : CompactMapSegment) : Prop := {
  ok_chunk : chunk cs = c;
  ok_sorted : StronglySorted Z.lt (keys (list cs));
  ok_range : ∀ e, e ∈ list cs →
    0 ≤ cnv_key e < SegmentChunkSize ∧ in_u 64 (SegmentChunkSize * c + cnv_key e);
  ok_value : ∀ e, e ∈ list cs → in_s 32 (cnv_size e) ∧
               ∃ o, Offset.wf o ∧ cnv_offset e = OffsetToCompact o;
  ok_first : firstKey cs = match list cs with [] => MaxCompactKey | e :: _ => cnv_key e end;
  ok_last : lastKey cs = match last (list cs) with None => 0 | Some e => cnv_key e end }.

Lemma compact_offset o : CompactOffset_Offset (OffsetToCompact o) = Ok o.
Proof. by destruct o. Qed.

Lemma new_ok c : seg_ok c (newCompactMapSegment c).
Proof. constructor; try done; [constructor|intros e He; by apply not_elem_of_nil in He..]. Qed.

(** *** The binary search *)

Lemma compactKey_spec c cs key :
  chunk cs = c → in_u 64 key → key `div` SegmentChunkSize = c →
  compactKey cs key = key `mod` SegmentChunkSize ∧ 0 ≤ compactKey cs key < SegmentChunkSize.
Proof.
  intros Hc Hk Hd. unfold compactKey. rewrite Hc, <- Hd. unfold SegmentChunkSize in *.
  widths. unfold wrap.
  change (2 ^ 16) with 65536. change (2 ^ 64) with 18446744073709551616. mlia.
Qed.

Lemma nth_ok l i e : l !! i = Some e → nth l (Z.of_nat i) = Ok e.
Proof. intros H. unfold nth. rewrite decide_True by lia. by rewrite Nat2Z.id, H. Qed.

(** When some key is at least [ck], the search stops at the first such. *)
Lemma search_located l ck z :
  StronglySorted Z.lt (keys l) → z ∈ l → ck ≤ cnv_key z →
  ∃ i e, Sort.Search (zlen l) (at_least cnv_key l ck) = Z.of_nat i ∧ l !! i = Some e ∧
    located cnv_key l ck i (bool_decide (cnv_key e = ck)).
Proof.
  intros Hs Hz Hck. destruct (search_position l ck Hs) as (i & E & Hi & H1 & H2).
  assert (i < length l)%nat as Hlt.
  { destruct (decide (i < length l)%nat); [done|]. rewrite take_ge in H1 by lia.
    specialize (H1 z Hz). lia. }
  destruct (lookup_lt_is_Some_2 l i Hlt) as [e He]. exists i, e. split_and!; [done..|].
  pose proof (position_located l ck i Hs Hi H1 H2) as Hl. by rewrite He in Hl.
Qed.

Lemma bsearch_located c cs key :
  seg_ok c cs → in_u 64 key → key `div` SegmentChunkSize = c →
  ∃ i found, bsearchKey cs key = Ok (Z.of_nat i, found) ∧
    located cnv_key (list cs) (key `mod` SegmentChunkSize) i found.
Proof.
  intros [Hc Hs _ _ Hf Hl] Hk Hd.
  destruct (compactKey_spec c cs key Hc Hk Hd) as [Eck Hck]. unfold bsearchKey.
  rewrite Eck in *. set (ck := key `mod` SegmentChunkSize) in *. clearbody ck.
  destruct (list cs) as [|e l] eqn:El.
  { exists 0%nat, false. split; [done|]. split; [done|].
    split; intros x Hx; by apply not_elem_of_nil in Hx. }
  rewrite decide_False by zl. rewrite Hf. case_decide as H1.
  { exists 0%nat, true. split; [done|]. split; [cbn; lia|]. exists e. by subst. }
  case_decide as H2.
  { exists 0%nat, false. split; [done|]. split; [cbn; lia|]. cbn [take drop].
    split; intros y Hy; [by apply not_elem_of_nil in Hy|].
    pose proof (head_least e l y Hs Hy). lia. }
  destruct (last (e :: l)) as [z|] eqn:Ez; [|by apply last_None in Ez].
  rewrite Hl. assert (z ∈ e :: l) as Hz by (by apply last_Some_elem_of). case_decide as H3.
  { exists (length l), true. split; [do 2 f_equal; zl; unfold zlen; lia|].
    split; [cbn; lia|]. exists z. rewrite last_lookup in Ez. by split. }
  case_decide as H4.
  { exists (length (e :: l)), false. split; [done|]. split; [done|]. split; intros y Hy.
    - rewrite take_ge in Hy by done. pose proof (last_greatest _ z y Hs Ez Hy). lia.
    - rewrite drop_ge in Hy by done. by apply not_elem_of_nil in Hy. }
  destruct (search_located (e :: l) ck z Hs Hz ltac:(lia)) as (i & x & -> & Hx & Hloc).
  rewrite (nth_ok _ _ _ Hx). cbn [mbind res_bind]. eauto.
Qed.

(** *** Updates *)

Lemma room c cs ck :
  seg_ok c cs → 0 ≤ ck < SegmentChunkSize → find (list cs) ck = None →
  zlen (list cs) < SegmentChunkSize.
Proof.
  intros [_ Hs Hr _ _ _] Hck Hn.
  pose proof (bounded_length (ck :: keys (list cs)) SegmentChunkSize) as Hlen.
  rewrite zlen_cons in Hlen. unfold zlen in *. rewrite length_fmap in Hlen.
  assert (Z.max 0 SegmentChunkSize = SegmentChunkSize) as E by done. rewrite E in Hlen.
  assert (1 + Z.of_nat (length (list cs)) ≤ SegmentChunkSize); [|lia]. apply Hlen.
  - constructor; [|by apply sorted_nodup]. intros Hin.
    apply list_elem_of_fmap in Hin as (e & -> & He). rewrite find_None in Hn. by apply (Hn e).
  - intros x Hx. apply elem_of_cons in Hx as [->|Hx]; [done|].
    apply list_elem_of_fmap in Hx as (e & -> & He). by apply Hr.
Qed.

Lemma last_fmap_key (l : Datatypes.list CompactNeedleValue) :
  match last l with None => 0 | Some e => cnv_key e end = default 0 (last (keys l)).
Proof. rewrite fmap_last. by destruct (last l). Qed.
Lemma head_fmap_key (l : Datatypes.list CompactNeedleValue) :
  match l with [] => MaxCompactKey | e :: _ => cnv_key e end
  = default MaxCompactKey (head (keys l)).
Proof. by destruct l. Qed.

(** Replacing a value in place keeps the segment well formed. *)
Lemma update_ok c cs i e e' :
  seg_ok c cs → list cs !! i = Some e → cnv_key e' = cnv_key e → in_s 32 (cnv_size e') →
  (∃ o, Offset.wf o ∧ cnv_offset e' = OffsetToCompact o) →
  seg_ok c (with_list (<[i := e']> (list cs)) cs).
Proof.
  intros [Hc Hs Hr Hv Hf Hl] Hi Hk Hz Ho. pose proof (lookup_lt_Some _ _ _ Hi) as Hlt.
  assert (keys (<[i := e']> (list cs)) = keys (list cs)) as Hkeys.
  { rewrite list_fmap_insert, list_insert_id; [done|]. by rewrite list_lookup_fmap, Hi, Hk. }
  assert (∀ x, x ∈ <[i := e']> (list cs) → x = e' ∨ x ∈ list cs) as Hin.
  { intros x Hx. apply list_elem_of_lookup_1 in Hx as [j Hj].
    apply list_lookup_insert_Some in Hj as [(_ & <- & _)|(_ & Hj)]; [by left|right].
    by eapply list_elem_of_lookup_2. }
  constructor; cbn [with_list chunk list firstKey lastKey]; [done|by rewrite Hkeys|..].
  - intros x Hx. apply Hin in Hx as [->|Hx]; [|by apply Hr]. rewrite Hk.
    apply Hr. by eapply list_elem_of_lookup_2.
  - intros x Hx. apply Hin in Hx as [->|Hx]; [done|by apply Hv].
  - rewrite Hf, !head_fmap_key. by rewrite Hkeys.
  - rewrite Hl, !last_fmap_key. by rewrite Hkeys.
Qed.

Lemma insert_first l i x f :
  0 ≤ cnv_key x < SegmentChunkSize →
  f = match l with [] => MaxCompactKey | e :: _ => cnv_key e end →
  (∀ y, y ∈ take i l → cnv_key y < cnv_key x) → (∀ y, y ∈ drop i l → cnv_key x < cnv_key y) →
  (if decide (cnv_key x < f) then cnv_key x else f)
  = match take i l ++ x :: drop i l with [] => MaxCompactKey | e :: _ => cnv_key e end.
Proof.
  intros Hx -> H1 H2. destruct l as [|e l].
  { rewrite take_nil, drop_nil. cbn. unfold MaxCompactKey, SegmentChunkSize in *.
    by rewrite decide_True by lia. }
  destruct i as [|i]; cbn.
  - rewrite decide_True; [done|]. apply H2. by left.
  - rewrite decide_False; [done|]. specialize (H1 e ltac:(by left)). lia.
Qed.

Lemma insert_last l i x f :
  0 ≤ cnv_key x → f = match last l with None => 0 | Some e => cnv_key e end →
  (∀ y, y ∈ take i l → cnv_key y < cnv_key x) → (∀ y, y ∈ drop i l → cnv_key x < cnv_key y) →
  (if decide (cnv_key x > f) then cnv_key x else f)
  = match last (take i l ++ x :: drop i l) with None => 0 | Some e => cnv_key e end.
Proof.
  intros Hx -> H1 H2. rewrite last_app_cons.
  destruct (last (drop i l)) as [z|] eqn:Ez.
  - assert (last l = Some z) as ->.
    { rewrite <- (take_drop i l), last_app, Ez. done. }
    rewrite last_cons, Ez. rewrite decide_False; [done|].
    specialize (H2 z ltac:(by apply last_Some_elem_of)). lia.
  - apply last_None in Ez. rewrite Ez. cbn.
    assert (take i l = l) as El by (by rewrite <- (app_nil_r (take i l)), <- Ez, take_drop).
    rewrite El in H1. destruct (last l) as [z|] eqn:E2.
    + rewrite decide_True; [done|]. specialize (H1 z ltac:(by apply last_Some_elem_of)). lia.
    + case_decide; lia.
Qed.

Lemma insert_ok c cs i x :
  seg_ok c cs → 0 ≤ cnv_key x < SegmentChunkSize → in_u 64 (SegmentChunkSize * c + cnv_key x) →
  in_s 32 (cnv_size x) →
  (∃ o, Offset.wf o ∧ cnv_offset x = OffsetToCompact o) →
  (∀ y, y ∈ take i (list cs) → cnv_key y < cnv_key x) →
  (∀ y, y ∈ drop i (list cs) → cnv_key x < cnv_key y) →
  seg_ok c (Seg (take i (list cs) ++ x :: drop i (list cs)) (chunk cs)
              (if decide (cnv_key x < firstKey cs) then cnv_key x else firstKey cs)
              (if decide (cnv_key x > lastKey cs) then cnv_key x else lastKey cs)).
Proof.
  intros [Hc Hs Hr Hv Hf Hl] Hx Hk Hz Ho H1 H2.
  assert (∀ y, y ∈ take i (list cs) ++ x :: drop i (list cs) → y = x ∨ y ∈ list cs) as Hin.
  { intros y. rewrite <- (take_drop i (list cs)) at 3. rewrite !elem_of_app, elem_of_cons. tauto. }
  constructor; cbn [chunk list firstKey lastKey]; [done|by apply sorted_insert|..].
  - intros y Hy. apply Hin in Hy as [->|Hy]; auto.
  - intros y Hy. apply Hin in Hy as [->|Hy]; auto.
  - by apply insert_first.
  - apply insert_last; [lia|done..].
Qed.

(** *** The operations *)

Section ops.
Context (c : Z) (cs : CompactMapSegment) (key : Z).
Hypothesis Hok : seg_ok c cs.
Hypothesis Hkey : in_u 64 key.
Hypothesis Hchunk : key `div` SegmentChunkSize = c.
Let ck : Z := key `mod` SegmentChunkSize.

Lemma ck_range : 0 ≤ ck < SegmentChunkSize.
Proof. apply Z.mod_pos_bound. done. Qed.

Lemma get_spec : get cs key = Ok (find (list cs) ck).
Proof.
  destruct (bsearch_located c cs key Hok Hkey Hchunk) as (i & found & E & _ & Hloc).
  unfold get. rewrite E, bind_ok. destruct found.
  - destruct Hloc as (e & He & Hk). rewrite (nth_ok _ _ _ He), bind_ok. subst ck. rewrite <- Hk.
    by rewrite (find_at _ i e (ok_sorted _ _ Hok) He).
  - destruct Hloc as [H1 H2]. subst ck. by rewrite (find_split _ i) by done.
Qed.

Lemma set_spec o s :
  Offset.wf o → in_s 32 s →
  ∃ cs' old, set cs key o s = Ok (cs', old) ∧ seg_ok c cs' ∧
    match find (list cs) ck with
    | Some e => CompactOffset_Offset (cnv_offset e) = Ok (fst old) ∧ snd old = cnv_size e
    | None => old = (Offset.zero, 0)
    end ∧
    ∀ k, find (list cs') k
         = if decide (ck = k) then Some (CNV ck (OffsetToCompact o) s) else find (list cs) k.
Proof.
  intros Ho Hs. pose proof (ok_sorted _ _ Hok) as Hsorted.
  destruct (compactKey_spec c cs key (ok_chunk _ _ Hok) Hkey Hchunk) as [Eck _].
  destruct (bsearch_located c cs key Hok Hkey Hchunk) as (i & found & E & Hi & Hloc).
  unfold set. rewrite E, bind_ok, Eck, Nat2Z.id. fold ck in Hloc |- *. destruct found.
  - destruct Hloc as (e & He & Hk). rewrite (nth_ok _ _ _ He), bind_ok.
    pose proof (find_at _ i e Hsorted He) as Hfind. rewrite Hk in Hfind. rewrite Hfind.
    destruct (ok_value _ _ Hok e ltac:(by eapply list_elem_of_lookup_2)) as [_ (o' & Ho' & Eo)].
    rewrite Eo, compact_offset, bind_ok.
    do 2 eexists. split; [done|]. split.
    { apply (update_ok c cs i e); [done|done|done|done|by exists o]. }
    split; [done|]. intros k. cbn [with_list list]. rewrite (find_update _ i e) by done.
    by rewrite Hk.
  - destruct Hloc as [H1 H2].
    assert (find (list cs) ck = None) as Hn by (by eapply find_split).
    pose proof (room c cs ck Hok ck_range Hn) as Hroom.
    rewrite decide_False by lia. cbv zeta. rewrite Hn, fill_hole by done.
    do 2 eexists. split; [done|]. split.
    { apply (insert_ok c cs i (CNV ck (OffsetToCompact o) s)); try done;
        [apply ck_range|subst ck; cbn [cnv_key]; by rewrite <- Hchunk, <- Z.div_mod|by exists o]. }
    split; [done|]. intros k. cbn [list].
    by rewrite (find_insert _ _ (CNV ck (OffsetToCompact o) s)).
Qed.

Lemma delete_spec :
  ∃ cs', delete cs key
         = Ok (cs', match find (list cs) ck with Some e => Z.max 0 (cnv_size e) | None => 0 end) ∧
    seg_ok c cs' ∧
    ∀ k, find (list cs') k =
      if decide (ck = k) then
        (λ e, CNV (cnv_key e) (cnv_offset e)
                (if decide (0 ≤ cnv_size e) then deleted_size (cnv_size e) else cnv_size e))
        <$> find (list cs) ck
      else find (list cs) k.
Proof.
  pose proof (ok_sorted _ _ Hok) as Hsorted.
  destruct (bsearch_located c cs key Hok Hkey Hchunk) as (i & found & E & Hi & Hloc).
  unfold delete. rewrite E, bind_ok, Nat2Z.id. fold ck in Hloc |- *. destruct found.
  - destruct Hloc as (e & He & Hk). rewrite (nth_ok _ _ _ He), bind_ok.
    pose proof (find_at _ i e Hsorted He) as Hfind. rewrite Hk in Hfind. rewrite Hfind.
    destruct (ok_value _ _ Hok e ltac:(by eapply list_elem_of_lookup_2)) as [Hz Ho].
    destruct (Size.IsDeleted (cnv_size e)) eqn:Hd; cbn [negb].
    + apply Size.IsDeleted_spec in Hd. exists cs. rewrite Z.max_l by lia.
      split; [done|]. split; [done|]. intros k. case_decide as Hck; [|done]. subst k. rewrite Hfind.
      cbn. rewrite decide_False by lia. by destruct e.
    + apply Size.IsDeleted_false in Hd. rewrite Z.max_r by lia.
      assert (s32 (- cnv_size e) = - cnv_size e) as -> by (apply swrap_id; [lia|]; widths; lia).
      fold (deleted_size (cnv_size e)). eexists. split; [done|].
      assert (in_s 32 (deleted_size (cnv_size e))).
      { unfold deleted_size, TombstoneFileSize. case_decide; widths; lia. }
      split; [by apply (update_ok c cs i e)|].
      intros k. cbn [with_list list]. rewrite (find_update _ i e) by done. rewrite Hk.
      cbn [fmap option_fmap option_map]. by rewrite (decide_True (P := 0 ≤ _)), Hk by lia.
  - destruct Hloc as [H1 H2].
    assert (find (list cs) ck = None) as Hn by (by eapply find_split). rewrite Hn.
    exists cs. split; [done|]. split; [done|]. intros k. case_decide as Hk; [|done]. by subst k.
Qed.
End ops.
End SegmentSpec.

(** ** The map of segments *)
Module CompactMapSpec.
Import CompactMap SegmentSpec.

(** The largest chunk of a 64-bit key. *)
Definition max_chunk : Z := (2 ^ 64 - 1) `div` SegmentChunkSize.

Definition map_ok (cm : t) : Prop :=
  ∀ c cs, cm !! c = Some cs → seg_ok c cs ∧ 0 ≤ c ≤ max_chunk.

(** An entry as offset and size. *)
Definition value_of (e : CompactNeedleValue) : Offset.t * Z :=
  (match CompactOffset_Offset (cnv_offset e) with Ok o => o | _ => Offset.zero end, cnv_size e).

Definition map_view (cm : t) (k : Z) : option (Offset.t * Z) :=
  match cm !! (k `div` SegmentChunkSize) with
  | None => None
  | Some cs => value_of <$> find (list cs) (k `mod` SegmentChunkSize)
  end.

Lemma chunk_range k : in_u 64 k → 0 ≤ k `div` SegmentChunkSize ≤ max_chunk.
Proof.
  intros Hk. unfold max_chunk, SegmentChunkSize. widths. split; [apply Z.div_pos; lia|].
  apply Z.div_le_mono; lia.
Qed.

Lemma Key_spec c ck :
  0 ≤ c ≤ max_chunk → 0 ≤ ck < SegmentChunkSize → in_u 64 (SegmentChunkSize * c + ck) →
  Key ck c = SegmentChunkSize * c + ck.
Proof.
  intros Hc Hck Hk. unfold Key. unfold SegmentChunkSize in *. rewrite (wrap_id 64 (50000 * c)).
  - by apply wrap_id.
  - widths. lia.
Qed.

Lemma Key_split k :
  in_u 64 k → Key (k `mod` SegmentChunkSize) (k `div` SegmentChunkSize) = k.
Proof.
  intros Hk. rewrite Key_spec; [symmetry; by apply Z.div_mod|by apply chunk_range
    |by apply Z.mod_pos_bound|by rewrite <- Z.div_mod].
Qed.

(** Replacing one segment. *)
Lemma map_ok_insert cm c cs : map_ok cm → seg_ok c cs → 0 ≤ c ≤ max_chunk → map_ok (<[c := cs]> cm).
Proof.
  intros Hm Hs Hc c' cs' H. apply lookup_insert_Some in H as [[<- <-]|[_ H]]; [done|by apply Hm].
Qed.

Lemma view_insert cm c cs cs0 ck v :
  cm !! c = Some cs0 ∨ cm !! c = None ∧ list cs0 = [] →
  0 ≤ ck < SegmentChunkSize →
  (∀ k, find (list cs) k = if decide (ck = k) then v else find (list cs0) k) →
  ∀ j, map_view (<[c := cs]> cm) j
       = if decide (SegmentChunkSize * c + ck = j) then value_of <$> v else map_view cm j.
Proof.
  intros Hc Hck Hf j. unfold map_view, t in *.
  pose proof (Z.div_mod j SegmentChunkSize ltac:(done)) as Hj.
  pose proof (Z.mod_pos_bound j SegmentChunkSize ltac:(done)) as Hm.
  destruct (decide (c = j `div` SegmentChunkSize)) as [->|Hne].
  - rewrite lookup_insert_eq, Hf. case_decide as H1.
    + by rewrite decide_True by lia.
    + rewrite decide_False by lia. destruct Hc as [->|[-> ->]]; done.
  - rewrite lookup_insert_ne by done. rewrite decide_False; [done|]. intros E. apply Hne.
    rewrite <- E. rewrite Z.mul_comm, Z.div_add_l, Z.div_small by (done || lia). lia.
Qed.

Lemma value_ok c cs k e :
  seg_ok c cs → find (list cs) k = Some e →
  ∃ o, CompactOffset_Offset (cnv_offset e) = Ok o ∧ Offset.wf o ∧ value_of e = (o, cnv_size e)
    ∧ in_s 32 (cnv_size e) ∧ cnv_key e = k.
Proof.
  intros Hs Hf. apply find_Some in Hf as [He Hk].
  destruct (ok_value _ _ Hs e He) as [Hz (o & Ho & E)]. exists o.
  unfold value_of. rewrite E, compact_offset. done.
Qed.

(** [segmentForKey] keeps the view. *)
Lemma segmentForKey_spec cm key :
  map_ok cm → in_u 64 key →
  let c := key `div` SegmentChunkSize in
  let '(cm', cs) := segmentForKey cm key in
  map_ok cm' ∧ seg_ok c cs ∧ (cm !! c = Some cs ∨ cm !! c = None ∧ list cs = []) ∧
  (∀ cs', <[c := cs']> cm' = <[c := cs']> cm).
Proof.
  intros Hm Hk c. unfold segmentForKey, t in *. fold c. pose proof (chunk_range key Hk) as Hr. fold c in Hr.
  destruct (cm !! c) as [cs|] eqn:E.
  - destruct (Hm c cs E). split_and!; auto.
  - split_and!; [apply map_ok_insert; auto using new_ok|apply new_ok|by right|].
    intros cs'. by rewrite insert_insert_eq.
Qed.

Lemma set_correct cm k o s :
  map_ok cm → in_u 64 k → Offset.wf o → in_s 32 s →
  ∃ cm', CompactMap.Set_ cm k o s = Ok (cm', default (Offset.zero, 0) (map_view cm k)) ∧ map_ok cm' ∧
    ∀ j, in_u 64 j → map_view cm' j = if decide (k = j) then Some (o, s) else map_view cm j.
Proof.
  intros Hm Hk Ho Hs. unfold CompactMap.Set_.
  pose proof (segmentForKey_spec cm k Hm Hk) as Hseg.
  destruct (segmentForKey cm k) as [cm1 cs]. cbv zeta in Hseg.
  destruct Hseg as (Hm1 & Hcs & Hold & Hins). set (c := k `div` SegmentChunkSize) in *.
  destruct (set_spec c cs k Hcs Hk eq_refl o s Ho Hs) as (cs' & old & -> & Hcs' & Hret & Hfind).
  rewrite bind_ok. eexists. split.
  - unfold mret, res_ret. do 2 f_equal. unfold map_view. fold c.
    destruct Hold as [->|[-> Hnil]]; [|by rewrite Hnil in Hret].
    destruct (find (list cs) _) as [e|] eqn:Ef; [|done]. cbn.
    destruct (value_ok _ _ _ _ Hcs Ef) as (o' & Eo & _ & -> & _). destruct Hret as [Hr1 Hr2].
    rewrite Eo in Hr1. injection Hr1 as ->. destruct old; cbn in *. by subst.
  - rewrite Hins. split; [apply map_ok_insert; [done..|by apply chunk_range]|].
    intros j _. pose proof (Z.mod_pos_bound k SegmentChunkSize ltac:(done)).
    rewrite (view_insert cm c cs' cs (k `mod` SegmentChunkSize) _ Hold ltac:(done) Hfind).
    subst c. rewrite <- Z.div_mod by done. case_decide; [|done]. cbn.
    unfold value_of; cbn. by rewrite compact_offset.
Qed.

Lemma get_correct cm k :
  map_ok cm → in_u 64 k →
  CompactMap.Get cm k = Ok ((λ '(o, s), NeedleValue.Mk k o s) <$> map_view cm k).
Proof.
  intros Hm Hk. unfold CompactMap.Get, map_view.
  destruct (cm !! (k `div` SegmentChunkSize)) as [cs|] eqn:E; [|done].
  destruct (Hm _ cs E) as [Hcs _]. rewrite (get_spec _ cs k Hcs Hk eq_refl), bind_ok.
  destruct (find (list cs) _) as [e|] eqn:Ef; [|done].
  destruct (value_ok _ _ _ _ Hcs Ef) as (o & Eo & _ & Ev & _ & Hkey).
  unfold CNV_NeedleValue. rewrite Eo, !bind_ok, Hkey, (ok_chunk _ _ Hcs), (Key_split k Hk).
  cbn [fmap option_fmap option_map]. by rewrite Ev.
Qed.

Lemma delete_correct cm k :
  map_ok cm → in_u 64 k →
  ∃ cm', CompactMap.Delete cm k =
      Ok (cm', match map_view cm k with Some (_, s) => Z.max 0 s | None => 0 end) ∧ map_ok cm' ∧
    ∀ j, in_u 64 j → map_view cm' j =
      if decide (k = j) then
        match map_view cm k with
        | Some (o, s) => Some (o, if decide (0 ≤ s) then deleted_size s else s)
        | None => None
        end
      else map_view cm j.
Proof.
  intros Hm Hk. unfold CompactMap.Delete. set (c := k `div` SegmentChunkSize) in *.
  assert (map_view cm k = match cm !! c with None => None
    | Some cs => value_of <$> find (list cs) (k `mod` SegmentChunkSize) end) as Ev by done.
  destruct (cm !! c) as [cs|] eqn:E.
  - destruct (Hm _ cs E) as [Hcs Hr].
    destruct (delete_spec c cs k Hcs Hk eq_refl) as (cs' & -> & Hcs' & Hfind).
    rewrite bind_ok. exists (<[c := cs']> cm). split; [|split; [by apply map_ok_insert|]].
    + rewrite Ev. by destruct (find (list cs) _).
    + intros j _. pose proof (Z.mod_pos_bound k SegmentChunkSize ltac:(done)).
      rewrite (view_insert cm c cs' cs (k `mod` SegmentChunkSize) _ (or_introl E) ltac:(done) Hfind).
      subst c. rewrite <- Z.div_mod by done. case_decide; [|done]. rewrite Ev.
      by destruct (find (list cs) _).
  - rewrite Ev. exists cm. split; [done|]. split; [done|]. intros j _.
    case_decide as Hj; [|done]. by subst j.
Qed.

#[global, refine] Instance laws : NeedleValueMapLaws t := {| valid := map_ok; view := map_view |}.
Proof.
  - apply get_correct.
  - apply set_correct.
  - apply delete_correct.
  - intros cm k o s Hm Hk. unfold map_view.
    destruct (cm !! (k `div` SegmentChunkSize)) as [cs|] eqn:E; [|done].
    destruct (Hm _ cs E) as [Hcs _]. destruct (find (list cs) _) as [e|] eqn:Ef; [|done]. cbn.
    destruct (value_ok _ _ _ _ Hcs Ef) as (o' & _ & Ho & -> & Hz & _). by intros [= <- <-].
Defined.

Lemma new_valid : map_ok NewCompactMap.
Proof. intros c cs H. unfold NewCompactMap, t in H. by rewrite lookup_empty in H. Qed.

Lemma new_sim : IndexSpec.sim NewCompactMap ∅.
Proof.
  split; [apply new_valid|]. intros k _. cbn. unfold map_view, NewCompactMap, t.
  by rewrite !lookup_empty.
Qed.

(** C16: the compact map implements the abstract index: any sequence of [Set] and
    [Delete] calls runs without a panic (no segment overflows), returns what the
    abstract map returns, and afterwards [Get] agrees with it on every key. *)
Theorem compact_map_refines xs :
  Forall IndexSpec.op_ok xs →
  ∃ cm, IndexSpec.run NewCompactMap xs = Ok (cm, snd (IndexSpec.spec_run ∅ xs)) ∧
    ∀ k, in_u 64 k →
      CompactMap.Get cm k
      = Ok ((λ '(o, s), NeedleValue.Mk k o s) <$> fst (IndexSpec.spec_run ∅ xs) !! k).
Proof.
  intros Hxs. destruct (IndexSpec.run_sim _ _ xs new_sim Hxs) as (cm & E & Hsim).
  exists cm. split; [done|]. intros k Hk. exact (IndexSpec.get_sim cm _ k Hsim Hk).
Qed.

Lemma compact_map_refines_witness :
  ∃ cm, IndexSpec.run NewCompactMap
          [IndexSpec.OSet 70000 (Offset.Mk 0 0 0 1) 5; IndexSpec.ODelete 70000]
        = Ok (cm, [IndexSpec.OldValue Offset.zero 0; IndexSpec.OldSize 5]) ∧
        CompactMap.Get cm 70000 = Ok (Some (NeedleValue.Mk 70000 (Offset.Mk 0 0 0 1) (-5))).
Proof.
  destruct (compact_map_refines
    [IndexSpec.OSet 70000 (Offset.Mk 0 0 0 1) 5; IndexSpec.ODelete 70000]) as (cm & E & Hg).
  - repeat apply Forall_cons_2; [|split; [discriminate|reflexivity]|apply Forall_nil_2].
    split; [split; [discriminate|reflexivity]|]. split; [|split; [discriminate|reflexivity]].
    repeat split; discriminate.
  - exists cm. split; [exact E|]. apply (Hg 70000). split; [discriminate|reflexivity].
Defined.

(** *** Visiting in order *)

Definition seg_values (c : Z) (l : Datatypes.list CompactNeedleValue) : Datatypes.list NeedleValue.t :=
  (λ e, NeedleValue.Mk (SegmentChunkSize * c + cnv_key e) (fst (value_of e)) (cnv_size e)) <$> l.
Definition chunk_values (cm : t) (c : Z) : Datatypes.list NeedleValue.t :=
  match cm !! c with Some cs => seg_values c (list cs) | None => [] end.
Definition values (cm : t) : Datatypes.list NeedleValue.t := chunks cm ≫= chunk_values cm.

Lemma visit_list_spec {S} (visit : NeedleValue.t → S → S * option go_error) c l s :
  0 ≤ c ≤ max_chunk →
  (∀ e, e ∈ l → 0 ≤ cnv_key e < SegmentChunkSize ∧ in_u 64 (SegmentChunkSize * c + cnv_key e)) →
  (∀ e, e ∈ l → ∃ o, cnv_offset e = OffsetToCompact o) →
  visit_list visit c l s = IdxSpec.visit visit (seg_values c l) s.
Proof.
  intros Hc. revert s. induction l as [|e l IH]; intros s Hk Ho; [done|]. cbn [visit_list seg_values fmap list_fmap].
  destruct (Hk e ltac:(by left)) as [Hk1 Hk2]. destruct (Ho e ltac:(by left)) as [o Eo].
  unfold CNV_NeedleValue. rewrite Eo, compact_offset, bind_ok, Key_spec by done.
  cbn [IdxSpec.visit]. unfold value_of. rewrite Eo, compact_offset. cbn [fst mret res_ret].
  destruct (visit _ s) as [s' [err|]]; [done|]. apply IH; intros; [apply Hk|apply Ho]; by right.
Qed.

Lemma visit_chunks_spec {S} (visit : NeedleValue.t → S → S * option go_error) cm cs s :
  map_ok cm → visit_chunks visit cm cs s = IdxSpec.visit visit (cs ≫= chunk_values cm) s.
Proof.
  intros Hm. revert s. induction cs as [|c cs IH]; intros s; [done|]. cbn [visit_chunks mbind list_bind].
  rewrite IdxSpec.visit_app. unfold chunk_values at 1.
  destruct (cm !! c) as [seg|] eqn:E; [|apply IH].
  destruct (Hm c seg E) as [Hok Hr]. rewrite (ok_chunk _ _ Hok), visit_list_spec;
    [|done|apply (ok_range _ _ Hok)|].
  - destruct (IdxSpec.visit _ _ s) as [s' [err|]]; [done|apply IH].
  - intros e He. destruct (ok_value _ _ Hok e He) as [_ (o & _ & Eo)]. by exists o.
Qed.

Lemma chunks_sorted cm : StronglySorted Z.lt (chunks cm).
Proof.
  assert (NoDup (chunks cm)) as Hn.
  { unfold chunks. rewrite merge_sort_Permutation. apply NoDup_fst_map_to_list. }
  pose proof (StronglySorted_merge_sort (≤) (map_to_list cm).*1) as Hs. fold (chunks cm) in Hs.
  induction Hs as [|x l Hs IH Hall]; constructor; apply NoDup_cons in Hn as [Hx Hn]; [by apply IH|].
  rewrite Forall_forall in Hall |- *. intros y Hy. specialize (Hall y Hy).
  destruct (decide (x = y)) as [->|]; [done|lia].
Qed.

Lemma elem_of_chunks cm c : c ∈ chunks cm ↔ is_Some (cm !! c).
Proof.
  unfold chunks. rewrite merge_sort_Permutation, list_elem_of_fmap. split.
  - intros ([c' cs] & -> & H). apply elem_of_map_to_list in H. by eexists.
  - intros [cs H]. exists (c, cs). split; [done|]. by apply elem_of_map_to_list.
Qed.

Lemma elem_of_values cm nv :
  map_ok cm →
  nv ∈ values cm ↔ in_u 64 (NeedleValue.Key nv) ∧
    map_view cm (NeedleValue.Key nv) = Some (NeedleValue.Offset nv, NeedleValue.Size nv).
Proof.
  intros Hm. unfold values. rewrite list_elem_of_bind. unfold chunk_values. split.
  - intros (c & Hnv & _). destruct (cm !! c) as [cs|] eqn:E; [|by apply not_elem_of_nil in Hnv].
    destruct (Hm c cs E) as [Hok Hr]. apply list_elem_of_fmap in Hnv as (e & -> & He).
    destruct (ok_range _ _ Hok e He) as [Hk Hu]. cbn [NeedleValue.Key NeedleValue.Offset NeedleValue.Size].
    split; [done|]. unfold map_view.
    rewrite Z.mul_comm, Z.div_add_l, Z.div_small, Z.add_0_r by (done || lia). rewrite E.
    rewrite Z.add_comm, Z.mod_add, Z.mod_small by (done || lia).
    apply list_elem_of_lookup_1 in He as [i Hi].
    by rewrite (find_at _ i e (ok_sorted _ _ Hok) Hi).
  - destruct nv as [k o s]; cbn [NeedleValue.Key NeedleValue.Offset NeedleValue.Size].
    intros [Hk Hv]. unfold map_view in Hv. exists (k `div` SegmentChunkSize).
    destruct (cm !! (k `div` SegmentChunkSize)) as [cs|] eqn:E; [|done].
    destruct (find (list cs) _) as [e|] eqn:Ef; [|done]. cbn [fmap option_fmap option_map] in Hv.
    pose proof (find_Some _ _ _ Ef) as [He Hek]. split.
    + apply list_elem_of_fmap. exists e. split; [|done]. unfold value_of in *.
      injection Hv as <- <-. cbn [fst]. rewrite Hek, <- Z.div_mod by done. done.
    + apply elem_of_chunks. by eexists.
Qed.

Lemma values_sorted cm :
  map_ok cm → StronglySorted Z.lt (NeedleValue.Key <$> values cm).
Proof.
  intros Hm. unfold values. pose proof (chunks_sorted cm) as Hs.
  induction Hs as [|c cs Hs IH Hall]; [constructor|]. cbn [mbind list_bind]. rewrite fmap_app.
  assert (∀ c nv, nv ∈ chunk_values cm c →
    SegmentChunkSize * c ≤ NeedleValue.Key nv < SegmentChunkSize * (c + 1)) as Hrange.
  { intros c' nv. unfold chunk_values. destruct (cm !! c') as [seg|] eqn:E;
      [|intros H; by apply not_elem_of_nil in H].
    destruct (Hm c' seg E) as [Hok _]. intros H. apply list_elem_of_fmap in H as (e & -> & He).
    destruct (ok_range _ _ Hok e He). cbn [NeedleValue.Key]. lia. }
  apply StronglySorted_app. split_and!; [| |exact IH].
  - intros a b Ha Hb. apply list_elem_of_fmap in Ha as (x & -> & Hx).
    apply list_elem_of_fmap in Hb as (y & -> & Hy). apply list_elem_of_bind in Hy as (c' & Hy & Hc').
    rewrite Forall_forall in Hall. specialize (Hall c' Hc').
    pose proof (Hrange c x Hx). pose proof (Hrange c' y Hy). unfold SegmentChunkSize in *. lia.
  - unfold chunk_values. destruct (cm !! c) as [seg|] eqn:E; [|constructor].
    destruct (Hm c seg E) as [Hok _]. pose proof (ok_sorted _ _ Hok) as Hl.
    unfold seg_values. rewrite <- list_fmap_compose. clear -Hl. induction (list seg) as [|e l IH]; [constructor|].
    cbn in *. apply StronglySorted_inv in Hl as [Hl Hall]. constructor; [by apply IH|].
    rewrite Forall_forall in Hall |- *. intros y Hy. apply list_elem_of_fmap in Hy as (e' & -> & He').
    cbn. assert (cnv_key e < cnv_key e'); [|lia]. apply Hall, list_elem_of_fmap. by exists e'.
Qed.

(** [AscendingVisit] calls the visitor on exactly the stored entries, in strictly
    ascending key order, and stops at its first error. *)
Theorem ascending_visit {S} (visit : NeedleValue.t → S → S * option go_error) cm s :
  map_ok cm →
  AscendingVisit visit cm s = IdxSpec.visit visit (values cm) s ∧
  StronglySorted Z.lt (NeedleValue.Key <$> values cm) ∧
  ∀ k o sz, NeedleValue.Mk k o sz ∈ values cm ↔
    in_u 64 k ∧ CompactMap.Get cm k = Ok (Some (NeedleValue.Mk k o sz)).
Proof.
  intros Hm. split_and!; [by apply visit_chunks_spec|by apply values_sorted|].
  intros k o sz. rewrite elem_of_values by done.
  cbn [NeedleValue.Key NeedleValue.Offset NeedleValue.Size]. split.
  - intros [Hk Hv]. split; [done|]. by rewrite get_correct, Hv.
  - intros [Hk Hg]. split; [done|]. rewrite get_correct in Hg by done.
    destruct (map_view cm k) as [[o' s']|]; [|done]. by injection Hg as -> ->.
Qed.

Lemma ascending_visit_witness :
  match IndexSpec.run NewCompactMap
    [IndexSpec.OSet 70000 (Offset.Mk 0 0 0 1) 5; IndexSpec.OSet 3 (Offset.Mk 0 0 0 9) 7] with
  | Ok (cm, _) => AscendingVisit (λ nv s, (s ++ [NeedleValue.Key nv], None)) cm [] = ([3; 70000], None)
  | _ => False
  end.
Proof.
  destruct (IndexSpec.run_sim NewCompactMap ∅
    [IndexSpec.OSet 70000 (Offset.Mk 0 0 0 1) 5; IndexSpec.OSet 3 (Offset.Mk 0 0 0 9) 7] new_sim)
    as (cm & E & Hsim & _).
  { repeat apply Forall_cons_2; [..|apply Forall_nil_2];
      (split; [split; [discriminate|reflexivity]|]; split; [|split; [discriminate|reflexivity]];
       repeat split; discriminate). }
  rewrite E. rewrite (proj1 (ascending_visit _ cm [] Hsim)).
  vm_compute in E. injection E as <-. reflexivity.
Defined.

End CompactMapSpec.
