(* ===== verification/NeedleMap.v ===== *)
(** * NeedleMap: the volume's index, in memory and in its index file
    (weed/storage/needle_map.go, needle_map_metric.go, needle_map_memory.go)

    Every change goes to the in-memory map and is appended to the index file;
    loading replays the file.  The in-memory map is any implementation [M] of
    [NeedleValueMap].  The bloom filter of the metric rebuild
    (github.com/tylertreat/BoomFilters) is a parameter. *)

From S2P Require Import Prelude GoStd Bytes StorageTypes Needle Idx CompactMap.

(** ** Counters *)
Module Metric.

Record t := Mk {
  DeletionCounter : Z; FileCounter : Z;
  DeletionByteCounter : Z; FileByteCounter : Z;
  MaximumFileKey : Z }.
#[global] Instance t_eq_dec : EqDecision t.
Proof. solve_decision. Defined.

Definition zero : t := Mk 0 0 0 0 0.

Definition MaybeSetMaxFileKey (mm : t) (key : Z) : t :=
  if decide (key > MaximumFileKey mm)
  then Mk (DeletionCounter mm) (FileCounter mm) (DeletionByteCounter mm) (FileByteCounter mm) key
  else mm.
Definition LogFileCounter (mm : t) (newSize : Z) : t :=
  Mk (DeletionCounter mm) (u32 (FileCounter mm + 1)) (DeletionByteCounter mm)
     (u64 (FileByteCounter mm + u64 newSize)) (MaximumFileKey mm).
(** [DeletionCounter++] and [DeletionByteCounter += n]. *)
Definition count_deletion (mm : t) (n : Z) : t :=
  Mk (u32 (DeletionCounter mm + 1)) (FileCounter mm)
     (u64 (DeletionByteCounter mm + u64 n)) (FileByteCounter mm) (MaximumFileKey mm).
Definition LogDeletionCounter (mm : t) (oldSize : Z) : t :=
  if decide (oldSize > 0) then count_deletion mm oldSize else mm.
Definition logDelete (mm : t) (deletedByteCount : Z) : t := LogDeletionCounter mm deletedByteCount.
Definition logPut (mm : t) (key oldSize newSize : Z) : t :=
  let mm := MaybeSetMaxFileKey mm key in
  let mm := LogFileCounter mm newSize in
  if bool_decide (oldSize > 0) && Size.IsValid oldSize then LogDeletionCounter mm oldSize else mm.

Definition ContentSize (mm : t) : Z := FileByteCounter mm.
Definition DeletedSize (mm : t) : Z := DeletionByteCounter mm.
Definition FileCount (mm : t) : Z := FileCounter mm.
Definition DeletedCount (mm : t) : Z := DeletionCounter mm.
Definition MaxFileKey (mm : t) : Z := MaximumFileKey mm.

(** *** Walking the index file backwards *)

Section reverse.
Context {S : Type} (fn : NeedleValue.t → S → S * option go_error).

Definition batchSize : Z := 1024 * 4.

(** [for i := int(nextBatchSize) - 1; i >= 0; i--] *)
Fixpoint batch_down (b : bytes) (n : nat) (s : S) : S * res unit :=
  match n with
  | O => (s, Ok tt)
  | Datatypes.S i =>
      match (w ← reslice (sl_of b) (Z.of_nat i * NeedleMapEntrySize)
                   (Z.of_nat i * NeedleMapEntrySize + NeedleMapEntrySize);
             Idx.IdxFileEntry (sl_data w)) with
      | Ok nv =>
          match fn nv s with
          | (s, Some e) => (s, Fail e)
          | (s, None) => batch_down b i s
          end
      | Fail e => (s, Fail e)
      | Panic => (s, Panic)
      end
  end.

Fixpoint reverse_loop (fuel : nat) (r : bytes) (nextBatchSize remainingCount : Z) (s : S)
    : S * res unit :=
  match fuel with
  | O => (s, Panic)
  | Datatypes.S fuel =>
      if decide (0 ≤ remainingCount) then
        let len := NeedleMapEntrySize * nextBatchSize in
        let '(b, e) := OsFile.ReadAt r (NeedleMapEntrySize * remainingCount) len in
        let e := if decide (e = Some EOF ∧ zlen b = len) then None else e in
        match e with
        | Some e => (s, Fail e)
        | None =>
            match batch_down b (Z.to_nat nextBatchSize) s with
            | (s, Ok _) => reverse_loop fuel r batchSize (remainingCount - batchSize) s
            | out => out
            end
        end
      else (s, Ok tt)
  end.

(** [initFn] sees the entry count; the state it prepares is [init]. *)
Definition reverseWalkIndexFile (r : bytes) (init : Z → S → S) (s : S) : S * res unit :=
  let fileSize := zlen r in
  if decide (Z.rem fileSize NeedleMapEntrySize ≠ 0)
  then (s, Fail (Errorf "unexpected file %s size: %d"))
  else
    let entryCount := Z.quot fileSize NeedleMapEntrySize in
    let s := init entryCount s in
    let nextBatchSize := Z.rem entryCount batchSize in
    let nextBatchSize := if decide (nextBatchSize = 0) then batchSize else nextBatchSize in
    reverse_loop (length r + 2) r nextBatchSize (entryCount - nextBatchSize) s.
End reverse.

Section bloom.
Context {B : Type} (NewBloomFilter : Z → B) (TestAndAdd : B → bytes → bool * B).

Definition metric_step (nv : NeedleValue.t) (st : B * t) : (B * t) * option go_error :=
  let '(bf, mm) := st in
  let size := NeedleValue.Size nv in
  let mm := MaybeSetMaxFileKey mm (NeedleValue.Key nv) in
  let buf := match NeedleIdToBytes (zeros NeedleIdSize) (NeedleValue.Key nv) with
             | Ok b => b | _ => [] end in
  let mm := if Size.IsValid size
            then Mk (DeletionCounter mm) (FileCounter mm) (DeletionByteCounter mm)
                    (u64 (FileByteCounter mm + u64 size)) (MaximumFileKey mm)
            else mm in
  let mm := Mk (DeletionCounter mm) (u32 (FileCounter mm + 1)) (DeletionByteCounter mm)
               (FileByteCounter mm) (MaximumFileKey mm) in
  let '(seen, bf) := TestAndAdd bf buf in
  if negb seen then
    ((bf, if negb (Size.IsValid size)
          then Mk (u32 (DeletionCounter mm + 1)) (FileCounter mm) (DeletionByteCounter mm)
                  (FileByteCounter mm) (MaximumFileKey mm)
          else mm), None)
  else
    ((bf, Mk (u32 (DeletionCounter mm + 1)) (FileCounter mm)
             (if Size.IsValid size then u64 (DeletionByteCounter mm + u64 size)
              else DeletionByteCounter mm)
             (FileByteCounter mm) (MaximumFileKey mm)), None).

Definition needleMapMetricFromIndexFile (r : bytes) (mm : t) : t * res unit :=
  let '((_, mm), out) :=
    reverseWalkIndexFile metric_step r (λ n st, (NewBloomFilter n, snd st)) (NewBloomFilter 0, mm) in
  (mm, out).
Definition newNeedleMapMetricFromIndexFile (r : bytes) : t * res unit :=
  needleMapMetricFromIndexFile r zero.
End bloom.
End Metric.

(** ** The mapper *)
Module NeedleMap.
Section mapper.
Context {M : Type} `{NM : NeedleValueMap M}.

Record t := Mk {
  metric : Metric.t;
  indexFile : OsFile.os_file;
  indexFileOffset : Z;
  m : M }.

Definition with_metric (mm : Metric.t) (nm : t) : t := Mk mm (indexFile nm) (indexFileOffset nm) (m nm).
Definition with_map (x : M) (nm : t) : t := Mk (metric nm) (indexFile nm) (indexFileOffset nm) x.

Definition IndexFileSize (nm : t) : Z := u64 (zlen (OsFile.f_data (indexFile nm))).

(** Methods return the receiver and the error, [Ok None] for nil. *)
Definition appendToIndexFile (nm : t) (key : Z) (offset : Offset.t) (size : Z)
    : t * res (option go_error) :=
  match NeedleValue.ToBytes key offset size with
  | Ok b =>
      let '(f, written, err) := OsFile.WriteAt (indexFile nm) b (indexFileOffset nm) in
      (Mk (metric nm) f
          (if decide (err = None) then indexFileOffset nm + written else indexFileOffset nm) (m nm),
       Ok err)
  | Fail e => (nm, Ok (Some e))
  | Panic => (nm, Panic)
  end.

Definition ReadIndexEntry (nm : t) (n : Z) : res NeedleValue.t :=
  let '(b, err) := OsFile.ReadAt (OsFile.f_data (indexFile nm)) (mul64 n NeedleMapEntrySize)
                     NeedleMapEntrySize in
  let err := if decide (err = Some EOF ∧ zlen b = NeedleMapEntrySize) then None else err in
  match err with
  | Some e => Fail e
  | None => Idx.IdxFileEntry b
  end.

Definition NewCompactNeedleMap (new : M) (file : OsFile.os_file) : t :=
  Mk Metric.zero file (zlen (OsFile.f_data file)) new.

Definition Put (nm : t) (key : Z) (offset : Offset.t) (size : Z) : t * res (option go_error) :=
  match map_Set (m nm) key offset size with
  | Ok (x, (_, oldSize)) =>
      let nm := with_map x nm in
      let nm := with_metric (Metric.logPut (metric nm) key oldSize size) nm in
      appendToIndexFile nm key offset size
  | Fail e => (nm, Fail e)
  | Panic => (nm, Panic)
  end.

Definition Get (nm : t) (key : Z) : res (option NeedleValue.t) := map_Get (m nm) key.

Definition Delete (nm : t) (key : Z) (offset : Offset.t) : t * res (option go_error) :=
  match map_Delete (m nm) key with
  | Ok (x, deletedBytes) =>
      let nm := with_map x nm in
      let nm := with_metric (Metric.logDelete (metric nm) deletedBytes) nm in
      appendToIndexFile nm key offset TombstoneFileSize
  | Fail e => (nm, Fail e)
  | Panic => (nm, Panic)
  end.

(** The replay of one row.  [count_all] is [DoOffsetLoading], which counts every
    row as a file where [doLoading] counts the live ones. *)
Definition load_row (count_all : bool) (nv : NeedleValue.t) (st : res (Metric.t * M))
    : res (Metric.t * M) * option go_error :=
  (('(mm, x) ← st;
    let key := NeedleValue.Key nv in
    let size := NeedleValue.Size nv in
    let add_file (mm : Metric.t) :=
      Metric.Mk (Metric.DeletionCounter mm) (u32 (Metric.FileCounter mm + 1))
        (Metric.DeletionByteCounter mm) (Metric.FileByteCounter mm) (Metric.MaximumFileKey mm) in
    let mm := Metric.MaybeSetMaxFileKey mm key in
    let mm := if count_all then add_file mm else mm in
    if negb (Offset.IsZero (NeedleValue.Offset nv)) && negb (Size.IsDeleted size) then
      let mm := if count_all then mm else add_file mm in
      let mm := Metric.Mk (Metric.DeletionCounter mm) (Metric.FileCounter mm)
                  (Metric.DeletionByteCounter mm) (u64 (Metric.FileByteCounter mm + u64 size))
                  (Metric.MaximumFileKey mm) in
      '(x, (oldOffset, oldSize)) ← map_Set x key (NeedleValue.Offset nv) size;
      mret (if negb (Offset.IsZero oldOffset) && negb (Size.IsDeleted oldSize)
            then Metric.count_deletion mm oldSize else mm, x)
    else
      '(x, oldSize) ← map_Delete x key;
      mret (Metric.count_deletion mm oldSize, x)), None).

(** A panic in the callback unwinds the walk: the state stays [Panic]. *)
Definition load_from (count_all : bool) (file : OsFile.os_file) (startFrom : Z) (nm : t)
    : t * res (option go_error) :=
  let '(st, e) := Idx.WalkIndexFile (load_row count_all) (OsFile.f_data file) startFrom
                    (Ok (metric nm, m nm)) in
  match st with
  | Ok (mm, x) => (with_map x (with_metric mm nm), e)
  | Fail err => (nm, Fail err)
  | Panic => (nm, Panic)
  end.

Definition doLoading (file : OsFile.os_file) (nm : t) : t * res (option go_error) :=
  load_from false file 0 nm.
Definition LoadCompactNeedleMap (new : M) (file : OsFile.os_file) : t * res (option go_error) :=
  doLoading file (NewCompactNeedleMap new file).
Definition DoOffsetLoading (nm : t) (file : OsFile.os_file) (startFrom : Z)
    : t * res (option go_error) := load_from true file startFrom nm.

End mapper.
Arguments t M : clear implicits.
End NeedleMap.

(** ** Loading the index file restores the index

    As long as no write of the index file fails: a failed one leaves the change in
    memory only. *)
Module Recovery.
Import NeedleMap.

Inductive change := CPut (k : Z) (o : Offset.t) (s : Z) | CDelete (k : Z) (o : Offset.t).

(** What the volume passes: puts carry the offset of a needle (past the super
    block, so not zero) and its size. *)
Definition change_ok (x : change) : Prop :=
  match x with
  | CPut k o s => in_u 64 k ∧ Offset.wf o ∧ Offset.IsZero o = false ∧ 0 ≤ s < 2 ^ 31
  | CDelete k o => in_u 64 k ∧ Offset.wf o
  end.

(** The row a change appends. *)
Definition row_of (x : change) : NeedleValue.t :=
  match x with
  | CPut k o s => NeedleValue.Mk k o s
  | CDelete k o => NeedleValue.Mk k o TombstoneFileSize
  end.
Definition op_of (x : change) : IndexSpec.op :=
  match x with CPut k o s => IndexSpec.OSet k o s | CDelete k _ => IndexSpec.ODelete k end.

Section recovery.
Context {M : Type} `{NM : NeedleValueMap M} {NL : NeedleValueMapLaws M}.

Definition apply (nm : t M) (x : change) : t M * res (option go_error) :=
  match x with CPut k o s => Put nm k o s | CDelete k o => Delete nm k o end.

(** All changes, each without an error. *)
Fixpoint apply_all (nm : t M) (xs : list change) : option (t M) :=
  match xs with
  | [] => Some nm
  | x :: xs => match apply nm x with (nm, Ok None) => apply_all nm xs | _ => None end
  end.

(** Counters that survive a reload. *)
Definition same_counters (a b : Metric.t) : Prop :=
  Metric.FileCounter a = Metric.FileCounter b ∧
  Metric.FileByteCounter a = Metric.FileByteCounter b ∧
  Metric.DeletionByteCounter a = Metric.DeletionByteCounter b ∧
  in_u 64 (Metric.DeletionByteCounter a) ∧
  Metric.MaximumFileKey a ≤ Metric.MaximumFileKey b ∧ in_u 32 (Metric.FileCounter a).

(** Stored entries have an offset. *)
Definition located (a : IndexSpec.index) : Prop :=
  ∀ k o s, a !! k = Some (o, s) → Offset.IsZero o = false ∧ in_s 32 s.

Definition appends (nm nm' : t M) (x : change) : Prop :=
  indexFile nm' = OsFile.OsF (OsFile.f_data (indexFile nm) ++ NeedleValue.row (row_of x)) None ∧
  indexFileOffset nm' = zlen (OsFile.f_data (indexFile nm')).

Definition at_end (nm : t M) : Prop :=
  OsFile.f_limit (indexFile nm) = None ∧ indexFileOffset nm = zlen (OsFile.f_data (indexFile nm)).

Lemma append_row nm x :
  at_end nm →
  ∃ nm', appendToIndexFile nm (NeedleValue.Key (row_of x)) (NeedleValue.Offset (row_of x))
           (NeedleValue.Size (row_of x)) = (nm', Ok None) ∧
    appends nm nm' x ∧ metric nm' = metric nm ∧ m nm' = m nm ∧ at_end nm'.
Proof.
  intros [Hl Ho]. unfold appendToIndexFile.
  change (NeedleValue.ToBytes _ _ _) with (NeedleValue.NeedleValue_ToBytes (row_of x)).
  rewrite NeedleValue.ToBytes_row. unfold OsFile.WriteAt, OsFile.fits. rewrite Hl, Ho.
  assert (zlen (NeedleValue.row (row_of x)) = 16) as Hr by done.
  pose proof (zlen_nonneg (OsFile.f_data (indexFile nm))).
  rewrite (decide_False (P := _ < 0)) by lia. rewrite (decide_False (P := zlen (NeedleValue.row (row_of x)) < _)) by lia.
  rewrite (decide_True (P := 0 < _)) by lia. rewrite (decide_True (P := None = None)) by done.
  rewrite sub_all, OsFile.put_append by lia.
  eexists. split; [done|]. unfold appends, at_end; cbn. split_and!; try done; zl.
Qed.

Lemma u64_add_0 z : in_u 64 z → u64 (z + u64 0) = z.
Proof. intros. rewrite (wrap_id 64 0), Z.add_0_r by (widths; lia). by apply wrap_id. Qed.

(** Counting a deletion of size [s] where the other side counts only [s > 0]. *)
Lemma deletion_bytes mm s :
  in_u 64 (Metric.DeletionByteCounter mm) → 0 ≤ s →
  Metric.DeletionByteCounter (Metric.LogDeletionCounter mm s)
  = u64 (Metric.DeletionByteCounter mm + u64 s).
Proof.
  intros Hm Hs. unfold Metric.LogDeletionCounter. case_decide; [done|].
  assert (s = 0) as -> by lia. by rewrite u64_add_0.
Qed.

(** One change and the replay of its row, from states that agree. *)
Definition agree (nm : t M) (st : Metric.t * M) (a : IndexSpec.index) : Prop :=
  IndexSpec.sim (m nm) a ∧ IndexSpec.sim (snd st) a ∧ same_counters (metric nm) (fst st) ∧
  located a ∧ at_end nm.

Lemma step_Set x k o s out :
  IndexSpec.step x (IndexSpec.OSet k o s) = Ok out →
  ∃ o' s', map_Set x k o s = Ok (fst out, (o', s')) ∧ snd out = IndexSpec.OldValue o' s'.
Proof.
  cbn. destruct (map_Set x k o s) as [[x' [o' s']]| |]; cbn; try done. intros [= <-].
  by exists o', s'.
Qed.
Lemma step_Delete x k out :
  IndexSpec.step x (IndexSpec.ODelete k) = Ok out →
  ∃ s', map_Delete x k = Ok (fst out, s') ∧ snd out = IndexSpec.OldSize s'.
Proof.
  cbn. destruct (map_Delete x k) as [[x' s']| |]; cbn; try done. intros [= <-]. by exists s'.
Qed.

Lemma change_op_ok x : change_ok x → IndexSpec.op_ok (op_of x).
Proof.
  destruct x as [k o s|k o]; cbn; [|tauto]. intros (Hk & Ho & _ & Hs).
  split_and!; [done..|]. unfold in_s. change (2 ^ (32 - 1)) with (2 ^ 31). lia.
Qed.

Lemma located_step a x : located a → change_ok x → located (fst (IndexSpec.spec_step a (op_of x))).
Proof.
  intros Ha Hx k o s. destruct x as [k' o' s'|k' o']; cbn.
  - destruct (default _ (a !! k')). cbn. destruct Hx as (_ & _ & Hz & Hs).
    intros [[<- [= <- <-]]|[_ H]]%lookup_insert_Some; [|by apply (Ha k)]. split; [done|].
    unfold in_s. change (2 ^ (32 - 1)) with (2 ^ 31). lia.
  - destruct (a !! k') as [[o1 s1]|] eqn:E; cbn; [|by apply Ha].
    destruct (Ha _ _ _ E) as [Ho1 Hs1].
    intros [[<- [= <- <-]]|[_ H]]%lookup_insert_Some; [|by apply (Ha k)]. split; [done|].
    unfold deleted_size, TombstoneFileSize. repeat case_decide; widths; lia.
Qed.

Lemma old_located a k o s :
  located a → default (Offset.zero, 0) (a !! k) = (o, s) →
  a !! k = None ∧ o = Offset.zero ∧ s = 0 ∨ Offset.IsZero o = false ∧ in_s 32 s.
Proof.
  intros Ha. destruct (a !! k) as [[o' s']|] eqn:E; cbn; intros [= <- <-]; [right|by left].
  by apply (Ha k).
Qed.

(** The counters stay together through matching steps. *)
Lemma counters_max a b k :
  same_counters a b →
  same_counters (Metric.MaybeSetMaxFileKey a k) (Metric.MaybeSetMaxFileKey b k).
Proof.
  unfold same_counters, Metric.MaybeSetMaxFileKey. intros (C1 & C2 & C3 & C4 & C5 & C6).
  repeat case_decide; cbn; split_and!; auto; lia.
Qed.
Lemma counters_max_r a b k :
  same_counters a b → same_counters a (Metric.MaybeSetMaxFileKey b k).
Proof.
  unfold same_counters, Metric.MaybeSetMaxFileKey. intros (C1 & C2 & C3 & C4 & C5 & C6).
  case_decide; cbn; split_and!; auto; lia.
Qed.
Lemma counters_file a b s :
  same_counters a b → same_counters (Metric.LogFileCounter a s) (Metric.LogFileCounter b s).
Proof.
  unfold same_counters, Metric.LogFileCounter. intros (C1 & C2 & C3 & C4 & C5 & C6). cbn.
  rewrite C1, C2. split_and!; auto. apply wrap_range. lia.
Qed.
Lemma counters_delete a b s :
  same_counters a b → 0 ≤ s →
  same_counters (Metric.LogDeletionCounter a s) (Metric.count_deletion b s).
Proof.
  intros (C1 & C2 & C3 & C4 & C5 & C6) Hs. unfold same_counters. rewrite deletion_bytes by done.
  unfold Metric.LogDeletionCounter. split_and!.
  1,2,5,6: case_decide; cbn; done.
  - cbn. by rewrite C3.
  - apply wrap_range. lia.
Qed.
Lemma counters_put a b k s o1 s1 :
  same_counters a b → o1 = Offset.zero ∧ s1 = 0 ∨ Offset.IsZero o1 = false →
  same_counters (Metric.logPut a k s1 s)
    (let mm := Metric.LogFileCounter (Metric.MaybeSetMaxFileKey b k) s in
     if negb (Offset.IsZero o1) && negb (Size.IsDeleted s1)
     then Metric.count_deletion mm s1 else mm).
Proof.
  intros Hab Ho. unfold Metric.logPut.
  pose proof (counters_file _ _ s (counters_max _ _ k Hab)) as H1. cbv zeta.
  destruct Ho as [[-> ->]| ->]; [done|]. cbn [negb andb].
  destruct (Size.IsDeleted s1) eqn:Hd; cbn [negb].
  - apply Size.IsDeleted_spec in Hd. by rewrite bool_decide_false by lia.
  - apply Size.IsDeleted_false in Hd. pose proof (counters_delete _ _ s1 H1 Hd) as H2.
    destruct (decide (s1 = 0)) as [->|Hne]; [exact H2|].
    rewrite bool_decide_true by lia.
    assert (Size.IsValid s1 = true) as -> by (apply Size.IsValid_spec; lia). exact H2.
Qed.

Lemma agree_put nm mm x a k o s :
  agree nm (mm, x) a → change_ok (CPut k o s) →
  ∃ nm' st', apply nm (CPut k o s) = (nm', Ok None) ∧ appends nm nm' (CPut k o s) ∧
    load_row false (NeedleValue.Mk k o s) (Ok (mm, x)) = (Ok st', None) ∧
    agree nm' st' (fst (IndexSpec.spec_step a (IndexSpec.OSet k o s))).
Proof.
  intros (S1 & S2 & (C1 & C2 & C3 & C4 & C5 & C6) & Hl & He) Hx. pose proof Hx as (Hk & Ho & Hz & Hs).
  pose proof (change_op_ok _ Hx) as Hop. pose proof (located_step a _ Hl Hx) as Hl'. cbn [op_of] in *.
  destruct (IndexSpec.step_sim _ _ _ S1 Hop) as (m1 & E1 & S1').
  destruct (IndexSpec.step_sim _ _ _ S2 Hop) as (m2 & E2 & S2'). cbn [snd] in E2.
  apply step_Set in E1 as (o1 & s1 & E1 & O1), E2 as (o2 & s2 & E2 & O2). cbn [fst snd] in *.
  rewrite O1 in O2. injection O2 as <- <-.
  assert (default (Offset.zero, 0) (a !! k) = (o1, s1)) as Hold.
  { cbn in O1. destruct (default _ (a !! k)). by injection O1 as -> ->. }
  set (mm1 := Metric.logPut (metric nm) k s1 s).
  destruct (append_row (with_metric mm1 (with_map m1 nm)) (CPut k o s)) as (nm' & Ea & Hap & Em & Emap & He');
    [done|].
  exists nm'. eexists. split; [unfold apply, Put; rewrite E1; exact Ea|]. split; [exact Hap|].
  assert (Size.IsDeleted s = false) as Hd by (apply Size.IsDeleted_false; lia).
  split.
  { unfold load_row. cbn [mbind res_bind NeedleValue.Key NeedleValue.Size NeedleValue.Offset].
    rewrite Hz, Hd. cbn [negb andb]. rewrite E2. cbn [mbind res_bind]. reflexivity. }
  unfold agree. rewrite Emap, Em. cbn [with_metric with_map metric NeedleMap.m fst snd].
  split_and!; [done|done| |done|done]. subst mm1.
  apply (counters_put (metric nm) mm k s o1 s1); [done|].
  destruct (old_located a k o1 s1 Hl Hold) as [(_ & -> & ->)|[? _]]; auto.
Qed.

Lemma agree_delete nm mm x a k o :
  agree nm (mm, x) a → change_ok (CDelete k o) →
  ∃ nm' st', apply nm (CDelete k o) = (nm', Ok None) ∧ appends nm nm' (CDelete k o) ∧
    load_row false (NeedleValue.Mk k o TombstoneFileSize) (Ok (mm, x)) = (Ok st', None) ∧
    agree nm' st' (fst (IndexSpec.spec_step a (IndexSpec.ODelete k))).
Proof.
  intros (S1 & S2 & Hc & Hl & He) Hx. pose proof Hx as (Hk & Ho).
  pose proof (change_op_ok _ Hx) as Hop. pose proof (located_step a _ Hl Hx) as Hl'. cbn [op_of] in *.
  destruct (IndexSpec.step_sim _ _ _ S1 Hop) as (m1 & E1 & S1').
  destruct (IndexSpec.step_sim _ _ _ S2 Hop) as (m2 & E2 & S2'). cbn [snd] in E2.
  apply step_Delete in E1 as (s1 & E1 & O1), E2 as (s2 & E2 & O2). cbn [fst snd] in *.
  rewrite O1 in O2. injection O2 as <-.
  assert (0 ≤ s1) as Hs1.
  { cbn in O1. destruct (a !! k) as [[? ?]|]; injection O1 as <-; lia. }
  destruct (append_row (with_metric (Metric.logDelete (metric nm) s1) (with_map m1 nm))
    (CDelete k o)) as (nm' & Ea & Hap & Em & Emap & He'); [done|].
  exists nm'. eexists. split; [unfold apply, Delete; rewrite E1; exact Ea|]. split; [exact Hap|].
  split.
  { unfold load_row. cbn [mbind res_bind NeedleValue.Key NeedleValue.Size NeedleValue.Offset].
    change (Size.IsDeleted TombstoneFileSize) with true. rewrite andb_false_r, E2.
    cbn [mbind res_bind]. reflexivity. }
  unfold agree. rewrite Emap, Em. cbn [with_metric with_map metric NeedleMap.m fst snd].
  split_and!; [done|done| |done|done]. unfold Metric.logDelete.
  apply counters_delete; [|done]. by apply counters_max_r.
Qed.

Lemma agree_all nm st a xs :
  agree nm st a → Forall change_ok xs →
  ∃ nm' st', apply_all nm xs = Some nm' ∧
    OsFile.f_data (indexFile nm')
      = OsFile.f_data (indexFile nm) ++ concat (NeedleValue.row ∘ row_of <$> xs) ∧
    IdxSpec.visit (load_row false) (row_of <$> xs) (Ok st) = (Ok st', None) ∧
    agree nm' st' (fst (IndexSpec.spec_run a (op_of <$> xs))).
Proof.
  intros Ha Hxs. revert nm st a Ha. induction Hxs as [|x xs Hx _ IH]; intros nm [mm y] a Ha.
  { exists nm, (mm, y). cbn. by rewrite app_nil_r. }
  assert (∃ nm' st', apply nm x = (nm', Ok None) ∧ appends nm nm' x ∧
    load_row false (row_of x) (Ok (mm, y)) = (Ok st', None) ∧
    agree nm' st' (fst (IndexSpec.spec_step a (op_of x)))) as (nm1 & st1 & E1 & [Hf _] & L1 & A1).
  { destruct x; [by apply agree_put|by apply agree_delete]. }
  destruct (IH nm1 st1 _ A1) as (nm2 & st2 & E2 & Hf2 & L2 & A2).
  exists nm2, st2. cbn [apply_all fmap list_fmap IdxSpec.visit IndexSpec.spec_run].
  rewrite E1, L1. split_and!; [done| |done|].
  - rewrite Hf2, Hf. cbn. by rewrite <- app_assoc.
  - destruct (IndexSpec.spec_step a (op_of x)) as [a1 y1]; cbn [fst] in *.
    by destruct (IndexSpec.spec_run a1 (op_of <$> xs)).
Qed.

Lemma row_wf x : change_ok x → NeedleValue.wf (row_of x).
Proof.
  destruct x as [k o s|k o]; unfold NeedleValue.wf; cbn.
  - intros (? & ? & _ & ?). split_and!; [done..|]. unfold in_s.
    change (2 ^ (32 - 1)) with (2 ^ 31). lia.
  - intros (? & ?). split_and!; [done..|]. split; [discriminate|reflexivity].
Qed.

(** The rows of a file written by a sequence of changes. *)
Lemma change_rows xs :
  Forall change_ok xs → IdxSpec.entries (concat (NeedleValue.row ∘ row_of <$> xs)) = row_of <$> xs.
Proof.
  intros Hxs. rewrite list_fmap_compose. apply IdxRows.entries_rows, Forall_fmap.
  eapply Forall_impl; [done|]. intros x. apply row_wf.
Qed.

Lemma agree_new new :
  IndexSpec.sim new ∅ → agree (NewCompactNeedleMap new (OsFile.OsF [] None)) (Metric.zero, new) ∅.
Proof.
  intros Hnew. unfold agree, same_counters, located, at_end. cbn. split_and!; done.
Qed.

(** C15: replaying the index file restores the index: after any sequence of puts and
    deletes, none of whose index writes failed, loading the file gives a map that answers every [Get] like the one in
    memory, with the same file count, content size, deleted bytes and write
    position, and a maximum key at least as large. *)
Theorem index_recovery new xs :
  IndexSpec.sim new ∅ → Forall change_ok xs →
  ∃ nm loaded,
    apply_all (NewCompactNeedleMap new (OsFile.OsF [] None)) xs = Some nm ∧
    LoadCompactNeedleMap new (indexFile nm) = (loaded, Ok None) ∧
    (∀ k, in_u 64 k → Get loaded k = Get nm k) ∧
    Metric.FileCount (metric loaded) = Metric.FileCount (metric nm) ∧
    Metric.ContentSize (metric loaded) = Metric.ContentSize (metric nm) ∧
    Metric.DeletedSize (metric loaded) = Metric.DeletedSize (metric nm) ∧
    Metric.MaxFileKey (metric nm) ≤ Metric.MaxFileKey (metric loaded) ∧
    indexFileOffset loaded = indexFileOffset nm.
Proof.
  intros Hnew Hxs. set (nm0 := NewCompactNeedleMap new (OsFile.OsF [] None)).
  pose proof (agree_new new Hnew) as A0.
  destruct (agree_all nm0 _ _ xs A0 Hxs) as (nm & [mm y] & E & Hf & L & A).
  destruct A as (S1 & S2 & (C1 & C2 & C3 & _ & C5 & _) & _ & [_ Ho]). cbn [fst snd] in *.
  exists nm. eexists. split; [exact E|]. split.
  { unfold LoadCompactNeedleMap, doLoading, load_from. rewrite IdxSpec.walk_file by done.
    rewrite Hf. cbn [nm0 NewCompactNeedleMap indexFile OsFile.f_data app].
    rewrite drop_0, change_rows by done. unfold IdxSpec.walk_out.
    change (metric (NewCompactNeedleMap new (indexFile nm))) with Metric.zero.
    change (NeedleMap.m (NewCompactNeedleMap new (indexFile nm))) with new.
    rewrite L. reflexivity. }
  unfold Get, Metric.FileCount, Metric.ContentSize, Metric.DeletedSize, Metric.MaxFileKey.
  cbn [with_map with_metric metric NeedleMap.m indexFileOffset NewCompactNeedleMap].
  split_and!; [|done..]. intros k Hk. by rewrite !(IndexSpec.get_sim _ _ k) by eauto.
Qed.


(** *** Loading in two steps *)

(** A deletion row, as the loaders decide it. *)
Definition dead (nv : NeedleValue.t) : bool :=
  negb (negb (Offset.IsZero (NeedleValue.Offset nv)) && negb (Size.IsDeleted (NeedleValue.Size nv))).
Definition dead_rows (rows : list NeedleValue.t) : Z := zlen (filter (λ nv, dead nv = true) rows).

Definition add_files (n : Z) (mm : Metric.t) : Metric.t :=
  Metric.Mk (Metric.DeletionCounter mm) (u32 (Metric.FileCounter mm + n))
    (Metric.DeletionByteCounter mm) (Metric.FileByteCounter mm) (Metric.MaximumFileKey mm).

Lemma u32_assoc a b c : u32 (u32 (a + b) + c) = u32 (a + (b + c)).
Proof. unfold wrap. rewrite Zplus_mod_idemp_l. f_equal. lia. Qed.
Lemma add_files_0 n mm : add_files 0 (add_files n mm) = add_files n mm.
Proof. unfold add_files; cbn. by rewrite u32_assoc, Z.add_0_r. Qed.
Lemma max_add_files n mm k :
  Metric.MaybeSetMaxFileKey (add_files n mm) k = add_files n (Metric.MaybeSetMaxFileKey mm k).
Proof. unfold Metric.MaybeSetMaxFileKey; cbn. by case_decide. Qed.

(** The second loader does the same work and counts the dead rows as files too. *)
Lemma load_row_both nv n mm x st :
  load_row false nv (Ok (mm, x)) = (Ok st, None) →
  load_row true nv (Ok (add_files n mm, x))
  = (Ok (add_files (n + if dead nv then 1 else 0) (fst st), snd st), None).
Proof.
  unfold load_row, dead. cbn [mbind res_bind]. rewrite max_add_files.
  set (mm1 := Metric.MaybeSetMaxFileKey mm _). clearbody mm1.
  destruct (negb (Offset.IsZero _) && negb (Size.IsDeleted _)); cbn [negb].
  - destruct (map_Set x _ _ _) as [[x' [o' s']]| |]; cbn [mbind res_bind]; [|done..].
    intros [= <-]. cbn [fst snd]. do 3 f_equal.
    destruct (negb _ && negb _); unfold Metric.count_deletion, add_files; cbn;
      f_equal; rewrite !u32_assoc; f_equal; lia.
  - destruct (map_Delete x _) as [[x' s']| |]; cbn [mbind res_bind]; [|done..].
    intros [= <-]. cbn [fst snd]. do 3 f_equal.
    unfold Metric.count_deletion, add_files; cbn. f_equal. by rewrite u32_assoc.
Qed.

Lemma load_row_stuck b nv (st : res (Metric.t * M)) :
  (∀ p, st ≠ Ok p) → load_row b nv st = (match st with Fail e => Fail e | _ => Panic end, None).
Proof. destruct st; intros H; [by destruct (H a)|done..]. Qed.

Lemma visit_stuck b rows (st : res (Metric.t * M)) p :
  IdxSpec.visit (load_row b) rows st = (Ok p, None) → ∃ q, st = Ok q.
Proof.
  revert st. induction rows as [|nv rows IH]; intros st; cbn; [intros [= ->]; eauto|].
  destruct st as [q|e|]; [eauto| |]; cbn; intros H; by apply IH in H as [? ?].
Qed.

Lemma load_both rows n mm x st :
  IdxSpec.visit (load_row false) rows (Ok (mm, x)) = (Ok st, None) →
  IdxSpec.visit (load_row true) rows (Ok (add_files n mm, x))
  = (Ok (add_files (n + dead_rows rows) (fst st), snd st), None).
Proof.
  revert n mm x. induction rows as [|nv rows IH]; intros n mm x.
  { cbn. intros [= <-]. cbn. by rewrite Z.add_0_r. }
  cbn [IdxSpec.visit]. intros H.
  destruct (load_row false nv (Ok (mm, x))) as [st1 [err|]] eqn:E1; [done|].
  destruct (visit_stuck _ _ _ _ H) as [[mm1 x1] ->].
  rewrite (load_row_both nv n mm x _ E1). cbn [fst snd]. rewrite (IH _ mm1 x1 H).
  do 4 f_equal. unfold dead_rows. rewrite filter_cons. case_decide as Hd.
  - rewrite Hd, zlen_cons. lia.
  - destruct (dead nv); [done|]. lia.
Qed.

(** loading a prefix of the index and then the rest by offset gives the same map,
    byte counters and maximum key as loading it whole; the file count is larger by
    the number of deletion rows in the rest. *)
Theorem offset_loading new xs ys file nm1 :
  IndexSpec.sim new ∅ → Forall change_ok xs → Forall change_ok ys →
  OsFile.f_data file = concat (NeedleValue.row ∘ row_of <$> (xs ++ ys)) →
  zlen xs * NeedleMapEntrySize < 2 ^ 63 →
  LoadCompactNeedleMap new (OsFile.OsF (concat (NeedleValue.row ∘ row_of <$> xs)) None) = (nm1, Ok None) →
  ∃ full part,
    LoadCompactNeedleMap new file = (full, Ok None) ∧
    DoOffsetLoading nm1 file (zlen xs) = (part, Ok None) ∧
    m part = m full ∧
    metric part = add_files (dead_rows (row_of <$> ys)) (metric full).
Proof.
  intros Hnew Hxs Hys Hf Hlen. unfold LoadCompactNeedleMap, DoOffsetLoading, doLoading, load_from.
  rewrite !IdxSpec.walk_file by (done || apply zlen_nonneg). cbn [OsFile.f_data]. rewrite Hf.
  assert (Forall change_ok (xs ++ ys)) as Hall by (by apply Forall_app).
  change (Z.to_nat (0 * NeedleMapEntrySize)) with 0%nat. rewrite !drop_0, !change_rows by done.
  assert (drop (Z.to_nat (zlen xs * NeedleMapEntrySize)) (concat (NeedleValue.row ∘ row_of <$> (xs ++ ys)))
    = concat (NeedleValue.row ∘ row_of <$> ys)) as ->.
  { rewrite fmap_app, concat_app.
    replace (zlen xs * NeedleMapEntrySize) with (zlen (concat (NeedleValue.row ∘ row_of <$> xs)));
      [apply drop_zlen|]. clear. unfold NeedleMapEntrySize, NeedleIdSize, Offset.OffsetSize, SizeSize.
    induction xs as [|x xs IH]; [done|]. cbn [fmap list_fmap concat]. rewrite zlen_app, IH, zlen_cons.
    change (zlen ((NeedleValue.row ∘ row_of) x)) with 16. lia. }
  rewrite change_rows by done. unfold IdxSpec.walk_out. rewrite fmap_app, IdxSpec.visit_app.
  cbn [NewCompactNeedleMap metric NeedleMap.m].
  destruct (IdxSpec.visit (load_row false) (row_of <$> xs) (Ok (Metric.zero, new))) as [[[mm1 x1]|e|] [err|]] eqn:E1;
    try done.
  intros [= <-]. cbn [with_map with_metric metric NeedleMap.m indexFile indexFileOffset].
  destruct (agree_all (NewCompactNeedleMap new (OsFile.OsF [] None)) (Metric.zero, new) ∅ (xs ++ ys))
    as (nm & [mm2 x2] & _ & _ & L & _); [by apply agree_new|done|].
  destruct (agree_all (NewCompactNeedleMap new (OsFile.OsF [] None)) (Metric.zero, new) ∅ xs)
    as (nm' & st & _ & _ & L1 & A1); [by apply agree_new|done|].
  rewrite E1 in L1. injection L1 as <-.
  destruct A1 as (_ & _ & (C1 & _ & _ & _ & _ & C6) & _). cbn [fst] in C1.
  rewrite fmap_app, IdxSpec.visit_app, E1 in L. rewrite L.
  assert (mm1 = add_files 0 mm1) as Emm.
  { destruct mm1; unfold add_files; cbn in *. f_equal. rewrite Z.add_0_r, wrap_id; congruence. }
  pose proof (load_both _ 0 mm1 x1 _ L) as L2. rewrite <- Emm in L2.
  match goal with |- context [IdxSpec.visit (load_row true) _ ?s] =>
    change s with (Ok (mm1, x1)) end.
  rewrite L2. cbn [fst snd].
  do 2 eexists. split; [reflexivity|]. split; [reflexivity|]. done.
Qed.
End recovery.
End Recovery.

(** ** Replaying any rows *)
Module Replay.
Import NeedleMap Recovery.

(** The operation a loader performs for a row, and for a file of rows. *)
Definition row_op (nv : NeedleValue.t) : IndexSpec.op :=
  if dead nv then IndexSpec.ODelete (NeedleValue.Key nv)
  else IndexSpec.OSet (NeedleValue.Key nv) (NeedleValue.Offset nv) (NeedleValue.Size nv).
Definition replay_row (a : IndexSpec.index) (nv : NeedleValue.t) : IndexSpec.index :=
  fst (IndexSpec.spec_step a (row_op nv)).
Definition replay : IndexSpec.index → list NeedleValue.t → IndexSpec.index := foldl replay_row.

Lemma row_op_ok nv : NeedleValue.wf nv → IndexSpec.op_ok (row_op nv).
Proof. intros (Hk & Ho & Hs). unfold row_op. by destruct (dead nv). Qed.

Section replay.
Context {M : Type} `{NM : NeedleValueMap M} {NL : NeedleValueMapLaws M}.

Lemma load_row_sim b nv mm x a :
  IndexSpec.sim x a → NeedleValue.wf nv →
  ∃ mm' x', load_row b nv (Ok (mm, x)) = (Ok (mm', x'), None) ∧ IndexSpec.sim x' (replay_row a nv).
Proof.
  intros Hs Hw. destruct (IndexSpec.step_sim _ _ (row_op nv) Hs (row_op_ok _ Hw)) as (x' & E & S').
  unfold replay_row, row_op, dead, load_row in *. cbn [mbind res_bind].
  destruct (negb (Offset.IsZero _) && negb (Size.IsDeleted _)); cbn [negb] in *.
  - apply step_Set in E as (o' & s' & E & _). cbn [fst] in E. rewrite E. cbn [mbind res_bind]. by do 2 eexists.
  - apply step_Delete in E as (s' & E & _). cbn [fst] in E. rewrite E. cbn [mbind res_bind]. by do 2 eexists.
Qed.

Lemma load_rows_sim b rows mm x a :
  IndexSpec.sim x a → Forall NeedleValue.wf rows →
  ∃ mm' x', IdxSpec.visit (load_row b) rows (Ok (mm, x)) = (Ok (mm', x'), None) ∧ IndexSpec.sim x' (replay a rows).
Proof.
  intros Hs Hf. revert mm x a Hs. induction Hf as [|nv rows Hw Hf IH]; intros mm x a Hs; [by exists mm, x|].
  destruct (load_row_sim b nv mm x a Hs Hw) as (mm1 & x1 & E & S1). cbn [IdxSpec.visit]. rewrite E.
  by apply IH.
Qed.

(** The rows from the given one on are replayed. *)
Lemma load_from_sim b file done todo nm a :
  IndexSpec.sim (m nm) a → Forall NeedleValue.wf todo →
  OsFile.f_data file = IdxRows.rows done ++ IdxRows.rows todo →
  zlen done * NeedleMapEntrySize < 2 ^ 63 →
  ∃ mm x, load_from b file (zlen done) nm = (with_map x (with_metric mm nm), Ok None)
    ∧ IndexSpec.sim x (replay a todo).
Proof.
  intros Hs Hf Hd Hlen. destruct (load_rows_sim b todo (metric nm) (m nm) a Hs Hf) as (mm & x & E & Hx).
  exists mm, x. split; [|done]. unfold load_from. rewrite IdxSpec.walk_file by (done || apply zlen_nonneg).
  replace (zlen done * NeedleMapEntrySize) with (zlen (IdxRows.rows done)).
  2: { rewrite IdxRows.zlen_rows. unfold NeedleMapEntrySize, NeedleIdSize, Offset.OffsetSize, SizeSize. lia. }
  rewrite Hd, drop_zlen. rewrite IdxRows.entries_rows by done. unfold IdxSpec.walk_out. by rewrite E.
Qed.
End replay.
End Replay.

(** ** Concrete instances *)
Module RecoveryExamples.
Import NeedleMap Recovery.

Definition o1 : Offset.t := Offset.Mk 0 0 0 1.
Definition some_changes : list change := [CPut 7 o1 5; CPut 8 o1 0; CDelete 7 o1].

Lemma some_changes_ok : Forall change_ok some_changes.
Proof.
  repeat apply Forall_cons_2; [..|apply Forall_nil_2]; unfold change_ok; split_and!;
    try (repeat split; discriminate || reflexivity).
Qed.

Lemma index_recovery_witness :
  ∃ nm loaded,
    apply_all (NewCompactNeedleMap CompactMap.NewCompactMap (OsFile.OsF [] None)) some_changes = Some nm ∧
    LoadCompactNeedleMap CompactMap.NewCompactMap (indexFile nm) = (loaded, Ok None) ∧
    Get loaded 7 = Ok (Some (NeedleValue.Mk 7 o1 (-5))).
Proof.
  destruct (index_recovery CompactMap.NewCompactMap some_changes) as (nm & loaded & E & L & G & _);
    [exact CompactMapSpec.new_sim|exact some_changes_ok|].
  exists nm, loaded. split; [exact E|]. split; [exact L|]. rewrite G by (split; [discriminate|reflexivity]).
  vm_compute in E. injection E as <-. vm_compute. reflexivity.
Defined.

Lemma offset_loading_witness :
  ∃ full part,
    LoadCompactNeedleMap CompactMap.NewCompactMap
      (OsFile.OsF (concat (NeedleValue.row ∘ row_of <$> some_changes)) None) = (full, Ok None) ∧
    DoOffsetLoading (fst (LoadCompactNeedleMap CompactMap.NewCompactMap
      (OsFile.OsF (concat (NeedleValue.row ∘ row_of <$> take 2 some_changes)) None)))
      (OsFile.OsF (concat (NeedleValue.row ∘ row_of <$> some_changes)) None) 2 = (part, Ok None) ∧
    metric part = add_files 1 (metric full).
Proof.
  destruct (offset_loading CompactMap.NewCompactMap (take 2 some_changes) (drop 2 some_changes)
    (OsFile.OsF (concat (NeedleValue.row ∘ row_of <$> some_changes)) None)
    (fst (LoadCompactNeedleMap CompactMap.NewCompactMap
      (OsFile.OsF (concat (NeedleValue.row ∘ row_of <$> take 2 some_changes)) None))))
    as (full & part & E1 & E2 & _ & E3);
    [exact CompactMapSpec.new_sim|exact (Forall_take _ 2 _ some_changes_ok)
    |exact (Forall_drop _ 2 _ some_changes_ok)|reflexivity|reflexivity|vm_compute; reflexivity|].
  exists full, part. split; [exact E1|]. split; [exact E2|exact E3].
Defined.

(** The count of deletions does not survive a reload: deleting a key that is not
    stored counts nothing in memory and one deletion when the file is replayed. *)
Theorem deletion_count_diverges :
  ∃ nm loaded,
    apply_all (NewCompactNeedleMap CompactMap.NewCompactMap (OsFile.OsF [] None)) [CDelete 7 o1] = Some nm ∧
    LoadCompactNeedleMap CompactMap.NewCompactMap (indexFile nm) = (loaded, Ok None) ∧
    Metric.DeletedCount (metric nm) = 0 ∧ Metric.DeletedCount (metric loaded) = 1.
Proof.
  do 2 eexists. split; [vm_compute; reflexivity|]. split; [vm_compute; reflexivity|].
  split; reflexivity.
Qed.
End RecoveryExamples.

(** ** Walking backwards *)
Module ReverseSpec.
Import Metric.

Section reverse.
Context {S : Type} (fn : NeedleValue.t → S → S * option go_error).

Definition reverse_out (es : list NeedleValue.t) (s : S) : S * res unit :=
  match IdxSpec.visit fn (reverse es) s with
  | (s, Some e) => (s, Fail e)
  | (s, None) => (s, Ok tt)
  end.

Lemma batch_down_spec b n s :
  Z.of_nat n * 16 ≤ zlen b → batch_down fn b n s = reverse_out (take n (IdxSpec.entries b)) s.
Proof.
  revert s. induction n as [|i IH]; intros s Hn; [done|]. cbn [batch_down].
  change NeedleMapEntrySize with 16.
  assert (i < length b / 16)%nat as Hi.
  { unfold zlen in Hn.
    pose proof (Nat.div_le_lower_bound (length b) 16 (Datatypes.S i) ltac:(lia) ltac:(lia)). lia. }
  rewrite reslice_ok by (unfold sl_cap; cbn [sl_of sl_buf]; lia). rewrite bind_ok.
  assert (sl_data (Slice (drop (Z.to_nat (Z.of_nat i * 16)) (sl_buf (sl_of b)))
            (Z.of_nat i * 16 + 16 - Z.of_nat i * 16)) = take 16 (drop (i * 16) b)) as ->.
  { unfold sl_data, sub. cbn [sl_buf sl_len sl_of]. rewrite drop_0. f_equal; [lia|f_equal; lia]. }
  rewrite IdxSpec.IdxFileEntry_ok.
  2: { rewrite length_take, length_drop. unfold zlen in Hn. lia. }
  rewrite (take_S_r _ _ _ (IdxSpec.entries_lookup b i Hi)). unfold reverse_out.
  rewrite reverse_app, reverse_singleton. cbn [app IdxSpec.visit].
  destruct (fn _ s) as [s' [e|]]; [done|]. rewrite IH by lia. done.
Qed.

Lemma entries_sub r R n :
  0 ≤ R → 0 ≤ n → (R + n) * 16 ≤ zlen r →
  IdxSpec.entries (sub r (16 * R) (16 * n)) = take (Z.to_nat n) (drop (Z.to_nat R) (IdxSpec.entries r)).
Proof.
  intros HR Hn Hl. unfold sub.
  assert (∃ k, length (take (Z.to_nat (16 * R)) r) = (k * 16)%nat ∧ k = Z.to_nat R) as (k & Hk & ->).
  { exists (Z.to_nat R). split; [|done]. rewrite length_take. unfold zlen in Hl. lia. }
  assert (IdxSpec.entries r = IdxSpec.entries (take (Z.to_nat (16 * R)) r)
    ++ IdxSpec.entries (drop (Z.to_nat (16 * R)) r)) as E.
  { rewrite <- (IdxSpec.entries_app_rows (Z.to_nat R)) by done. by rewrite take_drop. }
  assert (length (IdxSpec.entries (take (Z.to_nat (16 * R)) r)) = Z.to_nat R) as Hlen.
  { rewrite IdxSpec.length_entries, Hk. by rewrite Nat.div_mul. }
  rewrite E, drop_app_length' by done.
  set (d := drop (Z.to_nat (16 * R)) r).
  assert (IdxSpec.entries d = IdxSpec.entries (take (Z.to_nat (16 * n)) d)
    ++ IdxSpec.entries (drop (Z.to_nat (16 * n)) d)) as E2.
  { rewrite <- (IdxSpec.entries_app_rows (Z.to_nat n)); [by rewrite take_drop|].
    rewrite length_take. subst d. rewrite length_drop. unfold zlen in Hl. lia. }
  rewrite E2. rewrite take_app_length'; [done|]. rewrite IdxSpec.length_entries, length_take.
  subst d. rewrite length_drop. unfold zlen in Hl.
  replace (Z.to_nat (16 * n) `min` (length r - Z.to_nat (16 * R)))%nat with (Z.to_nat n * 16)%nat by lia.
  by rewrite Nat.div_mul.
Qed.

Lemma reverse_loop_spec fuel r nb R s :
  0 ≤ nb → -batchSize ≤ R → (0 ≤ R → R `mod` batchSize = 0 ∧ (R + nb) * 16 ≤ zlen r) →
  (R < 0 → R = -batchSize ∧ nb = batchSize) → 0 < Z.of_nat fuel → R + 1 < Z.of_nat fuel →
  reverse_loop fn fuel r nb R s
  = reverse_out (take (Z.to_nat (R + nb)) (IdxSpec.entries r)) s.
Proof.
  revert nb R s. induction fuel as [|fuel IH]; intros nb R s Hnb HR Hpos Hneg Hf0 Hf; [lia|].
  cbn [reverse_loop]. case_decide as Hge.
  2: { destruct Hneg as [-> ->]; [lia|]. by replace (Z.to_nat (-batchSize + batchSize)) with 0%nat by lia. }
  destruct (Hpos Hge) as [Hmod Hlen]. change NeedleMapEntrySize with 16.
  rewrite OsFile.ReadAt_full by lia. rewrite decide_False by (intros [? _]; done).
  rewrite batch_down_spec.
  2: { rewrite zlen_sub by lia. lia. }
  rewrite entries_sub by lia. rewrite take_take, Nat.min_id.
  assert (take (Z.to_nat (R + nb)) (IdxSpec.entries r)
    = take (Z.to_nat R) (IdxSpec.entries r) ++ take (Z.to_nat nb) (drop (Z.to_nat R) (IdxSpec.entries r))) as ->.
  { by rewrite take_take_drop, Z2Nat.inj_add. }
  unfold reverse_out at 1 2. rewrite reverse_app, IdxSpec.visit_app.
  destruct (IdxSpec.visit fn (reverse (take (Z.to_nat nb) _)) s) as [s' [e|]]; [done|].
  rewrite IH; unfold batchSize in *; try lia.
  - by replace (R - 1024 * 4 + 1024 * 4) with R by lia.
  - intros. split; [|lia]. mlia.
  - intros. mlia.
Qed.

(** The backward walk visits the rows of a whole-row index file in reverse order,
    stops at the first error of the callback, and refuses a file with a partial row. *)
Theorem reverse_walk r init s :
  reverseWalkIndexFile fn r init s =
    if decide (zlen r `mod` NeedleMapEntrySize = 0) then
      match IdxSpec.visit fn (reverse (IdxSpec.entries r)) (init (zlen r `div` NeedleMapEntrySize) s) with
      | (s, Some e) => (s, Fail e)
      | (s, None) => (s, Ok tt)
      end
    else (s, Fail (Errorf "unexpected file %s size: %d")).
Proof.
  unfold reverseWalkIndexFile. pose proof (zlen_nonneg r). change NeedleMapEntrySize with 16.
  rewrite Z.rem_mod_nonneg, Z.quot_div_nonneg by lia.
  destruct (decide (zlen r `mod` 16 = 0)) as [Hm|Hm]; [|by rewrite decide_True].
  rewrite decide_False by (intros N; by apply N).
  assert (0 ≤ zlen r `div` 16) by mlia. set (n := zlen r `div` 16) in *.
  rewrite Z.rem_mod_nonneg by (unfold batchSize; lia).
  set (nb := if decide (n `mod` batchSize = 0) then batchSize else n `mod` batchSize).
  assert (0 < nb ≤ batchSize ∧ (n - nb) `mod` batchSize = 0 ∧ (n - nb < 0 → n = 0 ∧ nb = batchSize)) as (H1 & H2 & H3).
  { subst nb. unfold batchSize in *. change (1024 * 4) with 4096 in *. clearbody n. case_decide; mlia. }
  rewrite reverse_loop_spec.
  - unfold reverse_out. rewrite take_ge; [done|]. rewrite IdxSpec.length_entries.
    replace (n - nb + nb) with n by lia. subst n. unfold zlen.
    change 16 with (Z.of_nat 16). rewrite <- Nat2Z.inj_div. lia.
  - lia.
  - lia.
  - intros. split; [done|]. subst n. mlia.
  - intros Hn. destruct (H3 Hn). lia.
  - lia.
  - subst n. unfold zlen in *. mlia.
Qed.
End reverse.
End ReverseSpec.
