(* ===== verification/Volume.v ===== *)
(** * Volume: writing, deleting and reading the needles of a volume
    (weed/storage/volume_write.go, volume_read.go)

    A volume pairs the data file with the needle map.  [lastIoError], which only
    reports a failing disk, is not kept; [now] is the clock.  The lock makes each
    operation atomic. *)

From S2P Require Import Prelude GoStd Bytes StorageTypes VolumeTtl Needle Backend NeedleIO Idx CompactMap NeedleMap.

Module Volume.
Import Needle NeedleIO.

Section volume.
Context {F : Type} `{BF : BackendStorageFile F}.
Context {M : Type} `{NM : NeedleValueMap M}.

Record Volume := Mk {
  nm : NeedleMap.t M; DataBackend : F; Version : Z; VolumeTtl : option Ttl.TTL;
  CompactionRevision : Z; hasRemoteFile : bool;
  lastAppendAtNs : Z; lastModifiedTsSeconds : Z;
}.
Definition with_nm (x : NeedleMap.t M) (v : Volume) : Volume :=
  Mk x (DataBackend v) (Version v) (VolumeTtl v) (CompactionRevision v) (hasRemoteFile v)
     (lastAppendAtNs v) (lastModifiedTsSeconds v).
Definition with_backend (w : F) (v : Volume) : Volume :=
  Mk (nm v) w (Version v) (VolumeTtl v) (CompactionRevision v) (hasRemoteFile v)
     (lastAppendAtNs v) (lastModifiedTsSeconds v).
Definition with_append (ts : Z) (v : Volume) : Volume :=
  Mk (nm v) (DataBackend v) (Version v) (VolumeTtl v) (CompactionRevision v) (hasRemoteFile v)
     ts (lastModifiedTsSeconds v).
Definition with_modified (ts : Z) (v : Volume) : Volume :=
  Mk (nm v) (DataBackend v) (Version v) (VolumeTtl v) (CompactionRevision v) (hasRemoteFile v)
     (lastAppendAtNs v) ts.

(** The needle gets the data size of the stored one when it is unchanged. *)
Definition isFileUnchanged (v : Volume) (n : Needle.t) : res (bool * Needle.t) :=
  if decide (Ttl.String (VolumeTtl v) ≠ []) then Ok (false, n)
  else
    nv ← NeedleMap.Get (nm v) (Id n);
    match nv with
    | None => Ok (false, n)
    | Some nv =>
        if negb (Offset.IsZero (NeedleValue.Offset nv)) && Size.IsValid (NeedleValue.Size nv) then
          match ReadData (DataBackend v) (Offset.ToActualOffset (NeedleValue.Offset nv))
                  (NeedleValue.Size nv) (Version v) new with
          | (old, Ok _) =>
              if decide (Cookie old = Cookie n ∧ Checksum old = Checksum n ∧ Data old = Data n)
              then Ok (true, set_DataSize (DataSize old) n) else Ok (false, n)
          | (_, Fail _) => Ok (false, n)
          | (_, Panic) => Panic
          end
        else Ok (false, n)
    end.

(** The check against the cookie of the stored needle, which may be a deleted one;
    a nil header without an error is dereferenced. *)
Definition check_cookie (v : Volume) (n : Needle.t) (nv : NeedleValue.t) (checkCookie : bool) :
    res Needle.t :=
  match ReadNeedleHeader (DataBackend v) (Version v)
          (Offset.ToActualOffset (NeedleValue.Offset nv)) with
  | Fail _ => Fail (Errorf "reading existing needle: %w")
  | Panic | Ok None => Panic
  | Ok (Some (existing, _, _)) =>
      let n := if decide (Cookie n = 0 ∧ checkCookie = false)
               then set_Cookie (Cookie existing) n else n in
      if decide (Cookie existing ≠ Cookie n) then Fail (Errorf "mismatching cookie %x") else Ok n
  end.

(** The error of a method that returns only an error. *)
Definition err_of (r : res (option go_error)) : res unit :=
  match r with Ok None => Ok tt | Ok (Some e) => Fail e | Fail e => Fail e | Panic => Panic end.

(** From the append on: the volume, the needle, and (offset, size). *)
Definition append_needle (now : Z) (v : Volume) (n : Needle.t) (nv : option NeedleValue.t) :
    Volume * Needle.t * res (Z * Z) :=
  let n := UpdateAppendAtNs now (lastAppendAtNs v) n in
  match Append n (DataBackend v) (Version v) with
  | (w, n, Ok (offset, size, _)) =>
      let v := with_append (AppendAtNs n) (with_backend w v) in
      let newer := match nv with
        | None => true
        | Some nv => bool_decide (u64 (Offset.ToActualOffset (NeedleValue.Offset nv)) < offset)
        end in
      let '(v, err) :=
        if newer then
          let '(x, r) := NeedleMap.Put (nm v) (Id n) (Offset.ToOffset (s64 offset)) (Size n) in
          (with_nm x v, err_of r)
        else (v, Ok tt) in
      let v := if decide (lastModifiedTsSeconds v < LastModified n)
               then with_modified (LastModified n) v else v in
      (v, n, err ≫= λ _, Ok (offset, size))
  | (w, n, Fail _) =>
      (with_backend w v, n, Fail (Errorf "append to volume %d size %d actualSize %d: %v"))
  | (w, n, Panic) => (with_backend w v, n, Panic)
  end.

(** The volume, the needle, and (offset, size, isUnchanged). *)
Definition doWriteRequest (now : Z) (v : Volume) (n : Needle.t) (checkCookie : bool) :
    Volume * Needle.t * res (Z * Z * bool) :=
  match isFileUnchanged v n with
  | Panic => (v, n, Panic)
  | Fail e => (v, n, Fail e)
  | Ok (true, n) => (v, n, Ok (0, s32 (DataSize n), true))
  | Ok (false, n) =>
      match NeedleMap.Get (nm v) (Id n) with
      | Panic => (v, n, Panic)
      | Fail e => (v, n, Fail e)
      | Ok nv =>
          match match nv with Some nv => check_cookie v n nv checkCookie | None => Ok n end with
          | Panic => (v, n, Panic)
          | Fail e => (v, n, Fail e)
          | Ok n =>
              let '(v, n, r) := append_needle now v n nv in
              (v, n, r ≫= λ '(offset, size), Ok (offset, size, false))
          end
      end
  end.

(** A needle without TTL takes that of the volume.  [EMPTY_TTL] is compared as a
    pointer; no function of the package makes another TTL with its value. *)
Definition inherit_ttl (ttl : option Ttl.TTL) (n : Needle.t) : Needle.t :=
  if decide (Needle.Ttl n = Some Ttl.EMPTY_TTL ∧ ttl ≠ Some Ttl.EMPTY_TTL)
  then set_Ttl ttl (SetHasTtl n) else n.

(** [writeNeedle2] without [fsync]. *)
Definition writeNeedle2 (now : Z) (v : Volume) (n : Needle.t) (checkCookie : bool) :
    Volume * Needle.t * res (Z * Z * bool) :=
  doWriteRequest now v (inherit_ttl (VolumeTtl v) n) checkCookie.

(** The size of the deleted needle, 0 when there is none. *)
Definition doDeleteRequest (now : Z) (v : Volume) (n : Needle.t) : Volume * Needle.t * res Z :=
  match NeedleMap.Get (nm v) (Id n) with
  | Panic => (v, n, Panic)
  | Fail e => (v, n, Fail e)
  | Ok None => (v, n, Ok 0)
  | Ok (Some nv) =>
      if Size.IsDeleted (NeedleValue.Size nv) then (v, n, Ok 0)
      else
        let size := NeedleValue.Size nv in
        let '(v, n, offset) :=
          if hasRemoteFile v then (v, n, Ok 0)
          else
            let n := UpdateAppendAtNs now (lastAppendAtNs v) (set_Data [] n) in
            let '(w, n, r) := Append n (DataBackend v) (Version v) in
            (with_backend w v, n, r ≫= λ '(offset, _, _), Ok offset) in
        match offset with
        | Fail e => (v, n, Fail e)
        | Panic => (v, n, Panic)
        | Ok offset =>
            let v := with_append (AppendAtNs n) v in
            let '(x, r) := NeedleMap.Delete (nm v) (Id n) (Offset.ToOffset (s64 offset)) in
            (with_nm x v, n, err_of r ≫= λ _, Ok size)
        end
  end.

(** *** Reading *)

Definition PagedReadLimit : Z := 1024 * 1024.

Record ReadOption := MkReadOption {
  ReadDeleted : bool; AttemptMetaOnly : bool;
  IsMetaOnly : bool; VolumeRevision : Z; IsOutOfRange : bool;
}.

(** The metadata of a large needle, at its offset or past the 32 GB mark. *)
Definition read_meta (v : Volume) (ro : ReadOption) (offset readSize : Z) (n : Needle.t) :
    Needle.t * ReadOption * res unit :=
  let ro := MkReadOption (ReadDeleted ro) (AttemptMetaOnly ro) (IsMetaOnly ro)
              (CompactionRevision v) (IsOutOfRange ro) in
  let '(n, ro, r) :=
    match ReadNeedleMeta (DataBackend v) offset readSize (Version v) n with
    | (n, Fail ErrorSizeMismatch) =>
        if decide (Offset.OffsetSize = 4) then
          let '(n, r) := ReadNeedleMeta (DataBackend v) (offset + Offset.MaxPossibleVolumeSize)
                           readSize (Version v) n in
          (n, MkReadOption (ReadDeleted ro) (AttemptMetaOnly ro) (IsMetaOnly ro)
                (VolumeRevision ro) true, r)
        else (n, ro, Fail ErrorSizeMismatch)
    | (n, r) => (n, ro, r)
    end in
  match r with
  | Ok _ =>
      let ro := if negb (IsCompressed n) && negb (IsChunkedManifest n)
                then MkReadOption (ReadDeleted ro) (AttemptMetaOnly ro) true (VolumeRevision ro)
                       (IsOutOfRange ro)
                else ro in
      (n, ro, Ok tt)
  | _ => (n, ro, r)
  end.

(** [time.Now().Before(...)] fails: the needle has outlived its TTL. *)
Definition expired (now : Z) (n : Needle.t) : res bool :=
  if negb (HasTtl n) then Ok false
  else
    match Needle.Ttl n with
    | None => Panic
    | Some ttl =>
        let ttlMinutes := Ttl.Minutes ttl in
        if decide (ttlMinutes = 0) then Ok false
        else if negb (HasLastModifiedDate n) then Ok false
        else Ok (bool_decide (s64 (AppendAtNs n) + ttlMinutes * 60000000000 ≤ now))
    end.

(** The needle, the option, and the byte count. *)
Definition readNeedle (now : Z) (v : Volume) (ro : option ReadOption) (n : Needle.t) :
    Needle.t * option ReadOption * res Z :=
  match NeedleMap.Get (nm v) (Id n) with
  | Panic => (n, ro, Panic)
  | Fail e => (n, ro, Fail e)
  | Ok None => (n, ro, Fail ErrorNotFound)
  | Ok (Some nv) =>
      let size := NeedleValue.Size nv in
      let offset := Offset.ToActualOffset (NeedleValue.Offset nv) in
      let wanted := match ro with Some o => ReadDeleted o | None => false end in
      if Offset.IsZero (NeedleValue.Offset nv) then (n, ro, Fail ErrorNotFound)
      else if Size.IsDeleted size && negb (wanted && bool_decide (size ≠ TombstoneFileSize)) then
        (n, ro, Fail ErrorDeleted)
      else
        let readSize := if Size.IsDeleted size then s32 (- size) else size in
        if decide (readSize = 0) then (n, ro, Ok 0)
        else
          let '(n, ro, r) :=
            match ro with
            | Some o =>
                if AttemptMetaOnly o && bool_decide (PagedReadLimit < readSize) then
                  let '(n, o, r) := read_meta v o offset readSize n in (n, Some o, r)
                else (n, ro, Ok tt)
            | None => (n, ro, Ok tt)
            end in
          let '(n, r) :=
            match r with
            | Ok _ =>
                if match ro with Some o => IsMetaOnly o | None => false end then (n, Ok tt)
                else ReadData (DataBackend v) offset readSize (Version v) n
            | _ => (n, r)
            end in
          match r with
          | Fail e => (n, ro, Fail e)
          | Panic => (n, ro, Panic)
          | Ok _ =>
              match expired now n with
              | Ok true => (n, ro, Fail ErrorNotFound)
              | Ok false => (n, ro, Ok (DataSize n))
              | Fail e => (n, ro, Fail e)
              | Panic => (n, ro, Panic)
              end
          end
  end.
End volume.
Arguments Volume F M : clear implicits.
End Volume.
