(* ===== verification/Vacuum.v ===== *)
(** * Vacuum: compacting a volume (weed/storage/volume_vacuum.go)

    [copyDataBasedOnIndexFile] copies the live needles of a volume to a new data file
    and writes their index; [makeupDiff] then applies what was written meanwhile, and
    the new files replace the old ones.  The file names, the throttle and the sync
    calls are left out; [idx] is the content of the old index file, and the old data
    file is read through the backend of the volume. *)

From S2P Require Import Prelude GoStd Bytes StorageTypes VolumeTtl Needle Backend NeedleIO SuperBlock Idx MemDb CompactMap NeedleMap Volume.

Module Vacuum.
Import Needle NeedleIO Volume.

Section vacuum.
Context {E : Type} (Marshal : E → res bytes) (Unmarshal : bytes → E * option go_error).
Context {D : Type} `{DB : LevelDb D}.
Context {M : Type} `{NM : NeedleValueMap M} (NewCompactMap : M).
Context {F : Type} `{BF : BackendStorageFile F}.

(** A nil callback always goes on. *)
Record CompactOptions := MkOptions {
  ProgressCallback : Z → bool; superBlock : SuperBlock.t (E := E); version : Z }.

Definition next_revision (s : SuperBlock.t (E := E)) : SuperBlock.t :=
  SuperBlock.Mk (SuperBlock.Version s) (SuperBlock.ReplicaPlacement s) (SuperBlock.Ttl s)
    (u16 (SuperBlock.CompactionRevision s + 1)) (SuperBlock.Extra s) (SuperBlock.ExtraSize s).

(** The needle has outlived the TTL of the volume; [now] is in seconds. *)
Definition outlived (now : Z) (ttl : option Ttl.TTL) (n : Needle.t) : res bool :=
  if HasTtl n then
    match ttl with
    | None => Panic
    | Some ttl => Ok (bool_decide (u64 (LastModified n + u32 (Ttl.Minutes ttl * 60)) ≤ now))
    end
  else Ok false.

(** The new index, the new data file, and the offset of the next needle. *)
Abbreviation copied := (D * F * Z)%type.

(** The callback; a panic unwinds the visit and stays in the state. *)
Definition copy_step (now : Z) (src : F) (opts : CompactOptions) (value : NeedleValue.t) (st : res copied) :
    res copied * option go_error :=
  match st with
  | Ok (newNm, dst, newOffset) =>
      let offset := NeedleValue.Offset value in
      let size := NeedleValue.Size value in
      if Offset.IsZero offset || Size.IsDeleted size then (st, None)
      else if negb (ProgressCallback opts (Offset.ToActualOffset offset)) then (st, Some (Errorf "interrupted"))
      else
        match ReadData src (Offset.ToActualOffset offset) size (version opts) new with
        | (_, Fail _) => (st, Some (Errorf "cannot hydrate needle from file: %w"))
        | (_, Panic) => (Panic, None)
        | (n, Ok _) =>
            match outlived now (SuperBlock.Ttl (superBlock opts)) n with
            | Panic => (Panic, None)
            | Fail e => (st, Some e)
            | Ok true => (st, None)
            | Ok false =>
                match MemDb.Set_ newNm (Id n) (Offset.ToOffset newOffset) (Size n) with
                | Panic => (Panic, None)
                | Fail e => (st, Some e)
                | Ok (newNm, Some _) => (Ok (newNm, dst, newOffset), Some (Errorf "cannot put needle: %s"))
                | Ok (newNm, None) =>
                    match Append n dst (SuperBlock.Version (superBlock opts)) with
                    | (dst, _, Panic) => (Panic, None)
                    | (dst, _, Fail _) =>
                        (Ok (newNm, dst, newOffset), Some (Errorf "cannot append needle: %s"))
                    | (dst, n, Ok _) =>
                        (Ok (newNm, dst, newOffset + DiskSize n (version opts)), None)
                    end
                end
            end
        end
  | st => (st, None)
  end.

(** The new file is at least as large as the live content should be. *)
Definition size_plausible (v : Volume F M) (dst : F) : option go_error :=
  if decide (Ttl.String (VolumeTtl v) = []) then
    match GetStat dst with
    | (_, Some e) => Some e
    | (dstDatSize, None) =>
        let content := Metric.ContentSize (NeedleMap.metric (nm v)) in
        let deleted := Metric.DeletedSize (NeedleMap.metric (nm v)) in
        if decide (deleted < content ∧ u64 dstDatSize < u64 (content - deleted))
        then Some (Errorf "volume %s unexpected new data size: %d does not match size of content minus deleted: %d")
        else None
    end
  else None.

(** The value of a callback walk, its errors and panics. *)
Definition walked {A} (r : res (res A * option go_error)) : res A :=
  match r with
  | Ok (Ok x, None) => Ok x
  | Ok (Ok _, Some e) => Fail e
  | Ok (Fail e, _) | Fail e => Fail e
  | Ok (Panic, _) | Panic => Panic
  end.

(** [oldNm.LoadFromIdx]. *)
Definition load_old (idx : bytes) : res D :=
  match MemDb.LoadFromReaderAt MemDb.NewMemDb idx with
  | (cm, Ok e) => walked (Ok (cm, e))
  | (_, Fail e) => Fail e
  | (_, Panic) => Panic
  end.

(** The new data file with all live needles, and their index: everything before
    the new index file is saved. *)
Definition copy_live (now : Z) (v : Volume F M) (idx : bytes) (opts : CompactOptions) (dst : F) : res copied :=
  oldNm ← load_old idx;
  let opts := MkOptions (ProgressCallback opts) (next_revision (superBlock opts)) (version opts) in
  let newOffset := SuperBlock.BlockSize (superBlock opts) in
  '(sb, b) ← SuperBlock.Bytes Marshal (superBlock opts);
  let opts := MkOptions (ProgressCallback opts) sb (version opts) in
  match WriteAt dst b 0 with
  | (_, _, Some _) => Fail (Errorf "failed to write superblock: %v")
  | (dst, _, None) =>
      walked (MemDb.AscendingVisit (copy_step now (DataBackend v) opts) oldNm (Ok (MemDb.NewMemDb, dst, newOffset)))
  end.

(** The new data file, the new index file, and the needle map loaded from it. *)
Definition copyDataBasedOnIndexFile (now : Z) (v : Volume F M) (idx : bytes) (opts : CompactOptions) (dst : F) :
    res (F * OsFile.os_file * NeedleMap.t M) :=
  '(newNm, dst, _) ← copy_live now v idx opts dst;
  match size_plausible v dst with
  | Some e => Fail e
  | None =>
      rows ← walked (MemDb.SaveToIdx newNm);
      let indexFile := OsFile.OsF rows None in
      match NeedleMap.DoOffsetLoading (NeedleMap.NewCompactNeedleMap NewCompactMap indexFile) indexFile 0 with
      | (tmpNm, Ok None) => Ok (dst, indexFile, tmpNm)
      | (_, Ok (Some e)) | (_, Fail e) => Fail e
      | (_, Panic) => Panic
      end
  end.

(** The volume on the files after the compaction: [load] reads the super block again
    and takes the needle map of the compaction over.  [ts] and [lm] are the append
    time of the last record and the modification time of the data file. *)
Definition reopen (ts lm : Z) (v : Volume F M) (dst : F) (indexFile : OsFile.os_file) (tmpNm : NeedleMap.t M) :
    res (Volume F M) :=
  sb ← SuperBlock.ReadSuperBlock Unmarshal dst;
  let nm := NeedleMap.Mk (NeedleMap.metric tmpNm) indexFile (zlen (OsFile.f_data indexFile)) (NeedleMap.m tmpNm) in
  Ok (Volume.Mk nm dst (SuperBlock.Version sb) (SuperBlock.Ttl sb) (SuperBlock.CompactionRevision sb)
        (hasRemoteFile v) ts lm).
End vacuum.
Arguments CompactOptions E : clear implicits.
(** ** Committing

    [makeupDiff] works on the files; they are opened again, so the end of a data file
    is that of the file, aligned.  [order] is the order in which Go visits a map. *)
Section commit.
Context {E : Type} (Unmarshal : bytes → E * option go_error).
Context {M : Type} `{NM : NeedleValueMap M}.
Context (order : list (Z * (Offset.t * Z)) → list (Z * (Offset.t * Z))).

Definition opened (df : DiskFile.t) : DiskFile.t :=
  match DiskFile.File df with Some f => DiskFile.NewDiskFile f | None => df end.
(** [dst.Seek(0, 2)]. *)
Definition file_end (df : DiskFile.t) : Z :=
  match DiskFile.File df with Some f => zlen (OsFile.f_data f) | None => 0 end.

Definition fetchCompactRevisionFromDatFile (datBackend : DiskFile.t) : res Z :=
  superBlock ← SuperBlock.ReadSuperBlock Unmarshal datBackend;
  Ok (SuperBlock.CompactionRevision superBlock).

Definition readIndexEntryAtOffset (indexFile : bytes) (offset : Z) : res bytes :=
  if decide (offset < 0) then Fail (Errorf "offset %d for index file is invalid")
  else
    let '(b, err) := OsFile.ReadAt indexFile offset NeedleMapEntrySize in
    let err := if decide (err = Some EOF ∧ zlen b = NeedleMapEntrySize) then None else err in
    match err with Some e => Fail e | None => Ok b end.

(** The last row of each id from [last] on, read backwards; the comparison is that of
    unsigned numbers. *)
Fixpoint updated_entries (fuel : nat) (idx : bytes) (idxOffset last : Z) (acc : gmap Z (Offset.t * Z)) :
    res (gmap Z (Offset.t * Z)) :=
  match fuel with
  | O => Panic
  | S fuel =>
      if decide (u64 idxOffset < last) then Ok acc
      else
        match readIndexEntryAtOffset idx idxOffset with
        | Fail _ => Fail (Errorf "readIndexEntry %s at offset %d failed: %v")
        | Panic => Panic
        | Ok b =>
            nv ← Idx.IdxFileEntry b;
            let key := NeedleValue.Key nv in
            let acc := match acc !! key with
                       | Some _ => acc
                       | None => <[key := (NeedleValue.Offset nv, NeedleValue.Size nv)]> acc
                       end in
            updated_entries fuel idx (idxOffset - NeedleMapEntrySize) last acc
        end
  end.

(** One id: its record or a tombstone, and its row; the error of the write of the
    record is dropped. *)
Definition makeup_one (now : Z) (old : DiskFile.t) (version : Z) (x : Z * (Offset.t * Z))
    (st : DiskFile.t * OsFile.os_file) : res (DiskFile.t * OsFile.os_file) :=
  let '(key, (offset, size)) := x in
  let '(dst, idx) := st in
  row ← NeedleValue.ToBytes key offset size;
  let at_ := file_end dst in
  let at_ := if decide (Z.rem at_ NeedlePaddingSize ≠ 0)
             then at_ + (NeedlePaddingSize - Z.rem at_ NeedlePaddingSize) else at_ in
  '(dst, row) ←
    if negb (Offset.IsZero offset) && bool_decide (size ≠ 0) && Size.IsValid size then
      match ReadNeedleBlob old (Offset.ToActualOffset offset) size version with
      | Fail _ => Fail (Errorf "ReadNeedleBlob %s key %d offset %d size %d failed: %w")
      | Panic => Panic
      | Ok needleBytes =>
          let '(dst, _, _) := DiskFile.Write dst (sl_data needleBytes) in
          row ← window row 8 12 (λ b, Uint32toBytes b (u32 (Z.quot at_ NeedlePaddingSize)));
          Ok (dst, row)
      end
    else
      match Append (set_AppendAtNs now (set_header 0x12345678 key 0 new)) dst version with
      | (_, _, Fail _) => Fail (Errorf "append deleted %d failed: %v")
      | (_, _, Panic) => Panic
      | (dst, _, Ok _) =>
          row ← window row 8 12 (λ b, Uint32toBytes b 0);
          Ok (dst, row)
      end;
  match OsFile.WriteAt idx row (zlen (OsFile.f_data idx)) with
  | (_, _, Some _) => Fail (Errorf "cannot write indexfile %s: %v")
  | (idx, _, None) => Ok (dst, idx)
  end.
Fixpoint makeup_all (now : Z) (old : DiskFile.t) (version : Z) (xs : list (Z * (Offset.t * Z)))
    (st : DiskFile.t * OsFile.os_file) : res (DiskFile.t * OsFile.os_file) :=
  match xs with
  | [] => Ok st
  | x :: xs => st ← makeup_one now old version x st; makeup_all now old version xs st
  end.

(** The needle map of the compaction, and the files. *)
Definition makeupDiff (now : Z) (v : Volume DiskFile.t M) (lastCompactIndexOffset lastCompactRevision : Z)
    (dst : DiskFile.t) (idx : OsFile.os_file) (tmpNm : NeedleMap.t M) :
    NeedleMap.t M * res (DiskFile.t * OsFile.os_file) :=
  let oldIdx := OsFile.f_data (NeedleMap.indexFile (nm v)) in
  let old := opened (DataBackend v) in
  let indexSize := zlen oldIdx in
  if decide (Z.rem indexSize NeedleMapEntrySize ≠ 0)
  then (tmpNm, Fail (Errorf "verifyIndexFileIntegrity %s failed: %v"))
  else if decide (indexSize = 0 ∨ u64 indexSize ≤ lastCompactIndexOffset) then (tmpNm, Ok (dst, idx))
  else
    let files :=
      oldRevision ← fetchCompactRevisionFromDatFile old;
      if decide (oldRevision ≠ lastCompactRevision)
      then Fail (Errorf "current old dat file's compact revision %d is not the expected one %d")
      else
        changes ← updated_entries (S (S (Z.to_nat (indexSize / NeedleMapEntrySize)))) oldIdx
                    (indexSize - NeedleMapEntrySize) lastCompactIndexOffset ∅;
        if decide (changes = ∅) then Ok (dst, idx, false)
        else
          let dst := opened dst in
          newRevision ← fetchCompactRevisionFromDatFile dst;
          if decide (u16 (oldRevision + 1) ≠ newRevision)
          then Fail (Errorf "oldDatFile %s 's compact revision is %d while newDatFile %s 's compact revision is %d")
          else
            '(dst, idx) ← makeup_all now old (Version v) (order (map_to_list changes)) (dst, idx);
            Ok (dst, idx, true) in
    match files with
    | Fail e => (tmpNm, Fail e)
    | Panic => (tmpNm, Panic)
    | Ok (dst, idx', false) => (tmpNm, Ok (dst, idx'))
    | Ok (dst, idx', true) =>
        match NeedleMap.DoOffsetLoading tmpNm idx' (zlen (OsFile.f_data idx) / NeedleMapEntrySize) with
        | (tmpNm, Ok None) => (tmpNm, Ok (dst, idx'))
        | (tmpNm, Ok (Some e)) | (tmpNm, Fail e) => (tmpNm, Fail e)
        | (tmpNm, Panic) => (tmpNm, Panic)
        end
    end.

(** The volume goes on with the new files, or with the old ones when the difference
    cannot be made up; [load] takes the needle map of the compaction in both cases. *)
Definition CommitCompact (now ts lm : Z) (v : Volume DiskFile.t M) (lastCompactIndexOffset lastCompactRevision : Z)
    (dst : DiskFile.t) (idx : OsFile.os_file) (tmpNm : NeedleMap.t M) : res (Volume DiskFile.t M) :=
  match makeupDiff now v lastCompactIndexOffset lastCompactRevision dst idx tmpNm with
  | (_, Panic) => Panic
  | (tmpNm, Ok (dst, idx)) => reopen Unmarshal ts lm v (opened dst) idx tmpNm
  | (tmpNm, Fail _) => reopen Unmarshal ts lm v (opened (DataBackend v)) (NeedleMap.indexFile (nm v)) tmpNm
  end.
End commit.
End Vacuum.
