(* ===== verification/VolumeSpec.v ===== *)
(** * VolumeSpec: a volume is a map from ids to needles

    [holds] ties the data file and the needle map of a volume to the needles it
    stores, the deleted ones included, whose cookies still guard their ids; writes
    and deletes keep it, and reads return what it says. *)

From S2P Require Import Prelude GoStd Bytes StorageTypes VolumeTtl Needle Backend NeedleIO NeedleSpec Idx CompactMap NeedleMap Volume.
Import Needle Layout NeedleIO Volume.

(** ** Records in a file *)
Module Records.

(** A needle the volume code can store. *)
Record sound (n : Needle.t) : Prop := Sound {
  s_writable : writable n; s_ranged : ranged n; s_crc : crc_ok n }.

(** The record of [n] lies at [off]. *)
Definition lies (c : bytes) (version off : Z) (n : Needle.t) : Prop :=
  ∃ pad pre rest, c = pre ++ record_ref version n pad ++ rest ∧ off = zlen pre
    ∧ zlen pad = PaddingLength (zlen (body_of version n)) version.

Lemma lies_more c version off n d : lies c version off n → lies (c ++ d) version off n.
Proof.
  intros (pad & pre & rest & -> & Ho & Hp). exists pad, pre, (rest ++ d). split_and!; [|done|done].
  by rewrite <- !app_assoc.
Qed.

Lemma lies_end c version off n :
  lies c version off n → writable n → supported version →
  0 ≤ off ∧ off + GetActualSize (zlen (body_of version n)) version ≤ zlen c.
Proof.
  intros (pad & pre & rest & -> & -> & Hp) Hw Hv. rewrite !zlen_app, (zlen_record version n pad) by done.
  pose proof (zlen_nonneg pre). pose proof (zlen_nonneg rest). lia.
Qed.

Lemma actual_size version n :
  writable n → supported version →
  24 ≤ GetActualSize (zlen (body_of version n)) version
  ∧ GetActualSize (zlen (body_of version n)) version `mod` 8 = 0.
Proof.
  intros Hw Hv. pose proof (body_range version n Hw) as Hb.
  destruct (padding_spec (zlen (body_of version n)) version) as [Hp Hm]; [lia|]. split; [|done].
  revert Hm. unfold GetActualSize, NeedleBodyLength, NeedleHeaderSize, CookieSize, NeedleIdSize, SizeSize,
    NeedleChecksumSize, TimestampSize. case_decide; mlia.
Qed.

(** The needle returned by an append differs in the sizes the writer filled in. *)
Lemma filled_fields version n m :
  filled_by version n m →
  Id m = Id n ∧ AppendAtNs m = AppendAtNs n ∧ LastModified m = LastModified n ∧ Cookie m = Cookie n.
Proof. unfold filled_by, filled. case_decide; intros ->; done. Qed.

Section file.
Context {F : Type} `{BF : BackendStorageFile F} {BL : BackendLaws F}.

Lemma append_filled n w version w' n' r :
  writable n → supported version → Append n w version = (w', n', Ok r) → filled_by version n n'.
Proof.
  intros Hw Hv. unfold Append. destruct (GetStat w) as [e [err|]]; [done|]. case_decide; [done|].
  destruct (write_spec version n Hw Hv) as (m & pad & -> & Hm & _).
  destruct (WriteAt w _ _) as [[w1 k] [err|]]; [done|]. by intros [= _ <- _].
Qed.

(** The bytes before the end. *)
Definition front (w : F) (e : Z) : bytes := sub (contents w) 0 e.

Lemma front_all w e : zlen (contents w) ≤ e → front w e = contents w.
Proof. apply sub_all. Qed.
Lemma front_split w e : contents w = front w e ++ drop (Z.to_nat e) (contents w).
Proof. unfold front, sub. by rewrite drop_0, take_drop. Qed.
Lemma lies_front w e version off n : lies (front w e) version off n → lies (contents w) version off n.
Proof. intros H. rewrite (front_split w e). by apply lies_more. Qed.
Lemma zlen_front w e : 0 ≤ e → zlen (front w e) ≤ e.
Proof. intros. unfold front. rewrite zlen_sub; lia. Qed.

(** A successful append adds a record at the old end; a failed one adds nothing before
    it, whatever lies behind it. *)
Lemma append_lies n w e version :
  GetStat w = (e, None) → 0 ≤ e < Offset.MaxPossibleVolumeSize →
  sound n → supported version →
  match Append n w version with
  | (w', n', Ok (offset, _, _)) =>
      let e' := e + GetActualSize (zlen (body_of version n)) version in
      offset = e ∧ filled_by version n n' ∧ (∃ d, front w' e' = front w e ++ d)
      ∧ lies (front w' e') version e n
      ∧ GetStat w' = (e', None) ∧ zlen (contents w') = Z.max (zlen (contents w)) e'
  | (w', _, Fail _) => (∃ d, front w' e = front w e ++ d) ∧ GetStat w' = (e, None)
  | (_, _, Panic) => False
  end.
Proof.
  intros Hst He [Hw Hr Hc] Hv. pose proof (append_ok n w e version Hst He Hw Hr Hc Hv) as Hp.
  assert (∀ x, sub (upto (contents w) e ++ x) 0 e = front w e ++ zeros (e - zlen (contents w))) as Hu.
  { intros x. rewrite sub_app_l, sub_all by (rewrite ?zlen_upto; lia). done. }
  destruct (Append n w version) as [[w' n'] [[[off sz] act]|err|]] eqn:HA; destruct Hp as (pad & Hpad & Hp); [| |done].
  - destruct Hp as (-> & _ & _ & Hsz & Hcont & Hst' & _).
    pose proof (append_filled n w version w' n' _ Hw Hv HA) as Hf. rewrite Hsz in *.
    pose proof (zlen_record version n pad Hw Hv Hpad) as Hl.
    pose proof (zlen_nonneg (record_ref version n pad)) as Hnn. rewrite Hl in Hnn.
    pose proof (zlen_upto (contents w) e) as Hul. pose proof (zlen_nonneg (contents w)).
    set (e' := e + _) in *. intros e1. subst e1.
    assert (front w' e' = upto (contents w) e ++ record_ref version n pad) as Hfr.
    { unfold front. rewrite Hcont, app_assoc, sub_app_l, sub_all by (rewrite ?zlen_app, ?Hl, ?Hul; lia). done. }
    split_and!; [done|done| | |done|].
    + rewrite Hfr. unfold upto. fold (front w e). rewrite <- app_assoc. by eexists.
    + exists pad, (upto (contents w) e), []. rewrite app_nil_r, Hul by lia. done.
    + rewrite Hcont, !zlen_app, zlen_drop, Hl, Hul by lia. lia.
  - destruct Hp as (Hst' & Hp). split; [|done]. unfold front at 1. destruct Hp as [->|[_ [->|[k ->]]]].
    + rewrite <- (app_nil_r (upto _ _)), Hu. by eexists.
    + exists []. by rewrite app_nil_r.
    + rewrite put_upto, Hu by lia. by eexists.
Qed.

Lemma header_lies w e version off n :
  GetStat w = (e, None) → lies (contents w) version off n → sound n → supported version →
  ∃ b rest, ReadNeedleHeader w version off
    = Ok (Some (set_header (Cookie n) (Id n) (zlen (body_of version n)) new, b, rest)).
Proof.
  intros Hst (pad & pre & rest & Hc & -> & Hp) [Hw Hr Hcrc] Hv.
  pose proof (body_range version n Hw) as Hb. rewrite record_split, <- !app_assoc in Hc.
  unfold ReadNeedleHeader.
  rewrite (fill_at w e pre (header_ref n (zlen (body_of version n))) _ (zlen pre) NeedleHeaderSize Hst Hc);
    [|done|unfold header_ref; by rewrite !zlen_app, !zlen_be_split].
  cbn [mbind res_bind]. rewrite (decide_False (P := None = Some EOF ∧ _)) by naive_solver.
  rewrite decide_False by (intros Hn; by vm_compute in Hn).
  rewrite (parse_header_at n (zlen (body_of version n)) _ [] new Hr); [by do 2 eexists| |].
  - unfold in_s. change (2 ^ (32 - 1)) with 2147483648. lia.
  - symmetry. apply app_nil_r.
Qed.

Lemma data_lies w e version off n m :
  GetStat w = (e, None) → lies (contents w) version off n → sound n → supported version → Data m = [] →
  ReadData w off (zlen (body_of version n)) version m = (restore version n m, Ok tt).
Proof.
  intros Hst (pad & pre & rest & Hc & Ho & Hp) [Hw Hr Hcrc] Hv Hm.
  by eapply (read_data_at w e off n version pad pre rest).
Qed.
End file.
End Records.
Export Records.

(** ** The state of a volume *)
Module VolumeState.

Section state.
Context {F : Type} `{BF : BackendStorageFile F} {BL : BackendLaws F}.
Context {M : Type} `{NM : NeedleValueMap M} {NL : NeedleValueMapLaws M}.
Implicit Types (v : Volume F M).

(** Needles by id, with a mark whether they are live. *)
Abbreviation needles := (gmap Z (Needle.t * bool)).

(** The size the index keeps of a needle. *)
Definition kept_size (version : Z) (x : Needle.t * bool) : Z :=
  let size := zlen (body_of version (fst x)) in
  if snd x then size else deleted_size size.

(** The bytes the records of the stored needles take. *)
Definition disk_size (version : Z) (x : Needle.t * bool) : Z :=
  Z.max 0 (GetActualSize (zlen (body_of version (fst x))) version).
Definition total (version : Z) (σ : needles) : Z := map_fold (λ _ x acc, disk_size version x + acc) 0 σ.

Lemma total_insert version σ k x :
  total version (<[k := x]> σ) = disk_size version x + total version (delete k σ).
Proof.
  unfold total. rewrite <- insert_delete_eq. rewrite map_fold_insert_L; [done| |apply lookup_delete_eq].
  intros. lia.
Qed.
Lemma total_lookup version σ k x :
  σ !! k = Some x → total version σ = disk_size version x + total version (delete k σ).
Proof. intros Hk. rewrite <- total_insert, insert_id; done. Qed.
Lemma total_nonneg version σ : 0 ≤ total version σ.
Proof. unfold total. apply (map_fold_weak_ind (λ r _, 0 ≤ r)); [lia|]. intros. unfold disk_size. lia. Qed.
Lemma total_delete version σ k : total version (delete k σ) ≤ total version σ.
Proof.
  destruct (σ !! k) as [x|] eqn:Hk; [|by rewrite delete_id].
  rewrite (total_lookup version σ k x Hk). unfold disk_size. lia.
Qed.

(** The index file journals the map: its rows replay to it. *)
Definition journal (x : NeedleMap.t M) (a : IndexSpec.index) : Prop :=
  Recovery.at_end x ∧ ∃ rows, Forall NeedleValue.wf rows
    ∧ OsFile.f_data (NeedleMap.indexFile x) = IdxRows.rows rows ∧ a = Replay.replay ∅ rows.

Record entry_ok (c : bytes) (version : Z) (k : Z) (o : Offset.t) (s : Z) (x : Needle.t * bool) : Prop := {
  en_offset : Offset.IsZero o = false;
  en_record : lies c version (Offset.ToActualOffset o) (fst x);
  en_sound : sound (fst x);
  en_id : Id (fst x) = k;
  en_size : s = kept_size version x;
}.

Record holds (v : Volume F M) (e : Z) (a : IndexSpec.index) (σ : needles) : Prop := Holds {
  h_stat : GetStat (DataBackend v) = (e, None);
  h_end : e `mod` 8 = 0 ∧ 8 ≤ e;
  h_room : 8 + total (Version v) σ ≤ e;
  h_keys : map_Forall (λ k _, in_u 64 k) σ;
  h_version : supported (Version v);
  h_map : IndexSpec.sim (NeedleMap.m (nm v)) a;
  h_file : journal (nm v) a;
  h_entries k : in_u 64 k →
    match a !! k, σ !! k with
    | Some (o, s), Some x => entry_ok (front (DataBackend v) e) (Version v) k o s x
    | None, None => True
    | _, _ => False
    end;
}.

Lemma entry_more c version k o s x d : entry_ok c version k o s x → entry_ok (c ++ d) version k o s x.
Proof. intros []. split; auto. by apply lies_more. Qed.
Lemma entry_front (w : F) e version k o s x : entry_ok (front w e) version k o s x → entry_ok (contents w) version k o s x.
Proof. intros []. split; auto. by eapply lies_front. Qed.

(** What [Get] returns. *)
Lemma holds_get v e a σ k :
  holds v e a σ → in_u 64 k →
  NeedleMap.Get (nm v) k = Ok ((λ '(o, s), NeedleValue.Mk k o s) <$> a !! k).
Proof. intros H Hk. unfold NeedleMap.Get. eapply IndexSpec.get_sim; [apply (h_map _ _ _ _ H)|done]. Qed.

Lemma kept_range version (x : Needle.t * bool) :
  sound (fst x) → (if snd x then 0 ≤ kept_size version x < 2147483600 else kept_size version x < 0).
Proof.
  intros [Hw _ _]. pose proof (body_range version (fst x) Hw). unfold kept_size, deleted_size, TombstoneFileSize.
  destruct (snd x); [lia|]. case_decide; lia.
Qed.

Lemma kept_deleted version (x : Needle.t * bool) : sound (fst x) → Size.IsDeleted (kept_size version x) = negb (snd x).
Proof.
  intros Hs. pose proof (kept_range version x Hs). destruct (snd x); cbn.
  - apply Size.IsDeleted_false. lia.
  - apply Size.IsDeleted_spec. lia.
Qed.

(** The file may grow, and the index change as the needles do. *)
Lemma holds_grow v e a σ w e' d nm' a' σ' ts lm :
  holds v e a σ → front w e' = front (DataBackend v) e ++ d → GetStat w = (e', None) →
  e' `mod` 8 = 0 → 8 ≤ e' → 8 + total (Version v) σ' ≤ e' → map_Forall (λ k _, in_u 64 k) σ' →
  IndexSpec.sim (NeedleMap.m nm') a' → journal nm' a' →
  (∀ k, in_u 64 k → a' !! k = a !! k ∧ σ' !! k = σ !! k ∨
     ∃ o s x, a' !! k = Some (o, s) ∧ σ' !! k = Some x ∧ entry_ok (front w e') (Version v) k o s x) →
  holds (Mk nm' w (Version v) (VolumeTtl v) (CompactionRevision v) (hasRemoteFile v) ts lm) e' a' σ'.
Proof.
  intros [H1 H2 Hroom Hkeys H3 H4 H5 H6] Hc Hst Hm Hge Hroom' Hkeys' Hsim Hat Hent. split; cbn; auto.
  intros k Hk. destruct (Hent k Hk) as [[-> ->]|(o & s & x & -> & -> & He)]; [|done].
  specialize (H6 k Hk). destruct (a !! k) as [[o s]|], (σ !! k); try done.
  rewrite Hc. by apply entry_more.
Qed.

(** *** The needle map *)

Lemma journal_row (x x' : NeedleMap.t M) a nv :
  journal x a → NeedleValue.wf nv → Recovery.at_end x' →
  OsFile.f_data (NeedleMap.indexFile x') = OsFile.f_data (NeedleMap.indexFile x) ++ NeedleValue.row nv →
  journal x' (Replay.replay_row a nv).
Proof.
  intros (_ & rows & Hf & Hd & ->) Hw Ha Hd'. split; [done|]. exists (rows ++ [nv]). split_and!.
  - by apply Forall_app_2; [|apply Forall_singleton].
  - by rewrite Hd', Hd, IdxRows.rows_app.
  - unfold Replay.replay. by rewrite foldl_app.
Qed.

Lemma put_sim (x : NeedleMap.t M) a k o s :
  IndexSpec.sim (NeedleMap.m x) a → journal x a → in_u 64 k → Offset.wf o → Offset.IsZero o = false →
  0 ≤ s < 2147483648 →
  ∃ x', NeedleMap.Put x k o s = (x', Ok None)
    ∧ IndexSpec.sim (NeedleMap.m x') (<[k := (o, s)]> a) ∧ journal x' (<[k := (o, s)]> a).
Proof.
  intros Hs Ha Hk Ho Hz Hr. assert (in_s 32 s) as Hr' by (widths; lia).
  destruct (IndexSpec.step_sim _ _ (IndexSpec.OSet k o s) Hs) as (m1 & E & S1); [done|].
  apply Recovery.step_Set in E as (o1 & s1 & E & _). cbn in E.
  unfold NeedleMap.Put. rewrite E.
  destruct (Recovery.append_row (NeedleMap.with_metric (Metric.logPut (NeedleMap.metric x) k s1 s)
    (NeedleMap.with_map m1 x)) (Recovery.CPut k o s)) as (x' & Ea & [Hap _] & _ & Em & Hat); [apply Ha|].
  exists x'. split; [exact Ea|].
  assert (Replay.replay_row a (NeedleValue.Mk k o s) = <[k := (o, s)]> a) as Hrow.
  { unfold Replay.replay_row, Replay.row_op, Recovery.dead. cbn [NeedleValue.Offset NeedleValue.Size].
    rewrite Hz. rewrite (proj2 (Size.IsDeleted_false s)) by lia. cbn. by destruct (default _ (a !! k)). }
  split; [rewrite Em; cbn in S1 |- *; by destruct (default _ (a !! k))|].
  rewrite <- Hrow. eapply journal_row; [done|by split_and!|done|]. by rewrite Hap.
Qed.

Lemma delete_sim (x : NeedleMap.t M) a k o :
  IndexSpec.sim (NeedleMap.m x) a → journal x a → in_u 64 k → Offset.wf o →
  let a' := fst (IndexSpec.spec_step a (IndexSpec.ODelete k)) in
  ∃ x', NeedleMap.Delete x k o = (x', Ok None) ∧ IndexSpec.sim (NeedleMap.m x') a' ∧ journal x' a'.
Proof.
  intros Hs Ha Hk Ho a'. destruct (IndexSpec.step_sim _ _ (IndexSpec.ODelete k) Hs) as (m1 & E & S1); [done|].
  apply Recovery.step_Delete in E as (s1 & E & _). cbn in E.
  unfold NeedleMap.Delete. rewrite E.
  destruct (Recovery.append_row (NeedleMap.with_metric (Metric.logDelete (NeedleMap.metric x) s1)
    (NeedleMap.with_map m1 x)) (Recovery.CDelete k o)) as (x' & Ea & [Hap _] & _ & Em & Hat); [apply Ha|].
  exists x'. split; [exact Ea|]. split; [by rewrite Em|].
  assert (Replay.replay_row a (NeedleValue.Mk k o TombstoneFileSize) = a') as <-.
  { unfold Replay.replay_row, Replay.row_op, Recovery.dead. cbn [NeedleValue.Offset NeedleValue.Size].
    change (Size.IsDeleted TombstoneFileSize) with true. by rewrite andb_false_r. }
  eapply journal_row; [done| |done|by rewrite Hap].
  split_and!; [done|done|]. split; [discriminate|reflexivity].
Qed.

(** *** The stored needle of an id *)

Lemma holds_entry_front v e a σ k x :
  holds v e a σ → in_u 64 k → σ !! k = Some x →
  ∃ o s, a !! k = Some (o, s) ∧ entry_ok (front (DataBackend v) e) (Version v) k o s x.
Proof.
  intros H Hk Hx. pose proof (h_entries _ _ _ _ H k Hk) as He. rewrite Hx in He.
  destruct (a !! k) as [[o s]|]; [|done]. by exists o, s.
Qed.
Lemma holds_entry v e a σ k x :
  holds v e a σ → in_u 64 k → σ !! k = Some x →
  ∃ o s, a !! k = Some (o, s) ∧ entry_ok (contents (DataBackend v)) (Version v) k o s x.
Proof.
  intros H Hk Hx. destruct (holds_entry_front v e a σ k x H Hk Hx) as (o & s & Ha & He).
  exists o, s. split; [done|]. by eapply entry_front.
Qed.

Lemma holds_none v e a σ k : holds v e a σ → in_u 64 k → σ !! k = None → a !! k = None.
Proof.
  intros H Hk Hx. pose proof (h_entries _ _ _ _ H k Hk) as He. rewrite Hx in He.
  by destruct (a !! k) as [[o s]|].
Qed.

Lemma kept_positive version n :
  sound n → Size.IsValid (kept_size version (n, true)) = bool_decide (body_of version n ≠ []).
Proof.
  intros [Hw _ _]. unfold kept_size. cbn. pose proof (zlen_nonneg (body_of version n)).
  apply Bool.eq_iff_eq_true. rewrite Size.IsValid_spec, bool_decide_eq_true. unfold zlen.
  destruct (body_of version n); cbn; split; intros; (done || lia || congruence).
Qed.

Lemma restore_kept version n :
  Cookie (restore version n new) = Cookie n ∧ Checksum (restore version n new) = Checksum n
  ∧ Data (restore version n new) = Data n.
Proof.
  unfold restore, restore_tail, restore_body, restore_meta.
  destruct (HasName n), (HasMime n), (HasLastModifiedDate n), (HasTtl n), (HasPairs n), (Data n) eqn:HD;
    repeat case_decide; cbn; rewrite ?HD; done.
Qed.

(** A write is dropped when the same needle, not empty, is live in a volume without TTL. *)
Definition same_stored (version : Z) (ttl : option Ttl.TTL) (σ : needles) (n : Needle.t) : Prop :=
  Ttl.String ttl = [] ∧
  ∃ n0, σ !! Id n = Some (n0, true) ∧ body_of version n0 ≠ []
    ∧ Cookie n0 = Cookie n ∧ Checksum n0 = Checksum n ∧ Data n0 = Data n.

Lemma unchanged_spec v e a σ n :
  holds v e a σ → in_u 64 (Id n) →
  (∃ d, isFileUnchanged v n = Ok (true, set_DataSize d n) ∧ same_stored (Version v) (VolumeTtl v) σ n)
  ∨ isFileUnchanged v n = Ok (false, n) ∧ ¬ same_stored (Version v) (VolumeTtl v) σ n.
Proof.
  intros H Hk. unfold isFileUnchanged, same_stored. case_decide as Ht; [right; naive_solver|].
  rewrite (holds_get v e a σ _ H Hk). cbn [mbind res_bind].
  destruct (σ !! Id n) as [[n0 live]|] eqn:Hx.
  2: { rewrite (holds_none v e a σ _ H Hk Hx). right. split; [done|]. naive_solver. }
  destruct (holds_entry v e a σ _ _ H Hk Hx) as (o & s & -> & [Ho Hl Hs Hi ->]).
  cbn [fmap option_fmap option_map NeedleValue.Offset NeedleValue.Size]. rewrite Ho. cbn [negb andb].
  destruct live.
  2: { right. pose proof (kept_range (Version v) (n0, false) Hs) as Hr.
       assert (Size.IsValid (kept_size (Version v) (n0, false)) = false) as ->.
       { apply not_true_iff_false. rewrite Size.IsValid_spec. cbn [snd] in Hr. lia. }
       split; [done|]. naive_solver. }
  cbn [fst] in *. rewrite (kept_positive _ _ Hs). case_bool_decide as Hb.
  2: { right. split; [done|]. naive_solver. }
  unfold kept_size. cbn [fst snd].
  rewrite (data_lies _ e _ _ n0 new (h_stat _ _ _ _ H) Hl Hs (h_version _ _ _ _ H) eq_refl).
  destruct (restore_kept (Version v) n0) as (-> & -> & ->).
  case_decide as Hd; [left; eexists; split; [done|]; naive_solver|right; split; [done|]; naive_solver].
Qed.

(** The needle a write stores, before its timestamp: in a batch deletion (no cookie
    and no check) it takes the stored cookie. *)
Definition with_cookie (σ : needles) (n : Needle.t) (checkCookie : bool) : Needle.t :=
  match σ !! Id n with
  | Some (n0, _) => if decide (Cookie n = 0 ∧ checkCookie = false) then set_Cookie (Cookie n0) n else n
  | None => n
  end.
(** The cookie stored for an id, deleted or not, guards it. *)
Definition cookie_fits (σ : needles) (n : Needle.t) (checkCookie : bool) : Prop :=
  match σ !! Id n with
  | Some (n0, _) => Cookie n0 = Cookie (with_cookie σ n checkCookie)
  | None => True
  end.

Lemma cookie_spec v e a σ n cc o s :
  holds v e a σ → in_u 64 (Id n) → a !! Id n = Some (o, s) →
  cookie_fits σ n cc ∧ check_cookie v n (NeedleValue.Mk (Id n) o s) cc = Ok (with_cookie σ n cc)
  ∨ ¬ cookie_fits σ n cc
    ∧ check_cookie v n (NeedleValue.Mk (Id n) o s) cc = Fail (Errorf "mismatching cookie %x").
Proof.
  intros H Hk Ha. pose proof (h_entries _ _ _ _ H _ Hk) as He. rewrite Ha in He.
  unfold cookie_fits, with_cookie, check_cookie. destruct (σ !! Id n) as [[n0 live]|] eqn:Hx; [|done].
  destruct He as [Ho Hl%lies_front Hs Hi _]. cbn [NeedleValue.Offset].
  destruct (header_lies _ e _ _ n0 (h_stat _ _ _ _ H) Hl Hs (h_version _ _ _ _ H)) as (b & r & ->).
  cbn [Cookie set_header fst]. destruct (decide (Cookie n = 0 ∧ cc = false)); cbn [Cookie set_Cookie];
    case_decide; naive_solver.
Qed.

(** *** Writing *)

Lemma sound_stamped now last n : sound n → in_u 64 now → sound (UpdateAppendAtNs now last n).
Proof.
  intros [[] [] Hc] Hn. split; [by constructor| |exact Hc]. constructor; try done.
  cbn. unfold GetAppendAtNs. case_decide; [apply wrap_range; lia|done].
Qed.

Lemma sound_cookie c n : sound n → in_u 32 c → sound (set_Cookie c n).
Proof. intros [[] [] Hc] Hn. split; [by constructor|by constructor|exact Hc]. Qed.

Lemma sound_empty n : sound n → sound (set_Data [] n).
Proof.
  intros [[] [] Hc]. split; [constructor; try done|by constructor|intros Hn; by destruct Hn].
  pose proof (zlen_nonneg (Data n)). change (zlen (Data (set_Data [] n))) with 0.
  change (meta_ref (set_Data [] n)) with (meta_ref n). lia.
Qed.

Lemma sound_with_cookie v e a σ n cc :
  holds v e a σ → sound n → sound (with_cookie σ n cc) ∧ Id (with_cookie σ n cc) = Id n.
Proof.
  intros H Hs. unfold with_cookie. destruct (σ !! Id n) as [[n0 live]|] eqn:Hx; [|done].
  destruct (holds_entry v e a σ _ _ H (r_id _ (s_ranged _ Hs)) Hx) as (o & s & _ & [_ _ Hs0 _ _]).
  case_decide; [|done]. split; [|done]. by apply sound_cookie; [|apply (s_ranged _ Hs0)].
Qed.

(** From the append on: the needle becomes the stored one, or nothing changes. *)
Lemma append_needle_spec now v e a σ n :
  holds v e a σ → e < Offset.MaxPossibleVolumeSize → sound n → in_u 64 now →
  let n1 := UpdateAppendAtNs now (lastAppendAtNs v) n in
  match append_needle now v n ((λ '(o, s), NeedleValue.Mk (Id n) o s) <$> a !! Id n) with
  | (v', _, Ok (off, _)) =>
      off = e ∧ holds v' (e + GetActualSize (zlen (body_of (Version v) n1)) (Version v))
        (<[Id n := (Offset.ToOffset e, zlen (body_of (Version v) n1))]> a) (<[Id n := (n1, true)]> σ)
  | (v', _, Fail _) => holds v' e a σ ∧ ∃ w, v' = with_backend w v
  | (_, _, Panic) => False
  end.
Proof.
  intros H He Hs Hnow n1. pose proof (sound_stamped now (lastAppendAtNs v) n Hs Hnow) as Hs1. fold n1 in Hs1.
  pose proof (h_end _ _ _ _ H) as (Hm & Hge). assert (0 ≤ e) as Hce by lia. pose proof (h_version _ _ _ _ H) as Hver.
  pose proof (append_lies n1 (DataBackend v) e (Version v) (h_stat _ _ _ _ H) (conj Hce He) Hs1 Hver) as Happ.
  unfold append_needle. fold n1.
  destruct (Append n1 (DataBackend v) (Version v)) as [[w n'] [[[off size] act]|err|]]; [| |done].
  2: { destruct Happ as ([d Hd] & Hst). cbn. split; [|by eexists].
       destruct v. eapply holds_grow; try done; try apply H. by left. }
  destruct Happ as (-> & Hf & [d Hd] & Hl & Hst & Hlen).
  destruct (filled_fields _ _ _ Hf) as (Hid & _). apply filled_size in Hf.
  pose proof (actual_size (Version v) n1 (s_writable _ Hs1) Hver) as [Hact Hmod].
  pose proof (body_range (Version v) n1 (s_writable _ Hs1)) as Hbr.
  match goal with |- context [if ?b then _ else (with_append _ _, Ok tt)] => assert (b = true) as -> end.
  { destruct (a !! Id n) as [[o s]|] eqn:Ha; [|done]. cbn. apply bool_decide_eq_true.
    pose proof (h_entries _ _ _ _ H _ (r_id _ (s_ranged _ Hs))) as Hen. rewrite Ha in Hen.
    destruct (σ !! Id n) as [x|]; [|done]. destruct Hen as [_ Hl0 Hs0 _ _].
    destruct (lies_end _ _ _ _ Hl0 (s_writable _ Hs0) Hver). pose proof (zlen_front (DataBackend v) e Hce).
    pose proof (actual_size (Version v) (fst x) (s_writable _ Hs0) Hver) as [Hact0 _].
    unfold Offset.MaxPossibleVolumeSize in He. rewrite wrap_id; [lia|]. widths. lia. }
  rewrite swrap_id by (unfold Offset.MaxPossibleVolumeSize in He; widths; lia).
  destruct (put_sim (nm v) a (Id n) (Offset.ToOffset e) (zlen (body_of (Version v) n1)))
    as (x' & Hput & Hsim & Hat); [apply H|apply H|apply Hs|apply Offset.ToOffset_wf|apply Offset.aligned_nonzero; [lia|done]|lia|].
  cbn [nm with_append with_backend]. rewrite Hid, Hf. change (Id n1) with (Id n). rewrite Hput. cbn [err_of mbind res_bind].
  split; [done|].
  assert (holds (Mk x' w (Version v) (VolumeTtl v) (CompactionRevision v) (hasRemoteFile v) (AppendAtNs n')
    (if decide (lastModifiedTsSeconds v < LastModified n') then LastModified n' else lastModifiedTsSeconds v))
    (e + GetActualSize (zlen (body_of (Version v) n1)) (Version v))
    (<[Id n:=(Offset.ToOffset e, zlen (body_of (Version v) n1))]> a) (<[Id n:=(n1, true)]> σ)) as Hgoal.
  { eapply holds_grow; try done; [mlia|lia| |by apply map_Forall_insert_2; [apply Hs|apply H]|].
    { rewrite total_insert. pose proof (total_delete (Version v) σ (Id n)). pose proof (h_room _ _ _ _ H).
      unfold disk_size. cbn [fst]. lia. }
    intros k Hk.
    destruct (decide (Id n = k)) as [<-|Hne]; [|left; by rewrite !lookup_insert_ne].
    right. do 3 eexists. rewrite !lookup_insert_eq. split_and!; [done..|].
    split; [apply Offset.aligned_nonzero; [lia|done]| |done|done|done].
    rewrite Offset.aligned_offset by (done || lia). done. }
  cbn. case_decide; exact Hgoal.
Qed.

(** What a volume is created with. *)
Definition static (v : Volume F M) := (Version v, VolumeTtl v, CompactionRevision v, hasRemoteFile v).

Lemma append_static now v n nv v' n' r : append_needle now v n nv = (v', n', r) → static v' = static v.
Proof.
  unfold append_needle. destruct (Append _ _ _) as [[w m] [[[off size] act]|err|]]; [|by intros [= <- _ _]..].
  match goal with |- context [if ?b then _ else (with_append _ _, Ok tt)] => destruct b end;
    [destruct (NeedleMap.Put _ _ _ _) as [x rp]|]; case_decide; by intros [= <- _ _].
Qed.

Lemma append_last now v n nv v' n' off size :
  append_needle now v n nv = (v', n', Ok (off, size)) → writable n → supported (Version v) →
  lastAppendAtNs v' = GetAppendAtNs now (lastAppendAtNs v).
Proof.
  unfold append_needle. intros E Hw Hv. revert E. set (n1 := UpdateAppendAtNs _ _ _).
  destruct (Append n1 _ _) as [[w m] [[[o z] act]|err|]] eqn:EA; [|done..].
  assert (AppendAtNs m = AppendAtNs n1) as Hm.
  { eapply filled_fields, append_filled; [|done|exact EA]. by destruct Hw. }
  match goal with |- context [if ?b then _ else (with_append _ _, Ok tt)] => destruct b end;
    [destruct (NeedleMap.Put _ _ _ _) as [x [[]| |]]|]; cbn; try done; case_decide; intros [= <- _ _ _]; cbn; by rewrite Hm.
Qed.

(** A write: dropped as unchanged, stored, refused for its cookie, or failed. *)
Lemma write_volume now v e a σ n cc :
  holds v e a σ → e < Offset.MaxPossibleVolumeSize → sound n → in_u 64 now →
  let n1 := UpdateAppendAtNs now (lastAppendAtNs v) (with_cookie σ n cc) in
  match doWriteRequest now v n cc with
  | (v', _, Ok (_, _, true)) => same_stored (Version v) (VolumeTtl v) σ n ∧ v' = v
  | (v', _, Ok (_, _, false)) =>
      ¬ same_stored (Version v) (VolumeTtl v) σ n ∧ cookie_fits σ n cc ∧ lastAppendAtNs v' = AppendAtNs n1 ∧ static v' = static v
      ∧ holds v' (e + GetActualSize (zlen (body_of (Version v) n1)) (Version v))
          (<[Id n := (Offset.ToOffset e, zlen (body_of (Version v) n1))]> a) (<[Id n := (n1, true)]> σ)
  | (v', _, Fail err) =>
      ¬ same_stored (Version v) (VolumeTtl v) σ n
      ∧ (¬ cookie_fits σ n cc ∧ err = Errorf "mismatching cookie %x" ∧ v' = v
         ∨ cookie_fits σ n cc ∧ holds v' e a σ ∧ ∃ w, v' = with_backend w v)
  | (_, _, Panic) => False
  end.
Proof.
  intros H He Hs Hnow n1. pose proof (r_id _ (s_ranged _ Hs)) as Hk. unfold doWriteRequest.
  destruct (unchanged_spec v e a σ n H Hk) as [(d & -> & Hsame)|[-> Hnot]]; [done|].
  rewrite (holds_get v e a σ _ H Hk).
  destruct (sound_with_cookie v e a σ n cc H Hs) as [Hs1 Hid].
  assert (cookie_fits σ n cc ∧
      match (λ '(o, s), NeedleValue.Mk (Id n) o s) <$> a !! Id n with
      | Some nv => check_cookie v n nv cc | None => Ok n end = Ok (with_cookie σ n cc)
    ∨ ¬ cookie_fits σ n cc ∧
      match (λ '(o, s), NeedleValue.Mk (Id n) o s) <$> a !! Id n with
      | Some nv => check_cookie v n nv cc | None => Ok n end = Fail (Errorf "mismatching cookie %x"))
    as [[Hfit ->]|[Hfit ->]].
  { destruct (a !! Id n) as [[o s]|] eqn:Ha; [by eapply cookie_spec|]. left.
    pose proof (h_entries _ _ _ _ H _ Hk) as Hen. rewrite Ha in Hen. unfold cookie_fits, with_cookie.
    by destruct (σ !! Id n). }
  2: { split; [done|]. by left. }
  pose proof (append_needle_spec now v e a σ _ H He Hs1 Hnow) as Happ. cbv zeta in Happ. rewrite Hid in Happ.
  destruct (append_needle _ _ _ _) as [[v' n'] [[off size]|err|]] eqn:E; cbn; [| |done].
  - destruct Happ as [-> Hh]. pose proof (append_static _ _ _ _ _ _ _ E).
    split_and!; try done. by apply (append_last _ _ _ _ _ _ _ _ E); [apply Hs1|apply H].
  - split; [done|]. by right.
Qed.

(** *** Deleting *)

Lemma holds_delete v e a σ w d e' k n0 off ts lm :
  holds v e a σ → in_u 64 k → Offset.wf off → σ !! k = Some (n0, true) →
  front w e' = front (DataBackend v) e ++ d → GetStat w = (e', None) →
  e' `mod` 8 = 0 → e ≤ e' →
  ∃ x' a', NeedleMap.Delete (nm v) k off = (x', Ok None)
    ∧ holds (Mk x' w (Version v) (VolumeTtl v) (CompactionRevision v) (hasRemoteFile v) ts lm) e' a'
        (<[k := (n0, false)]> σ).
Proof.
  intros H Hk Hoff Hx Hd Hst Hm Hge.
  destruct (holds_entry_front v e a σ _ _ H Hk Hx) as (o & s & Ha & [Ho Hl Hs0 Hi Hsz]).
  destruct (delete_sim (nm v) a k off) as (x' & Hdel & Hsim & Hat); [apply H|apply H|done|done|].
  exists x'. eexists. split; [exact Hdel|]. pose proof (h_end _ _ _ _ H) as (_ & Hge8).
  eapply holds_grow; try done; [lia| |by apply map_Forall_insert_2; [|apply H]|].
  { rewrite total_insert. pose proof (h_room _ _ _ _ H) as Hr. rewrite (total_lookup _ _ _ _ Hx) in Hr.
    unfold disk_size in *. cbn [fst] in *. lia. }
  intros j Hj.
  cbn [IndexSpec.spec_step]. rewrite Ha. cbn [fst].
  destruct (decide (k = j)) as [<-|Hne]; [|left; by rewrite !lookup_insert_ne].
  right. do 3 eexists. rewrite !lookup_insert_eq. split_and!; [done..|].
  split; [done|cbn; rewrite Hd; by apply lies_more|done|done|].
  subst s. unfold kept_size in *. cbn [fst snd]. rewrite decide_True; [done|].
  apply zlen_nonneg.
Qed.

(** A delete marks the stored needle, whose cookie still guards the id. *)
Lemma delete_volume now v e a σ n :
  holds v e a σ → e < Offset.MaxPossibleVolumeSize → sound n → in_u 64 now →
  match σ !! Id n with
  | Some (n0, true) =>
      match doDeleteRequest now v n with
      | (v', _, Ok size) =>
          size = zlen (body_of (Version v) n0) ∧ static v' = static v
          ∧ lastAppendAtNs v' = (if hasRemoteFile v then AppendAtNs n else GetAppendAtNs now (lastAppendAtNs v))
          ∧ ∃ e' a', holds v' e' a' (<[Id n := (n0, false)]> σ)
      | (v', _, Fail _) => holds v' e a σ ∧ ∃ w, v' = with_backend w v
      | (_, _, Panic) => False
      end
  | _ => doDeleteRequest now v n = (v, n, Ok 0)
  end.
Proof.
  intros H He Hs Hnow. pose proof (r_id _ (s_ranged _ Hs)) as Hk. unfold doDeleteRequest.
  rewrite (holds_get v e a σ _ H Hk). destruct (σ !! Id n) as [[n0 live]|] eqn:Hx;
    [|by rewrite (holds_none v e a σ _ H Hk Hx)].
  destruct (holds_entry v e a σ _ _ H Hk Hx) as (o & s & Ha & [Ho Hl Hs0 Hi Hsz]). rewrite Ha.
  cbn [fmap option_fmap option_map NeedleValue.Offset NeedleValue.Size]. rewrite Hsz, (kept_deleted _ _ Hs0). cbn [snd].
  destruct live; cbn [negb]; [|done].
  pose proof (h_end _ _ _ _ H) as (Hm & Hge). assert (0 ≤ e) as Hce by lia. pose proof (h_version _ _ _ _ H) as Hver.
  destruct (hasRemoteFile v) eqn:Hrem.
  - destruct (holds_delete v e a σ (DataBackend v) [] e (Id n) n0 (Offset.ToOffset (s64 0)) (AppendAtNs n)
      (lastModifiedTsSeconds v) H Hk (Offset.ToOffset_wf _) Hx) as (x' & a' & Hdel & Hh);
      [by rewrite app_nil_r|apply H|done..|]. cbn [nm with_append]. rewrite Hdel. cbn.
    split_and!; [done|done|done|by exists e, a'].
  - set (n1 := UpdateAppendAtNs now (lastAppendAtNs v) (set_Data [] n)).
    pose proof (sound_stamped now (lastAppendAtNs v) _ (sound_empty _ Hs) Hnow) as Hs1. fold n1 in Hs1.
    pose proof (append_lies n1 (DataBackend v) e (Version v) (h_stat _ _ _ _ H) (conj Hce He) Hs1 Hver) as Happ.
    destruct (Append n1 (DataBackend v) (Version v)) as [[w n'] [[[off size] act]|err|]]; [| |done].
    2: { destruct Happ as ([d Hd] & Hst). cbn. split; [|by eexists].
         destruct v. eapply holds_grow; try done; try apply H. by left. }
    destruct Happ as (-> & Hf & [d Hd] & _ & Hst & Hlen).
    destruct (filled_fields _ _ _ Hf) as (Hid & Hts & _). change (Id n1) with (Id n) in Hid.
    pose proof (actual_size (Version v) n1 (s_writable _ Hs1) Hver) as [Hact Hmod]. cbn [mbind res_bind]. rewrite Hid.
    edestruct (holds_delete v e a σ w d) as (x' & a' & Hdel & Hh); [done|exact Hk|apply Offset.ToOffset_wf|exact Hx|done|exact Hst|..].
    { mlia. } { lia. }
    cbn [nm with_append with_backend]. rewrite Hdel. cbn.
    split_and!; [done|done|by rewrite Hts|]. eexists _, _. exact Hh.
Qed.

(** *** Reading *)

(** The read takes the whole needle: it is not large, or no paging is asked for. *)
Definition whole (ro : option ReadOption) (size : Z) : Prop :=
  match ro with
  | Some o => IsMetaOnly o = false ∧ (AttemptMetaOnly o = true → size ≤ PagedReadLimit)
  | None => True
  end.
Definition wants_deleted (ro : option ReadOption) : bool :=
  match ro with Some o => ReadDeleted o | None => false end.

(** A deleted needle of one byte or none has the size of a tombstone. *)
Definition recoverable (version : Z) (n : Needle.t) : bool := bool_decide (1 < zlen (body_of version n)).

(** What a read of [n] returns when the volume stores [x] for its id. *)
Definition read_outcome (version now : Z) (x : option (Needle.t * bool)) (ro : option ReadOption) (n : Needle.t) :
    Needle.t * res Z :=
  match x with
  | None => (n, Fail ErrorNotFound)
  | Some (n0, live) =>
      if negb live && negb (wants_deleted ro && recoverable version n0) then (n, Fail ErrorDeleted)
      else if decide (zlen (body_of version n0) = 0) then (n, Ok 0)
      else
        let m := restore version n0 n in
        (m, expired now m ≫= λ late, if late : bool then Fail ErrorNotFound else Ok (DataSize m))
  end.

Lemma kept_tombstone version n :
  bool_decide (kept_size version (n, false) ≠ TombstoneFileSize) = recoverable version n.
Proof.
  unfold recoverable, kept_size, deleted_size, TombstoneFileSize. cbn [fst snd].
  pose proof (zlen_nonneg (body_of version n)). apply bool_decide_ext. case_decide; lia.
Qed.

(** The size a read asks for. *)
Lemma kept_read_size version n (live : bool) :
  sound n → live || recoverable version n = true →
  (if negb live then s32 (- kept_size version (n, live)) else kept_size version (n, live)) = zlen (body_of version n).
Proof.
  intros [Hw _ _] Hl. pose proof (body_range version n Hw). unfold kept_size. cbn [fst snd].
  destruct live; [done|]. apply bool_decide_eq_true in Hl. unfold deleted_size. cbn [negb].
  rewrite decide_False by lia. rewrite Z.opp_involutive. apply swrap_id; [lia|]. widths; lia.
Qed.

Lemma read_volume now v e a σ n ro :
  holds v e a σ → in_u 64 (Id n) → Data n = [] →
  (∀ n0 live, σ !! Id n = Some (n0, live) → whole ro (zlen (body_of (Version v) n0))) →
  ∃ n' r, readNeedle now v ro n = (n', ro, r) ∧ (n', r) = read_outcome (Version v) now (σ !! Id n) ro n.
Proof.
  intros H Hk Hn Hwhole. unfold readNeedle, read_outcome. rewrite (holds_get v e a σ _ H Hk).
  destruct (σ !! Id n) as [[n0 live]|] eqn:Hx; [|rewrite (holds_none v e a σ _ H Hk Hx); by do 2 eexists].
  destruct (holds_entry v e a σ _ _ H Hk Hx) as (o & s & -> & [Ho Hl Hs0 Hi ->]).
  cbn [fmap option_fmap option_map NeedleValue.Offset NeedleValue.Size fst] in *. rewrite Ho, (kept_deleted _ (n0, live) Hs0).
  cbn [snd]. specialize (Hwhole n0 live eq_refl).
  fold (wants_deleted ro).
  assert (negb live && negb (wants_deleted ro && bool_decide (kept_size (Version v) (n0, live) ≠ TombstoneFileSize))
    = negb live && negb (wants_deleted ro && recoverable (Version v) n0)) as ->.
  { destruct live; [done|]. by rewrite kept_tombstone. }
  destruct (negb live && negb _) eqn:Hdel; [by do 2 eexists|].
  rewrite (kept_read_size _ _ live Hs0) by (destruct live, (wants_deleted ro); cbn in *; congruence || by destruct (recoverable _ _)).
  case_decide; [by do 2 eexists|].
  match goal with |- context [match ?x with Some o => if AttemptMetaOnly o && _ then _ else _ | None => _ end] =>
    assert (match x with Some o => AttemptMetaOnly o && bool_decide (PagedReadLimit < zlen (body_of (Version v) n0)) | None => false end = false) as Hm end.
  { destruct ro as [r|]; [|done]. destruct Hwhole as [_ Hlim]. destruct (AttemptMetaOnly r); [|done].
    apply bool_decide_eq_false. specialize (Hlim eq_refl). lia. }
  pose proof (data_lies _ e _ _ n0 n (h_stat _ _ _ _ H) Hl Hs0 (h_version _ _ _ _ H) Hn) as Hrd.
  destruct ro as [r|]; [rewrite Hm; destruct Hwhole as [-> _]|]; rewrite Hrd;
    (destruct (expired _ _) as [[|]| |]; by do 2 eexists).
Qed.
End state.
End VolumeState.
Export VolumeState.
