(* ===== verification/VolumeClaims.v ===== *)
(** * VolumeClaims: a volume serves requests like a map from ids to needles

    [serve] runs the requests of a volume one after the other; the abstract volume
    [vol] is a finite map and the last timestamp. *)

From S2P Require Import Prelude GoStd Bytes StorageTypes VolumeTtl Needle Backend NeedleIO NeedleSpec Idx CompactMap NeedleMap Volume VolumeSpec.
Import Needle Layout NeedleIO Volume.

(** ** Requests, and the abstract volume *)
Module VolumeModel.

Inductive request :=
  | Write (now : Z) (n : Needle.t) (checkCookie : bool)
  | Delete (now : Z) (n : Needle.t)
  | Read (now : Z) (ro : option ReadOption) (n : Needle.t).
(** [Wrote] says whether the needle was unchanged. *)
Inductive response := Wrote (r : res bool) | Deleted (r : res Z) | Got (n : Needle.t) (r : res Z).

Definition request_id (q : request) : Z :=
  match q with Write _ n _ | Delete _ n | Read _ _ n => Id n end.

(** What the handlers guarantee of a request; reads are not paged. *)
Definition request_ok (ttl : option Ttl.TTL) (q : request) : Prop :=
  match q with
  | Write now n _ => in_u 64 now ∧ sound (inherit_ttl ttl n)
  | Delete now n => in_u 64 now ∧ sound n
  | Read _ ro n => in_u 64 (Id n) ∧ Data n = [] ∧ ∀ size, whole ro size
  end.

Record vol := Vol { stored : gmap Z (Needle.t * bool); last : Z }.

Section spec.
Context (version : Z) (ttl : option Ttl.TTL) (remote : bool).

Inductive spec_step : vol → request → response → vol → Prop :=
  | Spec_unchanged S now n cc :
      same_stored version ttl (stored S) (inherit_ttl ttl n) →
      spec_step S (Write now n cc) (Wrote (Ok true)) S
  | Spec_wrote S now n cc :
      ¬ same_stored version ttl (stored S) (inherit_ttl ttl n) →
      cookie_fits (stored S) (inherit_ttl ttl n) cc →
      spec_step S (Write now n cc) (Wrote (Ok false))
        (let n1 := UpdateAppendAtNs now (last S) (with_cookie (stored S) (inherit_ttl ttl n) cc) in
         Vol (<[Id n := (n1, true)]> (stored S)) (AppendAtNs n1))
  | Spec_mismatch S now n cc :
      ¬ same_stored version ttl (stored S) (inherit_ttl ttl n) →
      ¬ cookie_fits (stored S) (inherit_ttl ttl n) cc →
      spec_step S (Write now n cc) (Wrote (Fail (Errorf "mismatching cookie %x"))) S
  | Spec_write_failed S now n cc err :
      ¬ same_stored version ttl (stored S) (inherit_ttl ttl n) →
      cookie_fits (stored S) (inherit_ttl ttl n) cc →
      spec_step S (Write now n cc) (Wrote (Fail err)) S
  | Spec_deleted S now n n0 :
      stored S !! Id n = Some (n0, true) →
      spec_step S (Delete now n) (Deleted (Ok (zlen (body_of version n0))))
        (Vol (<[Id n := (n0, false)]> (stored S))
             (if remote then AppendAtNs n else GetAppendAtNs now (last S)))
  | Spec_nothing S now n :
      (∀ n0, stored S !! Id n ≠ Some (n0, true)) →
      spec_step S (Delete now n) (Deleted (Ok 0)) S
  | Spec_delete_failed S now n n0 err :
      stored S !! Id n = Some (n0, true) → spec_step S (Delete now n) (Deleted (Fail err)) S
  | Spec_read S now ro n :
      spec_step S (Read now ro n)
        (let '(m, r) := read_outcome version now (stored S !! Id n) ro n in Got m r) S.

Inductive spec_run : vol → list request → list response → vol → Prop :=
  | Run_nil S : spec_run S [] [] S
  | Run_cons S1 S2 S3 q y qs ys :
      spec_step S1 q y S2 → spec_run S2 qs ys S3 → spec_run S1 (q :: qs) (y :: ys) S3.
End spec.

(** *** The abstract volume *)

Lemma id_inherit ttl n : Id (inherit_ttl ttl n) = Id n.
Proof. unfold inherit_ttl. by case_decide. Qed.

(** A step keeps the cookie of every id, and does not touch the other ids. *)
Lemma spec_step_cookie version ttl remote S q y S' k n0 b :
  spec_step version ttl remote S q y S' → stored S !! k = Some (n0, b) →
  ∃ n1 b', stored S' !! k = Some (n1, b') ∧ Cookie n1 = Cookie n0.
Proof.
  destruct 1 as [| S now n cc Hn Hf| | |S now n m Hm| | |]; intros Hk; try by exists n0, b.
  - cbn. destruct (decide (Id n = k)) as [<-|Hne]; [|rewrite lookup_insert_ne by done; by exists n0, b].
    rewrite lookup_insert_eq. do 2 eexists. split; [done|]. cbn.
    unfold cookie_fits in Hf. rewrite id_inherit, Hk in Hf. done.
  - cbn. destruct (decide (Id n = k)) as [<-|Hne]; [|rewrite lookup_insert_ne by done; by exists n0, b].
    rewrite lookup_insert_eq. exists m, false. naive_solver.
Qed.

Lemma spec_step_other version ttl remote S q y S' k :
  spec_step version ttl remote S q y S' → request_id q ≠ k → stored S' !! k = stored S !! k.
Proof. destruct 1; cbn; intros Hk; by rewrite ?lookup_insert_ne. Qed.

Lemma spec_run_cookie version ttl remote S qs ys S' k n0 b :
  spec_run version ttl remote S qs ys S' → stored S !! k = Some (n0, b) →
  ∃ n1 b', stored S' !! k = Some (n1, b') ∧ Cookie n1 = Cookie n0.
Proof.
  intros Hr. revert n0 b. induction Hr as [S|S1 S2 S3 q y qs ys Hs Hr IH]; intros n0 b Hk; [by exists n0, b|].
  destruct (spec_step_cookie _ _ _ _ _ _ _ _ _ _ Hs Hk) as (n1 & b1 & H1 & <-). by apply (IH n1 b1).
Qed.

Lemma spec_run_other version ttl remote S qs ys S' k :
  spec_run version ttl remote S qs ys S' → Forall (λ q, request_id q ≠ k) qs → stored S' !! k = stored S !! k.
Proof.
  induction 1 as [S|S1 S2 S3 q y qs ys Hs Hr IH]; intros Hf; [done|]. inv Hf.
  rewrite IH by done. by eapply spec_step_other.
Qed.
End VolumeModel.
Export VolumeModel.

(** ** The volume against the abstract one *)
Module VolumeRuns.

Section runs.
Context {F : Type} `{BF : BackendStorageFile F} {BL : BackendLaws F}.
Context {M : Type} `{NM : NeedleValueMap M} {NL : NeedleValueMapLaws M}.
Implicit Types (v : Volume F M).

Definition serve (v : Volume F M) (q : request) : Volume F M * response :=
  match q with
  | Write now n cc =>
      let '(v, _, r) := writeNeedle2 now v n cc in (v, Wrote (r ≫= λ '(_, _, unchanged), Ok unchanged))
  | Delete now n => let '(v, _, r) := doDeleteRequest now v n in (v, Deleted r)
  | Read now ro n => let '(n, _, r) := readNeedle now v ro n in (v, Got n r)
  end.
Fixpoint run (v : Volume F M) (qs : list request) : Volume F M * list response :=
  match qs with
  | [] => (v, [])
  | q :: qs => let '(v, y) := serve v q in let '(v, ys) := run v qs in (v, y :: ys)
  end.
(** The data file is below the size limit before each request. *)
Fixpoint within (v : Volume F M) (qs : list request) : Prop :=
  match qs with
  | [] => True
  | q :: qs => fst (GetStat (DataBackend v)) < Offset.MaxPossibleVolumeSize ∧ within (fst (serve v q)) qs
  end.

Definition represents (v : Volume F M) (S : vol) : Prop :=
  last S = lastAppendAtNs v ∧ ∃ e a, holds v e a (stored S).
(** The steps of the abstract volume with the settings of [v]. *)
Definition step_of (v : Volume F M) := spec_step (Version v) (VolumeTtl v) (hasRemoteFile v).
Definition run_of (v : Volume F M) := spec_run (Version v) (VolumeTtl v) (hasRemoteFile v).

Lemma serve_refines v S q :
  represents v S → request_ok (VolumeTtl v) q → fst (GetStat (DataBackend v)) < Offset.MaxPossibleVolumeSize →
  ∃ S', step_of v S q (snd (serve v q)) S' ∧ represents (fst (serve v q)) S' ∧ static (fst (serve v q)) = static v.
Proof.
  intros [Hl (e & a & H)] Hq He. rewrite (h_stat _ _ _ _ H) in He. unfold step_of, serve.
  destruct q as [now n cc|now n|now ro n]; cbn in Hq.
  - destruct Hq as [Hnow Hs]. pose proof (write_volume now v e a (stored S) _ cc H He Hs Hnow) as Hw.
    unfold writeNeedle2. destruct (doWriteRequest _ _ _ _) as [[v' n'] [[[off size] [|]]|err|]]; cbn in Hw |- *; [..|done].
    + destruct Hw as [Hsame ->]. exists S. split_and!; [by constructor|split; [done|by exists e, a]|done].
    + destruct Hw as (Hn & Hf & Hts & Hst & Hh). rewrite <- Hl, id_inherit in *.
      eexists. split_and!; [by apply Spec_wrote|split; cbn; [by rewrite Hts|by do 2 eexists]|done].
    + destruct Hw as (Hn & [(Hf & -> & ->)|(Hf & Hh & w & ->)]); exists S.
      * split_and!; [by constructor|split; [done|by exists e, a]|done].
      * split_and!; [by constructor|split; [done|by exists e, a]|done].
  - destruct Hq as [Hnow Hs]. pose proof (delete_volume now v e a (stored S) n H He Hs Hnow) as Hd.
    destruct (stored S !! Id n) as [[n0 [|]]|] eqn:Hx.
    2-3: rewrite Hd; cbn; exists S; split_and!; [apply Spec_nothing; naive_solver|split; [done|by exists e, a]|done].
    destruct (doDeleteRequest now v n) as [[v' n'] [size|err|]]; cbn in Hd |- *; [| |done].
    + destruct Hd as (-> & Hst & Hts & e' & a' & Hh). eexists.
      split_and!; [by apply Spec_deleted|split; cbn; [by rewrite Hts, Hl|by exists e', a']|done].
    + destruct Hd as (Hh & w & ->). exists S. split_and!; [by eapply Spec_delete_failed|split; [done|by exists e, a]|done].
  - destruct Hq as (Hk & Hn & Hw).
    destruct (read_volume now v e a (stored S) n ro H Hk Hn) as (n' & r & -> & Ho); [naive_solver|].
    exists S. cbn. split_and!; [|split; [done|by exists e, a]|done].
    pose proof (Spec_read (Version v) (VolumeTtl v) (hasRemoteFile v) S now ro n) as Hr. by rewrite <- Ho in Hr.
Qed.

Lemma run_refines qs v S :
  represents v S → Forall (request_ok (VolumeTtl v)) qs → within v qs →
  ∃ S', run_of v S qs (snd (run v qs)) S' ∧ represents (fst (run v qs)) S' ∧ static (fst (run v qs)) = static v.
Proof.
  revert v S. induction qs as [|q qs IH]; intros v S HS Hok Hw; cbn [run within snd fst] in *.
  { exists S. split_and!; [constructor|done|done]. }
  inv Hok. destruct Hw as [He Hw]. destruct (serve_refines v S q HS) as (S1 & Hstep & HS1 & Hst); [done..|].
  destruct (serve v q) as [v1 y]. cbn [fst snd] in *. injection Hst as Ev Et Ec Er.
  destruct (IH v1 S1 HS1) as (S2 & Hrun & HS2 & Hst2); [by rewrite Et|done|]. revert Hrun HS2 Hst2.
  destruct (run v1 qs) as [v2 ys]. cbn. unfold run_of, static. rewrite Ev, Et, Ec, Er. intros.
  exists S2. split_and!; [by eapply Run_cons|done|done].
Qed.

Lemma within_app v qs rs : within v (qs ++ rs) ↔ within v qs ∧ within (fst (run v qs)) rs.
Proof.
  revert v. induction qs as [|q qs IH]; intros v; cbn [run within app fst]; [tauto|]. rewrite IH.
  destruct (serve v q) as [v1 y]. cbn [fst]. destruct (run v1 qs). cbn. tauto.
Qed.

(** A write with a wrong cookie. *)
Lemma write_refused v S now n cc n0 b :
  represents v S → request_ok (VolumeTtl v) (Write now n cc) →
  fst (GetStat (DataBackend v)) < Offset.MaxPossibleVolumeSize →
  stored S !! Id n = Some (n0, b) → Cookie n ≠ Cookie n0 → (Cookie n = 0 → cc = true) →
  serve v (Write now n cc) = (v, Wrote (Fail (Errorf "mismatching cookie %x"))).
Proof.
  intros [Hl (e & a & H)] [Hnow Hs] He Hk Hc Hz. rewrite (h_stat _ _ _ _ H) in He. cbn in He.
  assert (Cookie (inherit_ttl (VolumeTtl v) n) = Cookie n) as Hci by (unfold inherit_ttl; by case_decide).
  pose proof (write_volume now v e a (stored S) _ cc H He Hs Hnow) as Hw. cbv zeta in Hw. revert Hw.
  assert (¬ same_stored (Version v) (VolumeTtl v) (stored S) (inherit_ttl (VolumeTtl v) n)) as Hns.
  { intros (_ & m & Hm & _ & Hcm & _). rewrite id_inherit in Hm. congruence. }
  assert (¬ cookie_fits (stored S) (inherit_ttl (VolumeTtl v) n) cc) as Hnf.
  { unfold cookie_fits, with_cookie. rewrite id_inherit, Hk. case_decide as Hd; [|congruence].
    rewrite Hci in Hd. destruct Hd as [Hd ->]. by specialize (Hz Hd). }
  unfold serve, writeNeedle2. destruct (doWriteRequest _ _ _ _) as [[v' n'] [[[off size] [|]]|err|]]; [naive_solver..|].
  done.
Qed.

(** A new volume: a data file with only a super block, and an empty index. *)
Lemma fresh_represents w e m version ttl revision remote ts lm :
  GetStat w = (e, None) → e `mod` 8 = 0 → 8 ≤ e → supported version → IndexSpec.sim m ∅ →
  represents (Mk (NeedleMap.NewCompactNeedleMap m (OsFile.OsF [] None)) w version ttl revision remote ts lm)
    (Vol ∅ ts).
Proof.
  intros Hst Hm Hge Hv Hsim. split; [done|]. exists e, ∅. split; cbn; [done|done|done|apply map_Forall_empty|done|done| |].
  { split; [done|]. by exists []. }
  intros k _. by rewrite !lookup_empty.
Qed.

(** C3: a volume refines a finite map from ids to needles: any sequence of writes,
    deletes and unpaged reads, on a data file below the size limit whose writes and
    truncations may fail at any point, is answered as the abstract volume answers it
    and leaves the files in its state.  Reads of the data file and writes of the index
    file are taken to succeed ([index_write_fails] shows what a failing one does). *)
Theorem volume_refines v S qs :
  represents v S → Forall (request_ok (VolumeTtl v)) qs → within v qs →
  ∃ S', run_of v S qs (snd (run v qs)) S' ∧ represents (fst (run v qs)) S'.
Proof. intros HS Hok Hw. destruct (run_refines qs v S HS Hok Hw) as (S' & ? & ? & _). by exists S'. Qed.

(** C4: the cookie stored first for an id guards it from then on: whatever is written and
    deleted since, a write with another cookie is refused and changes nothing, also
    when the needle is deleted.  The one exception is a write that carries no cookie
    (0) and is not checked, a batch deletion: it takes over the stored cookie. *)
Theorem cookie_guards v S qs k n0 b now n cc :
  represents v S → Forall (request_ok (VolumeTtl v)) qs → within v (qs ++ [Write now n cc]) →
  stored S !! k = Some (n0, b) → Id n = k → Cookie n ≠ Cookie n0 → (Cookie n = 0 → cc = true) →
  request_ok (VolumeTtl v) (Write now n cc) →
  let v' := fst (run v qs) in
  serve v' (Write now n cc) = (v', Wrote (Fail (Errorf "mismatching cookie %x"))).
Proof.
  intros HS Hok Hw Hk <- Hc Hz Hq v'. apply within_app in Hw as [Hw [He _]].
  destruct (run_refines qs v S HS Hok Hw) as (S' & Hrun & HS' & Hst). injection Hst as _ Et _ _.
  destruct (spec_run_cookie _ _ _ _ _ _ _ _ _ _ Hrun Hk) as (n1 & b' & Hk' & Hc').
  apply (write_refused v' S' now n cc n1 b'); [done| |done|done|by rewrite Hc'|done].
  subst v'. by rewrite Et.
Qed.

(** C5: reads return what was written: after a write that stored [n], and any requests
    for other ids, a read of its id fills in exactly the stored fields, unless the
    needle's time to live is over. *)
Theorem read_your_writes v S now n cc qs later m :
  represents v S → request_ok (VolumeTtl v) (Write now n cc) → Forall (request_ok (VolumeTtl v)) qs →
  within v (Write now n cc :: qs) →
  snd (serve v (Write now n cc)) = Wrote (Ok false) → Forall (λ q, request_id q ≠ Id n) qs →
  Id m = Id n → Data m = [] →
  let n1 := UpdateAppendAtNs now (last S) (with_cookie (stored S) (inherit_ttl (VolumeTtl v) n) cc) in
  let v' := fst (run v (Write now n cc :: qs)) in
  body_of (Version v) n1 ≠ [] → expired later (restore (Version v) n1 m) = Ok false →
  readNeedle later v' None m
  = (restore (Version v) n1 m, None, Ok (DataSize (restore (Version v) n1 m))).
Proof.
  intros HS Hq Hqs [He Hw] Hwrote Hother Hid Hm n1 v' Hb Hlate.
  destruct (serve_refines v S _ HS Hq He) as (S1 & Hstep & HS1 & Hst). rewrite Hwrote in Hstep.
  subst v'. cbn [run]. destruct (serve v (Write now n cc)) as [v1 y]. cbn [fst snd] in *.
  injection Hst as Ev Et _ Er.
  destruct (run_refines qs v1 S1 HS1) as (S2 & Hrun & [_ (e & a & H2)] & Hst2); [by rewrite Et|done|].
  injection Hst2 as Ev2 _ _ _. destruct (run v1 qs) as [v2 ys]. cbn [fst snd] in *.
  pose proof (spec_run_other _ _ _ _ _ _ _ (Id n) Hrun Hother) as Hk.
  assert (stored S2 !! Id m = Some (n1, true)) as Hx.
  { rewrite Hid, Hk. inv Hstep. cbn. apply lookup_insert_eq. }
  destruct (read_volume later v2 e a (stored S2) m None H2) as (n' & r & -> & Ho); [|done|done|].
  { rewrite Hid. destruct Hq as [_ Hs]. rewrite <- (id_inherit (VolumeTtl v)). apply Hs. }
  rewrite Hx in Ho. unfold read_outcome in Ho. rewrite Ev2, Ev in Ho. cbn [negb andb] in Ho.
  rewrite decide_False in Ho; [|by destruct (body_of (Version v) n1)]. rewrite Hlate in Ho. cbn in Ho. congruence.
Qed.
End runs.
End VolumeRuns.
Export VolumeRuns.

(** ** A volume on disk *)
Module VolumeExamples.

Definition empty_volume : Volume DiskFile.t CompactMap.t :=
  Mk (NeedleMap.NewCompactNeedleMap CompactMap.NewCompactMap (OsFile.OsF [] None)) empty_disk
     Version3 (Some Ttl.EMPTY_TTL) 0 false 0 0.
Definition wrong : Needle.t := set_Cookie 1 sample.
Definition ask : Needle.t := set_header 0 7 0 new.
Definition clock : Z := 1700000000000000001.

Lemma empty_volume_ok : represents empty_volume (Vol ∅ 0).
Proof.
  apply (fresh_represents empty_disk 8); [done|done|done|by right; right|].
  exact CompactMapSpec.new_sim.
Qed.
Lemma sample_sound : sound sample.
Proof. split; [exact sample_writable|exact sample_ranged|exact sample_crc]. Qed.
Lemma write_sample_ok : request_ok (Some Ttl.EMPTY_TTL) (Write clock sample true).
Proof. split; [split; [discriminate|reflexivity]|]. exact sample_sound. Qed.
Lemma delete_sample_ok : request_ok (Some Ttl.EMPTY_TTL) (Delete clock sample).
Proof. split; [split; [discriminate|reflexivity]|]. exact sample_sound. Qed.
Lemma write_wrong_ok : request_ok (Some Ttl.EMPTY_TTL) (Write clock wrong true).
Proof.
  split; [split; [discriminate|reflexivity]|]. apply sound_cookie; [exact sample_sound|]. by split.
Qed.

(** Write, read, delete, read. *)
Definition session : list request :=
  [Write clock sample true; Read clock None ask; Delete clock sample; Read clock None ask].

Lemma volume_refines_witness :
  ∃ S', run_of empty_volume (Vol ∅ 0) session (snd (run empty_volume session)) S'
    ∧ represents (fst (run empty_volume session)) S'
    ∧ (λ y, match y with Got n r => (Data n, r) | _ => ([], Ok 0) end) <$> snd (run empty_volume session)
      = [([], Ok 0); (str "hello", Ok 5); ([], Ok 0); ([], Fail ErrorDeleted)].
Proof.
  destruct (volume_refines empty_volume (Vol ∅ 0) session empty_volume_ok) as (S' & H1 & H2).
  - repeat apply Forall_cons_2; [apply write_sample_ok| |apply delete_sample_ok| |apply Forall_nil_2];
      (split; [by split|done]).
  - vm_compute. repeat split.
  - exists S'. split; [exact H1|]. split; [exact H2|]. vm_compute. reflexivity.
Defined.

Lemma cookie_guards_witness :
  let v := fst (serve empty_volume (Write clock sample true)) in
  let v' := fst (run v [Delete clock sample]) in
  serve v' (Write clock wrong true) = (v', Wrote (Fail (Errorf "mismatching cookie %x"))).
Proof.
  destruct (serve_refines empty_volume (Vol ∅ 0) _ empty_volume_ok write_sample_ok) as (S1 & Hs & HS & _);
    [by vm_compute|].
  assert (snd (serve empty_volume (Write clock sample true)) = Wrote (Ok false)) as E by (vm_compute; reflexivity).
  rewrite E in Hs. revert HS. inversion Hs as [|S0 now n cc Hn Hf| | | | | |]. intros HS.
  eapply (cookie_guards _ _ [Delete clock sample] 7 _ true clock wrong true HS).
  - apply Forall_cons_2; [apply delete_sample_ok|apply Forall_nil_2].
  - vm_compute. repeat split.
  - cbn [stored]. apply lookup_insert_eq.
  - reflexivity.
  - vm_compute. discriminate.
  - reflexivity.
  - exact write_wrong_ok.
Defined.

(** A write whose index row cannot be written reports an error, but the needle is
    served from memory; it is not found after the index is loaded from the file. *)
Definition full_index_volume : Volume DiskFile.t CompactMap.t :=
  Mk (NeedleMap.NewCompactNeedleMap CompactMap.NewCompactMap (OsFile.OsF [] (Some 0))) empty_disk
     Version3 (Some Ttl.EMPTY_TTL) 0 false 0 0.
Example index_write_fails :
  let '(v, ys) := run full_index_volume [Write clock sample true; Read clock None ask] in
  match ys with
  | [Wrote (Fail _); Got n (Ok _)] => Data n = str "hello" ∧ OsFile.f_data (NeedleMap.indexFile (nm v)) = []
  | _ => False
  end.
Proof. vm_compute. split; reflexivity. Qed.

(** Without a cookie and without a check, the stored cookie is taken over. *)
Example unchecked_write_accepted :
  let v := fst (serve empty_volume (Write clock sample true)) in
  snd (serve v (Write clock (set_Cookie 0 (set_Data [1] (set_Checksum (NewCRC [1]) sample))) false)) = Wrote (Ok false).
Proof. vm_compute. reflexivity. Qed.

Lemma read_your_writes_witness :
  let v' := fst (run empty_volume [Write clock sample true]) in
  fst (fst (readNeedle clock v' None ask)) = restore Version3 (set_AppendAtNs clock sample) ask.
Proof.
  intros v'. subst v'.
  rewrite (read_your_writes empty_volume (Vol ∅ 0) clock sample true [] clock ask empty_volume_ok write_sample_ok);
    [reflexivity|apply Forall_nil_2|vm_compute; repeat split|vm_compute; reflexivity|apply Forall_nil_2
    |reflexivity|reflexivity|vm_compute; discriminate|vm_compute; reflexivity].
Defined.
End VolumeExamples.
