(* ===== verification/VacuumSpec.v ===== *)
(** * VacuumSpec: a compaction keeps the live needles

    The copy of a volume holds exactly the needles that are live in its index and
    have not outlived the volume's TTL, as they are read. *)

From S2P Require Import Prelude GoStd Bytes SortedList StorageTypes VolumeTtl Needle Backend NeedleIO NeedleSpec SuperBlock Idx MemDb CompactMap NeedleMap Volume Vacuum VolumeSpec VolumeClaims.
Import Needle Layout NeedleIO Volume Vacuum.

(** ** Needles as they are read *)
Module Reread.

Section fields.
Context (n m : Needle.t).

Lemma meta_fields :
  let r := restore_meta n m in
  Flags r = Flags n ∧ Data r = Data m
  ∧ (HasName n = true → Name r = take 255 (Name n)) ∧ (HasMime n = true → Mime r = Mime n)
  ∧ (HasLastModifiedDate n = true → LastModified r = LastModified n `mod` 2 ^ 40)
  ∧ (HasTtl n = true → Ttl r = Ttl n)
  ∧ (HasPairs n = true → Pairs r = Pairs n ∧ PairsSize r = zlen (Pairs n)).
Proof.
  unfold restore_meta.
  destruct (HasName n), (HasMime n), (HasLastModifiedDate n), (HasTtl n), (HasPairs n); cbn; split_and!; done.
Qed.
End fields.

(** A flag that depends on [Flags] only. *)
Lemma same_flags a b :
  Flags a = Flags b →
  HasName a = HasName b ∧ HasMime a = HasMime b ∧ HasLastModifiedDate a = HasLastModifiedDate b
  ∧ HasTtl a = HasTtl b ∧ HasPairs a = HasPairs b.
Proof. unfold HasName, HasMime, HasLastModifiedDate, HasTtl, HasPairs, has. by intros ->. Qed.

Lemma meta_restored n m : meta_ref (restore_meta n m) = meta_ref n.
Proof.
  destruct (meta_fields n m) as (Hf & _ & H1 & H2 & H3 & H4 & H5).
  destruct (same_flags _ _ Hf) as (F1 & F2 & F3 & F4 & F5).
  unfold meta_ref, name_ref, mime_ref, last_modified_ref, ttl_ref, pairs_ref. rewrite Hf, F1, F2, F3, F4, F5.
  f_equal. f_equal; [|f_equal; [|f_equal; [|f_equal]]].
  - destruct (HasName n); [|done]. rewrite H1, take_take by done. by rewrite Nat.min_id.
  - destruct (HasMime n); [|done]. by rewrite H2.
  - destruct (HasLastModifiedDate n); [|done]. rewrite H3 by done. apply be_split_ext.
    change (2 ^ (8 * Z.of_nat 5)) with (2 ^ 40). by rewrite Z.mod_mod.
  - destruct (HasTtl n); [|done]. by rewrite H4.
  - destruct (HasPairs n); [|done]. by destruct (H5 eq_refl) as [-> _].
Qed.

(** A needle that is read and written again has the record it was read from. *)
Lemma body_restored version n : body_of version (restore version n new) = body_of version n.
Proof.
  unfold body_of, restore. case_decide as Hv; [unfold restore_tail; by case_decide|].
  unfold restore_tail, body_ref, restore_body.
  destruct (Data n) as [|x d] eqn:HD; [by case_decide|].
  set (m := set_Data _ _).
  assert (∀ r, Data r = x :: d → meta_ref r = meta_ref n →
    match Data r with [] => [] | _ => be_split 4 (zlen (Data r)) ++ Data r ++ meta_ref r end
    = be_split 4 (zlen (x :: d)) ++ (x :: d) ++ meta_ref n) as Hr by (by intros r -> ->).
  assert (Data (restore_meta n m) = x :: d) as Hd by (by rewrite Data_restore_meta).
  case_decide; apply Hr; try exact Hd; apply meta_restored.
Qed.

Lemma restored_fields version n m :
  let r := restore version n m in
  Id r = Id n ∧ Cookie r = Cookie n ∧ Size r = zlen (body_of version n) ∧ Checksum r = Checksum n
  ∧ (version = Version3 → AppendAtNs r = AppendAtNs n) ∧ (version ≠ Version3 → AppendAtNs r = AppendAtNs m).
Proof.
  unfold restore, restore_tail, restore_body, restore_meta.
  destruct (HasName n), (HasMime n), (HasLastModifiedDate n), (HasTtl n), (HasPairs n), (Data n);
    repeat case_decide; cbn; split_and!; done.
Qed.

(** A needle without flags. *)
Lemma writable_plain r : Flags r = 0 → zlen (Data r) + 6 < 2147483600 → writable r.
Proof.
  intros Hf Hd. assert (HasName r = false ∧ HasMime r = false ∧ HasLastModifiedDate r = false
    ∧ HasTtl r = false ∧ HasPairs r = false) as (F1 & F2 & F3 & F4 & F5).
  { unfold HasName, HasMime, HasLastModifiedDate, HasTtl, HasPairs, has. rewrite Hf. done. }
  split; rewrite ?F2, ?F4, ?F5; try done; [rewrite Hf; by split|].
  unfold meta_ref, name_ref, mime_ref, last_modified_ref, ttl_ref, pairs_ref. rewrite F1, F2, F3, F4, F5.
  change (zlen ([Flags r] ++ [] ++ [] ++ [] ++ [] ++ [])) with 1. lia.
Qed.

Lemma writable_restored version n : writable n → writable (restore version n new).
Proof.
  intros [Hf Hm Ht Hp Hs]. assert (1 ≤ zlen (meta_ref n)) as H1.
  { unfold meta_ref. rewrite zlen_app. pose proof (zlen_nonneg (name_ref n ++ mime_ref n ++ last_modified_ref n
      ++ ttl_ref n ++ pairs_ref n)). change (zlen [Flags n]) with 1. lia. }
  pose proof (zlen_nonneg (Data n)). unfold restore. case_decide as Hv.
  { unfold restore_tail. case_decide; (apply writable_plain; [done|cbn; lia]). }
  unfold restore_tail, restore_body. destruct (Data n) as [|x d] eqn:HD.
  { case_decide; (apply writable_plain; [done|cbn; lia]). }
  set (m := set_Data _ _). destruct (meta_fields n m) as (E & Ed & _ & E2 & _ & E4 & E5).
  destruct (same_flags _ _ E) as (_ & F2 & _ & F4 & F5). pose proof (meta_restored n m) as Em.
  assert (writable (restore_meta n m)) as [].
  { split; rewrite ?E, ?F2, ?F4, ?F5, ?Em, ?Ed; try done; intros Hx.
    - by rewrite E2; [apply Hm|].
    - by rewrite E4; [apply Ht|].
    - destruct (E5 Hx) as [-> ->]. split; [done|]. by apply Hp. }
  case_decide; by split.
Qed.

Lemma sound_restored version n : sound n → supported version → sound (restore version n new).
Proof.
  intros [Hw Hr Hc] Hv. destruct (restored_fields version n new) as (Ei & Ec & _ & Ek & E3 & En).
  destruct (restore_kept version n) as (_ & _ & Ed). split.
  - by apply writable_restored.
  - destruct Hr. split; rewrite ?Ei, ?Ec, ?Ek; try done.
    destruct (decide (version = Version3)) as [->|Hne]; [by rewrite E3|rewrite En by done; by split].
  - intros Hd. rewrite Ed, Ek in *. by apply Hc.
Qed.

(** Reading it again gives the same. *)
Lemma restore_meta_twice n m0 m :
  restore_meta (restore_meta n m0) m = restore_meta n m.
Proof.
  pose proof (meta_fields n m0) as Hr. cbv zeta in Hr. revert Hr.
  generalize (restore_meta n m0) as r. intros r (Hf & _ & H1 & H2 & H3 & H4 & H5).
  destruct (same_flags _ _ Hf) as (F1 & F2 & F3 & F4 & F5).
  unfold restore_meta at 1. rewrite Hf, F1, F2, F3, F4, F5. unfold restore_meta.
  destruct (HasName n); [rewrite H1, take_take, Nat.min_id by done|];
  (destruct (HasMime n); [rewrite H2 by done|]);
  (destruct (HasLastModifiedDate n); [rewrite H3, Z.mod_mod by done|]);
  (destruct (HasTtl n); [rewrite H4 by done|]);
  (destruct (HasPairs n); [destruct (H5 eq_refl) as [-> _]|]); reflexivity.
Qed.

Lemma restore_twice version n m : restore version (restore version n new) m = restore version n m.
Proof.
  pose proof (body_restored version n) as Hb. destruct (restored_fields version n new) as (Ei & Ec & _ & Ek & E3 & _).
  destruct (restore_kept version n) as (_ & _ & Ed).
  assert (version ≠ Version1 → ∀ m1, restore_body (restore version n new) m1 = restore_body n m1) as Hbody.
  { intros Hv m1. unfold restore_body at 1. rewrite Ed. unfold restore_body at 1.
    destruct (Data n) as [|x d] eqn:HD; [done|].
    unfold restore, restore_tail. cbv zeta. rewrite (decide_False (P := version = Version1)) by done.
    unfold restore_body. rewrite HD.
    set (m0 := set_Data _ (set_DataSize _ (set_header _ _ _ _))).
    set (m2 := set_Data _ (set_DataSize _ m1)).
    case_decide; (transitivity (restore_meta (restore_meta n m0) m2); [reflexivity|apply restore_meta_twice]). }
  revert Hb Ei Ec Ek E3 Ed Hbody. generalize (restore version n new) as r. intros r Hb Ei Ec Ek E3 Ed Hbody.
  unfold restore. rewrite Ei, Ec, Hb, Ed. unfold restore_tail. rewrite Ek.
  destruct (decide (version = Version1)) as [->|Hv]; [done|]. rewrite Hbody by done.
  case_decide; [by rewrite E3|done].
Qed.
End Reread.
Export Reread.

(** ** The live entries of an index file *)
Module LiveRows.

(** What is live of an index entry. *)
Definition live_entry (x : option (Offset.t * Z)) : option (Offset.t * Z) :=
  match x with Some (o, s) => if decide (0 ≤ s) then Some (o, s) else None | None => None end.

Lemma dead_live nv : Recovery.dead nv = negb (MemDbSpec.live nv).
Proof. done. Qed.

Lemma row_effect_live (m : MemDbSpec.index) (a : IndexSpec.index) nv :
  (∀ k, m !! k = live_entry (a !! k)) →
  ∀ k, MemDbSpec.row_effect m nv !! k = live_entry (Replay.replay_row a nv !! k).
Proof.
  intros Hm k. unfold MemDbSpec.row_effect, Replay.replay_row, Replay.row_op. rewrite dead_live.
  destruct (MemDbSpec.live nv) eqn:Hl; cbn [negb IndexSpec.spec_step].
  - unfold MemDbSpec.live in Hl. apply andb_prop in Hl as [_ Hs]. apply negb_true_iff, Size.IsDeleted_false in Hs.
    destruct (default _ (a !! NeedleValue.Key nv)). cbn [fst].
    destruct (decide (NeedleValue.Key nv = k)) as [<-|Hne]; [|by rewrite !lookup_insert_ne].
    rewrite !lookup_insert_eq. cbn. by rewrite decide_True.
  - destruct (decide (NeedleValue.Key nv = k)) as [<-|Hne].
    + rewrite lookup_delete_eq. destruct (a !! NeedleValue.Key nv) as [[o s]|] eqn:Ea; cbn [fst]; [|by rewrite Ea].
      rewrite lookup_insert_eq. cbn. unfold deleted_size, TombstoneFileSize. repeat case_decide; (done || lia).
    + rewrite lookup_delete_ne by done. destruct (a !! NeedleValue.Key nv) as [[o s]|]; cbn [fst]; [|done].
      by rewrite lookup_insert_ne.
Qed.

Lemma live_replay rows k : MemDbSpec.live_index rows !! k = live_entry (Replay.replay ∅ rows !! k).
Proof.
  assert (∀ rows (m : MemDbSpec.index) (a : IndexSpec.index), (∀ k, m !! k = live_entry (a !! k)) →
    ∀ k, foldl MemDbSpec.row_effect m rows !! k = live_entry (foldl Replay.replay_row a rows !! k)) as H.
  { clear. intros rows. induction rows as [|nv rows IH]; intros m a Hm; [done|]. cbn. by apply IH, row_effect_live. }
  apply H. intros j. by rewrite !lookup_empty.
Qed.

(** Rows that are all live, of distinct ids. *)
Lemma replay_distinct rows (a : IndexSpec.index) :
  NoDup (NeedleValue.Key <$> rows) → Forall (λ nv, MemDbSpec.live nv = true) rows →
  (∀ nv, nv ∈ rows → Replay.replay a rows !! NeedleValue.Key nv = Some (NeedleValue.Offset nv, NeedleValue.Size nv))
  ∧ (∀ k, k ∉ NeedleValue.Key <$> rows → Replay.replay a rows !! k = a !! k).
Proof.
  revert a. induction rows as [|nv rows IH]; intros a Hnd Hl.
  { split; [|done]. intros nv Hn. by apply not_elem_of_nil in Hn. }
  inv Hl. apply NoDup_cons in Hnd as [Hnin Hnd].
  assert (Replay.replay_row a nv = <[NeedleValue.Key nv := (NeedleValue.Offset nv, NeedleValue.Size nv)]> a) as Hr.
  { unfold Replay.replay_row, Replay.row_op. rewrite dead_live. destruct (MemDbSpec.live nv); [|done].
    cbn. by destruct (default _ _). }
  destruct (IH (Replay.replay_row a nv) Hnd) as [IH1 IH2]; [done|]. cbn [Replay.replay foldl]. split.
  - intros x [->|Hx]%elem_of_cons; [|by apply IH1]. unfold Replay.replay in IH2. rewrite IH2, Hr by done.
    apply lookup_insert_eq.
  - intros k Hk. rewrite fmap_cons, not_elem_of_cons in Hk. destruct Hk as [Hk1 Hk2].
    unfold Replay.replay in IH2. rewrite IH2, Hr by done. by rewrite lookup_insert_ne.
Qed.

Section load.
Context {D : Type} `{DB : LevelDb D} {DL : LevelDbLaws D}.

Lemma load_old_spec rows :
  Forall NeedleValue.wf rows →
  ∃ d, load_old (D := D) (IdxRows.rows rows) = Ok d ∧ MemDbSpec.holds d (MemDbSpec.live_index rows).
Proof.
  intros Hf. destruct (MemDbSpec.load_rows rows MemDb.NewMemDb ∅ MemDbSpec.new_holds Hf) as (d & E & Hd).
  exists d. split; [|done]. unfold load_old, MemDb.LoadFromReaderAt, MemDb.LoadFilterFromReaderAt.
  rewrite IdxSpec.walk_file by done. change (Z.to_nat (0 * NeedleMapEntrySize)) with 0%nat.
  rewrite drop_0, IdxRows.entries_rows by done. unfold IdxSpec.walk_out. by rewrite E.
Qed.

(** The saved index file has the live entries in ascending order. *)
Lemma save_rows nvs out :
  Forall (λ nv, MemDbSpec.live nv = true) nvs →
  IdxSpec.visit MemDb.save_step nvs (Ok out) = (Ok (out ++ IdxRows.rows nvs), None).
Proof.
  intros Hl. revert out. induction Hl as [|nv nvs Hnv Hl IH]; intros out; [by rewrite app_nil_r|].
  cbn [IdxSpec.visit]. unfold MemDb.save_step at 1. unfold MemDbSpec.live in Hnv.
  rewrite <- negb_orb in Hnv. apply negb_true_iff in Hnv. rewrite Hnv. cbn [mbind res_bind].
  rewrite NeedleValue.ToBytes_row. cbn [mbind res_bind]. rewrite IH. by rewrite <- app_assoc.
Qed.
End load.
End LiveRows.
Export LiveRows.

(** ** The copy *)
Module CopySpec.

Section copy.
Context {E : Type}.
Context {D : Type} `{DB : LevelDb D} {DL : LevelDbLaws D}.
Context {F : Type} `{BF : BackendStorageFile F} {BL : BackendLaws F}.
Context (now : Z) (version : Z) (ttl : Ttl.TTL).
Abbreviation needles := (gmap Z (Needle.t * bool)).

(** What a compaction keeps of a stored needle. *)
Definition survivor (x : Needle.t * bool) : option (Needle.t * bool) :=
  let '(n, live) := x in
  let r := restore version n new in
  if live : bool then
    match outlived now (Some ttl) r with Ok false => Some (r, true) | _ => None end
  else None.
Definition survivors (σ : needles) : needles := omap survivor σ.

(** What is still to be visited. *)
Definition left (σ : needles) (ks : list Z) : needles := foldr delete σ ks.

Lemma left_lookup σ ks k : k ∉ ks → left σ ks !! k = σ !! k.
Proof.
  induction ks as [|j ks IH]; intros Hk; [done|]. apply not_elem_of_cons in Hk as [Hne Hk]. cbn.
  rewrite lookup_delete_ne by done. by apply IH.
Qed.

Lemma survivors_lookup σ k : survivors σ !! k = σ !! k ≫= survivor.
Proof. apply lookup_omap. Qed.

(** The new index and data file hold the survivors among the ids [ks], and have room
    for the others. *)
Record copied_ok (σ : needles) (ks : list Z) (prefix : bytes) (d : D) (dst : F) (off : Z) : Prop := {
  c_stat : GetStat dst = (off, None);
  c_len : zlen (contents dst) = off;
  c_aligned : off `mod` 8 = 0 ∧ 8 ≤ off;
  c_prefix : ∃ rest, contents dst = prefix ++ rest;
  c_room : off + total version (left σ ks) ≤ Offset.MaxPossibleVolumeSize;
  c_index : ∃ m τ, MemDbSpec.holds d m ∧ 8 + total version τ ≤ off
    ∧ (∀ k, τ !! k = if decide (k ∈ ks) then survivors σ !! k else None)
    ∧ ∀ k, match m !! k, τ !! k with
      | Some (o, s), Some x => entry_ok (contents dst) version k o s x ∧ snd x = true
      | None, None => True
      | _, _ => False
      end;
}.

Lemma outlived_some n : ∃ b, outlived now (Some ttl) n = Ok b.
Proof. unfold outlived. destruct (HasTtl n); by eexists. Qed.

Context (src : F) (opts : CompactOptions E) (e : Z).
Hypothesis src_stat : GetStat src = (e, None).
Hypothesis version_ok : supported version.
Hypothesis opts_version : Vacuum.version opts = version.
Hypothesis block_version : SuperBlock.Version (superBlock opts) = version.
Hypothesis block_ttl : SuperBlock.Ttl (superBlock opts) = Some ttl.

(** The entry of an id that survives is entered; nothing is, of one that does not. *)
Lemma copied_skip σ ks prefix d dst off k x :
  copied_ok σ ks prefix d dst off → k ∉ ks → σ !! k = Some x → survivor x = None →
  copied_ok σ (k :: ks) prefix d dst off.
Proof.
  intros [H1 H2 H3 H4 H5 (m & τ & Hm & Htot & Hτ & Hi)] Hk Hx Hs. split; [done..| |].
  - change (left σ (k :: ks)) with (delete k (left σ ks)).
    pose proof (total_delete version (left σ ks) k). lia.
  - exists m, τ. split_and!; [done|done| |done]. intros j. rewrite Hτ. destruct (decide (j = k)) as [->|Hne].
    + rewrite decide_False by done. rewrite decide_True by (by left).
      rewrite survivors_lookup, Hx. cbn [mbind option_bind]. by rewrite Hs.
    + by rewrite (decide_ext (j ∈ k :: ks) (j ∈ ks)) by (rewrite elem_of_cons; naive_solver).
Qed.

Lemma copied_add σ ks prefix d dst off k n0 r d' dst' :
  copied_ok σ ks prefix d dst off → k ∉ ks → σ !! k = Some (n0, true) → survivor (n0, true) = Some (r, true) →
  sound r → Id r = k → body_of version r = body_of version n0 →
  (∀ m, MemDbSpec.holds d m →
     MemDbSpec.holds d' (<[k := (Offset.ToOffset off, zlen (body_of version n0))]> m)) →
  (∃ t, contents dst' = contents dst ++ t) → lies (contents dst') version off r →
  GetStat dst' = (off + GetActualSize (zlen (body_of version n0)) version, None) →
  zlen (contents dst') = off + GetActualSize (zlen (body_of version n0)) version →
  copied_ok σ (k :: ks) prefix d' dst' (off + GetActualSize (zlen (body_of version n0)) version).
Proof.
  intros [H1 H2 [H3 H3'] (rest & H4) H5 (m & τ & Hm & Hτt & Hτ & Hi)] Hk Hx Hs Hr Hid Hb Hd [t Ht] Hl Hst Hlen.
  pose proof (actual_size version r (s_writable _ Hr) version_ok) as [Hact Hmod]. rewrite Hb in *.
  assert (total version (left σ ks) = disk_size version (n0, true) + total version (delete k (left σ ks))) as Htot.
  { apply total_lookup. by rewrite left_lookup. }
  pose proof (total_nonneg version (delete k (left σ ks))) as Hnn. unfold disk_size in Htot. cbn [fst] in Htot.
  split; [done|lia|split; [mlia|lia]|exists (rest ++ t); by rewrite Ht, H4, app_assoc| |].
  { change (left σ (k :: ks)) with (delete k (left σ ks)). lia. }
  assert (τ !! k = None) as Hnone by (by rewrite Hτ, decide_False).
  eexists. exists (<[k := (r, true)]> τ). split; [by apply Hd|]. split; [|split].
  - rewrite total_insert, delete_id by done. unfold disk_size. cbn [fst]. rewrite Hb. lia.
  - intros j. destruct (decide (j = k)) as [->|Hne].
    + rewrite lookup_insert_eq, decide_True by (by left). rewrite survivors_lookup, Hx. cbn [mbind option_bind].
      by rewrite Hs.
    + rewrite lookup_insert_ne, Hτ by done.
      by rewrite (decide_ext (j ∈ k :: ks) (j ∈ ks)) by (rewrite elem_of_cons; naive_solver).
  - intros j. specialize (Hi j). destruct (decide (j = k)) as [->|Hne].
    + rewrite !lookup_insert_eq. split; [|done]. split; cbn [fst]; [| |done|done|].
      * apply Offset.aligned_nonzero; [lia|done].
      * rewrite Offset.aligned_offset; [done|lia|done].
      * unfold kept_size. cbn [fst snd]. by rewrite Hb.
    + rewrite !lookup_insert_ne by done. destruct (m !! j) as [[o s]|], (τ !! j); try done.
      destruct Hi as [Hi Hl']. split; [|done]. rewrite Ht. by apply entry_more.
Qed.

(** Why a copy stops: the caller or the new data file. *)
Definition stopped (err : go_error) : Prop :=
  err = Errorf "interrupted" ∨ err = Errorf "cannot append needle: %s".

(** The callback on a live entry. *)
Lemma copy_one σ ks prefix d dst off nv n0 st err :
  copied_ok σ ks prefix d dst off → NeedleValue.Key nv ∉ ks → in_u 64 (NeedleValue.Key nv) →
  σ !! NeedleValue.Key nv = Some (n0, true) →
  entry_ok (contents src) version (NeedleValue.Key nv) (NeedleValue.Offset nv) (NeedleValue.Size nv) (n0, true) →
  copy_step now src opts nv (Ok (d, dst, off)) = (st, err) →
  ∃ d' dst' off', st = Ok (d', dst', off')
    ∧ match err with None => copied_ok σ (NeedleValue.Key nv :: ks) prefix d' dst' off' | Some er => stopped er end.
Proof.
  intros Hc Hk Hu Hx [Ho Hl Hs Hi Hsz]. cbn [fst] in *. unfold copy_step.
  rewrite Ho, Hsz, (kept_deleted version (n0, true) Hs). cbn [snd negb orb].
  destruct (ProgressCallback opts _); cbn [negb]; [|intros [= <- <-]; do 3 eexists; split; [done|by left]].
  unfold kept_size. cbn [fst snd]. rewrite opts_version.
  rewrite (data_lies src e version _ n0 new src_stat Hl Hs version_ok eq_refl).
  set (r := restore version n0 new). rewrite block_ttl, block_version.
  destruct (outlived_some r) as [late Hlate]. rewrite Hlate. destruct late.
  { intros [= <- <-]. do 3 eexists. split; [done|]. eapply copied_skip; [done|done|exact Hx|].
    unfold survivor. fold r. by rewrite Hlate. }
  destruct (restored_fields version n0 new) as (Eid & _ & Esz & _). fold r in Eid, Esz. rewrite Eid, Esz, Hi.
  pose proof (sound_restored version n0 Hs version_ok) as Hr. fold r in Hr.
  pose proof (body_restored version n0) as Hb. fold r in Hb.
  pose proof (body_range version n0 (s_writable _ Hs)) as Hbr.
  set (nv' := NeedleValue.Mk (NeedleValue.Key nv) (Offset.ToOffset off) (zlen (body_of version n0))).
  assert (NeedleValue.wf nv') as Hwf by (split_and!; [done|apply Offset.ToOffset_wf|widths; cbn; lia]).
  destruct (c_index _ _ _ _ _ _ Hc) as (m & _ & Hm & _).
  destruct (MemDbSpec.set_holds d m nv' Hm Hwf) as (d' & Hset & _). cbn [NeedleValue.Key NeedleValue.Offset NeedleValue.Size nv'] in Hset.
  rewrite Hset.
  pose proof (c_room _ _ _ _ _ _ Hc) as Hroom. pose proof (actual_size version r (s_writable _ Hr) version_ok) as [Hact _].
  rewrite (total_lookup version _ (NeedleValue.Key nv) (n0, true)) in Hroom by (by rewrite left_lookup).
  pose proof (total_nonneg version (delete (NeedleValue.Key nv) (left σ ks))) as Hnn.
  unfold disk_size in Hroom. cbn [fst] in Hroom. rewrite Hb in Hact.
  pose proof (c_len _ _ _ _ _ _ Hc) as Hlen0. pose proof (zlen_nonneg (contents dst)).
  assert (0 ≤ off < Offset.MaxPossibleVolumeSize) as Hoff by lia.
  pose proof (append_lies r dst off version (c_stat _ _ _ _ _ _ Hc) Hoff Hr version_ok) as Happ.
  destruct (Append r dst version) as [[dst' n'] [[[o z] act]|er|]]; [| |done].
  2: { intros [= <- <-]. do 3 eexists. split; [done|by right]. }
  destruct Happ as (_ & Hf & Ht & Hl' & Hst & Hlen). apply filled_size in Hf. rewrite Hb in *.
  rewrite Z.max_r in Hlen by lia. rewrite front_all in Ht, Hl' by lia. rewrite front_all in Ht by lia.
  intros [= <- <-]. unfold DiskSize. rewrite Hf. do 3 eexists. split; [done|].
  eapply copied_add; try done.
  - unfold survivor. fold r. by rewrite Hlate.
  - rewrite Eid. done.
  - intros m1 Hm1. destruct (MemDbSpec.set_holds d m1 nv' Hm1 Hwf) as (d1 & E1 & Hd1).
    cbn [NeedleValue.Key NeedleValue.Offset NeedleValue.Size nv'] in E1. rewrite Hset in E1. by injection E1 as <-.
Qed.

Lemma copy_all σ nvs ks prefix d dst off :
  copied_ok σ ks prefix d dst off → NoDup (NeedleValue.Key <$> nvs) →
  Forall (λ nv, NeedleValue.Key nv ∉ ks ∧ in_u 64 (NeedleValue.Key nv) ∧
    ∃ n0, σ !! NeedleValue.Key nv = Some (n0, true) ∧
      entry_ok (contents src) version (NeedleValue.Key nv) (NeedleValue.Offset nv) (NeedleValue.Size nv) (n0, true)) nvs →
  ∃ d' dst' off' err, IdxSpec.visit (copy_step now src opts) nvs (Ok (d, dst, off)) = (Ok (d', dst', off'), err)
    ∧ match err with
      | None => copied_ok σ (reverse (NeedleValue.Key <$> nvs) ++ ks) prefix d' dst' off'
      | Some er => stopped er
      end.
Proof.
  revert ks d dst off. induction nvs as [|nv nvs IH]; intros ks d dst off Hc Hnd Hf; [by do 4 eexists|].
  apply Forall_cons in Hf as [(Hk & Hu & n0 & Hx & He) Hf]. apply NoDup_cons in Hnd as [Hnin Hnd].
  cbn [IdxSpec.visit]. destruct (copy_step now src opts nv (Ok (d, dst, off))) as [st err] eqn:Es.
  edestruct copy_one as (d1 & dst1 & off1 & -> & H1); [done..|].
  destruct err as [er|]; [by exists d1, dst1, off1, (Some er)|].
  destruct (IH (NeedleValue.Key nv :: ks) d1 dst1 off1) as (d2 & dst2 & off2 & err2 & E2 & H2); [done|done| |].
  { apply Forall_forall. intros y Hy. rewrite Forall_forall in Hf. destruct (Hf y Hy) as (? & ? & ?).
    split_and!; [|done|done]. rewrite not_elem_of_cons. split; [|done]. intros Heq. apply Hnin. rewrite <- Heq.
    by apply list_elem_of_fmap_2. }
  exists d2, dst2, off2, err2. split; [done|]. destruct err2; [done|].
  by rewrite fmap_cons, reverse_cons, <- app_assoc.
Qed.
End copy.
End CopySpec.
Export CopySpec.

(** ** The compacted volume *)
Module VacuumClaims.

Section vacuum.
Context {E : Type} (Marshal : E → res bytes) (Unmarshal : bytes → E * option go_error).
Context {D : Type} `{DB : LevelDb D} {DL : LevelDbLaws D}.
Context {M : Type} `{NM : NeedleValueMap M} {NL : NeedleValueMapLaws M} (NewCompactMap : M).
Context {F : Type} `{BF : BackendStorageFile F} {BL : BackendLaws F}.
Hypothesis new_map : IndexSpec.sim NewCompactMap ∅.

(** The options [CompactByIndex] passes for a volume without extra data in its super
    block. *)
Record options_of (v : Volume F M) (ttl : Ttl.TTL) (opts : CompactOptions E) : Prop := {
  o_wf : SuperBlock.wf Marshal (superBlock opts);
  o_extra : SuperBlock.Extra (superBlock opts) = None;
  o_block_version : SuperBlock.Version (superBlock opts) = Version v;
  o_version : Vacuum.version opts = Version v;
  o_ttl : SuperBlock.Ttl (superBlock opts) = Some ttl;
  o_volume_ttl : VolumeTtl v = Some ttl;
  o_revision : SuperBlock.CompactionRevision (superBlock opts) = CompactionRevision v;
}.

Lemma next_wf s : SuperBlock.wf Marshal s → SuperBlock.wf Marshal (next_revision s).
Proof. intros [H1 H2 H3 H4 H5 H6]. split; cbn; try done. apply wrap_range. lia. Qed.

(** The header of the new data file. *)
Lemma next_bytes v ttl opts :
  options_of v ttl opts →
  ∃ rp, SuperBlock.ReplicaPlacement (superBlock opts) = Some rp ∧ ReplicaPlacement.wf rp
  ∧ let sb := next_revision (superBlock opts) in
    SuperBlock.Bytes Marshal sb = Ok (sb, SuperBlock.header_ref sb rp ttl 0)
    ∧ SuperBlock.BlockSize sb = 8 ∧ zlen (SuperBlock.header_ref sb rp ttl 0) = 8.
Proof.
  intros [Hwf Hx Hv _ Ht _ _]. destruct (SuperBlock.wf_placement _ _ Hwf) as (rp & Erp & Hrp).
  exists rp. split_and!; [done|done|]. intros sb.
  pose proof (next_wf _ Hwf) as Hn. fold sb in Hn.
  pose proof (SuperBlock.bytes_layout Marshal sb rp ttl Hn Erp Ht) as Hb.
  assert (SuperBlock.ExtraSize sb = 0) as Hes by (by apply (SuperBlock.wf_no_extra _ _ Hn)).
  assert (SuperBlock.extra_bytes Marshal sb = []) as He by (unfold SuperBlock.extra_bytes, sb; cbn; by rewrite Hx).
  rewrite He, app_nil_r in Hb. change (zlen []) with 0 in Hb. split_and!; [|unfold SuperBlock.BlockSize; rewrite Hes; by case_decide|done].
  rewrite Hb. do 2 f_equal. unfold SuperBlock.set_ExtraSize. rewrite <- Hes. by destruct sb.
Qed.

(** The live entries of the index are the live needles. *)
Lemma live_needles (v : Volume F M) e a σ k o s :
  holds v e a σ → in_u 64 k → live_entry (a !! k) = Some (o, s) →
  ∃ n0, σ !! k = Some (n0, true) ∧ entry_ok (contents (DataBackend v)) (Version v) k o s (n0, true).
Proof.
  intros H Hk Hl. pose proof (h_entries _ _ _ _ H k Hk) as He. destruct (a !! k) as [[o' s']|]; [|done]. cbn in Hl.
  case_decide as Hs; [|done]. injection Hl as -> ->. destruct (σ !! k) as [[n0 live]|]; [|done].
  pose proof (kept_range (Version v) (n0, live) (en_sound _ _ _ _ _ _ He)) as Hr. rewrite <- (en_size _ _ _ _ _ _ He) in Hr.
  destruct live; [|cbn [snd] in Hr; lia]. exists n0. split; [done|]. by eapply entry_front.
Qed.
Lemma needles_live (v : Volume F M) e a σ k n0 :
  holds v e a σ → σ !! k = Some (n0, true) → is_Some (live_entry (a !! k)).
Proof.
  intros H Hx. pose proof (h_keys _ _ _ _ H k _ Hx) as Hk.
  destruct (holds_entry v e a σ _ _ H Hk Hx) as (o & s & -> & He). cbn.
  pose proof (kept_range (Version v) (n0, true) (en_sound _ _ _ _ _ _ He)) as Hr. cbn [snd] in Hr.
  rewrite (en_size _ _ _ _ _ _ He), decide_True by lia. by eexists.
Qed.

(** Copying never panics, and a copy that succeeds holds the survivors. *)
Lemma copy_live_spec now v e a σ ttl opts (dst : F) :
  holds v e a σ → e ≤ Offset.MaxPossibleVolumeSize → options_of v ttl opts →
  GetStat dst = (0, None) → contents dst = [] →
  match copy_live Marshal now v (OsFile.f_data (NeedleMap.indexFile (nm v))) opts dst with
  | Ok (d, dst', off) =>
      ∃ rp ks, SuperBlock.ReplicaPlacement (superBlock opts) = Some rp ∧ ReplicaPlacement.wf rp
      ∧ copied_ok now (Version v) ttl σ ks (SuperBlock.header_ref (next_revision (superBlock opts)) rp ttl 0) d dst' off
      ∧ ∀ k n0, σ !! k = Some (n0, true) → k ∈ ks
  | Fail err => stopped err ∨ err = Errorf "failed to write superblock: %v"
  | Panic => False
  end.
Proof.
  intros H He Hopts Hst Hcont. pose proof (h_file _ _ _ _ H) as (_ & rows & Hf & Hrows & Ha).
  unfold copy_live. rewrite Hrows. destruct (load_old_spec (D := D) rows Hf) as (d0 & -> & Hd0). cbn [mbind res_bind].
  destruct (next_bytes v ttl opts Hopts) as (rp & Erp & Hrp & Hb & Hbs & Hlen).
  set (sb := next_revision (superBlock opts)) in *. cbn [superBlock]. rewrite Hb. cbn [mbind res_bind]. rewrite Hbs.
  destruct (WriteAt dst _ 0) as [[dst1 n1] [err|]] eqn:EW; [by right|].
  destruct (write_ok dst 0 (SuperBlock.header_ref sb rp ttl 0) 0 dst1 n1 Hst) as (Hc1 & _ & Hst1); [lia| |done|].
  { intros Hz. by rewrite Hz in Hlen. }
  rewrite Hcont in Hc1. rewrite Hlen in Hst1.
  assert (contents dst1 = SuperBlock.header_ref sb rp ttl 0) as Hc2.
  { rewrite Hc1. apply (OsFile.put_append []). }
  set (opts1 := MkOptions _ _ _).
  destruct (MemDbSpec.visit_holds (copy_step now (DataBackend v) opts1) d0 _ (Ok (MemDb.NewMemDb, dst1, 8)) Hd0)
    as (nvs & -> & Hsorted & Hwf & Hin).
  pose proof (h_room _ _ _ _ H) as Hroom.
  assert (copied_ok now (Version v) ttl σ [] (SuperBlock.header_ref sb rp ttl 0) MemDb.NewMemDb dst1 8) as H0.
  { split; [done|rewrite Hc2; lia|done|exists []; by rewrite app_nil_r| |].
    - cbn. lia.
    - exists ∅, ∅. split_and!; [apply MemDbSpec.new_holds|done|intros k; by rewrite lookup_empty|intros k; by rewrite !lookup_empty]. }
  destruct (copy_all now (Version v) ttl (DataBackend v) opts1 e (h_stat _ _ _ _ H) (h_version _ _ _ _ H)
    (o_version _ _ _ Hopts) (o_block_version _ _ _ Hopts) (o_ttl _ _ _ Hopts) σ nvs [] _ _ _ _ H0)
    as (d' & dst' & off' & err & -> & Hok).
  - by apply sorted_nodup.
  - apply Forall_forall. intros nv Hn. split; [apply not_elem_of_nil|].
    assert (in_u 64 (NeedleValue.Key nv)) as Hk by (rewrite Forall_forall in Hwf; by apply Hwf). split; [done|].
    apply Hin in Hn. unfold MemDbSpec.at_key in Hn. rewrite live_replay, <- Ha in Hn.
    by apply (live_needles v e a).
  - cbn. destruct err as [er|]; [by left|]. exists rp. eexists. split_and!; [done|done|exact Hok|].
    intros k n0 Hx. destruct (needles_live v e a σ k n0 H Hx) as [[o s] Hl]. rewrite Ha, <- live_replay in Hl.
    rewrite app_nil_r. apply elem_of_reverse, list_elem_of_fmap.
    exists (NeedleValue.Mk k o s). split; [done|]. by apply Hin.
Qed.

(** An index file saved from the new index. *)
Lemma save_spec (d : D) m :
  MemDbSpec.holds d m → (∀ k o s, m !! k = Some (o, s) → Offset.IsZero o = false ∧ 0 ≤ s) →
  ∃ rows, walked (MemDb.SaveToIdx d) = Ok (IdxRows.rows rows) ∧ Forall NeedleValue.wf rows
    ∧ ∀ k, Replay.replay ∅ rows !! k = m !! k.
Proof.
  intros Hd Hlive. destruct (MemDbSpec.visit_holds MemDb.save_step d m (Ok []) Hd) as (nvs & E1 & Hs & Hwf & Hin).
  assert (Forall (λ nv, MemDbSpec.live nv = true) nvs) as Hl.
  { apply Forall_forall. intros nv Hn%Hin. destruct (Hlive _ _ _ Hn) as [Ho Hz]. unfold MemDbSpec.live.
    rewrite Ho. by rewrite (proj2 (Size.IsDeleted_false _)). }
  exists nvs. split_and!; [|done|].
  { unfold MemDb.SaveToIdx. rewrite E1, save_rows by done. done. }
  destruct (replay_distinct nvs ∅) as [H1 H2]; [by apply sorted_nodup|done|]. intros k.
  destruct (m !! k) as [[o s]|] eqn:Em.
  - apply (H1 (NeedleValue.Mk k o s)). by apply Hin.
  - rewrite H2, lookup_empty; [done|]. intros (nv & -> & Hn)%list_elem_of_fmap. apply Hin in Hn.
    unfold MemDbSpec.at_key in Hn. congruence.
Qed.

(** The files of a volume: [prefix] is the super block, [τ] the needles. *)
Record image (version : Z) (prefix : bytes) (w : F) (off : Z) (rows : list NeedleValue.t)
    (τ : gmap Z (Needle.t * bool)) : Prop := {
  im_stat : GetStat w = (off, None);
  im_len : zlen (contents w) = off;
  im_aligned : off `mod` 8 = 0;
  im_prefix : ∃ rest, contents w = prefix ++ rest;
  im_room : 8 + total version τ ≤ off;
  im_keys : map_Forall (λ k _, in_u 64 k) τ;
  im_rows : Forall NeedleValue.wf rows;
  im_entries k : match Replay.replay ∅ rows !! k, τ !! k with
    | Some (o, s), Some x => entry_ok (contents w) version k o s x
    | None, None => True
    | _, _ => False
    end;
}.

(** The needle map loaded from the files. *)
Definition mapped (rows : list NeedleValue.t) (x : NeedleMap.t M) : Prop :=
  IndexSpec.sim (NeedleMap.m x) (Replay.replay ∅ rows).

(** A super block as [next_bytes] writes it. *)
Record block_ok (sb : SuperBlock.t (E := E)) (rp : ReplicaPlacement.t) (ttl : Ttl.TTL) : Prop := {
  b_wf : SuperBlock.wf Marshal sb;
  b_placement : SuperBlock.ReplicaPlacement sb = Some rp;
  b_rp : ReplicaPlacement.wf rp;
  b_ttl : SuperBlock.Ttl sb = Some ttl;
}.

Lemma read_block version sb rp ttl w off rows τ :
  block_ok sb rp ttl → image version (SuperBlock.header_ref sb rp ttl 0) w off rows τ →
  SuperBlock.ReadSuperBlock Unmarshal w
  = Ok (SuperBlock.Mk (SuperBlock.Version sb) (Some rp) (Some ttl) (SuperBlock.CompactionRevision sb) None 0).
Proof.
  intros [Hwf Hp Hrp Ht] [Hst _ _ [rest Hc] _ _ _ _].
  by rewrite (SuperBlock.read_layout Marshal Unmarshal w off sb rp ttl 0 rest) by (done || lia).
Qed.

(** A volume opened on the files. *)
Lemma image_reopen version sb rp ttl w off rows τ x ts lm (v : Volume F M) :
  block_ok sb rp ttl → SuperBlock.Version sb = version → supported version →
  image version (SuperBlock.header_ref sb rp ttl 0) w off rows τ → mapped rows x →
  ∃ v', reopen Unmarshal ts lm v w (OsFile.OsF (IdxRows.rows rows) None) x = Ok v'
    ∧ represents v' (Vol τ ts)
    ∧ static v' = (version, Some ttl, SuperBlock.CompactionRevision sb, hasRemoteFile v).
Proof.
  intros Hb Hver Hv Him Hm. unfold reopen. rewrite (read_block version sb rp ttl w off rows τ Hb Him).
  destruct Him as [Hst Hlen Hmod _ Hroom Hkeys Hwf Hi]. pose proof (total_nonneg version τ).
  cbn [mbind res_bind]. eexists. split; [done|]. unfold static. cbn. rewrite Hver. split; [|done].
  split; [done|]. exists off. eexists. cbn.
  split; cbn; [done|split; [done|lia]|done|done|done|exact Hm| |intros k _; rewrite front_all by lia; apply Hi].
  split; [done|]. by exists rows.
Qed.

Definition implausible : go_error :=
  Errorf "volume %s unexpected new data size: %d does not match size of content minus deleted: %d".

(** What a copy leaves on disk. *)
Lemma compaction_spec now v S ttl opts (dst : F) :
  represents v S → fst (GetStat (DataBackend v)) ≤ Offset.MaxPossibleVolumeSize → options_of v ttl opts →
  GetStat dst = (0, None) → contents dst = [] →
  match copyDataBasedOnIndexFile Marshal NewCompactMap now v (OsFile.f_data (NeedleMap.indexFile (nm v))) opts dst with
  | Ok (dst', file, tmpNm) =>
      ∃ rp off rows, block_ok (next_revision (superBlock opts)) rp ttl
      ∧ image (Version v) (SuperBlock.header_ref (next_revision (superBlock opts)) rp ttl 0) dst' off rows
          (survivors now (Version v) ttl (stored S))
      ∧ file = OsFile.OsF (IdxRows.rows rows) None ∧ mapped rows tmpNm
  | Fail err => stopped err ∨ err = Errorf "failed to write superblock: %v" ∨ err = implausible
  | Panic => False
  end.
Proof.
  intros [_ (e & a & H)] He Hopts Hst Hcont. rewrite (h_stat _ _ _ _ H) in He. cbn [fst] in He.
  pose proof (copy_live_spec now v e a (stored S) ttl opts dst H He Hopts Hst Hcont) as Hcopy.
  unfold copyDataBasedOnIndexFile. destruct (copy_live _ _ _ _ _ _) as [[[d dst'] off]|err|]; cbn [mbind res_bind]; [|tauto|done].
  destruct Hcopy as (rp & ks & Erp & Hrp & [Hst' Hlen [Hmod _] Hpre _ (m & τ & Hm & Hroom & Hτ & Hi)] & Hks).
  assert (τ = survivors now (Version v) ttl (stored S)) as ->.
  { apply map_eq. intros k. rewrite Hτ. case_decide as Hk; [done|]. rewrite survivors_lookup.
    destruct (stored S !! k) as [[n0 [|]]|] eqn:Hx; [|done..]. destruct Hk. by eapply Hks. }
  destruct (size_plausible v dst') as [er|] eqn:Hp.
  { right; right. revert Hp. unfold size_plausible, implausible. rewrite Hst'. repeat case_decide; congruence. }
  set (τ := survivors _ _ _ _) in *.
  destruct (save_spec d m Hm) as (rows & -> & Hwf & Hrep).
  { intros k o s Hk. specialize (Hi k). rewrite Hk in Hi. destruct (τ !! k) as [[n b]|]; [|done].
    destruct Hi as [[Ho _ Hs _ ->] Hb]. cbn in Hb. subst b. split; [done|].
    apply (kept_range (Version v) (n, true) Hs). }
  cbn [mbind res_bind]. unfold NeedleMap.DoOffsetLoading.
  destruct (Replay.load_from_sim true (OsFile.OsF (IdxRows.rows rows) None) [] rows
    (NeedleMap.NewCompactNeedleMap NewCompactMap (OsFile.OsF (IdxRows.rows rows) None)) ∅ new_map Hwf)
    as (mm & x & Hload & Hsim); [done|done|]. change (zlen []) with 0 in Hload. rewrite Hload.
  exists rp, off, rows. split_and!; [|split|done|exact Hsim]; try done.
  - split; [apply next_wf, Hopts|done|done|apply Hopts].
  - intros k y Hy. unfold τ in Hy. rewrite survivors_lookup in Hy. apply bind_Some in Hy as (z & Hz & _).
    by apply (h_keys _ _ _ _ H k z).
  - intros k. rewrite Hrep. specialize (Hi k). destruct (m !! k) as [[o s]|], (τ !! k); naive_solver.
Qed.

(** C6: a compaction keeps every live needle: when it succeeds, the volume reopened on the
    new files holds exactly the needles that were live and have not outlived the
    volume's TTL, and nothing else; it never panics, and fails only when it is
    interrupted, the new data file cannot be written, or the file came out smaller
    than the counters of the volume say. *)
Theorem vacuum_keeps_live now v S ttl opts (dst : F) ts lm :
  represents v S → fst (GetStat (DataBackend v)) ≤ Offset.MaxPossibleVolumeSize → options_of v ttl opts →
  GetStat dst = (0, None) → contents dst = [] →
  match copyDataBasedOnIndexFile Marshal NewCompactMap now v (OsFile.f_data (NeedleMap.indexFile (nm v))) opts dst with
  | Ok (dst', file, tmpNm) =>
      ∃ v', reopen Unmarshal ts lm v dst' file tmpNm = Ok v'
        ∧ represents v' (Vol (survivors now (Version v) ttl (stored S)) ts)
        ∧ static v' = (Version v, VolumeTtl v, u16 (CompactionRevision v + 1), hasRemoteFile v)
  | Fail err =>
      stopped err ∨ err = Errorf "failed to write superblock: %v" ∨ err = implausible
  | Panic => False
  end.
Proof.
  intros HS He Hopts Hst Hcont. pose proof (compaction_spec now v S ttl opts dst HS He Hopts Hst Hcont) as Hc.
  destruct (copyDataBasedOnIndexFile _ _ _ _ _ _ _) as [[[dst' file] tmpNm]|err|]; [|done..].
  destruct Hc as (rp & off & rows & Hb & Him & -> & Hm). destruct HS as [_ (e & a & H)].
  destruct (image_reopen (Version v) _ rp ttl dst' off rows _ tmpNm ts lm v Hb (o_block_version _ _ _ Hopts)
    (h_version _ _ _ _ H) Him Hm) as (v' & ? & ? & Hst'). exists v'. split_and!; [done|done|].
  rewrite Hst', (o_volume_ttl _ _ _ Hopts). cbn. by rewrite (o_revision _ _ _ Hopts).
Qed.

(** What is read of a survivor. *)
Lemma survivor_read now version ttl later x ro m :
  read_outcome version later (Some x ≫= survivor now version ttl) ro m
  = if decide (survivor now version ttl x = None) then (m, Fail ErrorNotFound)
    else read_outcome version later (Some x) ro m.
Proof.
  cbn [mbind option_bind]. case_decide as Hs; [by rewrite Hs|]. destruct x as [n0 [|]]; [|done].
  revert Hs. unfold survivor. destruct (outlived_some now ttl (restore version n0 new)) as [[|] ->]; [done|].
  intros _. unfold read_outcome. cbn [negb andb]. by rewrite body_restored, restore_twice.
Qed.

Lemma survivor_whole now version ttl ro x y :
  survivor now version ttl x = Some y → whole ro (zlen (body_of version (fst x))) →
  whole ro (zlen (body_of version (fst y))).
Proof.
  destruct x as [n0 [|]]; [|done]. unfold survivor.
  destruct (outlived_some now ttl (restore version n0 new)) as [[|] ->]; [done|]. intros [= <-].
  cbn [fst]. by rewrite body_restored.
Qed.

(** C7: a read that takes the whole needle (without a read option, or with one that does
    not page the needle) gives the same before and after a compaction for every live
    needle, except one that carries a TTL when the volume's TTL has passed since its
    modification time; that one, deleted ids and unknown ids are not found afterwards.
    It is the volume's TTL that decides, also where the needle's own is longer. *)
Theorem vacuum_reads now v S ttl opts (dst : F) ts lm dst' file tmpNm v' later ro m :
  represents v S → fst (GetStat (DataBackend v)) ≤ Offset.MaxPossibleVolumeSize → options_of v ttl opts →
  GetStat dst = (0, None) → contents dst = [] →
  copyDataBasedOnIndexFile Marshal NewCompactMap now v (OsFile.f_data (NeedleMap.indexFile (nm v))) opts dst
    = Ok (dst', file, tmpNm) →
  reopen Unmarshal ts lm v dst' file tmpNm = Ok v' → in_u 64 (Id m) → Data m = [] →
  (∀ x, stored S !! Id m = Some x → whole ro (zlen (body_of (Version v) (fst x)))) →
  readNeedle later v' ro m
  = if decide (stored S !! Id m ≫= survivor now (Version v) ttl = None)
    then (m, ro, Fail ErrorNotFound) else readNeedle later v ro m.
Proof.
  intros HS He Hopts Hst Hcont Hcopy Hopen Hk Hm Hw.
  pose proof (compaction_spec now v S ttl opts dst HS He Hopts Hst Hcont) as Hv. rewrite Hcopy in Hv.
  destruct Hv as (rp & off & rows & Hb & Him & -> & Hmap). destruct HS as [_ (e & a & H)].
  destruct (image_reopen (Version v) _ rp ttl dst' off rows _ tmpNm ts lm v Hb (o_block_version _ _ _ Hopts)
    (h_version _ _ _ _ H) Him Hmap) as (v1 & E1 & [_ (e' & a' & H')] & Hstatic).
  rewrite Hopen in E1. injection E1 as <-. injection Hstatic as Ev _ _ _.
  destruct (read_volume later v' e' a' _ m ro H' Hk Hm) as (n1 & r1 & -> & Ho1).
  { cbn [stored]. intros n0 live. rewrite survivors_lookup, Ev. destruct (stored S !! Id m) as [x|] eqn:Hx; [|done].
    intros Hs. apply (survivor_whole _ _ _ ro _ _ Hs), Hw, eq_refl. }
  destruct (read_volume later v e a _ m ro H Hk Hm) as (n2 & r2 & -> & Ho2).
  { intros n0 live Hx. apply (Hw (n0, live) Hx). }
  cbn [stored] in Ho1. rewrite Ev, survivors_lookup in Ho1.
  destruct (stored S !! Id m) as [x|] eqn:Hx; [|cbn in Ho1; rewrite decide_True by done; congruence].
  rewrite survivor_read in Ho1. cbn [mbind option_bind]. case_decide; congruence.
Qed.
End vacuum.
End VacuumClaims.
Export VacuumClaims.

(** ** A compaction on disk *)
Module VacuumExamples.
Import VolumeExamples.

(** A needle without TTL. *)
Definition plain : Needle.t :=
  set_header 0x99 8 0 (set_Flags FlagHasName (set_Name (str "b.txt") (set_Data (str "hi")
    (set_Checksum (NewCRC (str "hi")) new)))).
Lemma plain_sound : sound plain.
Proof.
  split.
  - constructor; vm_compute; try split; intros; discriminate || reflexivity.
  - constructor; vm_compute; split; intros; discriminate || reflexivity.
  - intros _. vm_compute. reflexivity.
Qed.

(** Two needles are written and one of them is deleted. *)
Definition used : list request :=
  [Write clock sample true; Write clock plain true; Delete clock sample].
Definition used_volume : Volume DiskFile.t CompactMap.t := fst (run empty_volume used).
Definition block : SuperBlock.t (E := bytes) :=
  SuperBlock.Mk Version3 (Some (ReplicaPlacement.Mk 0 0 0)) (Some Ttl.EMPTY_TTL) 0 None 0.
Definition options : CompactOptions bytes := MkOptions (λ _, true) block Version3.
Definition blank : DiskFile.t := DiskFile.NewDiskFile (OsFile.OsF [] None).

Lemma used_ok : ∃ S, represents used_volume S.
Proof.
  destruct (run_refines used empty_volume (Vol ∅ 0) empty_volume_ok) as (S & _ & HS & _).
  - repeat apply Forall_cons_2; [apply write_sample_ok| |apply delete_sample_ok|apply Forall_nil_2].
    split; [split; [discriminate|reflexivity]|]. exact plain_sound.
  - vm_compute. repeat split.
  - by exists S.
Qed.
Lemma options_ok : options_of SuperBlock.raw_marshal used_volume Ttl.EMPTY_TTL options.
Proof.
  split; try (vm_compute; reflexivity). split; cbn.
  - split; [discriminate|reflexivity].
  - eexists. split; [done|]. unfold ReplicaPlacement.wf, ReplicaPlacement.value. cbn. lia.
  - by eexists.
  - split; [discriminate|reflexivity].
  - done.
  - done.
Qed.

(** The compaction succeeds, and keeps the needle that is left. *)
Abbreviation compacted :=
  (copyDataBasedOnIndexFile (D := SortedDb.t) SuperBlock.raw_marshal CompactMap.NewCompactMap 0 used_volume
    (OsFile.f_data (NeedleMap.indexFile (nm used_volume))) options blank).

Lemma vacuum_keeps_live_witness :
  ∃ dst file tmpNm v', compacted = Ok (dst, file, tmpNm)
    ∧ reopen SuperBlock.raw_unmarshal 0 0 used_volume dst file tmpNm = Ok v'
    ∧ (∃ S', represents v' S') ∧ CompactionRevision v' = 1.
Proof.
  destruct used_ok as [S HS].
  pose proof (vacuum_keeps_live (D := SortedDb.t) SuperBlock.raw_marshal SuperBlock.raw_unmarshal
    CompactMap.NewCompactMap CompactMapSpec.new_sim 0 used_volume S Ttl.EMPTY_TTL options blank 0 0 HS
    ltac:(vm_compute; discriminate) options_ok eq_refl eq_refl) as Hv.
  destruct (copyDataBasedOnIndexFile _ _ _ _ _ _ _) as [[[dst file] tmpNm]|err|] eqn:Ec;
    [|vm_compute in Ec; discriminate..].
  destruct Hv as (v' & Hopen & HS' & Hst). exists dst, file, tmpNm, v'. split; [reflexivity|]. split; [exact Hopen|].
  split; [exists (Vol (survivors 0 Version3 Ttl.EMPTY_TTL (stored S)) 0); exact HS'|].
  apply (f_equal (λ x, snd (fst x))) in Hst. unfold static in Hst. cbn [fst snd] in Hst. rewrite Hst.
  vm_compute. reflexivity.
Defined.

Definition ask_plain : Needle.t := set_header 0 8 0 new.

Lemma vacuum_reads_witness :
  ∃ dst file tmpNm v', compacted = Ok (dst, file, tmpNm)
    ∧ reopen SuperBlock.raw_unmarshal 0 0 used_volume dst file tmpNm = Ok v'
    ∧ readNeedle clock v' None ask_plain = readNeedle clock used_volume None ask_plain.
Proof.
  destruct used_ok as [S HS].
  assert (match compacted with
    | Ok (dst, file, tmpNm) =>
        match reopen SuperBlock.raw_unmarshal 0 0 used_volume dst file tmpNm with
        | Ok v' => snd (readNeedle clock v' None ask_plain) | _ => Panic end
    | _ => Panic end = Ok 2) as Hok by (vm_compute; reflexivity).
  destruct (copyDataBasedOnIndexFile _ _ _ _ _ _ _) as [[[dst file] tmpNm]|err|] eqn:Ec; [|discriminate Hok..].
  destruct (reopen _ _ _ _ _ _ _) as [v'|err|] eqn:Er; [|discriminate Hok..].
  exists dst, file, tmpNm, v'. split; [reflexivity|]. split; [exact Er|].
  pose proof (vacuum_reads (D := SortedDb.t) SuperBlock.raw_marshal SuperBlock.raw_unmarshal
    CompactMap.NewCompactMap CompactMapSpec.new_sim 0 used_volume S Ttl.EMPTY_TTL options blank 0 0 dst file tmpNm v'
    clock None ask_plain HS ltac:(vm_compute; discriminate) options_ok eq_refl eq_refl Ec Er
    ltac:(split; [discriminate|reflexivity]) eq_refl (λ _ _, I)) as Hr.
  rewrite Hr in Hok |- *. destruct (decide _); [discriminate Hok|reflexivity].
Defined.
End VacuumExamples.
