(* ===== verification/VacuumCommit.v ===== *)
(** * VacuumCommit: what is written during a compaction

    [makeupDiff] brings the copy up to date with the rows journalled since the
    compaction started, and the volume goes on with the new files. *)

From S2P Require Import Prelude GoStd Bytes SortedList StorageTypes VolumeTtl Needle Backend NeedleIO NeedleSpec SuperBlock Idx MemDb CompactMap NeedleMap Volume Vacuum VolumeSpec VolumeClaims VacuumSpec.
Import Needle Layout NeedleIO Volume Vacuum.

(** ** The last rows of an index file *)
Module LastRows.

(** The last row of each id. *)
Definition last_row (m : gmap Z (Offset.t * Z)) (nv : NeedleValue.t) : gmap Z (Offset.t * Z) :=
  <[NeedleValue.Key nv := (NeedleValue.Offset nv, NeedleValue.Size nv)]> m.
Definition last_rows (rows : list NeedleValue.t) : gmap Z (Offset.t * Z) := foldl last_row ∅ rows.

Lemma last_rows_snoc rows nv : last_rows (rows ++ [nv]) = last_row (last_rows rows) nv.
Proof. unfold last_rows. by rewrite foldl_app. Qed.

Lemma last_rows_key rows k : is_Some (last_rows rows !! k) ↔ k ∈ NeedleValue.Key <$> rows.
Proof.
  induction rows as [|nv rows IH] using rev_ind; [split; [by intros [? ?]|by intros ?%elem_of_nil]|].
  rewrite last_rows_snoc, fmap_app, elem_of_app, <- IH. cbn [fmap list_fmap].
  rewrite list_elem_of_singleton. unfold last_row.
  destruct (decide (NeedleValue.Key nv = k)) as [<-|Hne].
  - rewrite lookup_insert_eq. naive_solver.
  - rewrite lookup_insert_ne by done. naive_solver.
Qed.

(** What the last row of an id says about the index. *)
Lemma last_replay (a : IndexSpec.index) rows k o s :
  last_rows rows !! k = Some (o, s) →
  if MemDbSpec.live (NeedleValue.Mk k o s) then Replay.replay a rows !! k = Some (o, s)
  else ∀ o' s', Replay.replay a rows !! k = Some (o', s') → s' < 0.
Proof.
  induction rows as [|nv rows IH] using rev_ind; [done|]. rewrite last_rows_snoc. unfold last_row, Replay.replay.
  rewrite foldl_app. cbn [foldl]. fold (Replay.replay a rows). unfold Replay.replay_row, Replay.row_op. rewrite dead_live.
  destruct (decide (NeedleValue.Key nv = k)) as [<-|Hne].
  - rewrite lookup_insert_eq. intros [= <- <-]. replace (NeedleValue.Mk _ _ _) with nv by (by destruct nv).
    destruct (MemDbSpec.live nv); cbn [negb IndexSpec.spec_step].
    + destruct (default _ _). cbn. apply lookup_insert_eq.
    + intros o' s'. destruct (Replay.replay a rows !! NeedleValue.Key nv) as [[o1 s1]|] eqn:E; cbn [fst]; [|by rewrite E].
      rewrite lookup_insert_eq. intros [= _ <-]. unfold deleted_size, TombstoneFileSize. repeat case_decide; lia.
  - rewrite lookup_insert_ne by done. intros Hk. specialize (IH Hk).
    assert (fst (IndexSpec.spec_step (Replay.replay a rows) (if negb (MemDbSpec.live nv)
      then IndexSpec.ODelete (NeedleValue.Key nv)
      else IndexSpec.OSet (NeedleValue.Key nv) (NeedleValue.Offset nv) (NeedleValue.Size nv))) !! k
      = Replay.replay a rows !! k) as ->; [|done].
    destruct (MemDbSpec.live nv); cbn [negb IndexSpec.spec_step].
    + destruct (default _ _). cbn. by rewrite lookup_insert_ne.
    + destruct (Replay.replay a rows !! NeedleValue.Key nv) as [[o1 s1]|]; cbn; [by rewrite lookup_insert_ne|done].
Qed.

Lemma entry_at rows i nv :
  Forall NeedleValue.wf rows → rows !! i = Some nv →
  (b ← readIndexEntryAtOffset (IdxRows.rows rows) (Z.of_nat i * 16); Idx.IdxFileEntry b) = Ok nv.
Proof.
  intros Hf Hi. unfold readIndexEntryAtOffset. rewrite decide_False by lia.
  change NeedleMapEntrySize with 16. rewrite (IdxRows.row_read rows i nv Hi).
  rewrite decide_False by (intros [? _]; done). cbn [mbind res_bind].
  rewrite IdxSpec.IdxFileEntry_ok by apply NeedleValue.row_length. f_equal.
  apply IdxSpec.entry_of_row. rewrite Forall_forall in Hf. apply Hf. by eapply list_elem_of_lookup_2.
Qed.

(** Backwards from the end of a prefix of the new rows. *)
Lemma updated_prefix done_ p rest acc fuel :
  Forall NeedleValue.wf (done_ ++ p ++ rest) → done_ ≠ [] → (length p < fuel)%nat →
  zlen (done_ ++ p ++ rest) * 16 < 2 ^ 63 →
  updated_entries fuel (IdxRows.rows (done_ ++ p ++ rest)) (zlen (done_ ++ p) * 16 - 16) (zlen done_ * 16) acc
  = Ok (acc ∪ last_rows p).
Proof.
  intros Hf Hne. revert rest acc fuel Hf. induction p as [|nv p IH] using rev_ind; intros rest acc fuel Hf Hfuel Hlen.
  - destruct fuel as [|fuel]; [cbn in Hfuel; lia|]. cbn [updated_entries].
    change (last_rows []) with (∅ : gmap Z (Offset.t * Z)). rewrite app_nil_r, map_union_empty.
    assert (1 ≤ zlen done_) by (destruct done_; [done|rewrite zlen_cons; pose proof (zlen_nonneg done_); lia]).
    cbn [app] in Hlen. rewrite zlen_app in Hlen. pose proof (zlen_nonneg rest).
    rewrite decide_True; [done|]. rewrite wrap_id; [lia|]. widths. lia.
  - destruct fuel as [|fuel]; [cbn in Hfuel; lia|]. rewrite length_app in Hfuel. cbn in Hfuel.
    cbn [updated_entries]. rewrite <- (app_assoc p [nv] rest) in *. cbn [app] in *.
    rewrite !zlen_app in Hlen. rewrite zlen_cons in Hlen.
    pose proof (zlen_nonneg rest). pose proof (zlen_nonneg done_). pose proof (zlen_nonneg p).
    assert (zlen (done_ ++ p ++ [nv]) * 16 - 16 = Z.of_nat (length (done_ ++ p)) * 16) as ->.
    { unfold zlen. rewrite !length_app. cbn. lia. }
    rewrite decide_False.
    2: { rewrite wrap_id; [unfold zlen; rewrite length_app; lia|]. widths. unfold zlen in *. rewrite length_app. lia. }
    pose proof (entry_at (done_ ++ p ++ nv :: rest) (length (done_ ++ p)) nv Hf) as Hentry.
    rewrite app_assoc, lookup_app_r, Nat.sub_diag in Hentry by lia. specialize (Hentry eq_refl).
    rewrite <- app_assoc in Hentry.
    destruct (readIndexEntryAtOffset _ _) as [b|er|]; [|done..]. cbn [mbind res_bind] in Hentry. rewrite Hentry.
    cbn [mbind res_bind]. change NeedleMapEntrySize with 16.
    replace (Z.of_nat (length (done_ ++ p)) * 16 - 16) with (zlen (done_ ++ p) * 16 - 16) by (unfold zlen; lia).
    rewrite (IH (nv :: rest)); [|done|lia|rewrite !zlen_app, zlen_cons; lia].
    f_equal. rewrite last_rows_snoc. unfold last_row. apply map_eq. intros k.
    destruct (acc !! NeedleValue.Key nv) as [x|] eqn:Ea.
    + destruct (decide (NeedleValue.Key nv = k)) as [<-|Hk].
      * by rewrite (lookup_union_Some_l _ _ _ _ Ea), (lookup_union_Some_l _ _ _ _ Ea).
      * rewrite !lookup_union, lookup_insert_ne; done.
    + destruct (decide (NeedleValue.Key nv = k)) as [<-|Hk].
      * rewrite (lookup_union_r acc) by done. rewrite lookup_insert_eq. apply lookup_union_Some_l, lookup_insert_eq.
      * rewrite !lookup_union, !lookup_insert_ne; done.
Qed.

(** From the first row on, the loop runs past the start of the file. *)
Lemma updated_from_start p rest acc fuel :
  Forall NeedleValue.wf (p ++ rest) → (length p < fuel)%nat →
  updated_entries fuel (IdxRows.rows (p ++ rest)) (zlen p * 16 - 16) 0 acc
  = Fail (Errorf "readIndexEntry %s at offset %d failed: %v").
Proof.
  assert (∀ z, ¬ u64 z < 0) as Hpos.
  { intros z Hz. pose proof (wrap_range 64 z ltac:(lia)) as [? _]. lia. }
  revert rest acc fuel. induction p as [|nv p IH] using rev_ind; intros rest acc fuel Hf Hfuel;
    (destruct fuel as [|fuel]; [lia|]); cbn [updated_entries]; rewrite decide_False by apply Hpos.
  - done.
  - rewrite length_app in Hfuel. cbn in Hfuel. rewrite <- (app_assoc p [nv] rest) in *. cbn [app] in *.
    pose proof (entry_at (p ++ nv :: rest) (length p) nv Hf) as Hentry.
    rewrite lookup_app_r, Nat.sub_diag in Hentry by lia. specialize (Hentry eq_refl).
    replace (zlen (p ++ [nv]) * 16 - 16) with (Z.of_nat (length p) * 16) by (unfold zlen; rewrite length_app; cbn; lia).
    destruct (readIndexEntryAtOffset _ _) as [b|er|]; [|done..]. cbn [mbind res_bind] in Hentry. rewrite Hentry.
    cbn [mbind res_bind]. change NeedleMapEntrySize with 16.
    replace (Z.of_nat (length p) * 16 - 16) with (zlen p * 16 - 16) by (unfold zlen; lia). apply IH; [done|lia].
Qed.
End LastRows.
Export LastRows.

(** ** One changed id *)
Module Makeup.

(** The offset of a row is overwritten. *)
Lemma patch_row k o s v :
  (row ← NeedleValue.ToBytes k o s; window row 8 12 (λ b, Uint32toBytes b v))
  = Ok (NeedleValue.row (NeedleValue.Mk k (Offset.Uint32ToOffset v) s)).
Proof.
  pose proof (NeedleValue.ToBytes_row (NeedleValue.Mk k o s)) as Et. unfold NeedleValue.NeedleValue_ToBytes in Et.
  cbn [NeedleValue.Key NeedleValue.Offset NeedleValue.Size] in Et. rewrite Et. cbn [mbind res_bind].
  unfold NeedleValue.row at 1. cbn [NeedleValue.Key NeedleValue.Offset NeedleValue.Size].
  rewrite (window_after 4 _ _ 8 12 v);
    [|by rewrite zlen_be_split|done|rewrite zlen_app; zl|intros w Hw; by apply be_store_32].
  done.
Qed.

(** A disk with room. *)
Definition unlimited (df : DiskFile.t) : Prop := ∃ f, DiskFile.File df = Some f ∧ OsFile.f_limit f = None.

Lemma write_end df off p :
  unlimited df → GetStat df = (off, None) → zlen (contents df) = off →
  ∃ df', DiskFile.WriteAt df p off = (df', zlen p, None) ∧ unlimited df'
    ∧ contents df' = contents df ++ p ∧ GetStat df' = (off + zlen p, None).
Proof.
  intros (f & Hf & Hl) Hst Hlen. destruct df as [file size]. cbn in Hf. subst file.
  cbn in Hst, Hlen. injection Hst as ->. unfold DiskFile.disk_contents in Hlen. cbn in Hlen.
  unfold DiskFile.WriteAt. cbn [DiskFile.File DiskFile.fileSize]. rewrite <- Hlen.
  rewrite OsFile.WriteAt_end by done. pose proof (zlen_nonneg p). eexists. split; [done|]. split_and!.
  - eexists. split; [done|done].
  - done.
  - cbn. unfold DiskFile.GetStat. cbn. f_equal. case_decide; lia.
Qed.

Section step.
Context (version : Z) (prefix : bytes) (now : Z) (old : DiskFile.t) (e : Z).
Hypothesis version_ok : supported version.
Hypothesis now_ok : in_u 64 now.
Hypothesis old_stat : GetStat old = (e, None).
Abbreviation image := (image (F := DiskFile.t) version prefix).

Lemma image_file dst off rows τ : image dst off rows τ → file_end dst = off ∧ Z.rem off NeedlePaddingSize = 0.
Proof.
  intros [Hst Hlen Hmod _ Hroom _ _ _]. pose proof (total_nonneg version τ). split.
  - unfold file_end. cbn in Hlen. unfold DiskFile.disk_contents in Hlen. by destruct (DiskFile.File dst).
  - rewrite Z.rem_mod_nonneg by (unfold NeedlePaddingSize; lia). exact Hmod.
Qed.

(** The new files, when a record and a row were added. *)
Lemma image_add dst dst' off rows τ nv n p :
  image dst off rows τ → contents dst' = contents dst ++ p → GetStat dst' = (off + zlen p, None) →
  NeedleValue.wf nv → MemDbSpec.live nv = true → sound n → Id n = NeedleValue.Key nv →
  NeedleValue.Size nv = zlen (body_of version n) → Offset.ToActualOffset (NeedleValue.Offset nv) = off →
  lies (contents dst') version off n → zlen p = GetActualSize (zlen (body_of version n)) version →
  image dst' (off + zlen p) (rows ++ [nv]) (<[NeedleValue.Key nv := (n, true)]> τ).
Proof.
  intros [Hst Hlen Hmod [rest Hpre] Hroom Hkeys Hrows Hi] Hc Hst' Hnv Hlive Hs Hid Hsz Hoff Hl Hp.
  pose proof (actual_size version n (s_writable _ Hs) version_ok) as [Hact Hm8].
  pose proof (zlen_nonneg p). split; [done|rewrite Hc, zlen_app; lia| | | | | |].
  - rewrite Hp. mlia.
  - exists (rest ++ p). by rewrite Hc, Hpre, app_assoc.
  - rewrite total_insert. pose proof (total_delete version τ (NeedleValue.Key nv)). unfold disk_size. cbn [fst]. lia.
  - apply map_Forall_insert_2; [apply Hnv|done].
  - by apply Forall_app_2; [|apply Forall_singleton].
  - intros k. unfold Replay.replay. rewrite foldl_app. cbn [foldl]. fold (Replay.replay ∅ rows).
    unfold Replay.replay_row, Replay.row_op. rewrite dead_live, Hlive. cbn [negb IndexSpec.spec_step].
    destruct (default _ _). cbn [fst]. specialize (Hi k).
    destruct (decide (NeedleValue.Key nv = k)) as [<-|Hne].
    + rewrite !lookup_insert_eq. split; cbn [fst]; [|by rewrite Hoff|done|done|done].
      unfold MemDbSpec.live in Hlive. apply andb_prop in Hlive as [Hz _]. by apply negb_true_iff in Hz.
    + rewrite !lookup_insert_ne by done. destruct (Replay.replay ∅ rows !! k) as [[o s]|], (τ !! k); try done.
      rewrite Hc. by apply entry_more.
Qed.

(** The new files, when a row deleted an id. *)
Definition buried (x : Needle.t * bool) : Needle.t * bool := (fst x, false).
Lemma image_delete dst dst' off rows τ nv p :
  image dst off rows τ → contents dst' = contents dst ++ p → GetStat dst' = (off + zlen p, None) →
  NeedleValue.wf nv → MemDbSpec.live nv = false → zlen p `mod` 8 = 0 →
  image dst' (off + zlen p) (rows ++ [nv]) (alter buried (NeedleValue.Key nv) τ).
Proof.
  intros [Hst Hlen Hmod [rest Hpre] Hroom Hkeys Hrows Hi] Hc Hst' Hnv Hlive Hp.
  pose proof (zlen_nonneg p). split; [done|rewrite Hc, zlen_app; lia| | | | | |].
  - mlia.
  - exists (rest ++ p). by rewrite Hc, Hpre, app_assoc.
  - destruct (τ !! NeedleValue.Key nv) as [x|] eqn:Hx.
    + assert (alter buried (NeedleValue.Key nv) τ = <[NeedleValue.Key nv := buried x]> τ) as ->.
      { apply map_eq. intros j. destruct (decide (NeedleValue.Key nv = j)) as [<-|Hne].
        - by rewrite lookup_alter_eq, Hx, lookup_insert_eq.
        - by rewrite lookup_alter_ne, lookup_insert_ne. }
      rewrite total_insert. rewrite (total_lookup version τ _ x Hx) in Hroom. unfold disk_size in *. cbn [fst buried]. lia.
    + rewrite alter_id; [lia|]. intros y Hy. congruence.
  - intros k y Hy. destruct (decide (NeedleValue.Key nv = k)) as [<-|Hne]; [apply Hnv|].
    rewrite lookup_alter_ne in Hy by done. by eapply Hkeys.
  - by apply Forall_app_2; [|apply Forall_singleton].
  - intros k. unfold Replay.replay. rewrite foldl_app. cbn [foldl]. fold (Replay.replay ∅ rows).
    unfold Replay.replay_row, Replay.row_op. rewrite dead_live, Hlive. cbn [negb IndexSpec.spec_step].
    pose proof (Hi k) as Hk. destruct (decide (NeedleValue.Key nv = k)) as [<-|Hne].
    + rewrite lookup_alter_eq. destruct (Replay.replay ∅ rows !! NeedleValue.Key nv) as [[o s]|] eqn:Hr; cbn [fst].
      * rewrite lookup_insert_eq. destruct (τ !! NeedleValue.Key nv) as [x|]; [|done]. destruct Hk as [H1 H2 H3 H4 H5].
        split; [done|rewrite Hc; by apply lies_more|done|done|]. pose proof (kept_range version x H3) as Hkr.
        rewrite <- H5 in Hkr. destruct x as [n [|]]; cbn [snd buried fst] in *.
        -- rewrite decide_True, H5 by lia. done.
        -- rewrite decide_False by lia. done.
      * rewrite Hr. by destruct (τ !! NeedleValue.Key nv).
    + rewrite lookup_alter_ne by done.
      assert ((match Replay.replay ∅ rows !! NeedleValue.Key nv with
        | Some (o, s) => (<[NeedleValue.Key nv := (o, if decide (0 ≤ s) then deleted_size s else s)]> (Replay.replay ∅ rows),
            IndexSpec.OldSize (Z.max 0 s))
        | None => (Replay.replay ∅ rows, IndexSpec.OldSize 0)
        end).1 !! k = Replay.replay ∅ rows !! k) as ->.
      { destruct (Replay.replay ∅ rows !! NeedleValue.Key nv) as [[o s]|]; [|done]. cbn. by rewrite lookup_insert_ne. }
      destruct (Replay.replay ∅ rows !! k) as [[o s]|], (τ !! k); try done. rewrite Hc. by apply entry_more.
Qed.

(** The record of a changed id is copied as it is. *)
Lemma blob_lies off n :
  lies (contents old) version off n → sound n →
  ∃ p, ReadNeedleBlob old off (zlen (body_of version n)) version = Ok (sl_of p)
    ∧ zlen p = GetActualSize (zlen (body_of version n)) version ∧ ∀ c, lies (c ++ p) version (zlen c) n.
Proof.
  intros (pad & pre & rest & Hc & -> & Hp) [Hw _ _]. exists (record_ref version n pad).
  pose proof (zlen_record version n pad Hw version_ok Hp) as Hl. split_and!; [|done|].
  - unfold ReadNeedleBlob. rewrite <- Hl.
    by rewrite (fill_at old e pre (record_ref version n pad) rest (zlen pre) _ old_stat Hc eq_refl eq_refl).
  - intros c. exists pad, c, []. by rewrite app_nil_r.
Qed.

Lemma makeup_live dst off rows τ k o s n :
  image dst off rows τ → unlimited dst → off < Offset.MaxPossibleVolumeSize → in_u 64 k →
  entry_ok (contents old) version k o s (n, true) → s ≠ 0 →
  ∃ dst' nv, makeup_one now old version (k, (o, s)) (dst, OsFile.OsF (IdxRows.rows rows) None)
      = Ok (dst', OsFile.OsF (IdxRows.rows (rows ++ [nv])) None)
    ∧ unlimited dst' ∧ image dst' (off + disk_size version (n, true)) (rows ++ [nv]) (<[k := (n, true)]> τ).
Proof.
  intros Him Hun Hoff Hk [Hz Hl Hs Hid Hsz] Hne. cbn [fst] in *. destruct (image_file _ _ _ _ Him) as [Hend Hrem].
  pose proof (body_range version n (s_writable _ Hs)) as Hbr. unfold kept_size in Hsz. cbn [fst snd] in Hsz.
  unfold makeup_one. rewrite Hend, Hrem. rewrite (decide_False (P := 0 ≠ 0)) by lia.
  assert (negb (Offset.IsZero o) && bool_decide (s ≠ 0) && Size.IsValid s = true) as ->.
  { rewrite Hz, bool_decide_true by done. apply Size.IsValid_spec. lia. }
  destruct (blob_lies _ n Hl Hs) as (p & Hblob & Hp & Hlies). rewrite Hsz, Hblob.
  assert (sl_data (sl_of p) = p) as -> by apply sl_data_of.
  pose proof (patch_row k o (zlen (body_of version n)) (u32 (Z.quot off NeedlePaddingSize))) as Hrow.
  destruct (NeedleValue.ToBytes _ _ _) as [row|er|]; [|done..]. cbn [mbind res_bind] in Hrow |- *.
  unfold DiskFile.Write. assert (DiskFile.fileSize dst = off) as ->.
  { pose proof (im_stat _ _ _ _ _ _ Him) as Hst. by injection Hst. }
  destruct (write_end dst off p Hun (im_stat _ _ _ _ _ _ Him) (im_len _ _ _ _ _ _ Him)) as (dst' & -> & Hun' & Hc' & Hst').
  rewrite Hrow. cbn [mbind res_bind]. set (nv := NeedleValue.Mk _ _ _). cbn [OsFile.f_data].
  rewrite OsFile.WriteAt_end by done. cbn [OsFile.f_data].
  exists dst', nv. split; [by rewrite IdxRows.rows_app|]. split; [done|].
  pose proof (actual_size version n (s_writable _ Hs) version_ok) as [Hact _].
  pose proof (im_room _ _ _ _ _ _ Him) as Hroom. pose proof (total_nonneg version τ).
  assert (disk_size version (n, true) = zlen p) as -> by (unfold disk_size; cbn [fst]; lia).
  apply (image_add dst dst' off rows τ nv n p); try done.
  - split_and!; [done|apply Offset.Uint32ToOffset_wf|cbn; widths; lia].
  - unfold MemDbSpec.live. cbn [NeedleValue.Offset NeedleValue.Size nv].
    change (Offset.Uint32ToOffset (u32 (Z.quot off NeedlePaddingSize))) with (Offset.ToOffset off).
    rewrite Offset.aligned_nonzero; [|lia|apply Him]. by rewrite (proj2 (Size.IsDeleted_false _)) by lia.
  - apply (Offset.aligned_offset off); [lia|apply Him].
  - rewrite Hc', <- (im_len _ _ _ _ _ _ Him). apply Hlies.
Qed.

(** A tombstone is appended for an id that is deleted, or whose data is empty. *)
Lemma makeup_dead dst off rows τ k o s :
  image dst off rows τ → unlimited dst → off < Offset.MaxPossibleVolumeSize → in_u 64 k → in_s 32 s →
  negb (Offset.IsZero o) && bool_decide (s ≠ 0) && Size.IsValid s = false →
  ∃ dst' nv, makeup_one now old version (k, (o, s)) (dst, OsFile.OsF (IdxRows.rows rows) None)
      = Ok (dst', OsFile.OsF (IdxRows.rows (rows ++ [nv])) None)
    ∧ unlimited dst' ∧ image dst' (off + GetActualSize 0 version) (rows ++ [nv]) (alter buried k τ).
Proof.
  intros Him Hun Hoff Hk Hsz Hd. unfold makeup_one. rewrite Hd.
  set (n := set_AppendAtNs now (set_header 0x12345678 k 0 new)).
  assert (sound n) as Hs.
  { split; [apply writable_plain; [done|done]| |].
    - split; cbn; [by split|done|by split|done].
    - intros Hn. by exfalso; apply Hn. }
  destruct (write_spec version n (s_writable _ Hs) version_ok) as (m & pad & Hw & _ & Hpad).
  pose proof (zlen_record version n pad (s_writable _ Hs) version_ok Hpad) as Hl.
  assert (zlen (body_of version n) = 0) as Hb0 by (unfold body_of; destruct (decide (version = Version1)); reflexivity). rewrite Hb0 in Hl.
  pose proof (actual_size version n (s_writable _ Hs) version_ok) as [Hact Hmod]. rewrite Hb0 in Hact, Hmod.
  pose proof (im_room _ _ _ _ _ _ Him) as Hroom. pose proof (total_nonneg version τ).
  pose proof (patch_row k o s 0) as Hrow.
  destruct (NeedleValue.ToBytes _ _ _) as [row|er|]; [|done..]. cbn [mbind res_bind] in Hrow |- *.
  unfold Append. rewrite (im_stat _ _ _ _ _ _ Him). cbv zeta.
  assert (u64 off = off) as -> by (unfold Offset.MaxPossibleVolumeSize in Hoff; apply wrap_id; widths; lia).
  rewrite (decide_False (P := Offset.MaxPossibleVolumeSize ≤ off ∧ _)) by lia. rewrite Hw.
  rewrite (swrap_id 64) by (unfold Offset.MaxPossibleVolumeSize in Hoff; widths; lia).
  destruct (write_end dst off (record_ref version n pad) Hun (im_stat _ _ _ _ _ _ Him) (im_len _ _ _ _ _ _ Him))
    as (dst' & Hwr & Hun' & Hc' & Hst'). cbn [WriteAt DiskFile.backend]. rewrite Hwr, Hrow. cbn [mbind res_bind].
  set (nv := NeedleValue.Mk _ _ _). cbn [OsFile.f_data]. rewrite OsFile.WriteAt_end by done. cbn [OsFile.f_data].
  exists dst', nv. split; [by rewrite IdxRows.rows_app|]. split; [done|]. rewrite <- Hl.
  apply (image_delete dst dst' off rows τ nv); try done. by rewrite Hl.
Qed.

(** *** All changed ids *)

(** The test of the code for a record to be copied. *)
Definition copies (o : Offset.t) (s : Z) : bool := negb (Offset.IsZero o) && bool_decide (s ≠ 0) && Size.IsValid s.

(** A change is a live needle of [σ], or not to be copied. *)
Definition change_of (σ : gmap Z (Needle.t * bool)) (x : Z * (Offset.t * Z)) : Prop :=
  let '(k, (o, s)) := x in
  in_u 64 k ∧ in_s 32 s ∧
  (copies o s = true → ∃ n, σ !! k = Some (n, true) ∧ entry_ok (contents old) version k o s (n, true)).

(** What becomes of an id: [new] is what the old volume has of it by now. *)
Definition made_up (o : Offset.t) (s : Z) (new kept : option (Needle.t * bool)) : option (Needle.t * bool) :=
  if copies o s then new else buried <$> kept.

Lemma tombstone_size : 24 ≤ GetActualSize 0 version ≤ 32.
Proof. destruct version_ok as [->|[->| ->]]; vm_compute; split; discriminate. Qed.

Lemma makeup_step dst off rows τ σ k o s ρ n :
  image dst off rows τ → unlimited dst → change_of σ (k, (o, s)) → ρ !! k = σ !! k → 0 ≤ n →
  off + total version ρ + 32 * (1 + n) ≤ Offset.MaxPossibleVolumeSize →
  ∃ dst' off' nv, makeup_one now old version (k, (o, s)) (dst, OsFile.OsF (IdxRows.rows rows) None)
      = Ok (dst', OsFile.OsF (IdxRows.rows (rows ++ [nv])) None)
    ∧ unlimited dst' ∧ off' + total version (delete k ρ) + 32 * n ≤ Offset.MaxPossibleVolumeSize
    ∧ image dst' off' (rows ++ [nv])
        (if copies o s then match σ !! k with Some x => <[k := x]> τ | None => τ end else alter buried k τ).
Proof.
  intros Him Hun (Hk & Hs & Hlive) Hρ Hn Hroom. pose proof (total_nonneg version ρ) as Hnn.
  pose proof tombstone_size. destruct (copies o s) eqn:Hc.
  - destruct (Hlive eq_refl) as (n1 & Hx & He). rewrite Hx. rewrite Hx in Hρ.
    pose proof (total_lookup version ρ k _ Hρ) as Ht. pose proof (total_nonneg version (delete k ρ)).
    pose proof (actual_size version n1 (s_writable _ (en_sound _ _ _ _ _ _ He)) version_ok) as [Hact _].
    destruct (makeup_live dst off rows τ k o s n1 Him Hun) as (dst' & nv & E1 & Hun' & Him'); [lia|done|done| |].
    { unfold copies in Hc. apply andb_prop in Hc as [Hc _]. apply andb_prop in Hc as [_ Hc].
      by apply bool_decide_eq_true in Hc. }
    exists dst', (off + disk_size version (n1, true)), nv. split_and!; [done|done|lia|done].
  - destruct (makeup_dead dst off rows τ k o s Him Hun) as (dst' & nv & E1 & Hun' & Him'); [lia|done|done|done|].
    pose proof (total_delete version ρ k). exists dst', (off + GetActualSize 0 version), nv. split_and!; [done|done|lia|done].
Qed.

Lemma makeup_all_spec xs dst off rows τ σ ρ :
  image dst off rows τ → unlimited dst → NoDup xs.*1 → Forall (change_of σ) xs →
  (∀ k, k ∈ xs.*1 → ρ !! k = σ !! k) → off + total version ρ + 32 * zlen xs ≤ Offset.MaxPossibleVolumeSize →
  ∃ dst' off' rows' τ', makeup_all now old version xs (dst, OsFile.OsF (IdxRows.rows rows) None)
      = Ok (dst', OsFile.OsF (IdxRows.rows (rows ++ rows')) None)
    ∧ image dst' off' (rows ++ rows') τ'
    ∧ (∀ k o s, (k, (o, s)) ∈ xs → τ' !! k = made_up o s (σ !! k) (τ !! k))
    ∧ (∀ k, k ∉ xs.*1 → τ' !! k = τ !! k).
Proof.
  revert dst off rows τ ρ. induction xs as [|[k [o s]] xs IH]; intros dst off rows τ ρ Him Hun Hnd Hf Hρ Hroom.
  { exists dst, off, [], τ. rewrite app_nil_r. split_and!; try done. intros k o s Hin. by apply not_elem_of_nil in Hin. }
  apply NoDup_cons in Hnd as [Hnin Hnd]. apply Forall_cons in Hf as [Hx Hf]. rewrite zlen_cons in Hroom.
  destruct (makeup_step dst off rows τ σ k o s ρ (zlen xs) Him Hun Hx) as (dst1 & off1 & nv & E1 & Hun1 & Hroom1 & Him1);
    [apply Hρ; by left|apply zlen_nonneg|lia|].
  destruct (IH dst1 off1 (rows ++ [nv]) _ (delete k ρ) Him1 Hun1 Hnd Hf) as (dst2 & off2 & rows2 & τ2 & E2 & Him2 & Hin2 & Hout2);
    [|done|].
  { intros j Hj. rewrite lookup_delete_ne by (intros ->; done). apply Hρ. by right. }
  exists dst2, off2, (nv :: rows2), τ2. cbn [makeup_all]. rewrite E1. cbn [mbind res_bind].
  rewrite <- app_assoc in E2, Him2. cbn [app] in E2, Him2. split_and!; [done|done| |].
  - intros j o' s' [[= -> -> ->]|Hj]%elem_of_cons.
    + rewrite Hout2 by done. unfold made_up. destruct (copies o s) eqn:Hc; [|by rewrite lookup_alter_eq].
      destruct Hx as (_ & _ & Hlive). destruct (Hlive Hc) as (n1 & -> & _). apply lookup_insert_eq.
    + assert (j ≠ k) by (intros ->; apply Hnin; exact (list_elem_of_fmap_2 fst _ _ Hj)).
      rewrite (Hin2 j o' s' Hj). unfold made_up. destruct (copies o' s'); [done|]. f_equal.
      destruct (copies o s); [|by rewrite lookup_alter_ne]. destruct (σ !! k); [by rewrite lookup_insert_ne|done].
  - intros j Hj. rewrite fmap_cons, not_elem_of_cons in Hj. destruct Hj as [Hne Hj]. cbn in Hne.
    rewrite (Hout2 j Hj). destruct (copies o s); [|by rewrite lookup_alter_ne].
    destruct (σ !! k); [by rewrite lookup_insert_ne|done].
Qed.
End step.
End Makeup.
Export Makeup.

(** ** The commit *)
Module CommitClaims.

(** Opening a file again. *)
Lemma opened_stat df e :
  GetStat df = (e, None) → ∃ e', GetStat (opened df) = (e', None) ∧ contents (opened df) = contents df.
Proof.
  intros (f & ->)%DiskFile.stat_open. eexists. split; [reflexivity|].
  apply (DiskFile.new_aligned f).
Qed.
Lemma image_opened version prefix dst off rows τ :
  image version prefix dst off rows τ → image version prefix (opened dst) off rows τ.
Proof.
  intros [Hst Hlen Hmod Hpre Hroom Hkeys Hrows Hi].
  destruct (DiskFile.stat_open dst off Hst) as [f ->]. unfold opened. cbn [DiskFile.File].
  destruct (DiskFile.new_aligned f) as (Hc & Hm & Hr). unfold NeedlePaddingSize in *.
  change (contents (DiskFile.Mk (Some f) off)) with (OsFile.f_data f) in *.
  assert (DiskFile.fileSize (DiskFile.NewDiskFile f) = off) as Hfs by (rewrite Hlen in Hr; mlia).
  split; try done. cbn. unfold DiskFile.GetStat. by rewrite Hfs.
Qed.
Lemma unlimited_opened dst : unlimited dst → unlimited (opened dst).
Proof. intros (f & Hf & Hl). unfold opened. rewrite Hf. by exists f. Qed.

(** The last row of an id is one of the rows, and there are no more ids than rows. *)
Lemma last_rows_elem rows k o s : last_rows rows !! k = Some (o, s) → NeedleValue.Mk k o s ∈ rows.
Proof.
  induction rows as [|nv rows IH] using rev_ind; [done|]. rewrite last_rows_snoc. unfold last_row.
  destruct (decide (NeedleValue.Key nv = k)) as [<-|Hne].
  - rewrite lookup_insert_eq. intros [= <- <-]. apply elem_of_app. right. destruct nv. by left.
  - rewrite lookup_insert_ne by done. intros Hk. apply elem_of_app. left. by apply IH.
Qed.
Lemma last_rows_size rows : (size (last_rows rows) ≤ length rows)%nat.
Proof.
  induction rows as [|nv rows IH] using rev_ind; [done|]. rewrite last_rows_snoc, length_app. cbn.
  unfold last_row. rewrite map_size_insert. destruct (last_rows rows !! NeedleValue.Key nv); cbn; lia.
Qed.

(** What the volume has of an id after the commit: [kept] is what the compaction kept
    of it, [now_] what the old volume has by now. *)
Definition committed (version : Z) (changed : bool) (now_ kept : option (Needle.t * bool)) : option (Needle.t * bool) :=
  if changed then
    match now_ with
    | Some (n, true) => if decide (body_of version n = []) then buried <$> kept else Some (n, true)
    | _ => buried <$> kept
    end
  else kept.

Section commit.
Context {M : Type} `{NM : NeedleValueMap M} {NL : NeedleValueMapLaws M}.

(** A row of the journal and the needle of its id. *)
Lemma journal_change (v : Volume DiskFile.t M) e a σ rows tail k o s :
  holds v e a σ → a = Replay.replay ∅ (rows ++ tail) → Forall NeedleValue.wf tail → last_rows tail !! k = Some (o, s) →
  in_u 64 k ∧ in_s 32 s
  ∧ (copies o s = true →
      ∃ n, σ !! k = Some (n, true) ∧ entry_ok (contents (DataBackend v)) (Version v) k o s (n, true))
  ∧ ∀ kept, made_up o s (σ !! k) kept = committed (Version v) true (σ !! k) kept.
Proof.
  intros H Ha Hf Hk. pose proof (last_rows_elem _ _ _ _ Hk) as Hin.
  rewrite Forall_forall in Hf. destruct (Hf _ Hin) as (Hu & _ & Hs). cbn in Hu, Hs.
  pose proof (last_replay (Replay.replay ∅ rows) tail k o s Hk) as Hr.
  assert (Replay.replay (Replay.replay ∅ rows) tail = a) as Hra by (subst a; unfold Replay.replay; by rewrite foldl_app).
  rewrite Hra in Hr. pose proof (h_entries _ _ _ _ H k Hu) as He. split; [done|]. split; [done|].
  assert (MemDbSpec.live (NeedleValue.Mk k o s) = negb (Offset.IsZero o) && negb (Size.IsDeleted s)) as Hlive by done.
  destruct (copies o s) eqn:Hc; unfold made_up; rewrite Hc.
  - unfold copies in Hc. apply andb_prop in Hc as [Hc Hv]. apply andb_prop in Hc as [Hz Hne].
    apply Size.IsValid_spec in Hv. rewrite Hlive, Hz, (proj2 (Size.IsDeleted_false s)) in Hr by lia. cbn in Hr.
    rewrite Hr in He. destruct (σ !! k) as [[n live]|]; [|done].
    pose proof (kept_range (Version v) (n, live) (en_sound _ _ _ _ _ _ He)) as Hkr.
    rewrite <- (en_size _ _ _ _ _ _ He) in Hkr. destruct live; [|cbn in Hkr; lia].
    split; [exists n; split; [done|by eapply entry_front]|].
    intros kept. unfold committed. rewrite decide_False; [done|]. intros Hb.
    pose proof (en_size _ _ _ _ _ _ He) as Hsz. unfold kept_size in Hsz. cbn [fst snd] in Hsz.
    rewrite Hb in Hsz. change (zlen []) with 0 in Hsz. lia.
  - split; [done|]. intros kept. unfold committed. destruct (σ !! k) as [[n [|]]|] eqn:Hx; [|done..].
    destruct (holds_entry v e a σ _ _ H Hu Hx) as (o' & s' & Ha' & He').
    pose proof (kept_range (Version v) (n, true) (en_sound _ _ _ _ _ _ He')) as Hkr.
    rewrite <- (en_size _ _ _ _ _ _ He') in Hkr. cbn [snd] in Hkr.
    destruct (MemDbSpec.live (NeedleValue.Mk k o s)); [|specialize (Hr _ _ Ha'); lia].
    rewrite Ha' in Hr. injection Hr as -> ->. symmetry in Hlive. apply andb_prop in Hlive as [Hz _].
    unfold copies in Hc. rewrite Hz in Hc. cbn [andb] in Hc.
    assert (s = 0) as ->.
    { destruct (decide (s = 0)) as [|Hne]; [done|]. rewrite bool_decide_true in Hc by done. cbn [andb] in Hc.
      rewrite (proj2 (Size.IsValid_spec s)) in Hc by lia. done. }
    pose proof (en_size _ _ _ _ _ _ He') as Hsz. unfold kept_size in Hsz. cbn [fst snd] in Hsz.
    rewrite decide_True; [done|]. by apply zlen_0.
Qed.

Section files.
Context {E : Type} (Marshal : E → res bytes) (Unmarshal : bytes → E * option go_error).
Context (order : list (Z * (Offset.t * Z)) → list (Z * (Offset.t * Z))).
Hypothesis order_perm : ∀ l, order l ≡ₚ l.

(** The state when a compaction is committed: [v] has gone on since, and has
    journalled the rows [tail] after [rows]. *)
Record committing (v : Volume DiskFile.t M) (S : vol) (rows tail : list NeedleValue.t) (sb : SuperBlock.t (E := E))
    (rp : ReplicaPlacement.t) (ttl : Ttl.TTL) (dst : DiskFile.t) (off : Z) (new : list NeedleValue.t)
    (kept : gmap Z (Needle.t * bool)) (tmpNm : NeedleMap.t M) : Prop := {
  k_volume : represents v S;
  k_journal : OsFile.f_data (NeedleMap.indexFile (nm v)) = IdxRows.rows (rows ++ tail);
  k_rows : Forall NeedleValue.wf (rows ++ tail);
  k_started : rows ≠ [];
  k_size : zlen (rows ++ tail) * 16 < 2 ^ 63 ∧ zlen new * 16 < 2 ^ 63;
  k_block : block_ok Marshal sb rp ttl;
  k_version : SuperBlock.Version sb = Version v;
  k_revision : SuperBlock.CompactionRevision sb = u16 (CompactionRevision v + 1);
  k_old : fetchCompactRevisionFromDatFile Unmarshal (opened (DataBackend v)) = Ok (CompactionRevision v);
  k_image : image (Version v) (SuperBlock.header_ref sb rp ttl 0) dst off new kept;
  k_space : unlimited dst;
  k_room : off + fst (GetStat (DataBackend v)) + 32 * zlen tail ≤ Offset.MaxPossibleVolumeSize;
  k_map : mapped new tmpNm;
}.

(** The changes are made up for. *)
Lemma makeup_spec now v S rows tail sb rp ttl dst off new kept tmpNm :
  committing v S rows tail sb rp ttl dst off new kept tmpNm → in_u 64 now →
  ∃ dst' off' new' tmpNm' τ,
    makeupDiff Unmarshal order now v (zlen (IdxRows.rows rows)) (CompactionRevision v) dst
      (OsFile.OsF (IdxRows.rows new) None) tmpNm = (tmpNm', Ok (dst', OsFile.OsF (IdxRows.rows new') None))
    ∧ image (Version v) (SuperBlock.header_ref sb rp ttl 0) dst' off' new' τ ∧ mapped new' tmpNm'
    ∧ ∀ k, τ !! k = committed (Version v) (bool_decide (k ∈ NeedleValue.Key <$> tail)) (stored S !! k) (kept !! k).
Proof.
  intros [[_ (e & a & H)] Hj Hf Hne [Hsz1 Hsz2] Hb Hsv Hrev Hold Him Hun Hroom Hmap] Hnow.
  assert (a = Replay.replay ∅ (rows ++ tail)) as Ha.
  { destruct (h_file _ _ _ _ H) as (_ & rows1 & Hf1 & Hj1 & ->). rewrite Hj in Hj1. f_equal.
    rewrite <- (IdxRows.entries_rows rows1 Hf1), <- Hj1. by rewrite IdxRows.entries_rows. }
  unfold makeupDiff. rewrite Hj. cbv zeta. rewrite !IdxRows.zlen_rows. change NeedleMapEntrySize with 16.
  rewrite Z.rem_mul by lia. rewrite (decide_False (P := 0 ≠ 0)) by lia.
  pose proof (zlen_nonneg rows). pose proof (zlen_nonneg tail). pose proof (zlen_nonneg new).
  assert (1 ≤ zlen rows) by (destruct rows; [done|rewrite zlen_cons; pose proof (zlen_nonneg rows); lia]).
  rewrite zlen_app in *. rewrite (wrap_id 64 ((zlen rows + zlen tail) * 16)) by (widths; lia).
  destruct (decide (tail = [])) as [->|Htail].
  { rewrite decide_True by (right; change (zlen []) with 0; lia). exists dst, off, new, tmpNm, kept.
    split_and!; [done|done|done|]. intros k. unfold committed. by rewrite bool_decide_false by (apply not_elem_of_nil). }
  assert (1 ≤ zlen tail) by (destruct tail; [done|rewrite zlen_cons; pose proof (zlen_nonneg tail); lia]).
  rewrite (decide_False (P := _ ∨ _)) by lia. rewrite Hold. cbn [mbind res_bind].
  rewrite (decide_False (P := CompactionRevision v ≠ _)) by (intros Hx; by apply Hx).
  pose proof (λ fuel, updated_prefix rows tail [] ∅ fuel) as Hup.
  rewrite !app_nil_r in Hup. rewrite map_empty_union, zlen_app in Hup.
  rewrite Hup; [|done|done|rewrite Z.div_mul by lia; unfold zlen; lia|lia]. cbn [mbind res_bind].
  rewrite decide_False.
  2: { intros Hx. destruct tail as [|nv tail]; [done|].
       assert (is_Some (last_rows (nv :: tail) !! NeedleValue.Key nv)) as [x Hs]; [apply last_rows_key; by left|].
       rewrite Hx in Hs. by rewrite lookup_empty in Hs. }
  unfold fetchCompactRevisionFromDatFile at 1.
  rewrite (read_block Marshal Unmarshal (Version v) sb rp ttl (opened dst) off new kept Hb (image_opened _ _ _ _ _ _ Him)).
  cbn [mbind res_bind SuperBlock.CompactionRevision]. rewrite Hrev.
  rewrite (decide_False (P := u16 _ ≠ _)) by (intros Hx; by apply Hx).
  destruct (opened_stat _ _ (h_stat _ _ _ _ H)) as (e' & Hst' & Hcont').
  set (xs := order (map_to_list (last_rows tail))).
  assert (∀ k x, (k, x) ∈ xs ↔ last_rows tail !! k = Some x) as Hxs.
  { intros k x. unfold xs. rewrite order_perm. apply elem_of_map_to_list. }
  assert (∀ k, k ∈ xs.*1 ↔ k ∈ NeedleValue.Key <$> tail) as Hkeys.
  { intros k. rewrite <- last_rows_key, list_elem_of_fmap. split.
    - intros ([k' x] & -> & Hin%Hxs). by eexists.
    - intros [x Hx]. exists (k, x). split; [done|]. by apply Hxs. }
  assert (Forall NeedleValue.wf tail) as Hft by (by apply Forall_app in Hf as [_ ?]).
  destruct (makeup_all_spec (Version v) _ now (opened (DataBackend v)) e' (h_version _ _ _ _ H) Hnow Hst' xs
    (opened dst) off new kept (stored S) (stored S) (image_opened _ _ _ _ _ _ Him) (unlimited_opened _ Hun))
    as (dst' & off' & new' & τ & Hmake & Him' & Hin & Hout).
  { unfold xs. rewrite order_perm. apply NoDup_fst_map_to_list. }
  { apply Forall_forall. intros [k [o s]] Hk%Hxs.
    destruct (journal_change v e a (stored S) rows tail k o s H Ha Hft Hk) as (Hu & Hs & Hl & _).
    split_and!; [done|done|]. by rewrite Hcont'. }
  { done. }
  { pose proof (h_room _ _ _ _ H). pose proof (last_rows_size tail). rewrite (h_stat _ _ _ _ H) in Hroom. cbn [fst] in Hroom.
    assert (zlen xs ≤ zlen tail).
    { unfold zlen, xs. rewrite order_perm, length_map_to_list. lia. }
    lia. }
  rewrite Hmake. cbn [mbind res_bind OsFile.f_data]. rewrite IdxRows.zlen_rows, Z.div_mul by lia.
  pose proof (im_rows _ _ _ _ _ _ Him') as Hwf. apply Forall_app in Hwf as [_ Hwf].
  destruct (Replay.load_from_sim true (OsFile.OsF (IdxRows.rows (new ++ new')) None) new new' tmpNm _ Hmap Hwf)
    as (mm & x & Hload & Hsim); [apply IdxRows.rows_app|done|].
  unfold NeedleMap.DoOffsetLoading. rewrite Hload.
  exists dst', off', (new ++ new'). do 2 eexists. split; [reflexivity|]. split; [exact Him'|]. split.
  { unfold mapped, Replay.replay. rewrite foldl_app. exact Hsim. }
  intros k. case_bool_decide as Hk; rewrite <- Hkeys in Hk.
  - apply list_elem_of_fmap in Hk as ([k' [o s]] & -> & Hk). cbn [fst].
    rewrite (Hin _ _ _ Hk). apply Hxs in Hk.
    by destruct (journal_change v e a (stored S) rows tail k' o s H Ha Hft Hk) as (_ & _ & _ & Hc).
  - by rewrite (Hout k Hk).
Qed.

(** What happened to a volume between the start of a compaction, at [v0], and its
    commit, at [v]: rows were journalled, and the settings are the same. *)
Record meanwhile (v0 v : Volume DiskFile.t M) (tail : list NeedleValue.t) : Prop := {
  m_static : static v = static v0;
  m_journal : OsFile.f_data (NeedleMap.indexFile (nm v))
    = OsFile.f_data (NeedleMap.indexFile (nm v0)) ++ IdxRows.rows tail;
  m_wf : Forall NeedleValue.wf tail;
  m_size : zlen (OsFile.f_data (NeedleMap.indexFile (nm v))) < 2 ^ 63;
  m_block : fetchCompactRevisionFromDatFile Unmarshal (opened (DataBackend v)) = Ok (CompactionRevision v);
}.

Section claims.
Context {D : Type} `{DB : LevelDb D} {DL : LevelDbLaws D}.
Context (NewCompactMap : M).
Hypothesis new_map : IndexSpec.sim NewCompactMap ∅.
(** A compaction of a volume that has a journal, started at [v0] and ready to be
    committed at [v]. *)
Record pending (now0 : Z) (v0 v : Volume DiskFile.t M) (ttl : Ttl.TTL) (opts : CompactOptions E) (tail : list NeedleValue.t)
    (dst : DiskFile.t) (file : OsFile.os_file) (tmpNm : NeedleMap.t M) : Prop := {
  p_limit : fst (GetStat (DataBackend v0)) ≤ Offset.MaxPossibleVolumeSize;
  p_options : options_of Marshal v0 ttl opts;
  p_copied : ∃ blank, GetStat blank = (0, None) ∧ contents blank = []
    ∧ copyDataBasedOnIndexFile Marshal NewCompactMap now0 v0 (OsFile.f_data (NeedleMap.indexFile (nm v0))) opts blank
      = Ok (dst, file, tmpNm);
  p_started : OsFile.f_data (NeedleMap.indexFile (nm v0)) ≠ [];
  p_meanwhile : meanwhile v0 v tail;
  p_file : zlen (OsFile.f_data file) < 2 ^ 63;
  p_space : unlimited dst;
  p_room : fst (GetStat dst) + fst (GetStat (DataBackend v)) + 32 * zlen tail ≤ Offset.MaxPossibleVolumeSize;
}.

Lemma pending_committing now0 v0 S0 v S ttl opts tail dst file tmpNm :
  represents v0 S0 → represents v S → pending now0 v0 v ttl opts tail dst file tmpNm →
  ∃ rows rp off new, OsFile.f_data (NeedleMap.indexFile (nm v0)) = IdxRows.rows rows
  ∧ file = OsFile.OsF (IdxRows.rows new) None
  ∧ committing v S rows tail (next_revision (superBlock opts)) rp ttl dst off new
      (survivors now0 (Version v) ttl (stored S0)) tmpNm.
Proof.
  intros HS0 HS [He Hopts (blank & Hst & Hcont & Hcopy) Hne [Hs Hj Hwf Hsz Hold] Hfile Hun Hroom].
  pose proof (compaction_spec Marshal NewCompactMap new_map now0 v0 S0 ttl opts blank HS0 He Hopts Hst Hcont) as Hc. rewrite Hcopy in Hc.
  destruct Hc as (rp & off & new & Hb & Him & -> & Hm). cbn [OsFile.f_data] in Hfile.
  destruct HS0 as [_ (e & a & H)]. destruct (h_file _ _ _ _ H) as (_ & rows & Hf & Hj0 & _).
  rewrite Hj0 in Hj, Hne. rewrite Hj, <- IdxRows.rows_app, IdxRows.zlen_rows in Hsz. rewrite IdxRows.zlen_rows in Hfile.
  injection Hs as Ev Et Er _. exists rows, rp, off, new. split_and!; [done|done|].
  rewrite <- Ev in Him. split; try done.
  - by rewrite Hj, IdxRows.rows_app.
  - by apply Forall_app_2.
  - by intros ->.
  - rewrite Ev. apply (o_block_version _ _ _ _ Hopts).
  - cbn. by rewrite (o_revision _ _ _ _ Hopts), Er.
  - by rewrite (im_stat _ _ _ _ _ _ Him) in Hroom.
Qed.

(** C8: committing a compaction that started on a non-empty index, with room left in
    the copy and no failing write, succeeds, and the new volume has, of every id
    journalled since the start, the live needle the old volume has by now, and of every
    other id what the compaction kept; a journalled id whose needle is deleted by now,
    or is live with empty data, is deleted, or absent when the compaction did not keep
    it. *)
Theorem commit_keeps_changes now0 now ts lm v0 S0 v S ttl opts tail dst file tmpNm :
  represents v0 S0 → represents v S → pending now0 v0 v ttl opts tail dst file tmpNm → in_u 64 now →
  ∃ v' S', CommitCompact Unmarshal order now ts lm v (zlen (OsFile.f_data (NeedleMap.indexFile (nm v0))))
      (CompactionRevision v) dst file tmpNm = Ok v'
    ∧ represents v' S'
    ∧ ∀ k, stored S' !! k = committed (Version v) (bool_decide (k ∈ NeedleValue.Key <$> tail)) (stored S !! k)
                              (survivors now0 (Version v) ttl (stored S0) !! k).
Proof.
  intros HS0 HS Hp Hnow.
  destruct (pending_committing now0 v0 S0 v S ttl opts tail dst file tmpNm HS0 HS Hp) as (rows & rp & off & new & -> & -> & Hk).
  destruct (makeup_spec now v S rows tail _ rp ttl dst off new _ tmpNm Hk Hnow)
    as (dst' & off' & new' & tmpNm' & τ & Hmake & Him & Hm & Hτ).
  unfold CommitCompact. rewrite Hmake. destruct HS as [_ (e & a & H)].
  destruct (image_reopen Marshal Unmarshal (Version v) _ rp ttl (opened dst') off' new' τ tmpNm' ts lm v
    (k_block _ _ _ _ _ _ _ _ _ _ _ _ Hk) (k_version _ _ _ _ _ _ _ _ _ _ _ _ Hk) (h_version _ _ _ _ H)
    (image_opened _ _ _ _ _ _ Him) Hm) as (v' & Hopen & HS' & _).
  exists v', (Vol τ ts). split_and!; [done|done|exact Hτ].
Qed.
End claims.

(** C9: a compaction that started before anything was journalled cannot be committed once
    something was: the backward scan of the journal runs below offset zero and fails,
    and the volume goes on with its old files and the needle map of the empty copy. *)
Theorem commit_from_empty now ts lm v rows dst file tmpNm :
  OsFile.f_data (NeedleMap.indexFile (nm v)) = IdxRows.rows rows → Forall NeedleValue.wf rows → rows ≠ [] →
  zlen rows * 16 < 2 ^ 63 →
  fetchCompactRevisionFromDatFile Unmarshal (opened (DataBackend v)) = Ok (CompactionRevision v) →
  snd (makeupDiff Unmarshal order now v 0 (CompactionRevision v) dst file tmpNm)
    = Fail (Errorf "readIndexEntry %s at offset %d failed: %v")
  ∧ CommitCompact Unmarshal order now ts lm v 0 (CompactionRevision v) dst file tmpNm
    = reopen Unmarshal ts lm v (opened (DataBackend v)) (NeedleMap.indexFile (nm v)) tmpNm.
Proof.
  intros Hj Hf Hne Hsz Hold.
  assert (makeupDiff Unmarshal order now v 0 (CompactionRevision v) dst file tmpNm
    = (tmpNm, Fail (Errorf "readIndexEntry %s at offset %d failed: %v"))) as Hmake.
  { unfold makeupDiff. rewrite Hj. cbv zeta. rewrite IdxRows.zlen_rows. change NeedleMapEntrySize with 16.
    assert (1 ≤ zlen rows) by (destruct rows; [done|rewrite zlen_cons; pose proof (zlen_nonneg rows); lia]).
    rewrite Z.rem_mul by lia. rewrite (decide_False (P := 0 ≠ 0)) by lia.
    rewrite (wrap_id 64 (zlen rows * 16)) by (widths; lia). rewrite (decide_False (P := _ ∨ _)) by lia.
    rewrite Hold. cbn [mbind res_bind]. rewrite (decide_False (P := CompactionRevision v ≠ _)) by (intros Hx; by apply Hx).
    pose proof (λ fuel, updated_from_start rows [] ∅ fuel) as Hup. rewrite app_nil_r in Hup.
    rewrite Hup; [done|done|rewrite Z.div_mul by lia; unfold zlen; lia]. }
  unfold CommitCompact. by rewrite Hmake.
Qed.
End files.
End commit.
End CommitClaims.
Export CommitClaims.

(** ** Commits on disk *)
Module CommitExamples.
Import VolumeExamples VacuumExamples.

Definition keep_order (l : list (Z * (Offset.t * Z))) : list (Z * (Offset.t * Z)) := l.
Lemma keep_order_perm l : keep_order l ≡ₚ l.
Proof. done. Qed.

(** A needle written while the volume with one live needle is compacted. *)
Definition extra : Needle.t := set_header 0x77 9 0 plain.
Definition write_extra : request := Write clock extra true.
Definition ask_extra : Needle.t := set_header 0 9 0 new.
Lemma extra_sound : sound extra.
Proof.
  destruct plain_sound as [[] [] Hc]. split; [by constructor| |exact Hc].
  constructor; try done; split; discriminate || reflexivity.
Qed.

Definition later_volume : Volume DiskFile.t CompactMap.t := fst (serve used_volume write_extra).
Definition copied_files : DiskFile.t * OsFile.os_file * NeedleMap.t CompactMap.t :=
  match compacted with Ok x => x | _ => (blank, OsFile.OsF [] None, nm empty_volume) end.
Definition copied_dst : DiskFile.t := fst (fst copied_files).
Definition new_rows : list NeedleValue.t :=
  IdxSpec.entries (drop (length (OsFile.f_data (NeedleMap.indexFile (nm used_volume))))
    (OsFile.f_data (NeedleMap.indexFile (nm later_volume)))).

Lemma later_ok : ∃ S, represents later_volume S.
Proof.
  destruct used_ok as [S HS]. destruct (serve_refines used_volume S write_extra HS) as (S' & _ & HS' & _).
  - split; [split; [discriminate|reflexivity]|exact extra_sound].
  - vm_compute. reflexivity.
  - by exists S'.
Qed.

Lemma pending_ok :
  pending (D := SortedDb.t) SuperBlock.raw_marshal SuperBlock.raw_unmarshal CompactMap.NewCompactMap 0 used_volume later_volume
    Ttl.EMPTY_TTL options new_rows copied_dst (snd (fst copied_files)) (snd copied_files).
Proof.
  split.
  - vm_compute. discriminate.
  - exact options_ok.
  - exists blank. split; [reflexivity|]. split; [reflexivity|]. vm_compute. reflexivity.
  - vm_compute. discriminate.
  - split; [vm_compute; reflexivity|vm_compute; reflexivity| |vm_compute; reflexivity|vm_compute; reflexivity].
    apply Forall_forall. intros nv Hn. vm_compute in Hn. apply list_elem_of_singleton in Hn as ->.
    repeat split; discriminate || reflexivity.
  - vm_compute. reflexivity.
  - exists (OsFile.OsF (contents copied_dst) None). split; vm_compute; reflexivity.
  - vm_compute. discriminate.
Qed.

Lemma commit_keeps_changes_witness :
  ∃ v', CommitCompact SuperBlock.raw_unmarshal keep_order clock 0 0 later_volume
      (zlen (OsFile.f_data (NeedleMap.indexFile (nm used_volume)))) (CompactionRevision later_volume)
      copied_dst (snd (fst copied_files)) (snd copied_files) = Ok v'
    ∧ (∃ S', represents v' S') ∧ snd (readNeedle clock v' None ask_extra) = Ok 2.
Proof.
  destruct used_ok as [S0 HS0]. destruct later_ok as [S HS].
  destruct (commit_keeps_changes SuperBlock.raw_marshal SuperBlock.raw_unmarshal keep_order keep_order_perm
    CompactMap.NewCompactMap CompactMapSpec.new_sim 0 clock 0 0 used_volume S0 later_volume S Ttl.EMPTY_TTL options
    new_rows copied_dst (snd (fst copied_files)) (snd copied_files) HS0 HS pending_ok ltac:(split; [discriminate|reflexivity]))
    as (v' & S' & Hc & HS' & _).
  assert (match CommitCompact SuperBlock.raw_unmarshal keep_order clock 0 0 later_volume
      (zlen (OsFile.f_data (NeedleMap.indexFile (nm used_volume)))) (CompactionRevision later_volume)
      copied_dst (snd (fst copied_files)) (snd copied_files) with
    | Ok v' => snd (readNeedle clock v' None ask_extra) | _ => Panic end = Ok 2) as Hr by (vm_compute; reflexivity).
  rewrite Hc in Hr. exists v'. split; [exact Hc|]. split; [exists S'; exact HS'|exact Hr].
Defined.

(** The needle written while the empty volume is compacted is not found afterwards. *)
Definition first_volume : Volume DiskFile.t CompactMap.t := fst (serve empty_volume (Write clock sample true)).
Definition first_rows : list NeedleValue.t := IdxSpec.entries (OsFile.f_data (NeedleMap.indexFile (nm first_volume))).
Definition empty_copy : DiskFile.t * OsFile.os_file * NeedleMap.t CompactMap.t :=
  match copyDataBasedOnIndexFile (D := SortedDb.t) SuperBlock.raw_marshal CompactMap.NewCompactMap 0 empty_volume
    (OsFile.f_data (NeedleMap.indexFile (nm empty_volume))) options blank with
  | Ok x => x | _ => (blank, OsFile.OsF [] None, nm empty_volume) end.

Lemma commit_from_empty_witness :
  ∃ v', CommitCompact SuperBlock.raw_unmarshal keep_order clock 0 0 first_volume 0 (CompactionRevision first_volume)
      (fst (fst empty_copy)) (snd (fst empty_copy)) (snd empty_copy) = Ok v'
    ∧ snd (readNeedle clock first_volume None ask) = Ok 5
    ∧ snd (readNeedle clock v' None ask) = Fail ErrorNotFound.
Proof.
  destruct (commit_from_empty SuperBlock.raw_unmarshal keep_order clock 0 0 first_volume first_rows
    (fst (fst empty_copy)) (snd (fst empty_copy)) (snd empty_copy)) as [_ Hc].
  - vm_compute. reflexivity.
  - apply Forall_forall. intros nv Hn. vm_compute in Hn. apply list_elem_of_singleton in Hn as ->.
    repeat split; discriminate || reflexivity.
  - vm_compute. discriminate.
  - vm_compute. reflexivity.
  - vm_compute. reflexivity.
  - rewrite Hc. assert (match reopen SuperBlock.raw_unmarshal 0 0 first_volume (opened (DataBackend first_volume))
      (NeedleMap.indexFile (nm first_volume)) (snd empty_copy) with
      | Ok v' => snd (readNeedle clock v' None ask) | _ => Panic end = Fail ErrorNotFound) as Hr by (vm_compute; reflexivity).
    destruct (reopen _ _ _ _ _ _ _) as [v'|err|]; [|discriminate Hr..].
    exists v'. split; [reflexivity|]. split; [vm_compute; reflexivity|exact Hr].
Defined.
End CommitExamples.
