(* ===== verification/EcShards.v ===== *)
(** * EcShards: the set of erasure-coding shards of a volume
    (weed/storage/erasure_coding/ec_shard_info.go, ec_shards_info.go, ec_shard.go,
    ec_volume_info.go, and the shard list of ec_volume.go)

    A [ShardsInfo] keeps the shards a server holds twice: as a slice of ids and
    sizes in ascending id order, and as a bitmap.  The lock makes each operation
    atomic, and the slice never leaves the structure without a copy. *)

From S2P Require Import Prelude GoStd SortedList.

Module EcShards.

Definition DataShardsCount : Z := 10.
Definition ParityShardsCount : Z := 4.
Definition TotalShardsCount : Z := DataShardsCount + ParityShardsCount.
Definition MaxShardCount : Z := 32.

(** ** Bitmaps *)

Definition ShardBits_Has (sb id : Z) : bool :=
  bool_decide (id < MaxShardCount) && negb (bool_decide (Z.land sb (u32 (Z.shiftl 1 id)) = 0)).

Definition ShardBits_Set (sb id : Z) : Z :=
  if decide (MaxShardCount ≤ id) then sb else Z.lor sb (u32 (Z.shiftl 1 id)).

Definition ShardBits_Clear (sb id : Z) : Z :=
  if decide (MaxShardCount ≤ id) then sb else Z.ldiff sb (u32 (Z.shiftl 1 id)).

(** [bits.OnesCount32] *)
Definition set_bits (sb : Z) : list Z := filter (λ i, Z.testbit sb i = true) (seqZ 0 32).
Definition ShardBits_Count (sb : Z) : Z := zlen (set_bits sb).

(** ** Shards *)

Record ShardInfo := Shard { Id : Z; Size : Z }.
#[global] Instance ShardInfo_eq_dec : EqDecision ShardInfo.
Proof. solve_decision. Defined.

Definition NewShardInfo (id size : Z) : ShardInfo := Shard id size.
Definition IsValid (s : ShardInfo) : bool := bool_decide (Id s < MaxShardCount).

Record ShardsInfo := Shards { shards : list ShardInfo; shardBits : Z }.
#[global] Instance ShardsInfo_eq_dec : EqDecision ShardsInfo.
Proof. solve_decision. Defined.

Definition NewShardsInfo : ShardsInfo := Shards [] 0.

(** [-1] when absent. *)
Definition findIndex (si : ShardsInfo) (id : Z) : Z :=
  let idx := Sort.Search (zlen (shards si)) (at_least Id (shards si) id) in
  match shards si !! Z.to_nat idx with
  | Some s => if decide (Id s = id) then idx else -1
  | None => -1
  end.

Definition AsSlice (si : ShardsInfo) : list ShardInfo := shards si.
Definition Count (si : ShardsInfo) : Z := ShardBits_Count (shardBits si).
Definition Has (si : ShardsInfo) (id : Z) : bool := ShardBits_Has (shardBits si) id.
Definition Ids (si : ShardsInfo) : list Z := Id <$> shards si.
Definition ShardIdsToUint32 (ids : list Z) : list Z := u32 <$> ids.
Definition Uint32ToShardIds (ids : list Z) : list Z := u8 <$> ids.
Definition AllShardIds : list Z := u8 <$> seqZ 0 TotalShardsCount.
Definition IdsInt (si : ShardsInfo) : list Z := Ids si.
Definition IdsUint32 (si : ShardsInfo) : list Z := ShardIdsToUint32 (Ids si).

(** The insertion point is the first shard with an id above the new one. *)
Definition Set_ (si : ShardsInfo) (shard : ShardInfo) : ShardsInfo :=
  if decide (MaxShardCount ≤ Id shard) then si
  else if ShardBits_Has (shardBits si) (Id shard) then
    let idx := findIndex si (Id shard) in
    if decide (0 ≤ idx) then Shards (<[Z.to_nat idx := shard]> (shards si)) (shardBits si) else si
  else
    let bits := ShardBits_Set (shardBits si) (Id shard) in
    let idx := Z.to_nat (Sort.Search (zlen (shards si)) (at_least Id (shards si) (Id shard + 1))) in
    let room := take idx (shards si) ++ [Shard 0 0] ++ drop idx (shards si) in
    Shards (<[idx := shard]> room) bits.

Definition Delete (si : ShardsInfo) (id : Z) : ShardsInfo :=
  if decide (MaxShardCount ≤ id) then si
  else if negb (ShardBits_Has (shardBits si) id) then si
  else
    let bits := ShardBits_Clear (shardBits si) id in
    let idx := findIndex si id in
    if decide (0 ≤ idx) then
      Shards (take (Z.to_nat idx) (shards si) ++ drop (Z.to_nat (idx + 1)) (shards si)) bits
    else Shards (shards si) bits.

Definition Bitmap (si : ShardsInfo) : Z := shardBits si.

Definition Size_ (si : ShardsInfo) (id : Z) : Z :=
  if decide (MaxShardCount ≤ id) then 0
  else if negb (ShardBits_Has (shardBits si) id) then 0
  else
    let idx := findIndex si id in
    if decide (0 ≤ idx) then
      match shards si !! Z.to_nat idx with Some s => Size s | None => 0 end
    else 0.

Definition TotalSize (si : ShardsInfo) : Z := foldl (λ total s, s64 (total + Size s)) 0 (shards si).
Definition Sizes (si : ShardsInfo) : list Z := Size <$> shards si.
Definition SizesInt64 (si : ShardsInfo) : list Z := Sizes si.
Definition Copy (si : ShardsInfo) : ShardsInfo := si.

Definition DeleteParityShards (si : ShardsInfo) : ShardsInfo :=
  foldl Delete si (seqZ DataShardsCount (TotalShardsCount - DataShardsCount)).
Definition MinusParityShards (si : ShardsInfo) : ShardsInfo := DeleteParityShards (Copy si).

Definition Add (si other : ShardsInfo) : ShardsInfo := foldl Set_ si (shards other).
Definition Subtract (si other : ShardsInfo) : ShardsInfo :=
  foldl (λ si s, Delete si (Id s)) si (shards other).
Definition Plus (si other : ShardsInfo) : ShardsInfo := Add (Copy si) other.
Definition Minus (si other : ShardsInfo) : ShardsInfo := Subtract (Copy si) other.

(** ** Messages to the master *)

(** The fields of [master_pb.VolumeEcShardInformationMessage] that carry shards. *)
Record EcMessage := Message { EcIndexBits : Z; ShardSizes : list Z }.

(** [for bitmap := EcIndexBits; bitmap != 0; bitmap >>= 1]; [sizes] is
    [vi.ShardSizes[j:]].  A [uint32] is zero after 32 shifts. *)
Fixpoint message_shards (fuel : nat) (bitmap id : Z) (sizes : list Z) : list ShardInfo :=
  match fuel with
  | O => []
  | S fuel =>
      if decide (bitmap = 0) then []
      else if Z.odd bitmap then
        NewShardInfo id (default 0 (head sizes))
          :: message_shards fuel (Z.shiftr bitmap 1) (u8 (id + 1)) (tail sizes)
      else message_shards fuel (Z.shiftr bitmap 1) (u8 (id + 1)) sizes
  end.

Definition ShardsInfoFromMessage (vi : option EcMessage) : ShardsInfo :=
  match vi with
  | None => NewShardsInfo
  | Some vi => Shards (message_shards 32 (EcIndexBits vi) 0 (ShardSizes vi)) (EcIndexBits vi)
  end.

Definition GetShardCount (vi : option EcMessage) : Z :=
  match vi with None => 0 | Some vi => ShardBits_Count (EcIndexBits vi) end.

(** The shards of an [EcVolumeInfo] and its message. *)
Definition EcVolumeInfo_Minus (ecInfo other : ShardsInfo) : ShardsInfo := Minus ecInfo other.
Definition EcVolumeInfo_ToMessage (evi : ShardsInfo) : EcMessage :=
  Message (Bitmap evi) (SizesInt64 evi).

(** ** The mounted shards of a volume *)

(** An [EcVolumeShard]: its volume, its id and the size of its file. *)
Record EcVolumeShard := VShard { VolumeId : Z; ShardId : Z; ecdFileSize : Z }.
#[global] Instance EcVolumeShard_eq_dec : EqDecision EcVolumeShard.
Proof. solve_decision. Defined.

(** The comparison of [AddEcVolumeShard]: both differences are of unsigned types,
    [uint32] and [uint8], and become [int]s after the subtraction. *)
Definition shard_cmp (a b : EcVolumeShard) : Z :=
  if negb (bool_decide (VolumeId a = VolumeId b)) then u32 (VolumeId a - VolumeId b)
  else u8 (ShardId a - ShardId b).

Section sort.
(** [slices.SortFunc] of longer slices. *)
Context (sort_long : (EcVolumeShard → EcVolumeShard → Z) → list EcVolumeShard → list EcVolumeShard).

Definition AddEcVolumeShard (ev : list EcVolumeShard) (s : EcVolumeShard)
    : list EcVolumeShard * bool :=
  if decide (ShardId s ∈ (ShardId <$> ev)) then (ev, false)
  else (Slices.SortFunc sort_long shard_cmp (ev ++ [s]), true).
End sort.

(** The last position with the id, [-1] if there is none. *)
Fixpoint last_position (ev : list EcVolumeShard) (id i found : Z) : Z :=
  match ev with
  | [] => found
  | s :: ev => last_position ev id (i + 1) (if decide (ShardId s = id) then i else found)
  end.

Definition DeleteEcVolumeShard (ev : list EcVolumeShard) (id : Z)
    : list EcVolumeShard * option EcVolumeShard :=
  let foundPosition := last_position ev id 0 (-1) in
  if decide (foundPosition < 0) then (ev, None)
  else
    let i := Z.to_nat foundPosition in
    (take i ev ++ drop (S i) ev, ev !! i).

Fixpoint FindEcVolumeShard (ev : list EcVolumeShard) (id : Z) : option EcVolumeShard :=
  match ev with
  | [] => None
  | s :: ev => if decide (ShardId s = id) then Some s else FindEcVolumeShard ev id
  end.

Definition ShardSize (ev : list EcVolumeShard) : Z :=
  match ev with [] => 0 | s :: _ => u64 (ecdFileSize s) end.
Definition EcVolume_Size (ev : list EcVolumeShard) : Z :=
  foldl (λ size s, if decide (0 < ecdFileSize s) then u64 (size + u64 (ecdFileSize s)) else size) 0 ev.
Definition ShardIdList (ev : list EcVolumeShard) : list Z := ShardId <$> ev.

Definition ShardsInfoFromVolume (ev : list EcVolumeShard) : ShardsInfo :=
  Shards ((λ s, NewShardInfo (ShardId s) (ecdFileSize s)) <$> ev)
         (foldl (λ bits s, ShardBits_Set bits (ShardId s)) 0 ev).

(** One message per volume id; each shard goes through a [ShardsInfo] of the
    message so far. *)
Definition message_add (m : gmap Z EcMessage) (s : EcVolumeShard) : gmap Z EcMessage :=
  let msg := default (Message 0 []) (m !! VolumeId s) in
  let si := Set_ (ShardsInfoFromMessage (Some msg)) (NewShardInfo (ShardId s) (ecdFileSize s)) in
  <[VolumeId s := Message (Bitmap si) (SizesInt64 si)]> m.
Definition ToVolumeEcShardInformationMessage (ev : list EcVolumeShard) : gmap Z EcMessage :=
  foldl message_add ∅ ev.

(** The order of two shard descriptions. *)
Definition CmpEcShardInfo (a b : Z * Z) : Z :=
  if decide (a.1 < b.1) then -1 else if decide (b.1 < a.1) then 1
  else if decide (a.2 < b.2) then -1 else if decide (b.2 < a.2) then 1 else 0.

End EcShards.

(** ** The bitmap and the slice agree *)
Module EcShardsSpec.
Import EcShards.

Abbreviation find := (SortedList.find Id).

Lemma shard_bit id : 0 ≤ id < 32 → u32 (Z.shiftl 1 id) = 2 ^ id.
Proof.
  intros. rewrite Z.shiftl_mul_pow2 by lia. rewrite Z.mul_1_l. apply wrap_id. split; [lia|].
  apply Z.pow_lt_mono_r; lia.
Qed.

Lemma has_testbit sb id : 0 ≤ id < 32 → ShardBits_Has sb id = Z.testbit sb id.
Proof.
  intros H. unfold ShardBits_Has, MaxShardCount. rewrite bool_decide_eq_true_2 by lia. cbn [andb].
  rewrite shard_bit by done. destruct (Z.testbit sb id) eqn:E.
  - rewrite bool_decide_eq_false_2; [done|]. intros H0.
    assert (Z.testbit (Z.land sb (2 ^ id)) id = true) as Ht
      by (rewrite Z.land_spec, E, Z.pow2_bits_true by lia; done).
    by rewrite H0, Z.bits_0 in Ht.
  - rewrite bool_decide_eq_true_2; [done|]. apply Z.bits_inj'. intros n Hn.
    rewrite Z.land_spec, Z.pow2_bits_eqb, Z.bits_0 by lia.
    destruct (Z.eqb_spec id n) as [<-|]; [by rewrite E|apply andb_false_r].
Qed.

Lemma set_testbit sb id j :
  0 ≤ id < 32 → 0 ≤ j → Z.testbit (ShardBits_Set sb id) j = bool_decide (id = j) || Z.testbit sb j.
Proof.
  intros H Hj. unfold ShardBits_Set, MaxShardCount. rewrite decide_False by lia.
  rewrite shard_bit, Z.lor_spec, Z.pow2_bits_eqb, orb_comm by lia. f_equal.
  by destruct (Z.eqb_spec id j), (decide (id = j)); rewrite ?bool_decide_eq_true_2, ?bool_decide_eq_false_2 by done.
Qed.

Lemma clear_testbit sb id j :
  0 ≤ id < 32 → 0 ≤ j →
  Z.testbit (ShardBits_Clear sb id) j = negb (bool_decide (id = j)) && Z.testbit sb j.
Proof.
  intros H Hj. unfold ShardBits_Clear, MaxShardCount. rewrite decide_False by lia.
  rewrite shard_bit, Z.ldiff_spec, Z.pow2_bits_eqb, andb_comm by lia. do 2 f_equal.
  by destruct (Z.eqb_spec id j), (decide (id = j)); rewrite ?bool_decide_eq_true_2, ?bool_decide_eq_false_2 by done.
Qed.

(** A 32-bit word is a number with no bit above the 31st. *)
Lemma in_u32_bits sb : in_u 32 sb ↔ 0 ≤ sb ∧ ∀ j, 32 ≤ j → Z.testbit sb j = false.
Proof.
  unfold in_u. split.
  - intros [H0 H1]. split; [done|]. intros j Hj.
    destruct (decide (sb = 0)) as [->|]; [apply Z.bits_0|].
    apply Z.bits_above_log2; [done|]. apply Z.log2_lt_pow2 in H1; lia.
  - intros [H0 H]. split; [done|]. destruct (decide (sb = 0)) as [->|]; [done|].
    apply Z.log2_lt_pow2; [lia|]. destruct (decide (Z.log2 sb < 32)); [done|].
    specialize (H (Z.log2 sb) ltac:(lia)). by rewrite Z.bit_log2 in H by lia.
Qed.

Lemma set_range sb id : 0 ≤ id < 32 → in_u 32 sb → in_u 32 (ShardBits_Set sb id).
Proof.
  rewrite !in_u32_bits. intros H [H0 Hb]. split.
  - unfold ShardBits_Set. case_decide; [done|]. rewrite shard_bit by done. apply Z.lor_nonneg. lia.
  - intros j Hj. rewrite set_testbit, Hb, bool_decide_eq_false_2 by lia. done.
Qed.

Lemma clear_range sb id : 0 ≤ id < 32 → in_u 32 sb → in_u 32 (ShardBits_Clear sb id).
Proof.
  rewrite !in_u32_bits. intros H [H0 Hb]. split.
  - unfold ShardBits_Clear. case_decide; [done|]. apply Z.ldiff_nonneg. by left.
  - intros j Hj. rewrite clear_testbit, Hb by lia. apply andb_false_r.
Qed.

(** The invariant: the slice ascends, and holds the ids whose bits are set. *)
Record wf (si : ShardsInfo) : Prop := {
  wf_sorted : StronglySorted Z.lt (Ids si);
  wf_bits : in_u 32 (shardBits si);
  wf_agree : ∀ i, i ∈ Ids si ↔ 0 ≤ i < 32 ∧ Z.testbit (shardBits si) i = true }.

(** What a shard set means: the sizes of the shards present. *)
Definition contents (si : ShardsInfo) : gmap Z Z :=
  list_to_map ((λ s, (Id s, Size s)) <$> shards si).

Lemma contents_find l i :
  (list_to_map ((λ s, (Id s, Size s)) <$> l) : gmap Z Z) !! i = Size <$> find l i.
Proof.
  induction l as [|s l IH]; [done|]. cbn. case_decide as H.
  - subst i. by rewrite lookup_insert_eq.
  - by rewrite lookup_insert_ne.
Qed.

Lemma elem_find si i : i ∈ Ids si ↔ is_Some (find (shards si) i).
Proof.
  unfold Ids. split.
  - intros H. destruct (find (shards si) i) eqn:E; [done|]. rewrite find_None in E.
    apply list_elem_of_fmap in H as (s & -> & Hs). by destruct (E s Hs).
  - intros [s H]. apply find_Some in H as [H <-]. apply list_elem_of_fmap. eauto.
Qed.

Lemma has_find si id :
  wf si → 0 ≤ id < 32 → ShardBits_Has (shardBits si) id = bool_decide (is_Some (find (shards si) id)).
Proof.
  intros Hw Hid. rewrite has_testbit by done. pose proof (wf_agree _ Hw id) as Ha.
  rewrite elem_find in Ha. case_bool_decide; [by apply Ha|].
  destruct (Z.testbit (shardBits si) id); [|done]. destruct H. by apply Ha.
Qed.

(** The binary search finds the shard, or misses it for good. *)
Lemma findIndex_spec si id :
  wf si →
  (∃ i s, findIndex si id = Z.of_nat i ∧ shards si !! i = Some s ∧ Id s = id ∧
          find (shards si) id = Some s) ∨
  (findIndex si id = -1 ∧ find (shards si) id = None).
Proof.
  intros Hw. pose proof (wf_sorted _ Hw) as Hs. unfold findIndex.
  destruct (search_position (shards si) id Hs) as (i & -> & Hi & H1 & H2). rewrite Nat2Z.id.
  pose proof (position_located _ _ _ Hs Hi H1 H2) as Hl.
  pose proof (located_find _ _ _ _ Hs Hl) as Hf.
  destruct (shards si !! i) as [s|] eqn:Es.
  - case_bool_decide as Hb.
    + left. exists i, s. rewrite decide_True by done. done.
    + right. by rewrite decide_False.
  - by right.
Qed.

Lemma new_wf : wf NewShardsInfo.
Proof.
  split; [constructor|done|]. intros i. cbn. rewrite Z.bits_0. split; [|by intros [_ ?]].
  intros H. by apply not_elem_of_nil in H.
Qed.

(** ** Each operation acts on the contents *)

Lemma set_shard_correct si s :
  wf si → 0 ≤ Id s →
  wf (Set_ si s) ∧
  ∀ i, find (shards (Set_ si s)) i =
    if decide (Id s = i ∧ Id s < MaxShardCount) then Some s else find (shards si) i.
Proof.
  intros Hw H0. unfold Set_. case_decide as Hmax.
  { split; [done|]. intros i. by rewrite decide_False by lia. }
  unfold MaxShardCount in *. rewrite (has_find si (Id s)) by (done || lia).
  pose proof (wf_sorted _ Hw) as Hs. case_bool_decide as Hin.
  - destruct (findIndex_spec si (Id s) Hw) as [(i & e & -> & He & Hk & Hf)|[_ Hn]];
      [|rewrite Hn in Hin; by destruct Hin].
    rewrite decide_True by lia. rewrite Nat2Z.id. split.
    + destruct Hw as [_ Hb Ha]. split; cbn; [..|intros j; rewrite <- Ha]; unfold Ids; cbn;
        rewrite ?(keys_update (shards si) i e s He (eq_sym Hk)); done.
    + intros j. cbn. rewrite (find_update _ i e s j Hs He (eq_sym Hk)). rewrite Hk.
      destruct (decide (Id s = j)); [rewrite decide_True by lia|rewrite decide_False by lia]; done.
  - destruct (search_position (shards si) (Id s + 1) Hs) as (i & -> & Hi & H1 & H2).
    rewrite Nat2Z.id, fill_hole by done.
    assert (find (shards si) (Id s) = None) as Hn
      by (destruct (find (shards si) (Id s)); [destruct Hin; eauto|done]).
    assert (∀ x, x ∈ take i (shards si) → Id x < Id s) as H1'.
    { intros x Hx. specialize (H1 x Hx). pose proof (proj1 (find_None _ _) Hn x) as Hne.
      assert (x ∈ shards si) as Hx' by (rewrite <- (take_drop i (shards si)), elem_of_app; by left).
      specialize (Hne Hx'). lia. }
    assert (∀ y, y ∈ drop i (shards si) → Id s < Id y) as H2'
      by (intros y Hy; specialize (H2 y Hy); lia).
    split; [split; cbn|].
    + unfold Ids. cbn. by apply sorted_insert.
    + apply set_range; [lia|apply Hw].
    + intros j. unfold Ids. cbn. rewrite fmap_app, fmap_cons, elem_of_app, elem_of_cons.
      pose proof (wf_agree _ Hw j) as Ha. unfold Ids in Ha. rewrite <- (take_drop i (shards si)), fmap_app, elem_of_app in Ha.
      destruct (decide (0 ≤ j)) as [Hj|Hj].
      * rewrite set_testbit by lia. destruct (bool_decide_reflect (Id s = j)) as [<-|Hne]; cbn [orb].
        { split; [intros _; split; [lia|done]|intros _; by right; left]. }
        rewrite <- Ha. split; [intros [?|[?|?]]|intros [?|?]]; auto. by subst.
      * split; [|lia]. intros [H|[->|H]]; [|lia|].
        -- pose proof (proj1 Ha (or_introl H)). lia.
        -- pose proof (proj1 Ha (or_intror H)). lia.
    + intros j. cbn. rewrite find_insert by done.
      destruct (decide (Id s = j)); [rewrite decide_True by lia|rewrite decide_False by lia]; done.
Qed.

Lemma delete_shard_correct si id :
  wf si → 0 ≤ id →
  wf (Delete si id) ∧
  ∀ i, find (shards (Delete si id)) i = if decide (id = i) then None else find (shards si) i.
Proof.
  intros Hw H0. unfold Delete. pose proof (wf_sorted _ Hw) as Hs.
  assert (¬ is_Some (find (shards si) id) →
    wf si ∧ ∀ i, find (shards si) i = if decide (id = i) then None else find (shards si) i) as Habs.
  { intros Hn. split; [done|]. intros i. case_decide as E; [|done]. subst i.
    destruct (find (shards si) id); [destruct Hn; eauto|done]. }
  case_decide as Hmax; unfold MaxShardCount in *.
  { apply Habs. rewrite <- elem_find. intros H. apply (wf_agree _ Hw) in H. lia. }
  rewrite (has_find si id) by (done || lia). case_bool_decide as Hin; cbn [negb]; [|by apply Habs].
  destruct (findIndex_spec si id Hw) as [(i & e & -> & He & Hk & Hf)|[_ Hn]];
    [|rewrite Hn in Hin; by destruct Hin].
  rewrite decide_True by lia. rewrite Nat2Z.id.
  replace (Z.to_nat (Z.of_nat i + 1)) with (S i) by lia.
  assert (∀ j, find (take i (shards si) ++ drop (S i) (shards si)) j
               = if decide (id = j) then None else find (shards si) j) as Hfind.
  { intros j. rewrite (find_remove _ i e j Hs He). by rewrite Hk. }
  split; [|done]. split.
  - unfold Ids. cbn. by apply sorted_remove.
  - apply clear_range; [lia|apply Hw].
  - intros j. rewrite elem_find. cbn. rewrite Hfind. pose proof (wf_agree _ Hw j) as Ha.
    rewrite elem_find in Ha. destruct (decide (0 ≤ j)) as [Hj|Hj].
    + rewrite clear_testbit by lia. case_decide as E; [|rewrite bool_decide_eq_false_2 by done; exact Ha].
      rewrite bool_decide_eq_true_2 by done. split; [by intros [? ?]|by intros [_ ?]].
    + split; [|lia]. case_decide; [by intros [? ?]|]. intros Hin'. apply Ha in Hin'. lia.
Qed.

Lemma set_contents si s :
  wf si → 0 ≤ Id s →
  wf (Set_ si s) ∧
  contents (Set_ si s) = if decide (Id s < MaxShardCount) then <[Id s := Size s]> (contents si) else contents si.
Proof.
  intros Hw H0. destruct (set_shard_correct si s Hw H0) as [Hw' Hf]. split; [done|].
  apply map_eq. intros i. unfold contents. rewrite contents_find, Hf.
  destruct (decide (Id s = i)) as [<-|Hne].
  - destruct (decide (Id s < MaxShardCount)) as [Hlt|Hge].
    + by rewrite decide_True, lookup_insert_eq.
    + rewrite decide_False by tauto. symmetry. apply contents_find.
  - rewrite decide_False by tauto. clear Hf.
    case_decide; rewrite ?lookup_insert_ne by done; by rewrite contents_find.
Qed.

Lemma delete_contents si id :
  wf si → 0 ≤ id → wf (Delete si id) ∧ contents (Delete si id) = delete id (contents si).
Proof.
  intros Hw H0. destruct (delete_shard_correct si id Hw H0) as [Hw' Hf]. split; [done|].
  apply map_eq. intros i. unfold contents. rewrite contents_find, Hf. case_decide as E.
  - subst. by rewrite lookup_delete_eq.
  - by rewrite lookup_delete_ne, contents_find.
Qed.

Lemma id_range si s : wf si → s ∈ shards si → 0 ≤ Id s < MaxShardCount.
Proof. intros Hw Hs. apply (wf_agree _ Hw). apply list_elem_of_fmap. eauto. Qed.

Lemma add_contents si other :
  wf si → wf other → wf (Add si other) ∧ contents (Add si other) = contents other ∪ contents si.
Proof.
  intros Hw Ho. unfold Add, contents at 2.
  assert (∀ s, s ∈ shards other → 0 ≤ Id s < MaxShardCount) as Hr by (intros; by eapply id_range).
  pose proof (sorted_nodup _ (wf_sorted _ Ho)) as Hn. unfold Ids in Hn.
  clear Ho. revert si Hw. induction (shards other) as [|s l IH]; intros si Hw.
  { cbn. split; [done|]. by rewrite (left_id_L ∅ (∪)). }
  cbn [foldl fmap list_fmap list_to_map]. cbn in Hn. apply NoDup_cons in Hn as [Hs Hn].
  pose proof (Hr s ltac:(by left)) as Hrs.
  destruct (set_contents si s Hw ltac:(lia)) as [Hw' Hc]. rewrite decide_True in Hc by lia.
  destruct (IH ltac:(intros; apply Hr; by right) Hn (Set_ si s) Hw') as [Hw2 Hc2].
  split; [done|]. rewrite Hc2, Hc. cbn [foldr curry fmap list_fmap].
  rewrite <- insert_union_r; [by rewrite insert_union_l|].
  rewrite contents_find. destruct (find l (Id s)) as [e|] eqn:E; [|done].
  apply find_Some in E as [He Ek]. destruct Hs. rewrite <- Ek. apply list_elem_of_fmap. eauto.
Qed.

Lemma subtract_contents si other :
  wf si → wf other → wf (Subtract si other) ∧ contents (Subtract si other) = contents si ∖ contents other.
Proof.
  intros Hw Ho. unfold Subtract.
  assert (∀ s, s ∈ shards other → 0 ≤ Id s) as Hr by (intros s Hs; pose proof (id_range other s Ho Hs); lia).
  assert (∀ l si, wf si → (∀ s, s ∈ l → 0 ≤ Id s) →
    let r := foldl (λ si s, Delete si (Id s)) si l in
    wf r ∧ ∀ i, find (shards r) i = match find l i with Some _ => None | None => find (shards si) i end) as Hfold.
  { clear. induction l as [|s l IH]; intros si Hw Hr; [done|]. cbn [foldl].
    destruct (delete_shard_correct si (Id s) Hw (Hr s ltac:(by left))) as [Hw' Hf].
    destruct (IH (Delete si (Id s)) Hw') as [Hw2 Hf2]; [intros; apply Hr; by right|].
    split; [done|]. intros i. rewrite Hf2, Hf. cbn. destruct (find l i); case_decide; done. }
  destruct (Hfold (shards other) si Hw Hr) as [Hw' Hf]. split; [done|].
  apply map_eq. intros i. rewrite lookup_difference. unfold contents.
  rewrite !contents_find, Hf. by destruct (find (shards other) i).
Qed.

(** The contents determine the structure. *)
Lemma wf_ext si sj : wf si → wf sj → contents si = contents sj → si = sj.
Proof.
  intros Hi Hj Hc. assert (∀ k, Size <$> find (shards si) k = Size <$> find (shards sj) k) as Hf.
  { intros k. rewrite <- !contents_find. unfold contents in Hc. by rewrite Hc. }
  assert (shards si = shards sj) as Es.
  { apply (sorted_ext (key := Id)); [apply Hi|apply Hj|]. intros k. specialize (Hf k).
    destruct (find (shards si) k) as [[a b]|] eqn:E1, (find (shards sj) k) as [[c d]|] eqn:E2; try done.
    cbn in Hf. injection Hf as ->. apply find_Some in E1 as [_ E1], E2 as [_ E2]. cbn in *. by subst. }
  destruct si as [l b], sj as [l' b']; cbn in *. subst l'. f_equal.
  apply Z.bits_inj'. intros n Hn. pose proof (wf_agree _ Hi n) as Ai. pose proof (wf_agree _ Hj n) as Aj.
  unfold Ids in *; cbn in *. destruct (decide (n < 32)).
  - apply eq_true_iff_eq. rewrite Ai in Aj. split; intros H; apply Aj; split; done || lia.
  - pose proof (wf_bits _ Hi) as Bi. pose proof (wf_bits _ Hj) as Bj. cbn in *.
    rewrite in_u32_bits in Bi, Bj. rewrite (proj2 Bi), (proj2 Bj) by lia. done.
Qed.

(** ** Queries *)

Lemma set_bits_sorted sb : StronglySorted Z.lt (set_bits sb).
Proof.
  unfold set_bits. assert (∀ a n, StronglySorted Z.lt (filter (λ i, Z.testbit sb i = true) (seqZ a (Z.of_nat n)))) as H;
    [|exact (H 0 32%nat)].
  intros a n. revert a. induction n as [|n IH]; intros a; [constructor|].
  rewrite seqZ_cons by lia. replace (Z.pred (Z.of_nat (S n))) with (Z.of_nat n) by lia.
  rewrite filter_cons. case_decide; [|apply IH]. constructor; [apply IH|].
  apply Forall_forall. intros x Hx. apply list_elem_of_filter in Hx as [_ Hx].
  apply elem_of_seqZ in Hx. lia.
Qed.

Lemma ids_set_bits si : wf si → Ids si = set_bits (shardBits si).
Proof.
  intros Hw. assert (∀ l l' : list Z, StronglySorted Z.lt l → StronglySorted Z.lt l' →
    (∀ i, i ∈ l ↔ i ∈ l') → l = l') as Hext.
  { intros l l' Hl Hl' H. apply (sorted_ext (key := λ x : Z, x)); rewrite ?list_fmap_id; [done..|].
    intros k. destruct (SortedList.find (λ x, x) l k) as [a|] eqn:E.
    - apply find_Some in E as [E ->]. symmetry.
      apply (find_elem (key := λ x : Z, x) l' k); [by rewrite list_fmap_id|by apply H].
    - symmetry. rewrite find_None in E |- *. intros e He. apply E, H, He. }
  apply Hext; [apply Hw|apply set_bits_sorted|]. intros i. rewrite (wf_agree _ Hw i).
  unfold set_bits. rewrite list_elem_of_filter, elem_of_seqZ. intuition lia.
Qed.

Lemma count_correct si : wf si → Count si = Z.of_nat (base.size (contents si)).
Proof.
  intros Hw. unfold Count, ShardBits_Count. rewrite <- ids_set_bits by done.
  unfold contents. rewrite map_size_list_to_map.
  - unfold Ids, zlen. by rewrite !length_fmap.
  - rewrite <- list_fmap_compose. exact (sorted_nodup _ (wf_sorted _ Hw)).
Qed.

Lemma has_correct si id : wf si → 0 ≤ id → Has si id = bool_decide (is_Some (contents si !! id)).
Proof.
  intros Hw H0. unfold Has, contents. rewrite contents_find.
  rewrite (bool_decide_ext _ (is_Some (find (shards si) id))) by (by rewrite fmap_is_Some).
  destruct (decide (id < 32)); [by apply has_find|].
  unfold ShardBits_Has, MaxShardCount. rewrite bool_decide_eq_false_2 by lia. cbn [andb].
  symmetry. apply bool_decide_eq_false_2. rewrite <- elem_find. intros H. apply (wf_agree _ Hw) in H. lia.
Qed.

Lemma size_correct si id : wf si → 0 ≤ id → Size_ si id = default 0 (contents si !! id).
Proof.
  intros Hw H0. pose proof (has_correct si id Hw H0) as Hh. unfold Has in Hh.
  unfold Size_. rewrite Hh. unfold contents. rewrite contents_find. case_decide as Hm.
  - destruct (find (shards si) id) as [s|] eqn:E; [|done].
    apply find_Some in E as [E <-]. pose proof (id_range si s Hw E). lia.
  - rewrite (bool_decide_ext _ (is_Some (find (shards si) id)))
      by (by rewrite fmap_is_Some).
    destruct (findIndex_spec si id Hw) as [(i & e & -> & He & Hk & ->)|[-> ->]].
    + rewrite bool_decide_eq_true_2 by eauto. cbn [negb]. rewrite decide_True by lia.
      by rewrite Nat2Z.id, He.
    + rewrite bool_decide_eq_false_2 by (by intros [? ?]). done.
Qed.

(** ** Sequences of changes *)

Inductive op := OSet (s : ShardInfo) | ODelete (id : Z) | ODeleteParity
  | OAdd (other : ShardsInfo) | OSubtract (other : ShardsInfo).

Definition op_ok (x : op) : Prop :=
  match x with
  | OSet s => 0 ≤ Id s
  | ODelete id => 0 ≤ id
  | ODeleteParity => True
  | OAdd o | OSubtract o => wf o
  end.

Definition apply (si : ShardsInfo) (x : op) : ShardsInfo :=
  match x with
  | OSet s => Set_ si s
  | ODelete id => Delete si id
  | ODeleteParity => DeleteParityShards si
  | OAdd o => Add si o
  | OSubtract o => Subtract si o
  end.

Definition apply_spec (m : gmap Z Z) (x : op) : gmap Z Z :=
  match x with
  | OSet s => if decide (Id s < MaxShardCount) then <[Id s := Size s]> m else m
  | ODelete id => delete id m
  | ODeleteParity => filter (λ '(id, _), ¬ (DataShardsCount ≤ id < TotalShardsCount)) m
  | OAdd o => contents o ∪ m
  | OSubtract o => m ∖ contents o
  end.

Lemma delete_parity si :
  wf si → wf (DeleteParityShards si) ∧
  contents (DeleteParityShards si) = apply_spec (contents si) ODeleteParity.
Proof.
  intros Hw. unfold DeleteParityShards. change (seqZ _ _) with [10; 11; 12; 13]. cbn [foldl].
  destruct (delete_contents si 10 Hw) as [W1 E1]; [lia|].
  destruct (delete_contents _ 11 W1) as [W2 E2]; [lia|].
  destruct (delete_contents _ 12 W2) as [W3 E3]; [lia|].
  destruct (delete_contents _ 13 W3) as [W4 E4]; [lia|]. split; [done|].
  rewrite E4, E3, E2, E1. cbn [apply_spec]. apply map_eq. intros i.
  rewrite map_lookup_filter. unfold DataShardsCount, TotalShardsCount, ParityShardsCount.
  destruct (decide (10 ≤ i < 10 + 4)) as [Hi|Hi].
  - assert (i = 10 ∨ i = 11 ∨ i = 12 ∨ i = 13) as Hc by lia.
    transitivity (@None Z).
    + destruct Hc as [->|[->|[->| ->]]]; rewrite ?lookup_delete_eq; [..|done];
        repeat (rewrite lookup_delete_ne by lia); by rewrite ?lookup_delete_eq.
    + destruct (contents si !! i) as [v|]; [|done]. cbn. by rewrite option_guard_False by tauto.
  - rewrite !lookup_delete_ne by lia. destruct (contents si !! i) as [v|]; [|done]. cbn.
    by rewrite option_guard_True by tauto.
Qed.

Lemma apply_correct si x :
  wf si → op_ok x → wf (apply si x) ∧ contents (apply si x) = apply_spec (contents si) x.
Proof.
  intros Hw Hx. destruct x; cbn in *;
    auto using set_contents, delete_contents, add_contents, subtract_contents, delete_parity.
Qed.

Lemma run_correct xs si :
  wf si → Forall op_ok xs →
  wf (foldl apply si xs) ∧ contents (foldl apply si xs) = foldl apply_spec (contents si) xs.
Proof.
  intros Hw Hxs. revert si Hw. induction Hxs as [|x xs Hx _ IH]; intros si Hw; [done|].
  cbn [foldl]. destruct (apply_correct si x Hw Hx) as [Hw' <-]. by apply IH.
Qed.

(** ** Messages *)

Lemma filter_ext_elem {A} (P Q : A → Prop) `{∀ x, Decision (P x), ∀ x, Decision (Q x)} (l : list A) :
  (∀ x, x ∈ l → P x ↔ Q x) → filter P l = filter Q l.
Proof.
  induction l as [|x l IH]; intros H1; [done|]. rewrite !filter_cons.
  rewrite IH by (intros; apply H1; by right). specialize (H1 x ltac:(by left)).
  destruct (decide (P x)), (decide (Q x)); tauto || done.
Qed.

(** The shards a bitmap and its sizes spell out. *)
Lemma message_shards_spec n bitmap id l :
  0 ≤ bitmap → 0 ≤ id → id + Z.of_nat n < 256 →
  Id <$> l = filter (λ i, Z.testbit bitmap (i - id) = true) (seqZ id (Z.of_nat n)) →
  message_shards n bitmap id (Size <$> l) = l.
Proof.
  revert bitmap id l. induction n as [|n IH]; intros bm id l Hb H0 Hid Hl.
  { cbn in Hl. by destruct l. }
  cbn [message_shards]. case_decide as Hz.
  { subst bm. destruct l as [|s l]; [done|].
    assert (Id s ∈ filter (λ i, Z.testbit 0 (i - id) = true) (seqZ id (Z.of_nat (S n)))) as H
      by (rewrite <- Hl; by left).
    apply list_elem_of_filter in H as [H _]. by rewrite Z.bits_0 in H. }
  rewrite seqZ_cons in Hl by lia. replace (Z.pred (Z.of_nat (S n))) with (Z.of_nat n) in Hl by lia.
  rewrite filter_cons, Z.sub_diag, Z.bit0_odd in Hl. replace (Z.succ id) with (id + 1) in Hl by lia.
  rewrite wrap_id by (unfold in_u; change (2 ^ 8) with 256; lia).
  assert (filter (λ i, Z.testbit bm (i - id) = true) (seqZ (id + 1) (Z.of_nat n)) =
          filter (λ i, Z.testbit (Z.shiftr bm 1) (i - (id + 1)) = true) (seqZ (id + 1) (Z.of_nat n))) as E.
  { apply filter_ext_elem. intros i Hi. apply elem_of_seqZ in Hi.
    rewrite Z.shiftr_spec by lia. by replace (i - (id + 1) + 1) with (i - id) by lia. }
  rewrite E in Hl.
  assert (0 ≤ Z.shiftr bm 1) by (by apply Z.shiftr_nonneg).
  destruct (Z.odd bm); [rewrite decide_True in Hl by done|rewrite decide_False in Hl by done].
  - destruct l as [|[i sz] l]; [done|]. cbn in Hl. injection Hl as -> Hl. cbn.
    unfold NewShardInfo. f_equal. apply IH; [done|lia|lia|done].
  - apply IH; [done|lia|lia|done].
Qed.

Lemma message_roundtrip si : wf si → ShardsInfoFromMessage (Some (EcVolumeInfo_ToMessage si)) = si.
Proof.
  intros Hw. destruct si as [l b]. unfold ShardsInfoFromMessage, EcVolumeInfo_ToMessage,
    Bitmap, SizesInt64, Sizes. cbn [EcIndexBits ShardSizes shards shardBits]. f_equal.
  apply message_shards_spec; [apply (wf_bits _ Hw)|lia|lia|].
  pose proof (ids_set_bits _ Hw) as E. unfold Ids, set_bits in E. cbn in E |- *. rewrite E.
  apply filter_ext_elem. intros i _. by rewrite Z.sub_0_r.
Qed.

(** C38: a [ShardsInfo] is a finite map from shard ids to sizes: any sequence of [Set],
    [Delete], [DeleteParityShards], [Add] and [Subtract] calls keeps the slice
    sorted and equal to the bitmap, and has the effect on the map that the calls
    name; [Has], [Size] and [Count] then answer for that map, and [Ids] is its
    domain in ascending order. *)
Theorem shards_info_refines xs :
  Forall op_ok xs →
  let si := foldl apply NewShardsInfo xs in
  let m := foldl apply_spec ∅ xs in
  wf si ∧ contents si = m ∧ Count si = Z.of_nat (base.size m) ∧
  StronglySorted Z.lt (Ids si) ∧
  ∀ id, 0 ≤ id →
    Has si id = bool_decide (is_Some (m !! id)) ∧
    Size_ si id = default 0 (m !! id) ∧
    (id ∈ Ids si ↔ is_Some (m !! id)).
Proof.
  intros Hxs si m. destruct (run_correct xs NewShardsInfo new_wf Hxs) as [Hw Hc].
  fold si in Hw, Hc. change (contents NewShardsInfo) with (∅ : gmap Z Z) in Hc. fold m in Hc.
  rewrite <- Hc. split_and!; [done..|by apply count_correct|apply Hw|].
  intros id H0. split_and!; [by apply has_correct|by apply size_correct|].
  unfold contents. by rewrite contents_find, fmap_is_Some, elem_find.
Qed.

Lemma shards_info_refines_witness :
  Count (foldl apply NewShardsInfo
    [OSet (Shard 11 7); OSet (Shard 3 5); OSet (Shard 3 6); ODeleteParity;
     OAdd (Set_ NewShardsInfo (Shard 31 9))]) = 2.
Proof.
  destruct (shards_info_refines [OSet (Shard 11 7); OSet (Shard 3 5); OSet (Shard 3 6); ODeleteParity;
     OAdd (Set_ NewShardsInfo (Shard 31 9))]) as (_ & _ & -> & _).
  - repeat apply Forall_cons_2; try discriminate; [exact I| |apply Forall_nil_2].
    cbn. apply set_contents; [apply new_wf|discriminate].
  - vm_compute. reflexivity.
Defined.

(** What a volume server tells the master about its shards is what the master
    reads: a shard set written as a bitmap and a compact list of sizes parses back
    to itself, and the shard count of the message is that of the set. *)
Theorem shard_message_roundtrip si :
  wf si →
  ShardsInfoFromMessage (Some (EcVolumeInfo_ToMessage si)) = si ∧
  GetShardCount (Some (EcVolumeInfo_ToMessage si)) = zlen (Ids si).
Proof.
  intros Hw. split; [by apply message_roundtrip|]. cbn. unfold ShardBits_Count, Bitmap.
  by rewrite <- ids_set_bits.
Qed.

Lemma shard_message_roundtrip_witness :
  ShardsInfoFromMessage (Some (Message 10 [70; 90])) = Shards [Shard 1 70; Shard 3 90] 10.
Proof.
  refine (proj1 (shard_message_roundtrip (Shards [Shard 1 70; Shard 3 90] 10) _)).
  change (Shards [Shard 1 70; Shard 3 90] 10)
    with (foldl apply NewShardsInfo [OSet (Shard 1 70); OSet (Shard 3 90)]).
  apply run_correct; [apply new_wf|]. repeat apply Forall_cons_2; try discriminate. apply Forall_nil_2.
Defined.

(** *** The message of a mounted volume *)

Definition shard_set (m : gmap Z EcMessage) (vid : Z) : ShardsInfo := ShardsInfoFromMessage (m !! vid).

(** Each message is that of a well-formed set. *)
Definition messages_ok (m : gmap Z EcMessage) : Prop :=
  ∀ vid, wf (shard_set m vid) ∧
    ∀ msg, m !! vid = Some msg → EcVolumeInfo_ToMessage (shard_set m vid) = msg.

Lemma message_add_spec m s vid :
  messages_ok m → 0 ≤ ShardId s < MaxShardCount →
  messages_ok (message_add m s) ∧
  contents (shard_set (message_add m s) vid) =
    if decide (VolumeId s = vid) then <[ShardId s := ecdFileSize s]> (contents (shard_set m vid))
    else contents (shard_set m vid).
Proof.
  intros Hm Hs.
  assert (ShardsInfoFromMessage (Some (default (Message 0 []) (m !! VolumeId s)))
          = shard_set m (VolumeId s)) as E0.
  { unfold shard_set. by destruct (m !! VolumeId s). }
  destruct (Hm (VolumeId s)) as [Hw _].
  destruct (set_contents _ (NewShardInfo (ShardId s) (ecdFileSize s)) Hw ltac:(cbn; lia)) as [Hw' Hc].
  cbn [Id Size NewShardInfo] in Hc. rewrite decide_True in Hc by lia.
  set (si := Set_ _ _) in *.
  assert (∀ v, shard_set (message_add m s) v = if decide (VolumeId s = v) then si else shard_set m v) as E.
  { intros v. unfold shard_set, message_add. rewrite E0. fold si. case_decide as Hv.
    - subst v. rewrite lookup_insert_eq. by apply message_roundtrip.
    - by rewrite lookup_insert_ne. }
  split.
  - intros v. rewrite E. case_decide as Hv; [|destruct (Hm v) as [Hwv Hmv]; split; [done|]].
    + split; [done|]. intros msg. unfold message_add. rewrite E0. fold si. subst v.
      rewrite lookup_insert_eq. by intros [= <-].
    + intros msg. unfold message_add. rewrite lookup_insert_ne by done. apply Hmv.
  - rewrite E. case_decide as Hv; [subst vid|]; done.
Qed.

(** The messages of a mounted volume list exactly its shards, whatever order they
    were mounted in: for each volume id, the set parsed from its message maps a
    shard id to a size just when such a shard is mounted. *)
Theorem volume_message ev vid id size :
  NoDup ((λ s, (VolumeId s, ShardId s)) <$> ev) →
  (∀ s, s ∈ ev → 0 ≤ ShardId s < MaxShardCount) →
  let si := shard_set (ToVolumeEcShardInformationMessage ev) vid in
  wf si ∧ (contents si !! id = Some size ↔ VShard vid id size ∈ ev).
Proof.
  intros Hn Hr. cbv zeta. unfold ToVolumeEcShardInformationMessage.
  assert (messages_ok (foldl message_add ∅ ev) ∧
    (contents (shard_set (foldl message_add ∅ ev) vid) !! id = Some size ↔ VShard vid id size ∈ ev))
    as [Hm Hi]; [|split; [apply Hm|exact Hi]].
  induction ev as [|s ev IH] using rev_ind.
  { cbn. split; [intros v; unfold shard_set; rewrite lookup_empty; split; [apply new_wf|done]|].
    unfold shard_set. rewrite lookup_empty. split; [done|]. intros H. by apply not_elem_of_nil in H. }
  rewrite fmap_app, NoDup_app in Hn. destruct Hn as (Hn & Hs & _).
  rewrite foldl_app. cbn [foldl].
  destruct IH as [Hm Hi]; [done|intros x Hx; apply Hr, elem_of_app; by left|].
  destruct (message_add_spec _ s vid Hm ltac:(apply Hr, elem_of_app; right; by left)) as [Hm' ->].
  split; [done|]. rewrite elem_of_app, list_elem_of_singleton, <- Hi.
  destruct s as [v i sz]; cbn [VolumeId ShardId ecdFileSize]. case_decide as Hv; [subst vid|].
  - rewrite lookup_insert_Some. split.
    + intros [[<- <-]|[_ H]]; [by right|by left].
    + intros [H|H]; [right|left; by injection H as <- <-]. split; [|done].
      intros ->. apply Hi in H. apply (Hs (v, id)); [|by left].
      apply list_elem_of_fmap. by exists (VShard v id size).
  - split; [by left|]. intros [H|H]; [done|]. by injection H as <- <- <-.
Qed.

Lemma volume_message_witness :
  contents (shard_set (ToVolumeEcShardInformationMessage [VShard 5 3 30; VShard 5 1 10]) 5) !! 1
  = Some 10.
Proof.
  apply (volume_message [VShard 5 3 30; VShard 5 1 10] 5 1 10).
  - apply NoDup_cons. split; [|apply NoDup_singleton]. cbn. rewrite list_elem_of_singleton. discriminate.
  - intros s Hs. apply elem_of_cons in Hs as [->|Hs]; [|apply list_elem_of_singleton in Hs as ->];
      (split; [discriminate|reflexivity]).
  - right. by left.
Defined.

(** *** The order of the mounted shards *)

Lemma shard_cmp_nonneg a b : 0 ≤ shard_cmp a b.
Proof. unfold shard_cmp. case_match; apply wrap_range; lia. Qed.

Lemma insertion_sort_stuck {A} (cmp : A → A → Z) l :
  (∀ a b, 0 ≤ cmp a b) → Slices.insertion_sort cmp l = l.
Proof.
  intros Hc. unfold Slices.insertion_sort.
  assert (∀ acc, foldl (λ acc x, Slices.sift cmp x acc) acc l = reverse l ++ acc) as E.
  { induction l as [|x l IH]; intros acc; [done|]. cbn [foldl]. rewrite IH, reverse_cons.
    rewrite <- (assoc_L (++)). f_equal. destruct acc as [|y acc]; [done|]. cbn.
    rewrite decide_False; [done|]. specialize (Hc x y). lia. }
  by rewrite E, app_nil_r, reverse_involutive.
Qed.

(** [AddEcVolumeShard] sorts nothing: its comparison subtracts unsigned numbers,
    so it is never negative, and up to twelve mounted shards stay in the order in
    which they were added. *)
Theorem add_shard_keeps_order sort_long ev s :
  zlen ev < 12 → ShardId s ∉ ShardIdList ev →
  AddEcVolumeShard sort_long ev s = (ev ++ [s], true).
Proof.
  intros Hl Hs. unfold AddEcVolumeShard. rewrite decide_False by done.
  unfold Slices.SortFunc. rewrite decide_True by (zl; lia).
  by rewrite insertion_sort_stuck by apply shard_cmp_nonneg.
Qed.

(** The shards 3 and 1 stay out of order, and the set built from them with
    [ShardsInfoFromVolume] holds shard 1 in its bitmap but not in its search. *)
Lemma add_shard_keeps_order_witness :
  AddEcVolumeShard (λ _ l, l) [VShard 5 3 30] (VShard 5 1 10) = ([VShard 5 3 30; VShard 5 1 10], true) ∧
  Has (ShardsInfoFromVolume [VShard 5 3 30; VShard 5 1 10]) 1 = true ∧
  Size_ (ShardsInfoFromVolume [VShard 5 3 30; VShard 5 1 10]) 1 = 0.
Proof.
  split; [|split; vm_compute; reflexivity].
  apply (add_shard_keeps_order (λ _ l, l) [VShard 5 3 30] (VShard 5 1 10)); [reflexivity|].
  cbn. rewrite list_elem_of_singleton. discriminate.
Defined.

End EcShardsSpec.
