(* ===== verification/EcIndex.v ===== *)
(** * EcIndex: the sorted index of an erasure-coded volume
    (weed/storage/erasure_coding/ec_volume.go, ec_volume_delete.go, ec_decoder.go)

    An .ecx file holds the live needles of a sealed volume in ascending key order.
    A lookup is a binary search on the file; a deletion overwrites the size of the
    row with a tombstone and appends the key to the .ecj journal; a rebuild replays
    a journal on an index. *)

From S2P Require Import Prelude GoStd Bytes SortedList StorageTypes Needle Backend SuperBlock Idx MemDb.

Module EcIndex.
Import NeedleValue.

Abbreviation file := OsFile.os_file.

(** The file and the named results [offset], [size] and [err]. *)
Record result := Res {
  r_file : file; r_offset : StorageTypes.Offset.t; r_size : Z; r_err : option go_error }.

Section search.
Context (processNeedleFn : option (file → Z → file * option go_error)) (needleId ecxFileSize : Z).

(** [for l < h { ... }]; the interval halves, so its length is enough fuel.
    [offset] and [size] keep the last row read. *)
Fixpoint search_loop (fuel : nat) (ecxFile : file) (l h : Z) (offset : StorageTypes.Offset.t) (size : Z)
    : res result :=
  match fuel with
  | O => Panic
  | S fuel =>
      if decide (l < h) then
        let m := (l + h) `div` 2 in
        let '(buf, err) := OsFile.ReadAt (OsFile.f_data ecxFile) (m * NeedleMapEntrySize) NeedleMapEntrySize in
        if bool_decide (err ≠ None) && negb (bool_decide (zlen buf = NeedleMapEntrySize)) then
          Ok (Res ecxFile StorageTypes.Offset.zero TombstoneFileSize
                (Some (Errorf "ecx file %d read at %d: %v")))
        else
          nv ← Idx.IdxFileEntry buf;
          let offset := Offset nv in
          let size := Size nv in
          if decide (Key nv = needleId) then
            match processNeedleFn with
            | Some fn =>
                let '(ecxFile, err) := fn ecxFile (m * NeedleMapEntrySize) in
                Ok (Res ecxFile offset size err)
            | None => Ok (Res ecxFile offset size None)
            end
          else if decide (Key nv < needleId) then search_loop fuel ecxFile (m + 1) h offset size
          else search_loop fuel ecxFile l m offset size
      else Ok (Res ecxFile offset size (Some NotFoundError))
  end.

Definition SearchNeedleFromSortedIndex (ecxFile : file) : res result :=
  search_loop (S (Z.to_nat ecxFileSize)) ecxFile 0 (Z.quot ecxFileSize NeedleMapEntrySize)
    StorageTypes.Offset.zero 0.
End search.

Definition FindNeedleFromEcx (ecxFile : file) (ecxFileSize needleId : Z) : res result :=
  SearchNeedleFromSortedIndex None needleId ecxFileSize ecxFile.

(** ** Deletions *)

Definition MarkNeedleDeleted (f : file) (offset : Z) : file * option go_error :=
  match Size.SizeToBytes (zeros SizeSize) TombstoneFileSize with
  | Ok b =>
      let '(f, n, err) := OsFile.WriteAt f b (offset + NeedleIdSize + StorageTypes.Offset.OffsetSize) in
      match err with
      | Some _ => (f, Some (Errorf "sorted needle write error: %w"))
      | None => if decide (n = SizeSize) then (f, None)
                else (f, Some (Errorf "sorted needle written %d bytes, expecting %d"))
      end
  | _ => (f, Some (Errorf "sorted needle write error: %w"))
  end.

(** The index and the journal of a mounted volume. *)
Record ec_files := EcF { ecx : file; ecj : file }.

(** The journal is written at its end; its errors are ignored. *)
Definition DeleteNeedleFromEcx (ev : ec_files) (ecxFileSize needleId : Z)
    : res (ec_files * option go_error) :=
  r ← SearchNeedleFromSortedIndex (Some MarkNeedleDeleted) needleId ecxFileSize (ecx ev);
  let ev := EcF (r_file r) (ecj ev) in
  match r_err r with
  | Some err => if decide (err = NotFoundError) then Ok (ev, None) else Ok (ev, Some err)
  | None =>
      b ← NeedleIdToBytes (zeros NeedleIdSize) needleId;
      let '(j, _, _) := OsFile.WriteAt (ecj ev) b (zlen (OsFile.f_data (ecj ev))) in
      Ok (EcF (ecx ev) j, None)
  end.

(** [for { n, _ := ecjFile.Read(buf); if n != NeedleIdSize { break }; ... }] over
    what is left of the journal. *)
Fixpoint replay_loop (fuel : nat) (ecxFileSize : Z) (journal : bytes) (ecxFile : file)
    : res (file * option go_error) :=
  match fuel with
  | O => Panic
  | S fuel =>
      let buf := sub journal 0 NeedleIdSize in
      if decide (zlen buf ≠ NeedleIdSize) then Ok (ecxFile, None)
      else
        needleId ← BytesToNeedleId buf;
        r ← SearchNeedleFromSortedIndex (Some MarkNeedleDeleted) needleId ecxFileSize ecxFile;
        match r_err r with
        | Some err =>
            if decide (err = NotFoundError)
            then replay_loop fuel ecxFileSize (drop (Z.to_nat NeedleIdSize) journal) (r_file r)
            else Ok (r_file r, Some err)
        | None => replay_loop fuel ecxFileSize (drop (Z.to_nat NeedleIdSize) journal) (r_file r)
        end
  end.

(** The journal is removed at the end, and kept when the replay fails. *)
Definition RebuildEcxFile (ecxFile : file) (journal : option bytes)
    : res (file * option bytes * option go_error) :=
  match journal with
  | None => Ok (ecxFile, None, None)
  | Some j =>
      '(f, err) ← replay_loop (S (length j)) (zlen (OsFile.f_data ecxFile)) j ecxFile;
      match err with
      | Some e => Ok (f, Some j, Some e)
      | None => Ok (f, None, None)
      end
  end.

(** ** Walking the files *)
Section iterate.
Context {S : Type}.

(** [for { n, err := ecxFile.Read(buf); ... }]; a callback that returns [io.EOF]
    stops the walk without an error. *)
Fixpoint ecx_loop (fuel : nat) (fn : NeedleValue.t → S → S * option go_error) (b : bytes) (s : S)
    : S * res (option go_error) :=
  match fuel with
  | O => (s, Panic)
  | Datatypes.S fuel =>
      let buf := sub b 0 NeedleMapEntrySize in
      let err := if decide (zlen buf = 0) then Some EOF else None in
      if decide (zlen buf ≠ NeedleMapEntrySize) then
        (s, Ok (if decide (err = Some EOF) then None else err))
      else
        match Idx.IdxFileEntry buf with
        | Ok nv =>
            match fn nv s with
            | (s, Some e) => (s, Ok (if decide (e = EOF) then None else Some e))
            | (s, None) => ecx_loop fuel fn (drop (Z.to_nat NeedleMapEntrySize) b) s
            end
        | Fail e => (s, Fail e)
        | Panic => (s, Panic)
        end
  end.
Definition iterateEcxFile (fn : NeedleValue.t → S → S * option go_error) (b : bytes) (s : S)
    : S * res (option go_error) := ecx_loop (Datatypes.S (length b)) fn b s.

Fixpoint ecj_loop (fuel : nat) (fn : Z → S → S * option go_error) (b : bytes) (s : S)
    : S * res (option go_error) :=
  match fuel with
  | O => (s, Panic)
  | Datatypes.S fuel =>
      let buf := sub b 0 NeedleIdSize in
      let err := if decide (zlen buf = 0) then Some EOF else None in
      if decide (zlen buf ≠ NeedleIdSize) then
        (s, Ok (if decide (err = Some EOF) then None else err))
      else
        match BytesToNeedleId buf with
        | Ok key =>
            match fn key s with
            | (s, Some e) => (s, Ok (if decide (e = EOF) then None else Some e))
            | (s, None) => ecj_loop fuel fn (drop (Z.to_nat NeedleIdSize) b) s
            end
        | Fail e => (s, Fail e)
        | Panic => (s, Panic)
        end
  end.
(** A missing journal is empty. *)
Definition iterateEcjFile (fn : Z → S → S * option go_error) (journal : option bytes) (s : S)
    : S * res (option go_error) :=
  match journal with
  | None => (s, Ok None)
  | Some b => ecj_loop (Datatypes.S (length b)) fn b s
  end.
End iterate.

Definition live_step (nv : NeedleValue.t) (hasLive : bool) : bool * option go_error :=
  if negb (Size.IsDeleted (Size nv)) then (true, Some EOF) else (hasLive, None).
Definition HasLiveNeedles (ecxFile : bytes) : bool * res (option go_error) :=
  iterateEcxFile live_step ecxFile false.

Definition dat_size_step (version : Z) (nv : NeedleValue.t) (datSize : Z) : Z * option go_error :=
  if Size.IsDeleted (Size nv) then (datSize, None)
  else
    let entryStopOffset :=
      StorageTypes.Offset.ToActualOffset (Offset nv) + Needle.GetActualSize (Size nv) version in
    (if decide (datSize < entryStopOffset) then entryStopOffset else datSize, None).

Section superblock.
Context {X : Type} (Unmarshal : bytes → X * option go_error).
Context {F : Type} `{BackendStorageFile F}.

(** The version in the super block at the start of shard 0. *)
Definition readEcVolumeVersion (ec00 : F) : res Z :=
  match SuperBlock.ReadSuperBlock Unmarshal ec00 with
  | Ok sb => Ok (SuperBlock.Version sb)
  | Fail _ => Fail (Errorf "read ec volume %s superblock: %v")
  | Panic => Panic
  end.

Definition FindDatFileSize (ec00 : F) (ecxFile : bytes) : res (Z * option go_error) :=
  match readEcVolumeVersion ec00 with
  | Ok version =>
      let '(datSize, err) := iterateEcxFile (dat_size_step version) ecxFile SuperBlock.SuperBlockSize in
      e ← err; Ok (datSize, e)
  | Fail _ => Ok (0, Some (Errorf "read ec volume %s version: %v"))
  | Panic => Panic
  end.
End superblock.

(** [io.Copy] of the index, then a deletion row per journal entry. *)
Definition idx_step (key : Z) (out : res bytes) : res bytes * option go_error :=
  ((o ← out; b ← NeedleValue.ToBytes key StorageTypes.Offset.zero TombstoneFileSize; Ok (o ++ b)), None).
Definition WriteIdxFileFromEcIndex (ecxFile : bytes) (journal : option bytes)
    : res bytes * res (option go_error) :=
  iterateEcjFile idx_step journal (Ok ecxFile).

(** ** Sorting an index *)
Section sort.
Context {D : Type} `{LevelDb D}.

(** The errors of [cm.Set] and [cm.Delete] are dropped. *)
Definition read_step (nv : NeedleValue.t) (st : res D) : res D * option go_error :=
  match st with
  | Ok cm =>
      match (if negb (StorageTypes.Offset.IsZero (Offset nv)) && negb (Size.IsDeleted (Size nv))
             then MemDb.Set_ cm (Key nv) (Offset nv) (Size nv)
             else MemDb.Delete cm (Key nv)) with
      | Ok (cm, _) => (Ok cm, None)
      | Fail e => (Fail e, None)
      | Panic => (Panic, None)
      end
  | st => (st, None)
  end.
Definition readNeedleMap (indexFile : bytes) : res D * res (option go_error) :=
  Idx.WalkIndexFile read_step indexFile 0 (Ok MemDb.NewMemDb).

Definition write_step (value : NeedleValue.t) (out : res bytes) : res bytes * option go_error :=
  ((o ← out; b ← NeedleValue.NeedleValue_ToBytes value; Ok (o ++ b)), None).

Definition WriteSortedFileFromIdx (indexFile : bytes) : res bytes :=
  let '(nm, err) := readNeedleMap indexFile in
  cm ← nm;
  e ← err;
  match e with
  | Some _ => Fail (Errorf "readNeedleMap: %w")
  | None =>
      '(ecxFile, err) ← MemDb.AscendingVisit write_step cm (Ok []);
      match err with
      | Some _ => Fail (Errorf "failed to visit idx file: %w")
      | None => ecxFile
      end
  end.
End sort.

End EcIndex.

(** ** Sorted rows *)
Module EcIndexSpec.
Import NeedleValue IdxRows EcIndex.

Abbreviation find := (SortedList.find Key).
Abbreviation keys l := (Key <$> l).

(** What [WriteSortedFileFromIdx] leaves behind: rows in range, keys ascending. *)
Definition index_ok (nvs : list NeedleValue.t) : Prop :=
  StronglySorted Z.lt (keys nvs) ∧ Forall NeedleValue.wf nvs.

(** Where the search ends. *)
Definition search_out (fn : option (file → Z → file * option go_error)) (f : file)
    (nvs : list NeedleValue.t) (id : Z) (r : result) : Prop :=
  match find nvs id with
  | Some nv => ∃ m, nvs !! m = Some nv ∧
      r = match fn with
          | Some fn => let '(f, err) := fn f (Z.of_nat m * 16) in Res f (Offset nv) (Size nv) err
          | None => Res f (Offset nv) (Size nv) None
          end
  | None => r_file r = f ∧ r_err r = Some NotFoundError
  end.

Lemma sorted_search_spec fn f nvs id fuel l h o s :
  index_ok nvs → OsFile.f_data f = rows nvs →
  0 ≤ l ≤ h → h ≤ zlen nvs → h - l < Z.of_nat fuel →
  (∀ i nv, nvs !! i = Some nv → Z.of_nat i < l → Key nv < id) →
  (∀ i nv, nvs !! i = Some nv → h ≤ Z.of_nat i → id < Key nv) →
  ∃ r, search_loop fn id fuel f l h o s = Ok r ∧ search_out fn f nvs id r.
Proof.
  intros [Hs Hw] Hf. revert l h o s. induction fuel as [|fuel IH]; intros l h o s Hl Hh Hfuel Hlo Hhi; [lia|].
  cbn [search_loop]. case_decide as Hlt.
  - assert (l ≤ (l + h) `div` 2 < h) as Hm by mlia. set (m := (l + h) `div` 2) in *.
    destruct (lookup_lt_is_Some_2 nvs (Z.to_nat m)) as [nv Hnv]; [unfold zlen in Hh; lia|].
    change NeedleMapEntrySize with 16. rewrite Hf.
    pose proof (row_read nvs _ nv Hnv) as Hr. rewrite Z2Nat.id in Hr by lia. rewrite Hr.
    rewrite bool_decide_eq_false_2 by (by intros ?). cbn [andb].
    rewrite IdxSpec.IdxFileEntry_ok, bind_ok by done.
    rewrite IdxSpec.entry_of_row by (by eapply Forall_lookup_1). case_decide as Hk; [|case_decide as Hk2].
    + exists (match fn with
              | Some g => let '(f, err) := g f (m * 16) in Res f (Offset nv) (Size nv) err
              | None => Res f (Offset nv) (Size nv) None
              end).
      split; [destruct fn as [g|]; [by destruct (g f (m * 16))|done]|].
      unfold search_out. rewrite <- Hk, (find_at nvs _ nv Hs Hnv).
      exists (Z.to_nat m). split; [done|]. by rewrite Z2Nat.id by lia.
    + apply IH; [lia|lia|lia| |done]. intros i x Hx Hi.
      destruct (decide (i = Z.to_nat m)) as [->|]; [rewrite Hnv in Hx; by injection Hx as <-|].
      pose proof (sorted_lookup nvs _ _ x nv Hs Hx Hnv ltac:(lia)). lia.
    + apply IH; [lia|lia|lia|done|]. intros i x Hx Hi.
      destruct (decide (i = Z.to_nat m)) as [->|]; [rewrite Hnv in Hx; injection Hx as <-; lia|].
      pose proof (sorted_lookup nvs _ _ nv x Hs Hnv Hx ltac:(lia)). lia.
  - eexists. split; [done|]. unfold search_out.
    assert (find nvs id = None) as ->; [|done]. apply find_None. intros nv Hin E.
    apply list_elem_of_lookup_1 in Hin as [i Hi].
    destruct (decide (Z.of_nat i < l)); [specialize (Hlo i nv Hi)|specialize (Hhi i nv Hi)]; lia.
Qed.

Lemma search_spec fn f nvs id :
  index_ok nvs → OsFile.f_data f = rows nvs →
  ∃ r, SearchNeedleFromSortedIndex fn id (zlen (rows nvs)) f = Ok r ∧ search_out fn f nvs id r.
Proof.
  intros Hok Hf. unfold SearchNeedleFromSortedIndex. change NeedleMapEntrySize with 16.
  pose proof (zlen_nonneg nvs). rewrite Z.quot_div_nonneg by (rewrite ?zlen_rows; lia).
  rewrite zlen_rows, Z.div_mul by lia.
  apply sorted_search_spec; [done|done|lia|lia|lia|intros; lia|].
  intros i nv Hi Hge. apply lookup_lt_Some in Hi. unfold zlen in Hge. lia.
Qed.

(** ** Marking a row *)

Definition tombstone (nv : NeedleValue.t) : NeedleValue.t := Mk (Key nv) (Offset nv) TombstoneFileSize.

Lemma mark_spec f nvs m nv :
  OsFile.f_data f = rows nvs → OsFile.f_limit f = None → nvs !! m = Some nv →
  MarkNeedleDeleted f (Z.of_nat m * 16) = (OsFile.OsF (rows (<[m := tombstone nv]> nvs)) None, None).
Proof.
  intros Hf Hlim Hm. unfold MarkNeedleDeleted.
  change (Size.SizeToBytes (zeros SizeSize) TombstoneFileSize) with (Ok (be_split 4 (u32 TombstoneFileSize))).
  cbv iota beta. set (b := be_split 4 _). change NeedleIdSize with 8. change StorageTypes.Offset.OffsetSize with 4.
  unfold OsFile.WriteAt. rewrite decide_False by lia. unfold OsFile.fits. rewrite Hlim.
  change (zlen b) with 4.
  rewrite (decide_True (P := 0 < 4)), (decide_False (P := 4 < 4)), (decide_True (P := 4 = SizeSize)) by done.
  rewrite Hf. f_equal. f_equal. unfold OsFile.put. change (zlen (sub b 0 4)) with 4.
  change (sub b 0 4) with b.
  pose proof (zlen_rows_take nvs m nv Hm) as Ht. pose proof (lookup_lt_Some _ _ _ Hm) as Hlt.
  assert (zeros (Z.of_nat m * 16 + 8 + 4 + 4 - zlen (rows nvs)) = []) as ->.
  { unfold zeros. rewrite Z2Nat.nonpos; [done|]. rewrite zlen_rows. unfold zlen. lia. }
  rewrite app_nil_r, (rows_split nvs m nv Hm).
  assert (rows (<[m := tombstone nv]> nvs) = rows (take m nvs) ++ row (tombstone nv) ++ rows (drop (S m) nvs)) as ->.
  { by rewrite insert_take_drop, rows_app. }
  set (p := rows (take m nvs)) in *. set (q := rows (drop (S m) nvs)).
  unfold splice. replace (Z.to_nat (Z.of_nat m * 16 + 8 + 4)) with (length p + 12)%nat
    by (unfold zlen in Ht; lia).
  change (length b) with 4%nat. rewrite take_app_add', <- drop_drop by done.
  rewrite drop_app_add', <- (assoc_L (++)) by done. by destruct nv as [k [x3 x2 x1 x0] s].
Qed.

(** ** Deleting *)

(** The effect of a deletion on the rows. *)
Definition mark (id : Z) (nvs : list NeedleValue.t) : list NeedleValue.t :=
  (λ nv, if decide (Key nv = id) then tombstone nv else nv) <$> nvs.

Lemma keys_mark id nvs : keys (mark id nvs) = keys nvs.
Proof.
  unfold mark. rewrite <- list_fmap_compose. apply list_fmap_ext. intros i nv _. cbn.
  by case_decide.
Qed.

Lemma mark_ok id nvs : index_ok nvs → index_ok (mark id nvs).
Proof.
  intros [Hs Hw]. split; [by rewrite keys_mark|]. apply Forall_fmap. eapply Forall_impl; [done|].
  intros nv (H1 & H2 & H3). cbn. case_decide; [|done]. split_and!; [done..|split; [discriminate|reflexivity]].
Qed.

Lemma length_mark id nvs : length (mark id nvs) = length nvs.
Proof. apply length_fmap. Qed.

Lemma find_mark id nvs k :
  find (mark id nvs) k = if decide (k = id) then tombstone <$> find nvs k else find nvs k.
Proof.
  induction nvs as [|nv nvs IH]; [by case_decide|]. cbn.
  destruct (decide (Key nv = id)) as [E|E]; cbn [tombstone Key];
    destruct (decide (Key nv = k)) as [E'|E']; rewrite ?IH.
  - by rewrite decide_True by congruence.
  - done.
  - by rewrite decide_False by congruence.
  - done.
Qed.

Lemma mark_absent id nvs : find nvs id = None → mark id nvs = nvs.
Proof.
  intros H. rewrite find_None in H. unfold mark. rewrite <- (list_fmap_id nvs) at 2.
  apply list_fmap_ext. intros i nv Hi. rewrite decide_False; [done|].
  apply H. by eapply list_elem_of_lookup_2.
Qed.

Lemma mark_insert id nvs m nv :
  index_ok nvs → nvs !! m = Some nv → Key nv = id → <[m := tombstone nv]> nvs = mark id nvs.
Proof.
  intros [Hs _] Hm <-. apply list_eq. intros i. unfold mark. rewrite list_lookup_fmap.
  destruct (decide (i = m)) as [->|Hne].
  - rewrite list_lookup_insert_eq by (by eapply lookup_lt_Some). rewrite Hm. cbn.
    by rewrite decide_True.
  - rewrite list_lookup_insert_ne by done. destruct (nvs !! i) as [x|] eqn:Hx; [|done]. cbn.
    rewrite decide_False; [done|]. intros E.
    destruct (decide (i < m)%nat);
      [pose proof (sorted_lookup nvs i m x nv Hs Hx Hm ltac:(lia))
      |pose proof (sorted_lookup nvs m i nv x Hs Hm Hx ltac:(lia))]; lia.
Qed.

(** An unlimited file. *)
Definition disk (b : bytes) : file := OsFile.OsF b None.

(** The marking search changes one row, or nothing. *)
Lemma mark_search nvs id :
  index_ok nvs →
  ∃ r, SearchNeedleFromSortedIndex (Some MarkNeedleDeleted) id (zlen (rows nvs)) (disk (rows nvs)) = Ok r ∧
    r_file r = disk (rows (mark id nvs)) ∧
    r_err r = if decide (is_Some (find nvs id)) then None else Some NotFoundError.
Proof.
  intros Hok. destruct (search_spec (Some MarkNeedleDeleted) (disk (rows nvs)) nvs id Hok eq_refl)
    as (r & E & Hr). exists r. split; [done|]. unfold search_out in Hr.
  destruct (find nvs id) as [nv|] eqn:Ef.
  - destruct Hr as (m & Hm & ->). apply find_Some in Ef as [_ Hk].
    rewrite (mark_spec _ nvs m nv) by done. rewrite (mark_insert id) by done. by rewrite decide_True.
  - destruct Hr as [-> ->]. rewrite mark_absent by done. by rewrite decide_False by (by intros [? ?]).
Qed.

Lemma zlen_rows_mark id nvs : zlen (rows (mark id nvs)) = zlen (rows nvs).
Proof. rewrite !zlen_rows. unfold zlen. by rewrite length_mark. Qed.

(** One deletion: the row is marked and the key is journalled, if it is there. *)
Lemma delete_one nvs j id :
  index_ok nvs → in_u 64 id →
  DeleteNeedleFromEcx (EcF (disk (rows nvs)) (disk j)) (zlen (rows nvs)) id =
    Ok (EcF (disk (rows (mark id nvs)))
            (disk (if decide (is_Some (find nvs id)) then j ++ be_split 8 id else j)), None).
Proof.
  intros Hok Hid. unfold DeleteNeedleFromEcx. cbn [ecx ecj].
  destruct (mark_search nvs id Hok) as (r & -> & Hf & He). rewrite bind_ok, Hf, He.
  case_decide as Hin; [|by rewrite decide_True].
  unfold NeedleIdToBytes. rewrite be_store_64, bind_ok by done. cbn [ecx ecj].
  rewrite OsFile.WriteAt_end by done. done.
Qed.

(** A sequence of deletions. *)
Fixpoint delete_all (ev : ec_files) (size : Z) (ids : list Z) : res ec_files :=
  match ids with
  | [] => Ok ev
  | id :: ids =>
      '(ev, err) ← DeleteNeedleFromEcx ev size id;
      match err with Some e => Fail e | None => delete_all ev size ids end
  end.

Definition marks (ids : list Z) (nvs : list NeedleValue.t) : list NeedleValue.t :=
  foldl (λ l id, mark id l) nvs ids.
Definition journal (nvs : list NeedleValue.t) (ids : list Z) : bytes :=
  concat (be_split 8 <$> filter (λ id, is_Some (find nvs id)) ids).

Lemma marks_ok ids nvs : index_ok nvs → index_ok (marks ids nvs).
Proof. revert nvs. induction ids as [|id ids IH]; intros nvs H; [done|]. apply (IH (mark id nvs)), mark_ok, H. Qed.

Lemma find_marked id nvs k : is_Some (find (mark id nvs) k) ↔ is_Some (find nvs k).
Proof. rewrite find_mark. case_decide; [by rewrite fmap_is_Some|done]. Qed.

Lemma find_marks ids nvs k :
  find (marks ids nvs) k = if decide (k ∈ ids) then tombstone <$> find nvs k else find nvs k.
Proof.
  revert nvs. induction ids as [|id ids IH]; intros nvs.
  { by rewrite decide_False by apply not_elem_of_nil. }
  change (marks (id :: ids) nvs) with (marks ids (mark id nvs)). rewrite IH, find_mark.
  destruct (decide (k = id)) as [->|Hne].
  - rewrite (decide_True (P := id ∈ id :: ids)) by (by left).
    case_decide; [|done]. by destruct (find nvs id).
  - destruct (decide (k ∈ ids)).
    + by rewrite decide_True by (by right).
    + rewrite decide_False; [done|]. rewrite elem_of_cons. tauto.
Qed.

Lemma zlen_rows_marks ids nvs : zlen (rows (marks ids nvs)) = zlen (rows nvs).
Proof. revert nvs. induction ids as [|id ids IH]; intros nvs; [done|]. etransitivity; [apply (IH (mark id nvs))|apply zlen_rows_mark]. Qed.

Lemma delete_many ids nvs j size :
  index_ok nvs → Forall (in_u 64) ids → size = zlen (rows nvs) →
  delete_all (EcF (disk (rows nvs)) (disk j)) size ids =
    Ok (EcF (disk (rows (marks ids nvs))) (disk (j ++ journal nvs ids))).
Proof.
  intros Hok Hids. revert nvs j Hok. induction Hids as [|id ids Hid _ IH]; intros nvs j Hok ->; cbn [delete_all].
  { unfold journal. cbn. by rewrite app_nil_r. }
  rewrite delete_one, bind_ok by done. rewrite IH by (by apply mark_ok || rewrite zlen_rows_mark).
  unfold marks at 2. cbn [foldl]. do 3 f_equal. unfold journal. rewrite filter_cons.
  assert (filter (λ k, is_Some (find (mark id nvs) k)) ids = filter (λ k, is_Some (find nvs k)) ids) as ->
    by (apply list_filter_iff; intros; apply find_marked).
  case_decide; [|done]. cbn. by rewrite <- (assoc_L (++)).
Qed.

Lemma length_journal (l : list Z) : length (concat (be_split 8 <$> l)) = (8 * length l)%nat.
Proof.
  induction l as [|x l IH]; [done|]. rewrite fmap_cons. cbn [concat].
  rewrite length_app, length_be_split, IH. cbn. lia.
Qed.

(** Replaying a journal marks its keys. *)
Lemma replay_spec fuel nvs ids size :
  index_ok nvs → Forall (in_u 64) ids → size = zlen (rows nvs) → (length ids < fuel)%nat →
  replay_loop fuel size (concat (be_split 8 <$> ids)) (disk (rows nvs)) = Ok (disk (rows (marks ids nvs)), None).
Proof.
  intros Hok Hids. revert fuel nvs Hok. induction Hids as [|id ids Hid _ IH]; intros fuel nvs Hok -> Hf;
    (destruct fuel as [|fuel]; [cbn in Hf; lia|]); cbn [replay_loop]; [done|].
  change (concat (be_split 8 <$> id :: ids)) with (be_split 8 id ++ concat (be_split 8 <$> ids)).
  set (rest := concat (be_split 8 <$> ids)).
  assert (sub (be_split 8 id ++ rest) 0 NeedleIdSize = be_split 8 id) as ->
    by (rewrite sub_app_l by done; by apply sub_all).
  rewrite decide_False by (rewrite zlen_be_split; tauto).
  unfold BytesToNeedleId, BytesToUint64. rewrite load_split, bind_ok by (done || lia).
  destruct (mark_search nvs id Hok) as (r & -> & Er & Ee). rewrite bind_ok, Ee, Er.
  change (drop (Z.to_nat NeedleIdSize) (be_split 8 id ++ rest)) with rest.
  assert (replay_loop fuel (zlen (rows nvs)) rest (disk (rows (mark id nvs)))
          = Ok (disk (rows (marks (id :: ids) nvs)), None)) as E.
  { apply IH; [by apply mark_ok|by rewrite zlen_rows_mark|cbn in Hf; lia]. }
  by case_decide; [|rewrite decide_True by done].
Qed.

(** ** Sorting *)
Section sort.
Context {D : Type} `{DL : LevelDbLaws D}.
Import MemDbSpec.

Lemma read_rows nvs d m :
  holds d m → Forall NeedleValue.wf nvs →
  ∃ d', IdxSpec.visit read_step nvs (Ok d) = (Ok d', None) ∧ holds d' (foldl row_effect m nvs).
Proof.
  intros Hh Hf. revert d m Hh. induction Hf as [|nv nvs Hw Hf IH]; intros d m Hh; [by exists d|].
  cbn [IdxSpec.visit foldl]. unfold read_step at 1.
  assert (∃ d', (if negb (StorageTypes.Offset.IsZero (Offset nv)) && negb (Size.IsDeleted (Size nv))
                 then MemDb.Set_ d (Key nv) (Offset nv) (Size nv) else MemDb.Delete d (Key nv)) = Ok (d', None)
                ∧ holds d' (row_effect m nv)) as (d' & -> & Hd').
  { unfold row_effect, live. destruct (_ && _); [by apply set_holds|apply delete_holds; [done|apply Hw]]. }
  by apply IH.
Qed.

Lemma write_rows nvs out : IdxSpec.visit write_step nvs (Ok out) = (Ok (out ++ rows nvs), None).
Proof.
  revert out. induction nvs as [|nv nvs IH]; intros out.
  { unfold rows. cbn. by rewrite app_nil_r. }
  cbn [IdxSpec.visit]. unfold write_step at 1. rewrite ToBytes_row, !bind_ok, IH.
  change (rows (nv :: nvs)) with (row nv ++ rows nvs). by rewrite (assoc_L (++)).
Qed.

(** The sorted file holds the live needles. *)
Lemma sorted_file es :
  Forall NeedleValue.wf es →
  ∃ nvs, WriteSortedFileFromIdx (D := D) (rows es) = Ok (rows nvs) ∧ index_ok nvs ∧
    ∀ k, find nvs k = (λ '(o, s), Mk k o s) <$> live_index es !! k.
Proof.
  intros Hw. unfold WriteSortedFileFromIdx, readNeedleMap.
  rewrite IdxSpec.walk_file by (lia || done). rewrite drop_0, entries_rows by done.
  unfold IdxSpec.walk_out.
  destruct (read_rows es MemDb.NewMemDb ∅ new_holds Hw) as (d & -> & Hd). rewrite !bind_ok.
  destruct (visit_holds write_step d _ (Ok []) Hd) as (nvs & -> & Hs & Hf & He).
  rewrite bind_ok, write_rows. exists nvs. split; [done|]. split; [done|]. intros k.
  fold (live_index es) in He. destruct (live_index es !! k) as [[o s]|] eqn:Ek; cbn.
  - change k with (Key (Mk k o s)) at 1. apply find_elem; [done|]. by apply He.
  - apply find_None. intros nv Hnv E. apply He in Hnv. unfold at_key in Hnv. by rewrite E, Ek in Hnv.
Qed.
End sort.

(** A lookup in a sorted index. *)
Lemma lookup_spec nvs id :
  index_ok nvs →
  ∃ r, FindNeedleFromEcx (disk (rows nvs)) (zlen (rows nvs)) id = Ok r ∧ r_file r = disk (rows nvs) ∧
    match find nvs id with
    | Some nv => r_offset r = Offset nv ∧ r_size r = Size nv ∧ r_err r = None
    | None => r_err r = Some NotFoundError
    end.
Proof.
  intros Hok. destruct (search_spec None (disk (rows nvs)) nvs id Hok eq_refl) as (r & E & Hr).
  exists r. split; [done|]. unfold search_out in Hr. destruct (find nvs id) as [nv|].
  - by destruct Hr as (m & _ & ->).
  - by destruct Hr.
Qed.

(** C19: sealing a volume's index keeps every live needle: the sorted .ecx written from
    any .idx file answers the lookup of an id with the offset and size of its last
    row when that row is live, and with [NotFoundError] otherwise. *)
Theorem ecx_lookup {D} `{LevelDbLaws D} es :
  Forall NeedleValue.wf es →
  ∃ b, WriteSortedFileFromIdx (D := D) (rows es) = Ok b ∧
    ∀ id, ∃ r, FindNeedleFromEcx (disk b) (zlen b) id = Ok r ∧
      match MemDbSpec.live_index es !! id with
      | Some (o, s) => r_offset r = o ∧ r_size r = s ∧ r_err r = None
      | None => r_err r = Some NotFoundError
      end.
Proof.
  intros Hw. destruct (sorted_file (D := D) es Hw) as (nvs & E & Hok & Hf).
  exists (rows nvs). split; [done|]. intros id.
  destruct (lookup_spec nvs id Hok) as (r & Er & _ & Hr). exists r. split; [done|].
  rewrite Hf in Hr. by destruct (MemDbSpec.live_index es !! id) as [[o s]|].
Qed.

Lemma ecx_lookup_witness :
  ∃ b, WriteSortedFileFromIdx (D := SortedDb.t)
         (rows [Mk 9 (StorageTypes.Offset.Mk 0 0 0 1) 5; Mk 4 (StorageTypes.Offset.Mk 0 0 0 7) 6;
                Mk 9 StorageTypes.Offset.zero TombstoneFileSize]) = Ok b ∧
    ∃ r, FindNeedleFromEcx (disk b) (zlen b) 4 = Ok r ∧ r_size r = 6.
Proof.
  destruct (ecx_lookup (D := SortedDb.t)
    [Mk 9 (StorageTypes.Offset.Mk 0 0 0 1) 5; Mk 4 (StorageTypes.Offset.Mk 0 0 0 7) 6;
     Mk 9 StorageTypes.Offset.zero TombstoneFileSize]) as (b & E & Hl).
  - repeat apply Forall_cons_2; [..|apply Forall_nil_2];
      (split_and!; [split; [discriminate|reflexivity]|repeat split; discriminate
                   |split; [discriminate|reflexivity]]).
  - exists b. split; [exact E|]. destruct (Hl 4) as (r & Er & Hr). exists r. split; [exact Er|].
    exact (proj1 (proj2 Hr)).
Defined.

(** C20: deletions survive in the journal: after any sequence of deletions on a sorted
    index, replaying the journal on the index as it was gives the same index and
    removes the journal; a deleted id is then found with a tombstone size and every
    other lookup is as before. *)
Theorem ecx_delete_replay nvs ids :
  index_ok nvs → Forall (in_u 64) ids →
  ∃ ev, delete_all (EcF (disk (rows nvs)) (disk [])) (zlen (rows nvs)) ids = Ok ev ∧
    RebuildEcxFile (disk (rows nvs)) (Some (OsFile.f_data (ecj ev))) = Ok (ecx ev, None, None) ∧
    ∀ id, ∃ r, FindNeedleFromEcx (ecx ev) (zlen (rows nvs)) id = Ok r ∧
      match find nvs id with
      | Some nv => r_offset r = Offset nv ∧ r_err r = None ∧
          r_size r = if decide (id ∈ ids) then TombstoneFileSize else Size nv
      | None => r_err r = Some NotFoundError
      end.
Proof.
  intros Hok Hids. eexists. split; [by apply delete_many|]. cbn [ecx ecj disk OsFile.f_data app].
  set (hit := filter (λ id, is_Some (find nvs id)) ids).
  assert (marks ids nvs = marks hit nvs) as Em.
  { apply (sorted_ext (key := Key)); [apply marks_ok, Hok..|]. intros k. rewrite !find_marks.
    destruct (find nvs k) as [nv|] eqn:Ek; [|by repeat case_decide].
    assert (k ∈ hit ↔ k ∈ ids) as Hk.
    { unfold hit. rewrite list_elem_of_filter, Ek. split; [tauto|]. intros; split; [by eexists|done]. }
    destruct (decide (k ∈ ids)); [rewrite decide_True by tauto|rewrite decide_False by tauto]; done. }
  split.
  - unfold RebuildEcxFile. cbn [disk OsFile.f_data]. unfold journal. fold hit.
    rewrite replay_spec, bind_ok; [by rewrite Em|done| |done|].
    + apply Forall_forall. intros x Hx. apply list_elem_of_filter in Hx as [_ Hx].
      rewrite Forall_forall in Hids. by apply Hids.
    + rewrite length_journal. lia.
  - intros id. destruct (lookup_spec (marks ids nvs) id (marks_ok ids nvs Hok)) as (r & Er & _ & Hr).
    rewrite zlen_rows_marks in Er. exists r. split; [done|]. rewrite find_marks in Hr.
    destruct (find nvs id) as [nv|]; [|by case_decide]. case_decide; destruct Hr as (H1 & H2 & H3); done.
Qed.

Lemma ecx_delete_replay_witness :
  let nvs := [Mk 4 (StorageTypes.Offset.Mk 0 0 0 7) 6; Mk 9 (StorageTypes.Offset.Mk 0 0 0 1) 5] in
  ∃ ev, delete_all (EcF (disk (rows nvs)) (disk [])) (zlen (rows nvs)) [9; 8] = Ok ev ∧
    RebuildEcxFile (disk (rows nvs)) (Some (OsFile.f_data (ecj ev))) = Ok (ecx ev, None, None) ∧
    ∃ r, FindNeedleFromEcx (ecx ev) (zlen (rows nvs)) 9 = Ok r ∧ r_size r = TombstoneFileSize.
Proof.
  intros nvs. destruct (ecx_delete_replay nvs [9; 8]) as (ev & E & Hr & Hl).
  - split; [repeat constructor|]. repeat apply Forall_cons_2; [..|apply Forall_nil_2];
      (split_and!; [split; [discriminate|reflexivity]|repeat split; discriminate
                   |split; [discriminate|reflexivity]]).
  - repeat apply Forall_cons_2; [split; [discriminate|reflexivity]..|apply Forall_nil_2].
  - exists ev. split; [exact E|]. split; [exact Hr|]. destruct (Hl 9) as (r & Er & H3).
    exists r. split; [exact Er|]. exact (proj2 (proj2 H3)).
Defined.

(** ** Walks *)

(** [io.EOF] from the callback ends a walk quietly. *)
Definition quiet (e : option go_error) : option go_error := if decide (e = Some EOF) then None else e.

Lemma iterate_ecx {S} (fn : NeedleValue.t → S → S * option go_error) b s :
  iterateEcxFile fn b s =
    let '(s, e) := IdxSpec.visit fn (IdxSpec.entries b) s in (s, Ok (quiet e)).
Proof.
  unfold iterateEcxFile. assert (∀ fuel, (length b < fuel)%nat → ecx_loop fuel fn b s =
    let '(s, e) := IdxSpec.visit fn (IdxSpec.entries b) s in (s, Ok (quiet e))) as Hl; [|apply Hl; lia].
  intros fuel. revert b s. induction fuel as [|fuel IH]; intros b s Hf; [lia|]. cbn [ecx_loop].
  change NeedleMapEntrySize with 16. destruct (decide (16 ≤ length b)%nat) as [Hb|Hb].
  - assert (length (sub b 0 16) = 16%nat) as Hl.
    { unfold sub. rewrite length_take, drop_0. lia. }
    rewrite (decide_False (P := zlen (sub b 0 16) ≠ 16)) by (unfold zlen; lia).
    rewrite IdxSpec.IdxFileEntry_ok by done. rewrite (IdxSpec.entries_step b) by done.
    cbn [IdxSpec.visit]. change (take 16 b) with (sub b 0 16).
    destruct (fn _ s) as [s' [e|]].
    + unfold quiet. repeat case_decide; congruence.
    + apply IH. rewrite length_drop. lia.
  - rewrite IdxSpec.entries_short by lia. rewrite (decide_True (P := zlen (sub b 0 16) ≠ 16)).
    2:{ unfold zlen, sub. rewrite length_take, drop_0. lia. }
    cbn. unfold quiet. repeat case_decide; congruence.
Qed.

Lemma iterate_ecj {S} (fn : Z → S → S * option go_error) ids s :
  Forall (in_u 64) ids → (∀ k s, snd (fn k s) = None) →
  iterateEcjFile fn (Some (concat (be_split 8 <$> ids))) s = (foldl (λ s k, fst (fn k s)) s ids, Ok None).
Proof.
  intros Hids Hfn. unfold iterateEcjFile. rewrite length_journal.
  assert (∀ fuel, (length ids < fuel)%nat →
    ecj_loop fuel fn (concat (be_split 8 <$> ids)) s = (foldl (λ s k, fst (fn k s)) s ids, Ok None)) as Hl;
    [|apply Hl; lia].
  intros fuel. revert fuel s. induction Hids as [|id ids Hid _ IH]; intros [|fuel] s Hf; cbn in Hf; try lia.
  { done. }
  change (concat (be_split 8 <$> id :: ids)) with (be_split 8 id ++ concat (be_split 8 <$> ids)).
  set (rest := concat (be_split 8 <$> ids)). cbn [ecj_loop foldl].
  assert (sub (be_split 8 id ++ rest) 0 NeedleIdSize = be_split 8 id) as ->
    by (rewrite sub_app_l by done; by apply sub_all).
  rewrite (decide_False (P := zlen (be_split 8 id) ≠ NeedleIdSize)) by (rewrite zlen_be_split; tauto).
  unfold BytesToNeedleId, BytesToUint64. rewrite load_split by (done || lia).
  specialize (Hfn id s). destruct (fn id s) as [s' e]. cbn in Hfn. subst e.
  change (drop (Z.to_nat NeedleIdSize) (be_split 8 id ++ rest)) with rest. apply IH. lia.
Qed.

(** ** Turning the index back *)
Import MemDbSpec.

Lemma live_lookup nvs m k :
  StronglySorted Z.lt (keys nvs) →
  foldl row_effect m nvs !! k =
    match find nvs k with
    | Some nv => if live nv then Some (Offset nv, Size nv) else None
    | None => m !! k
    end.
Proof.
  revert m. induction nvs as [|nv nvs IH]; intros m Hs; [done|].
  cbn in Hs. apply StronglySorted_inv in Hs as [Hs Hall]. cbn [foldl SortedList.find].
  rewrite IH by done. unfold row_effect. case_decide as Hk.
  - subst k. assert (find nvs (Key nv) = None) as ->.
    { apply find_None. intros e He E. rewrite Forall_forall in Hall.
      specialize (Hall (Key e) ltac:(by apply list_elem_of_fmap_2)). lia. }
    destruct (live nv); [by rewrite lookup_insert_eq|by rewrite lookup_delete_eq].
  - destruct (find nvs k); [done|]. destruct (live nv); [by rewrite lookup_insert_ne|by rewrite lookup_delete_ne].
Qed.

Lemma live_index_live es k o s : live_index es !! k = Some (o, s) → live (Mk k o s) = true.
Proof.
  unfold live_index. induction es as [|nv es IH] using rev_ind; [done|]. rewrite foldl_app. cbn.
  unfold row_effect. destruct (live nv) eqn:El.
  - intros H. apply lookup_insert_Some in H as [[<- H]|[_ H]]; [|by apply IH].
    injection H as <- <-. exact El.
  - intros H. apply lookup_delete_Some in H as [_ H]. by apply IH.
Qed.

Definition deletion (id : Z) : NeedleValue.t := Mk id StorageTypes.Offset.zero TombstoneFileSize.

Lemma deletion_rows ids b :
  foldl (λ s k, fst (idx_step k s)) (Ok b) ids = Ok (b ++ rows (deletion <$> ids)).
Proof.
  revert b. induction ids as [|id ids IH]; intros b; cbn [foldl].
  { unfold rows. cbn. by rewrite app_nil_r. }
  change (fst (idx_step id (Ok b))) with (Ok (b ++ row (deletion id))).
  rewrite IH. rewrite <- (assoc_L (++)). done.
Qed.

Lemma delete_effects ids m k :
  foldl row_effect m (deletion <$> ids) !! k = if decide (k ∈ ids) then None else m !! k.
Proof.
  revert m. induction ids as [|id ids IH]; intros m.
  { by rewrite decide_False by apply not_elem_of_nil. }
  rewrite fmap_cons. cbn [foldl]. rewrite IH.
  change (row_effect m (deletion id)) with (delete id m).
  destruct (decide (k ∈ ids)); [by rewrite decide_True by (by right)|].
  destruct (decide (k = id)) as [->|Hne].
  - by rewrite lookup_delete_eq, decide_True by (by left).
  - rewrite lookup_delete_ne, decide_False; [done| |done]. rewrite elem_of_cons. tauto.
Qed.

(** The rows that stay live. *)
Lemma restored_live es ids nvs :
  index_ok nvs → (∀ k, find nvs k = (λ '(o, s), Mk k o s) <$> live_index es !! k) →
  Forall (in_u 64) ids →
  let hit := filter (λ id, is_Some (find nvs id)) ids in
  live_index (IdxSpec.entries (rows (marks ids nvs ++ (deletion <$> hit))))
  = filter (λ '(k, _), k ∉ ids) (live_index es).
Proof.
  intros Hok Hf Hids hit. pose proof (marks_ok ids nvs Hok) as [Hs Hw]. rewrite entries_rows.
  2:{ apply Forall_app. split; [done|]. apply Forall_fmap, Forall_forall. intros x Hx.
      apply list_elem_of_filter in Hx as [_ Hx]. rewrite Forall_forall in Hids. specialize (Hids x Hx).
      split_and!; [done|repeat split; discriminate|split; [discriminate|reflexivity]]. }
  apply map_eq. intros k. unfold live_index at 1. rewrite foldl_app, delete_effects, live_lookup, find_marks by done.
  rewrite Hf, map_lookup_filter. destruct (live_index es !! k) as [[o s]|] eqn:Ek; cbn.
  - pose proof (live_index_live _ _ _ _ Ek) as Hl. destruct (decide (k ∈ ids)) as [Hk|Hk].
    + rewrite option_guard_False by tauto. unfold live. cbn [tombstone Size].
      rewrite andb_false_r. by case_decide.
    + rewrite option_guard_True by done. rewrite decide_False; [by rewrite Hl|].
      unfold hit. rewrite list_elem_of_filter. tauto.
  - rewrite lookup_empty. by repeat case_decide.
Qed.

Lemma has_live l :
  ∃ e, IdxSpec.visit live_step l false = (existsb (λ nv, negb (Size.IsDeleted (Size nv))) l, e).
Proof.
  induction l as [|nv l IH]; [by eexists|]. cbn. unfold live_step at 1.
  destruct (negb (Size.IsDeleted (Size nv))); [by eexists|done].
Qed.

Lemma marks_live es ids nvs :
  index_ok nvs → (∀ k, find nvs k = (λ '(o, s), Mk k o s) <$> live_index es !! k) →
  existsb (λ nv, negb (Size.IsDeleted (Size nv))) (marks ids nvs)
  = bool_decide (filter (λ '(k, _), k ∉ ids) (live_index es) ≠ ∅).
Proof.
  intros Hok Hf. pose proof (marks_ok ids nvs Hok) as [Hs _].
  apply eq_true_iff_eq. rewrite existsb_exists, bool_decide_eq_true. split.
  - intros (nv & Hin & Hl) E. apply list_elem_of_In in Hin.
    pose proof (find_elem _ nv Hs Hin) as Hnv. rewrite find_marks, Hf in Hnv. case_decide as Hk.
    + destruct (live_index es !! Key nv) as [[o s]|]; [|done].
      apply (f_equal (fmap Size)) in Hnv. cbn in Hnv. injection Hnv as Hsz. by rewrite <- Hsz in Hl.
    + destruct (live_index es !! Key nv) as [[o s]|] eqn:Ek; [|done].
      assert (filter (λ '(k, _), k ∉ ids) (live_index es) !! Key nv = Some (o, s)) as Hx
        by (by apply map_lookup_filter_Some).
      by rewrite E in Hx.
  - intros Hne. apply map_choose in Hne as (k & [o s] & Hx).
    apply map_lookup_filter_Some in Hx as [Ek Hk].
    pose proof (find_marks ids nvs k) as Hm. rewrite decide_False, Hf, Ek in Hm by done. cbn in Hm.
    exists (Mk k o s). split; [apply list_elem_of_In; by apply find_Some in Hm as [? _]|].
    pose proof (live_index_live _ _ _ _ Ek) as Hl. unfold live in Hl. by apply andb_true_iff in Hl as [_ Hl].
Qed.

(** C21: a decoded volume has the needles it should: the .idx file written from the
    .ecx and .ecj files of an encoded volume indexes exactly the live needles of
    the original .idx that were not deleted while encoded, and [HasLiveNeedles]
    tells whether there are any. *)
Theorem ec_index_restore {D} `{LevelDbLaws D} es ids :
  Forall NeedleValue.wf es → Forall (in_u 64) ids →
  ∃ b ev out,
    WriteSortedFileFromIdx (D := D) (rows es) = Ok b ∧
    delete_all (EcF (disk b) (disk [])) (zlen b) ids = Ok ev ∧
    WriteIdxFileFromEcIndex (OsFile.f_data (ecx ev)) (Some (OsFile.f_data (ecj ev))) = (Ok out, Ok None) ∧
    live_index (IdxSpec.entries out) = filter (λ '(k, _), k ∉ ids) (live_index es) ∧
    ∃ e, HasLiveNeedles (OsFile.f_data (ecx ev)) =
      (bool_decide (filter (λ '(k, _), k ∉ ids) (live_index es) ≠ ∅), Ok e).
Proof.
  intros Hw Hids. destruct (sorted_file (D := D) es Hw) as (nvs & E & Hok & Hf).
  exists (rows nvs), (EcF (disk (rows (marks ids nvs))) (disk ([] ++ journal nvs ids))).
  set (hit := filter (λ id, is_Some (find nvs id)) ids).
  exists (rows (marks ids nvs ++ (deletion <$> hit))).
  assert (Forall (in_u 64) hit) as Hhit.
  { apply Forall_forall. intros x Hx. apply list_elem_of_filter in Hx as [_ Hx].
    rewrite Forall_forall in Hids. by apply Hids. }
  cbn [ecx ecj disk OsFile.f_data app]. split_and!; [done|by apply delete_many| | |].
  - unfold WriteIdxFileFromEcIndex, journal. fold hit. rewrite iterate_ecj by done.
    by rewrite deletion_rows, rows_app.
  - by apply restored_live.
  - unfold HasLiveNeedles. rewrite iterate_ecx, entries_rows by apply (marks_ok ids nvs Hok).
    destruct (has_live (marks ids nvs)) as [e ->]. rewrite (marks_live es ids nvs Hok Hf). by eexists.
Qed.

Lemma ec_index_restore_witness :
  let es := [Mk 9 (StorageTypes.Offset.Mk 0 0 0 1) 5; Mk 4 (StorageTypes.Offset.Mk 0 0 0 7) 6] in
  ∃ b ev out,
    WriteSortedFileFromIdx (D := SortedDb.t) (rows es) = Ok b ∧
    delete_all (EcF (disk b) (disk [])) (zlen b) [9] = Ok ev ∧
    WriteIdxFileFromEcIndex (OsFile.f_data (ecx ev)) (Some (OsFile.f_data (ecj ev))) = (Ok out, Ok None) ∧
    live_index (IdxSpec.entries out) = {[4 := (StorageTypes.Offset.Mk 0 0 0 7, 6)]}.
Proof.
  intros es. destruct (ec_index_restore (D := SortedDb.t) es [9]) as (b & ev & out & E1 & E2 & E3 & E4 & _).
  - repeat apply Forall_cons_2; [..|apply Forall_nil_2];
      (split_and!; [split; [discriminate|reflexivity]|repeat split; discriminate
                   |split; [discriminate|reflexivity]]).
  - apply Forall_cons_2; [split; [discriminate|reflexivity]|apply Forall_nil_2].
  - exists b, ev, out. split; [exact E1|]. split; [exact E2|]. split; [exact E3|].
    rewrite E4. vm_compute. reflexivity.
Defined.

(** ** The size of the volume file *)

Definition stop (version : Z) (nv : NeedleValue.t) : Z :=
  StorageTypes.Offset.ToActualOffset (Offset nv) + Needle.GetActualSize (Size nv) version.

Lemma dat_size_visit version nvs d :
  IdxSpec.visit (dat_size_step version) nvs d =
    (foldl (λ d nv, if Size.IsDeleted (Size nv) then d else Z.max d (stop version nv)) d nvs, None).
Proof.
  revert d. induction nvs as [|nv nvs IH]; intros d; [done|]. cbn [IdxSpec.visit foldl].
  unfold dat_size_step at 1. fold (stop version nv). destruct (Size.IsDeleted (Size nv)); [apply IH|].
  rewrite <- IH. case_decide; [by rewrite Z.max_r by lia|by rewrite Z.max_l by lia].
Qed.

(** The size [FindDatFileSize] computes is enough for every live needle and is
    reached by one of them, or is that of a bare super block. *)
Theorem find_dat_file_size {X F} (Unmarshal : bytes → X * option go_error) `{BackendStorageFile F}
    (ec00 : F) version nvs :
  readEcVolumeVersion Unmarshal ec00 = Ok version → Forall NeedleValue.wf nvs →
  ∃ d, FindDatFileSize Unmarshal ec00 (rows nvs) = Ok (d, None) ∧ SuperBlock.SuperBlockSize ≤ d ∧
    (∀ nv, nv ∈ nvs → Size.IsDeleted (Size nv) = false → stop version nv ≤ d) ∧
    (d = SuperBlock.SuperBlockSize ∨
     ∃ nv, nv ∈ nvs ∧ Size.IsDeleted (Size nv) = false ∧ d = stop version nv).
Proof.
  intros Hv Hw. unfold FindDatFileSize. rewrite Hv, iterate_ecx, entries_rows, dat_size_visit by done.
  eexists. split; [done|]. generalize SuperBlock.SuperBlockSize as d0. clear.
  induction nvs as [|nv nvs IH] using rev_ind; intros d0.
  { cbn. split_and!; [lia| |by left]. intros nv Hn. by apply not_elem_of_nil in Hn. }
  rewrite foldl_app. cbn [foldl]. destruct (IH d0) as (H1 & H2 & H3).
  destruct (Size.IsDeleted (Size nv)) eqn:Ed; (split_and!; [lia| |]).
  - intros x Hx Hl. apply elem_of_app in Hx as [Hx|Hx]; [by apply H2|].
    apply list_elem_of_singleton in Hx as ->. congruence.
  - destruct H3 as [H3|(x & Hx & Hl & E)]; [by left|right]. exists x. rewrite elem_of_app. auto.
  - intros x Hx Hl. apply elem_of_app in Hx as [Hx|Hx]; [specialize (H2 x Hx Hl); lia|].
    apply list_elem_of_singleton in Hx as ->. lia.
  - destruct (Z.max_spec (foldl (λ d nv, if Size.IsDeleted (Size nv) then d else Z.max d (stop version nv)) d0 nvs)
      (stop version nv)) as [[_ ->]|[_ ->]].
    + right. exists nv. rewrite elem_of_app, list_elem_of_singleton. auto.
    + destruct H3 as [H3|(x & Hx & Hl & E)]; [by left|right]. exists x. rewrite elem_of_app. auto.
Qed.

Lemma find_dat_file_size_witness :
  ∃ d, FindDatFileSize SuperBlock.raw_unmarshal
         (SuperBlock.disk_of (SuperBlock.block_bytes SuperBlock.plain_block))
         (rows [Mk 4 (StorageTypes.Offset.Mk 0 0 0 1) 6]) = Ok (d, None) ∧ 48 ≤ d.
Proof.
  destruct (find_dat_file_size SuperBlock.raw_unmarshal
    (SuperBlock.disk_of (SuperBlock.block_bytes SuperBlock.plain_block)) 3
    [Mk 4 (StorageTypes.Offset.Mk 0 0 0 1) 6]) as (d & E & _ & Hd & _).
  - vm_compute. reflexivity.
  - apply Forall_cons_2; [|apply Forall_nil_2].
    split_and!; [split; [discriminate|reflexivity]|repeat split; discriminate|split; [discriminate|reflexivity]].
  - exists d. split; [exact E|]. exact (Hd _ (list_elem_of_here _ _) eq_refl).
Defined.
End EcIndexSpec.
