(* ===== verification/EcFiles.v ===== *)
(** * EcFiles: striping a volume over shards
    (weed/storage/erasure_coding/ec_encoder.go, ec_decoder.go, ec_locate.go)

    A sealed volume file is cut into rows of [DataShards] blocks, large blocks
    first and small blocks for the rest; block [i] of a row goes to shard [i], and
    a Reed-Solomon coder adds the parity shards.  [EcEncoder] writes the shards,
    [EcDecoder] puts the volume file back together, and [EcLocate] finds the shard
    bytes that hold a range of the volume.

    Lengths and offsets are [int64]s bounded by a few times the volume size (at
    most 2^43 bytes), which do not wrap; a needle size is an [int32]. *)

From S2P Require Import Prelude GoStd StorageTypes Needle EcShards.

(** ** Writing shards *)
Module EcEncoder.

Definition ErasureCodingLargeBlockSize : Z := 1024 * 1024 * 1024.
Definition ErasureCodingSmallBlockSize : Z := 1024 * 1024.

Record ECContext := Ctx { DataShards : Z; ParityShards : Z }.
Definition Total (ctx : ECContext) : Z := DataShards ctx + ParityShards ctx.
Definition NewDefaultECContext : ECContext := Ctx EcShards.DataShardsCount EcShards.ParityShardsCount.

Abbreviation outputs := (list OsFile.os_file).

(** [f.Write(p)] on a file that is only ever appended to. *)
Definition Write (f : OsFile.os_file) (p : bytes) : OsFile.os_file * Z * option go_error :=
  OsFile.WriteAt f p (zlen (OsFile.f_data f)).

Section encoder.
(** [reedsolomon.Encoder.Encode]: the buffers after the call. *)
Context (Encode : list bytes → res (list bytes)).
(** The volume file. *)
Context (file : bytes) (ctx : ECContext).

(** [for i := 0; i < ctx.DataShards; i++]: fill buffer [i] from block [i], with
    zeros past the end of the file. *)
Fixpoint read_buffers (k : nat) (startOffset blockSize i : Z) (buffers : list bytes)
    : res (list bytes) :=
  match k with
  | O => Ok buffers
  | S k =>
      match buffers !! Z.to_nat i with
      | None => Panic
      | Some b =>
          let '(d, err) := OsFile.ReadAt file (startOffset + blockSize * i) (zlen b) in
          match err with
          | Some e => if decide (e = EOF) then Ok tt else Fail e
          | None => Ok tt
          end ≫= λ _,
          let b' := if decide (zlen d < zlen b) then d ++ zeros (zlen b - zlen d) else d in
          read_buffers k startOffset blockSize (i + 1) (<[Z.to_nat i := b']> buffers)
      end
  end.

(** [for i := 0; i < ctx.Total(); i++ { outputs[i].Write(buffers[i]) }] *)
Fixpoint write_outputs (k : nat) (i : Z) (buffers : list bytes) : SE outputs unit := λ outs,
  match k with
  | O => (outs, Ok tt)
  | S k =>
      match outs !! Z.to_nat i, buffers !! Z.to_nat i with
      | Some f, Some b =>
          let '(f, _, err) := Write f b in
          let outs := <[Z.to_nat i := f]> outs in
          match err with
          | Some e => (outs, Fail e)
          | None => write_outputs k (i + 1) buffers outs
          end
      | _, _ => (outs, Panic)
      end
  end.

Definition encodeDataOneBatch (startOffset blockSize : Z) (buffers : list bytes)
    : SE outputs (list bytes) :=
  buffers ← se_lift (read_buffers (Z.to_nat (DataShards ctx)) startOffset blockSize 0 buffers);
  buffers ← se_lift (Encode buffers);
  _ ← write_outputs (Z.to_nat (Total ctx)) 0 buffers;
  mret buffers.

(** [for b := 0; b < batchCount; b++] *)
Fixpoint encode_batches (k : nat) (b startOffset blockSize bufferSize : Z) (buffers : list bytes)
    : SE outputs (list bytes) :=
  match k with
  | O => mret buffers
  | S k =>
      buffers ← encodeDataOneBatch (startOffset + b * bufferSize) blockSize buffers;
      encode_batches k (b + 1) startOffset blockSize bufferSize buffers
  end.

(** [glog.Fatal] ends the process. *)
Definition encodeData (startOffset blockSize : Z) (buffers : list bytes) : SE outputs (list bytes) :=
  match buffers with
  | [] => se_lift Panic
  | b :: _ =>
      let bufferSize := zlen b in
      if decide (bufferSize = 0) then se_lift Panic
      else if negb (bool_decide (Z.rem blockSize bufferSize = 0)) then se_lift Panic
      else encode_batches (Z.to_nat (Z.quot blockSize bufferSize)) 0 startOffset blockSize bufferSize buffers
  end.

(** [for remainingSize >= largeRowSize { ... }]; the sizes left and done. *)
Fixpoint large_loop (fuel : nat) (largeBlockSize remainingSize processedSize : Z)
    (buffers : list bytes) : SE outputs (Z * Z * list bytes) :=
  match fuel with
  | O => se_lift Panic
  | S fuel =>
      let largeRowSize := largeBlockSize * DataShards ctx in
      if decide (largeRowSize ≤ remainingSize) then
        buffers ← encodeData processedSize largeBlockSize buffers;
        large_loop fuel largeBlockSize (remainingSize - largeRowSize)
          (processedSize + largeRowSize) buffers
      else mret (remainingSize, processedSize, buffers)
  end.

(** [for remainingSize > 0 { ... }] *)
Fixpoint small_loop (fuel : nat) (smallBlockSize remainingSize processedSize : Z)
    (buffers : list bytes) : SE outputs unit :=
  match fuel with
  | O => se_lift Panic
  | S fuel =>
      let smallRowSize := smallBlockSize * DataShards ctx in
      if decide (0 < remainingSize) then
        buffers ← encodeData processedSize smallBlockSize buffers;
        small_loop fuel smallBlockSize (remainingSize - smallRowSize)
          (processedSize + smallRowSize) buffers
      else mret tt
  end.

(** Each pass of a loop takes at least a byte off the remaining size. *)
Definition encodeDatFile (remainingSize bufferSize largeBlockSize smallBlockSize : Z)
    : SE outputs unit :=
  let buffers := replicate (Z.to_nat (Total ctx)) (zeros bufferSize) in
  '(remainingSize, processedSize, buffers) ←
    large_loop (S (Z.to_nat remainingSize)) largeBlockSize remainingSize 0 buffers;
  small_loop (S (Z.to_nat remainingSize)) smallBlockSize remainingSize processedSize buffers.

(** The shard files start empty. *)
Definition generateEcFiles (bufferSize largeBlockSize smallBlockSize : Z) : SE outputs unit :=
  encodeDatFile (zlen file) bufferSize largeBlockSize smallBlockSize.

Definition WriteEcFilesWithContext : SE outputs unit :=
  generateEcFiles (256 * 1024) ErasureCodingLargeBlockSize ErasureCodingSmallBlockSize.
End encoder.
End EcEncoder.

(** ** Putting the volume file back together *)
Module EcDecoder.
Import EcEncoder.

Definition min (x y : Z) : Z := if decide (x > y) then y else x.

(** The volume file so far, and what is left to read of each shard. *)
Record state := St { dat : bytes; inputs : list bytes }.

(** [io.CopyN(datFile, inputFiles[shardId], n)]: the bytes copied. *)
Definition CopyN (s : state) (shardId n : Z) : res (state * Z) :=
  match inputs s !! Z.to_nat shardId with
  | None => Panic
  | Some f =>
      let d := sub f 0 n in
      Ok (St (dat s ++ d) (<[Z.to_nat shardId := drop (length d) f]> (inputs s)), zlen d)
  end.

(** One row of [for shardId := 0; shardId < DataShardsCount; shardId++]. *)
Fixpoint large_row (k : nat) (shardId large datFileSize : Z) (s : state) : res (state * Z) :=
  match k with
  | O => Ok (s, datFileSize)
  | S k =>
      '(s, w) ← CopyN s shardId large;
      if decide (w = large) then large_row k (shardId + 1) large (datFileSize - large) s
      else Fail (Errorf "copy %s large block on shardId %d: %v")
  end.

Fixpoint small_row (k : nat) (shardId small datFileSize : Z) (s : state) : res (state * Z) :=
  match k with
  | O => Ok (s, datFileSize)
  | S k =>
      let toRead := min datFileSize small in
      '(s, w) ← CopyN s shardId toRead;
      if decide (w = toRead) then small_row k (shardId + 1) small (datFileSize - toRead) s
      else Fail (Errorf "copy %s small block %d: %v")
  end.

Definition rows : nat := Z.to_nat EcShards.DataShardsCount.

Fixpoint large_rows (fuel : nat) (large datFileSize : Z) (s : state) : res (state * Z) :=
  match fuel with
  | O => Panic
  | S fuel =>
      if decide (EcShards.DataShardsCount * large ≤ datFileSize) then
        '(s, datFileSize) ← large_row rows 0 large datFileSize s;
        large_rows fuel large datFileSize s
      else Ok (s, datFileSize)
  end.

Fixpoint small_rows (fuel : nat) (small datFileSize : Z) (s : state) : res state :=
  match fuel with
  | O => Panic
  | S fuel =>
      if decide (0 < datFileSize) then
        '(s, datFileSize) ← small_row rows 0 small datFileSize s;
        small_rows fuel small datFileSize s
      else Ok s
  end.

(** The source has the two block sizes as constants; a pass copies at least a byte. *)
Definition write_dat (large small datFileSize : Z) (shards : list bytes) : res bytes :=
  '(s, datFileSize) ← large_rows (S (Z.to_nat datFileSize)) large datFileSize (St [] shards);
  s ← small_rows (S (Z.to_nat datFileSize)) small datFileSize s;
  mret (dat s).

Definition WriteDatFile (datFileSize : Z) (shards : list bytes) : res bytes :=
  write_dat ErasureCodingLargeBlockSize ErasureCodingSmallBlockSize datFileSize shards.
End EcDecoder.

(** ** Finding a range in the shards *)
Module EcLocate.
Import EcShards.

Record Interval := Ivl {
  BlockIndex : Z; InnerBlockOffset : Z; iSize : Z; IsLargeBlock : bool; LargeBlockRowsCount : Z }.

Definition moveToNextBlock (blockIndex : Z) (isLargeBlock : bool) (nLargeBlockRows : Z) : Z * bool :=
  let nextBlockIndex := blockIndex + 1 in
  if isLargeBlock && bool_decide (nextBlockIndex = nLargeBlockRows * DataShardsCount)
  then (0, false) else (nextBlockIndex, isLargeBlock).

Definition locateOffsetWithinBlocks (blockLength offset : Z) : Z * Z :=
  (Z.quot offset blockLength, Z.rem offset blockLength).

Definition locateOffset (largeBlockLength smallBlockLength shardDatSize offset : Z)
    : Z * bool * Z * Z :=
  let largeRowSize := largeBlockLength * DataShardsCount in
  let nLargeBlockRows := Z.quot (shardDatSize - 1) largeBlockLength in
  if decide (offset < nLargeBlockRows * largeRowSize) then
    let '(blockIndex, inner) := locateOffsetWithinBlocks largeBlockLength offset in
    (blockIndex, true, nLargeBlockRows, inner)
  else
    let '(blockIndex, inner) :=
      locateOffsetWithinBlocks smallBlockLength (offset - nLargeBlockRows * largeRowSize) in
    (blockIndex, false, nLargeBlockRows, inner).

(** [for size > 0 { ... }]; [None] when the fuel runs out. *)
Fixpoint locate_loop (fuel : nat) (large small n blockIndex : Z) (isLarge : bool) (inner size : Z)
    : option (list Interval) :=
  match fuel with
  | O => None
  | S fuel =>
      if decide (0 < size) then
        let blockRemaining := if isLarge then large - inner else small - inner in
        if decide (blockRemaining ≤ 0) then
          let '(blockIndex, isLarge) := moveToNextBlock blockIndex isLarge n in
          locate_loop fuel large small n blockIndex isLarge 0 size
        else if decide (size ≤ blockRemaining) then
          Some [Ivl blockIndex inner size isLarge n]
        else
          let iv := Ivl blockIndex inner (s32 blockRemaining) isLarge n in
          let '(blockIndex, isLarge) := moveToNextBlock blockIndex isLarge n in
          rest ← locate_loop fuel large small n blockIndex isLarge 0 (sub32 size (iSize iv));
          Some (iv :: rest)
      else Some []
  end.

(** A pass shortens the range by a byte or, once at the start, moves to a block
    with room. *)
Definition LocateData (largeBlockLength smallBlockLength shardDatSize offset size : Z)
    : option (list Interval) :=
  let '(blockIndex, isLarge, n, inner) :=
    locateOffset largeBlockLength smallBlockLength shardDatSize offset in
  locate_loop (2 + Z.to_nat size) largeBlockLength smallBlockLength n blockIndex isLarge inner size.

Definition ToShardIdAndOffset (interval : Interval) (largeBlockSize smallBlockSize : Z) : Z * Z :=
  let rowIndex := Z.quot (BlockIndex interval) DataShardsCount in
  let ecFileOffset :=
    if IsLargeBlock interval then InnerBlockOffset interval + rowIndex * largeBlockSize
    else InnerBlockOffset interval
         + (LargeBlockRowsCount interval * largeBlockSize + rowIndex * smallBlockSize) in
  (u8 (Z.rem (BlockIndex interval) DataShardsCount), ecFileOffset).

(** [ev.LocateEcShardNeedleInterval]: [ecdFileSize] is the size of the first mounted
    shard, [datFileSize] that of the volume file, 0 when not recorded. *)
Definition located_shard_size (ecdFileSize datFileSize dataShards : Z) : Z :=
  if decide (0 < datFileSize) then Z.quot datFileSize dataShards else ecdFileSize - 1.

Definition LocateEcShardNeedleInterval (large small ecdFileSize datFileSize dataShards version offset size : Z)
    : option (list Interval) :=
  LocateData large small (located_shard_size ecdFileSize datFileSize dataShards) offset
    (s32 (Needle.GetActualSize size version)).

(** The intervals of a needle found in the index at [offset] with [size]. *)
Definition LocateEcShardNeedle (large small ecdFileSize datFileSize dataShards version : Z)
    (offset : Offset.t) (size : Z) : option (list Interval) :=
  LocateEcShardNeedleInterval large small ecdFileSize datFileSize dataShards version
    (Offset.ToActualOffset offset) (s32 (Needle.GetActualSize size version)).
End EcLocate.
