(* ===== verification/EcFilesSpec.v ===== *)
(** * EcFilesSpec: encoding, decoding and locating agree on one layout

    [data_shard] is the layout: shard [i] holds block [i] of every row of the
    zero-padded volume.  The encoder writes it, the decoder inverts it, and the
    intervals [LocateData] returns read it back. *)

From S2P Require Import Prelude GoStd StorageTypes Needle EcShards EcFiles.

(** ** Ranges of a zero-padded file *)

Definition padded (f : bytes) (off n : Z) : bytes := sub f off n ++ zeros (n - zlen (sub f off n)).

Lemma zlen_padded f off n : 0 ≤ off → 0 ≤ n → zlen (padded f off n) = n.
Proof. intros. unfold padded. rewrite zlen_app, zlen_zeros, zlen_sub by lia. lia. Qed.

Lemma padded_full f off n : 0 ≤ off → 0 ≤ n → off + n ≤ zlen f → padded f off n = sub f off n.
Proof.
  intros. unfold padded. replace (n - zlen (sub f off n)) with 0; [apply app_nil_r|].
  rewrite zlen_sub by lia. lia.
Qed.

Lemma padded_0 f off : padded f off 0 = [].
Proof. done. Qed.

Lemma padded_app f off a b :
  0 ≤ off → 0 ≤ a → 0 ≤ b → padded f off (a + b) = padded f off a ++ padded f (off + a) b.
Proof.
  intros. unfold padded. rewrite sub_split, zlen_app by lia.
  destruct (decide (off + a ≤ zlen f)).
  - rewrite (zlen_sub f off a) by lia.
    replace (zeros (a - _)) with (@nil Z) by (unfold zeros; by rewrite Z2Nat.nonpos by lia).
    rewrite app_nil_r, <- (assoc_L (++)). do 3 f_equal. lia.
  - rewrite (sub_past f (off + a) b) by lia. rewrite app_nil_r, zlen_nil, app_nil_l, Z.sub_0_r, Z.add_0_r.
    rewrite <- (assoc_L (++)), <- zeros_add by (rewrite ?zlen_sub by lia; lia). do 2 f_equal. lia.
Qed.

Lemma sub_padded f off n x k :
  0 ≤ off → 0 ≤ x → 0 ≤ k → x + k ≤ n → sub (padded f off n) x k = padded f (off + x) k.
Proof.
  intros. replace n with (x + (k + (n - x - k))) by lia. rewrite !padded_app by lia.
  apply sub_mid; by rewrite zlen_padded by lia.
Qed.

(** ** The layout *)
Section layout.
Context (f : bytes) (ds : Z).

(** Block [i] of [n] rows of [bs]-byte blocks from [p] on. *)
Fixpoint blocks (n : nat) (p bs i : Z) : bytes :=
  match n with
  | O => []
  | S n => padded f (p + bs * i) bs ++ blocks n (p + bs * ds) bs i
  end.

Definition large_count (L : Z) : Z := zlen f `div` (L * ds).
Definition small_count (L S : Z) : Z :=
  (zlen f - large_count L * (L * ds) + S * ds - 1) `div` (S * ds).

Definition data_shard (L S i : Z) : bytes :=
  blocks (Z.to_nat (large_count L)) 0 L i
  ++ blocks (Z.to_nat (small_count L S)) (large_count L * (L * ds)) S i.

Lemma zlen_blocks n p bs i :
  0 ≤ p → 0 ≤ bs → 0 ≤ i → 0 ≤ ds → zlen (blocks n p bs i) = Z.of_nat n * bs.
Proof.
  intros Hp Hb Hi Hd. revert p Hp. induction n as [|n IH]; intros p Hp; [done|].
  cbn [blocks]. rewrite zlen_app, zlen_padded, IH by nia. lia.
Qed.

(** A range inside one block. *)
Lemma sub_blocks n p bs i r x k :
  0 ≤ p → 0 < bs → 0 ≤ i → 0 ≤ ds → 0 ≤ r < Z.of_nat n → 0 ≤ x → 0 ≤ k → x + k ≤ bs →
  sub (blocks n p bs i) (r * bs + x) k = padded f (p + r * (bs * ds) + bs * i + x) k.
Proof.
  intros Hp Hb Hi Hd Hr Hx Hk Hxk. revert p r Hp Hr. induction n as [|n IH]; intros p r Hp Hr; [lia|].
  cbn [blocks]. destruct (decide (r = 0)) as [->|].
  - rewrite Z.mul_0_l, Z.add_0_l, sub_app_l by (rewrite ?zlen_padded by nia; lia).
    rewrite sub_padded by nia. f_equal. lia.
  - rewrite sub_app_r by (rewrite zlen_padded by nia; nia). rewrite zlen_padded by nia.
    replace (r * bs + x - bs) with ((r - 1) * bs + x) by lia. rewrite IH by nia. f_equal. lia.
Qed.

Lemma large_count_spec L :
  0 < L → 0 < ds → 0 ≤ large_count L ∧ large_count L * (L * ds) ≤ zlen f < (large_count L + 1) * (L * ds).
Proof.
  intros. unfold large_count. pose proof (zlen_nonneg f).
  pose proof (Z.div_pos (zlen f) (L * ds) ltac:(lia) ltac:(nia)).
  pose proof (Z.mul_div_le (zlen f) (L * ds) ltac:(nia)).
  pose proof (Z.mul_succ_div_gt (zlen f) (L * ds) ltac:(nia)). nia.
Qed.
End layout.

(** ** The encoder writes the layout *)
Module EncoderSpec.
Import EcEncoder.

(** What the coder documents: on buffers of one size it keeps the data and
    overwrites the parity. *)
Class EncoderLaws (ctx : ECContext) (Encode : list bytes → res (list bytes)) := {
  encode_law B bufs : zlen bufs = Total ctx → 0 < B → (∀ b, b ∈ bufs → zlen b = B) →
    ∃ bufs', Encode bufs = Ok bufs' ∧ zlen bufs' = Total ctx ∧ (∀ b, b ∈ bufs' → zlen b = B) ∧
      ∀ i : nat, Z.of_nat i < DataShards ctx → bufs' !! i = bufs !! i }.

Section encoder.
Context (Encode : list bytes → res (list bytes)) (f : bytes) (ctx : ECContext).
Context {laws : EncoderLaws ctx Encode}.
Context (B : Z).
Hypothesis B_pos : 0 < B.
Hypothesis ds_pos : 0 < DataShards ctx.
Hypothesis ps_pos : 0 ≤ ParityShards ctx.
Abbreviation ds := (DataShards ctx).
Abbreviation blocks := (blocks f (DataShards ctx)).

Definition bufs_ok (bufs : list bytes) : Prop :=
  zlen bufs = Total ctx ∧ ∀ b, b ∈ bufs → zlen b = B.

(** The shard files are growing without a limit, and data shard [i] holds [g i]. *)
Record outs_ok (outs : outputs) (g : Z → bytes) : Prop := {
  oo_len : zlen outs = Total ctx;
  oo_limit : ∀ o, o ∈ outs → OsFile.f_limit o = None;
  oo_data : ∀ i, 0 ≤ i < ds → OsFile.f_data <$> outs !! Z.to_nat i = Some (g i) }.

Lemma bufs_lookup bufs i :
  bufs_ok bufs → 0 ≤ i < Total ctx → ∃ b, bufs !! Z.to_nat i = Some b ∧ zlen b = B.
Proof.
  intros [Hl Hb] Hi. destruct (lookup_lt_is_Some_2 bufs (Z.to_nat i)) as [b E]; [unfold zlen in Hl; lia|].
  exists b. split; [done|]. apply Hb. by eapply list_elem_of_lookup_2.
Qed.

Lemma read_buffers_spec k p bs i bufs :
  bufs_ok bufs → 0 ≤ p → 0 ≤ bs → 0 ≤ i → i + Z.of_nat k ≤ Total ctx →
  ∃ bufs', read_buffers f k p bs i bufs = Ok bufs' ∧ bufs_ok bufs' ∧
    ∀ j, 0 ≤ j → bufs' !! Z.to_nat j =
      if decide (i ≤ j < i + Z.of_nat k) then Some (padded f (p + bs * j) B) else bufs !! Z.to_nat j.
Proof.
  revert i bufs. induction k as [|k IH]; intros i bufs Hok Hp Hbs Hi Hk.
  { exists bufs. split_and!; [done..|]. intros j Hj. by rewrite decide_False by lia. }
  destruct (bufs_lookup bufs i Hok ltac:(lia)) as (b & Eb & Hb).
  cbn [read_buffers]. rewrite Eb. unfold OsFile.ReadAt. rewrite decide_False by nia.
  rewrite Hb. set (d := sub f _ B).
  assert (zlen d ≤ B) by (subst d; rewrite zlen_sub by nia; lia).
  set (b' := if decide (zlen d < B) then d ++ zeros (B - zlen d) else d).
  assert (b' = padded f (p + bs * i) B) as Eb'.
  { subst b'. unfold padded. fold d. case_decide; [done|].
    replace (B - zlen d) with 0 by lia. by rewrite app_nil_r. }
  destruct (IH (i + 1) (<[Z.to_nat i := b']> bufs)) as (bufs' & E & Hok' & Hl'); try lia.
  { destruct Hok as [Hl Hbs']. split; [unfold zlen in *; by rewrite length_insert|].
    intros x Hx. apply list_elem_of_lookup_1 in Hx as [j Hj].
    apply list_lookup_insert_Some in Hj as [(_ & <- & _)|(_ & Hj)];
      [rewrite Eb'; apply zlen_padded; nia|]. apply Hbs'. by eapply list_elem_of_lookup_2. }
  exists bufs'. split; [|split; [done|]].
  - destruct (decide (zlen d < B)); cbn [mbind res_bind]; rewrite ?decide_True by done; exact E.
  - intros j Hj. rewrite Hl' by done. pose proof (lookup_lt_Some _ _ _ Eb).
    destruct (decide (i = j)) as [<-|].
    + rewrite decide_False, decide_True by lia. by rewrite list_lookup_insert_eq, Eb' by done.
    + rewrite list_lookup_insert_ne by lia.
      destruct (decide (i + 1 ≤ j < i + 1 + Z.of_nat k));
        [rewrite decide_True by lia|rewrite decide_False by lia]; done.
Qed.

Lemma Write_unlimited o p :
  OsFile.f_limit o = None → Write o p = (OsFile.OsF (OsFile.f_data o ++ p) None, zlen p, None).
Proof. apply OsFile.WriteAt_end. Qed.

Lemma write_outputs_spec k i bufs outs g :
  bufs_ok bufs → outs_ok outs g → 0 ≤ i → i + Z.of_nat k = Total ctx →
  ∃ outs', write_outputs k i bufs outs = (outs', Ok tt) ∧
    outs_ok outs' (λ j, if decide (i ≤ j) then g j ++ default [] (bufs !! Z.to_nat j) else g j).
Proof.
  revert i outs g. induction k as [|k IH]; intros i outs g Hb Ho Hi Hk.
  { exists outs. split; [done|]. destruct Ho. split; [done..|]. intros j Hj.
    rewrite decide_False by (unfold Total in Hk; lia). auto. }
  destruct (bufs_lookup bufs i Hb ltac:(lia)) as (b & Eb & _).
  destruct Ho as [Hl Hlim Hd].
  destruct (lookup_lt_is_Some_2 outs (Z.to_nat i)) as [o Eo]; [unfold zlen in Hl; lia|].
  cbn [write_outputs]. rewrite Eb, Eo.
  rewrite Write_unlimited by (apply Hlim; by eapply list_elem_of_lookup_2).
  destruct (IH (i + 1) (<[Z.to_nat i := OsFile.OsF (OsFile.f_data o ++ b) None]> outs)
    (λ j, if decide (i = j) then g j ++ b else g j)) as (outs' & E & Ho'); [done| |lia..|].
  - pose proof (lookup_lt_Some _ _ _ Eo). split.
    + unfold zlen in *. by rewrite length_insert.
    + intros x Hx. apply list_elem_of_lookup_1 in Hx as [j Hj].
      apply list_lookup_insert_Some in Hj as [(_ & <- & _)|(_ & Hj)]; [done|].
      apply Hlim. by eapply list_elem_of_lookup_2.
    + intros j Hj. case_decide as Hij.
      * subst j. rewrite list_lookup_insert_eq by done. cbn. specialize (Hd i Hj). rewrite Eo in Hd.
        cbn in Hd. by injection Hd as ->.
      * rewrite list_lookup_insert_ne by lia. auto.
  - exists outs'. split; [done|]. destruct Ho' as [H1 H2 H3]. split; [done..|]. intros j Hj.
    rewrite H3 by done. f_equal. destruct (decide (i = j)) as [<-|].
    + rewrite decide_False, decide_True by lia. by rewrite Eb.
    + destruct (decide (i + 1 ≤ j)); [rewrite decide_True by lia|rewrite decide_False by lia]; done.
Qed.

(** One batch appends [B] bytes of every block. *)
Lemma one_batch p bs bufs outs g :
  bufs_ok bufs → outs_ok outs g → 0 ≤ p → 0 ≤ bs →
  ∃ outs' bufs', encodeDataOneBatch Encode f ctx p bs bufs outs = (outs', Ok bufs') ∧ bufs_ok bufs' ∧
    outs_ok outs' (λ j, g j ++ padded f (p + bs * j) B).
Proof.
  intros Hb Ho Hp Hbs. unfold encodeDataOneBatch.
  destruct (read_buffers_spec (Z.to_nat ds) p bs 0 bufs Hb) as (b1 & E1 & Hb1 & Hl1); [lia..|unfold Total; lia|].
  destruct (encode_law B b1 (proj1 Hb1) B_pos (proj2 Hb1)) as (b2 & E2 & Hl2 & Hb2 & Hk2).
  assert (bufs_ok b2) as Hok2 by done.
  destruct (write_outputs_spec (Z.to_nat (Total ctx)) 0 b2 outs g Hok2 Ho) as (outs' & E3 & Ho'); [lia|unfold Total; lia|].
  exists outs', b2. split; [|split; [done|]].
  - unfold mbind, SE_bind, se_lift, mret, SE_ret. by rewrite E1, E2, E3.
  - destruct Ho' as [H1 H2 H3]. split; [done..|]. intros j Hj. rewrite H3 by done. f_equal.
    rewrite decide_True by lia. rewrite Hk2 by lia. rewrite Hl1 by lia.
    by rewrite decide_True by lia.
Qed.

Lemma outs_ok_ext outs g h :
  outs_ok outs g → (∀ i, 0 ≤ i < ds → g i = h i) → outs_ok outs h.
Proof. intros [H1 H2 H3] He. split; [done..|]. intros i Hi. by rewrite H3, He. Qed.

Lemma batches k b p bs bufs outs g :
  bufs_ok bufs → outs_ok outs g → 0 ≤ p → 0 ≤ bs → 0 ≤ b →
  ∃ outs' bufs', encode_batches Encode f ctx k b p bs B bufs outs = (outs', Ok bufs') ∧ bufs_ok bufs' ∧
    outs_ok outs' (λ j, g j ++ padded f (p + b * B + bs * j) (Z.of_nat k * B)).
Proof.
  revert b bufs outs g. induction k as [|k IH]; intros b bufs outs g Hb Ho Hp Hbs Hb0.
  { exists outs, bufs. split_and!; [done..|]. eapply outs_ok_ext; [done|]. intros. cbn.
    by rewrite padded_0, app_nil_r. }
  destruct (one_batch (p + b * B) bs bufs outs g Hb Ho) as (o1 & b1 & E1 & Hb1 & Ho1); [nia|done|].
  destruct (IH (b + 1) b1 o1 _ Hb1 Ho1) as (o2 & b2 & E2 & Hb2 & Ho2); [done..|lia|].
  exists o2, b2. split; [|split; [done|]].
  - cbn [encode_batches]. unfold mbind, SE_bind. by rewrite E1, E2.
  - eapply outs_ok_ext; [done|]. intros i Hi. cbn beta. rewrite <- (assoc_L (++)). f_equal.
    replace (Z.of_nat (S k) * B) with (B + Z.of_nat k * B) by lia.
    rewrite padded_app by nia. do 2 f_equal. lia.
Qed.

(** A row appends one block to every data shard. *)
Lemma one_row p bs bufs outs g :
  bufs_ok bufs → outs_ok outs g → 0 ≤ p → 0 < bs → (B | bs) →
  ∃ outs' bufs', encodeData Encode f ctx p bs bufs outs = (outs', Ok bufs') ∧ bufs_ok bufs' ∧
    outs_ok outs' (λ j, g j ++ padded f (p + bs * j) bs).
Proof.
  intros Hb Ho Hp Hbs [q Hq]. unfold encodeData.
  destruct bufs as [|b0 rest] eqn:Eb.
  { destruct Hb as [Hl _]. rewrite zlen_nil in Hl. unfold Total in Hl. lia. }
  rewrite <- Eb in *. assert (zlen b0 = B) as HB by (apply Hb; subst; by left).
  rewrite HB, decide_False by lia. subst bs.
  rewrite Z.rem_mul, Z.quot_mul by lia. rewrite bool_decide_eq_true_2 by done. cbn [negb].
  destruct (batches (Z.to_nat q) 0 p (q * B) bufs outs g Hb Ho) as (o1 & b1 & E1 & Hb1 & Ho1); [lia..|].
  exists o1, b1. split; [done|]. split; [done|]. eapply outs_ok_ext; [done|]. intros i Hi. cbn beta.
  do 2 f_equal; [lia|]. rewrite Z2Nat.id by nia. done.
Qed.

Lemma row_step bs n p i :
  padded f (p + bs * i) bs ++ blocks n (p + bs * ds) bs i = blocks (S n) p bs i.
Proof. done. Qed.

Lemma large_loop_spec fuel L R p bufs outs g :
  bufs_ok bufs → outs_ok outs g → 0 ≤ p → 0 < L → (B | L) → 0 ≤ R < Z.of_nat fuel →
  let n := R `div` (L * ds) in
  ∃ outs' bufs', large_loop Encode f ctx fuel L R p bufs outs
      = (outs', Ok (R - n * (L * ds), p + n * (L * ds), bufs')) ∧ bufs_ok bufs' ∧
    outs_ok outs' (λ j, g j ++ blocks (Z.to_nat n) p L j).
Proof.
  revert R p bufs outs g. induction fuel as [|fuel IH]; intros R p bufs outs g Hb Ho Hp HL HB HR n; [lia|].
  assert (0 < L * ds) as Hrow by nia. cbn [large_loop]. case_decide as Hge.
  - destruct (one_row p L bufs outs g Hb Ho Hp HL HB) as (o1 & b1 & E1 & Hb1 & Ho1).
    destruct (IH (R - L * ds) (p + L * ds) b1 o1 _ Hb1 Ho1) as (o2 & b2 & E2 & Hb2 & Ho2); [nia|done..|nia|].
    assert (n = 1 + (R - L * ds) `div` (L * ds)) as En.
    { subst n. replace R with (R - L * ds + 1 * (L * ds)) at 1 by lia. rewrite Z.div_add by lia. lia. }
    assert (0 ≤ (R - L * ds) `div` (L * ds)) by (apply Z.div_pos; lia).
    exists o2, b2. split; [|split; [done|]].
    + unfold mbind, SE_bind. rewrite E1, E2, En. set (m := (R - L * ds) `div` (L * ds)).
      replace (R - L * ds - m * (L * ds)) with (R - (1 + m) * (L * ds)) by lia.
      by replace (p + L * ds + m * (L * ds)) with (p + (1 + m) * (L * ds)) by lia.
    + eapply outs_ok_ext; [done|]. intros i Hi. cbn beta. rewrite <- (assoc_L (++)), row_step.
      rewrite En. by rewrite Z2Nat.inj_add by lia.
  - assert (n = 0) as -> by (subst n; apply Z.div_small; lia).
    exists outs, bufs. split; [|split; [done|]].
    + unfold mret, SE_ret. by rewrite Z.mul_0_l, Z.sub_0_r, Z.add_0_r.
    + eapply outs_ok_ext; [done|]. intros. cbn. by rewrite app_nil_r.
Qed.

Lemma small_loop_spec fuel S R p bufs outs g :
  bufs_ok bufs → outs_ok outs g → 0 ≤ p → 0 < S → (B | S) → R < Z.of_nat fuel → 0 < Z.of_nat fuel →
  ∃ outs', small_loop Encode f ctx fuel S R p bufs outs = (outs', Ok tt) ∧
    outs_ok outs' (λ j, g j ++ blocks (Z.to_nat ((R + S * ds - 1) `div` (S * ds))) p S j).
Proof.
  revert R p bufs outs g. induction fuel as [|fuel IH]; intros R p bufs outs g Hb Ho Hp HS HB HR HF; [lia|].
  assert (0 < S * ds) as Hrow by nia. cbn [small_loop]. case_decide as Hge.
  - destruct (one_row p S bufs outs g Hb Ho Hp HS HB) as (o1 & b1 & E1 & Hb1 & Ho1).
    destruct (IH (R - S * ds) (p + S * ds) b1 o1 _ Hb1 Ho1) as (o2 & E2 & Ho2); [nia|done..|nia|lia|].
    exists o2. split; [unfold mbind, SE_bind; by rewrite E1, E2|].
    eapply outs_ok_ext; [done|]. intros i Hi. cbn beta. rewrite <- (assoc_L (++)), row_step.
    do 2 f_equal. rewrite <- Z2Nat.inj_succ by (apply Z.div_pos; lia). f_equal.
    replace (R + S * ds - 1) with (R - S * ds + S * ds - 1 + 1 * (S * ds)) by lia.
    rewrite Z.div_add by lia. lia.
  - exists outs. split; [done|]. eapply outs_ok_ext; [done|]. intros i Hi.
    rewrite Z2Nat.nonpos; [cbn; by rewrite app_nil_r|].
    assert ((R + S * ds - 1) `div` (S * ds) < 1); [|lia]. apply Z.div_lt_upper_bound; lia.
Qed.

Lemma encode_spec L S outs :
  outs_ok outs (λ _, []) → 0 < L → 0 < S → (B | L) → (B | S) →
  ∃ outs', encodeDatFile Encode f ctx (zlen f) B L S outs = (outs', Ok tt) ∧
    outs_ok outs' (data_shard f ds L S).
Proof.
  intros Ho HL HS HBL HBS. unfold encodeDatFile.
  assert (bufs_ok (replicate (Z.to_nat (Total ctx)) (zeros B))) as Hb.
  { split; [unfold zlen; rewrite length_replicate; unfold Total; lia|].
    intros b Hb'. apply elem_of_replicate in Hb' as [-> _]. rewrite zlen_zeros. lia. }
  pose proof (zlen_nonneg f). pose proof (large_count_spec f ds L HL ds_pos) as (Hn & Hle & Hlt).
  destruct (large_loop_spec (Datatypes.S (Z.to_nat (zlen f))) L (zlen f) 0 _ outs _ Hb Ho) as (o1 & b1 & E1 & Hb1 & Ho1);
    [lia|done|done|lia|]. fold (large_count f ds L) in E1, Ho1. set (n := large_count f ds L) in *.
  destruct (small_loop_spec (Datatypes.S (Z.to_nat (zlen f - n * (L * ds)))) S (zlen f - n * (L * ds))
    (0 + n * (L * ds)) b1 o1 _ Hb1 Ho1) as (o2 & E2 & Ho2); [nia|done|done|lia|lia|].
  exists o2. split.
  - unfold mbind, SE_bind at 1. rewrite E1. exact E2.
  - eapply outs_ok_ext; [done|]. intros i Hi. cbn. done.
Qed.
End encoder.
End EncoderSpec.

(** ** The decoder inverts it *)
Module DecoderSpec.
Import EcDecoder.

Section decoder.
Context (f : bytes).
Abbreviation blocks := (blocks f 10).

(** Shard [j] still has [h j] to read. *)
Definition inputs_ok (s : state) (h : Z → bytes) : Prop :=
  zlen (inputs s) = 10 ∧ ∀ j, 0 ≤ j < 10 → inputs s !! Z.to_nat j = Some (h j).

Lemma inputs_ok_ext s h k : inputs_ok s h → (∀ j, 0 ≤ j < 10 → h j = k j) → inputs_ok s k.
Proof. intros [H1 H2] He. split; [done|]. intros j Hj. by rewrite H2, He. Qed.

(** A copy that its shard can serve. *)
Lemma copy_spec s h i d t :
  inputs_ok s h → 0 ≤ i < 10 → h i = d ++ t →
  ∃ s', CopyN s i (zlen d) = Ok (s', zlen d) ∧ dat s' = dat s ++ d ∧
    inputs_ok s' (λ j, if decide (i = j) then t else h j).
Proof.
  intros [Hl Hh] Hi Hd. unfold CopyN. rewrite (Hh i Hi), Hd.
  rewrite (sub_app_l d t 0 (zlen d)), sub_all by lia. eexists. split; [done|]. split; [done|].
  split; cbn [inputs]; [unfold zlen in *; by rewrite length_insert|]. intros j Hj.
  rewrite drop_app_length. case_decide as E.
  - subst j. apply list_lookup_insert_eq. unfold zlen in Hl. lia.
  - rewrite list_lookup_insert_ne by lia. auto.
Qed.

Lemma large_row_spec k i L p R s t :
  0 ≤ p → 0 < L → 0 ≤ i → i + Z.of_nat k = 10 →
  inputs_ok s (λ j, if decide (i ≤ j) then padded f (p + L * j) L ++ t j else t j) →
  ∃ s', large_row k i L R s = Ok (s', R - L * Z.of_nat k) ∧
    dat s' = dat s ++ padded f (p + L * i) (L * Z.of_nat k) ∧ inputs_ok s' t.
Proof.
  intros Hp HL. revert i R s. induction k as [|k IH]; intros i R s Hi Hk Hin.
  { exists s. rewrite Z.mul_0_r, padded_0, app_nil_r. split; [cbn; by rewrite Z.sub_0_r|].
    split; [done|]. eapply inputs_ok_ext; [done|]. intros j Hj. cbn beta. by rewrite decide_False by lia. }
  destruct (copy_spec s _ i (padded f (p + L * i) L) (t i) Hin) as (s1 & E1 & D1 & I1);
    [lia|by rewrite decide_True by lia|].
  rewrite zlen_padded in E1 by nia. cbn [large_row]. rewrite E1, bind_ok, decide_True by done.
  destruct (IH (i + 1) (R - L) s1) as (s2 & -> & D2 & I2); [lia|lia| |].
  { eapply inputs_ok_ext; [done|]. intros j Hj. cbn beta. destruct (decide (i = j)) as [<-|];
      [by rewrite decide_False by lia|].
    destruct (decide (i + 1 ≤ j)); [rewrite decide_True by lia|rewrite decide_False by lia]; done. }
  exists s2. split_and!; [do 2 f_equal; lia| |done].
  rewrite D2, D1, <- (assoc_L (++)). f_equal.
  replace (L * Z.of_nat (S k)) with (L + L * Z.of_nat k) by lia. rewrite padded_app by nia.
  do 2 f_equal. lia.
Qed.

Lemma small_row_spec k i S p R s t :
  0 ≤ p → 0 < S → 0 ≤ i → i + Z.of_nat k = 10 → 0 ≤ R →
  inputs_ok s (λ j, if decide (i ≤ j) then padded f (p + S * j) S ++ t j else t j) →
  let n := Z.min R (S * Z.of_nat k) in
  ∃ s', small_row k i S R s = Ok (s', R - n) ∧
    dat s' = dat s ++ padded f (p + S * i) n ∧ (S * Z.of_nat k ≤ R → inputs_ok s' t).
Proof.
  intros Hp HS. cbv zeta. revert i R s t. induction k as [|k IH]; intros i R s t Hi Hk HR Hin.
  { exists s. rewrite Z.min_r, Z.mul_0_r, padded_0, app_nil_r by lia. split; [cbn; do 2 f_equal; lia|].
    split; [done|]. intros _. eapply inputs_ok_ext; [done|]. intros j Hj. cbn beta. by rewrite decide_False by lia. }
  set (r := Z.min R S). assert (EcDecoder.min R S = r) as Er by (unfold EcDecoder.min; case_decide; lia).
  set (left := padded f (p + S * i + r) (S - r) ++ t i).
  destruct (copy_spec s _ i (padded f (p + S * i) r) left Hin) as (s1 & E1 & D1 & I1); [lia| |].
  { subst left. rewrite decide_True by lia. rewrite (assoc_L (++)), <- padded_app by nia. do 2 f_equal. lia. }
  rewrite zlen_padded in E1 by nia. cbn [small_row]. rewrite Er, E1, bind_ok, decide_True by done.
  destruct (IH (i + 1) (R - r) s1 (λ j, if decide (i = j) then left else t j))
    as (s2 & -> & D2 & I2); [lia..| |].
  { eapply inputs_ok_ext; [done|]. intros j Hj. cbn beta. destruct (decide (i = j)) as [<-|].
    - by rewrite decide_False by lia.
    - destruct (decide (i + 1 ≤ j)); [rewrite decide_True by lia|rewrite decide_False by lia]; done. }
  exists s2. split_and!; [do 2 f_equal; lia| |].
  - rewrite D2, D1, <- (assoc_L (++)). f_equal.
    replace (Z.min R (S * Z.of_nat (Datatypes.S k))) with (r + Z.min (R - r) (S * Z.of_nat k)) by lia.
    rewrite padded_app by nia. f_equal. destruct (decide (S ≤ R)); [f_equal; lia|].
    by replace (Z.min (R - r) (S * Z.of_nat k)) with 0 by lia.
  - intros Hfull. eapply inputs_ok_ext; [apply I2; lia|]. intros j Hj. cbn beta. case_decide as E; [|done].
    subst j left. by replace (S - r) with 0 by lia.
Qed.

Lemma large_rows_spec fuel L p R s t :
  0 ≤ p → 0 < L → 0 ≤ R < Z.of_nat fuel →
  let n := R `div` (L * 10) in
  inputs_ok s (λ j, blocks (Z.to_nat n) p L j ++ t j) →
  ∃ s', large_rows fuel L R s = Ok (s', R - n * (L * 10)) ∧
    dat s' = dat s ++ padded f p (n * (L * 10)) ∧ inputs_ok s' t.
Proof.
  intros Hp HL. cbv zeta. revert p R s Hp. induction fuel as [|fuel IH]; intros p R s Hp HR Hin; [lia|].
  cbn [large_rows]. change EcShards.DataShardsCount with 10. case_decide as Hge.
  - assert (R `div` (L * 10) = 1 + (R - L * 10) `div` (L * 10)) as En.
    { replace R with (R - L * 10 + 1 * (L * 10)) at 1 by lia. rewrite Z.div_add by lia. lia. }
    set (m := (R - L * 10) `div` (L * 10)) in *. assert (0 ≤ m) by (apply Z.div_pos; lia).
    rewrite En in *. rewrite Z2Nat.inj_add in Hin by lia. change (Z.to_nat 1) with 1%nat in Hin.
    destruct (large_row_spec rows 0 L p R s (λ j, blocks (Z.to_nat m) (p + L * 10) L j ++ t j))
      as (s1 & -> & D1 & I1); [done|done|lia|done| |].
    { eapply inputs_ok_ext; [done|]. intros j Hj. cbn beta. rewrite decide_True by lia. cbn.
      by rewrite <- (assoc_L (++)). }
    change (Z.of_nat rows) with 10 in *. rewrite bind_ok.
    destruct (IH (p + L * 10) (R - L * 10) s1) as (s2 & -> & D2 & I2); [lia|lia|done|].
    fold m in D2 |- *. exists s2. split_and!; [do 2 f_equal; lia| |done].
    rewrite D2, D1, <- (assoc_L (++)). f_equal.
    replace ((1 + m) * (L * 10)) with (L * 10 + m * (L * 10)) by lia. rewrite padded_app by nia.
    by rewrite Z.mul_0_r, Z.add_0_r.
  - rewrite Z.div_small in * by lia. rewrite Z.mul_0_l, Z.sub_0_r, padded_0, app_nil_r. by exists s.
Qed.

Lemma small_rows_spec fuel S p R s t :
  0 ≤ p → 0 < S → 0 ≤ R < Z.of_nat fuel →
  inputs_ok s (λ j, blocks (Z.to_nat ((R + S * 10 - 1) `div` (S * 10))) p S j ++ t j) →
  ∃ s', small_rows fuel S R s = Ok s' ∧ dat s' = dat s ++ padded f p R.
Proof.
  intros Hp HS. revert p R s Hp. induction fuel as [|fuel IH]; intros p R s Hp HR Hin; [lia|].
  cbn [small_rows]. case_decide as Hge.
  - assert ((R + S * 10 - 1) `div` (S * 10) = 1 + (R - S * 10 + S * 10 - 1) `div` (S * 10)) as En.
    { replace (R + S * 10 - 1) with (R - S * 10 + S * 10 - 1 + 1 * (S * 10)) by lia.
      rewrite Z.div_add by lia. lia. }
    set (m := (R - S * 10 + S * 10 - 1) `div` (S * 10)) in *. assert (0 ≤ m) by (apply Z.div_pos; lia).
    rewrite En, Z2Nat.inj_add in Hin by lia. change (Z.to_nat 1) with 1%nat in Hin.
    destruct (small_row_spec rows 0 S p R s (λ j, blocks (Z.to_nat m) (p + S * 10) S j ++ t j))
      as (s1 & -> & D1 & I1); [done|done|lia|done|lia| |].
    { eapply inputs_ok_ext; [done|]. intros j Hj. cbn beta. rewrite decide_True by lia. cbn.
      by rewrite <- (assoc_L (++)). }
    change (Z.of_nat rows) with 10 in *. rewrite bind_ok. rewrite Z.mul_0_r, Z.add_0_r in D1.
    destruct (decide (S * 10 ≤ R)) as [Hfull|Hpart].
    + rewrite Z.min_r in * by lia.
      destruct (IH (p + S * 10) (R - S * 10) s1) as (s2 & -> & D2); [lia|lia|by apply I1|].
      exists s2. split; [done|]. rewrite D2, D1, <- (assoc_L (++)), <- padded_app by lia.
      do 2 f_equal. lia.
    + rewrite Z.min_l in * by lia. rewrite Z.sub_diag. exists s1. split; [|done].
      destruct fuel; [lia|done].
  - assert (R = 0) as -> by lia. rewrite padded_0, app_nil_r. by exists s.
Qed.

Lemma decode_spec L S shards :
  0 < L → 0 < S → zlen shards = 10 →
  (∀ j, 0 ≤ j < 10 → shards !! Z.to_nat j = Some (data_shard f 10 L S j)) →
  write_dat L S (zlen f) shards = Ok f.
Proof.
  intros HL HS Hl Hsh. unfold write_dat. pose proof (zlen_nonneg f).
  pose proof (large_count_spec f 10 L HL ltac:(lia)) as (Hn & Hle & Hlt).
  destruct (large_rows_spec (Datatypes.S (Z.to_nat (zlen f))) L 0 (zlen f) (St [] shards)
    (λ j, blocks (Z.to_nat (small_count f 10 L S)) (large_count f 10 L * (L * 10)) S j))
    as (s1 & E1 & D1 & I1); [lia..| |].
  { split; [done|]. intros j Hj. by rewrite Hsh. }
  rewrite E1, bind_ok. fold (large_count f 10 L) in *. set (n := large_count f 10 L) in *.
  destruct (small_rows_spec (Datatypes.S (Z.to_nat (zlen f - n * (L * 10)))) S (n * (L * 10))
    (zlen f - n * (L * 10)) s1 (λ _, [])) as (s2 & E2 & D2); [lia..| |].
  { eapply inputs_ok_ext; [done|]. intros j Hj. cbn beta. by rewrite app_nil_r. }
  rewrite E2, bind_ok. unfold mret, res_ret. f_equal. rewrite D2, D1. cbn [dat app].
  rewrite <- padded_app by lia. replace (n * (L * 10) + (zlen f - n * (L * 10))) with (zlen f) by lia.
  rewrite padded_full by lia. by apply sub_all.
Qed.
End decoder.
End DecoderSpec.

(** ** The located intervals read it *)
Module LocateSpec.
Import EcLocate.

Section locate.
Context (f : bytes) (L S : Z).
Hypothesis L_pos : 0 < L.
Hypothesis S_pos : 0 < S.
Abbreviation nL := (large_count f 10 L).

(** The bytes an interval denotes. *)
Definition read_interval (iv : Interval) : bytes :=
  let '(shard, off) := ToShardIdAndOffset iv L S in
  sub (data_shard f 10 L S shard) off (iSize iv).

(** Block [b] at [inner] is position [pos] of the volume. *)
Definition at_pos (b : Z) (large : bool) (inner pos : Z) : Prop :=
  0 ≤ b ∧ 0 ≤ inner < (if large then L else S) ∧
  if large then b < nL * 10 ∧ pos = b * L + inner else pos = nL * (L * 10) + b * S + inner.

Lemma shard_range_large b inner k :
  0 ≤ b < nL * 10 → 0 ≤ inner → 0 ≤ k → inner + k ≤ L →
  sub (data_shard f 10 L S (b `mod` 10)) (inner + b `div` 10 * L) k = padded f (b * L + inner) k.
Proof.
  intros Hb Hi Hk Hik. pose proof (Z.div_mod b 10 ltac:(lia)). pose proof (Z.mod_pos_bound b 10 ltac:(lia)).
  assert (b `div` 10 < nL) by (apply Z.div_lt_upper_bound; lia).
  assert (0 ≤ b `div` 10) by (apply Z.div_pos; lia).
  unfold data_shard. rewrite sub_app_l by (rewrite ?zlen_blocks by lia; nia).
  rewrite (Z.add_comm inner), sub_blocks by lia. f_equal. nia.
Qed.

Lemma shard_range_small b inner k :
  0 ≤ b → 0 ≤ inner → 0 ≤ k → inner + k ≤ S → nL * (L * 10) + b * S + inner < zlen f →
  sub (data_shard f 10 L S (b `mod` 10)) (inner + (nL * L + b `div` 10 * S)) k
  = padded f (nL * (L * 10) + b * S + inner) k.
Proof.
  intros Hb Hi Hk Hik Hpos. pose proof (Z.div_mod b 10 ltac:(lia)). pose proof (Z.mod_pos_bound b 10 ltac:(lia)).
  pose proof (large_count_spec f 10 L L_pos ltac:(lia)) as (Hn & Hle & Hlt).
  assert (0 ≤ b `div` 10) by (apply Z.div_pos; lia).
  assert (b `div` 10 < small_count f 10 L S) as Hr.
  { apply Z.le_succ_l. unfold small_count. apply Z.div_le_lower_bound; [lia|]. nia. }
  unfold data_shard. rewrite sub_app_r by (rewrite zlen_blocks by lia; nia).
  rewrite zlen_blocks by lia. rewrite Z2Nat.id by lia.
  replace (inner + (nL * L + b `div` 10 * S) - nL * L) with (b `div` 10 * S + inner) by lia.
  rewrite sub_blocks by nia. f_equal. nia.
Qed.

Lemma read_at b large inner pos k :
  at_pos b large inner pos → 0 ≤ k → inner + k ≤ (if large then L else S) → pos + k ≤ zlen f → pos < zlen f →
  read_interval (Ivl b inner k large nL) = sub f pos k.
Proof.
  intros (Hb & Hi & Hp) Hk Hik Hpos Hlt. unfold read_interval, ToShardIdAndOffset.
  cbn [BlockIndex InnerBlockOffset IsLargeBlock LargeBlockRowsCount iSize].
  change EcShards.DataShardsCount with 10.
  rewrite Z.rem_mod_nonneg, Z.quot_div_nonneg by lia.
  pose proof (Z.mod_pos_bound b 10 ltac:(lia)).
  rewrite wrap_id by (unfold in_u; change (2 ^ 8) with 256; lia).
  pose proof (large_count_spec f 10 L L_pos ltac:(lia)) as (Hn & _ & _).
  destruct large.
  - destruct Hp as [Hbn ->]. rewrite shard_range_large by lia. apply padded_full; nia.
  - subst pos. rewrite shard_range_small by lia. apply padded_full; nia.
Qed.

(** Past the end of a block comes the next one. *)
Lemma move_pos b large inner pos :
  at_pos b large inner pos →
  let '(b', large') := moveToNextBlock b large nL in
  at_pos b' large' 0 (pos + ((if large then L else S) - inner)).
Proof.
  intros (Hb & Hi & Hp). unfold moveToNextBlock. change EcShards.DataShardsCount with 10.
  destruct large; cbn [andb]; [case_bool_decide as E|]; unfold at_pos; cbn beta iota.
  - split_and!; [lia..|]. destruct Hp as [_ ->]. nia.
  - split_and!; [lia..| |]; destruct Hp as [? ->]; nia.
  - split_and!; [lia..|]. subst. nia.
Qed.

(** Intervals are not empty and lie in the shards. *)
Definition good (iv : Interval) : Prop :=
  0 < iSize iv ∧ 0 ≤ BlockIndex iv ∧ 0 ≤ (ToShardIdAndOffset iv L S).2.

Lemma good_at b large inner pos k : at_pos b large inner pos → 0 < k → good (Ivl b inner k large nL).
Proof.
  intros (Hb & Hi & _) Hk. pose proof (large_count_spec f 10 L L_pos ltac:(lia)) as (Hn & _ & _).
  unfold good, ToShardIdAndOffset. cbn. rewrite Z.quot_div_nonneg by (unfold EcShards.DataShardsCount; lia).
  pose proof (Z.div_pos b EcShards.DataShardsCount Hb ltac:(done)).
  split_and!; [done..|]. destruct large; nia.
Qed.

(** Enough fuel for one interval per byte. *)
Lemma locate_loop_spec fuel b large inner pos size :
  at_pos b large inner pos → 0 ≤ size < Z.of_nat fuel → in_s 32 size → pos + size ≤ zlen f →
  ∃ ivs, locate_loop fuel L S nL b large inner size = Some ivs ∧
    (ivs ≫= read_interval) = sub f pos size ∧ ∀ iv, iv ∈ ivs → good iv.
Proof.
  revert b large inner pos size. induction fuel as [|fuel IH];
    intros b large inner pos size Hat Hs Hw Hp; [lia|]. cbn [locate_loop].
  case_decide as H0.
  2:{ exists []. replace size with 0 by lia. split; [done|]. split; [done|]. intros iv Hiv.
      by apply not_elem_of_nil in Hiv. }
  pose proof Hat as (_ & Hi & _).
  replace (if large then L - inner else S - inner) with ((if large then L else S) - inner)
    by (by destruct large).
  set (rem := (if large then L else S) - inner) in *. rewrite decide_False by lia. case_decide as Hle.
  - exists [Ivl b inner size large nL]. split; [done|]. split.
    + cbn [mbind list_bind]. rewrite app_nil_r. apply read_at; [done|lia..].
    + intros iv Hiv. apply list_elem_of_singleton in Hiv as ->. by eapply good_at.
  - assert (in_s 32 rem) as Hr by (unfold in_s in *; lia).
    rewrite (swrap_id 32 rem) by done. cbn [iSize]. unfold sub32.
    rewrite (swrap_id 32 (size - rem)) by (unfold in_s in *; lia).
    pose proof (move_pos b large inner pos Hat) as Hm.
    destruct (moveToNextBlock b large nL) as [b' large']. fold rem in Hm.
    destruct (IH b' large' 0 (pos + rem) (size - rem) Hm) as (ivs & -> & Hr1 & Hr2);
      [lia|unfold in_s in *; lia|lia|].
    exists (Ivl b inner rem large nL :: ivs). split; [done|]. split.
    + change ((Ivl b inner rem large nL :: ivs) ≫= read_interval) with (read_interval (Ivl b inner rem large nL) ++ (ivs ≫= read_interval)).
      rewrite Hr1, (read_at _ _ _ pos) by (done || lia).
      pose proof (large_count_spec f 10 L L_pos ltac:(lia)) as (Hn0 & _ & _).
      assert (0 ≤ pos).
      { destruct Hat as (? & ? & Hpos). destruct large; [destruct Hpos as [_ ->]|subst pos]; nia. }
      rewrite <- sub_split by lia. f_equal. lia.
    + intros iv Hiv. apply elem_of_cons in Hiv as [->|Hiv]; [eapply good_at; [done|lia]|auto].
Qed.

Lemma locate_spec shardDatSize offset size :
  Z.quot (shardDatSize - 1) L = nL → 0 ≤ offset → 0 ≤ size → in_s 32 size → offset + size ≤ zlen f →
  ∃ ivs, LocateData L S shardDatSize offset size = Some ivs ∧
    (ivs ≫= read_interval) = sub f offset size ∧ ∀ iv, iv ∈ ivs → good iv.
Proof.
  intros Hn Ho Hs Hw Hp. unfold LocateData, locateOffset, locateOffsetWithinBlocks. rewrite Hn.
  change EcShards.DataShardsCount with 10.
  pose proof (large_count_spec f 10 L L_pos ltac:(lia)) as (Hn0 & _ & _).
  case_decide as Hlt.
  - rewrite Z.quot_div_nonneg, Z.rem_mod_nonneg by lia.
    apply locate_loop_spec; [|lia|done|done].
    pose proof (Z.div_mod offset L ltac:(lia)). pose proof (Z.mod_pos_bound offset L ltac:(lia)).
    assert (0 ≤ offset `div` L) by (apply Z.div_pos; lia).
    assert (offset `div` L < nL * 10) by (apply Z.div_lt_upper_bound; nia).
    split_and!; [lia..|nia].
  - rewrite Z.quot_div_nonneg, Z.rem_mod_nonneg by lia.
    apply locate_loop_spec; [|lia|done|done]. set (o := offset - nL * (L * 10)) in *.
    pose proof (Z.div_mod o S ltac:(lia)). pose proof (Z.mod_pos_bound o S ltac:(lia)).
    assert (0 ≤ o `div` S) by (apply Z.div_pos; lia).
    split_and!; [lia..|nia].
Qed.
End locate.
End LocateSpec.

(** ** Shards of a volume *)
Module EcVolumeSpec.
Import EcEncoder EcLocate.

Definition fresh (ctx : ECContext) : outputs :=
  replicate (Z.to_nat (Total ctx)) (OsFile.OsF [] None).

Lemma fresh_ok ctx :
  0 < DataShards ctx → 0 ≤ ParityShards ctx → EncoderSpec.outs_ok ctx (fresh ctx) (λ _, []).
Proof.
  intros Hd Hp. unfold fresh, Total. split.
  - unfold zlen. rewrite length_replicate. unfold Total. lia.
  - intros o Ho. by apply elem_of_replicate in Ho as [-> _].
  - intros i Hi. rewrite lookup_replicate_2 by lia. done.
Qed.

(** The bytes an interval denotes in the shard files. *)
Definition read_shards (files : outputs) (L S : Z) (iv : Interval) : bytes :=
  let '(shard, off) := ToShardIdAndOffset iv L S in
  match files !! Z.to_nat shard with
  | Some o => (OsFile.ReadAt (OsFile.f_data o) off (iSize iv)).1
  | None => []
  end.

Section volume.
Context (Encode : list bytes → res (list bytes)) (ctx : ECContext) (f : bytes) (B L S : Z).

(** Ten data shards, and blocks made of whole buffers. *)
Record setting : Prop := {
  set_data : DataShards ctx = 10;
  set_parity : 0 ≤ ParityShards ctx;
  set_buffer : 0 < B;
  set_large : 0 < L;
  set_small : 0 < S;
  set_large_div : (B | L);
  set_small_div : (B | S) }.

Context {laws : EncoderSpec.EncoderLaws ctx Encode}.

Lemma generate_spec :
  setting →
  ∃ files, generateEcFiles Encode f ctx B L S (fresh ctx) = (files, Ok tt) ∧
    EncoderSpec.outs_ok ctx files (data_shard f 10 L S).
Proof.
  intros [Hd Hp HB HL HS HBL HBS]. unfold generateEcFiles.
  destruct (EncoderSpec.encode_spec Encode f ctx B HB ltac:(lia) Hp L S (fresh ctx)
    (fresh_ok ctx ltac:(lia) Hp) HL HS HBL HBS) as (files & E & Ho).
  exists files. split; [done|]. by rewrite Hd in Ho.
Qed.

(** C17: erasure coding loses nothing: from any volume file, encoding succeeds and the
    ten data shards it writes decode to the same bytes. *)
Theorem ec_roundtrip :
  setting →
  ∃ files, generateEcFiles Encode f ctx B L S (fresh ctx) = (files, Ok tt) ∧
    EcDecoder.write_dat L S (zlen f) (take 10 (OsFile.f_data <$> files)) = Ok f.
Proof.
  intros Hs. destruct (generate_spec Hs) as (files & E & [Hl _ Hd]). exists files. split; [done|].
  rewrite (set_data Hs) in Hd. apply DecoderSpec.decode_spec; [apply Hs..| |].
  - unfold Total in Hl. rewrite (set_data Hs) in Hl. pose proof (set_parity Hs).
    unfold zlen in *. rewrite length_take, length_fmap. lia.
  - intros j Hj. rewrite lookup_take_lt by lia. rewrite list_lookup_fmap. by apply Hd.
Qed.

Lemma read_shards_spec files iv :
  setting → EncoderSpec.outs_ok ctx files (data_shard f 10 L S) →
  0 ≤ BlockIndex iv → 0 ≤ (ToShardIdAndOffset iv L S).2 →
  read_shards files L S iv = LocateSpec.read_interval f L S iv.
Proof.
  intros Hs [_ _ Hd] Hb Ho. unfold read_shards, LocateSpec.read_interval.
  destruct (ToShardIdAndOffset iv L S) as [shard off] eqn:E. cbn in Ho.
  assert (0 ≤ shard < 10) as Hr.
  { unfold ToShardIdAndOffset in E. injection E as <- _. change EcShards.DataShardsCount with 10.
    rewrite Z.rem_mod_nonneg by lia. pose proof (Z.mod_pos_bound (BlockIndex iv) 10 ltac:(lia)).
    rewrite wrap_id; [lia|]. unfold in_u. change (2 ^ 8) with 256. lia. }
  rewrite (set_data Hs) in Hd. specialize (Hd shard Hr).
  destruct (files !! Z.to_nat shard) as [o|]; [|done]. cbn in Hd. injection Hd as ->.
  unfold OsFile.ReadAt. by rewrite decide_False by lia.
Qed.

Lemma locate_in_shards shardDatSize offset size :
  setting → Z.quot (shardDatSize - 1) L = zlen f `div` (L * 10) →
  0 ≤ offset → 0 ≤ size → in_s 32 size → offset + size ≤ zlen f →
  ∃ files ivs, generateEcFiles Encode f ctx B L S (fresh ctx) = (files, Ok tt) ∧
    LocateData L S shardDatSize offset size = Some ivs ∧
    (ivs ≫= read_shards files L S) = sub f offset size.
Proof.
  intros Hs Hn Ho Hz Hw Hp. destruct (generate_spec Hs) as (files & E & Hok).
  destruct (LocateSpec.locate_spec f L S (set_large Hs) (set_small Hs) shardDatSize offset size)
    as (ivs & El & Hr & Hg); [done..|].
  exists files, ivs. split_and!; [done..|]. rewrite <- Hr. clear -Hg Hok Hs.
  induction ivs as [|iv ivs IH]; [done|].
  change ((iv :: ivs) ≫= ?g) with (g iv ++ (ivs ≫= g)). rewrite IH by (intros; apply Hg; by right).
  f_equal. destruct (Hg iv ltac:(by left)) as (_ & H1 & H2). by apply read_shards_spec.
Qed.

(** C18: [LocateData] finds a range of the volume in the shards: when the number of
    large rows it computes is the one the encoder used, it returns (its loop ends),
    and reading its intervals from the shard files gives the bytes of the range. *)
Theorem ec_locate shardDatSize offset size :
  setting → Z.quot (shardDatSize - 1) L = zlen f `div` (L * 10) →
  0 ≤ offset → 0 ≤ size → in_s 32 size → offset + size ≤ zlen f →
  ∃ files ivs, generateEcFiles Encode f ctx B L S (fresh ctx) = (files, Ok tt) ∧
    LocateData L S shardDatSize offset size = Some ivs ∧
    (ivs ≫= read_shards files L S) = sub f offset size.
Proof. apply locate_in_shards. Qed.
End volume.

(** A coder for the examples: it clears the parity buffers. *)
Definition zero_parity (bufs : list bytes) : res (list bytes) :=
  Ok (take 10 bufs ++ ((λ b, zeros (zlen b)) <$> drop 10 bufs)).

#[global] Instance zero_parity_laws p : EncoderSpec.EncoderLaws (Ctx 10 p) zero_parity.
Proof.
  split. intros B bufs Hl HB Hb. eexists. split; [done|]. split_and!.
  - rewrite <- Hl. unfold zlen. rewrite length_app, length_fmap, length_take, length_drop. lia.
  - intros b Hin. apply elem_of_app in Hin as [Hin|Hin].
    + apply Hb. rewrite <- (take_drop 10 bufs). apply elem_of_app. by left.
    + apply list_elem_of_fmap in Hin as (c & -> & Hc). rewrite zlen_zeros.
      rewrite (Hb c); [lia|]. rewrite <- (take_drop 10 bufs). apply elem_of_app. by right.
  - intros i Hi. cbn in Hi. destruct (decide (i < length bufs)%nat).
    + rewrite lookup_app_l by (rewrite length_take; lia). by rewrite lookup_take_lt by lia.
    + rewrite !lookup_ge_None_2; [done|lia|]. rewrite length_app, length_fmap, length_take, length_drop. lia.
Qed.

Definition sample_volume : bytes := seqZ 0 55.
Lemma sample_setting : setting (Ctx 10 4) 1 4 2.
Proof. split; first [done | apply Z.divide_1_l]. Qed.

Lemma ec_roundtrip_witness :
  ∃ files, generateEcFiles zero_parity sample_volume (Ctx 10 4) 1 4 2 (fresh (Ctx 10 4)) = (files, Ok tt) ∧
    EcDecoder.write_dat 4 2 55 (take 10 (OsFile.f_data <$> files)) = Ok sample_volume.
Proof. exact (ec_roundtrip zero_parity (Ctx 10 4) sample_volume 1 4 2 sample_setting). Defined.

Lemma ec_locate_witness :
  ∃ files ivs, generateEcFiles zero_parity sample_volume (Ctx 10 4) 1 4 2 (fresh (Ctx 10 4)) = (files, Ok tt) ∧
    LocateData 4 2 5 36 8 = Some ivs ∧
    (ivs ≫= read_shards files 4 2) = [36; 37; 38; 39; 40; 41; 42; 43].
Proof.
  apply (ec_locate zero_parity (Ctx 10 4) sample_volume 1 4 2 5 36 8 sample_setting);
    [reflexivity|discriminate|discriminate|split; [discriminate|reflexivity]|discriminate].
Defined.

(** ** Which row count a mounted volume computes *)

Lemma large_rows_located L D :
  1 < L → 0 < D →
  Z.quot (located_shard_size 0 D 10 - 1) L
  = D `div` (L * 10) - (if decide (L * 10 ≤ D ∧ D `mod` (L * 10) < 10) then 1 else 0).
Proof.
  intros HL HD. unfold located_shard_size. rewrite decide_True by done.
  rewrite (Z.quot_div_nonneg D 10) by lia.
  pose proof (Z.div_mod D (L * 10) ltac:(lia)) as Hdm.
  pose proof (Z.mod_pos_bound D (L * 10) ltac:(lia)) as Hr.
  set (q := D `div` (L * 10)) in *. set (r := D `mod` (L * 10)) in *.
  assert (0 ≤ q) by (apply Z.div_pos; lia).
  assert (D `div` 10 = q * L + r `div` 10) as ->.
  { rewrite Hdm. replace (L * 10 * q + r) with (r + q * L * 10) by lia. rewrite Z.div_add by lia. lia. }
  pose proof (Z.div_mod r 10 ltac:(lia)). pose proof (Z.mod_pos_bound r 10 ltac:(lia)).
  case_decide as Hc.
  - replace (r `div` 10) with 0 by lia. assert (1 ≤ q) by nia.
    rewrite Z.quot_div_nonneg by nia. symmetry. apply Z.div_unique with (r := L - 1); lia.
  - destruct (decide (r < 10)).
    + assert (q = 0) as -> by nia. replace (r `div` 10) with 0 by lia.
      change (0 * L + 0 - 1) with (- (1)). rewrite Z.quot_opp_l, Z.quot_small by lia. done.
    + rewrite Z.quot_div_nonneg by nia. symmetry. rewrite Z.sub_0_r.
      apply Z.div_unique with (r := r `div` 10 - 1); lia.
Qed.

(** The same count from the size of a data shard, when the volume size is not recorded. *)
Lemma large_rows_unrecorded f L S i :
  1 < L → 1 < S → (S | L) → 0 < zlen f → 0 ≤ i →
  Z.quot (located_shard_size (zlen (data_shard f 10 L S i)) 0 10 - 1) L
  = large_count f 10 L
    - (if decide (0 < large_count f 10 L ∧ zlen f - large_count f 10 L * (L * 10) < 1) then 1 else 0).
Proof.
  intros HL HS [k Hk] Hf Hi. unfold located_shard_size. rewrite decide_False by lia.
  destruct (large_count_spec f 10 L) as (H0 & H1 & H2); [lia..|].
  set (q := large_count f 10 L) in *. set (r := zlen f - q * (L * 10)).
  assert (0 ≤ small_count f 10 L S) as Hc0 by (unfold small_count; apply Z.div_pos; fold q; lia).
  assert (zlen (data_shard f 10 L S i) = q * L + small_count f 10 L S * S) as ->.
  { unfold data_shard. fold q. rewrite zlen_app, !zlen_blocks, !Z2Nat.id by lia. lia. }
  assert (small_count f 10 L S = (r + S * 10 - 1) `div` (S * 10)) as -> by done.
  pose proof (Z.div_mod (r + S * 10 - 1) (S * 10) ltac:(lia)).
  pose proof (Z.mod_pos_bound (r + S * 10 - 1) (S * 10) ltac:(lia)).
  set (c := (r + S * 10 - 1) `div` (S * 10)) in *.
  destruct (decide (r = 0)) as [Hr|Hr].
  - assert (c = 0) as -> by nia. assert (0 < q) by nia. rewrite decide_True by lia.
    rewrite Z.quot_div_nonneg by nia. symmetry. apply Z.div_unique with (r := L - 2); lia.
  - rewrite decide_False by lia. assert (1 ≤ c ≤ k) by nia.
    rewrite Z.quot_div_nonneg by nia. symmetry. apply Z.div_unique with (r := c * S - 2); nia.
Qed.

Lemma large_rows_reader f L S i recorded :
  1 < L → 1 < S → (S | L) → 0 < zlen f → recorded = 0 ∨ recorded = zlen f → 0 ≤ i →
  Z.quot (located_shard_size (zlen (data_shard f 10 L S i)) recorded 10 - 1) L
  = large_count f 10 L
    - (if decide (0 < large_count f 10 L
          ∧ zlen f - large_count f 10 L * (L * 10) < if decide (recorded = 0) then 1 else 10) then 1 else 0).
Proof.
  intros HL HS Hdiv Hf Hrec Hi. destruct (decide (recorded = 0)) as [->|Hne]; [by apply large_rows_unrecorded|].
  destruct Hrec as [?|Hrec]; [done|]. subst recorded.
  transitivity (Z.quot (located_shard_size 0 (zlen f) 10 - 1) L).
  { unfold located_shard_size. by rewrite !decide_True by done. }
  rewrite large_rows_located by done. unfold large_count.
  pose proof (Z.div_mod (zlen f) (L * 10) ltac:(lia)). pose proof (Z.mod_pos_bound (zlen f) (L * 10) ltac:(lia)).
  set (q := zlen f `div` (L * 10)) in *. f_equal. apply decide_ext. nia.
Qed.

(** C40: the number of large rows a mounted volume reads with, from a tenth of the
    recorded volume size or, when none is recorded, from the size of a data shard, against
    the number the encoder's first loop writes: it is the same, and then any range is read
    from the shards as the bytes of the volume, unless the volume ends within ten bytes
    after whole large rows (exactly there, when its size is not recorded); there the count
    is one too small ([last_row_misread]). *)
Theorem large_row_agreement Encode ctx f B L S recorded i `{EncoderSpec.EncoderLaws ctx Encode} :
  setting ctx B L S → 1 < L → 1 < S → (S | L) → 0 < zlen f → recorded = 0 ∨ recorded = zlen f → 0 ≤ i < 10 →
  ∃ outs rest rows bufs files shard,
    large_loop Encode f ctx (Datatypes.S (Z.to_nat (zlen f))) L (zlen f) 0
      (replicate (Z.to_nat (Total ctx)) (zeros B)) (fresh ctx) = (outs, Ok (rest, rows * (L * 10), bufs)) ∧
    generateEcFiles Encode f ctx B L S (fresh ctx) = (files, Ok tt) ∧ files !! Z.to_nat i = Some shard ∧
    let size := located_shard_size (zlen (OsFile.f_data shard)) recorded 10 in
    let short := 0 < rows ∧ rest < if decide (recorded = 0) then 1 else 10 in
    (∀ offset, (locateOffset L S size offset).1.2 = rows - if decide short then 1 else 0) ∧
    (¬ short → ∀ offset n, 0 ≤ offset → 0 ≤ n → in_s 32 n → offset + n ≤ zlen f →
       ∃ ivs, LocateData L S size offset n = Some ivs ∧ (ivs ≫= read_shards files L S) = sub f offset n).
Proof.
  intros Hs HL HS Hdiv Hf Hrec Hi. destruct (generate_spec Encode ctx f B L S Hs) as (files & E & Hok).
  pose proof (set_data _ _ _ _ Hs) as Hd. pose proof (EncoderSpec.oo_data _ _ _ Hok i ltac:(lia)) as Hsh.
  destruct (files !! Z.to_nat i) as [shard|] eqn:Ei; [|done]. injection Hsh as Hsh.
  assert (EncoderSpec.bufs_ok ctx B (replicate (Z.to_nat (Total ctx)) (zeros B))) as Hb.
  { pose proof (set_buffer _ _ _ _ Hs). pose proof (set_parity _ _ _ _ Hs). split.
    - unfold zlen. rewrite length_replicate. unfold Total. lia.
    - intros b Hb'. apply elem_of_replicate in Hb' as [-> _]. rewrite zlen_zeros. lia. }
  destruct (EncoderSpec.large_loop_spec Encode f ctx B (set_buffer _ _ _ _ Hs) ltac:(lia)
    (set_parity _ _ _ _ Hs) (Datatypes.S (Z.to_nat (zlen f))) L (zlen f) 0 _ (fresh ctx) _ Hb
    (fresh_ok ctx ltac:(lia) (set_parity _ _ _ _ Hs))) as (outs & bufs & El & _);
    [lia|lia|by apply (set_large_div _ _ _ _ Hs)|lia|].
  rewrite Hd in El. rewrite Z.add_0_l in El.
  pose proof (large_rows_reader f L S i recorded HL HS Hdiv Hf Hrec ltac:(lia)) as Hn. rewrite <- Hsh in Hn.
  unfold large_count in Hn. set (rows := zlen f `div` (L * 10)) in *.
  exists outs, (zlen f - rows * (L * 10)), rows, bufs, files, shard. split_and!; [done|done|done|].
  intros size short. fold size in Hn. split.
  - intros offset. unfold locateOffset, locateOffsetWithinBlocks. etransitivity; [|exact Hn]. by destruct (decide (offset < _)).
  - intros Hshort offset n Ho Hn0 Hw Hp. fold short in Hn. rewrite decide_False, Z.sub_0_r in Hn by done.
    destruct (locate_in_shards Encode ctx f B L S size offset n Hs Hn Ho Hn0 Hw Hp) as (files' & ivs & E' & Eloc & Er).
    rewrite E in E'. injection E' as <-. by exists ivs.
Qed.

Lemma large_row_agreement_witness :
  ∃ outs rest rows bufs files shard,
    large_loop zero_parity sample_volume (Ctx 10 4) 56 4 55 0 (replicate 14 (zeros 1)) (fresh (Ctx 10 4))
      = (outs, Ok (rest, rows * 40, bufs)) ∧
    generateEcFiles zero_parity sample_volume (Ctx 10 4) 1 4 2 (fresh (Ctx 10 4)) = (files, Ok tt) ∧
    files !! 3%nat = Some shard ∧
    let size := located_shard_size (zlen (OsFile.f_data shard)) 55 10 in
    let short := 0 < rows ∧ rest < if decide (55 = 0) then 1 else 10 in
    (∀ offset, (locateOffset 4 2 size offset).1.2 = rows - if decide short then 1 else 0) ∧
    (¬ short → ∀ offset n, 0 ≤ offset → 0 ≤ n → in_s 32 n → offset + n ≤ 55 →
       ∃ ivs, LocateData 4 2 size offset n = Some ivs ∧ (ivs ≫= read_shards files 4 2) = sub sample_volume offset n).
Proof.
  apply (large_row_agreement zero_parity (Ctx 10 4) sample_volume 1 4 2 55 3 sample_setting);
    [reflexivity|reflexivity|by exists 2|reflexivity|right; reflexivity|lia].
Defined.

(** A volume of exactly one large row: its sixth byte is looked for in small blocks, and
    another byte is read; the size recorded or not. *)
Example last_row_misread :
  let f := seqZ 0 40 in
  let files := (generateEcFiles zero_parity f (Ctx 10 4) 1 4 2 (fresh (Ctx 10 4))).1 in
  let read recorded := match LocateData 4 2 (located_shard_size 4 recorded 10) 5 1 with
                       | Some ivs => ivs ≫= read_shards files 4 2 | None => [] end in
  sub f 5 1 = [5] ∧ read 40 = [9] ∧ read 0 = [9].
Proof. vm_compute. repeat split. Qed.

(** ** Needles in the shards *)

Lemma actual_size_range size version : 0 ≤ size → size + 21 ≤ Needle.GetActualSize size version ≤ size + 43.
Proof.
  intros. unfold Needle.GetActualSize, Needle.NeedleBodyLength, Needle.NeedleChecksumSize.
  unfold NeedleHeaderSize, TimestampSize, CookieSize, NeedleIdSize, SizeSize.
  pose proof (Layout.padding_range size version). case_decide; lia.
Qed.

(** reading a needle through its intervals starts with the needle's record; the
    intervals ask for more, since the size handed on is already the size on disk
    and is converted a second time. *)
Theorem ec_locate_needle Encode ctx f B L S version o size `{EncoderSpec.EncoderLaws ctx Encode} :
  let actual := Needle.GetActualSize size version in
  let asked := Needle.GetActualSize actual version in
  let off := Offset.ToActualOffset o in
  setting ctx B L S → 1 < L → ¬ (L * 10 ≤ zlen f ∧ zlen f `mod` (L * 10) < 10) →
  0 ≤ size → in_s 32 asked → 0 ≤ off → off + asked ≤ zlen f →
  ∃ files ivs, generateEcFiles Encode f ctx B L S (fresh ctx) = (files, Ok tt) ∧
    LocateEcShardNeedle L S 0 (zlen f) 10 version o size = Some ivs ∧
    (ivs ≫= read_shards files L S) = sub f off asked ∧ actual < asked ∧
    sub (ivs ≫= read_shards files L S) 0 actual = sub f off actual.
Proof.
  intros actual asked off Hs HL Hrow Hz Hw Ho Hp.
  pose proof (actual_size_range size version Hz) as H1. fold actual in H1.
  pose proof (actual_size_range actual version ltac:(lia)) as H2. fold asked in H2.
  assert (0 < zlen f) by lia.
  unfold LocateEcShardNeedle, LocateEcShardNeedleInterval. fold off actual.
  rewrite (swrap_id 32 actual) by (done || unfold in_s in *; lia). fold asked.
  rewrite (swrap_id 32 asked) by done.
  pose proof (large_rows_located L (zlen f) HL ltac:(lia)) as Hn.
  rewrite decide_False, Z.sub_0_r in Hn by done.
  destruct (locate_in_shards Encode ctx f B L S _ off asked Hs Hn Ho ltac:(lia) Hw Hp)
    as (files & ivs & E & El & Hr).
  exists files, ivs. split_and!; [done..|lia|]. rewrite Hr, sub_sub by lia. by rewrite Z.add_0_r.
Qed.

Lemma ec_locate_needle_witness :
  ∃ files ivs, generateEcFiles zero_parity (seqZ 0 175) (Ctx 10 4) 1 4 2 (fresh (Ctx 10 4)) = (files, Ok tt) ∧
    LocateEcShardNeedle 4 2 0 175 10 3 (Offset.Mk 0 0 0 1) 5 = Some ivs ∧
    (ivs ≫= read_shards files 4 2) = seqZ 8 72 ∧ 40 < 72 ∧
    sub (ivs ≫= read_shards files 4 2) 0 40 = seqZ 8 40.
Proof.
  apply (ec_locate_needle zero_parity (Ctx 10 4) (seqZ 0 175) 1 4 2 3 (Offset.Mk 0 0 0 1) 5);
    [exact sample_setting|reflexivity|vm_compute; intros [_ H]; discriminate H|discriminate
    |split; [discriminate|reflexivity]|discriminate|discriminate].
Defined.

(** Because of that second conversion the last needle of a volume can be
    unreadable: here the needle ends where the shards do, and one of its intervals
    starts past the end of its shard. *)
Theorem last_needle_overrun :
  ∃ f o size ivs, Offset.ToActualOffset o + Needle.GetActualSize size 3 = zlen f ∧
    LocateEcShardNeedle 40 8 0 (zlen f) 10 3 o size = Some ivs ∧
    ∃ iv, iv ∈ ivs ∧
      let '(shard, off) := ToShardIdAndOffset iv 40 8 in zlen (data_shard f 10 40 8 shard) ≤ off.
Proof.
  exists (zeros 80), (Offset.Mk 0 0 0 5), 5. eexists. split; [reflexivity|].
  split; [vm_compute; reflexivity|]. eexists. split; [do 5 right; left|]. vm_compute. discriminate.
Qed.
End EcVolumeSpec.
