(* ===== verification/GoText.v ===== *)
(** * GoText: the parts of [strings], [bufio] and [sort] that work on text

    [strings.TrimSpace], [HasPrefix], [TrimRight], [EqualFold], [ToLower], [Split],
    line scanning with [bufio.Scanner], and [sort.Strings], on byte strings. *)

From S2P Require Import Prelude.

Module Strings.

(** The UTF-8 encodings of the runes [unicode.IsSpace] accepts.  UTF-8 is
    self-synchronising: the first (last) rune of a string is a given rune exactly
    when the string starts (ends) with the encoding of that rune. *)
Definition spaces : list bytes :=
  [[9]; [10]; [11]; [12]; [13]; [32]; [194; 133]; [194; 160]; [225; 154; 128]]
  ++ ((λ i, [226; 128; 128 + Z.of_nat i]) <$> seq 0 11)
  ++ [[226; 128; 168]; [226; 128; 169]; [226; 128; 175]; [226; 129; 159]; [227; 128; 128]].

Definition HasPrefix (s p : bytes) : bool := bool_decide (p `prefix_of` s).

(** The encoding the string starts with, among [enc]. *)
Definition leading (enc : list bytes) (s : bytes) : option bytes :=
  snd <$> list_find (λ e, e `prefix_of` s) enc.

(** Cut such prefixes off until none is left; each cut takes at least one byte. *)
Fixpoint cut_loop (fuel : nat) (enc : list bytes) (s : bytes) : bytes :=
  match fuel with
  | O => s
  | S fuel =>
      match leading enc s with
      | Some e => cut_loop fuel enc (drop (length e) s)
      | None => s
      end
  end.
Definition cut (enc : list bytes) (s : bytes) : bytes := cut_loop (length s) enc s.

Definition TrimLeftSpace (s : bytes) : bytes := cut spaces s.
Definition TrimRightSpace (s : bytes) : bytes :=
  reverse (cut (reverse <$> spaces) (reverse s)).
Definition TrimSpace (s : bytes) : bytes := TrimRightSpace (TrimLeftSpace s).

(** [strings.TrimRight(s, "/")], for one byte. *)
Definition TrimRightByte (c : Z) (s : bytes) : bytes := reverse (cut [[c]] (reverse s)).

(** [strings.EqualFold] against a literal of letters whose only case variants are
    the two ASCII ones (every letter but [k] and [s]). *)
Definition to_lower (c : Z) : Z := if decide (65 ≤ c ≤ 90) then c + 32 else c.
Definition EqualFold (s t : bytes) : bool := bool_decide (to_lower <$> s = to_lower <$> t).

(** [strings.ToLower], as far as it can give ASCII letters: U+0130 and U+212A are the
    runes beyond ASCII whose lower case is an ASCII letter, the others keep a form
    that is not ASCII. *)
Fixpoint ToLower (s : bytes) : bytes :=
  match s with
  | 196 :: ((176 :: r) as t) => 105 :: ToLower r
  | 226 :: ((132 :: ((170 :: r) as u)) as t) => 107 :: ToLower r
  | c :: r => to_lower c :: ToLower r
  | [] => []
  end.

(** [strings.Split(s, sep)] for a separator of one byte. *)
Fixpoint split_loop (sep : Z) (cur : bytes) (s : bytes) : list bytes :=
  match s with
  | [] => [cur]
  | c :: s => if decide (c = sep) then cur :: split_loop sep [] s
              else split_loop sep (cur ++ [c]) s
  end.
Definition Split (s : bytes) (sep : Z) : list bytes := split_loop sep [] s.

(** ** Trimmed strings *)

Definition trimmed (s : bytes) : Prop :=
  leading spaces s = None ∧ leading (reverse <$> spaces) (reverse s) = None.
#[global] Instance trimmed_dec s : Decision (trimmed s).
Proof. unfold trimmed. apply _. Defined.

Lemma leading_None enc s : leading enc s = None ↔ ∀ e, e ∈ enc → ¬ e `prefix_of` s.
Proof.
  unfold leading. etransitivity; [apply fmap_None|].
  etransitivity; [apply list_find_None|]. rewrite Forall_forall. done.
Qed.

Lemma leading_Some enc s e : leading enc s = Some e → e ∈ enc ∧ e `prefix_of` s.
Proof.
  unfold leading. intros ([i x] & H & ->)%fmap_Some. apply list_find_Some in H as (H & ? & _).
  split; [by eapply list_elem_of_lookup_2|done].
Qed.

Lemma leading_prefix enc s s' : s' `prefix_of` s → leading enc s = None → leading enc s' = None.
Proof.
  intros Hs. rewrite !leading_None. intros H e He Hp. eapply H; [done|]. by transitivity s'.
Qed.

(** What [cut] leaves is a suffix without a leading encoding. *)
Lemma cut_suffix enc s : cut enc s `suffix_of` s.
Proof.
  unfold cut. generalize (length s) as fuel. intros fuel. revert s.
  induction fuel as [|fuel IH]; intros s; simpl; [done|].
  destruct (leading enc s) as [e|]; [|done].
  etransitivity; [apply IH|]. exists (take (length e) s). by rewrite take_drop.
Qed.

Lemma cut_none enc s : [] ∉ enc → leading enc (cut enc s) = None.
Proof.
  intros Hne. unfold cut.
  assert (∀ fuel s, (length s ≤ fuel)%nat → leading enc (cut_loop fuel enc s) = None) as H;
    [|by apply H].
  clear s. induction fuel as [|fuel IH]; intros s Hs; simpl.
  - destruct s; [|simpl in Hs; lia]. apply leading_None. intros e He Hp.
    apply prefix_nil_inv in Hp. by subst.
  - destruct (leading enc s) as [e|] eqn:He; [|done].
    apply IH. rewrite length_drop. apply leading_Some in He as [He _].
    destruct e; [done|]. simpl. lia.
Qed.

Lemma cut_id enc s : leading enc s = None → cut enc s = s.
Proof. intros H. unfold cut. destruct (length s); simpl; [done|]. by rewrite H. Qed.

Lemma spaces_nonempty : [] ∉ spaces.
Proof. decided. Qed.
Lemma spaces_nonempty_rev : [] ∉ (reverse <$> spaces).
Proof. decided. Qed.

Lemma TrimSpace_trimmed s : trimmed (TrimSpace s).
Proof.
  unfold TrimSpace, TrimRightSpace, TrimLeftSpace. split.
  - eapply leading_prefix; [|apply (cut_none spaces s), spaces_nonempty].
    destruct (cut_suffix (reverse <$> spaces) (reverse (cut spaces s))) as [k Hk].
    apply (f_equal reverse) in Hk. rewrite reverse_involutive, reverse_app in Hk.
    rewrite Hk at 2. by apply prefix_app_r.
  - rewrite reverse_involutive. apply cut_none, spaces_nonempty_rev.
Qed.

Lemma TrimSpace_id s : trimmed s → TrimSpace s = s.
Proof.
  intros [Hl Hr]. unfold TrimSpace, TrimRightSpace, TrimLeftSpace.
  by rewrite (cut_id _ _ Hl), (cut_id _ _ Hr), reverse_involutive.
Qed.

(** Trimming keeps a contiguous part of the string. *)
Lemma TrimSpace_infix s : ∃ a b, s = a ++ TrimSpace s ++ b.
Proof.
  unfold TrimSpace, TrimRightSpace, TrimLeftSpace.
  destruct (cut_suffix spaces s) as [a Ha].
  destruct (cut_suffix (reverse <$> spaces) (reverse (cut spaces s))) as [b Hb].
  apply (f_equal reverse) in Hb. rewrite reverse_involutive, reverse_app in Hb.
  exists a, (reverse b). by rewrite <- Hb.
Qed.

Lemma trimmed_last s c : trimmed (s ++ [c]) → [c] ∉ spaces.
Proof.
  intros [_ H] Hc. rewrite leading_None in H. apply (H [c]).
  - change [c] with (reverse [c]). by apply list_elem_of_fmap_2.
  - rewrite reverse_snoc. by exists (reverse s).
Qed.
End Strings.

(** ** sort.Strings *)
Module SortStrings.

(** Byte-wise lexicographic order, Go's [<=] on strings. *)
Fixpoint leb (s t : bytes) : bool :=
  match s, t with
  | [], _ => true
  | _ :: _, [] => false
  | a :: s, b :: t => if decide (a = b) then leb s t else bool_decide (a < b)
  end.
Definition le (s t : bytes) : Prop := leb s t = true.
#[global] Instance le_dec s t : Decision (le s t).
Proof. unfold le. apply _. Defined.

Definition Strings (l : list bytes) : list bytes := merge_sort le l.

#[global] Instance le_total : Total le.
Proof.
  intros s. induction s as [|a s IH]; intros [|b t]; unfold le; simpl; auto.
  destruct (decide (a = b)) as [->|]; [rewrite decide_True by done; apply IH|].
  rewrite (decide_False (P := b = a)) by done. rewrite !bool_decide_eq_true. lia.
Qed.

#[global] Instance le_trans : Transitive le.
Proof.
  intros s. induction s as [|a s IH]; intros [|b t] [|c u]; unfold le; simpl; try done.
  repeat case_decide; subst; try done; rewrite ?bool_decide_eq_true; try lia.
  apply IH.
Qed.

#[global] Instance le_antisymm : AntiSymm (=) le.
Proof.
  intros s. induction s as [|a s IH]; intros [|b t]; unfold le; simpl; try done.
  destruct (decide (a = b)) as [->|].
  - rewrite decide_True by done. intros. f_equal. by apply IH.
  - rewrite (decide_False (P := b = a)) by done. rewrite !bool_decide_eq_true. lia.
Qed.

Lemma Strings_perm l : Strings l ≡ₚ l.
Proof. apply merge_sort_Permutation. Qed.
Lemma Strings_sorted l : StronglySorted le (Strings l).
Proof. apply StronglySorted_merge_sort; apply _. Qed.

(** Sorting forgets the order the strings came in. *)
Lemma Strings_unique l k : l ≡ₚ k → Strings l = Strings k.
Proof.
  intros H. eapply (StronglySorted_unique le); try apply Strings_sorted.
  by rewrite !Strings_perm.
Qed.
End SortStrings.

(** ** bufio.Scanner over lines *)
Module Scanner.

Definition MaxScanTokenSize : Z := 65536.

(** [bufio.ScanLines] tokens: the pieces between newlines; an unterminated last
    piece counts when it is not empty. *)
Fixpoint pieces (cur : bytes) (s : bytes) : list bytes :=
  match s with
  | [] => match cur with [] => [] | _ => [cur] end
  | c :: s => if decide (c = 10) then cur :: pieces [] s else pieces (cur ++ [c]) s
  end.

Definition dropCR (l : bytes) : bytes :=
  match last l with
  | Some c => if decide (c = 13) then take (length l - 1) l else l
  | None => l
  end.

(** [for scanner.Scan() { … scanner.Text() }; scanner.Err()]: a piece that fills
    the buffer without a newline stops the scan with [ErrTooLong]. *)
Definition scan (s : bytes) : res (list bytes) :=
  let ps := pieces [] s in
  if decide (Forall (λ p, zlen p < MaxScanTokenSize) ps) then Ok (dropCR <$> ps)
  else Fail ErrTooLong.

(** [fmt.Fprintln] of each line. *)
Definition unlines (ls : list bytes) : bytes := ls ≫= λ l, l ++ [10].

Lemma pieces_line cur l s : 10 ∉ l → pieces cur (l ++ 10 :: s) = (cur ++ l) :: pieces [] s.
Proof.
  revert cur. induction l as [|c l IH]; intros cur Hl; simpl.
  - by rewrite app_nil_r.
  - rewrite decide_False by set_solver. rewrite IH by set_solver. by rewrite <- app_assoc.
Qed.

Lemma pieces_unlines ls : Forall (λ l, 10 ∉ l) ls → pieces [] (unlines ls) = ls.
Proof.
  induction 1 as [|l ls Hl _ IH]; [done|].
  change (unlines (l :: ls)) with ((l ++ [10]) ++ unlines ls).
  rewrite <- app_assoc. simpl. rewrite pieces_line by done. simpl. by f_equal.
Qed.

Lemma pieces_no_newline cur s : 10 ∉ cur → Forall (λ l, 10 ∉ l) (pieces cur s).
Proof.
  revert cur. induction s as [|c s IH]; intros cur Hc; simpl.
  - destruct cur; auto.
  - case_decide; [constructor; auto; apply IH; set_solver|apply IH; set_solver].
Qed.

Lemma dropCR_prefix l : dropCR l `prefix_of` l.
Proof.
  unfold dropCR. destruct (last l); [|done]. case_decide; [|done].
  exists (drop (length l - 1) l). by rewrite take_drop.
Qed.

Lemma dropCR_id l : last l ≠ Some 13 → dropCR l = l.
Proof. unfold dropCR. destruct (last l); [|done]. case_decide; congruence. Qed.

Lemma scan_unlines ls :
  Forall (λ l, 10 ∉ l ∧ last l ≠ Some 13 ∧ zlen l < MaxScanTokenSize) ls →
  scan (unlines ls) = Ok ls.
Proof.
  intros H. unfold scan.
  rewrite pieces_unlines by (eapply Forall_impl; [done|naive_solver]).
  rewrite decide_True by (eapply Forall_impl; [done|naive_solver]). f_equal.
  induction H as [|l ls (? & ? & ?)]; [done|]. rewrite fmap_cons, dropCR_id by done. by f_equal.
Qed.
End Scanner.
