(* ===== verification/GoFs.v ===== *)
(** * GoFs: the part of [os] and [path/filepath] the tag index and its logs use

    A tree of directories and files, keyed by the absolute cleaned path (its list
    of components).  Every system call may fail for a reason outside the program
    (a full disk, permissions, a name the device refuses): [faults] lists, call by
    call, which ones will; when it is empty no call fails for such a reason. *)

From S2P Require Import Prelude GoStd GoText.

Module Fs.

Abbreviation path := (list bytes).

Inductive node := File (data : bytes) | Dir.
Record fs := MkFs { nodes : gmap path node; faults : list bool }.

#[global] Instance node_eq_dec : EqDecision node.
Proof. solve_decision. Defined.

Definition syscall : SE fs unit := λ f,
  match faults f with
  | [] => (f, Ok tt)
  | b :: bs => (MkFs (nodes f) bs, if b then Fail ErrIO else Ok tt)
  end.

(** The root of the tree is always a directory. *)
Definition node_at (f : fs) (p : path) : option node :=
  match p with [] => Some Dir | _ => nodes f !! p end.

Definition is_file (n : option node) : bool :=
  match n with Some (File _) => true | _ => false end.

(** A regular file where the path needs a directory. *)
Definition blocked (f : fs) (p : path) : bool :=
  existsb (λ n, is_file (node_at f (take n p))) (seq 0 (length p)).

(** [os.Open] and [os.Stat]. *)
Definition Open (p : path) : SE fs node :=
  syscall ;;
  se_read (λ f, match node_at f p with
                | Some n => Ok n
                | None => if blocked f p then Fail ErrNotDir else Fail ErrNotExist
                end).

(** Reading a file to its end. *)
Definition ReadAll (n : node) : SE fs bytes :=
  syscall ;; se_lift (match n with File d => Ok d | Dir => Fail ErrIsDir end).

(** [path/filepath]: [Join(d, s)] cleans lexically; [Dir]. *)
Definition clean_step (d : path) (c : bytes) : path :=
  if decide (c = [] ∨ c = str ".") then d
  else if decide (c = str "..") then take (length d - 1) d
  else d ++ [c].
Definition Join (d : path) (s : bytes) : path := foldl clean_step d (Strings.Split s 47).
Definition DirOf (p : path) : path := take (length p - 1) p.

(** The entries of a directory, by name: [(Name(), IsDir())]. *)
Definition child (d : path) (kn : path * node) : option (bytes * bool) :=
  match last kn.1 with
  | Some c => if decide (kn.1 = d ++ [c]) then Some (c, bool_decide (kn.2 = Dir)) else None
  | None => None
  end.
Definition children (f : fs) (d : path) : list (bytes * bool) :=
  omap (child d) (map_to_list (nodes f)).

Definition entry_le (a b : bytes * bool) : Prop := SortStrings.le a.1 b.1.
#[global] Instance entry_le_dec a b : Decision (entry_le a b).
Proof. unfold entry_le. apply _. Defined.

(** [os.ReadDir]. *)
Definition ReadDir (d : path) : SE fs (list (bytes * bool)) :=
  n ← Open d;
  match n with
  | File _ => se_fail ErrNotDir
  | Dir => syscall ;; se_read (λ f, Ok (merge_sort entry_le (children f d)))
  end.

(** [os.MkdirAll]: parents first. *)
Fixpoint mkdirs (done rest : path) : SE fs unit :=
  match rest with
  | [] => mret tt
  | c :: rest =>
      let q := done ++ [c] in
      f ← se_get;
      match node_at f q with
      | Some Dir => mkdirs q rest
      | Some (File _) => se_fail ErrNotDir
      | None =>
          syscall ;; se_mod (λ f, MkFs (<[q := Dir]> (nodes f)) (faults f)) ;;
          mkdirs q rest
      end
  end.
Definition MkdirAll (p : path) : SE fs unit := mkdirs [] p.

(** [os.CreateTemp(dir, …)]: the new file has a name nothing else has, and its
    users rename or remove it before they return, so it is kept out of the tree; that
    the removal succeeds is assumed (the code ignores its error). *)
Definition CreateTemp (dir : path) : SE fs unit :=
  n ← Open dir;
  match n with Dir => mret tt | File _ => se_fail ErrNotDir end.

(** [os.Rename] of a temporary file with contents [d] to [p]. *)
Definition Rename (d : bytes) (p : path) : SE fs unit :=
  syscall ;;
  f ← se_get;
  match p, node_at f p with
  | [], _ => se_fail ErrInvalid
  | _, Some Dir => se_fail ErrIsDir
  | _, _ => se_mod (λ f, MkFs (<[p := File d]> (nodes f)) (faults f))
  end.

(** [os.ReadFile]. *)
Definition ReadFile (p : path) : SE fs bytes := n ← Open p; ReadAll n.

Definition set_file (p : path) (d : bytes) : SE fs unit :=
  se_mod (λ f, MkFs (<[p := File d]> (nodes f)) (faults f)).

(** [os.OpenFile(p, O_CREATE|…)]: the directory must be there. *)
Definition OpenCreate (p : path) : SE fs unit :=
  syscall ;;
  f ← se_get;
  match node_at f p with
  | Some (File _) => mret tt
  | Some Dir => se_fail ErrIsDir
  | None =>
      match node_at f (DirOf p) with
      | Some Dir => set_file p []
      | _ => se_fail (if blocked f p then ErrNotDir else ErrNotExist)
      end
  end.

(** The contents of an open file.  Nothing renames or removes the files that are
    used through a handle while the handle is open, so the path stands for it; a
    call that fails has changed nothing. *)
Definition contents (p : path) : SE fs bytes :=
  se_read (λ f, match node_at f p with Some (File d) => Ok d | _ => Fail ErrClosed end).

Definition Truncate (p : path) (n : Z) : SE fs unit :=
  syscall ;;
  d ← contents p;
  if decide (n < 0) then se_fail ErrInvalid
  else set_file p (sub (d ++ zeros (n - zlen d)) 0 n).

Definition ReadAt (p : path) (off n : Z) : SE fs (bytes * option go_error) :=
  syscall ;;
  d ← contents p;
  mret (OsFile.ReadAt d off n).

Definition WriteAt (p : path) (d : bytes) (off : Z) : SE fs unit :=
  syscall ;;
  c ← contents p;
  if decide (off < 0) then se_fail (Errorf "negative offset")
  else set_file p (OsFile.put c off d).

(** [os.WriteFile]: create or truncate, then write. *)
Definition WriteFile (p : path) (d : bytes) : SE fs unit :=
  OpenCreate p ;; set_file p [] ;; syscall ;; set_file p d.

(** [file.Write] with [O_APPEND]. *)
Definition Append (p : path) (d : bytes) : SE fs unit :=
  syscall ;;
  c ← contents p;
  set_file p (c ++ d).

(** [os.Rename] of a file of the tree. *)
Definition RenameFile (src dst : path) : SE fs unit :=
  syscall ;;
  f ← se_get;
  match node_at f src, node_at f dst, node_at f (DirOf dst) with
  | Some (File d), Some Dir, _ => se_fail ErrIsDir
  | Some (File d), _, Some Dir =>
      se_mod (λ f, MkFs (<[dst := File d]> (delete src (nodes f))) (faults f))
  | _, _, _ => se_fail ErrNotExist
  end.

End Fs.
