(* ===== verification/GoFsSpec.v ===== *)
(** * GoFsSpec: reasoning about file system code

    [wp]: what a call guarantees when it returns and when a system call fails;
    directories made on the way to a path; names that stand for one file. *)

From S2P Require Import Prelude GoStd GoText GoFs.
Import Strings Fs.

(** ** Running file system code *)
Module FsWp.

(** [wp m Q E f]: from [f], [m] returns a value that satisfies [Q], or fails
    because a system call failed, in a state that satisfies [E]; it does not
    panic. *)
Definition wp {A} (m : SE fs A) (Q : fs → A → Prop) (E : fs → Prop) (f : fs) : Prop :=
  match m f with
  | (f', Ok a) => faults f' `suffix_of` faults f ∧ Q f' a
  | (f', Fail _) => true ∈ faults f ∧ E f'
  | (_, Panic) => False
  end.

Lemma suffix_true (a b : list bool) : a `suffix_of` b → true ∈ a → true ∈ b.
Proof. intros [k ->]. set_solver. Qed.

Lemma wp_bind {A B} (m : SE fs A) (k : A → SE fs B) Q E f :
  wp m (λ f' a, wp (k a) Q E f') E f → wp (m ≫= k) Q E f.
Proof.
  unfold wp, mbind, SE_bind. destruct (m f) as [f1 [a|e|]]; [|done..].
  intros [Hs H]. destruct (k a f1) as [f2 [b|e|]]; [..|done].
  - destruct H. split; [by etransitivity|done].
  - destruct H. split; [by eapply suffix_true|done].
Qed.

Lemma wp_mono {A} (m : SE fs A) (Q Q' : fs → A → Prop) (E E' : fs → Prop) f :
  wp m Q E f → (∀ f' a, Q f' a → Q' f' a) → (∀ f', E f' → E' f') → wp m Q' E' f.
Proof. unfold wp. destruct (m f) as [f' [a|e|]]; naive_solver. Qed.

Lemma wp_ret {A} (a : A) (Q : fs → A → Prop) E f : Q f a → wp (mret a) Q E f.
Proof. intros. split; [done|done]. Qed.

Lemma wp_get (Q : fs → fs → Prop) E f : Q f f → wp se_get Q E f.
Proof. intros. split; [done|done]. Qed.

Lemma wp_mod g (Q : fs → unit → Prop) E f :
  faults (g f) = faults f → Q (g f) tt → wp (se_mod g) Q E f.
Proof. intros Hg HQ. unfold wp, se_mod. rewrite Hg. done. Qed.

Lemma wp_lift {A} (r : res A) a (Q : fs → A → Prop) E f : r = Ok a → Q f a → wp (se_lift r) Q E f.
Proof. intros -> ?. by apply wp_ret. Qed.

Lemma wp_syscall (Q : fs → unit → Prop) (E : fs → Prop) f :
  (∀ f', nodes f' = nodes f → Q f' tt) → (∀ f', nodes f' = nodes f → E f') →
  wp syscall Q E f.
Proof.
  intros HQ HE. unfold wp, syscall. destruct (faults f) as [|[] bs] eqn:Hf.
  - rewrite Hf. split; [done|by apply HQ].
  - split; [set_solver|by apply HE].
  - cbn. split; [by exists [false]|by apply HQ].
Qed.

Lemma node_at_nodes f f' p : nodes f' = nodes f → node_at f' p = node_at f p.
Proof. intros H. destruct p; [done|]. unfold node_at. by rewrite H. Qed.

(** The outcome of [Open] when no system call fails. *)
Definition open_result (f : fs) (p : path) : res node :=
  match node_at f p with
  | Some n => Ok n
  | None => if blocked f p then Fail ErrNotDir else Fail ErrNotExist
  end.

Lemma blocked_nodes f f' p : nodes f' = nodes f → blocked f' p = blocked f p.
Proof.
  intros H. unfold blocked. induction (seq 0 (length p)) as [|n l IH]; [done|].
  simpl. by rewrite IH, (node_at_nodes _ _ _ H).
Qed.

Lemma Open_run f p :
  ∃ f', nodes f' = nodes f ∧
    ((faults f' `suffix_of` faults f ∧ Open p f = (f', open_result f p))
     ∨ (true ∈ faults f ∧ Open p f = (f', Fail ErrIO))).
Proof.
  unfold Open, mbind, SE_bind, syscall. destruct (faults f) as [|[] bs] eqn:Hf.
  - exists f. rewrite Hf. split; [done|]. left. done.
  - eexists. split; [|right; split; [set_solver|reflexivity]]. done.
  - exists (MkFs (nodes f) bs). split; [done|left]. split; [by exists [false]|].
    unfold se_read, open_result.
    rewrite (node_at_nodes (MkFs (nodes f) bs) f), (blocked_nodes (MkFs (nodes f) bs) f) by done.
    done.
Qed.

Lemma wp_Open_found f p n Q E :
  node_at f p = Some n →
  (∀ f', nodes f' = nodes f → Q f' n) → (∀ f', nodes f' = nodes f → E f') →
  wp (Open p) Q E f.
Proof.
  intros Hn HQ HE. unfold wp. destruct (Open_run f p) as (f' & Hf & [[? ->]|[? ->]]).
  - unfold open_result. rewrite Hn. auto.
  - auto.
Qed.

(** [if os.IsNotExist(err)] around a call that opens [p]. *)
Lemma wp_catch_missing {A B} f p (k : node → SE fs A) (v : SE fs A) (g : A → SE fs B) Q E :
  blocked f p = false →
  (∀ f', nodes f' = nodes f →
    match node_at f p with
    | Some n => wp (se_catch (k n) (λ e, if decide (e = ErrNotExist) then v else se_fail e)
                    ≫= g) Q E f'
    | None => wp (v ≫= g) Q E f'
    end) →
  (∀ f', nodes f' = nodes f → E f') →
  wp (se_catch (Open p ≫= k) (λ e, if decide (e = ErrNotExist) then v else se_fail e) ≫= g) Q E f.
Proof.
  intros Hb HQ HE. destruct (Open_run f p) as (f' & Hf & [[Hs Ho]|[Hs Ho]]).
  - specialize (HQ f' Hf). unfold open_result in Ho. rewrite Hb in Ho.
    unfold wp, mbind, SE_bind, se_catch in *. rewrite Ho.
    destruct (node_at f p) as [n|].
    + destruct (k n f') as [f1 [a|e|]]; [|case_decide|done].
      * destruct (g a f1) as [f2 [b|e|]]; [..|done]; destruct HQ; split;
          eauto using suffix_true; by etransitivity.
      * destruct (v f1) as [f2 [b|e'|]]; [|destruct HQ; split; eauto using suffix_true|done].
        destruct (g b f2) as [f3 [c|e'|]]; [..|done]; destruct HQ; split;
          eauto using suffix_true; by etransitivity.
      * cbn in *. destruct HQ. eauto using suffix_true.
    + rewrite decide_True by done.
      destruct (v f') as [f2 [b|e'|]]; [|destruct HQ; split; eauto using suffix_true|done].
      destruct (g b f2) as [f3 [c|e'|]]; [..|done]; destruct HQ; split;
        eauto using suffix_true; by etransitivity.
  - unfold wp, mbind, SE_bind, se_catch. rewrite Ho. rewrite decide_False by done. cbn.
    split; [done|by apply HE].
Qed.
(** Without failing system calls the call returns. *)
Lemma wp_run {A} (m : SE fs A) Q E f :
  wp m Q E f → faults f = [] → ∃ f' a, m f = (f', Ok a) ∧ faults f' = [] ∧ Q f' a.
Proof.
  unfold wp. intros H Hf. rewrite Hf in H. destruct (m f) as [f' [a|e|]]; [|set_solver|done].
  destruct H as [Hs HQ]. apply suffix_nil_inv in Hs. eauto.
Qed.
End FsWp.
Export FsWp.

(** ** Directories on the way *)
Module FsDirs.

Definition nofile (f : fs) (p : path) : Prop :=
  ∀ q, q `prefix_of` p → is_file (node_at f q) = false.

(** [f'] is [f] with some missing directories on the way to [p] created. *)
Definition dirs_added (f f' : fs) (p : path) : Prop :=
  ∀ q, node_at f' q = node_at f q
       ∨ (q `prefix_of` p ∧ node_at f q = None ∧ node_at f' q = Some Dir).

Lemma dirs_added_refl f f' p : nodes f' = nodes f → dirs_added f f' p.
Proof. intros H q. left. by apply node_at_nodes. Qed.

Lemma dirs_added_trans f f1 f2 p : dirs_added f f1 p → dirs_added f1 f2 p → dirs_added f f2 p.
Proof.
  intros H1 H2 q. destruct (H1 q) as [E1|(? & ? & E1)], (H2 q) as [E2|(? & E2 & ?)];
    [left; congruence|right; split_and!; congruence|right; split_and!; congruence|congruence].
Qed.

Lemma node_at_insert f p n q fl :
  p ≠ [] → node_at (MkFs (<[p := n]> (nodes f)) fl) q
           = if decide (q = p) then Some n else node_at f q.
Proof.
  intros Hp. unfold node_at; cbn. destruct q as [|c q].
  - by rewrite decide_False.
  - case_decide as H; [subst; by rewrite lookup_insert_eq|by rewrite lookup_insert_ne].
Qed.

Lemma nofile_added f f' p : dirs_added f f' p → nofile f p → nofile f' p.
Proof. intros H Hn q Hq. destruct (H q) as [->|(_ & _ & ->)]; [by apply Hn|done]. Qed.

Lemma wp_mkdirs rest done_ f :
  nofile f (done_ ++ rest) → node_at f done_ = Some Dir →
  wp (mkdirs done_ rest)
    (λ f' _, dirs_added f f' (done_ ++ rest) ∧ node_at f' (done_ ++ rest) = Some Dir)
    (λ f', dirs_added f f' (done_ ++ rest)) f.
Proof.
  revert done_ f. induction rest as [|c rest IH]; intros d f Hn Hd; simpl.
  { apply wp_ret. rewrite app_nil_r. split; [by apply dirs_added_refl|done]. }
  rewrite (cons_middle c d rest), app_assoc in *.
  apply wp_bind, wp_get. pose proof (Hn (d ++ [c]) ltac:(by apply prefix_app_r)) as Hq.
  destruct (node_at f (d ++ [c])) as [[data|]|] eqn:Hc; [done|by apply IH|].
  apply wp_bind, wp_syscall; [|intros; by apply dirs_added_refl].
  intros f1 Hf1. apply wp_bind, wp_mod; [done|].
  set (f2 := MkFs _ _).
  assert (dirs_added f f2 ((d ++ [c]) ++ rest)) as Ha.
  { intros q. unfold f2. rewrite node_at_insert by (by destruct d).
    case_decide; [subst; right; split_and!; [by apply prefix_app_r|done|done]|].
    left. by apply node_at_nodes. }
  eapply wp_mono; [apply IH| |].
  - by eapply nofile_added.
  - unfold f2. rewrite node_at_insert by (by destruct d). by rewrite decide_True.
  - intros f' _ [H1 H2]. split; [by eapply dirs_added_trans|done].
  - intros f' H1. by eapply dirs_added_trans.
Qed.

Lemma wp_MkdirAll p f :
  nofile f p →
  wp (MkdirAll p) (λ f' _, dirs_added f f' p ∧ node_at f' p = Some Dir)
    (λ f', dirs_added f f' p) f.
Proof. intros Hn. by apply (wp_mkdirs p []). Qed.

Lemma nofile_blocked f p : nofile f (DirOf p) → blocked f p = false.
Proof.
  intros H. unfold blocked. apply not_true_is_false. rewrite existsb_exists.
  intros (n & Hn & Hf). apply in_seq in Hn.
  rewrite H in Hf; [done|]. unfold DirOf.
  exists (drop n (take (length p - 1) p)).
  rewrite <- (take_drop n (take (length p - 1) p)) at 1. f_equal.
  rewrite take_take. f_equal. lia.
Qed.

(** Names that stand for one file of the directory. *)
Definition plain (n : bytes) : Prop := n ≠ [] ∧ 47 ∉ n ∧ n ≠ str "." ∧ n ≠ str "..".
#[global] Instance plain_dec n : Decision (plain n).
Proof. unfold plain. apply _. Defined.

Lemma split_plain n cur : 47 ∉ n → split_loop 47 cur n = [cur ++ n].
Proof.
  revert cur. induction n as [|c n IH]; intros cur Hn; simpl; [by rewrite app_nil_r|].
  rewrite decide_False by set_solver. rewrite IH by set_solver. by rewrite <- app_assoc.
Qed.

Lemma Join_plain d n : plain n → Join d n = d ++ [n].
Proof.
  intros (H1 & H2 & H3 & H4). unfold Join, Split. rewrite split_plain by done. simpl.
  unfold clean_step. rewrite decide_False by naive_solver. by rewrite decide_False.
Qed.

Lemma DirOf_snoc (d : path) n : DirOf (d ++ [n]) = d.
Proof. unfold DirOf. rewrite length_app. simpl. by rewrite Nat.add_sub, take_app_length. Qed.
End FsDirs.
Export FsDirs.

(** ** Single files *)
Module FsFiles.

(** [f'] is [f] with the node [n] at [p]. *)
Definition upd (f : fs) (p : path) (n : node) (f' : fs) : Prop :=
  ∀ q, node_at f' q = if decide (q = p) then Some n else node_at f q.

Lemma upd_same f p n f' : upd f p n f' → node_at f' p = Some n.
Proof. intros H. rewrite H. by rewrite decide_True. Qed.
Lemma upd_other f p n f' q : upd f p n f' → q ≠ p → node_at f' q = node_at f q.
Proof. intros H Hq. rewrite H. by rewrite decide_False. Qed.

Lemma upd_id f p n f' : nodes f' = nodes f → node_at f p = Some n → upd f p n f'.
Proof.
  intros Hf Hn q. rewrite (node_at_nodes _ _ _ Hf). by case_decide; subst.
Qed.

Lemma wp_set_file p d f f0 (Q : fs → unit → Prop) (E : fs → Prop) :
  p ≠ [] → nodes f = nodes f0 → (∀ f', upd f0 p (File d) f' → Q f' tt) → wp (set_file p d) Q E f.
Proof.
  intros Hp Hf HQ. unfold set_file. apply wp_mod; [done|]. apply HQ. intros q.
  rewrite node_at_insert by done. by rewrite (node_at_nodes _ _ _ Hf).
Qed.

Lemma wp_Rename p d f f0 (Q : fs → unit → Prop) (E : fs → Prop) :
  nodes f = nodes f0 → p ≠ [] → node_at f0 p ≠ Some Dir →
  (∀ f', upd f0 p (File d) f' → Q f' tt) → (∀ f', nodes f' = nodes f0 → E f') →
  wp (Rename d p) Q E f.
Proof.
  intros Hf Hp Hd HQ HE. unfold Rename.
  apply wp_bind, wp_syscall; [|intros; apply HE; congruence]. intros f1 Hf1.
  assert (nodes f1 = nodes f0) as H1 by congruence.
  apply wp_bind, wp_get. destruct p as [|c p]; [done|]. rewrite (node_at_nodes _ _ _ H1).
  destruct (node_at f0 (c :: p)) as [[|]|]; [| done |]; by apply (wp_set_file (c :: p) d f1 f0).
Qed.

Lemma wp_CreateTemp d f f0 (Q : fs → unit → Prop) (E : fs → Prop) :
  nodes f = nodes f0 → node_at f0 d = Some Dir →
  (∀ f', nodes f' = nodes f0 → Q f' tt) → (∀ f', nodes f' = nodes f0 → E f') →
  wp (CreateTemp d) Q E f.
Proof.
  intros Hf Hd HQ HE. unfold CreateTemp. apply wp_bind.
  eapply wp_Open_found; [by rewrite (node_at_nodes _ _ _ Hf)| |intros; apply HE; congruence].
  intros f1 Hf1. apply wp_ret, HQ. congruence.
Qed.

(** A system call among others that leave the tree as it is. *)
Lemma wp_syscall_from f f0 (Q : fs → unit → Prop) (E : fs → Prop) :
  nodes f = nodes f0 → (∀ f', nodes f' = nodes f0 → Q f' tt) →
  (∀ f', nodes f' = nodes f0 → E f') → wp syscall Q E f.
Proof. intros Hf HQ HE. apply wp_syscall; intros f' Hf'; [apply HQ|apply HE]; congruence. Qed.

Lemma wp_OpenCreate p f (Q : fs → unit → Prop) (E : fs → Prop) :
  p ≠ [] → node_at f (DirOf p) = Some Dir → node_at f p ≠ Some Dir →
  (∀ f', upd f p (default (File []) (node_at f p)) f' → Q f' tt) →
  (∀ f', nodes f' = nodes f → E f') → wp (OpenCreate p) Q E f.
Proof.
  intros Hp Hdir Hd HQ HE. unfold OpenCreate. apply wp_bind, wp_syscall; [|done]. intros f1 Hf1.
  apply wp_bind, wp_get. rewrite !(node_at_nodes _ _ _ Hf1), Hdir.
  destruct (node_at f p) as [[d|]|] eqn:Hn; [|done|].
  - apply wp_ret, HQ. by apply upd_id.
  - by eapply wp_set_file.
Qed.

Lemma wp_contents p d f f0 (Q : fs → bytes → Prop) (E : fs → Prop) :
  nodes f = nodes f0 → node_at f0 p = Some (File d) → Q f d → wp (contents p) Q E f.
Proof.
  intros Hf Hn HQ. unfold wp, contents, se_read. by rewrite (node_at_nodes _ _ _ Hf), Hn.
Qed.

Lemma wp_Truncate p d n f (Q : fs → unit → Prop) (E : fs → Prop) :
  p ≠ [] → node_at f p = Some (File d) → 0 ≤ n →
  (∀ f', upd f p (File (sub (d ++ zeros (n - zlen d)) 0 n)) f' → Q f' tt) →
  (∀ f', nodes f' = nodes f → E f') → wp (Truncate p n) Q E f.
Proof.
  intros Hp Hn H0 HQ HE. unfold Truncate. apply wp_bind, wp_syscall; [|done]. intros f1 Hf1.
  apply wp_bind. eapply wp_contents; [done..|]. rewrite decide_False by lia. by eapply wp_set_file.
Qed.

Lemma wp_ReadAt p d off n f (Q : fs → bytes * option go_error → Prop) (E : fs → Prop) :
  node_at f p = Some (File d) →
  (∀ f', nodes f' = nodes f → Q f' (OsFile.ReadAt d off n)) →
  (∀ f', nodes f' = nodes f → E f') → wp (ReadAt p off n) Q E f.
Proof.
  intros Hn HQ HE. unfold ReadAt. apply wp_bind, wp_syscall; [|done]. intros f1 Hf1.
  apply wp_bind. eapply wp_contents; [done..|]. by apply wp_ret, HQ.
Qed.

Lemma wp_WriteAt p c d off f (Q : fs → unit → Prop) (E : fs → Prop) :
  p ≠ [] → node_at f p = Some (File c) → 0 ≤ off →
  (∀ f', upd f p (File (OsFile.put c off d)) f' → Q f' tt) →
  (∀ f', nodes f' = nodes f → E f') → wp (WriteAt p d off) Q E f.
Proof.
  intros Hp Hn H0 HQ HE. unfold WriteAt. apply wp_bind, wp_syscall; [|done]. intros f1 Hf1.
  apply wp_bind. eapply wp_contents; [done..|]. rewrite decide_False by lia. by eapply wp_set_file.
Qed.

Lemma wp_Append p c d f (Q : fs → unit → Prop) (E : fs → Prop) :
  p ≠ [] → node_at f p = Some (File c) →
  (∀ f', upd f p (File (c ++ d)) f' → Q f' tt) →
  (∀ f', nodes f' = nodes f → E f') → wp (Append p d) Q E f.
Proof.
  intros Hp Hn HQ HE. unfold Append. apply wp_bind, wp_syscall; [|done]. intros f1 Hf1.
  apply wp_bind. eapply wp_contents; [done..|]. by eapply wp_set_file.
Qed.

Lemma upd_upd f p n n' f1 f2 : upd f p n f1 → upd f1 p n' f2 → upd f p n' f2.
Proof. intros H1 H2 q. rewrite H2, H1. by case_decide. Qed.

Lemma upd_nodes f p n f1 f2 : upd f p n f1 → nodes f2 = nodes f1 → upd f p n f2.
Proof. intros H1 H2 q. rewrite (node_at_nodes _ _ _ H2). apply H1. Qed.

Lemma wp_WriteFile p d f (Q : fs → unit → Prop) (E : fs → Prop) :
  p ≠ [] → node_at f (DirOf p) = Some Dir → node_at f p ≠ Some Dir →
  (∀ f', upd f p (File d) f' → Q f' tt) → (∀ f', E f') → wp (WriteFile p d) Q E f.
Proof.
  intros Hp Hdir Hd HQ HE. unfold WriteFile. apply wp_bind, wp_OpenCreate; [done..| |auto].
  intros f1 H1. apply wp_bind, (wp_set_file _ _ f1 f1); [done..|]. intros f2 H2.
  apply wp_bind, wp_syscall; [|auto]. intros f3 H3. apply (wp_set_file _ _ f3 f2); [done..|].
  intros f4 H4. apply HQ. eapply upd_upd; [|exact H4]. by eapply upd_upd.
Qed.

(** Moving a file over another. *)
Lemma wp_RenameFile src dst d f (Q : fs → unit → Prop) (E : fs → Prop) :
  src ≠ dst → dst ≠ [] → src ≠ [] → node_at f src = Some (File d) → node_at f dst ≠ Some Dir →
  node_at f (DirOf dst) = Some Dir →
  (∀ f', (∀ q, node_at f' q = if decide (q = dst) then Some (File d)
                              else if decide (q = src) then None else node_at f q) → Q f' tt) →
  (∀ f', E f') → wp (RenameFile src dst) Q E f.
Proof.
  intros Hne Hd Hs Hsrc Hdst Hdir HQ HE. unfold RenameFile. apply wp_bind, wp_syscall; [|auto].
  intros f1 Hf1. apply wp_bind, wp_get. rewrite !(node_at_nodes _ _ _ Hf1), Hsrc, Hdir.
  assert (∀ q, node_at (MkFs (<[dst := File d]> (delete src (nodes f1))) (faults f1)) q
    = if decide (q = dst) then Some (File d) else if decide (q = src) then None else node_at f q) as Hn.
  { intros q. rewrite <- (node_at_nodes _ _ _ Hf1). destruct q as [|c q]; [by rewrite !decide_False|].
    unfold node_at. cbn [nodes]. case_decide as E1; [by rewrite E1, lookup_insert_eq|].
    rewrite lookup_insert_ne by done. case_decide as E2; [by rewrite E2, lookup_delete_eq|].
    by rewrite lookup_delete_ne. }
  destruct (node_at f dst) as [[]|]; [|done|]; apply wp_mod; auto.
Qed.

(** Reading a file that may be missing. *)
Lemma wp_read_optional f p (Q : fs → option bytes → Prop) (E : fs → Prop) :
  nofile f (DirOf p) → node_at f p ≠ Some Dir →
  (∀ f', nodes f' = nodes f → Q f' (match node_at f p with Some (File d) => Some d | _ => None end)) →
  (∀ f', nodes f' = nodes f → E f') →
  wp (se_catch (d ← ReadFile p; mret (Some d))
        (λ e, if decide (e = ErrNotExist) then mret None else se_fail e)) Q E f.
Proof.
  intros Hn Hd HQ HE. unfold ReadFile.
  destruct (Open_run f p) as (f1 & Hf & [[Hs Ho]|[Hs Ho]]).
  - unfold open_result in Ho. rewrite nofile_blocked in Ho by done.
    unfold wp, se_catch, mbind, SE_bind. rewrite Ho.
    destruct (node_at f p) as [[d|]|] eqn:Hx; [|done|].
    + unfold ReadAll, mbind, SE_bind, syscall. destruct (faults f1) as [|[] bs] eqn:Hf1; cbn.
      * rewrite Hf1. auto.
      * split; [by eapply suffix_true; [done|]; set_solver|by apply HE].
      * split; [|by apply HQ]. etransitivity; [|done]. by exists [false].
    + rewrite decide_True by done. cbn. auto.
  - unfold wp, se_catch, mbind, SE_bind. rewrite Ho, decide_False by done. cbn. auto.
Qed.

(** Making directories that do not hold the file. *)
Lemma wp_MkdirAll_over p f (Q : fs → unit → Prop) (E : fs → Prop) :
  nofile f p →
  (∀ f', dirs_added f f' p → node_at f' p = Some Dir → Q f' tt) →
  (∀ f', dirs_added f f' p → E f') → wp (MkdirAll p) Q E f.
Proof.
  intros Hn HQ HE. eapply wp_mono; [by apply wp_MkdirAll| |done]. intros f' [] []. auto.
Qed.
End FsFiles.
Export FsFiles.
