(* ===== verification/TagIndex.v ===== *)
(** * TagIndex: the tag index of tagindex/internal/index

    One text file per tag under [<root>/by-tag/], holding the paths that carry the
    tag, and the file [<root>/all-tagged] with every tagged path, which is rebuilt
    when it is missing.  The definitions follow index.go; the state is the file
    system of [GoFs]. *)

From S2P Require Import Prelude GoText GoFs.
Import Strings Fs.

Module TagIndex.

Record Store := New { Root : path }.

Definition allTaggedFile : bytes := str "all-tagged".
Definition byTagDir (s : Store) : path := Join (Root s) (str "by-tag").
Definition allTaggedPath (s : Store) : path := Join (Root s) allTaggedFile.

Definition normalizePath (p : bytes) : res bytes :=
  if decide (p = []) then Fail (Errorf "path is required")
  else if negb (HasPrefix p (str "/")) then Ok (str "/" ++ p)
  else Ok p.

Definition normalizeUnder (under : bytes) : bytes :=
  let under := TrimSpace under in
  if decide (under = [] ∨ under = str "/") then []
  else
    let under := if negb (HasPrefix under (str "/")) then str "/" ++ under else under in
    TrimRightByte 47 under.

Fixpoint norm_loop (tags : list bytes) (seen : gset bytes) : list bytes :=
  match tags with
  | [] => []
  | tag :: tags =>
      let tag := TrimSpace tag in
      if decide (tag = []) then norm_loop tags seen
      else if decide (tag ∈ seen) then norm_loop tags seen
      else tag :: norm_loop tags ({[tag]} ∪ seen)
  end.
Definition normalizeTags (tags : list bytes) : list bytes :=
  SortStrings.Strings (norm_loop tags ∅).

Definition tagSet (tags : list bytes) : gset bytes := list_to_set tags.

(** The set a file's lines stand for. *)
Definition parse_lines (d : bytes) : res (gset bytes) :=
  ls ← Scanner.scan d;
  mret (list_to_set (filter (λ l, l ≠ []) (TrimSpace <$> ls))).

Definition readLines (p : path) : SE fs (gset bytes) :=
  se_catch
    (n ← Open p; mret (Some n))
    (λ e, if decide (e = ErrNotExist) then mret None else se_fail e)
  ≫= λ n,
  match n with
  | None => mret ∅
  | Some n => d ← ReadAll n; se_lift (parse_lines d)
  end.

(** The lines in order, to a temporary file that is renamed over [p]. *)
Definition file_of (lines : gset bytes) : bytes :=
  Scanner.unlines (SortStrings.Strings (elements lines)).

Definition writeLines (p : path) (lines : gset bytes) : SE fs unit :=
  MkdirAll (DirOf p) ;;
  CreateTemp (DirOf p) ;;
  syscall ;;
  syscall ;;
  Rename (file_of lines) p.

Definition pathsForTag (s : Store) (tag : bytes) : SE fs (gset bytes) :=
  readLines (Join (byTagDir s) tag).

Fixpoint collect (dir : path) (entries : list (bytes * bool)) (paths : gset bytes) :
    SE fs (gset bytes) :=
  match entries with
  | [] => mret paths
  | (name, isDir) :: entries =>
      if (isDir : bool) then collect dir entries paths
      else tagPaths ← readLines (Join dir name);
           collect dir entries (paths ∪ tagPaths)
  end.

(** [os.ReadDir] with a missing directory read as empty. *)
Definition read_dir (dir : path) : SE fs (list (bytes * bool)) :=
  se_catch (ReadDir dir) (λ e, if decide (e = ErrNotExist) then mret [] else se_fail e).

Definition allPaths (s : Store) : SE fs (gset bytes) :=
  entries ← read_dir (byTagDir s);
  collect (byTagDir s) entries ∅.

Definition RebuildAllTagged (s : Store) : SE fs unit :=
  paths ← allPaths s;
  writeLines (allTaggedPath s) paths.

Definition allTaggedPaths (s : Store) : SE fs (gset bytes) :=
  found ← se_catch (Open (allTaggedPath s) ;; mret true)
            (λ e, if decide (e = ErrNotExist) then mret false else se_fail e);
  if (found : bool) then readLines (allTaggedPath s)
  else paths ← allPaths s;
       writeLines (allTaggedPath s) paths ;;
       mret paths.

Definition addPath (s : Store) (tag p : bytes) : SE fs unit :=
  let indexPath := Join (byTagDir s) tag in
  paths ← readLines indexPath;
  writeLines indexPath ({[p]} ∪ paths).

Definition removePath (s : Store) (tag p : bytes) : SE fs unit :=
  let indexPath := Join (byTagDir s) tag in
  paths ← readLines indexPath;
  if decide (p ∉ paths) then mret tt
  else writeLines indexPath (paths ∖ {[p]}).

Definition addTaggedPath (s : Store) (p : bytes) : SE fs unit :=
  paths ← allTaggedPaths s;
  writeLines (allTaggedPath s) ({[p]} ∪ paths).

Definition removeTaggedPath (s : Store) (p : bytes) : SE fs unit :=
  paths ← allTaggedPaths s;
  if decide (p ∉ paths) then mret tt
  else writeLines (allTaggedPath s) (paths ∖ {[p]}).

Fixpoint remove_loop (dir : path) (p : bytes) (entries : list (bytes * bool)) : SE fs unit :=
  match entries with
  | [] => mret tt
  | (name, isDir) :: entries =>
      if (isDir : bool) then remove_loop dir p entries
      else
        let indexPath := Join dir name in
        (paths ← readLines indexPath;
         if decide (p ∉ paths) then mret tt
         else writeLines indexPath (paths ∖ {[p]})) ;;
        remove_loop dir p entries
  end.

Definition removePathFromAllTags (s : Store) (p : bytes) : SE fs unit :=
  entries ← read_dir (byTagDir s);
  remove_loop (byTagDir s) p entries.

Fixpoint add_loop (s : Store) (p : bytes) (tags : list bytes) : SE fs unit :=
  match tags with
  | [] => mret tt
  | tag :: tags => addPath s tag p ;; add_loop s p tags
  end.

(** [Store.Set]. *)
Definition SetTags (s : Store) (p : bytes) (tags : list bytes) : SE fs unit :=
  p ← se_lift (normalizePath p);
  MkdirAll (byTagDir s) ;;
  let tags := normalizeTags tags in
  removePathFromAllTags s p ;;
  (if decide (tags = []) then removeTaggedPath s p else addTaggedPath s p) ;;
  add_loop s p tags.

Fixpoint drop_loop (s : Store) (p : bytes) (keep : gset bytes) (tags : list bytes) : SE fs unit :=
  match tags with
  | [] => mret tt
  | tag :: tags =>
      (if decide (tag ∈ keep) then mret tt else removePath s tag p) ;;
      drop_loop s p keep tags
  end.

Fixpoint extend_loop (s : Store) (p : bytes) (have : gset bytes) (tags : list bytes) : SE fs unit :=
  match tags with
  | [] => mret tt
  | tag :: tags =>
      (if decide (tag ∈ have) then mret tt else addPath s tag p) ;;
      extend_loop s p have tags
  end.

(** [Store.Update]. *)
Definition Update (s : Store) (p : bytes) (oldTags newTags : list bytes) : SE fs unit :=
  p ← se_lift (normalizePath p);
  MkdirAll (byTagDir s) ;;
  let oldTags := normalizeTags oldTags in
  let newTags := normalizeTags newTags in
  drop_loop s p (tagSet newTags) oldTags ;;
  extend_loop s p (tagSet oldTags) newTags ;;
  if decide (oldTags = [] ∧ newTags ≠ []) then addTaggedPath s p
  else if decide (oldTags ≠ [] ∧ newTags = []) then removeTaggedPath s p
  else mret tt.

Definition under_ok (under p : bytes) : bool :=
  bool_decide (under = []) || bool_decide (p = under) || HasPrefix p (under ++ str "/").

Definition filterAndSort (paths : gset bytes) (under : bytes) : list bytes :=
  let under := normalizeUnder under in
  SortStrings.Strings (filter (λ p, under_ok under p = true) (elements paths)).

Definition Query (s : Store) (tag under : bytes) : SE fs (list bytes) :=
  let tag := TrimSpace tag in
  if decide (tag = []) then se_fail (Errorf "tag is required")
  else paths ← pathsForTag s tag;
       mret (filterAndSort paths under).

(** ** Query expressions *)

Definition isOperator (token : bytes) : bool :=
  EqualFold token (str "and") || EqualFold token (str "or") || EqualFold token (str "not").

Definition union (a b : gset bytes) : gset bytes := a ∪ b.
Definition intersect (a b : gset bytes) : gset bytes :=
  let '(a, b) := if decide (size b < size a)%nat then (b, a) else (a, b) in
  filter (λ p, p ∈ b) a.
Definition difference (a b : gset bytes) : gset bytes := filter (λ p, p ∉ b) a.

Section parser.
Context (store : Store) (tokens : list bytes).

(** The file system and the parser's [pos]. *)
Definition parser : Type := fs * nat.

Definition on_fs {A} (m : SE fs A) : SE parser A := λ '(f, pos),
  let '(f', r) := m f in ((f', pos), r).

Definition hasNext (pos : nat) : bool := bool_decide (pos < length tokens)%nat.

(** [p.match(token)]. *)
Definition match_token (token : bytes) : SE parser bool := λ '(f, pos),
  match tokens !! pos with
  | Some t => if EqualFold t token then ((f, S pos), Ok true) else ((f, pos), Ok false)
  | None => ((f, pos), Ok false)
  end.

Definition next : SE parser bytes := λ '(f, pos),
  match tokens !! pos with
  | Some t => ((f, S pos), Ok t)
  | None => ((f, pos), Panic)
  end.

Definition expect_tag : SE parser (gset bytes) :=
  st ← se_get;
  if negb (hasNext st.2) then se_fail (Errorf "expected tag")
  else
    tag ← next;
    if isOperator tag then se_fail (Errorf "expected tag, got %q")
    else on_fs (pathsForTag store tag).

(** Running out of fuel is a [Panic]; one unit per token left and one more is
    enough. *)
Fixpoint parseUnary (fuel : nat) : SE parser (gset bytes) :=
  match fuel with
  | O => se_lift Panic
  | S fuel =>
      b ← match_token (str "not");
      if (b : bool) then
        paths ← parseUnary fuel;
        allTagged ← on_fs (allTaggedPaths store);
        mret (difference allTagged paths)
      else expect_tag
  end.

Fixpoint and_loop (fuel : nat) (left : gset bytes) : SE parser (gset bytes) :=
  match fuel with
  | O => se_lift Panic
  | S fuel =>
      b ← match_token (str "and");
      if (b : bool) then
        n ← match_token (str "not");
        right ← parseUnary fuel;
        and_loop fuel (if (n : bool) then difference left right else intersect left right)
      else mret left
  end.

Definition parseAnd (fuel : nat) : SE parser (gset bytes) :=
  left ← parseUnary fuel; and_loop fuel left.

Fixpoint or_loop (fuel : nat) (left : gset bytes) : SE parser (gset bytes) :=
  match fuel with
  | O => se_lift Panic
  | S fuel =>
      b ← match_token (str "or");
      if (b : bool) then
        right ← parseAnd fuel;
        or_loop fuel (union left right)
      else mret left
  end.

Definition parseOr (fuel : nat) : SE parser (gset bytes) :=
  left ← parseAnd fuel; or_loop fuel left.
End parser.

Definition QueryExpr (s : Store) (expr : list bytes) (under : bytes) : SE fs (list bytes) := λ f,
  if decide (expr = []) then (f, Fail (Errorf "query expression is required"))
  else
    match parseOr s expr (S (length expr)) (f, 0%nat) with
    | ((f', pos), Ok paths) =>
        if hasNext expr pos then (f', Fail (Errorf "unexpected token %q"))
        else (f', Ok (filterAndSort paths under))
    | ((f', _), Fail e) => (f', Fail e)
    | ((f', _), Panic) => (f', Panic)
    end.

End TagIndex.
