(* ===== verification/TagIndexSpec.v ===== *)
(** * TagIndexSpec: what the tag index promises

    The abstract index maps each tag to the set of paths that carry it, with the
    set kept in [all-tagged]; [rep] says which file systems stand for it.  Every
    operation of [TagIndex] is shown to act on the abstract index, whatever system
    calls fail on the way. *)

From S2P Require Import Prelude GoText GoFs GoFsSpec TagIndex.
Import Strings Fs TagIndex.

(** ** Lines that survive the trip through a file *)
Module Lines.

Definition line_ok (l : bytes) : Prop :=
  l ≠ [] ∧ trimmed l ∧ 10 ∉ l ∧ zlen l < Scanner.MaxScanTokenSize.
#[global] Instance line_ok_dec l : Decision (line_ok l).
Proof. unfold line_ok. apply _. Defined.

Definition lines_ok (ls : gset bytes) : Prop := ∀ l, l ∈ ls → line_ok l.

Lemma line_ok_scan l :
  line_ok l → 10 ∉ l ∧ last l ≠ Some 13 ∧ zlen l < Scanner.MaxScanTokenSize.
Proof.
  intros (_ & Ht & Hn & Hl). split_and!; [done| |done]. intros Hc.
  apply last_Some in Hc as [l' ->]. apply trimmed_last in Ht.
  apply Ht. decided.
Qed.

(** Reading back a file that was written. *)
Lemma parse_file_of ls : lines_ok ls → parse_lines (file_of ls) = Ok ls.
Proof.
  intros Hls. unfold parse_lines, file_of.
  set (l := SortStrings.Strings (elements ls)).
  assert (∀ x, x ∈ l ↔ x ∈ ls) as Hl.
  { intros x. unfold l. rewrite SortStrings.Strings_perm. apply elem_of_elements. }
  assert (Forall line_ok l) as Hok by (apply Forall_forall; intros; apply Hls, Hl; done).
  rewrite Scanner.scan_unlines, bind_ok; [|eapply Forall_impl; [done|apply line_ok_scan]].
  unfold mret, res_ret. f_equal.
  replace (TrimSpace <$> l) with l.
  2:{ clear Hl. induction Hok as [|x l' Hx _ IH]; [done|].
      rewrite fmap_cons, TrimSpace_id by apply Hx. by f_equal. }
  apply set_eq. intros x. rewrite elem_of_list_to_set, list_elem_of_filter, Hl.
  split; [naive_solver|]. intros H. split; [apply (Hls _ H)|done].
Qed.

(** Whatever is read is in that form. *)
Lemma parse_lines_ok d ls : parse_lines d = Ok ls → lines_ok ls.
Proof.
  unfold parse_lines, Scanner.scan. case_decide as Hlen; [|done].
  rewrite bind_ok. intros [= <-] l Hl.
  apply elem_of_list_to_set, list_elem_of_filter in Hl as [Hne Hl].
  apply list_elem_of_fmap in Hl as (x & -> & Hx).
  apply list_elem_of_fmap in Hx as (y & -> & Hy).
  rewrite Forall_forall in Hlen. specialize (Hlen _ Hy).
  pose proof (Scanner.pieces_no_newline [] d ltac:(set_solver)) as Hnl.
  rewrite Forall_forall in Hnl. specialize (Hnl _ Hy).
  destruct (Scanner.dropCR_prefix y) as [z Hz].
  destruct (TrimSpace_infix (Scanner.dropCR y)) as (a & b & Hab).
  split_and!; [done|apply TrimSpace_trimmed| |].
  - intros H. apply Hnl. rewrite Hz, Hab. set_solver.
  - rewrite Hz, Hab in Hlen. zl.
Qed.

Lemma lines_ok_union a b : lines_ok a → lines_ok b → lines_ok (a ∪ b).
Proof. intros Ha Hb l Hl. apply elem_of_union in Hl as []; auto. Qed.
Lemma lines_ok_diff a b : lines_ok a → lines_ok (a ∖ b).
Proof. intros Ha l Hl. apply Ha. set_solver. Qed.
Lemma lines_ok_singleton l : line_ok l → lines_ok {[l]}.
Proof. intros Hl x Hx. apply elem_of_singleton in Hx. by subst. Qed.
Lemma lines_ok_empty : lines_ok ∅.
Proof. intros l Hl. set_solver. Qed.

Create HintDb lines.
#[export] Hint Resolve lines_ok_union lines_ok_diff lines_ok_singleton lines_ok_empty
  parse_lines_ok : lines.
End Lines.
Export Lines.

(** ** Directories, reading and writing *)
Module FsOps.

(** What a file, or its absence, says. *)
Definition lines_at (o : option node) (v : option (gset bytes)) : Prop :=
  match o, v with
  | None, None => True
  | Some (File d), Some ls => parse_lines d = Ok ls
  | _, _ => False
  end.

Lemma lines_at_ok o v : lines_at o v → lines_ok (default ∅ v).
Proof. destruct o as [[]|], v; cbn; intros; eauto with lines; done. Qed.

Lemma wp_readLines p f v :
  nofile f (DirOf p) → lines_at (node_at f p) v →
  wp (readLines p) (λ f' ls, nodes f' = nodes f ∧ ls = default ∅ v)
    (λ f', nodes f' = nodes f) f.
Proof.
  intros Hb Hv. unfold readLines. apply wp_catch_missing; [by apply nofile_blocked| |done].
  intros f1 Hf1. destruct (node_at f p) as [[d|]|], v as [ls|]; try done.
  unfold se_catch. rewrite <- Hf1. apply wp_bind, wp_ret.
  apply wp_bind. unfold ReadAll. apply wp_bind, wp_syscall; [|done].
  intros f2 Hf2. eapply wp_lift; [done|]. by eapply wp_lift.
Qed.

Lemma wp_writeLines p ls f :
  p ≠ [] → nofile f (DirOf p) → node_at f p ≠ Some Dir →
  wp (writeLines p ls)
    (λ f' _, node_at f' p = Some (File (file_of ls)) ∧ node_at f' (DirOf p) = Some Dir
             ∧ ∃ f1, dirs_added f f1 (DirOf p) ∧ ∀ q, q ≠ p → node_at f' q = node_at f1 q)
    (λ f', dirs_added f f' (DirOf p)) f.
Proof.
  intros Hp Hn Hd. unfold writeLines. apply wp_bind, wp_MkdirAll_over; [done| |done].
  intros f1 Ha Hdir.
  assert (∀ f2, nodes f2 = nodes f1 → dirs_added f f2 (DirOf p)) as Herr.
  { intros f2 Hf2 q. rewrite (node_at_nodes _ _ _ Hf2). apply Ha. }
  assert (length (DirOf p) < length p)%nat as Hlen.
  { unfold DirOf. rewrite length_take. destruct p; [done|]. simpl. lia. }
  apply wp_bind. eapply (wp_CreateTemp _ f1 f1); [done..| |done]. intros f2 Hf2.
  do 2 (apply wp_bind; eapply (wp_syscall_from _ f1); [done| |done]; clear f2 Hf2; intros f2 Hf2).
  apply (wp_Rename _ _ _ f1); [done..| | |done].
  - destruct (Ha p) as [->|(Hpre & _)]; [done|]. apply prefix_length in Hpre. lia.
  - intros f3 Hu. split_and!; [by eapply upd_same| |].
    + rewrite (upd_other _ _ _ _ _ Hu); [done|]. intros E. rewrite E in Hlen. lia.
    + exists f1. split; [done|]. intros q Hq. by eapply upd_other.
Qed.
End FsOps.
Export FsOps.

(** ** The abstract index *)
Module AbstractIndex.

Record index := Index { idx : gmap bytes (gset bytes); all : option (gset bytes) }.

(** The paths with a tag, the paths with any tag, and what [not] ranges over. *)
Definition get (x : index) (tag : bytes) : gset bytes := default ∅ (idx x !! tag).
Definition tagged (x : index) : gset bytes := ⋃ (snd <$> map_to_list (idx x)).
Definition known (x : index) : gset bytes := default (tagged x) (all x).

(** [all-tagged] agrees with the tag files. *)
Definition consistent (x : index) : Prop := known x = tagged x.

Lemma elem_of_tagged x p : p ∈ tagged x ↔ ∃ n, p ∈ get x n.
Proof.
  unfold tagged, get. rewrite elem_of_union_list. split.
  - intros (S & HS & Hp). apply list_elem_of_fmap in HS as ([n T] & -> & HS).
    apply elem_of_map_to_list in HS. exists n. by rewrite HS.
  - intros (n & Hp). destruct (idx x !! n) as [S|] eqn:HS; [|set_solver].
    exists S. split; [|done]. apply list_elem_of_fmap. exists (n, S). split; [done|].
    by apply elem_of_map_to_list.
Qed.

Section store.
Context (s : Store).

Lemma byTagDir_eq : byTagDir s = Root s ++ [str "by-tag"].
Proof. unfold byTagDir. apply Join_plain. decided. Qed.
Lemma allTaggedPath_eq : allTaggedPath s = Root s ++ [allTaggedFile].
Proof. unfold allTaggedPath. apply Join_plain. decided. Qed.

(** The file system [f] stands for the index [x]. *)
Record rep (f : fs) (x : index) : Prop := Rep {
  rep_dirs : nofile f (byTagDir s);
  rep_tags : ∀ n, lines_at (node_at f (byTagDir s ++ [n])) (idx x !! n);
  rep_all : lines_at (node_at f (allTaggedPath s)) (all x);
  rep_plain : ∀ n, is_Some (idx x !! n) → plain n;
  rep_empty : node_at f (byTagDir s) = None → idx x = ∅;
}.

Lemma rep_root f x : rep f x → nofile f (Root s).
Proof.
  intros H q Hq. apply (rep_dirs _ _ H). rewrite byTagDir_eq. by apply prefix_app_r.
Qed.

Lemma rep_nodes f f' x : nodes f' = nodes f → rep f x → rep f' x.
Proof.
  intros Hf [H1 H2 H3 H4 H5]. split; intros; rewrite ?(node_at_nodes _ _ _ Hf); auto.
  - intros q Hq. rewrite (node_at_nodes _ _ _ Hf). by apply H1.
  - apply H5. by rewrite <- (node_at_nodes _ _ _ Hf).
Qed.

(** Nothing the index reads lies on the way to its directories. *)
Lemma not_on_way q :
  q `prefix_of` byTagDir s → q ≠ allTaggedPath s ∧ ∀ n, q ≠ byTagDir s ++ [n].
Proof.
  rewrite byTagDir_eq, allTaggedPath_eq. intros Hq. split.
  - intros ->. apply prefix_length_eq in Hq; [|rewrite !length_app; done].
    apply app_inj_2 in Hq as [_ Hq]; done.
  - intros n ->. apply prefix_length in Hq. rewrite !length_app in Hq. simpl in Hq. lia.
Qed.

Lemma rep_added f f' x p :
  p `prefix_of` byTagDir s → dirs_added f f' p → rep f x → rep f' x.
Proof.
  intros Hp Ha [H1 H2 H3 H4 H5].
  assert (∀ q, ¬ q `prefix_of` byTagDir s → node_at f' q = node_at f q) as Hsame.
  { intros q Hq. destruct (Ha q) as [?|(Hq' & _)]; [done|]. destruct Hq. by transitivity p. }
  split; [| | |done|].
  - intros q Hq. destruct (Ha q) as [->|(_ & _ & ->)]; [by apply H1|done].
  - intros n. rewrite Hsame; [done|]. intros Hq. by eapply not_on_way.
  - rewrite Hsame; [done|]. intros Hq. by apply not_on_way in Hq as [].
  - intros Hn. apply H5. destruct (Ha (byTagDir s)) as [|(_ & ? & _)]; congruence.
Qed.

(** The nodes that are neither part of the index nor on the way to it. *)
Definition outside (q : path) : Prop :=
  ¬ byTagDir s `prefix_of` q ∧ ¬ q `prefix_of` byTagDir s ∧ q ≠ allTaggedPath s.
Definition rest_same (f f' : fs) : Prop := ∀ q, outside q → node_at f' q = node_at f q.

#[global] Instance rest_same_trans : Transitive rest_same.
Proof. intros f1 f2 f3 H1 H2 q Hq. by rewrite H2, H1. Qed.

Lemma rest_same_nodes f f' : nodes f' = nodes f → rest_same f f'.
Proof. intros H q _. by apply node_at_nodes. Qed.

Lemma rest_same_added f f' p : p `prefix_of` byTagDir s → dirs_added f f' p → rest_same f f'.
Proof.
  intros Hp Ha q (_ & Hq & _). destruct (Ha q) as [?|(Hq' & _)]; [done|]. destruct Hq. by transitivity p.
Qed.

Lemma rest_same_write f f1 f' p d :
  p `prefix_of` byTagDir s → dirs_added f f1 p → ¬ outside d →
  (∀ q, q ≠ d → node_at f' q = node_at f1 q) → rest_same f f'.
Proof.
  intros Hp Ha Hd Hs q Hq. rewrite Hs by (intros ->; done). by eapply rest_same_added.
Qed.

Lemma rep_lines f x : rep f x →
  (∀ n, lines_ok (get x n)) ∧ lines_ok (tagged x) ∧ lines_ok (known x).
Proof.
  intros H. assert (∀ n, lines_ok (get x n)) as Hg.
  { intros n. eapply lines_at_ok, (rep_tags _ _ H). }
  assert (lines_ok (tagged x)) as Ht.
  { intros l (n & Hl)%elem_of_tagged. by eapply Hg. }
  split_and!; [done|done|]. unfold known. pose proof (rep_all _ _ H) as Ha.
  apply lines_at_ok in Ha. destruct (all x); done.
Qed.
End store.
End AbstractIndex.
Export AbstractIndex.

(** ** Operations on the abstract index *)
Module IndexOps.

Section children.
Context (f : fs) (d : path).

Lemma child_Some kn c b : child d kn = Some (c, b) ↔ kn.1 = d ++ [c] ∧ b = bool_decide (kn.2 = Dir).
Proof.
  unfold child. destruct kn as [k n]; cbn. split.
  - destruct (last k); [|done]. case_decide; naive_solver.
  - intros [-> ->]. rewrite last_snoc. by rewrite decide_True.
Qed.

Lemma elem_of_children c b :
  (c, b) ∈ children f d ↔ ∃ n, nodes f !! (d ++ [c]) = Some n ∧ b = bool_decide (n = Dir).
Proof.
  unfold children. rewrite list_elem_of_omap. split.
  - intros ([k n] & Hk & Hc). apply child_Some in Hc as [Hk' ->]. cbn in *. subst.
    exists n. split; [by apply elem_of_map_to_list|done].
  - intros (n & Hn & ->). exists (d ++ [c], n). split; [by apply elem_of_map_to_list|].
    by apply child_Some.
Qed.

Lemma NoDup_children : NoDup (children f d).*1.
Proof.
  unfold children. pose proof (NoDup_fst_map_to_list (nodes f)) as H.
  induction (map_to_list (nodes f)) as [|[k n] l IH]; [constructor|].
  rewrite fmap_cons in H. apply NoDup_cons in H as [Hk Hl]. simpl.
  destruct (child d (k, n)) as [[c b]|] eqn:Hc; [|by apply IH].
  apply child_Some in Hc as [Hc _]. cbn in Hc. subst k.
  rewrite fmap_cons. constructor; [|by apply IH]. cbn. intros Hin.
  apply Hk. apply list_elem_of_fmap in Hin as ([c' b'] & ? & Hin). cbn in *. subst c'.
  apply list_elem_of_omap in Hin as ([k' n'] & Hin & Hc). apply child_Some in Hc as [Hc _].
  apply (list_elem_of_fmap_2 fst) in Hin. cbn in *. by rewrite <- Hc.
Qed.
End children.

Lemma wp_bind_ret {A} (m : SE fs A) Q E f : wp (m ≫= mret) Q E f → wp m Q E f.
Proof. unfold wp, mbind, SE_bind. destruct (m f) as [f' [a|e|]]; done. Qed.

Lemma entries_plain s x es f :
  rep s f x → es ≡ₚ elements (dom (idx x)) → Forall plain es.
Proof.
  intros Hf ->. apply Forall_forall. intros n Hn%elem_of_elements%elem_of_dom.
  by apply (rep_plain _ _ _ Hf).
Qed.

Lemma elem_of_entries x n q es : es ≡ₚ elements (dom (idx x)) → q ∈ get x n → n ∈ es.
Proof.
  intros ->. unfold get. rewrite elem_of_elements, elem_of_dom.
  destruct (idx x !! n); [done|set_solver].
Qed.

Section ops.
Context (s : Store) (N : index → index → Prop) `{!Reflexive N, !Transitive N}.

(** From any file system that stands for [x], [m] ends in one that stands for an
    index related by [R] and has the same other files; when a system call fails, in
    one related by [N]. *)
Definition does {A} (x : index) (m : SE fs A) (R : A → index → Prop) : Prop :=
  ∀ f, rep s f x →
    wp m (λ f' a, (∃ x', rep s f' x' ∧ R a x') ∧ rest_same s f f')
      (λ f', ∃ x', rep s f' x' ∧ N x x') f.

Lemma does_bind {A B} x (m : SE fs A) (k : A → SE fs B) R R' :
  does x m R → (∀ a x', R a x' → N x x' ∧ does x' (k a) R') → does x (m ≫= k) R'.
Proof.
  intros Hm Hk f Hf. apply wp_bind. eapply wp_mono; [by apply Hm| |done].
  cbv beta. intros f' a ((x' & Hf' & HR) & Hs). destruct (Hk _ _ HR) as [HN Hd].
  eapply wp_mono; [by apply Hd| |]; cbv beta.
  - intros f2 b [Hx Hs2]. split; [done|]. by transitivity f'.
  - intros f2 (x2 & ? & ?). exists x2. split; [done|]. by transitivity x'.
Qed.

Lemma does_ret {A} x (a : A) (R : A → index → Prop) : R a x → does x (mret a) R.
Proof. intros HR f Hf. apply wp_ret. split; [by exists x|by apply rest_same_nodes]. Qed.

Lemma does_mono {A} x (m : SE fs A) (R R' : A → index → Prop) :
  does x m R → (∀ a x', R a x' → R' a x') → does x m R'.
Proof. intros Hm HR f Hf. eapply wp_mono; [by apply Hm|naive_solver|done]. Qed.

(** Starting from another state with the same tree. *)
Lemma does_from {A} x (m : SE fs A) R f f1 :
  nodes f1 = nodes f → does x m R → rep s f1 x →
  wp m (λ f' a, (∃ x', rep s f' x' ∧ R a x') ∧ rest_same s f f') (λ f', ∃ x', rep s f' x' ∧ N x x') f1.
Proof.
  intros Hf Hm Hr. eapply wp_mono; [by apply Hm| |done]. cbv beta. intros f' a [Hx Hs].
  split; [done|]. transitivity f1; [by apply rest_same_nodes|done].
Qed.

Lemma does_read_tag x n :
  plain n → does x (readLines (Join (byTagDir s) n)) (λ ls x', x' = x ∧ ls = get x n).
Proof.
  intros Hn f Hf. rewrite Join_plain by done.
  eapply wp_mono; [apply wp_readLines; [|apply (rep_tags _ _ _ Hf)]| |].
  - rewrite DirOf_snoc. apply (rep_dirs _ _ _ Hf).
  - intros f' ls [Hn' ->]. split; [|by apply rest_same_nodes].
    exists x. split; [by apply (rep_nodes _ f)|done].
  - intros f' Hn'. exists x. split; [by apply (rep_nodes _ f)|done].
Qed.

Lemma does_read_all x a :
  all x = Some a → does x (readLines (allTaggedPath s)) (λ ls x', x' = x ∧ ls = a).
Proof.
  intros Ha f Hf. pose proof (rep_all _ _ _ Hf) as Hall.
  eapply wp_mono; [apply wp_readLines; [|exact Hall]| |].
  - rewrite allTaggedPath_eq, DirOf_snoc. by eapply rep_root.
  - intros f' ls [Hn' ->]. split; [|by apply rest_same_nodes].
    exists x. rewrite Ha. split; [by apply (rep_nodes _ f)|done].
  - intros f' Hn'. exists x. split; [by apply (rep_nodes _ f)|done].
Qed.

Lemma does_write_tag x n ls :
  plain n → lines_ok ls →
  does x (writeLines (Join (byTagDir s) n) ls) (λ _ x', x' = Index (<[n := ls]> (idx x)) (all x)).
Proof.
  intros Hn Hls f Hf. rewrite Join_plain by done.
  assert (byTagDir s ++ [n] ≠ []) as Hne by (intros H%app_eq_nil; naive_solver).
  eapply wp_mono; [apply wp_writeLines; [done| |]| |].
  - rewrite DirOf_snoc. apply (rep_dirs _ _ _ Hf).
  - pose proof (rep_tags _ _ _ Hf n) as H. intros He. by rewrite He in H.
  - rewrite DirOf_snoc. intros f' _ (Hp & Hd & f1 & Ha & Hsame). split.
    2:{ eapply rest_same_write; [done|exact Ha| |exact Hsame]. intros (H & _). apply H. by apply prefix_app_r. }
    eexists. split; [|reflexivity].
    eapply rep_added in Hf; [|done|exact Ha]. destruct Hf as [H1 H2 H3 H4 H5]. split; cbn [idx all].
    + intros q Hq. rewrite Hsame; [by apply H1|]. by apply not_on_way in Hq as [].
    + intros m. destruct (decide (m = n)) as [->|Hm].
      * rewrite Hp, lookup_insert_eq. by apply parse_file_of.
      * rewrite Hsame, lookup_insert_ne; [done|done|].
        intros Heq. apply app_inj_2 in Heq as [_ [=]]; done.
    + rewrite Hsame; [done|]. rewrite byTagDir_eq, allTaggedPath_eq.
      intros H%(f_equal length). rewrite !length_app in H. simpl in H. lia.
    + intros m. destruct (decide (m = n)) as [->|Hm]; [done|]. rewrite lookup_insert_ne by done. auto.
    + congruence.
  - rewrite DirOf_snoc. intros f' Ha. exists x. split; [by eapply rep_added|done].
Qed.

Lemma does_write_all x ls :
  lines_ok ls → does x (writeLines (allTaggedPath s) ls) (λ _ x', x' = Index (idx x) (Some ls)).
Proof.
  intros Hls f Hf.
  assert (Root s `prefix_of` byTagDir s) as Hroot by (rewrite byTagDir_eq; by apply prefix_app_r).
  assert (DirOf (allTaggedPath s) = Root s) as HD by (by rewrite allTaggedPath_eq, DirOf_snoc).
  eapply wp_mono; [apply wp_writeLines| |]; rewrite ?HD.
  - rewrite allTaggedPath_eq. by destruct (Root s).
  - by eapply rep_root.
  - pose proof (rep_all _ _ _ Hf) as H. intros He. by rewrite He in H.
  - intros f' _ (Hp & Hd & f1 & Ha & Hsame). split.
    2:{ eapply rest_same_write; [exact Hroot|exact Ha| |exact Hsame]. by intros (_ & _ & H). }
    eexists. split; [|reflexivity].
    eapply rep_added in Hf; [|exact Hroot|exact Ha]. destruct Hf as [H1 H2 H3 H4 H5]. split; cbn [idx all].
    + intros q Hq. rewrite Hsame; [by apply H1|]. by apply not_on_way in Hq as [].
    + intros m. rewrite Hsame; [done|]. rewrite byTagDir_eq, allTaggedPath_eq.
      intros H%(f_equal length). rewrite !length_app in H. simpl in H. lia.
    + rewrite Hp. by apply parse_file_of.
    + done.
    + rewrite Hsame; [done|]. by apply not_on_way.
  - intros f' Ha. exists x. split; [by eapply rep_added|done].
Qed.

Lemma does_MkdirAll x : does x (MkdirAll (byTagDir s)) (λ _ x', x' = x).
Proof.
  intros f Hf. eapply wp_mono; [apply wp_MkdirAll, (rep_dirs _ _ _ Hf)| |]; cbv beta.
  - intros f' _ [Ha _]. split; [|by eapply rest_same_added].
    exists x. split; [by eapply rep_added|done].
  - intros f' Ha. exists x. split; [by eapply rep_added|done].
Qed.

(** The directory lists the tags, all of them files. *)
Lemma does_read_dir x :
  does x (read_dir (byTagDir s))
    (λ es x', x' = x ∧ es.*1 ≡ₚ elements (dom (idx x)) ∧ Forall (λ e, e.2 = false) es).
Proof.
  intros f Hf. apply wp_bind_ret. unfold read_dir, ReadDir. apply wp_catch_missing.
  - apply nofile_blocked. rewrite byTagDir_eq, DirOf_snoc. by eapply rep_root.
  - intros f1 Hf1. destruct (node_at f (byTagDir s)) as [[data|]|] eqn:Hd.
    + pose proof (rep_dirs _ _ _ Hf (byTagDir s) ltac:(done)) as H. by rewrite Hd in H.
    + assert (rep s f1 x) as Hr by by apply (rep_nodes _ f).
      unfold wp, mbind, SE_bind, se_catch, syscall.
      assert (∀ f2, nodes f2 = nodes f → rep s f2 x ∧
        (merge_sort entry_le (children f2 (byTagDir s))).*1 ≡ₚ elements (dom (idx x))
        ∧ Forall (λ e, e.2 = false) (merge_sort entry_le (children f2 (byTagDir s)))) as Hgo.
      { intros f2 Hf2. assert (rep s f2 x) as Hr2 by by apply (rep_nodes _ f).
        assert (∀ c b, (c, b) ∈ children f2 (byTagDir s) ↔ is_Some (idx x !! c) ∧ b = false) as Hin.
        { intros c b. rewrite elem_of_children. pose proof (rep_tags _ _ _ Hr2 c) as Ht.
          unfold node_at in Ht. destruct (byTagDir s ++ [c]) eqn:Hbc; [by destruct (byTagDir s)|].
          destruct (nodes f2 !! (l :: l0)) as [[d|]|], (idx x !! c); cbn in Ht; try done;
            split; naive_solver. }
        split_and!; [done| |].
        - rewrite merge_sort_Permutation. apply NoDup_Permutation;
            [apply NoDup_children|apply NoDup_elements|].
          intros c. rewrite elem_of_elements, elem_of_dom, list_elem_of_fmap. split.
          + intros ([c' b] & -> & H). by apply Hin in H as [].
          + intros H. exists (c, false). split; [done|]. by apply Hin.
        - rewrite merge_sort_Permutation. apply Forall_forall. intros [c b] H. by apply Hin in H as []. }
      destruct (faults f1) as [|[] bs] eqn:Hfl; cbn.
      * rewrite Hfl. split; [done|]. split; [|by apply rest_same_nodes].
        exists x. destruct (Hgo f1 Hf1); auto.
      * split; [set_solver|]. exists x. split; [|done]. by apply (rep_nodes _ f).
      * split; [by exists [false]|]. split; [|by apply rest_same_nodes].
        exists x. destruct (Hgo (MkFs (nodes f1) bs) Hf1); auto.
    + apply wp_ret. split; [|by apply rest_same_nodes]. exists x. split; [by apply (rep_nodes _ f)|].
      rewrite (rep_empty _ _ _ Hf Hd). split_and!; [done| |constructor].
      rewrite dom_empty_L. by rewrite elements_empty.
  - intros f1 Hf1. exists x. split; [by apply (rep_nodes _ f)|done].
Qed.

(** Reading may create [all-tagged], which changes nothing that can be asked. *)
Definition same (x x' : index) : Prop := idx x' = idx x ∧ known x' = known x.

Context (N_same : ∀ x x', same x x' → N x x').

Lemma does_collect es x acc :
  Forall plain es.*1 → Forall (λ e, e.2 = false) es →
  does x (collect (byTagDir s) es acc)
    (λ ls x', x' = x ∧ ∀ q, q ∈ ls ↔ q ∈ acc ∨ ∃ n, n ∈ es.*1 ∧ q ∈ get x n).
Proof.
  revert acc. induction es as [|[n b] es IH]; intros acc Hp Hb; simpl.
  { apply does_ret. split; [done|]. set_solver. }
  rewrite fmap_cons in Hp. apply Forall_cons in Hp as [Hn Hp], Hb as [Hb Hb'].
  cbn in Hn, Hb. subst b. eapply does_bind; [by apply does_read_tag|].
  intros ls x' [-> ->]. split; [done|]. eapply does_mono; [by apply IH|].
  intros ls x' [-> Hls]. split; [done|]. intros q. rewrite Hls, elem_of_union.
  setoid_rewrite elem_of_cons. naive_solver.
Qed.

Lemma does_allPaths x : does x (allPaths s) (λ ls x', x' = x ∧ ls = tagged x).
Proof.
  intros f Hf. refine ((_ : does x _ _) f Hf).
  unfold allPaths. eapply does_bind; [apply does_read_dir|].
  intros es x' (-> & Hes & Hfile). split; [done|]. eapply does_mono.
  { apply does_collect; [|done]. by eapply entries_plain. }
  intros ls x' [-> Hls]. split; [done|]. apply set_eq. intros q.
  rewrite Hls, elem_of_tagged. split; [set_solver|]. intros [n Hn]. right. exists n.
  split; [by eapply elem_of_entries|done].
Qed.

Lemma does_allTaggedPaths x :
  does x (allTaggedPaths s) (λ ls x', x' = Index (idx x) (Some (known x)) ∧ ls = known x).
Proof.
  intros f Hf. unfold allTaggedPaths. apply wp_catch_missing.
  - apply nofile_blocked. rewrite allTaggedPath_eq, DirOf_snoc. by eapply rep_root.
  - intros f1 Hf1. assert (rep s f1 x) as Hr by (by apply (rep_nodes _ f)).
    pose proof (rep_all _ _ _ Hf) as Ha. pose proof (rep_lines _ _ _ Hf) as (_ & Hlt & _).
    destruct (node_at f (allTaggedPath s)) as [[d|]|], (all x) as [a|] eqn:Hall; try done.
    + unfold se_catch. apply wp_bind, wp_ret.
      eapply (does_from x); [exact Hf1| |exact Hr].
      eapply (does_mono x); [by apply does_read_all|].
      intros ls x' [-> ->]. unfold known. rewrite Hall. split; [|done].
      destruct x; cbn in *. by subst.
    + apply wp_bind, wp_ret. apply (does_from x); [exact Hf1| |exact Hr].
      eapply does_bind; [apply does_allPaths|]. intros ls x' [-> ->]. split; [done|].
      eapply does_bind; [by apply does_write_all|]. intros _ x' ->. split.
      { apply N_same. split; [done|]. unfold known; cbn. by rewrite Hall. }
      apply does_ret. unfold known. rewrite Hall. done.
  - intros f1 Hf1. exists x. split; [by apply (rep_nodes _ f)|done].
Qed.
End ops.

(** ** Changing the tags of one path *)
Section update.
Context (s : Store) (p : bytes) (Hp : line_ok p).

(** Only what is said about [p] may differ. *)
Definition near (x x' : index) : Prop :=
  (∀ n q, q ≠ p → q ∈ get x' n ↔ q ∈ get x n) ∧ (∀ q, q ≠ p → q ∈ known x' ↔ q ∈ known x).

#[global] Instance near_refl : Reflexive near.
Proof. intros x. done. Qed.
#[global] Instance near_trans : Transitive near.
Proof.
  intros x y z [H1 H2] [H3 H4]. split; intros.
  - by rewrite H3, H1.
  - by rewrite H4, H2.
Qed.

Lemma near_same x x' : same x x' → near x x'.
Proof. intros [H1 H2]. split; intros; [unfold get; by rewrite H1|by rewrite H2]. Qed.

Lemma near_tags x x' :
  all x' = all x → (∀ n q, q ≠ p → q ∈ get x' n ↔ q ∈ get x n) → near x x'.
Proof.
  intros Ha Hg. split; [done|]. intros q Hq. unfold known. rewrite Ha.
  destruct (all x); cbn; [done|]. rewrite !elem_of_tagged. split; intros [n Hn]; exists n;
    by apply (Hg n q Hq).
Qed.

Lemma near_all x x' a :
  idx x' = idx x → all x' = Some a → (∀ q, q ≠ p → q ∈ a ↔ q ∈ known x) → near x x'.
Proof.
  intros Hi Ha Hq. split; intros.
  - unfold get. by rewrite Hi.
  - unfold known at 1. rewrite Ha. cbn. auto.
Qed.

Abbreviation doing := (does s near).

(** The tag files, with the one of [tag] changed. *)
Definition tag_step (x x' : index) (tag : bytes) (v : gset bytes) : Prop :=
  all x' = all x ∧ ∀ n, get x' n = if decide (n = tag) then v else get x n.

Lemma tag_step_insert x tag v : tag_step x (Index (<[tag := v]> (idx x)) (all x)) tag v.
Proof.
  split; [done|]. intros n. unfold get; cbn. case_decide as H.
  - subst. by rewrite lookup_insert_eq.
  - by rewrite lookup_insert_ne.
Qed.

Lemma tag_step_near x x' tag v :
  tag_step x x' tag v → (∀ q, q ≠ p → q ∈ v ↔ q ∈ get x tag) → near x x'.
Proof.
  intros [Ha Hg] Hv. apply near_tags; [done|]. intros n q Hq. rewrite Hg.
  case_decide; subst; auto.
Qed.

Lemma doing_tag x tag v :
  plain tag → lines_ok v → (∀ q, q ≠ p → q ∈ v ↔ q ∈ get x tag) →
  doing x (writeLines (Join (byTagDir s) tag) v) (λ _ x', tag_step x x' tag v ∧ near x x').
Proof.
  intros Ht Hv Hq. eapply does_mono; [by apply does_write_tag; [apply _|..]|].
  intros _ x' ->. split; [apply tag_step_insert|].
  eapply tag_step_near; [apply tag_step_insert|done].
Qed.

(** [addPath] and [removePath]. *)
Lemma doing_addPath x tag :
  plain tag →
  doing x (addPath s tag p) (λ _ x', tag_step x x' tag ({[p]} ∪ get x tag) ∧ near x x').
Proof.
  intros Ht f Hf. refine ((_ : doing x _ _) f Hf).
  destruct (rep_lines _ _ _ Hf) as (Hg & _). unfold addPath.
  eapply does_bind; [apply _|by apply does_read_tag; [apply _|]|].
  intros ls x' [-> ->]. split; [done|].
  apply doing_tag; auto with lines. set_solver.
Qed.

(** The shared body of [removePath] and of the loop over the directory. *)
Lemma doing_remove x tag :
  plain tag →
  doing x (paths ← readLines (Join (byTagDir s) tag);
           if decide (p ∉ paths) then mret tt
           else writeLines (Join (byTagDir s) tag) (paths ∖ {[p]}))
    (λ _ x', tag_step x x' tag (get x tag ∖ {[p]}) ∧ near x x').
Proof.
  intros Ht f Hf. refine ((_ : doing x _ _) f Hf).
  destruct (rep_lines _ _ _ Hf) as (Hg & _).
  eapply does_bind; [apply _|by apply does_read_tag; [apply _|]|].
  intros ls x' [-> ->]. split; [done|]. case_decide as Hin.
  - apply does_ret. split; [|done]. split; [done|]. intros n. case_decide; [|done].
    subst. set_solver.
  - apply doing_tag; auto with lines. set_solver.
Qed.

Definition known_step (x x' : index) (v : gset bytes) : Prop :=
  idx x' = idx x ∧ all x' = Some v.

Lemma doing_addTaggedPath x :
  doing x (addTaggedPath s p) (λ _ x', known_step x x' ({[p]} ∪ known x) ∧ near x x').
Proof.
  intros f Hf. refine ((_ : doing x _ _) f Hf).
  destruct (rep_lines _ _ _ Hf) as (_ & _ & Hk). unfold addTaggedPath.
  eapply does_bind; [apply _|by apply does_allTaggedPaths; [apply _..|apply near_same]|].
  intros ls x' [-> ->]. split; [by apply near_same|].
  eapply does_mono; [by apply does_write_all; [apply _|auto with lines]|].
  intros _ x' ->. split; [done|]. eapply near_all; [done|done|]. set_solver.
Qed.

Lemma doing_removeTaggedPath x :
  doing x (removeTaggedPath s p) (λ _ x', known_step x x' (known x ∖ {[p]}) ∧ near x x').
Proof.
  intros f Hf. refine ((_ : doing x _ _) f Hf).
  destruct (rep_lines _ _ _ Hf) as (_ & _ & Hk). unfold removeTaggedPath.
  eapply does_bind; [apply _|by apply does_allTaggedPaths; [apply _..|apply near_same]|].
  intros ls x' [-> ->]. split; [by apply near_same|]. case_decide as Hin.
  - apply does_ret. split; [|by apply near_same]. split; [done|]. cbn. f_equal. set_solver.
  - eapply does_mono; [by apply does_write_all; [apply _|auto with lines]|].
    intros _ x' ->. split; [done|]. eapply near_all; [done|done|]. set_solver.
Qed.

(** Loops over tags: [F n] is what tag [n] is left with. *)
Definition tags_step (x x' : index) (F : bytes → gset bytes) : Prop :=
  all x' = all x ∧ ∀ n, get x' n = F n.

Lemma doing_remove_loop es x :
  Forall plain es.*1 → Forall (λ e, e.2 = false) es →
  doing x (remove_loop (byTagDir s) p es)
    (λ _ x', tags_step x x' (λ n, if decide (n ∈ es.*1) then get x n ∖ {[p]} else get x n)
             ∧ near x x').
Proof.
  revert x. induction es as [|[n b] es IH]; intros x Hpl Hb; simpl.
  { apply does_ret. split; [|done]. done. }
  rewrite fmap_cons in Hpl. apply Forall_cons in Hpl as [Hn Hpl], Hb as [Hb Hb'].
  cbn in Hn, Hb. subst b. eapply does_bind; [apply _|by apply doing_remove|].
  intros _ x1 [[Ha1 Hg1] Hn1]. split; [done|]. eapply does_mono; [by apply IH|].
  intros _ x2 [[Ha2 Hg2] Hn2]. split; [|by transitivity x1]. split; [congruence|].
  intros m. rewrite Hg2, !Hg1. destruct (decide (m = n)) as [->|Hm].
  - rewrite (decide_True (P := n ∈ n :: _)) by set_solver. case_decide; set_solver.
  - destruct (decide (m ∈ es.*1)).
    + by rewrite decide_True by set_solver.
    + by rewrite decide_False by set_solver.
Qed.

Lemma doing_removePathFromAllTags x :
  doing x (removePathFromAllTags s p)
    (λ _ x', tags_step x x' (λ n, get x n ∖ {[p]}) ∧ near x x').
Proof.
  intros f Hf. refine ((_ : doing x _ _) f Hf). unfold removePathFromAllTags.
  eapply does_bind; [apply _|by apply does_read_dir; apply _|].
  intros es x' (-> & Hes & Hfile). split; [done|]. eapply does_mono.
  { apply doing_remove_loop; [|done]. by eapply entries_plain. }
  intros _ x' [[Ha Hg] Hn]. split; [|done]. split; [done|]. intros n. rewrite Hg.
  case_decide as Hin; [done|]. assert (get x n = ∅) as ->; [|set_solver].
  apply set_eq. intros q. split; [|set_solver]. intros Hq. destruct Hin. by apply (elem_of_entries x n q).
Qed.

Lemma doing_add_loop tags x :
  Forall plain tags →
  doing x (add_loop s p tags)
    (λ _ x', tags_step x x' (λ n, if decide (n ∈ tags) then {[p]} ∪ get x n else get x n)
             ∧ near x x').
Proof.
  revert x. induction tags as [|n tags IH]; intros x Hpl; simpl.
  { apply does_ret. split; [|done]. done. }
  apply Forall_cons in Hpl as [Hn Hpl]. eapply does_bind; [apply _|by apply doing_addPath|].
  intros _ x1 [[Ha1 Hg1] Hn1]. split; [done|]. eapply does_mono; [by apply IH|].
  intros _ x2 [[Ha2 Hg2] Hn2]. split; [|by transitivity x1]. split; [congruence|].
  intros m. rewrite Hg2, !Hg1. destruct (decide (m = n)) as [->|Hm].
  - rewrite (decide_True (P := n ∈ n :: _)) by set_solver. case_decide; set_solver.
  - destruct (decide (m ∈ tags)).
    + by rewrite decide_True by set_solver.
    + by rewrite decide_False by set_solver.
Qed.

(** What [Set] leaves: [p] has exactly [tags], every other path what it had. *)
Definition retagged (x : index) (tags : list bytes) (x' : index) : Prop :=
  (∀ n, get x' n = if decide (n ∈ tags) then {[p]} ∪ get x n else get x n ∖ {[p]})
  ∧ known x' = if decide (tags = []) then known x ∖ {[p]} else {[p]} ∪ known x.

Lemma doing_set tags x :
  Forall plain tags →
  doing x (removePathFromAllTags s p ;;
           (if decide (tags = []) then removeTaggedPath s p else addTaggedPath s p) ;;
           add_loop s p tags)
    (λ _ x', retagged x tags x' ∧ near x x').
Proof.
  intros Hpl. eapply does_bind; [apply _|apply doing_removePathFromAllTags|].
  intros _ x1 [[Ha1 Hg1] Hn1]. split; [done|].
  eapply (does_bind _ _ _ _ _ (λ _ x2,
    known_step x1 x2 (if decide (tags = []) then known x1 ∖ {[p]} else {[p]} ∪ known x1)
    ∧ near x1 x2)).
  { case_decide; [apply doing_removeTaggedPath|apply doing_addTaggedPath]. }
  intros _ x2 [[Hi2 Ha2] Hn2]. split; [done|]. eapply does_mono; [by apply doing_add_loop|].
  intros _ x3 [[Ha3 Hg3] Hn3]. split; [|transitivity x1; [done|by transitivity x2]].
  assert (∀ n, get x2 n = get x n ∖ {[p]}) as Hg2 by (intros; unfold get at 1; rewrite Hi2; apply Hg1).
  split.
  - intros n. rewrite Hg3, !Hg2. repeat case_decide; try done; apply set_eq; intros q;
    destruct (decide (q = p)); set_solver.
  - assert (known x3 = if decide (tags = []) then known x1 ∖ {[p]} else {[p]} ∪ known x1) as ->.
    { unfold known at 1. by rewrite Ha3, Ha2. }
    destruct Hn1 as [_ Hk]. case_decide; apply set_eq; intros q;
      destruct (decide (q = p)); set_solver.
Qed.
End update.
End IndexOps.
Export IndexOps.
