(* ===== verification/TagIndexProps.v ===== *)
(** * TagIndexProps: Set, Update and Query on the abstract index

    [Set] and [Update] change the tags of one path and nothing else, keep
    [all-tagged] in agreement with the tag files, and fail only when a system call
    fails; [Query] lists the paths of a tag in order. *)

From S2P Require Import Prelude GoText GoFs GoFsSpec TagIndex TagIndexSpec.
Import Strings Fs TagIndex.

(** ** Normal forms *)
Module Normal.

Lemma elem_of_norm_loop tags seen t :
  t ∈ norm_loop tags seen ↔ t ≠ [] ∧ t ∉ seen ∧ ∃ u, u ∈ tags ∧ t = TrimSpace u.
Proof.
  revert seen. induction tags as [|u tags IH]; intros seen; simpl; [set_solver|].
  assert ((∃ v, v ∈ u :: tags ∧ t = TrimSpace v)
          ↔ t = TrimSpace u ∨ ∃ v, v ∈ tags ∧ t = TrimSpace v) as ->.
  { setoid_rewrite elem_of_cons. naive_solver. }
  destruct (decide (TrimSpace u = [])) as [Hu|Hu]; [rewrite IH; intuition congruence|].
  destruct (decide (TrimSpace u ∈ seen)) as [Hs|Hs]; [rewrite IH; intuition congruence|].
  rewrite elem_of_cons, IH, not_elem_of_union, not_elem_of_singleton.
  destruct (decide (t = TrimSpace u)) as [->|]; intuition congruence.
Qed.

Lemma elem_of_normalizeTags tags t :
  t ∈ normalizeTags tags ↔ t ≠ [] ∧ ∃ u, u ∈ tags ∧ t = TrimSpace u.
Proof.
  unfold normalizeTags. rewrite SortStrings.Strings_perm, elem_of_norm_loop.
  pose proof (not_elem_of_empty (C := gset bytes) t). intuition.
Qed.

Lemma NoDup_normalizeTags tags : NoDup (normalizeTags tags).
Proof.
  unfold normalizeTags. rewrite SortStrings.Strings_perm. generalize (∅ : gset bytes) as seen.
  induction tags as [|u tags IH]; intros seen; simpl; [constructor|].
  repeat case_decide; [apply IH..|]. constructor; [|apply IH].
  rewrite elem_of_norm_loop, not_elem_of_union, not_elem_of_singleton. intuition congruence.
Qed.

(** Normal tags are normal already. *)
Lemma normalizeTags_idem tags : normalizeTags (normalizeTags tags) = normalizeTags tags.
Proof.
  apply (StronglySorted_unique SortStrings.le); try apply SortStrings.Strings_sorted.
  apply NoDup_Permutation; [apply NoDup_normalizeTags..|].
  intros t. rewrite !elem_of_normalizeTags. split.
  - intros (Ht & u & Hu & ->). apply elem_of_normalizeTags in Hu as (Hn & v & Hv & ->).
    split; [done|]. exists v. split; [done|]. apply TrimSpace_id, TrimSpace_trimmed.
  - intros (Ht & u & Hu & ->). split; [done|]. exists (TrimSpace u). split.
    + apply elem_of_normalizeTags. naive_solver.
    + symmetry. apply TrimSpace_id, TrimSpace_trimmed.
Qed.

Lemma normalizePath_spec p :
  p ≠ [] → normalizePath p = Ok (if HasPrefix p (str "/") then p else str "/" ++ p).
Proof.
  intros Hp. unfold normalizePath. rewrite decide_False by done.
  by destruct (HasPrefix p (str "/")).
Qed.
End Normal.
Export Normal.

(** ** Set and Update *)
Module Retag.
Section retag.
Context (s : Store).

Lemma retagged_consistent p x tags x' :
  retagged p x tags x' → consistent x → consistent x'.
Proof.
  intros [Hg Hk] Hc. apply set_eq. intros q. rewrite Hk, elem_of_tagged.
  setoid_rewrite Hg.
  assert (q ∈ known x ↔ ∃ n, q ∈ get x n) as Hq by (rewrite Hc; apply elem_of_tagged).
  destruct (decide (q = p)) as [->|Hne]; case_decide as Ht.
  - split; [set_solver|]. intros [n Hn]. subst. set_solver.
  - split; [|set_solver]. intros _. destruct tags as [|t tags]; [done|].
    exists t. rewrite decide_True by set_solver. set_solver.
  - rewrite elem_of_difference, Hq. subst. split.
    + intros [[n Hn] _]. exists n. set_solver.
    + intros [n Hn]. split; [exists n; set_solver|set_solver].
  - rewrite elem_of_union, Hq. split.
    + intros [?|[n Hn]]; [set_solver|]. exists n. case_decide; set_solver.
    + intros [n Hn]. right. exists n. case_decide; set_solver.
Qed.

Lemma does_SetTags p q tags x :
  normalizePath p = Ok q → line_ok q → Forall plain (normalizeTags tags) →
  does s (near q) x (SetTags s p tags)
    (λ _ x', retagged q x (normalizeTags tags) x' ∧ near q x x').
Proof.
  intros Hq Hok Hpl f Hf. unfold SetTags. apply wp_bind. eapply wp_lift; [done|].
  refine ((_ : does s (near q) x _ _) f Hf).
  eapply does_bind; [apply near_trans|by apply does_MkdirAll; apply near_refl|].
  intros _ x' ->. split; [apply near_refl|]. by apply doing_set.
Qed.

Section update.
Context (p : bytes) (Hp : line_ok p).

Lemma doing_drop_loop keep tags x :
  Forall plain tags →
  does s (near p) x (drop_loop s p keep tags)
    (λ _ x', tags_step x x' (λ n, if decide (n ∈ tags ∧ n ∉ keep) then get x n ∖ {[p]} else get x n)
             ∧ near p x x').
Proof.
  revert x. induction tags as [|t tags IH]; intros x Hpl; simpl.
  { apply does_ret. split; [done|apply near_refl]. }
  apply Forall_cons in Hpl as [Ht Hpl].
  eapply (does_bind _ _ _ _ _ (λ _ x1,
    tag_step x x1 t (if decide (t ∈ keep) then get x t else get x t ∖ {[p]}) ∧ near p x x1)).
  { case_decide; [|by apply doing_remove]. apply does_ret. split; [|apply near_refl].
    split; [done|]. intros n. by case_decide; subst. }
  intros _ x1 [[Ha1 Hg1] Hn1]. split; [done|]. eapply does_mono; [by apply IH|].
  intros _ x2 [[Ha2 Hg2] Hn2]. split; [|by eapply near_trans]. split; [congruence|].
  intros n. rewrite Hg2, !Hg1. destruct (decide (n = t)) as [->|Hne].
  - destruct (decide (t ∈ keep)).
    + by rewrite !decide_False by set_solver.
    + rewrite (decide_True (P := t ∈ t :: tags ∧ _)) by set_solver. case_decide; set_solver.
  - destruct (decide (n ∈ tags ∧ n ∉ keep)).
    + by rewrite decide_True by set_solver.
    + by rewrite decide_False by set_solver.
Qed.

Lemma doing_extend_loop have tags x :
  Forall plain tags →
  does s (near p) x (extend_loop s p have tags)
    (λ _ x', tags_step x x' (λ n, if decide (n ∈ tags ∧ n ∉ have) then {[p]} ∪ get x n else get x n)
             ∧ near p x x').
Proof.
  revert x. induction tags as [|t tags IH]; intros x Hpl; simpl.
  { apply does_ret. split; [done|apply near_refl]. }
  apply Forall_cons in Hpl as [Ht Hpl].
  eapply (does_bind _ _ _ _ _ (λ _ x1,
    tag_step x x1 t (if decide (t ∈ have) then get x t else {[p]} ∪ get x t) ∧ near p x x1)).
  { case_decide; [|by apply doing_addPath]. apply does_ret. split; [|apply near_refl].
    split; [done|]. intros n. by case_decide; subst. }
  intros _ x1 [[Ha1 Hg1] Hn1]. split; [done|]. eapply does_mono; [by apply IH|].
  intros _ x2 [[Ha2 Hg2] Hn2]. split; [|by eapply near_trans]. split; [congruence|].
  intros n. rewrite Hg2, !Hg1. destruct (decide (n = t)) as [->|Hne].
  - destruct (decide (t ∈ have)).
    + by rewrite !decide_False by set_solver.
    + rewrite (decide_True (P := t ∈ t :: tags ∧ _)) by set_solver. case_decide; set_solver.
  - destruct (decide (n ∈ tags ∧ n ∉ have)).
    + by rewrite decide_True by set_solver.
    + by rewrite decide_False by set_solver.
Qed.

(** The switch at the end of [Update]. *)
Lemma doing_known (oldTags newTags : list bytes) x :
  does s (near p) x
    (if decide (oldTags = [] ∧ newTags ≠ []) then addTaggedPath s p
     else if decide (oldTags ≠ [] ∧ newTags = []) then removeTaggedPath s p else mret tt)
    (λ _ x', idx x' = idx x ∧ near p x x'
       ∧ known x' = if decide (oldTags = [] ∧ newTags ≠ []) then {[p]} ∪ known x
                    else if decide (oldTags ≠ [] ∧ newTags = []) then known x ∖ {[p]} else known x).
Proof.
  repeat case_decide; [eapply does_mono; [by apply doing_addTaggedPath|]
    |eapply does_mono; [by apply doing_removeTaggedPath|]|by apply does_ret].
  - intros _ x' [[Hi Ha] Hn]. split_and!; [done|done|]. unfold known at 1. by rewrite Ha.
  - intros _ x' [[Hi Ha] Hn]. split_and!; [done|done|]. unfold known at 1. by rewrite Ha.
Qed.
End update.

Lemma update_sets (v : gset bytes) q (o w o' w' : Prop)
    `{!Decision w} `{!Decision (o ∧ ¬ w')} `{!Decision (w ∧ ¬ o')} :
  (q ∈ v ↔ o) → (o' ↔ o) → (w' ↔ w) →
  (if decide (w ∧ ¬ o') then {[q]} ∪ (if decide (o ∧ ¬ w') then v ∖ {[q]} else v)
   else if decide (o ∧ ¬ w') then v ∖ {[q]} else v)
  = if decide w then {[q]} ∪ v else v ∖ {[q]}.
Proof.
  intros Hv Ho Hw. apply set_eq. intros y. destruct (decide (q ∈ v)) as [Hin|Hin];
    repeat case_decide; rewrite ?elem_of_union, ?elem_of_difference, ?elem_of_singleton;
    destruct (decide (y = q)) as [->|]; tauto.
Qed.

(** The index after both loops and the switch, when [old] are the tags [q] had. *)
Lemma update_retags q (old new : list bytes) x x2 x3 :
  consistent x → (∀ n, q ∈ get x n ↔ n ∈ old) → all x2 = all x → near q x x2 →
  (∀ n, get x3 n = if decide (n ∈ new) then {[q]} ∪ get x n else get x n ∖ {[q]}) →
  idx x3 = idx x2 →
  (known x3 = if decide (old = [] ∧ new ≠ []) then {[q]} ∪ known x2
              else if decide (old ≠ [] ∧ new = []) then known x2 ∖ {[q]} else known x2) →
  retagged q x new x3.
Proof.
  intros Hc Hold Ha2 [_ Hk2] Hg3 Hi3 Hk3. split; [done|]. rewrite Hk3.
  assert (old ≠ [] ↔ q ∈ known x) as Ho.
  { rewrite Hc, elem_of_tagged. setoid_rewrite Hold.
    destruct old; [set_solver|]. split; [|done]. intros _. eexists. by left. }
  assert (q ∈ tagged x2 ↔ new ≠ []) as Ht2.
  { rewrite elem_of_tagged. replace (get x2) with (get x3) by (unfold get; by rewrite Hi3).
    setoid_rewrite Hg3. destruct new as [|t new].
    - split; [|done]. intros [n Hn]. set_solver.
    - split; [done|]. intros _. exists t. rewrite decide_True by set_solver. set_solver. }
  assert (q ∈ known x2 ↔ match all x with Some _ => old ≠ [] | None => new ≠ [] end) as Hq2.
  { revert Ho. unfold known. rewrite Ha2. by destruct (all x); cbn. }
  clear -Hk2 Hq2 Ho. destruct (all x); apply set_eq; intros y; specialize (Hk2 y).
  all: destruct (decide (y = q)) as [->|Hy]; [clear Hk2|specialize (Hk2 Hy); clear Hq2 Ho].
  all: destruct (decide (old = [])), (decide (new = [])); repeat case_decide;
    rewrite ?elem_of_union, ?elem_of_difference, ?elem_of_singleton; tauto.
Qed.

(** [Update] told the tags the path has leaves what [Set] leaves. *)
Lemma does_Update p q oldTags newTags x :
  normalizePath p = Ok q → line_ok q →
  Forall plain (normalizeTags oldTags) → Forall plain (normalizeTags newTags) →
  consistent x → (∀ n, q ∈ get x n ↔ n ∈ normalizeTags oldTags) →
  does s (near q) x (Update s p oldTags newTags)
    (λ _ x', retagged q x (normalizeTags newTags) x' ∧ near q x x').
Proof.
  intros Hq Hok Hpo Hpn Hc Hold f Hf. unfold Update. apply wp_bind. eapply wp_lift; [done|].
  refine ((_ : does s (near q) x _ _) f Hf).
  revert Hpo Hpn Hold. generalize (normalizeTags oldTags) as old, (normalizeTags newTags) as new.
  intros old new Hpo Hpn Hold. clear f Hf.
  eapply does_bind; [apply _|by apply does_MkdirAll; apply _|].
  intros _ x' ->. split; [done|].
  eapply does_bind; [apply _|by apply doing_drop_loop|]. intros _ x1 [[Ha1 Hg1] Hn1].
  split; [done|]. eapply does_bind; [apply _|by apply doing_extend_loop|].
  intros _ x2 [[Ha2 Hg2] Hn2]. split; [done|]. eapply does_mono; [by apply doing_known|].
  intros _ x3 (Hi3 & Hn3 & Hk3).
  assert (near q x x2) as Hn12 by by transitivity x1.
  split; [|by transitivity x2].
  apply (update_retags q old new x x2 x3); auto; [congruence|].
  intros n. unfold get at 1. rewrite Hi3. fold (get x2 n). rewrite Hg2, Hg1.
  specialize (Hold n). clear -Hold. unfold tagSet.
  apply update_sets; [done|..]; by rewrite elem_of_list_to_set.
Qed.
End retag.
End Retag.
Export Retag.

(** ** Query *)
Module TagQueries.

#[global] Instance same_refl : Reflexive same.
Proof. intros x. done. Qed.
#[global] Instance same_trans : Transitive same.
Proof. intros x y z [] []. split; congruence. Qed.

Lemma elem_of_filterAndSort paths under p :
  p ∈ filterAndSort paths under ↔ p ∈ paths ∧ under_ok (normalizeUnder under) p = true.
Proof.
  unfold filterAndSort. rewrite SortStrings.Strings_perm, list_elem_of_filter, elem_of_elements.
  naive_solver.
Qed.

Lemma NoDup_filterAndSort paths under : NoDup (filterAndSort paths under).
Proof.
  unfold filterAndSort. rewrite SortStrings.Strings_perm. apply NoDup_filter, NoDup_elements.
Qed.

Lemma filterAndSort_sorted paths under :
  StronglySorted SortStrings.le (filterAndSort paths under).
Proof. apply SortStrings.Strings_sorted. Qed.

Lemma does_Query s x tag under :
  plain (TrimSpace tag) →
  does s same x (Query s tag under)
    (λ r x', x' = x ∧ r = filterAndSort (get x (TrimSpace tag)) under).
Proof.
  intros Ht. unfold Query. rewrite decide_False by apply Ht.
  eapply does_bind; [apply _|by apply does_read_tag; [apply _|]|].
  intros ls x' [-> ->]. split; [done|]. by apply does_ret.
Qed.

Lemma under_everything p : under_ok (normalizeUnder []) p = true.
Proof. done. Qed.
End TagQueries.
Export TagQueries.

(** ** The claims *)
Module TagClaims.

(** An empty disk stands for the empty index. *)
Lemma rep_empty_disk s fl : rep s (MkFs ∅ fl) (Index ∅ None).
Proof.
  assert (∀ q, q ≠ [] → node_at (MkFs ∅ fl) q = None) as Hn.
  { intros [] ?; [done|]. apply lookup_empty. }
  split; cbn [idx all].
  - intros [|c q] _; [done|]. by rewrite Hn.
  - intros n. rewrite lookup_empty, Hn; [done|]. by destruct (byTagDir s).
  - rewrite Hn; [done|]. rewrite allTaggedPath_eq. by destruct (Root s).
  - intros n [? H]. by rewrite lookup_empty in H.
  - done.
Qed.

(** C23: On a disk that holds the index [x] (every entry of [by-tag] a tag file, no
    nested directory), [Set] of a path without blanks at its ends or line breaks, with
    tags that name files (no slash, neither "." nor ".."), leaves an index where the path
    has exactly the normalised tags and every other path what it had, and where
    [all-tagged] still agrees with the tag files if it did.  It returns when no system
    call fails; when one does it may fail, and then what the index says about other
    paths is unchanged; it does not panic. *)
Theorem set_retags s f x p q tags :
  rep s f x → normalizePath p = Ok q → line_ok q → Forall plain (normalizeTags tags) →
  wp (SetTags s p tags)
    (λ f' _, ∃ x', rep s f' x' ∧ retagged q x (normalizeTags tags) x'
                   ∧ (consistent x → consistent x'))
    (λ f', ∃ x', rep s f' x' ∧ near q x x') f
  ∧ (faults f = [] → ∃ f', SetTags s p tags f = (f', Ok tt)).
Proof.
  intros Hf Hq Hok Hpl. pose proof (does_SetTags s p q tags x Hq Hok Hpl f Hf) as Hw. split.
  - eapply wp_mono; [exact Hw| |done]. cbv beta.
    intros f' _ ((x' & ? & ? & _) & _). exists x'. split_and!; [done|done|].
    by eapply retagged_consistent.
  - intros Hnf. destruct (wp_run _ _ _ _ Hw Hnf) as (f' & [] & E & _). by exists f'.
Qed.

(** C24: [Update] with an old and a new tag list: when the old list names exactly the
    tags the path has, the index is consistent and the tags name files, it leaves an
    index where the path has exactly the new tags and every other path what it had, with
    [all-tagged] in agreement, although it only touches the files whose tag was added or
    removed.  When no system call fails, [Update] and [Set] with the new list both
    return, and leave the same paths under every tag and in [all-tagged]. *)
Theorem update_as_set s f x p q oldTags newTags :
  rep s f x → consistent x → normalizePath p = Ok q → line_ok q →
  Forall plain (normalizeTags oldTags) → Forall plain (normalizeTags newTags) →
  (∀ n, q ∈ get x n ↔ n ∈ normalizeTags oldTags) →
  wp (Update s p oldTags newTags)
    (λ f' _, ∃ x', rep s f' x' ∧ retagged q x (normalizeTags newTags) x' ∧ consistent x')
    (λ f', ∃ x', rep s f' x' ∧ near q x x') f
  ∧ (faults f = [] → ∃ f1 f2 x1 x2,
       Update s p oldTags newTags f = (f1, Ok tt) ∧ SetTags s p newTags f = (f2, Ok tt)
       ∧ rep s f1 x1 ∧ rep s f2 x2 ∧ known x1 = known x2 ∧ ∀ n, get x1 n = get x2 n).
Proof.
  intros Hf Hc Hq Hok Ho Hn Hold. pose proof (does_Update s p q oldTags newTags x Hq Hok Ho Hn Hc Hold f Hf) as Hw. split.
  - eapply wp_mono; [exact Hw| |done]. cbv beta.
    intros f' _ ((x' & ? & ? & _) & _). exists x'. split_and!; [done|done|].
    by eapply retagged_consistent.
  - intros Hnf. destruct (wp_run _ _ _ _ Hw Hnf) as (f1 & [] & E1 & _ & (x1 & R1 & [G1 K1] & _) & _).
    destruct (wp_run _ _ _ _ (does_SetTags s p q newTags x Hq Hok Hn f Hf) Hnf)
      as (f2 & [] & E2 & _ & (x2 & R2 & [G2 K2] & _) & _).
    exists f1, f2, x1, x2. split_and!; [done..|congruence|]. intros n. by rewrite G1, G2.
Qed.

(** When no system call fails, [Set] returns, and [Query] of any tag then
    returns, in order and without repetition, the path exactly when the tag is
    among its normalised tags, and the other paths as before. *)
Theorem set_then_query s f x p q tags tag :
  rep s f x → faults f = [] → normalizePath p = Ok q → line_ok q →
  Forall plain (normalizeTags tags) → plain (TrimSpace tag) →
  ∃ f1 f2 r, SetTags s p tags f = (f1, Ok tt) ∧ Query s tag [] f1 = (f2, Ok r)
    ∧ StronglySorted SortStrings.le r ∧ NoDup r
    ∧ (q ∈ r ↔ TrimSpace tag ∈ normalizeTags tags)
    ∧ ∀ p', p' ≠ q → p' ∈ r ↔ p' ∈ get x (TrimSpace tag).
Proof.
  intros Hf Hnf Hq Hok Hpl Ht.
  destruct (wp_run _ _ _ _ (does_SetTags s p q tags x Hq Hok Hpl f Hf) Hnf)
    as (f1 & [] & H1 & Hnf1 & (x1 & Hf1 & [Hg _] & Hnear) & _).
  destruct (wp_run _ _ _ _ (does_Query s x1 tag [] Ht f1 Hf1) Hnf1)
    as (f2 & r & H2 & _ & (x2 & _ & _ & ->) & _).
  exists f1, f2, (filterAndSort (get x1 (TrimSpace tag)) []).
  split_and!; [done|done|apply filterAndSort_sorted|apply NoDup_filterAndSort|..].
  - rewrite elem_of_filterAndSort, under_everything, Hg. case_decide; set_solver.
  - intros p' Hp'. rewrite elem_of_filterAndSort, under_everything.
    destruct Hnear as [Hn _]. rewrite (Hn _ p' Hp'). naive_solver.
Qed.

(** The index of the witnesses, on an empty disk; system calls fail in the second
    half of the first. *)
Definition sample_store : Store := New [str "srv"; str "tags"].

Lemma set_retags_witness :
  let tags := [str " red "; str "blue"; str "red"] in
  let sets := wp (SetTags sample_store (str "a.txt") tags)
    (λ f' _, ∃ x', rep sample_store f' x'
       ∧ retagged (str "/a.txt") (Index ∅ None) [str "blue"; str "red"] x'
       ∧ (consistent (Index ∅ None) → consistent x'))
    (λ f', ∃ x', rep sample_store f' x' ∧ near (str "/a.txt") (Index ∅ None) x') in
  sets (MkFs ∅ []) ∧ (∃ f', SetTags sample_store (str "a.txt") tags (MkFs ∅ []) = (f', Ok tt))
  ∧ sets (MkFs ∅ [false; false; true]).
Proof.
  intros tags sets.
  destruct (set_retags sample_store (MkFs ∅ []) (Index ∅ None) (str "a.txt") (str "/a.txt") tags) as [H1 H2];
    [apply rep_empty_disk|reflexivity|decided|decided|].
  split; [exact H1|]. split; [apply H2; reflexivity|].
  apply (set_retags sample_store (MkFs ∅ [false; false; true]) (Index ∅ None) (str "a.txt") (str "/a.txt") tags);
    [apply rep_empty_disk|reflexivity|decided|decided].
Defined.

Lemma update_as_set_witness :
  wp (Update sample_store (str "/a.txt") [] [str "red"])
    (λ f' _, ∃ x', rep sample_store f' x'
       ∧ retagged (str "/a.txt") (Index ∅ None) [str "red"] x' ∧ consistent x')
    (λ f', ∃ x', rep sample_store f' x' ∧ near (str "/a.txt") (Index ∅ None) x')
    (MkFs ∅ [])
  ∧ ∃ f1 f2 x1 x2,
      Update sample_store (str "/a.txt") [] [str "red"] (MkFs ∅ []) = (f1, Ok tt)
      ∧ SetTags sample_store (str "/a.txt") [str "red"] (MkFs ∅ []) = (f2, Ok tt)
      ∧ rep sample_store f1 x1 ∧ rep sample_store f2 x2 ∧ known x1 = known x2 ∧ ∀ n, get x1 n = get x2 n.
Proof.
  destruct (update_as_set sample_store (MkFs ∅ []) (Index ∅ None) (str "/a.txt") (str "/a.txt") [] [str "red"])
    as [H1 H2].
  - apply rep_empty_disk.
  - reflexivity.
  - reflexivity.
  - decided.
  - decided.
  - decided.
  - intros n. unfold get; cbn. rewrite lookup_empty. set_solver.
  - split; [exact H1|]. apply H2. reflexivity.
Defined.

Lemma set_then_query_witness :
  ∃ f1 f2 r, SetTags sample_store (str "a.txt") [str "red"] (MkFs ∅ []) = (f1, Ok tt)
    ∧ Query sample_store (str "red ") [] f1 = (f2, Ok r)
    ∧ StronglySorted SortStrings.le r ∧ NoDup r
    ∧ (str "/a.txt" ∈ r ↔ TrimSpace (str "red ") ∈ normalizeTags [str "red"])
    ∧ ∀ p', p' ≠ str "/a.txt" → p' ∈ r ↔ p' ∈ get (Index ∅ None) (TrimSpace (str "red ")).
Proof.
  apply (set_then_query sample_store).
  - apply rep_empty_disk.
  - reflexivity.
  - reflexivity.
  - decided.
  - decided.
  - decided.
Defined.

(** A tag with a slash becomes a file in a subdirectory, which [Set] does not
    visit: the path keeps the tag when its tags are replaced. *)
Example nested_tag_survives :
  ((SetTags sample_store (str "/a") [str "x/y"] ;;
   SetTags sample_store (str "/a") [] ;;
   Query sample_store (str "x/y") []) (MkFs ∅ [])).2 = Ok [str "/a"].
Proof. vm_compute. reflexivity. Qed.

(** A path that ends in a space is written as it is and read back without it, so
    it cannot be found under its name, nor removed again. *)
Example trailing_space_lost :
  ((SetTags sample_store (str "/a ") [str "x"] ;;
   SetTags sample_store (str "/a ") [] ;;
   Query sample_store (str "x") []) (MkFs ∅ [])).2 = Ok [str "/a"].
Proof. vm_compute. reflexivity. Qed.

End TagClaims.
