(* ===== verification/TagQuery.v ===== *)
(** * TagQuery: what a query expression means

    The grammar of query expressions, their boolean meaning on the tags of one
    path, and the proof that [QueryExpr] recognises exactly the grammar and
    returns exactly the tagged paths for which the expression is true. *)

From S2P Require Import Prelude GoText GoFs GoFsSpec TagIndex TagIndexSpec TagIndexProps.
Import Strings Fs TagIndex.

#[local] Arguments str : simpl never.

(** ** Expressions *)
Module Expr.

Inductive expr :=
  | ETag (t : bytes)
  | ENot (e : expr)
  | EAnd (a b : expr)
  | EOr (a b : expr).

(** On one path: [v t] says whether it carries [t]. *)
Fixpoint holds (v : bytes → bool) (e : expr) : bool :=
  match e with
  | ETag t => v t
  | ENot e => negb (holds v e)
  | EAnd a b => holds v a && holds v b
  | EOr a b => holds v a || holds v b
  end.

(** As sets of paths. *)
Fixpoint den (x : index) (e : expr) : gset bytes :=
  match e with
  | ETag t => get x t
  | ENot e => known x ∖ den x e
  | EAnd a b => den x a ∩ den x b
  | EOr a b => den x a ∪ den x b
  end.

Abbreviation is_and t := (EqualFold t (str "and") = true).
Abbreviation is_or t := (EqualFold t (str "or") = true).
Abbreviation is_not t := (EqualFold t (str "not") = true).

(** [not] binds tightest, then [and], then [or]; both associate to the left and
    operators are recognised in any case. *)
Inductive unary : list bytes → expr → Prop :=
  | unary_tag t : isOperator t = false → unary [t] (ETag t)
  | unary_not o ts e : is_not o → unary ts e → unary (o :: ts) (ENot e).

Inductive and_tail : expr → list bytes → expr → Prop :=
  | and_done l : and_tail l [] l
  | and_more l o us u ts e :
      is_and o → unary us u → and_tail (EAnd l u) ts e → and_tail l (o :: us ++ ts) e.

Inductive conj_expr : list bytes → expr → Prop :=
  | conj_intro us u ts e : unary us u → and_tail u ts e → conj_expr (us ++ ts) e.

Inductive or_tail : expr → list bytes → expr → Prop :=
  | or_done l : or_tail l [] l
  | or_more l o us u ts e :
      is_or o → conj_expr us u → or_tail (EOr l u) ts e → or_tail l (o :: us ++ ts) e.

Inductive query : list bytes → expr → Prop :=
  | query_intro us u ts e : conj_expr us u → or_tail u ts e → query (us ++ ts) e.

(** ** A parser for the grammar, on the tokens that are left *)

Fixpoint p_unary (ts : list bytes) : option (expr * list bytes) :=
  match ts with
  | [] => None
  | t :: ts =>
      if EqualFold t (str "not") then
        match p_unary ts with Some (e, r) => Some (ENot e, r) | None => None end
      else if isOperator t then None else Some (ETag t, ts)
  end.

Fixpoint p_and_loop (fuel : nat) (l : expr) (ts : list bytes) : option (expr * list bytes) :=
  match fuel with
  | O => None
  | S fuel =>
      match ts with
      | [] => Some (l, [])
      | t :: ts' =>
          if EqualFold t (str "and") then
            match p_unary ts' with Some (u, r) => p_and_loop fuel (EAnd l u) r | None => None end
          else Some (l, ts)
      end
  end.

Definition p_and (fuel : nat) (ts : list bytes) : option (expr * list bytes) :=
  match p_unary ts with Some (u, r) => p_and_loop fuel u r | None => None end.

Fixpoint p_or_loop (fuel : nat) (l : expr) (ts : list bytes) : option (expr * list bytes) :=
  match fuel with
  | O => None
  | S fuel =>
      match ts with
      | [] => Some (l, [])
      | t :: ts' =>
          if EqualFold t (str "or") then
            match p_and fuel ts' with Some (u, r) => p_or_loop fuel (EOr l u) r | None => None end
          else Some (l, ts)
      end
  end.

Definition p_or (fuel : nat) (ts : list bytes) : option (expr * list bytes) :=
  match p_and fuel ts with Some (u, r) => p_or_loop fuel u r | None => None end.

(** *** It finds derivations *)

Lemma p_unary_sound ts e r : p_unary ts = Some (e, r) → ∃ us, ts = us ++ r ∧ unary us e.
Proof.
  revert e r. induction ts as [|t ts IH]; intros e r; simpl; [done|].
  destruct (EqualFold t (str "not")) eqn:Ht.
  - destruct (p_unary ts) as [[u r']|] eqn:Hu; [|done]. intros [= <- <-].
    destruct (IH _ _ eq_refl) as (us & -> & Hus). exists (t :: us). split; [done|]. by constructor.
  - destruct (isOperator t) eqn:Ho; [done|]. intros [= <- <-]. exists [t].
    split; [done|]. by constructor.
Qed.

Lemma p_and_loop_sound fuel l ts e r :
  p_and_loop fuel l ts = Some (e, r) → ∃ us, ts = us ++ r ∧ and_tail l us e.
Proof.
  revert l ts. induction fuel as [|fuel IH]; intros l [|t ts]; simpl; try done.
  - intros [= <- <-]. exists []. split; [done|constructor].
  - destruct (EqualFold t (str "and")) eqn:Ht.
    + destruct (p_unary ts) as [[u r']|] eqn:Hu; [|done]. intros H.
      apply p_unary_sound in Hu as (us & -> & Hu). apply IH in H as (vs & -> & Hv).
      exists (t :: us ++ vs). split; [simpl; by rewrite <- app_assoc|]. by econstructor.
    + intros [= <- <-]. exists []. split; [done|constructor].
Qed.

Lemma p_and_sound fuel ts e r :
  p_and fuel ts = Some (e, r) → ∃ us, ts = us ++ r ∧ conj_expr us e.
Proof.
  unfold p_and. destruct (p_unary ts) as [[u r']|] eqn:Hu; [|done]. intros H.
  apply p_unary_sound in Hu as (us & -> & Hu). apply p_and_loop_sound in H as (vs & -> & Hv).
  exists (us ++ vs). split; [by rewrite app_assoc|]. by econstructor.
Qed.

Lemma p_or_loop_sound fuel l ts e r :
  p_or_loop fuel l ts = Some (e, r) → ∃ us, ts = us ++ r ∧ or_tail l us e.
Proof.
  revert l ts. induction fuel as [|fuel IH]; intros l [|t ts]; simpl; try done.
  - intros [= <- <-]. exists []. split; [done|constructor].
  - destruct (EqualFold t (str "or")) eqn:Ht.
    + destruct (p_and fuel ts) as [[u r']|] eqn:Hu; [|done]. intros H.
      apply p_and_sound in Hu as (us & -> & Hu). apply IH in H as (vs & -> & Hv).
      exists (t :: us ++ vs). split; [simpl; by rewrite <- app_assoc|]. by econstructor.
    + intros [= <- <-]. exists []. split; [done|constructor].
Qed.

Lemma p_or_sound fuel ts e : p_or fuel ts = Some (e, []) → query ts e.
Proof.
  unfold p_or. destruct (p_and fuel ts) as [[u r']|] eqn:Hu; [|done]. intros H.
  apply p_and_sound in Hu as (us & -> & Hu). apply p_or_loop_sound in H as (vs & -> & Hv).
  rewrite app_nil_r. by econstructor.
Qed.

(** *** And all of them *)

Definition starts (o : bytes) (ts : list bytes) : bool :=
  match ts with [] => false | t :: _ => EqualFold t o end.

Lemma fold_exclusive t o o' : to_lower <$> o ≠ to_lower <$> o' →
  EqualFold t o = true → EqualFold t o' = false.
Proof.
  unfold EqualFold. rewrite bool_decide_eq_true, bool_decide_eq_false. congruence.
Qed.

Lemma or_not_and t : is_or t → EqualFold t (str "and") = false.
Proof. by apply fold_exclusive. Qed.

Lemma not_operator t o : isOperator t = false →
  o = str "and" ∨ o = str "or" ∨ o = str "not" → EqualFold t o = false.
Proof.
  unfold isOperator. rewrite !orb_false_iff. intros [[??] ?] [-> | [-> | -> ]]; done.
Qed.

Lemma p_unary_complete us e r : unary us e → p_unary (us ++ r) = Some (e, r).
Proof.
  induction 1 as [t Ht|o ts e Ho _ IH]; simpl.
  - rewrite (not_operator t (str "not")), Ht by auto. done.
  - by rewrite Ho, IH.
Qed.

Lemma p_and_loop_complete fuel l us e r :
  and_tail l us e → starts (str "and") r = false → (length (us ++ r) < fuel)%nat →
  p_and_loop fuel l (us ++ r) = Some (e, r).
Proof.
  intros H Hr. revert fuel. induction H as [l|l o us u ts e Ho Hu _ IH]; intros [|fuel] Hf;
    simpl in *; try lia.
  - destruct r as [|t r]; [done|]. simpl in Hr. by rewrite Hr.
  - rewrite Ho, <- app_assoc. erewrite p_unary_complete by done. apply IH.
    rewrite <- app_assoc, length_app in Hf. lia.
Qed.

Lemma p_and_complete fuel us e r :
  conj_expr us e → starts (str "and") r = false → (length (us ++ r) < fuel)%nat →
  p_and fuel (us ++ r) = Some (e, r).
Proof.
  intros [us' u ts e' Hu Ht] Hr Hf. unfold p_and. rewrite <- app_assoc.
  erewrite p_unary_complete by done. apply p_and_loop_complete; [done..|].
  rewrite <- app_assoc, length_app in Hf. lia.
Qed.

Lemma or_tail_starts l us e : or_tail l us e → starts (str "and") us = false.
Proof. intros []; simpl; [done|]. by apply or_not_and. Qed.

Lemma p_or_loop_complete fuel l us e :
  or_tail l us e → (length us < fuel)%nat → p_or_loop fuel l us = Some (e, []).
Proof.
  intros H. revert fuel. induction H as [l|l o us u ts e Ho Hu Ht IH]; intros [|fuel] Hf;
    simpl in *; try lia; [done|].
  rewrite Ho. erewrite p_and_complete; [|done|by eapply or_tail_starts|lia]. apply IH.
  rewrite length_app in Hf. lia.
Qed.

Lemma p_or_complete fuel ts e :
  query ts e → (length ts < fuel)%nat → p_or fuel ts = Some (e, []).
Proof.
  intros [us u ts' e' Hu Ht] Hf. unfold p_or.
  erewrite p_and_complete; [|done|by eapply or_tail_starts|done].
  apply p_or_loop_complete; [done|]. rewrite length_app in Hf. lia.
Qed.

(** ** Sets and truth *)

Lemma den_known x e : (∀ t, get x t ⊆ known x) → den x e ⊆ known x.
Proof. intros H. induction e; simpl; [apply H|set_solver..]. Qed.

Lemma elem_of_den x e p :
  (∀ t, get x t ⊆ known x) →
  p ∈ den x e ↔ p ∈ known x ∧ holds (λ t, bool_decide (p ∈ get x t)) e = true.
Proof.
  intros H. induction e as [t|e IH|a IHa b IHb|a IHa b IHb]; simpl.
  - rewrite bool_decide_eq_true. split; [|naive_solver]. intros Hp. split; [by eapply H|done].
  - rewrite elem_of_difference, IH, negb_true_iff. destruct (holds _ e); naive_solver.
  - rewrite elem_of_intersection, IHa, IHb, andb_true_iff. naive_solver.
  - rewrite elem_of_union, IHa, IHb, orb_true_iff. naive_solver.
Qed.

Lemma consistent_known x : consistent x → ∀ t, get x t ⊆ known x.
Proof. intros -> t p Hp. apply elem_of_tagged. by exists t. Qed.

Lemma intersect_spec a b : intersect a b = a ∩ b.
Proof. unfold intersect. case_decide; apply set_eq; intros p; rewrite elem_of_filter; set_solver. Qed.
Lemma difference_spec a b : difference a b = a ∖ b.
Proof. unfold difference. apply set_eq. intros p. rewrite elem_of_filter. set_solver. Qed.
End Expr.
Export Expr.

(** ** The parser of the source does what [p_or] does *)
Module ParserRun.
Section run.
Context (s : Store) (tokens : list bytes) (x : index).
Context (Htags : ∀ t, t ∈ tokens → isOperator t = false → plain t).
Context (Hknown : ∀ t, get x t ⊆ known x).

Definition stands (f : fs) : Prop := ∃ x', rep s f x' ∧ same x x'.

(** [m] from position [pos] consumes what the pure parser consumes and computes
    the set its expression stands for; it fails when that parser does, or when a
    system call does. *)
Definition runs {A B} (m : SE parser A) (pure : option (B * list bytes)) (val : B → A)
    (f : fs) (pos : nat) : Prop :=
  match m (f, pos) with
  | ((f', pos'), Ok a) =>
      faults f' `suffix_of` faults f ∧ stands f'
      ∧ ∃ b, pure = Some (b, drop pos' tokens) ∧ a = val b
  | ((f', _), Fail _) => (true ∈ faults f ∨ pure = None) ∧ stands f'
  | (_, Panic) => False
  end.

Lemma runs_bind {A B C D} (m : SE parser A) (k : A → SE parser C)
    (p1 : option (B * list bytes)) (p2 : B → list bytes → option (D * list bytes)) v1 v2 f pos :
  runs m p1 v1 f pos →
  (∀ b f' pos', stands f' → p1 = Some (b, drop pos' tokens) →
     runs (k (v1 b)) (p2 b (drop pos' tokens)) v2 f' pos') →
  runs (m ≫= k) (match p1 with Some (b, r) => p2 b r | None => None end) v2 f pos.
Proof.
  unfold runs at 1. intros Hm Hk. unfold runs, mbind, SE_bind.
  destruct (m (f, pos)) as [[f1 pos1] [a|e|]]; [| |done].
  - destruct Hm as (Hs & Hst & b & -> & ->). specialize (Hk b f1 pos1 Hst eq_refl).
    unfold runs in Hk. destruct (k (v1 b) (f1, pos1)) as [[f2 pos2] [c|e|]]; [| |done].
    + destruct Hk as (? & ? & ?). split_and!; [by etransitivity|done|done].
    + destruct Hk as [Hf ?]. split; [|done]. destruct Hf; eauto using suffix_true.
  - destruct Hm as [[?| ->] ?]; auto.
Qed.

Lemma runs_match {A B} o (k : bool → SE parser A) (pure : option (B * list bytes)) v f pos :
  match drop pos tokens with
  | [] => runs (k false) pure v f pos
  | t :: _ => if EqualFold t o then runs (k true) pure v f (S pos) else runs (k false) pure v f pos
  end →
  runs (match_token tokens o ≫= k) pure v f pos.
Proof.
  intros H. unfold runs, mbind, SE_bind, match_token.
  assert (tokens !! pos = head (drop pos tokens)) as ->.
  { by rewrite head_lookup, lookup_drop, Nat.add_0_r. }
  destruct (drop pos tokens) as [|t r]; simpl; [done|].
  by destruct (EqualFold t o).
Qed.

Lemma drop_next pos t r : drop pos tokens = t :: r → drop (S pos) tokens = r ∧ tokens !! pos = Some t.
Proof.
  intros H. split.
  - replace (S pos) with (pos + 1)%nat by lia. by rewrite <- drop_drop, H.
  - rewrite <- (Nat.add_0_r pos), <- lookup_drop, H. done.
Qed.

(** Code that only uses the file system leaves the position alone. *)
Lemma runs_fs {A} (m : SE fs A) (val : gset bytes → A) f pos :
  wp m (λ f' a, stands f' ∧ a = val ∅) stands f →
  runs (on_fs m) (Some (∅ : gset bytes, drop pos tokens)) val f pos.
Proof.
  unfold wp, runs, on_fs. destruct (m f) as [f' [a|e|]]; [| |done].
  - intros (? & ? & ->). split_and!; [done|done|]. by exists ∅.
  - intros [? ?]. auto.
Qed.

Lemma stands_does {A} (m : SE fs A) (R : A → Prop) f :
  stands f →
  (∀ x1, same x x1 → does s same x1 m (λ a x', same x1 x' ∧ R a)) →
  wp m (λ f' a, stands f' ∧ R a) stands f.
Proof.
  intros (x1 & Hf & Hs) Hm. eapply wp_mono; [by apply (Hm x1 Hs f)| |]; cbv beta.
  - intros f' a ((x' & Hf' & Hs' & HR) & _). split; [|done]. exists x'. split; [done|].
    by transitivity x1.
  - intros f' (x' & Hf' & Hs'). exists x'. split; [done|]. by transitivity x1.
Qed.

Lemma runs_expect_tag f pos :
  stands f → starts (str "not") (drop pos tokens) = false →
  runs (expect_tag s tokens) (p_unary (drop pos tokens)) (den x) f pos.
Proof.
  intros Hst Hnot. unfold expect_tag, runs, mbind, SE_bind, se_get, hasNext, next; cbn [snd].
  destruct (drop pos tokens) as [|t r] eqn:Hd.
  { rewrite bool_decide_eq_false_2; [cbn; auto|].
    apply (f_equal length) in Hd. rewrite length_drop in Hd. simpl in Hd. lia. }
  apply drop_next in Hd as [Hr Ht]. rewrite bool_decide_eq_true_2 by (by apply lookup_lt_Some in Ht).
  cbn [negb]. rewrite Ht. simpl in Hnot. simpl. rewrite Hnot.
  destruct (isOperator t) eqn:Hop; [cbn; auto|].
  assert (runs (on_fs (pathsForTag s t)) (Some (∅ : gset bytes, drop (S pos) tokens))
            (λ _, den x (ETag t)) f (S pos)) as H.
  { apply runs_fs, stands_does; [done|]. intros x1 [Hi _]. eapply does_mono.
    { apply does_read_tag; [apply _|]. apply Htags; [by eapply list_elem_of_lookup_2|done]. }
    intros ls x' [-> ->]. split; [done|]. simpl. unfold get. by rewrite Hi. }
  unfold runs in H. destruct (on_fs _ _) as [[f' pos'] [a|e|]]; [| |done].
  - destruct H as (? & ? & b & [= ? Hp] & ->). split_and!; [done|done|]. exists (ETag t).
    split; [congruence|done].
  - destruct H as [[?|?] ?]; [auto|done].
Qed.

Lemma p_unary_rest ts e r : p_unary ts = Some (e, r) → (length r < length ts)%nat.
Proof.
  revert e. induction ts as [|t ts IH]; intros e; simpl; [done|].
  destruct (EqualFold t (str "not")).
  - destruct (p_unary ts) as [[u r']|]; [|done]. intros [= <- <-]. specialize (IH _ eq_refl). lia.
  - destruct (isOperator t); [done|]. intros [= <- <-]. lia.
Qed.

Lemma runs_all f pos :
  stands f → runs (on_fs (allTaggedPaths s)) (Some (∅ : gset bytes, drop pos tokens)) (λ _, known x) f pos.
Proof.
  intros Hst. apply runs_fs, stands_does; [done|]. intros x1 [Hi Hk].
  eapply does_mono; [apply does_allTaggedPaths; [apply _..|done]|].
  intros ls x' [-> ->]. split; [done|done].
Qed.

Lemma runs_parseUnary fuel f pos :
  stands f → (length (drop pos tokens) < fuel)%nat →
  runs (parseUnary s tokens fuel) (p_unary (drop pos tokens)) (den x) f pos.
Proof.
  revert f pos. induction fuel as [|fuel IH]; intros f pos Hst Hf; [lia|].
  simpl. apply runs_match. destruct (drop pos tokens) as [|t r] eqn:Hd.
  { rewrite <- Hd. apply runs_expect_tag; [done|]. by rewrite Hd. }
  pose proof (drop_next _ _ _ Hd) as [Hr _]. destruct (EqualFold t (str "not")) eqn:Ht.
  - simpl. rewrite Ht, <- Hr.
    apply (runs_bind _ _ _ (λ e r, Some (ENot e, r)) (den x)).
    { apply IH; [done|]. rewrite Hr. simpl in Hf. lia. }
    intros e f1 pos1 Hst1 _.
    apply (runs_bind _ _ (Some (∅ : gset bytes, drop pos1 tokens))
             (λ _ r, Some (ENot e, r)) (λ _, known x)); [by apply runs_all|].
    intros b f2 pos2 Hst2 [= _ Hp]. unfold runs. cbn.
    split_and!; [done|done|]. exists (ENot e). split; [congruence|]. apply difference_spec.
  - rewrite <- Hd. apply runs_expect_tag; [done|]. by rewrite Hd.
Qed.

Lemma runs_ret (e : expr) f pos :
  stands f → runs (mret (den x e)) (Some (e, drop pos tokens)) (den x) f pos.
Proof. intros Hst. unfold runs. cbn. split_and!; [done|done|]. by exists e. Qed.

(** [a and not b] subtracts; that is the intersection with [not b]. *)
Lemma and_not_den l u : difference (den x l) (den x u) = den x (EAnd l (ENot u)).
Proof.
  rewrite difference_spec. simpl. pose proof (den_known x l Hknown).
  apply set_eq. intros p. rewrite elem_of_intersection, !elem_of_difference. set_solver.
Qed.

Lemma runs_and_loop fuel l f pos :
  stands f → (length (drop pos tokens) < fuel)%nat →
  runs (and_loop s tokens fuel (den x l)) (p_and_loop fuel l (drop pos tokens)) (den x) f pos.
Proof.
  revert l f pos. induction fuel as [|fuel IH]; intros l f pos Hst Hf; [lia|].
  simpl. apply runs_match. destruct (drop pos tokens) as [|t r] eqn:Hd.
  { rewrite <- Hd. by apply runs_ret. }
  destruct (drop_next _ _ _ Hd) as [Hr _]. destruct (EqualFold t (str "and")) eqn:Ht.
  2:{ rewrite <- Hd. by apply runs_ret. }
  simpl in Hf. apply runs_match. rewrite Hr. destruct r as [|n r2].
  - pose proof (runs_parseUnary fuel f (S pos) Hst) as Hu. rewrite Hr in Hu.
    apply (runs_bind _ _ _ (λ u r, p_and_loop fuel (EAnd l u) r) (den x)); [apply Hu; simpl; lia|].
    intros u f1 pos1 _ [=].
  - destruct (EqualFold n (str "not")) eqn:Hn.
    + destruct (drop_next _ _ _ Hr) as [Hr2 _]. simpl. rewrite Hn.
      assert ((match match p_unary r2 with Some (e, r0) => Some (ENot e, r0) | None => None end with
               | Some (u, r0) => p_and_loop fuel (EAnd l u) r0 | None => None end)
              = match p_unary r2 with
                | Some (u, r0) => p_and_loop fuel (EAnd l (ENot u)) r0 | None => None end) as ->
        by (by destruct (p_unary r2) as [[]|]).
      rewrite <- Hr2 at 1. simpl in Hf.
      apply (runs_bind _ _ _ (λ u r, p_and_loop fuel (EAnd l (ENot u)) r) (den x)).
      { apply runs_parseUnary; [done|]. rewrite Hr2. lia. }
      intros u f1 pos1 Hst1 Hu. rewrite and_not_den. apply IH; [done|].
      apply p_unary_rest in Hu. rewrite Hr2 in Hu. lia.
    + rewrite <- Hr at 1. simpl in Hf.
      apply (runs_bind _ _ _ (λ u r, p_and_loop fuel (EAnd l u) r) (den x)).
      { apply runs_parseUnary; [done|]. rewrite Hr. simpl. lia. }
      intros u f1 pos1 Hst1 Hu. rewrite intersect_spec. apply (IH (EAnd l u)); [done|].
      apply p_unary_rest in Hu. rewrite Hr in Hu. simpl in Hu. lia.
Qed.

Lemma p_and_loop_rest fuel l ts e r :
  p_and_loop fuel l ts = Some (e, r) → (length r ≤ length ts)%nat.
Proof. intros (us & -> & _)%p_and_loop_sound. rewrite length_app. lia. Qed.

Lemma p_and_rest fuel ts e r : p_and fuel ts = Some (e, r) → (length r < length ts)%nat.
Proof.
  unfold p_and. destruct (p_unary ts) as [[u r1]|] eqn:Hu; [|done]. intros H%p_and_loop_rest.
  apply p_unary_rest in Hu. lia.
Qed.

Lemma runs_parseAnd fuel f pos :
  stands f → (length (drop pos tokens) < fuel)%nat →
  runs (parseAnd s tokens fuel) (p_and fuel (drop pos tokens)) (den x) f pos.
Proof.
  intros Hst Hf. apply (runs_bind _ _ _ (λ u r, p_and_loop fuel u r) (den x)).
  { by apply runs_parseUnary. }
  intros u f1 pos1 Hst1 Hu. apply runs_and_loop; [done|]. apply p_unary_rest in Hu. lia.
Qed.

Lemma runs_or_loop fuel l f pos :
  stands f → (length (drop pos tokens) < fuel)%nat →
  runs (or_loop s tokens fuel (den x l)) (p_or_loop fuel l (drop pos tokens)) (den x) f pos.
Proof.
  revert l f pos. induction fuel as [|fuel IH]; intros l f pos Hst Hf; [lia|].
  simpl. apply runs_match. destruct (drop pos tokens) as [|t r] eqn:Hd.
  { rewrite <- Hd. by apply runs_ret. }
  destruct (drop_next _ _ _ Hd) as [Hr _]. destruct (EqualFold t (str "or")) eqn:Ht.
  2:{ rewrite <- Hd. by apply runs_ret. }
  simpl in Hf. rewrite <- Hr at 1.
  apply (runs_bind _ _ _ (λ u r, p_or_loop fuel (EOr l u) r) (den x)).
  { apply runs_parseAnd; [done|]. rewrite Hr. lia. }
  intros u f1 pos1 Hst1 Hu. apply (IH (EOr l u)); [done|].
  apply p_and_rest in Hu. rewrite Hr in Hu. lia.
Qed.

Lemma runs_parseOr fuel f pos :
  stands f → (length (drop pos tokens) < fuel)%nat →
  runs (parseOr s tokens fuel) (p_or fuel (drop pos tokens)) (den x) f pos.
Proof.
  intros Hst Hf. apply (runs_bind _ _ _ (λ u r, p_or_loop fuel u r) (den x)).
  { by apply runs_parseAnd. }
  intros u f1 pos1 Hst1 Hu. apply runs_or_loop; [done|]. apply p_and_rest in Hu. lia.
Qed.

(** [QueryExpr], with the pure parser in its place. *)
Lemma run_QueryExpr under f :
  stands f → tokens ≠ [] →
  match QueryExpr s tokens under f with
  | (f', Ok r) => faults f' `suffix_of` faults f ∧ stands f'
                  ∧ ∃ e, query tokens e ∧ r = filterAndSort (den x e) under
  | (f', Fail _) => (true ∈ faults f ∨ ∀ e, ¬ query tokens e) ∧ stands f'
  | (_, Panic) => False
  end.
Proof.
  intros Hst Hne. unfold QueryExpr. rewrite decide_False by done.
  pose proof (runs_parseOr (S (length tokens)) f 0 Hst ltac:(rewrite drop_0; lia)) as H.
  unfold runs in H. rewrite drop_0 in H.
  destruct (parseOr _ _ _ _) as [[f' pos'] [a|e|]]; [| |done].
  - destruct H as (Hs & Hst' & e & He & ->). unfold hasNext. case_bool_decide as Hpos.
    + split; [|done]. right. intros e' He'. eapply p_or_complete in He'; [|by apply Nat.lt_succ_diag_r].
      rewrite He in He'. injection He' as _ Hd. apply (f_equal length) in Hd.
      rewrite length_drop in Hd. simpl in Hd. lia.
    + split_and!; [done|done|]. exists e. split; [|done].
      eapply p_or_sound. rewrite He. f_equal. f_equal. apply drop_ge. lia.
  - destruct H as [Hf Hst']. split; [|done]. destruct Hf as [|Hn]; [by left|right].
    intros e' He'. eapply p_or_complete in He'; [|by apply Nat.lt_succ_diag_r]. congruence.
Qed.
End run.
End ParserRun.
Export ParserRun.

(** ** Any disk

    Whatever the files hold and whichever system calls fail, the parser goes through
    the tokens as the pure one does, as long as it gets that far. *)
Module AnyDisk.

Definition safe {S A} (m : SE S A) : Prop := ∀ f, (m f).2 ≠ Panic.

Create HintDb safe.

Lemma safe_bind {S A B} (m : SE S A) (k : A → SE S B) : safe m → (∀ a, safe (k a)) → safe (m ≫= k).
Proof.
  intros Hm Hk f. unfold mbind, SE_bind. specialize (Hm f).
  destruct (m f) as [f' [a|e|]]; [apply Hk|done|done].
Qed.
Lemma safe_catch {S A} (m : SE S A) h : safe m → (∀ e, safe (h e)) → safe (se_catch m h).
Proof.
  intros Hm Hh f. unfold se_catch. specialize (Hm f). destruct (m f) as [f' [a|e|]]; [done|apply Hh|done].
Qed.
Lemma safe_syscall : safe syscall.
Proof. intros f. unfold syscall. by destruct (faults f) as [|[] ?]. Qed.
Lemma safe_read {S A} (g : S → res A) : (∀ s, g s ≠ Panic) → safe (se_read g).
Proof. intros H f. apply H. Qed.
Lemma safe_lift {S A} (r : res A) : r ≠ Panic → safe (S := S) (se_lift r).
Proof. intros H f. apply H. Qed.
Lemma safe_ret {S A} (a : A) : safe (S := S) (mret a).
Proof. by intros f. Qed.
Lemma safe_fail {S A} e : safe (S := S) (A := A) (se_fail e).
Proof. by intros f. Qed.
Lemma safe_get {S} : safe (S := S) se_get.
Proof. by intros f. Qed.
Lemma safe_mod {S} (g : S → S) : safe (se_mod g).
Proof. by intros f. Qed.
#[local] Hint Resolve safe_syscall safe_ret safe_fail safe_get safe_mod : safe.

(** Goes through a program, case by case. *)
Ltac safely := repeat
  match goal with
  | |- safe (mbind _ _) => apply safe_bind; [|intros ?]
  | |- safe (se_catch _ _) => apply safe_catch; [|intros ?]
  | |- safe (se_read _) => apply safe_read; intros ?
  | |- safe (se_lift _) => apply safe_lift
  | |- safe (match ?x with _ => _ end) => destruct x
  | |- safe _ => solve [auto with safe]
  | |- match ?x with _ => _ end ≠ Panic => destruct x
  | |- _ ≠ Panic => done
  end.

Lemma safe_Open p : safe (Open p).
Proof. unfold Open. safely. Qed.
#[local] Hint Resolve safe_Open : safe.
Lemma parse_lines_total d : parse_lines d ≠ Panic.
Proof. unfold parse_lines, Scanner.scan. by repeat case_match. Qed.
Lemma safe_readLines p : safe (readLines p).
Proof. unfold readLines, ReadAll. safely. apply parse_lines_total. Qed.
#[local] Hint Resolve safe_readLines : safe.
Lemma safe_mkdirs rest : ∀ p, safe (mkdirs p rest).
Proof. induction rest as [|c rest IH]; intros p; cbn [mkdirs]; safely. Qed.
#[local] Hint Resolve safe_mkdirs : safe.
Lemma safe_writeLines p ls : safe (writeLines p ls).
Proof. unfold writeLines, MkdirAll, CreateTemp, Rename. safely. Qed.
#[local] Hint Resolve safe_writeLines : safe.
Lemma safe_collect dir es : ∀ ps, safe (collect dir es ps).
Proof. induction es as [|[n []] es IH]; intros ps; cbn [collect]; safely. Qed.
#[local] Hint Resolve safe_collect : safe.
Lemma safe_allTaggedPaths s : safe (allTaggedPaths s).
Proof. unfold allTaggedPaths, allPaths, read_dir, ReadDir. safely. Qed.

Section shape.
Context (s : Store) (tokens : list bytes).

(** [m] does not panic, and has consumed what the pure parser consumes when it returns. *)
Definition follows {A B} (m : SE parser A) (pure : option (B * list bytes)) (pos : nat) : Prop :=
  ∀ f, match m (f, pos) with
       | ((_, pos'), Ok _) => ∃ b, pure = Some (b, drop pos' tokens)
       | (_, Fail _) => True
       | (_, Panic) => False
       end.

Lemma follows_bind {A B C D} (m : SE parser A) (k : A → SE parser C)
    (p1 : option (B * list bytes)) (p2 : B → list bytes → option (D * list bytes)) pos :
  follows m p1 pos →
  (∀ a b pos', p1 = Some (b, drop pos' tokens) → follows (k a) (p2 b (drop pos' tokens)) pos') →
  follows (m ≫= k) (match p1 with Some (b, r) => p2 b r | None => None end) pos.
Proof.
  intros Hm Hk f. unfold mbind, SE_bind. specialize (Hm f).
  destruct (m (f, pos)) as [[f1 pos1] [a|e|]]; [|done|done]. destruct Hm as [b ->].
  apply (Hk a b pos1 eq_refl f1).
Qed.

Lemma follows_match {A B} o (k : bool → SE parser A) (pure : option (B * list bytes)) pos :
  match drop pos tokens with
  | [] => follows (k false) pure pos
  | t :: _ => if EqualFold t o then follows (k true) pure (S pos) else follows (k false) pure pos
  end →
  follows (match_token tokens o ≫= k) pure pos.
Proof.
  intros H f. unfold mbind, SE_bind, match_token.
  assert (tokens !! pos = head (drop pos tokens)) as -> by (by rewrite head_lookup, lookup_drop, Nat.add_0_r).
  destruct (drop pos tokens) as [|t r]; simpl; [apply H|]. destruct (EqualFold t o); apply H.
Qed.

Lemma follows_fs {A B} (m : SE fs A) (b : B) pos :
  safe m → follows (on_fs m) (Some (b, drop pos tokens)) pos.
Proof.
  intros Hm f. unfold on_fs. specialize (Hm f). destruct (m f) as [f' [a|e|]]; [by eexists|done|done].
Qed.
Lemma follows_ret {A B} (a : A) (b : B) pos : follows (mret a) (Some (b, drop pos tokens)) pos.
Proof. intros f. by eexists. Qed.

Lemma follows_expect_tag pos :
  starts (str "not") (drop pos tokens) = false → follows (expect_tag s tokens) (p_unary (drop pos tokens)) pos.
Proof.
  intros Hnot f. unfold expect_tag, mbind, SE_bind, se_get, hasNext, next; cbn [snd].
  destruct (drop pos tokens) as [|t r] eqn:Hd.
  { rewrite bool_decide_eq_false_2; [done|].
    apply (f_equal length) in Hd. rewrite length_drop in Hd. simpl in Hd. lia. }
  apply drop_next in Hd as [Hr Ht]. rewrite bool_decide_eq_true_2 by (by apply lookup_lt_Some in Ht).
  cbn [negb]. rewrite Ht. simpl in Hnot. simpl. rewrite Hnot.
  destruct (isOperator t) eqn:Hop; [done|].
  pose proof (follows_fs (pathsForTag s t) (ETag t) (S pos) (safe_readLines _) f) as H.
  destruct (on_fs _ _) as [[f' pos'] [a|e|]]; [|done|done]. destruct H as [b Hb]. exists b. congruence.
Qed.

Lemma follows_parseUnary fuel : ∀ pos,
  (length (drop pos tokens) < fuel)%nat →
  follows (parseUnary s tokens fuel) (p_unary (drop pos tokens)) pos.
Proof.
  induction fuel as [|fuel IH]; intros pos Hf; [lia|].
  simpl. apply follows_match. destruct (drop pos tokens) as [|t r] eqn:Hd.
  { rewrite <- Hd. apply follows_expect_tag. by rewrite Hd. }
  pose proof (drop_next _ _ _ _ Hd) as [Hr _]. destruct (EqualFold t (str "not")) eqn:Ht.
  - simpl. rewrite Ht, <- Hr. apply (follows_bind _ _ _ (λ e r, Some (ENot e, r))).
    { apply IH. rewrite Hr. simpl in Hf. lia. }
    intros a e pos1 _.
    apply (follows_bind _ _ (Some (ENot e, drop pos1 tokens)) (λ e r, Some (e, r))).
    { apply follows_fs, safe_allTaggedPaths. }
    intros b e' pos2 [= <- Hp]. rewrite <- Hp. rewrite Hp. apply follows_ret.
  - rewrite <- Hd. apply follows_expect_tag. by rewrite Hd.
Qed.

Lemma follows_and_loop fuel : ∀ left l pos,
  (length (drop pos tokens) < fuel)%nat →
  follows (and_loop s tokens fuel left) (p_and_loop fuel l (drop pos tokens)) pos.
Proof.
  induction fuel as [|fuel IH]; intros left l pos Hf; [lia|].
  simpl. apply follows_match. destruct (drop pos tokens) as [|t r] eqn:Hd.
  { rewrite <- Hd. apply follows_ret. }
  destruct (drop_next _ _ _ _ Hd) as [Hr _]. destruct (EqualFold t (str "and")) eqn:Ht.
  2:{ rewrite <- Hd. apply follows_ret. }
  simpl in Hf. apply follows_match. rewrite Hr. destruct r as [|n r2].
  - pose proof (follows_parseUnary fuel (S pos)) as Hu. rewrite Hr in Hu.
    apply (follows_bind _ _ _ (λ u r, p_and_loop fuel (EAnd l u) r)); [apply Hu; simpl; lia|].
    intros a u pos1 [=].
  - destruct (EqualFold n (str "not")) eqn:Hn.
    + destruct (drop_next _ _ _ _ Hr) as [Hr2 _]. simpl. rewrite Hn.
      assert ((match match p_unary r2 with Some (e, r0) => Some (ENot e, r0) | None => None end with
               | Some (u, r0) => p_and_loop fuel (EAnd l u) r0 | None => None end)
              = match p_unary r2 with
                | Some (u, r0) => p_and_loop fuel (EAnd l (ENot u)) r0 | None => None end) as ->
        by (by destruct (p_unary r2) as [[]|]).
      rewrite <- Hr2 at 1. simpl in Hf.
      apply (follows_bind _ _ _ (λ u r, p_and_loop fuel (EAnd l (ENot u)) r)).
      { apply follows_parseUnary. rewrite Hr2. lia. }
      intros a u pos1 Hu. apply IH. apply p_unary_rest in Hu. rewrite Hr2 in Hu. lia.
    + rewrite <- Hr at 1. simpl in Hf.
      apply (follows_bind _ _ _ (λ u r, p_and_loop fuel (EAnd l u) r)).
      { apply follows_parseUnary. rewrite Hr. simpl. lia. }
      intros a u pos1 Hu. apply IH. apply p_unary_rest in Hu. rewrite Hr in Hu. simpl in Hu. lia.
Qed.

Lemma follows_parseAnd fuel pos :
  (length (drop pos tokens) < fuel)%nat → follows (parseAnd s tokens fuel) (p_and fuel (drop pos tokens)) pos.
Proof.
  intros Hf. apply (follows_bind _ _ _ (λ u r, p_and_loop fuel u r)); [by apply follows_parseUnary|].
  intros a u pos1 Hu. apply follows_and_loop. apply p_unary_rest in Hu. lia.
Qed.

Lemma follows_or_loop fuel : ∀ left l pos,
  (length (drop pos tokens) < fuel)%nat →
  follows (or_loop s tokens fuel left) (p_or_loop fuel l (drop pos tokens)) pos.
Proof.
  induction fuel as [|fuel IH]; intros left l pos Hf; [lia|].
  simpl. apply follows_match. destruct (drop pos tokens) as [|t r] eqn:Hd.
  { rewrite <- Hd. apply follows_ret. }
  destruct (drop_next _ _ _ _ Hd) as [Hr _]. destruct (EqualFold t (str "or")) eqn:Ht.
  2:{ rewrite <- Hd. apply follows_ret. }
  simpl in Hf. rewrite <- Hr at 1.
  apply (follows_bind _ _ _ (λ u r, p_or_loop fuel (EOr l u) r)).
  { apply follows_parseAnd. rewrite Hr. lia. }
  intros a u pos1 Hu. apply IH. apply p_and_rest in Hu. rewrite Hr in Hu. lia.
Qed.

Lemma follows_parseOr fuel pos :
  (length (drop pos tokens) < fuel)%nat → follows (parseOr s tokens fuel) (p_or fuel (drop pos tokens)) pos.
Proof.
  intros Hf. apply (follows_bind _ _ _ (λ u r, p_or_loop fuel u r)); [by apply follows_parseAnd|].
  intros a u pos1 Hu. apply follows_or_loop. apply p_and_rest in Hu. lia.
Qed.

(** An answer is only given to an expression. *)
Lemma QueryExpr_any under f :
  match QueryExpr s tokens under f with
  | (_, Ok _) => ∃ e, query tokens e
  | (_, Fail _) => True
  | (_, Panic) => False
  end.
Proof.
  unfold QueryExpr. case_decide; [done|].
  pose proof (follows_parseOr (S (length tokens)) 0 ltac:(rewrite drop_0; lia) f) as Hr. rewrite drop_0 in Hr.
  destruct (parseOr _ _ _ _) as [[f' pos'] [a|e|]]; [|done|done]. destruct Hr as [e He].
  unfold hasNext. case_bool_decide; [done|]. exists e. eapply p_or_sound. rewrite He.
  f_equal. f_equal. apply drop_ge. lia.
Qed.
End shape.
End AnyDisk.
Import AnyDisk.

(** ** The claims *)
Module QueryClaims.

Definition tags_plain (tokens : list bytes) : Prop :=
  Forall (λ t, isOperator t = false → plain t) tokens.
#[global] Instance tags_plain_dec tokens : Decision (tags_plain tokens).
Proof. unfold tags_plain. apply _. Defined.

Lemma stands_rep s f x : rep s f x → stands s x f.
Proof. intros H. exists x. done. Qed.

Lemma tags_plain_elem tokens t :
  tags_plain tokens → t ∈ tokens → isOperator t = false → plain t.
Proof. unfold tags_plain. rewrite Forall_forall. auto. Qed.

Lemma query_nonempty tokens e : query tokens e → tokens ≠ [].
Proof. intros [us u ts e' [us' u' ts' e'' [] _] _]; discriminate. Qed.

(** C25: For a token list of the grammar ([not] binds tighter than [and], [and]
    tighter than [or], operators in any case) [QueryExpr] returns, in order and
    without repetition, exactly the tagged paths below [under] whose own tags make
    the expression true; it fails only when a system call fails and leaves the
    index as it was. *)
Theorem query_expr_meaning s f x tokens e under :
  rep s f x → consistent x → tags_plain tokens → query tokens e →
  wp (QueryExpr s tokens under)
    (λ f' r, stands s x f' ∧ StronglySorted SortStrings.le r ∧ NoDup r
       ∧ ∀ p, p ∈ r ↔ p ∈ tagged x ∧ under_ok (normalizeUnder under) p = true
                       ∧ holds (λ t, bool_decide (p ∈ get x t)) e = true)
    (stands s x) f.
Proof.
  intros Hf Hc Hpl He. pose proof (consistent_known x Hc) as Hk.
  pose proof (query_nonempty _ _ He) as Hne.
  pose proof (run_QueryExpr s tokens x (λ t, tags_plain_elem _ t Hpl) Hk under f
                (stands_rep _ _ _ Hf) Hne) as H.
  unfold wp. destruct (QueryExpr s tokens under f) as [f' [r|err|]]; [| |done].
  - destruct H as (Hs & Hst & e' & He' & ->). split; [done|].
    split_and!; [done|apply filterAndSort_sorted|apply NoDup_filterAndSort|].
    apply (p_or_complete (S (length tokens))) in He, He'; [|lia..].
    rewrite He in He'. injection He' as <-.
    intros p. rewrite elem_of_filterAndSort, elem_of_den, Hc by done. naive_solver.
  - destruct H as [[?|Hn] ?]; [done|]. by destruct (Hn e).
Qed.

(** C26: [QueryExpr] ends without a panic on every token list and every disk, whatever
    system calls fail (its recursion never needs more than one call per token), and a
    list outside the grammar, the empty one included, is an error.  On a disk that holds
    a consistent index, and with tags that name files, it leaves the index as it was,
    whether it answers or fails. *)
Theorem query_expr_rejects s f tokens under :
  snd (QueryExpr s tokens under f) ≠ Panic
  ∧ ((∀ e, ¬ query tokens e) → ∃ f' err, QueryExpr s tokens under f = (f', Fail err))
  ∧ ∀ x, rep s f x → consistent x → tags_plain tokens → stands s x (fst (QueryExpr s tokens under f)).
Proof.
  split; [|split].
  - pose proof (QueryExpr_any s tokens under f) as H. by destruct (QueryExpr s tokens under f) as [f' []].
  - intros Hn. pose proof (QueryExpr_any s tokens under f) as H.
    destruct (QueryExpr s tokens under f) as [f' [r|err|]]; [|eauto|done]. destruct H as [e He]. by destruct (Hn e).
  - intros x Hf Hc Hpl. destruct (decide (tokens = [])) as [->|Hne]; [by apply stands_rep|].
    pose proof (run_QueryExpr s tokens x (λ t, tags_plain_elem _ t Hpl) (consistent_known x Hc)
                  under f (stands_rep _ _ _ Hf) Hne) as H.
    destruct (QueryExpr s tokens under f) as [f' [r|err|]]; [apply H|apply H|done].
Qed.
(** [red AND not blue or green]. *)
Definition sample_query : list bytes :=
  [str "red"; str "AND"; str "not"; str "blue"; str "or"; str "green"].
Definition sample_expr : expr :=
  EOr (EAnd (ETag (str "red")) (ENot (ETag (str "blue")))) (ETag (str "green")).

Lemma query_expr_meaning_witness :
  query sample_query sample_expr ∧
  wp (QueryExpr TagClaims.sample_store sample_query [])
    (λ f' r, stands TagClaims.sample_store (Index ∅ None) f'
       ∧ StronglySorted SortStrings.le r ∧ NoDup r
       ∧ ∀ p, p ∈ r ↔ p ∈ tagged (Index ∅ None) ∧ under_ok (normalizeUnder []) p = true
                  ∧ holds (λ t, bool_decide (p ∈ get (Index ∅ None) t)) sample_expr = true)
    (stands TagClaims.sample_store (Index ∅ None)) (MkFs ∅ [false; true]).
Proof.
  assert (query sample_query sample_expr) as Hq.
  { apply (p_or_sound 7). reflexivity. }
  split; [exact Hq|].
  refine (query_expr_meaning TagClaims.sample_store _ (Index ∅ None) sample_query sample_expr [] _ _ _ _).
  - apply TagClaims.rep_empty_disk.
  - reflexivity.
  - decided.
  - exact Hq.
Defined.

Lemma query_expr_rejects_witness :
  (∃ f' err, QueryExpr TagClaims.sample_store [str "red"; str "and"] [] (MkFs ∅ []) = (f', Fail err))
  ∧ stands TagClaims.sample_store (Index ∅ None)
      (fst (QueryExpr TagClaims.sample_store [str "red"; str "and"] [] (MkFs ∅ []))).
Proof.
  destruct (query_expr_rejects TagClaims.sample_store (MkFs ∅ []) [str "red"; str "and"] []) as (_ & H1 & H2).
  split.
  - apply H1. intros e He. apply (p_or_complete 3) in He; [discriminate|simpl; lia].
  - apply H2; [apply TagClaims.rep_empty_disk|reflexivity|decided].
Defined.
End QueryClaims.
