(* ===== verification/GoJson.v ===== *)
(** * GoJson: the parts of [encoding/json] the tag index uses

    Texts are parsed to a value ([json]) and printed from one; the struct codecs of
    the components are folds over the members of an object.  A Go decoder fills its
    target while it reads, but it validates the whole text first and its callers
    drop the target on an error, so parsing and filling can be told apart. *)

From S2P Require Import Prelude GoStd.

Module Json.

Inductive json :=
  | JNull
  | JBool (b : bool)
  | JNum (lit : bytes)
  | JStr (s : bytes)
  | JArr (l : list json)
  | JObj (l : list (bytes * json)).

(** ** Strings *)

(** [utf8.AppendRune]; a surrogate or a rune out of range becomes U+FFFD. *)
Definition EncodeRune (r : Z) : bytes :=
  let r := if decide (r < 0 ∨ 1114111 < r ∨ 55296 ≤ r ≤ 57343) then Utf8.RuneError else r in
  if decide (r ≤ 127) then [r]
  else if decide (r ≤ 2047) then
    [Z.lor 192 (Z.shiftr r 6); Z.lor 128 (Z.land r 63)]
  else if decide (r ≤ 65535) then
    [Z.lor 224 (Z.shiftr r 12); Z.lor 128 (Z.land (Z.shiftr r 6) 63);
     Z.lor 128 (Z.land r 63)]
  else
    [Z.lor 240 (Z.shiftr r 18); Z.lor 128 (Z.land (Z.shiftr r 12) 63);
     Z.lor 128 (Z.land (Z.shiftr r 6) 63); Z.lor 128 (Z.land r 63)].

(** [\u] and four digits. *)
Definition u_escape (r : Z) : bytes :=
  [92; 117; Strconv.digit_char (r `div` 4096 `mod` 16); Strconv.digit_char (r `div` 256 `mod` 16);
   Strconv.digit_char (r `div` 16 `mod` 16); Strconv.digit_char (r `mod` 16)].

(** The ASCII bytes written as they are, [htmlSafeSet]. *)
Definition safe (b : Z) : bool :=
  bool_decide (32 ≤ b) && negb (bool_decide (b ∈ [34; 92; 60; 62; 38])).

Definition ascii_escape (b : Z) : bytes :=
  if safe b then [b]
  else if decide (b = 92 ∨ b = 34) then [92; b]
  else if decide (b = 8) then [92; 98]
  else if decide (b = 12) then [92; 102]
  else if decide (b = 10) then [92; 110]
  else if decide (b = 13) then [92; 114]
  else if decide (b = 9) then [92; 116]
  else u_escape b.

(** [appendString] with HTML escaping on; a pass takes at least one byte. *)
Fixpoint quote_loop (fuel : nat) (s : bytes) : bytes :=
  match fuel, s with
  | S fuel, b :: t =>
      if decide (b < 128) then ascii_escape b ++ quote_loop fuel t
      else
        let '(r, w) := Utf8.DecodeRune s in
        (if decide (r = Utf8.RuneError ∧ w = 1%nat) then u_escape Utf8.RuneError
         else if decide (r = 8232 ∨ r = 8233) then u_escape r
         else take w s)
        ++ quote_loop fuel (drop w s)
  | _, _ => []
  end.
Definition quote (s : bytes) : bytes := 34 :: quote_loop (length s) s ++ [34].

Definition hex_digit (c : Z) : option Z :=
  if decide (48 ≤ c ≤ 57) then Some (c - 48)
  else if decide (97 ≤ c ≤ 102) then Some (c - 87)
  else if decide (65 ≤ c ≤ 70) then Some (c - 55)
  else None.

(** Four hexadecimal digits. *)
Definition hex4 (s : bytes) : option (Z * bytes) :=
  match s with
  | a :: b :: c :: d :: r =>
      match hex_digit a, hex_digit b, hex_digit c, hex_digit d with
      | Some a, Some b, Some c, Some d => Some (((a * 16 + b) * 16 + c) * 16 + d, r)
      | _, _, _, _ => None
      end
  | _ => None
  end.

(** [getu4]: a [\u] escape at the front. *)
Definition getu4 (s : bytes) : option (Z * bytes) :=
  match s with
  | a :: b :: r => if decide (a = 92 ∧ b = 117) then hex4 r else None
  | _ => None
  end.

(** [utf16.DecodeRune]. *)
Definition utf16_pair (r1 r2 : Z) : option Z :=
  if decide (55296 ≤ r1 < 56320 ∧ 56320 ≤ r2 < 57344)
  then Some (Z.lor (Z.shiftl (r1 - 55296) 10) (r2 - 56320) + 65536)
  else None.

(** The rune an escape [\uXXXX] stands for, when [r] follows it: half of a
    surrogate pair needs the other half. *)
Definition unescape_u (rr : Z) (r : bytes) : Z * bytes :=
  if decide (55296 ≤ rr < 57344) then
    match getu4 r with
    | Some (rr1, r1) =>
        match utf16_pair rr rr1 with
        | Some dec => (dec, r1)
        | None => (Utf8.RuneError, r)
        end
    | None => (Utf8.RuneError, r)
    end
  else (rr, r).

Definition unescape (c : Z) : option Z :=
  if decide (c = 34 ∨ c = 92 ∨ c = 47) then Some c
  else if decide (c = 98) then Some 8
  else if decide (c = 102) then Some 12
  else if decide (c = 110) then Some 10
  else if decide (c = 114) then Some 13
  else if decide (c = 116) then Some 9
  else None.

Definition prepend {A} (p : bytes) (r : res (bytes * A)) : res (bytes * A) :=
  '(s, a) ← r; mret (p ++ s, a).

(** The rest of a string after its opening quote: the scanner's states for strings
    with [unquoteBytes].  A pass takes at least one byte. *)
Fixpoint unquote (fuel : nat) (s : bytes) : res (bytes * bytes) :=
  match fuel with
  | O => Panic
  | S fuel =>
      match s with
      | [] => Fail ErrSyntax
      | c :: r =>
          if decide (c = 34) then Ok ([], r)
          else if decide (c = 92) then
            match r with
            | [] => Fail ErrSyntax
            | e :: r =>
                if decide (e = 117) then
                  match hex4 r with
                  | Some (rr, r) =>
                      let '(rr, r) := unescape_u rr r in
                      prepend (EncodeRune rr) (unquote fuel r)
                  | None => Fail ErrSyntax
                  end
                else match unescape e with
                     | Some b => prepend [b] (unquote fuel r)
                     | None => Fail ErrSyntax
                     end
            end
          else if decide (c < 32) then Fail ErrSyntax
          else if decide (c < 128) then prepend [c] (unquote fuel r)
          else
            let '(rr, w) := Utf8.DecodeRune s in
            prepend (EncodeRune rr) (unquote fuel (drop w s))
      end
  end.

(** ** Parsing *)

Definition is_digit (c : Z) : bool := bool_decide (48 ≤ c ≤ 57).

Fixpoint digits (s : bytes) : bytes * bytes :=
  match s with
  | c :: r => if is_digit c then let '(d, r) := digits r in (c :: d, r) else ([], s)
  | [] => ([], [])
  end.

(** At least one digit. *)
Definition digits1 (s : bytes) : res (bytes * bytes) :=
  match digits s with
  | ([], _) => Fail ErrSyntax
  | dr => Ok dr
  end.

(** The front of [s] when it is one of [cs]. *)
Definition opt_char (cs : list Z) (s : bytes) : bytes * bytes :=
  match s with
  | c :: r => if decide (c ∈ cs) then ([c], r) else ([], s)
  | [] => ([], [])
  end.

(** The scanner's states for numbers: sign, integer, fraction, exponent. *)
Definition number (s : bytes) : res (bytes * bytes) :=
  let '(sign, s) := opt_char [45] s in
  '(int, s) ← match opt_char [48] s with
              | ([], s) => digits1 s
              | zero => Ok zero
              end;
  '(frac, s) ← match opt_char [46] s with
               | ([], s) => Ok ([], s)
               | (p, s) => prepend p (digits1 s)
               end;
  '(exp, s) ← match opt_char [101; 69] s with
              | ([], s) => Ok ([], s)
              | (e, s) => let '(sg, s) := opt_char [43; 45] s in prepend (e ++ sg) (digits1 s)
              end;
  mret (sign ++ int ++ frac ++ exp, s).

Definition is_ws (c : Z) : bool := bool_decide (c ∈ [32; 9; 10; 13]).

Fixpoint skip_ws (s : bytes) : bytes :=
  match s with
  | c :: r => if is_ws c then skip_ws r else s
  | [] => []
  end.

(** The byte [c], then the rest. *)
Definition literal (lit : bytes) (v : json) (s : bytes) : res (json * bytes) :=
  if decide (lit `prefix_of` s) then Ok (v, drop (length lit) s) else Fail ErrSyntax.

Definition maxNestingDepth : Z := 10000.

(** A value without white space before it; [depth] counts the open brackets.  Two
    calls take at least one byte, see [parse_total]. *)
Fixpoint value (fuel : nat) (depth : Z) (s : bytes) : res (json * bytes) :=
  match fuel with
  | O => Panic
  | S fuel =>
      match s with
      | [] => Fail ErrSyntax
      | c :: r =>
          if decide (c = 123) then
            if decide (maxNestingDepth < depth + 1) then Fail (Errorf "exceeded max depth")
            else
              match skip_ws r with
              | [] => Fail ErrSyntax
              | c :: r' =>
                  if decide (c = 125) then Ok (JObj [], r')
                  else '(l, r) ← members fuel (depth + 1) (skip_ws r); mret (JObj l, r)
              end
          else if decide (c = 91) then
            if decide (maxNestingDepth < depth + 1) then Fail (Errorf "exceeded max depth")
            else
              match skip_ws r with
              | [] => Fail ErrSyntax
              | c :: r' =>
                  if decide (c = 93) then Ok (JArr [], r')
                  else '(l, r) ← elems fuel (depth + 1) (skip_ws r); mret (JArr l, r)
              end
          else if decide (c = 34) then
            '(t, r) ← unquote (S (length r)) r; mret (JStr t, r)
          else if decide (c = 45) then '(n, r) ← number s; mret (JNum n, r)
          else if is_digit c then '(n, r) ← number s; mret (JNum n, r)
          else if decide (c = 116) then literal (str "true") (JBool true) s
          else if decide (c = 102) then literal (str "false") (JBool false) s
          else if decide (c = 110) then literal (str "null") JNull s
          else Fail ErrSyntax
      end
  end
with elems (fuel : nat) (depth : Z) (s : bytes) : res (list json * bytes) :=
  match fuel with
  | O => Panic
  | S fuel =>
      '(v, r) ← value fuel depth s;
      match skip_ws r with
      | [] => Fail ErrSyntax
      | c :: r =>
          if decide (c = 44) then '(l, r) ← elems fuel depth (skip_ws r); mret (v :: l, r)
          else if decide (c = 93) then Ok ([v], r)
          else Fail ErrSyntax
      end
  end
with members (fuel : nat) (depth : Z) (s : bytes) : res (list (bytes * json) * bytes) :=
  match fuel with
  | O => Panic
  | S fuel =>
      match s with
      | [] => Fail ErrSyntax
      | c :: r =>
          if decide (c = 34) then
            '(k, r) ← unquote (S (length r)) r;
            match skip_ws r with
            | [] => Fail ErrSyntax
            | c :: r =>
                if decide (c = 58) then
                  '(v, r) ← value fuel depth (skip_ws r);
                  match skip_ws r with
                  | [] => Fail ErrSyntax
                  | c :: r =>
                      if decide (c = 44) then
                        '(l, r) ← members fuel depth (skip_ws r); mret ((k, v) :: l, r)
                      else if decide (c = 125) then Ok ([(k, v)], r)
                      else Fail ErrSyntax
                  end
                else Fail ErrSyntax
            end
          else Fail ErrSyntax
      end
  end.

(** A whole text. *)
Definition parse (s : bytes) : res json :=
  '(v, r) ← value (2 * length s + 2) 0 (skip_ws s);
  match skip_ws r with [] => Ok v | _ => Fail ErrSyntax end.

(** ** Printing *)

(** [json.Marshal] when [ind] is false, [json.MarshalIndent(v, "", "  ")] when it
    is true, at depth [d]. *)
Definition newline (ind : bool) (d : nat) : bytes :=
  if ind then 10 :: replicate (2 * d) 32 else [].
Definition colon (ind : bool) : bytes := if ind then [58; 32] else [58].

Fixpoint join (sep : bytes) (l : list bytes) : bytes :=
  match l with
  | [] => []
  | [x] => x
  | x :: l => x ++ sep ++ join sep l
  end.

(** Items between brackets. *)
Definition bracketed (ind : bool) (d : nat) (l r : Z) (items : list bytes) : bytes :=
  match items with
  | [] => [l; r]
  | _ => l :: newline ind (S d) ++ join (44 :: newline ind (S d)) items ++ newline ind d ++ [r]
  end.

Fixpoint print (ind : bool) (d : nat) (v : json) : bytes :=
  match v with
  | JNull => str "null"
  | JBool b => if b then str "true" else str "false"
  | JNum n => n
  | JStr s => quote s
  | JArr l => bracketed ind d 91 93 (map (print ind (S d)) l)
  | JObj l =>
      bracketed ind d 123 125
        (map (λ kv : bytes * json, quote kv.1 ++ colon ind ++ print ind (S d) kv.2) l)
  end.

Definition Marshal (v : json) : bytes := print false 0 v.
Definition MarshalIndent (v : json) : bytes := print true 0 v.

(** ** Filling Go values *)

(** [foldName]: ASCII letters in upper case, and the two other runes that fold to
    an ASCII letter (U+017F and U+212A); other runes never match a field name. *)
Fixpoint fold_name (s : bytes) : bytes :=
  match s with
  | 197 :: ((191 :: r) as t) => 83 :: fold_name r
  | 226 :: ((132 :: ((170 :: r) as u)) as t) => 75 :: fold_name r
  | c :: r => (if decide (97 ≤ c ≤ 122) then c - 32 else c) :: fold_name r
  | [] => []
  end.

(** A key selects the field of that name, or of that name up to case; no two fields
    of a struct below are equal up to case. *)
Definition is_field (name : string) (key : bytes) : bool :=
  bool_decide (fold_name key = fold_name (str name)).

Definition type_error {A} : res A := Fail (Errorf "json: cannot unmarshal").

Definition into_int64 (old : Z) (v : json) : res Z :=
  match v with
  | JNull => Ok old
  | JNum n => match Strconv.Atoi n with (z, None) => Ok z | _ => type_error end
  | _ => type_error
  end.
Definition into_string (old : bytes) (v : json) : res bytes :=
  match v with JNull => Ok old | JStr s => Ok s | _ => type_error end.
Definition into_bool (old : bool) (v : json) : res bool :=
  match v with JNull => Ok old | JBool b => Ok b | _ => type_error end.

(** A slice is filled element by element over the elements it has (which an earlier
    member of the same name has put there). *)
Fixpoint into_elems (old : list bytes) (l : list json) : res (list bytes) :=
  match l with
  | [] => Ok []
  | v :: l =>
      s ← into_string (default [] (head old)) v;
      ss ← into_elems (tail old) l;
      mret (s :: ss)
  end.
Definition into_strings (old : list bytes) (v : json) : res (list bytes) :=
  match v with JNull => Ok [] | JArr l => into_elems old l | _ => type_error end.

Section objects.
Context {A : Type} (field : A → bytes * json → res A).

Fixpoint into_fields (a : A) (l : list (bytes * json)) : res A :=
  match l with
  | [] => Ok a
  | kv :: l => a ← field a kv; into_fields a l
  end.

(** [null] leaves a struct as it is. *)
Definition into_struct (a : A) (v : json) : res A :=
  match v with JNull => Ok a | JObj l => into_fields a l | _ => type_error end.
End objects.

(** The members of an object with [omitempty] applied. *)
Definition omit (empty : bool) (kv : bytes * json) : list (bytes * json) :=
  if empty then [] else [kv].
Definition JInt (z : Z) : json := JNum (Strconv.Itoa z).

End Json.
