(* ===== verification/GoJsonSpec.v ===== *)
(** * GoJsonSpec: JSON texts read back as they were printed

    [parse_print]: parsing what [print] wrote gives the value back, with the invalid
    UTF-8 of its strings replaced; [parse_total]: the fuel of the parser is enough
    for every text. *)

From S2P Require Import Prelude GoStd FileId GoJson.
Import Json.

(** ** Runes *)
Module Runes.

(** One rune of [s], as it is after a trip through JSON. *)
Fixpoint to_valid_loop (fuel : nat) (s : bytes) : bytes :=
  match fuel, s with
  | S fuel, _ :: _ =>
      let '(r, w) := Utf8.DecodeRune s in
      (if decide (r = Utf8.RuneError ∧ w = 1%nat) then [239; 191; 189] else take w s)
      ++ to_valid_loop fuel (drop w s)
  | _, _ => []
  end.
(** [strings.ToValidUTF8] with U+FFFD for each bad byte. *)
Definition to_valid (s : bytes) : bytes := to_valid_loop (length s) s.
(** [utf8.Valid]. *)
Definition valid (s : bytes) : Prop := to_valid s = s.
#[global] Instance valid_dec s : Decision (valid s).
Proof. unfold valid. apply _. Defined.

Lemma lor_shift a c n : 0 ≤ n → 0 ≤ c < 2 ^ n → Z.lor (Z.shiftl a n) c = a * 2 ^ n + c.
Proof.
  intros Hn Hc. rewrite Z.shiftl_mul_pow2 by lia.
  symmetry. apply Z.add_nocarry_lor. apply Z.bits_inj'. intros i Hi.
  rewrite Z.land_spec, Z.bits_0.
  destruct (decide (i < n)); [rewrite Z.mul_pow2_bits_low by lia; done|].
  rewrite (proj1 (Z.bounded_iff_bits_nonneg n c ltac:(lia) ltac:(lia))) by lia.
  apply andb_false_r.
Qed.

Lemma land_63 x : Z.land x 63 = x `mod` 64.
Proof. apply (Z.land_ones x 6). lia. Qed.
Lemma land_31 x : Z.land x 31 = x `mod` 32.
Proof. apply (Z.land_ones x 5). lia. Qed.
Lemma land_15 x : Z.land x 15 = x `mod` 16.
Proof. apply (Z.land_ones x 4). lia. Qed.
Lemma land_7 x : Z.land x 7 = x `mod` 8.
Proof. apply (Z.land_ones x 3). lia. Qed.
Lemma lor_lead k x : 0 ≤ x < 64 → Z.lor (k * 64) x = k * 64 + x.
Proof.
  intros. replace (k * 64) with (Z.shiftl k 6) at 1 by (rewrite Z.shiftl_mul_pow2; lia).
  by rewrite lor_shift.
Qed.
Lemma lor_lead4 k x : 0 ≤ x < 16 → Z.lor (k * 16) x = k * 16 + x.
Proof.
  intros. replace (k * 16) with (Z.shiftl k 4) at 1 by (rewrite Z.shiftl_mul_pow2; lia).
  by rewrite lor_shift.
Qed.

(** The runes of each width, by arithmetic. *)
Lemma encode_1 r : 0 ≤ r < 128 → EncodeRune r = [r].
Proof.
  intros. unfold EncodeRune. rewrite (decide_False (P := _ ∨ _)) by lia. cbn zeta.
  by rewrite decide_True by lia.
Qed.
Lemma encode_2 a b :
  194 ≤ a ≤ 223 → 0 ≤ b < 64 → EncodeRune ((a `mod` 32) * 64 + b) = [a; 128 + b].
Proof.
  intros. unfold EncodeRune. rewrite (decide_False (P := _ ∨ _)) by mlia. cbn zeta.
  rewrite decide_False, decide_True by mlia.
  rewrite Z.shiftr_div_pow2, land_63 by lia.
  rewrite (lor_lead 3), (lor_lead 2) by mlia. f_equal; [|f_equal]; mlia.
Qed.
Lemma encode_3 a b c :
  224 ≤ a ≤ 239 → 0 ≤ b < 64 → 0 ≤ c < 64 → (a = 224 → 32 ≤ b) → (a = 237 → b < 32) →
  EncodeRune ((a `mod` 16) * 4096 + (b * 64 + c)) = [a; 128 + b; 128 + c].
Proof.
  intros. unfold EncodeRune. rewrite (decide_False (P := _ ∨ _)) by mlia. cbn zeta.
  rewrite decide_False, decide_False, decide_True by mlia.
  rewrite !Z.shiftr_div_pow2, !land_63 by lia.
  rewrite (lor_lead4 14), !(lor_lead 2) by mlia. f_equal; [|f_equal; [|f_equal]]; mlia.
Qed.
Lemma encode_4 a b c d :
  240 ≤ a ≤ 244 → 0 ≤ b < 64 → 0 ≤ c < 64 → 0 ≤ d < 64 →
  (a = 240 → 16 ≤ b) → (a = 244 → b < 16) →
  EncodeRune ((a `mod` 8) * 262144 + (b * 4096 + (c * 64 + d)))
  = [a; 128 + b; 128 + c; 128 + d].
Proof.
  intros. unfold EncodeRune. rewrite (decide_False (P := _ ∨ _)) by mlia. cbn zeta.
  rewrite !decide_False by mlia.
  rewrite !Z.shiftr_div_pow2, !land_63 by lia.
  rewrite (lor_lead4 15), !(lor_lead 2) by mlia. repeat (f_equal; [mlia|]). f_equal. mlia.
Qed.

Lemma cont_inv lo hi o c :
  128 ≤ lo → hi ≤ 191 → Utf8.cont lo hi o = Some c → o = Some (128 + c) ∧ 0 ≤ c < 64 ∧ lo ≤ 128 + c ≤ hi.
Proof.
  intros Hlo Hhi. unfold Utf8.cont. destruct o as [x|]; [|done]. case_decide; [|done].
  intros [= <-]. rewrite land_63. split_and!; [f_equal|..]; mlia.
Qed.

Lemma cont_ok lo hi c : 128 ≤ lo → hi ≤ 191 → lo ≤ 128 + c ≤ hi → Utf8.cont lo hi (Some (128 + c)) = Some c.
Proof. intros. unfold Utf8.cont. rewrite decide_True by lia. rewrite land_63. f_equal. mlia. Qed.

(** What [DecodeRune] makes of the well-formed sequences of each width. *)
Lemma decode_1 b t : b < 128 → Utf8.DecodeRune (b :: t) = (b, 1%nat).
Proof. intros. unfold Utf8.DecodeRune. by rewrite decide_True. Qed.

Lemma decode_2 a b t :
  194 ≤ a ≤ 223 → 0 ≤ b < 64 →
  Utf8.DecodeRune (a :: 128 + b :: t) = ((a `mod` 32) * 64 + b, 2%nat).
Proof.
  intros. unfold Utf8.DecodeRune. rewrite decide_False, decide_True by lia.
  cbn [lookup list_lookup]. rewrite cont_ok by lia. by rewrite lor_shift, land_31 by lia.
Qed.

Lemma decode_3 a b c t :
  224 ≤ a ≤ 239 → 0 ≤ b < 64 → 0 ≤ c < 64 → (a = 224 → 32 ≤ b) → (a = 237 → b < 32) →
  Utf8.DecodeRune (a :: 128 + b :: 128 + c :: t) = ((a `mod` 16) * 4096 + (b * 64 + c), 3%nat).
Proof.
  intros. unfold Utf8.DecodeRune. do 2 rewrite decide_False by lia. rewrite decide_True by lia.
  cbn [lookup list_lookup]. rewrite !cont_ok by (repeat case_decide; lia).
  rewrite (lor_shift b c) by lia. by rewrite lor_shift, land_15 by lia.
Qed.

Lemma decode_4 a b c d t :
  240 ≤ a ≤ 244 → 0 ≤ b < 64 → 0 ≤ c < 64 → 0 ≤ d < 64 →
  (a = 240 → 16 ≤ b) → (a = 244 → b < 16) →
  Utf8.DecodeRune (a :: 128 + b :: 128 + c :: 128 + d :: t)
  = ((a `mod` 8) * 262144 + (b * 4096 + (c * 64 + d)), 4%nat).
Proof.
  intros. unfold Utf8.DecodeRune. do 3 rewrite decide_False by lia. rewrite decide_True by lia.
  cbn [lookup list_lookup]. rewrite !cont_ok by (repeat case_decide; lia).
  rewrite (lor_shift c d), (lor_shift b) by lia. by rewrite lor_shift, land_7 by lia.
Qed.

(** The well-formed sequences. *)
Inductive rune_bytes : bytes → Z → Prop :=
  | rb_1 a : 0 ≤ a < 128 → rune_bytes [a] a
  | rb_2 a b : 194 ≤ a ≤ 223 → 0 ≤ b < 64 → rune_bytes [a; 128 + b] ((a `mod` 32) * 64 + b)
  | rb_3 a b c :
      224 ≤ a ≤ 239 → 0 ≤ b < 64 → 0 ≤ c < 64 → (a = 224 → 32 ≤ b) → (a = 237 → b < 32) →
      rune_bytes [a; 128 + b; 128 + c] ((a `mod` 16) * 4096 + (b * 64 + c))
  | rb_4 a b c d :
      240 ≤ a ≤ 244 → 0 ≤ b < 64 → 0 ≤ c < 64 → 0 ≤ d < 64 →
      (a = 240 → 16 ≤ b) → (a = 244 → b < 16) →
      rune_bytes [a; 128 + b; 128 + c; 128 + d]
        ((a `mod` 8) * 262144 + (b * 4096 + (c * 64 + d))).

Lemma rune_bytes_encode p r : rune_bytes p r → EncodeRune r = p.
Proof. destruct 1; auto using encode_1, encode_2, encode_3, encode_4. Qed.
Lemma rune_bytes_decode p r t : rune_bytes p r → Utf8.DecodeRune (p ++ t) = (r, length p).
Proof. destruct 1; cbn [app length]; auto using decode_2, decode_3, decode_4. apply decode_1. lia. Qed.

Ltac conts :=
  repeat match goal with
  | H : context [Utf8.cont ?lo ?hi ?o] |- _ =>
      let c := fresh "c" in let E := fresh "E" in
      destruct (Utf8.cont lo hi o) as [c|] eqn:E; [|naive_solver];
      apply cont_inv in E as (E & ? & ?); [|repeat case_decide; lia..]
  end.

(** [DecodeRune] finds one of them, or a bad byte. *)
Lemma DecodeRune_cases s :
  bytes_ok s → s ≠ [] →
  (∃ p r t, s = p ++ t ∧ rune_bytes p r ∧ Utf8.DecodeRune s = (r, length p))
  ∨ Utf8.DecodeRune s = (Utf8.RuneError, 1%nat).
Proof.
  intros Hs Hne. destruct s as [|b s]; [done|]. apply Forall_cons in Hs as [Hb _].
  unfold is_byte in Hb.
  destruct (Utf8.DecodeRune (b :: s)) as [r w] eqn:Hd.
  destruct (decide (r = Utf8.RuneError ∧ w = 1%nat)) as [[-> ->]|Hg]; [by right|left].
  assert (∃ p r' t, b :: s = p ++ t ∧ rune_bytes p r') as (p & r' & t & Hp & Hr).
  2:{ exists p, r', t. rewrite Hp in Hd. rewrite (rune_bytes_decode _ _ _ Hr) in Hd.
      injection Hd as <- <-. done. }
  unfold Utf8.DecodeRune in Hd.
  destruct (decide (b < 128)); [exists [b], b, s; split; [done|constructor; lia]|].
  destruct (decide (194 ≤ b ≤ 223)).
  { conts. destruct s as [|? s]; [done|]. injection E as ->.
    eexists [b; _], _, s. split; [done|]. by constructor. }
  destruct (decide (224 ≤ b ≤ 239)).
  { conts. destruct s as [|? [|? s]]; [done..|]. injection E as ->. injection E0 as ->.
    eexists [b; _; _], _, s. split; [done|]. constructor; repeat case_decide; lia. }
  destruct (decide (240 ≤ b ≤ 244)); [|naive_solver].
  conts. destruct s as [|? [|? [|? s]]]; [done..|]. injection E as ->. injection E0 as ->.
  injection E1 as ->.
  eexists [b; _; _; _], _, s. split; [done|]. constructor; repeat case_decide; lia.
Qed.
End Runes.
Import Runes.

(** ** Strings *)
Module Quoting.

Lemma hex_digit_char d : 0 ≤ d < 16 → hex_digit (Strconv.digit_char d) = Some d.
Proof.
  intros. unfold Strconv.digit_char. destruct (decide (d < 10)); unfold hex_digit.
  - rewrite decide_True by lia. f_equal. lia.
  - rewrite decide_False, decide_True by lia. f_equal. lia.
Qed.

(** A piece of quoted text that stands for [o]. *)
Definition chunk (p o : bytes) : Prop :=
  ∀ fuel t, unquote (S fuel) (p ++ t) = prepend o (unquote fuel t).

Lemma chunk_u r : 0 ≤ r < 55296 ∨ 57344 ≤ r < 65536 → chunk (u_escape r) (EncodeRune r).
Proof.
  intros Hr fuel t. unfold u_escape. cbn [app unquote].
  rewrite decide_False, !decide_True by done. unfold hex4.
  rewrite !hex_digit_char by mlia.
  replace (((_ * 16 + _) * 16 + _) * 16 + _) with r by mlia.
  unfold unescape_u. by rewrite decide_False by lia.
Qed.

Lemma chunk_ascii b : 0 ≤ b < 128 → chunk (ascii_escape b) [b].
Proof.
  intros Hb. unfold ascii_escape. destruct (safe b) eqn:Hs.
  { unfold safe in Hs. apply andb_true_iff in Hs as [?%bool_decide_eq_true Hs].
    apply negb_true_iff, bool_decide_eq_false in Hs.
    intros fuel t. cbn [app unquote].
    rewrite decide_False by set_solver. rewrite decide_False by set_solver.
    by rewrite decide_False, decide_True by lia. }
  repeat (case_decide; [destruct_or?; subst; intros fuel t; reflexivity|]).
  rewrite <- (encode_1 b) by lia. apply chunk_u. lia.
Qed.

Lemma chunk_rune p r : rune_bytes p r → 128 ≤ r → chunk p p.
Proof.
  intros Hp Hr fuel t. pose proof (rune_bytes_decode _ _ t Hp) as Hd.
  assert (∃ c q, p = c :: q ∧ 128 ≤ c) as (c & q & -> & Hc) by (destruct Hp; eauto with lia).
  cbn [app unquote] in *. do 4 rewrite decide_False by lia. rewrite Hd.
  change (c :: q ++ t) with ((c :: q) ++ t). rewrite drop_app_length.
  by rewrite (rune_bytes_encode _ _ Hp).
Qed.

(** How one rune of a string is printed, and what it reads back as. *)
Lemma quote_step n s :
  bytes_ok s → s ≠ [] →
  ∃ w p o, (1 ≤ w ≤ length s)%nat ∧ (w ≤ length p)%nat ∧ chunk p o
    ∧ quote_loop (S n) s = p ++ quote_loop n (drop w s)
    ∧ to_valid_loop (S n) s = o ++ to_valid_loop n (drop w s).
Proof.
  intros Hs Hne. destruct s as [|b s]; [done|]. cbn [quote_loop to_valid_loop].
  destruct (decide (b < 128)) as [Hb|Hb].
  { assert (is_byte b) by (by apply Forall_cons in Hs as [? _]).
    exists 1%nat, (ascii_escape b), [b]. rewrite decode_1 by done.
    rewrite decide_False by (unfold Utf8.RuneError; lia).
    split_and!; [cbn; lia|cbn; lia| |apply chunk_ascii; unfold is_byte in *; lia|done|done].
    unfold ascii_escape. repeat case_match; cbn; lia. }
  destruct (DecodeRune_cases (b :: s) Hs ltac:(done)) as [(p & r & t & Heq & Hp & Hd)|Hd]; rewrite Hd.
  - assert (128 ≤ r ∧ r < 1114112 ∧ (r < 55296 ∨ 57344 ≤ r) ∧ (1 < length p)%nat) as (Hr1 & Hr2 & Hr3 & Hl).
    { destruct Hp; cbn in *; [simplify_eq; lia|split_and!; mlia..]. }
    rewrite !(decide_False (P := _ ∧ _)) by lia.
    rewrite Heq, take_app_length, drop_app_length, length_app.
    case_decide as H28.
    + exists (length p), (u_escape r), (EncodeRune r).
      assert (length p ≤ 4)%nat by (destruct Hp; cbn; lia).
      split_and!; [lia|lia|cbn; lia|apply chunk_u; lia|by rewrite drop_app_length|].
      by rewrite (rune_bytes_encode _ _ Hp), drop_app_length.
    + exists (length p), p, p. rewrite drop_app_length.
      split_and!; [lia|lia|lia|by eapply chunk_rune|done|done].
  - rewrite !(decide_True (P := _ ∧ _)) by done.
    exists 1%nat, (u_escape Utf8.RuneError), (EncodeRune Utf8.RuneError).
    split_and!; [lia|cbn; lia|cbn; lia|apply chunk_u; unfold Utf8.RuneError; lia|done|done].
Qed.

Lemma unquote_quote_loop n s fuel t :
  bytes_ok s → (length s ≤ n)%nat → (length s < fuel)%nat →
  unquote fuel (quote_loop n s ++ 34 :: t) = Ok (to_valid_loop n s, t).
Proof.
  revert s fuel. induction n as [|n IH]; intros s fuel Hs Hn Hf.
  { destruct s; [|cbn in *; lia]. destruct fuel; [lia|]. reflexivity. }
  destruct (decide (s = [])) as [->|Hne]; [destruct fuel; [lia|]; reflexivity|].
  destruct (quote_step n s Hs Hne) as (w & p & o & Hw & _ & Hc & -> & ->).
  destruct fuel as [|fuel]; [lia|]. rewrite <- app_assoc, Hc, IH.
  - done.
  - by apply Forall_drop.
  - rewrite length_drop. lia.
  - rewrite length_drop. lia.
Qed.

Lemma quote_loop_length n s :
  bytes_ok s → (length s ≤ n)%nat → (length s ≤ length (quote_loop n s))%nat.
Proof.
  revert s. induction n as [|n IH]; intros s Hs Hn; [lia|].
  destruct (decide (s = [])) as [->|Hne]; [cbn; lia|].
  destruct (quote_step n s Hs Hne) as (w & p & o & Hw & Hp & _ & -> & _).
  specialize (IH (drop w s)). rewrite length_drop in IH. rewrite length_app.
  specialize (IH ltac:(by apply Forall_drop) ltac:(lia)). lia.
Qed.

(** Reading a string that was printed. *)
Lemma unquote_quote s t :
  bytes_ok s →
  unquote (S (length (quote_loop (length s) s ++ 34 :: t)))
    (quote_loop (length s) s ++ 34 :: t) = Ok (to_valid s, t).
Proof.
  intros Hs. apply unquote_quote_loop; [done..|]. rewrite length_app.
  pose proof (quote_loop_length (length s) s Hs ltac:(done)). lia.
Qed.
End Quoting.
Import Quoting.

(** ** Numbers *)
Module Numbers.
Import Strconv.

Lemma digit_is_digit d : 0 ≤ d < 10 → is_digit (digit_char d) = true.
Proof. intros. unfold is_digit, digit_char. rewrite decide_True by lia. apply bool_decide_eq_true. lia. Qed.

(** What cannot continue a number. *)
Definition ends_number (t : bytes) : Prop :=
  match t with
  | [] => True
  | c :: _ => is_digit c = false ∧ c ∉ [46; 101; 69]
  end.

Lemma digits_run ds t :
  digits_ok 10 ds → ends_number t → digits ((digit_char <$> ds) ++ t) = (digit_char <$> ds, t).
Proof.
  intros Hds Ht. induction Hds as [|d ds Hd _ IH].
  - destruct t as [|c t]; [done|]. cbn. by rewrite (proj1 Ht).
  - rewrite fmap_cons. cbn [app digits]. rewrite digit_is_digit by done. by rewrite IH.
Qed.

(** The first digit of a number is 0 only when the number is. *)
Lemma format_first fuel n acc :
  0 < n < 10 ^ Z.of_nat fuel →
  ∃ d ds, format_loop fuel 10 n acc = (digit_char <$> d :: ds) ++ acc
          ∧ 0 < d < 10 ∧ digits_ok 10 ds.
Proof.
  revert n acc. induction fuel as [|fuel IH]; intros n acc Hn; [cbn in Hn; lia|].
  cbn [format_loop]. case_decide.
  - exists n, []. rewrite Z.mod_small by lia. split_and!; [done|lia|lia|constructor].
  - rewrite Nat2Z.inj_succ, Z.pow_succ_r in Hn by lia.
    destruct (IH (n `div` 10) (digit_char (n `mod` 10) :: acc)) as (d & ds & -> & Hd & Hds); [mlia|].
    exists d, (ds ++ [n `mod` 10]). split_and!; [|lia|lia|].
    + rewrite !fmap_cons, fmap_app, <- !app_comm_cons, <- app_assoc. done.
    + apply Forall_app_2; [done|]. apply Forall_singleton. mlia.
Qed.

Lemma FormatUint_first n :
  in_u 64 n → 0 < n →
  ∃ d ds, FormatUint n 10 = digit_char <$> d :: ds ∧ 0 < d < 10 ∧ digits_ok 10 ds.
Proof.
  intros Hn H0. destruct (format_first 64 n []) as (d & ds & E & ?).
  { split; [done|]. eapply Z.lt_le_trans; [apply Hn|]. vm_compute. done. }
  exists d, ds. unfold FormatUint. by rewrite E, app_nil_r.
Qed.

Lemma tail_end t : ends_number t → opt_char [46] t = ([], t) ∧ opt_char [101; 69] t = ([], t).
Proof.
  destruct t as [|c t]; [done|]. intros [_ H]. unfold opt_char.
  by rewrite !decide_False by set_solver.
Qed.

Lemma number_unsigned n t :
  in_u 64 n → ends_number t →
  match opt_char [48] (FormatUint n 10 ++ t) with
  | ([], s) => digits1 s
  | zero => Ok zero
  end = Ok (FormatUint n 10, t).
Proof.
  intros Hn Ht. destruct (decide (n = 0)) as [->|H0].
  { by destruct t. }
  destruct (FormatUint_first n Hn) as (d & ds & -> & Hd & Hds); [unfold in_u in Hn; lia|].
  rewrite fmap_cons. cbn [app opt_char].
  rewrite decide_False by (rewrite list_elem_of_singleton; unfold digit_char; rewrite decide_True by lia; lia).
  unfold digits1. cbn [digits]. rewrite digit_is_digit by lia. by rewrite digits_run.
Qed.

Lemma FormatUint_head n c s : in_u 64 n → FormatUint n 10 = c :: s → is_digit c = true.
Proof.
  intros Hn E. destruct (FormatUint_shape n Hn) as (ds & E' & Hok & _). rewrite E in E'.
  destruct ds as [|d ds]; [done|]. injection E' as -> _. apply digit_is_digit.
  by apply Forall_cons in Hok as [? _].
Qed.

Lemma FormatUint_cons n : in_u 64 n → ∃ c s, FormatUint n 10 = c :: s ∧ is_digit c = true.
Proof.
  intros Hn. destruct (FormatUint_shape n Hn) as (ds & E & _ & Hne).
  destruct ds as [|d ds]; [done|]. exists (digit_char d), (digit_char <$> ds).
  split; [done|]. by eapply FormatUint_head.
Qed.

Lemma is_digit_range c : is_digit c = true ↔ 48 ≤ c ≤ 57.
Proof. apply bool_decide_eq_true. Qed.

Lemma number_Itoa z t :
  in_s 64 z → ends_number t → number (Itoa z ++ t) = Ok (Itoa z, t).
Proof.
  intros Hz Ht. destruct (tail_end t Ht) as [Hp He]. unfold number, Itoa.
  destruct (decide (z < 0)).
  - cbn [app opt_char]. rewrite decide_True by set_solver.
    rewrite number_unsigned by (done || widths; lia). rewrite !bind_ok, Hp, bind_ok, He.
    rewrite bind_ok. cbn [app]. by rewrite !app_nil_r.
  - assert (in_u 64 z) as Hu by (widths; lia).
    destruct (FormatUint_cons z Hu) as (c & s & E & Hc). apply is_digit_range in Hc.
    assert (opt_char [45] (FormatUint z 10 ++ t) = ([], FormatUint z 10 ++ t)) as ->.
    { rewrite E. cbn [app opt_char]. by rewrite decide_False by (rewrite list_elem_of_singleton; lia). }
    rewrite number_unsigned by done. rewrite !bind_ok, Hp, bind_ok, He.
    rewrite bind_ok. cbn [app]. by rewrite !app_nil_r.
Qed.

Lemma Atoi_Itoa z : in_s 64 z → Atoi (Itoa z) = (z, None).
Proof.
  intros Hz. unfold Itoa. destruct (decide (z < 0)).
  - unfold Atoi. rewrite decide_True by auto. rewrite ParseUint_FormatUint by (lia || widths; lia).
    rewrite bool_decide_true by done. cbn. rewrite bool_decide_false by (widths; lia). cbn. f_equal. lia.
  - assert (in_u 64 z) as Hu by (widths; lia).
    destruct (FormatUint_cons z Hu) as (c & s & E & Hc). apply is_digit_range in Hc.
    rewrite E. unfold Atoi. rewrite decide_False by lia. rewrite <- E, ParseUint_FormatUint by (lia || done).
    rewrite bool_decide_false by lia. cbn. rewrite bool_decide_false by (widths; lia). done.
Qed.

Lemma Itoa_head z : in_s 64 z → ∃ c s, Itoa z = c :: s ∧ (c = 45 ∨ is_digit c = true).
Proof.
  intros Hz. unfold Itoa. case_decide; [eauto|].
  destruct (FormatUint_cons z) as (c & s & -> & ?); [widths; lia|]. eauto.
Qed.
End Numbers.
Import Numbers.

(** ** Values *)
Module Values.

(** Values of nesting at most [h] that Go integers and strings make. *)
Inductive printable : nat → json → Prop :=
  | p_null h : printable h JNull
  | p_bool h b : printable h (JBool b)
  | p_int h z : in_s 64 z → printable h (JInt z)
  | p_str h s : bytes_ok s → printable h (JStr s)
  | p_arr h l : Forall (printable h) l → printable (S h) (JArr l)
  | p_obj h l : Forall (λ kv, bytes_ok kv.1 ∧ printable h kv.2) l → printable (S h) (JObj l).

(** A value after a trip through a text. *)
Fixpoint clean (v : json) : json :=
  match v with
  | JStr s => JStr (to_valid s)
  | JArr l => JArr (map clean l)
  | JObj l => JObj (map (λ kv : bytes * json, (to_valid kv.1, clean kv.2)) l)
  | _ => v
  end.

Definition all_ws (w : bytes) : Prop := Forall (λ c, is_ws c = true) w.
(** The front of a value. *)
Definition starts (s : bytes) : Prop :=
  match s with c :: _ => is_ws c = false ∧ c ≠ 93 ∧ c ≠ 125 | [] => False end.

Lemma skip_ws_app w s : all_ws w → skip_ws (w ++ s) = skip_ws s.
Proof. induction 1 as [|c w Hc _ IH]; [done|]. cbn. by rewrite Hc. Qed.
Lemma skip_ws_starts s t : starts s → skip_ws (s ++ t) = s ++ t.
Proof. destruct s as [|c s]; [done|]. cbn. by intros [-> _]. Qed.
Lemma skip_comma s : skip_ws (44 :: s) = 44 :: s.
Proof. done. Qed.
Lemma all_ws_newline ind d : all_ws (newline ind d).
Proof.
  destruct ind; cbn; [|constructor]. constructor; [done|]. by apply Forall_replicate.
Qed.

Lemma print_starts ind d h v : printable h v → starts (print ind d v).
Proof.
  destruct 1 as [| |h z Hz| |h l|h l]; cbn; try done.
  - by destruct b.
  - destruct (Itoa_head z Hz) as (c & s & -> & Hc). cbn. unfold is_ws.
    rewrite is_digit_range in Hc. split_and!; [|lia..]. apply bool_decide_eq_false.
    rewrite !not_elem_of_cons. split_and!; [lia..|]. apply not_elem_of_nil.
  - by destruct l.
  - by destruct l.
Qed.

Lemma ends_number_ws w t : all_ws w → ends_number t → ends_number (w ++ t).
Proof.
  destruct 1 as [|c w Hc _]; [done|]. intros _. cbn. unfold is_ws in Hc.
  apply bool_decide_eq_true in Hc. unfold is_digit. rewrite bool_decide_eq_false.
  rewrite !elem_of_cons, elem_of_nil in Hc. split; [lia|].
  rewrite !elem_of_cons, elem_of_nil. lia.
Qed.

(** A printer of [A] whose texts [value] reads. *)
Definition reads (depth : Z) (text : bytes) (v : json) : Prop :=
  starts text ∧ ∀ fuel t, (2 * length text ≤ fuel)%nat → ends_number t →
    value fuel depth (text ++ t) = Ok (v, t).

Lemma elems_join depth sep fin items vs fuel t :
  all_ws sep → all_ws fin → items ≠ [] → Forall2 (reads depth) items vs →
  (2 * length (join (44%Z :: sep) items ++ fin) + 2 ≤ fuel)%nat →
  elems fuel depth (join (44 :: sep) items ++ fin ++ 93 :: t) = Ok (vs, t).
Proof.
  intros Hsep Hfin Hne HF. revert fuel. induction HF as [|x v items vs [Hx Hv] HF IH]; intros fuel Hf; [done|].
  destruct fuel as [|fuel]; [lia|]. cbn [elems]. rewrite length_app in Hf.
  assert (ends_number (93 :: t)) as H93 by (cbn; split; [done|]; decided).
  destruct items as [|y items].
  - inversion HF; subst. cbn [join] in *. rewrite Hv by (try apply ends_number_ws; auto with lia).
    rewrite bind_ok, skip_ws_app by done. done.
  - cbn [join] in *. rewrite <- !app_assoc. rewrite !length_app in Hf. cbn [length] in Hf.
    rewrite Hv; [|lia|cbn; split; [done|]; decided]. rewrite bind_ok. cbn [app].
    rewrite skip_comma, decide_True by done.
    rewrite skip_ws_app by done.
    assert (starts (join (44 :: sep) (y :: items))) as Hs.
    { inversion HF as [|? v' ? ? [Hy _]]; subst. destruct items; [done|].
      cbn [join]. destruct y; [done|]. done. }
    rewrite skip_ws_starts by done. rewrite IH; [done|done|].
    rewrite length_app. cbn [join]. lia.
Qed.

Lemma join_cons sep x l : l ≠ [] → join sep (x :: l) = x ++ sep ++ join sep l.
Proof. by destruct l. Qed.

(** The same for the members of an object. *)
Definition member (ind : bool) (kv : bytes * bytes) : bytes := quote kv.1 ++ colon ind ++ kv.2.

Lemma members_join depth sep fin ind (kvs : list (bytes * bytes)) vs fuel t :
  all_ws sep → all_ws fin → kvs ≠ [] →
  Forall2 (λ kv v, bytes_ok kv.1 ∧ reads depth kv.2 v) kvs vs →
  (2 * length (join (44%Z :: sep) (member ind <$> kvs) ++ fin) + 2
   ≤ fuel)%nat →
  members fuel depth
    (join (44 :: sep) (member ind <$> kvs) ++ fin ++ 125 :: t)
  = Ok (zip (to_valid <$> kvs.*1) vs, t).
Proof.
  intros Hsep Hfin Hne HF. revert fuel.
  induction HF as [|[k x] v kvs vs [Hk [Hx Hv]] HF IH]; intros fuel Hf; [done|].
  destruct fuel as [|fuel]; [lia|]. cbn [fst snd] in *. rewrite length_app in Hf.
  assert (ends_number (125 :: t)) as H125 by (cbn; split; [done|]; decided).
  assert (∀ u, members (S fuel) depth (quote k ++ colon ind ++ x ++ u)
    = '(v, r) ← value fuel depth (x ++ u);
      match skip_ws r with
      | [] => Fail ErrSyntax
      | c :: r =>
          if decide (c = 44) then
            '(l, r) ← members fuel depth (skip_ws r); mret ((to_valid k, v) :: l, r)
          else if decide (c = 125) then Ok ([(to_valid k, v)], r)
          else Fail ErrSyntax
      end) as Hstep.
  { intros u. unfold quote. cbn [members app]. rewrite decide_True by done.
    rewrite <- app_assoc. cbn [app]. rewrite unquote_quote by done. rewrite bind_ok.
    assert (skip_ws (colon ind ++ x ++ u) = 58 :: tail (colon ind ++ x ++ u)
            ∧ skip_ws (tail (colon ind ++ x ++ u)) = x ++ u) as [-> Hc].
    { destruct ind; cbn; (split; [done|]); by apply skip_ws_starts. }
    rewrite decide_True by done. by rewrite Hc. }
  destruct kvs as [|kv kvs].
  - inversion HF; subst. cbn [fmap list_fmap join fst snd] in *. unfold member in *.
    cbn [fst snd] in *. rewrite <- !app_assoc. rewrite !length_app in Hf. cbn [length] in Hf.
    rewrite Hstep, Hv by (try apply ends_number_ws; auto with lia).
    rewrite bind_ok, skip_ws_app by done. done.
  - rewrite (fmap_cons _ (k, x)) in *. rewrite join_cons in * by done.
    set (items := member ind <$> kv :: kvs) in *. unfold member in *. cbn [fst snd] in *.
    rewrite <- !app_assoc. rewrite !length_app in Hf. cbn [length] in Hf.
    rewrite Hstep, Hv; [|lia|cbn; split; [done|]; decided]. rewrite bind_ok. cbn [app].
    rewrite skip_comma, decide_True by done. rewrite skip_ws_app by done.
    assert (starts (join (44 :: sep) items)) as Hs by (unfold items; cbn; by destruct (_ <$> kvs)).
    rewrite skip_ws_starts by done. rewrite IH; [done|done|].
    rewrite length_app. lia.
Qed.

Lemma value_arr depth fuel text t l :
  depth + 1 ≤ maxNestingDepth → starts text →
  ∀ w, all_ws w → elems fuel (depth + 1) (text ++ t) = Ok l →
  value (S fuel) depth (91 :: w ++ text ++ t) = Ok (JArr l.1, l.2).
Proof.
  intros Hd Ht w Hw He. cbn [value]. rewrite (decide_False (P := 91 = 123)) by done.
  rewrite decide_True by done. rewrite decide_False by lia.
  rewrite skip_ws_app, skip_ws_starts by done.
  destruct text as [|c text]; [done|]. cbn [app] in *. rewrite decide_False by apply Ht.
  rewrite He. by destruct l.
Qed.

Lemma value_obj depth fuel text t l :
  depth + 1 ≤ maxNestingDepth → starts text →
  ∀ w, all_ws w → members fuel (depth + 1) (text ++ t) = Ok l →
  value (S fuel) depth (123 :: w ++ text ++ t) = Ok (JObj l.1, l.2).
Proof.
  intros Hd Ht w Hw He. cbn [value]. rewrite decide_True by done. rewrite decide_False by lia.
  rewrite skip_ws_app, skip_ws_starts by done.
  destruct text as [|c text]; [done|]. cbn [app] in *. rewrite decide_False by apply Ht.
  rewrite He. by destruct l.
Qed.

Lemma value_int depth fuel z t :
  in_s 64 z → ends_number t → value (S fuel) depth (Strconv.Itoa z ++ t) = Ok (JInt z, t).
Proof.
  intros Hz Ht. pose proof (number_Itoa z t Hz Ht) as Hn.
  destruct (Itoa_head z Hz) as (c & s & E & Hc). rewrite E in Hn |- *. cbn [app value] in *.
  assert (45 ≤ c ≤ 57) by (rewrite is_digit_range in Hc; lia).
  do 3 rewrite decide_False by lia. case_decide; [|destruct Hc as [|Hc]; [done|rewrite Hc]];
    rewrite Hn, bind_ok, <- E; done.
Qed.

Lemma literal_app lit v t : literal lit v (lit ++ t) = Ok (v, t).
Proof. unfold literal. rewrite decide_True by (by apply prefix_app_r). by rewrite drop_app_length. Qed.

Lemma join_starts sep x items : starts x → starts (join sep (x :: items)).
Proof. destruct x as [|c x]; [done|]. by destruct items. Qed.

(** Reading a list of items that was printed between brackets. *)
Lemma bracketed_arr ind d depth items vs :
  depth + 1 ≤ maxNestingDepth → Forall2 (reads (depth + 1)) items vs →
  reads depth (bracketed ind d 91 93 items) (JArr vs).
Proof.
  intros Hd HF. split; [by destruct items|]. intros fuel t Hf Ht.
  destruct HF as [|x v items vs Hx HF].
  { destruct fuel; [cbn in Hf; lia|]. cbn [app bracketed value].
    by rewrite !(decide_False (P := maxNestingDepth < _)) by lia. }
  unfold bracketed in *. cbn [length] in Hf. rewrite !length_app in Hf. cbn [length] in Hf.
  destruct fuel as [|fuel]; [lia|]. rewrite <- app_comm_cons, <- !app_assoc. cbn [app].
  rewrite (value_arr _ _ _ _ (v :: vs, t)); [done|done|apply join_starts, Hx|apply all_ws_newline|].
  apply elems_join; auto using all_ws_newline. rewrite length_app. lia.
Qed.

Lemma bracketed_obj ind d depth kvs vs :
  depth + 1 ≤ maxNestingDepth →
  Forall2 (λ kv v, bytes_ok kv.1 ∧ reads (depth + 1) kv.2 v) kvs vs →
  reads depth (bracketed ind d 123 125 (member ind <$> kvs)) (JObj (zip (to_valid <$> kvs.*1) vs)).
Proof.
  intros Hd HF. split; [by destruct kvs|]. intros fuel t Hf Ht.
  destruct HF as [|kv v kvs vs Hx HF].
  { destruct fuel; [cbn in Hf; lia|]. cbn [app bracketed value fmap list_fmap].
    by rewrite !(decide_False (P := maxNestingDepth < _)) by lia. }
  assert (bracketed ind d 123 125 (member ind <$> kv :: kvs)
    = 123 :: newline ind (S d) ++ join (44 :: newline ind (S d)) (member ind <$> kv :: kvs)
      ++ newline ind d ++ [125]) as E by done.
  rewrite E in *. cbn [length] in Hf. rewrite !length_app in Hf. cbn [length] in Hf.
  destruct fuel as [|fuel]; [lia|]. rewrite <- app_comm_cons, <- !app_assoc. cbn [app].
  rewrite (value_obj _ _ _ _ (zip (to_valid <$> (kv :: kvs).*1) (v :: vs), t));
    [done|done|by apply join_starts|apply all_ws_newline|].
  apply members_join; auto using all_ws_newline. rewrite length_app. lia.
Qed.

(** Every printable value is read back, with its strings made valid. *)
Lemma print_reads h v ind d depth :
  printable h v → depth + Z.of_nat h ≤ maxNestingDepth → reads depth (print ind d v) (clean v).
Proof.
  revert v d depth. induction h as [h IH] using (well_founded_induction lt_wf).
  intros v d depth Hv Hh. split; [by eapply print_starts|]. intros fuel t Hf Ht.
  destruct Hv as [| h b|h z Hz|h s Hs|h l Hl|h l Hl].
  - destruct fuel as [|fuel]; [cbn in Hf; lia|]. apply (literal_app (str "null")).
  - destruct fuel as [|fuel]; [destruct b; cbn in Hf; lia|]. destruct b;
      [apply (literal_app (str "true"))|apply (literal_app (str "false"))].
  - destruct fuel as [|fuel]; [|by apply value_int].
    destruct (Itoa_head z Hz) as (c & s & E & _). cbn [print JInt] in Hf. rewrite E in Hf. cbn in Hf. lia.
  - destruct fuel as [|fuel]; [cbn in Hf; lia|]. cbn [print]. unfold quote. cbn [app value].
    do 2 rewrite decide_False by done. rewrite decide_True by done.
    rewrite <- app_assoc. cbn [app]. by rewrite unquote_quote.
  - apply bracketed_arr; [lia| |done|done].
    apply (Forall2_fmap_2 (print ind (S d)) clean), Forall_Forall2_diag.
    eapply Forall_impl; [exact Hl|]. intros v Hv. apply (IH h); [lia|done|lia].
  - set (kvs := (λ kv : bytes * json, (kv.1, print ind (S d) kv.2)) <$> l).
    assert (print ind d (JObj l) = bracketed ind d 123 125 (member ind <$> kvs)) as E.
    { unfold kvs. rewrite <- list_fmap_compose. done. }
    assert (clean (JObj l) = JObj (zip (to_valid <$> kvs.*1) ((λ kv, clean kv.2) <$> l))) as ->.
    { unfold kvs. rewrite <- list_fmap_compose. cbn [clean]. f_equal. clear.
      induction l as [|kv l IHl]; [done|]. cbn. f_equal. exact IHl. }
    rewrite E in *. apply bracketed_obj; [lia| |done|done].
    apply Forall2_fmap_2, Forall_Forall2_diag. eapply Forall_impl; [exact Hl|].
    intros kv [Hk Hv]. split; [done|]. apply (IH h); [lia|done|lia].
Qed.

(** Parsing a printed value, with white space after it. *)
Lemma parse_print h v ind w :
  printable h v → Z.of_nat h ≤ maxNestingDepth → all_ws w →
  parse (print ind 0 v ++ w) = Ok (clean v).
Proof.
  intros Hv Hh Hw. unfold parse. pose proof (print_starts ind 0 h v Hv) as Hs.
  rewrite skip_ws_starts by done. destruct (print_reads h v ind 0 0 Hv ltac:(lia)) as [_ Hr].
  rewrite Hr, bind_ok.
  - rewrite <- (app_nil_r w), skip_ws_app by done. done.
  - rewrite length_app. lia.
  - rewrite <- (app_nil_r w). by apply ends_number_ws.
Qed.
End Values.
Import Values.

(** ** The parser ends *)
Module Total.

(** [m] did not run out of fuel, and what it left is shorter than [n]. *)
Definition eats {A} (n : nat) (m : res (A * bytes)) : Prop :=
  match m with Ok (_, r) => (length r < n)%nat | Fail _ => True | Panic => False end.

Lemma eats_bind {A B} n n' (m : res (A * bytes)) (f : A * bytes → res (B * bytes)) :
  eats n m → (∀ a r, (length r < n)%nat → eats n' (f (a, r))) → eats n' (m ≫= f).
Proof. destruct m as [[a r]|e|]; cbn; auto. Qed.

Lemma eats_mono {A} n n' (m : res (A * bytes)) : eats n m → (n ≤ n')%nat → eats n' m.
Proof. destruct m as [[a r]|e|]; cbn; auto with lia. Qed.

Lemma eats_prepend n p (m : res (bytes * bytes)) : eats n m → eats n (prepend p m).
Proof. intros. unfold prepend. eapply eats_bind; [done|]. by intros. Qed.

Lemma DecodeRune_width s : s ≠ [] → (1 ≤ (Utf8.DecodeRune s).2)%nat.
Proof. destruct s; [done|]. intros _. unfold Utf8.DecodeRune. repeat case_match; cbn; lia. Qed.

Lemma hex4_shorter s r t : hex4 s = Some (r, t) → (length t < length s)%nat.
Proof. unfold hex4. repeat case_match; intros; simplify_eq; cbn; lia. Qed.

Lemma unescape_u_shorter rr s rr' t : unescape_u rr s = (rr', t) → (length t ≤ length s)%nat.
Proof.
  unfold unescape_u. case_decide; [|intros; simplify_eq; lia].
  destruct (getu4 s) as [[x t']|] eqn:E; [|intros; simplify_eq; lia].
  assert (length t' < length s)%nat.
  { unfold getu4 in E. repeat case_match; simplify_eq. apply hex4_shorter in E. cbn. lia. }
  case_match; intros; simplify_eq; lia.
Qed.

Lemma unquote_total fuel s : (length s < fuel)%nat → eats (length s) (unquote fuel s).
Proof.
  revert s. induction fuel as [|fuel IH]; intros s Hf; [lia|]. cbn [unquote].
  destruct s as [|c r]; [done|]. cbn [length] in *.
  assert (∀ t, (length t ≤ length r)%nat → ∀ p, eats (S (length r)) (prepend p (unquote fuel t))) as Hrec.
  { intros t Ht p. apply eats_prepend. eapply eats_mono; [apply IH; lia|lia]. }
  case_decide; [cbn; lia|]. case_decide.
  { destruct r as [|e r]; [done|]. cbn [length] in *. case_decide.
    - destruct (hex4 r) as [[rr r1]|] eqn:E; [|done]. apply hex4_shorter in E.
      destruct (unescape_u rr r1) as [rr' r2] eqn:E2. apply unescape_u_shorter in E2. apply Hrec. lia.
    - destruct (unescape e); [|done]. apply Hrec. lia. }
  case_decide; [done|]. case_decide; [apply Hrec; lia|].
  pose proof (DecodeRune_width (c :: r) ltac:(done)) as Hw.
  destruct (Utf8.DecodeRune (c :: r)) as [rr w]. apply Hrec. rewrite length_drop. cbn in *. lia.
Qed.

Lemma digits_shorter s d r : digits s = (d, r) → length s = (length d + length r)%nat.
Proof.
  revert d r. induction s as [|c s IH]; intros d r; cbn [digits]; [intros; by simplify_eq|].
  case_match; [|intros; by simplify_eq]. destruct (digits s) as [d' r']. intros; simplify_eq.
  cbn. by rewrite (IH d' r).
Qed.

Lemma digits1_eats s : eats (length s) (digits1 s).
Proof.
  unfold digits1. destruct (digits s) as [d r] eqn:E. apply digits_shorter in E.
  destruct d; cbn in *; [done|lia].
Qed.

Lemma opt_char_shorter cs s p r : opt_char cs s = (p, r) → length s = (length p + length r)%nat.
Proof. unfold opt_char. repeat case_match; intros; simplify_eq; done. Qed.

Lemma number_total s : eats (length s) (number s).
Proof.
  unfold number. destruct (opt_char [45] s) as [sg s1] eqn:E1. apply opt_char_shorter in E1.
  eapply (eats_bind (length s1)).
  { destruct (opt_char [48] s1) as [z s2] eqn:E2. apply opt_char_shorter in E2.
    destruct z as [|z zs]; [|cbn in *; lia]. eapply eats_mono; [apply digits1_eats|cbn in *; lia]. }
  intros int s2 H2. eapply (eats_bind (S (length s2))).
  { destruct (opt_char [46] s2) as [p s3] eqn:E3. apply opt_char_shorter in E3.
    destruct p; [cbn in *; lia|]. apply eats_prepend.
    eapply eats_mono; [apply digits1_eats|cbn in *; lia]. }
  intros frac s3 H3. eapply (eats_bind (S (length s3))).
  { destruct (opt_char [101; 69] s3) as [p s4] eqn:E4. apply opt_char_shorter in E4.
    destruct p; [cbn in *; lia|]. destruct (opt_char [43; 45] s4) as [q s5] eqn:E5.
    apply opt_char_shorter in E5. apply eats_prepend.
    eapply eats_mono; [apply digits1_eats|cbn in *; lia]. }
  intros exp s4 H4. cbn. lia.
Qed.

Lemma skip_ws_shorter s : (length (skip_ws s) ≤ length s)%nat.
Proof. induction s as [|c s IH]; [done|]. cbn. case_match; cbn; lia. Qed.

Lemma literal_eats lit v s : lit ≠ [] → eats (length s) (literal lit v s).
Proof.
  intros Hl. unfold literal. case_decide as H; [|done]. cbn. apply prefix_length in H.
  rewrite length_drop. destruct lit; [done|]. cbn in *. lia.
Qed.

(** The fuel a text needs: two calls for a byte. *)
Lemma calls_total fuel :
  (∀ depth s, (2 * length s + 1 ≤ fuel)%nat → eats (length s) (value fuel depth s))
  ∧ (∀ depth s, (2 * length s + 2 ≤ fuel)%nat → eats (length s) (elems fuel depth s))
  ∧ (∀ depth s, (2 * length s + 1 ≤ fuel)%nat → eats (length s) (members fuel depth s)).
Proof.
  induction fuel as [|fuel (IHv & IHe & IHm)]; [split_and!; intros; lia|].
  split_and!; intros depth s Hf.
  - cbn [value]. destruct s as [|c r]; [done|]. cbn [length] in Hf.
    pose proof (skip_ws_shorter r) as Hws.
    case_decide; [|case_decide; [|case_decide]].
    + case_decide; [done|]. destruct (skip_ws r) as [|c' r'] eqn:E; [done|]. cbn [length] in *.
      case_decide; [cbn; lia|]. eapply eats_bind; [apply IHm; cbn; lia|]. intros; cbn in *; lia.
    + case_decide; [done|]. destruct (skip_ws r) as [|c' r'] eqn:E; [done|]. cbn [length] in *.
      case_decide; [cbn; lia|]. eapply eats_bind; [apply IHe; cbn; lia|]. intros; cbn in *; lia.
    + eapply eats_bind; [apply unquote_total; lia|]. intros; cbn in *; lia.
    + case_decide; [eapply eats_bind; [apply number_total|]; by intros|].
      destruct (is_digit c); [eapply eats_bind; [apply number_total|]; by intros|].
      do 3 (case_decide; [by apply literal_eats|]). done.
  - cbn [elems]. eapply eats_bind; [apply IHv; lia|]. intros v r Hr.
    pose proof (skip_ws_shorter r). destruct (skip_ws r) as [|c r1]; [done|]. cbn [length] in *.
    pose proof (skip_ws_shorter r1). case_decide; [|case_decide; cbn; [lia|done]].
    eapply eats_bind; [apply IHe; lia|]. intros; cbn in *; lia.
  - cbn [members]. destruct s as [|c r]; [done|]. cbn [length] in *. case_decide; [|done].
    eapply eats_bind; [apply unquote_total; lia|]. intros k r0 Hr0.
    pose proof (skip_ws_shorter r0). destruct (skip_ws r0) as [|c1 r1]; [done|]. cbn [length] in *.
    case_decide; [|done]. pose proof (skip_ws_shorter r1).
    eapply eats_bind; [apply IHv; lia|]. intros v r2 Hr2.
    pose proof (skip_ws_shorter r2). destruct (skip_ws r2) as [|c3 r3]; [done|]. cbn [length] in *.
    pose proof (skip_ws_shorter r3). case_decide; [|case_decide; cbn; [lia|done]].
    eapply eats_bind; [apply IHm; lia|]. intros; cbn in *; lia.
Qed.

(** Every text is parsed or refused. *)
Lemma parse_total s : parse s ≠ Panic.
Proof.
  unfold parse. pose proof (skip_ws_shorter s).
  pose proof (proj1 (calls_total (2 * length s + 2)) 0 (skip_ws s) ltac:(lia)) as H1.
  destruct (value _ _ _) as [[v r]|e|]; [|done..]. rewrite bind_ok. by destruct (skip_ws r).
Qed.
End Total.
