(* ===== verification/Hotness.v ===== *)
(** * Hotness: the access log of tagindex/internal/hotness

    [ring.dat] keeps the last accesses in slots of a fixed size, [ring.meta.json] the
    position of the ring and [raw_counters.json] a counter per path over the accesses
    in the ring; [Record] moves all three on.  The definitions follow store.go; the
    scores and the ranking, which are floating point, are left out. *)

From S2P Require Import Prelude GoStd GoText GoFs GoJson.
Import Strings Fs Json.

Module Hotness.

Definition DefaultRoot : bytes := str "/mnt/f/seaweed/index/hotness".
Definition DefaultCapacity : Z := 100000.
Definition DefaultSlotSize : Z := 512.

Definition OpOpen : bytes := str "open".
Definition OpRead : bytes := str "read".
Definition OpWrite : bytes := str "write".
Definition OpClose : bytes := str "close".

Record Event := MkEvent { Ts : Z; Op : bytes; Path : bytes; Bytes : Z }.

Record Counter := MkCounter {
  OpenCount : Z; ReadCount : Z; WriteCount : Z; CloseCount : Z;
  BytesRead : Z; BytesWritten : Z;
  LastOpenTs : Z; LastReadTs : Z; LastWriteTs : Z; LastCloseTs : Z }.
Definition zero_counter : Counter := MkCounter 0 0 0 0 0 0 0 0 0 0.

Record Meta := MkMeta { m_Capacity : Z; m_SlotSize : Z; Head : Z; Tail : Z; Size : Z }.

Record Store := MkStore { Root : path; Capacity : Z; SlotSize : Z }.

#[global] Instance event_eq_dec : EqDecision Event.
Proof. solve_decision. Defined.
#[global] Instance counter_eq_dec : EqDecision Counter.
Proof. solve_decision. Defined.
#[global] Instance meta_eq_dec : EqDecision Meta.
Proof. solve_decision. Defined.

(** [New]; [cwd] is what a relative root starts from. *)
Definition New (cwd : path) (root : bytes) : Store :=
  let root := if decide (TrimSpace root = []) then DefaultRoot else root in
  MkStore (Join (if HasPrefix root (str "/") then [] else cwd) root)
    DefaultCapacity DefaultSlotSize.

Definition NewWithOptions (cwd : path) (root : bytes) (capacity slotSize : Z) : Store :=
  let store := New cwd root in
  let store := if decide (0 < capacity) then MkStore (Root store) capacity (SlotSize store) else store in
  if decide (0 < slotSize) then MkStore (Root store) (Capacity store) slotSize else store.

Definition countersPath (s : Store) : path := Join (Root s) (str "raw_counters.json").
Definition ringPath (s : Store) : path := Join (Root s) (str "ring.dat").
Definition metaPath (s : Store) : path := Join (Root s) (str "ring.meta.json").
Definition lockPath (s : Store) : path := Join (Root s) (str "hotness.lock").

(** ** JSON forms *)

Definition Event_json (e : Event) : json :=
  JObj ([(str "ts", JInt (Ts e)); (str "op", JStr (Op e)); (str "path", JStr (Path e))]
        ++ omit (bool_decide (Bytes e = 0)) (str "bytes", JInt (Bytes e))).

Definition Event_field (e : Event) (kv : bytes * json) : res Event :=
  let '(k, v) := kv in
  if is_field "ts" k then x ← into_int64 (Ts e) v; mret (MkEvent x (Op e) (Path e) (Bytes e))
  else if is_field "op" k then x ← into_string (Op e) v; mret (MkEvent (Ts e) x (Path e) (Bytes e))
  else if is_field "path" k then x ← into_string (Path e) v; mret (MkEvent (Ts e) (Op e) x (Bytes e))
  else if is_field "bytes" k then x ← into_int64 (Bytes e) v; mret (MkEvent (Ts e) (Op e) (Path e) x)
  else mret e.

Definition Meta_json (m : Meta) : json :=
  JObj [(str "capacity", JInt (m_Capacity m)); (str "slot_size", JInt (m_SlotSize m));
        (str "head", JInt (Head m)); (str "tail", JInt (Tail m)); (str "size", JInt (Size m))].

Definition Meta_field (m : Meta) (kv : bytes * json) : res Meta :=
  let '(k, v) := kv in
  let '(MkMeta c l h t n) := m in
  if is_field "capacity" k then x ← into_int64 c v; mret (MkMeta x l h t n)
  else if is_field "slot_size" k then x ← into_int64 l v; mret (MkMeta c x h t n)
  else if is_field "head" k then x ← into_int64 h v; mret (MkMeta c l x t n)
  else if is_field "tail" k then x ← into_int64 t v; mret (MkMeta c l h x n)
  else if is_field "size" k then x ← into_int64 n v; mret (MkMeta c l h t x)
  else mret m.

Definition stamp_json (name : string) (z : Z) : list (bytes * json) :=
  omit (bool_decide (z = 0)) (str name, JInt z).

Definition Counter_json (c : Counter) : json :=
  JObj ([(str "open_count", JInt (OpenCount c)); (str "read_count", JInt (ReadCount c));
         (str "write_count", JInt (WriteCount c)); (str "close_count", JInt (CloseCount c));
         (str "bytes_read", JInt (BytesRead c)); (str "bytes_written", JInt (BytesWritten c))]
        ++ stamp_json "last_open_ts" (LastOpenTs c) ++ stamp_json "last_read_ts" (LastReadTs c)
        ++ stamp_json "last_write_ts" (LastWriteTs c) ++ stamp_json "last_close_ts" (LastCloseTs c)).

Definition Counter_field (x : Counter) (kv : bytes * json) : res Counter :=
  let '(k, v) := kv in
  let '(MkCounter o r w c br bw lo lr lw lc) := x in
  if is_field "open_count" k then z ← into_int64 o v; mret (MkCounter z r w c br bw lo lr lw lc)
  else if is_field "read_count" k then z ← into_int64 r v; mret (MkCounter o z w c br bw lo lr lw lc)
  else if is_field "write_count" k then z ← into_int64 w v; mret (MkCounter o r z c br bw lo lr lw lc)
  else if is_field "close_count" k then z ← into_int64 c v; mret (MkCounter o r w z br bw lo lr lw lc)
  else if is_field "bytes_read" k then z ← into_int64 br v; mret (MkCounter o r w c z bw lo lr lw lc)
  else if is_field "bytes_written" k then z ← into_int64 bw v; mret (MkCounter o r w c br z lo lr lw lc)
  else if is_field "last_open_ts" k then z ← into_int64 lo v; mret (MkCounter o r w c br bw z lr lw lc)
  else if is_field "last_read_ts" k then z ← into_int64 lr v; mret (MkCounter o r w c br bw lo z lw lc)
  else if is_field "last_write_ts" k then z ← into_int64 lw v; mret (MkCounter o r w c br bw lo lr z lc)
  else if is_field "last_close_ts" k then z ← into_int64 lc v; mret (MkCounter o r w c br bw lo lr lw z)
  else mret x.

(** A [map[string]Counter]; [None] is the nil map, which reads as empty and panics
    when it is written to.  A map is printed in the order of its keys. *)
Abbreviation counter_map := (gmap bytes Counter).

Definition counters_json (m : counter_map) : json :=
  JObj (omap (λ k, (λ c, (k, Counter_json c)) <$> m !! k) (SortStrings.Strings (elements (dom m)))).

Definition into_counters (v : json) : res (option counter_map) :=
  match v with
  | JNull => Ok None
  | JObj l =>
      m ← into_fields (λ (m : counter_map) '(k, v),
            c ← into_struct Counter_field zero_counter v; mret (<[k := c]> m)) ∅ l;
      mret (Some m)
  | _ => type_error
  end.

(** ** Events *)

Definition normalize (now : Z) (e : Event) : res Event :=
  let op := ToLower (TrimSpace (Op e)) in
  let p := TrimSpace (Path e) in
  let ts := if decide (Ts e = 0) then now else Ts e in
  if decide (p = []) then Fail (Errorf "path is required")
  else
    let p := if negb (HasPrefix p (str "/")) then str "/" ++ p else p in
    if negb (bool_decide (op ∈ [OpOpen; OpRead; OpWrite; OpClose]))
    then Fail (Errorf "unsupported hotness op %q")
    else if decide (Bytes e < 0) then Fail (Errorf "bytes must be non-negative")
    else
      let b := if decide (op ≠ OpRead ∧ op ≠ OpWrite) then 0 else Bytes e in
      Ok (MkEvent ts op p b).

Definition clamp (z : Z) : Z := if decide (z < 0) then 0 else z.
Definition clampCounter (c : Counter) : Counter :=
  MkCounter (clamp (OpenCount c)) (clamp (ReadCount c)) (clamp (WriteCount c)) (clamp (CloseCount c))
    (clamp (BytesRead c)) (clamp (BytesWritten c))
    (LastOpenTs c) (LastReadTs c) (LastWriteTs c) (LastCloseTs c).

Definition newer (sign ts last : Z) : Z := if decide (0 < sign ∧ last < ts) then ts else last.

(** The switch of [applyEvent]. *)
Definition count_event (x : Counter) (e : Event) (sign : Z) : Counter :=
  let '(MkCounter o r w c br bw lo lr lw lc) := x in
  if decide (Op e = OpOpen) then MkCounter (add64 o sign) r w c br bw (newer sign (Ts e) lo) lr lw lc
  else if decide (Op e = OpRead) then
    MkCounter o (add64 r sign) w c (add64 br (mul64 sign (Bytes e))) bw lo (newer sign (Ts e) lr) lw lc
  else if decide (Op e = OpWrite) then
    MkCounter o r (add64 w sign) c br (add64 bw (mul64 sign (Bytes e))) lo lr (newer sign (Ts e) lw) lc
  else if decide (Op e = OpClose) then
    MkCounter o r w (add64 c sign) br bw lo lr lw (newer sign (Ts e) lc)
  else x.

Definition applyEvent (m : option counter_map) (e : Event) (sign : Z) : res (option counter_map) :=
  match m with
  | None => Panic
  | Some m =>
      let c := clampCounter (count_event (default zero_counter (m !! Path e)) e sign) in
      Ok (Some (<[Path e := c]> m))
  end.

Definition isZero (c : Counter) : bool :=
  bool_decide (OpenCount c = 0) && bool_decide (ReadCount c = 0) && bool_decide (WriteCount c = 0)
  && bool_decide (CloseCount c = 0) && bool_decide (BytesRead c = 0) && bool_decide (BytesWritten c = 0).

(** ** Files *)

(** [writeJSONAtomic]: write, sync and close a temporary file, then rename it. *)
Definition writeJSONAtomic (p : path) (v : json) : SE fs unit :=
  MkdirAll (DirOf p) ;;
  CreateTemp (DirOf p) ;;
  syscall ;; syscall ;; syscall ;;
  Rename (MarshalIndent v ++ [10]) p.

(** A file that may be missing. *)
Definition read_if_exists (p : path) : SE fs (option bytes) :=
  se_catch (d ← ReadFile p; mret (Some d))
    (λ e, if decide (e = ErrNotExist) then mret None else se_fail e).

Definition check_meta (m : Meta) : res Meta :=
  if decide (m_Capacity m ≤ 0 ∨ m_SlotSize m ≤ 0) then Fail (Errorf "invalid hotness ring meta")
  else if decide (Head m < 0 ∨ m_Capacity m ≤ Head m ∨ Tail m < 0 ∨ m_Capacity m ≤ Tail m
                  ∨ Size m < 0 ∨ m_Capacity m < Size m)
  then Fail (Errorf "invalid hotness ring position")
  else Ok m.

Definition parse_meta (meta : Meta) (d : bytes) : res Meta :=
  v ← parse d;
  m ← into_struct Meta_field meta v;
  check_meta m.

Definition loadMeta (s : Store) : SE fs Meta :=
  let meta := MkMeta (Capacity s) (SlotSize s) 0 0 0 in
  o ← read_if_exists (metaPath s);
  match o with
  | None => mret meta
  | Some d => se_lift (parse_meta meta d)
  end.

Definition parse_counters (d : bytes) : res (option counter_map) :=
  if decide (TrimSpace d = []) then Ok (Some ∅)
  else v ← parse d; into_counters v.

Definition loadCounters (s : Store) : SE fs (option counter_map) :=
  o ← read_if_exists (countersPath s);
  match o with
  | None => mret (Some ∅)
  | Some d => se_lift (parse_counters d)
  end.

Definition saveMeta (s : Store) (m : Meta) : SE fs unit :=
  writeJSONAtomic (metaPath s) (Meta_json m).

Definition compact (m : option counter_map) : counter_map :=
  filter (λ kc, isZero kc.2 = false) (default ∅ m).
Definition saveCounters (s : Store) (m : option counter_map) : SE fs unit :=
  writeJSONAtomic (countersPath s) (counters_json (compact m)).

(** [lock]: the lock file and [flock] on it. *)
Definition lock (s : Store) : SE fs unit :=
  MkdirAll (Root s) ;; OpenCreate (lockPath s) ;; syscall.

Definition parse_slot (now : Z) (buf : bytes) : res (Event * bool) :=
  let none := (MkEvent 0 [] [] 0, false) in
  if decide (buf = []) then Ok none
  else
    let buf := TrimSpace (TrimRightByte 0 buf) in
    if decide (buf = []) then Ok none
    else
      v ← parse buf;
      e ← into_struct Event_field (MkEvent 0 [] [] 0) v;
      e ← normalize now e;
      mret (e, true).

Definition readSlot (now : Z) (file : path) (slot slotSize : Z) : SE fs (Event * bool) :=
  if decide (slotSize < 0) then se_lift Panic
  else
    '(buf, err) ← ReadAt file (mul64 slot slotSize) slotSize;
    match err with
    | Some e => se_fail e
    | None => se_lift (parse_slot now buf)
    end.

(** A slot filled with an event. *)
Definition slot_text (slotSize : Z) (e : Event) : bytes :=
  let encoded := Marshal (Event_json e) in
  encoded ++ [10] ++ zeros (slotSize - (zlen encoded + 1)).

Definition writeSlot (file : path) (slot slotSize : Z) (e : Event) : SE fs unit :=
  if decide (slotSize < zlen (Marshal (Event_json e)) + 1)
  then se_fail (Errorf "hotness event too large for slot")
  else WriteAt file (slot_text slotSize e) (mul64 slot slotSize).

(** The remainder of Go, which panics for a zero divisor. *)
Definition go_rem (a b : Z) : res Z := if decide (b = 0) then Panic else Ok (Z.rem a b).

(** Make room for one more event. *)
Definition evict (now : Z) (s : Store) (meta : Meta) (counters : option counter_map) :
    SE fs (Meta * option counter_map) :=
  if decide (Size meta = m_Capacity meta) then
    '(old, ok) ← readSlot now (ringPath s) (Head meta) (m_SlotSize meta);
    counters ← se_lift (if (ok : bool) then applyEvent counters old (-1) else Ok counters);
    tail ← se_lift (go_rem (add64 (Tail meta) 1) (m_Capacity meta));
    mret (MkMeta (m_Capacity meta) (m_SlotSize meta) (Head meta) tail (Size meta), counters)
  else
    mret (MkMeta (m_Capacity meta) (m_SlotSize meta) (Head meta) (Tail meta) (add64 (Size meta) 1),
          counters).

(** [Record] up to the room for the event: the state and the ring under the lock. *)
Definition prepare (now : Z) (s : Store) : SE fs (Meta * option counter_map) :=
  MkdirAll (Root s) ;;
  lock s ;;
  meta ← loadMeta s;
  counters ← loadCounters s;
  OpenCreate (ringPath s) ;;
  Truncate (ringPath s) (mul64 (m_Capacity meta) (m_SlotSize meta)) ;;
  evict now s meta counters.

Definition Record_ (now : Z) (s : Store) (event : Event) : SE fs unit :=
  event ← se_lift (normalize now event);
  '(meta, counters) ← prepare now s;
  writeSlot (ringPath s) (Head meta) (m_SlotSize meta) event ;;
  counters ← se_lift (applyEvent counters event 1);
  head ← se_lift (go_rem (add64 (Head meta) 1) (m_Capacity meta));
  saveCounters s counters ;;
  saveMeta s (MkMeta (m_Capacity meta) (m_SlotSize meta) head (Tail meta) (Size meta)).

Definition LoadCounters (s : Store) : SE fs (option counter_map) := lock s ;; loadCounters s.
Definition LoadMeta (s : Store) : SE fs Meta := lock s ;; loadMeta s.

Definition SortedPaths (m : option counter_map) : list bytes :=
  SortStrings.Strings (elements (dom (default ∅ m))).

End Hotness.
