(* ===== verification/HotnessText.v ===== *)
(** * HotnessText: the texts of the access log read back as written

    Slots, the ring position and the counters survive the trip through their files;
    an access that was normalised stays as it is. *)

From S2P Require Import Prelude GoStd GoText GoFs GoFsSpec GoJson GoJsonSpec Hotness.
Import Strings Fs Json Hotness Runes Values.

(** ** Trimming *)
Module Trims.

(** Texts between bytes no white space starts or ends with. *)
Lemma leading_other enc c s : Forall (λ e, head e ≠ Some c ∧ e ≠ []) enc → leading enc (c :: s) = None.
Proof.
  intros H. apply leading_None. intros e He Hp. rewrite Forall_forall in H.
  destruct (H e He) as [H1 H2]. destruct e as [|x e]; [done|].
  by apply prefix_cons_inv_1 in Hp as ->.
Qed.

Lemma trimmed_between a s b :
  Forall (λ e, head e ≠ Some a ∧ e ≠ []) spaces →
  Forall (λ e, head e ≠ Some b ∧ e ≠ []) (reverse <$> spaces) → trimmed (a :: s ++ [b]).
Proof.
  intros Ha Hb. split; [by apply leading_other|]. rewrite app_comm_cons, reverse_snoc.
  by apply leading_other.
Qed.

(** A newline after a trimmed text goes. *)
Lemma TrimSpace_newline s : trimmed s → s ≠ [] → TrimSpace (s ++ [10]) = s.
Proof.
  intros [Hl Hr] Hne. unfold TrimSpace, TrimLeftSpace, TrimRightSpace.
  assert (leading spaces (s ++ [10]) = None) as H.
  { rewrite leading_None in *. intros e He Hp. destruct (decide (10 ∈ e)) as [H10|H10].
    - assert (e = [10]) as ->.
      { assert (Forall (λ e, 10 ∈ e → e = [10]) spaces) as HF by decided.
        rewrite Forall_forall in HF. auto. }
      destruct s as [|c s]; [done|]. apply prefix_cons_inv_1 in Hp as <-.
      apply (Hl [10] He). by exists s.
    - apply (Hl e He). destruct Hp as [k Hk].
      destruct (decide (k = [])) as [->|Hk0].
      + rewrite app_nil_r in Hk. subst e. exfalso. apply H10. set_solver.
      + destruct k as [|x k _] using rev_ind; [done|]. rewrite app_assoc in Hk.
        apply app_inj_2 in Hk as [-> _]; [|done]. by exists k. }
  rewrite (cut_id _ _ H), reverse_snoc. unfold cut. cbn [length cut_loop].
  assert (leading (reverse <$> spaces) (10 :: reverse s) = Some [10]) as ->.
  { unfold leading. cbn. repeat (rewrite decide_False by (by intros ?%prefix_cons_inv_1)). 
    by rewrite decide_True by (by exists (reverse s)). }
  cbn [length drop]. rewrite drop_0.
  change (cut_loop (length (reverse s)) _ _) with (cut (reverse <$> spaces) (reverse s)).
  by rewrite (cut_id _ _ Hr), reverse_involutive.
Qed.

(** Filling zeros go. *)
Lemma TrimRightByte_zeros c s n : c ≠ 0 → TrimRightByte 0 (s ++ [c] ++ zeros n) = s ++ [c].
Proof.
  intros Hc. unfold TrimRightByte. rewrite app_assoc, reverse_app. unfold zeros.
  rewrite reverse_replicate, reverse_snoc. generalize (Z.to_nat n) as k. intros k.
  rewrite <- (reverse_involutive (s ++ [c])), reverse_snoc at 1. f_equal.
  assert (∀ fuel, (k ≤ fuel)%nat →
    cut_loop fuel [[0]] (replicate k 0 ++ c :: reverse s) = c :: reverse s) as H.
  { induction k as [|k IH]; intros fuel Hf.
    - cbn [replicate app]. destruct fuel; [done|]. cbn [cut_loop].
      rewrite leading_other; [done|]. repeat constructor; cbn; congruence.
    - destruct fuel as [|fuel]; [lia|]. cbn [cut_loop replicate app].
      unfold leading. cbn [list_find]. rewrite decide_True by (by exists (replicate k 0 ++ c :: reverse s)).
      cbn. rewrite drop_0. apply IH. lia. }
  unfold cut. apply H. rewrite length_app, length_replicate. lia.
Qed.

(** A slash before a trimmed text. *)
Lemma trimmed_slash s : trimmed s → s ≠ [] → trimmed (47 :: s).
Proof.
  intros [Hl Hr] Hne. split.
  { apply leading_other. decided. }
  rewrite reverse_cons. rewrite leading_None in *. intros e He [k Hk].
  destruct k as [|x k _] using rev_ind.
  - rewrite app_nil_r in Hk. subst e.
    assert (Forall (λ e, 47 ∉ e) (reverse <$> spaces)) as HF by decided.
    rewrite Forall_forall in HF. apply (HF _ He). set_solver.
  - rewrite app_assoc in Hk. apply app_inj_2 in Hk as [Hk _]; [|done].
    apply (Hr e He). by exists k.
Qed.
End Trims.
Import Trims.

(** ** Struct codecs *)
Module Codecs.

Lemma into_int64_JInt old z : in_s 64 z → into_int64 old (JInt z) = Ok z.
Proof. intros. unfold into_int64, JInt. by rewrite Numbers.Atoi_Itoa. Qed.

(** Decide which field each key names, then fill it. *)
Ltac pick_fields :=
  repeat match goal with
  | |- context [is_field ?a (str ?b)] =>
      let v := eval vm_compute in (is_field a (str b)) in change (is_field a (str b)) with v
  end; cbv iota.
Ltac fill_fields :=
  repeat (cbn [into_fields]; pick_fields;
          try (rewrite into_int64_JInt by done); cbn [mbind res_bind mret res_ret into_string]).

Lemma event_into e :
  in_s 64 (Ts e) → in_s 64 (Bytes e) →
  into_struct Event_field (MkEvent 0 [] [] 0) (Event_json e) = Ok e.
Proof.
  intros Ht Hb. destruct e as [ts op p b]. cbn [Ts Bytes] in *. unfold Event_json. cbn [into_struct].
  unfold omit. cbn [Ts Op Path Bytes]. case_bool_decide; subst; cbn [app];
    unfold Event_field; cbn [Ts Op Path Bytes]; fill_fields; done.
Qed.

Lemma meta_into m0 m :
  in_s 64 (m_Capacity m) → in_s 64 (m_SlotSize m) → in_s 64 (Head m) → in_s 64 (Tail m) →
  in_s 64 (Size m) → into_struct Meta_field m0 (Meta_json m) = Ok m.
Proof.
  intros. destruct m0, m. cbn [m_Capacity m_SlotSize Head Tail Size] in *. unfold Meta_json. cbn [into_struct].
  unfold Meta_field. cbn [m_Capacity m_SlotSize Head Tail Size]. fill_fields. done.
Qed.

(** The fields of a counter are 64-bit integers. *)
Definition counter_ok (c : Counter) : Prop :=
  Forall (in_s 64) [OpenCount c; ReadCount c; WriteCount c; CloseCount c; BytesRead c;
    BytesWritten c; LastOpenTs c; LastReadTs c; LastWriteTs c; LastCloseTs c].

Lemma counter_into c : counter_ok c → into_struct Counter_field zero_counter (Counter_json c) = Ok c.
Proof.
  intros H. destruct c as [o r w c br bw lo lr lw lc]. unfold counter_ok in H. cbn in H.
  rewrite !Forall_cons in H. destruct H as (? & ? & ? & ? & ? & ? & ? & ? & ? & ? & _).
  unfold Counter_json, zero_counter. cbn [into_struct OpenCount ReadCount WriteCount CloseCount
    BytesRead BytesWritten LastOpenTs LastReadTs LastWriteTs LastCloseTs].
  unfold stamp_json, omit. unfold Counter_field.
  repeat case_bool_decide; subst; cbn [app]; fill_fields; done.
Qed.
End Codecs.
Import Codecs.

(** ** What is written is read back *)
Module Texts.

Definition op_ok (op : bytes) : Prop := op ∈ [OpOpen; OpRead; OpWrite; OpClose].

Lemma op_cases op : op_ok op → op = OpOpen ∨ op = OpRead ∨ op = OpWrite ∨ op = OpClose.
Proof. unfold op_ok. rewrite !elem_of_cons, elem_of_nil. naive_solver. Qed.

(** An access as it is kept in the ring: normalised, with a path that is valid
    UTF-8 and at most [B] bytes moved. *)
Record good (B : Z) (e : Event) : Prop := Good {
  good_normal : ∀ now, normalize now e = Ok e;
  good_op : op_ok (Op e);
  good_path : bytes_ok (Path e);
  good_valid : valid (Path e);
  good_ts : in_s 64 (Ts e);
  good_bytes : 0 ≤ Bytes e ≤ B;
}.

Lemma normalize_shape now e e' :
  normalize now e = Ok e' →
  trimmed (Path e') ∧ Path e' ≠ [] ∧ HasPrefix (Path e') (str "/") = true ∧ op_ok (Op e')
  ∧ 0 ≤ Bytes e' ∧ (Op e' ≠ OpRead ∧ Op e' ≠ OpWrite → Bytes e' = 0).
Proof.
  unfold normalize. pose proof (TrimSpace_trimmed (Path e)) as Ht.
  set (p := TrimSpace (Path e)) in *. case_decide as Hp; [done|].
  destruct (bool_decide _) eqn:Hop; [|done]. apply bool_decide_eq_true in Hop. cbn [negb].
  destruct (decide (Bytes e < 0)); [done|].
  intros H. apply Ok_inj in H as <-. cbn [Path Op Bytes].
  destruct (HasPrefix p (str "/")) eqn:Hpre; cbn [negb].
  - split_and!; try done; case_decide; tauto || lia.
  - split_and!; [by apply trimmed_slash|done| |done|case_decide; lia|case_decide; tauto].
    unfold HasPrefix. apply bool_decide_eq_true. by exists p.
Qed.

(** Normalising twice changes nothing. *)
Lemma normalize_idem now e e' :
  normalize now e = Ok e' → Ts e' ≠ 0 → ∀ now', normalize now' e' = Ok e'.
Proof.
  intros H Hts now'. destruct (normalize_shape _ _ _ H) as (Ht & Hne & Hpre & Hop & Hb & Hz).
  unfold normalize. rewrite TrimSpace_id by done. rewrite (decide_False (P := Path e' = [])) by done.
  rewrite Hpre. cbn [negb]. rewrite (decide_False (P := Ts e' = 0)) by done.
  assert (ToLower (TrimSpace (Op e')) = Op e') as ->.
  { by destruct (op_cases _ Hop) as [->|[->|[->| ->]]]. }
  rewrite bool_decide_true by done. cbn [negb]. rewrite (decide_False (P := Bytes e' < 0)) by lia.
  destruct e' as [ts op p b]. cbn [Ts Op Path Bytes] in *. do 2 f_equal. case_decide; [|done].
  symmetry. auto.
Qed.

(** What must hold of an access for its counters to be exact; [now] is the clock. *)
Definition admissible (B now : Z) (e : Event) : Prop :=
  match normalize now e with
  | Ok e' => bytes_ok (Path e') ∧ valid (Path e') ∧ in_s 64 (Ts e') ∧ Ts e' ≠ 0 ∧ Bytes e' ≤ B
  | _ => True
  end.

Lemma admissible_good B now e e' : admissible B now e → normalize now e = Ok e' → good B e'.
Proof.
  intros Ha H. unfold admissible in Ha. rewrite H in Ha. destruct Ha as (? & ? & ? & ? & ?).
  destruct (normalize_shape _ _ _ H) as (_ & _ & _ & Hop & Hb & _).
  split; try done. by apply (normalize_idem now e).
Qed.

Lemma valid_op op : op_ok op → to_valid op = op ∧ bytes_ok op.
Proof.
  intros H. destruct (op_cases _ H) as [->|[->|[->| ->]]]; (split; [vm_compute; reflexivity|apply str_ok]).
Qed.

Lemma event_printable B e : 0 ≤ B < 2 ^ 63 → good B e → printable 1 (Event_json e).
Proof.
  intros HB [_ Hop Hp _ Ht Hb]. constructor. unfold omit.
  assert (in_s 64 (Bytes e)) by (widths; lia).
  destruct (bool_decide _); cbn [app]; repeat apply Forall_cons_2; try apply Forall_nil_2; try done;
    (split; [apply str_ok|]); constructor; try done; by apply valid_op.
Qed.

Lemma event_clean B e : good B e → clean (Event_json e) = Event_json e.
Proof.
  intros [_ Hop _ Hv _ _]. unfold Event_json, omit. unfold valid in Hv.
  destruct (bool_decide _); cbn [app clean map fst snd JInt];
    rewrite Hv, (proj1 (valid_op _ Hop)); reflexivity.
Qed.

Lemma bracketed_ends ind d l r items : items ≠ [] → ∃ s, bracketed ind d l r items = l :: s ++ [r].
Proof.
  intros H. destruct items as [|x items]; [done|]. unfold bracketed. eexists. by rewrite !app_assoc.
Qed.

Lemma event_ends e : ∃ s, Marshal (Event_json e) = 123 :: s ++ [125].
Proof. apply bracketed_ends. by destruct e. Qed.

Lemma parse_event B e :
  0 ≤ B < 2 ^ 63 → good B e → parse (Marshal (Event_json e)) = Ok (Event_json e).
Proof.
  intros HB He. unfold Marshal. rewrite <- (app_nil_r (print _ _ _)).
  rewrite (parse_print 1); [by rewrite (event_clean B)|by eapply event_printable|done|constructor].
Qed.

(** The slot an access was written to. *)
Lemma parse_slot_text B now slot e :
  0 ≤ B < 2 ^ 63 → good B e → parse_slot now (slot_text slot e) = Ok (e, true).
Proof.
  intros HB He. unfold parse_slot, slot_text. destruct (event_ends e) as [s Hs].
  rewrite (decide_False (P := _ ++ _ = [])) by (by rewrite Hs).
  rewrite TrimRightByte_zeros by done.
  rewrite TrimSpace_newline.
  - rewrite decide_False by (by rewrite Hs). rewrite (parse_event B), bind_ok by done.
    rewrite event_into, bind_ok; [by rewrite (good_normal _ _ He)|apply He|].
    pose proof (good_bytes _ _ He). widths. lia.
  - rewrite Hs. apply trimmed_between; decided.
  - by rewrite Hs.
Qed.

Lemma meta_clean m : clean (Meta_json m) = Meta_json m.
Proof. reflexivity. Qed.

Lemma all_ws_nl : all_ws [10].
Proof. by repeat constructor. Qed.

Definition meta_ok (m : Meta) : Prop :=
  Forall (in_s 64) [m_Capacity m; m_SlotSize m; Head m; Tail m; Size m].

Lemma parse_meta_text m0 m :
  meta_ok m → parse_meta m0 (MarshalIndent (Meta_json m) ++ [10]) = check_meta m.
Proof.
  unfold meta_ok. rewrite !Forall_cons. intros (? & ? & ? & ? & ? & _). unfold parse_meta, MarshalIndent.
  rewrite (parse_print 1), bind_ok; [|..|done|apply all_ws_nl].
  - rewrite meta_clean, meta_into by done. done.
  - constructor. repeat apply Forall_cons_2; try apply Forall_nil_2;
      (split; [apply str_ok|cbn [snd]; by apply p_int]).
Qed.

(** Counters. *)
Lemma counter_clean c : clean (Counter_json c) = Counter_json c.
Proof.
  unfold Counter_json, stamp_json, omit. repeat destruct (bool_decide _); reflexivity.
Qed.

Lemma counter_printable c : counter_ok c → printable 1 (Counter_json c).
Proof.
  unfold counter_ok. rewrite !Forall_cons. intros (? & ? & ? & ? & ? & ? & ? & ? & ? & ? & _).
  constructor. unfold stamp_json, omit. rewrite !Forall_app.
  split_and!; try (destruct (bool_decide _));
    repeat apply Forall_cons_2; try apply Forall_nil_2; (split; [apply str_ok|cbn [snd]; by apply p_int]).
Qed.

Definition keys_ok (m : counter_map) : Prop :=
  ∀ k c, m !! k = Some c → bytes_ok k ∧ valid k ∧ counter_ok c.

Abbreviation entries m := (omap (λ k, (λ c, (k, Counter_json c)) <$> (m : counter_map) !! k)).

Lemma entries_clean m ks :
  keys_ok m → map (λ kv : bytes * json, (to_valid kv.1, clean kv.2)) (entries m ks) = entries m ks.
Proof.
  intros Hm. induction ks as [|k ks IH]; [done|]. cbn [omap list_omap].
  destruct (m !! k) as [c|] eqn:E; cbn [fmap option_fmap option_map]; [|done].
  cbn [map fst snd]. rewrite counter_clean, (proj1 (proj2 (Hm k c E))). by rewrite IH.
Qed.

Lemma entries_into m ks m0 :
  keys_ok m →
  ∃ m1, into_fields (λ (m : counter_map) '(k, v),
            c ← into_struct Counter_field zero_counter v; mret (<[k := c]> m)) m0 (entries m ks) = Ok m1
        ∧ ∀ k, m1 !! k = if decide (k ∈ ks ∧ is_Some (m !! k)) then m !! k else m0 !! k.
Proof.
  intros Hm. revert m0. induction ks as [|k ks IH]; intros m0; cbn [omap list_omap].
  { exists m0. split; [done|]. intros k. rewrite decide_False by set_solver. done. }
  destruct (m !! k) as [c|] eqn:E; cbn [fmap option_fmap option_map].
  - cbn [into_fields]. rewrite counter_into, bind_ok by apply (Hm k c E). rewrite bind_ok.
    destruct (IH (<[k := c]> m0)) as (m1 & H1 & H2). exists m1. split; [done|].
    intros k'. rewrite H2. destruct (decide (k' = k)) as [->|Hk].
    + rewrite (decide_True (P := k ∈ k :: ks ∧ _)) by (split; [set_solver|by eexists]).
      rewrite lookup_insert_eq, E. by case_decide.
    + rewrite lookup_insert_ne by done. repeat case_decide; set_solver.
  - destruct (IH m0) as (m1 & H1 & H2). exists m1. split; [done|]. intros k'. rewrite H2.
    destruct (decide (k' = k)) as [->|Hk]; [|repeat case_decide; set_solver].
    rewrite E. rewrite !decide_False; [done|intros [_ [??]]; done..].
Qed.

Lemma parse_counters_text m :
  keys_ok m → parse_counters (MarshalIndent (counters_json m) ++ [10]) = Ok (Some m).
Proof.
  intros Hm. unfold parse_counters.
  assert (∃ s, MarshalIndent (counters_json m) = 123 :: s ++ [125]) as [s Hs].
  { unfold MarshalIndent, counters_json. cbn [print]. destruct (map _ _) eqn:E; [by exists []|].
    by apply bracketed_ends. }
  rewrite decide_False.
  2:{ rewrite Hs, TrimSpace_newline; [done|apply trimmed_between; decided|done]. }
  unfold MarshalIndent, counters_json. set (ks := SortStrings.Strings _).
  rewrite (parse_print 2), bind_ok; [|..|done|apply all_ws_nl].
  - cbn [clean]. rewrite entries_clean by done. cbn [into_counters].
    destruct (entries_into m ks ∅ Hm) as (m1 & -> & H2). rewrite bind_ok. unfold mret, res_ret.
    do 2 f_equal. apply map_eq. intros k. rewrite H2. case_decide as Hk; [done|].
    rewrite lookup_empty. destruct (m !! k) as [c|] eqn:E; [|done]. exfalso. apply Hk.
    split; [|by eexists]. unfold ks. rewrite SortStrings.Strings_perm. apply elem_of_elements.
    by apply elem_of_dom_2 in E.
  - constructor. apply Forall_forall. intros kv Hkv.
    apply list_elem_of_omap in Hkv as (k & _ & Hk). apply fmap_Some in Hk as (c & E & ->).
    destruct (Hm k c E) as (? & ? & ?). split; [done|]. by apply counter_printable.
Qed.
End Texts.
