(* ===== verification/HotnessSpec.v ===== *)
(** * HotnessSpec: the counters are those of the accesses in the ring

    [holds] ties the three files to the window of the last accesses; [Record] moves
    the window on by one, drops the oldest access when the ring is full and keeps
    every counter equal to its total over the window. *)

From S2P Require Import Prelude GoStd GoText GoFs GoFsSpec GoJson GoJsonSpec Hotness HotnessText.
Import Strings Fs Json Hotness Runes Values Codecs.
Import Texts.

(** ** Totals over a window *)
Module Tallies.

Inductive stat := Opens | Reads | Writes | Closes | ReadBytes | WrittenBytes.

Definition get (st : stat) (c : Counter) : Z :=
  match st with
  | Opens => OpenCount c | Reads => ReadCount c | Writes => WriteCount c
  | Closes => CloseCount c | ReadBytes => BytesRead c | WrittenBytes => BytesWritten c
  end.

(** What one access adds. *)
Definition amount (st : stat) (e : Event) : Z :=
  match st with
  | Opens => if decide (Op e = OpOpen) then 1 else 0
  | Reads => if decide (Op e = OpRead) then 1 else 0
  | Writes => if decide (Op e = OpWrite) then 1 else 0
  | Closes => if decide (Op e = OpClose) then 1 else 0
  | ReadBytes => if decide (Op e = OpRead) then Bytes e else 0
  | WrittenBytes => if decide (Op e = OpWrite) then Bytes e else 0
  end.

Definition share (k : bytes) (st : stat) (e : Event) : Z :=
  if decide (Path e = k) then amount st e else 0.
Fixpoint total (w : list Event) (k : bytes) (st : stat) : Z :=
  match w with [] => 0 | e :: w => share k st e + total w k st end.

(** The time stamp an access may move. *)
Definition stamp (op : bytes) (c : Counter) : Z :=
  if decide (op = OpOpen) then LastOpenTs c
  else if decide (op = OpRead) then LastReadTs c
  else if decide (op = OpWrite) then LastWriteTs c
  else LastCloseTs c.

Definition cnt (m : counter_map) (k : bytes) : Counter := default zero_counter (m !! k).

Definition sums (m : counter_map) (w : list Event) : Prop := ∀ k st, get st (cnt m k) = total w k st.
Definition stamps (m : counter_map) (w : list Event) : Prop :=
  ∀ e, e ∈ w → Ts e ≤ stamp (Op e) (cnt m (Path e)).

(** The counters of a window: exact totals, stamps no older than the accesses, and
    no entry without an access. *)
Record tallies (m : counter_map) (w : list Event) : Prop := {
  t_sums : sums m w;
  t_stamps : stamps m w;
  t_keys : keys_ok m;
  t_used : ∀ k c, m !! k = Some c → isZero c = false;
}.

Lemma total_app w v k st : total (w ++ v) k st = total w k st + total v k st.
Proof. induction w as [|e w IH]; cbn [total app]; lia. Qed.

Lemma share_range B k st e : 1 ≤ B → good B e → 0 ≤ share k st e ≤ B.
Proof.
  intros HB He. pose proof (good_bytes _ _ He). unfold share, amount.
  destruct (decide (Path e = k)); [|lia]. destruct st; case_decide; lia.
Qed.

Lemma total_range B w k st : 1 ≤ B → Forall (good B) w → 0 ≤ total w k st ≤ zlen w * B.
Proof.
  intros HB. induction 1 as [|e w He _ IH]; cbn [total]; [unfold zlen; cbn; lia|].
  pose proof (share_range B k st e HB He). rewrite zlen_cons. lia.
Qed.

(** An access counts once in the statistics of its path. *)
Lemma total_pos B w e :
  1 ≤ B → Forall (good B) w → e ∈ w → ∃ st, 0 < total w (Path e) st.
Proof.
  intros HB Hw He. assert (∃ st, amount st e = 1) as [st Hst].
  { rewrite Forall_forall in Hw. destruct (op_cases _ (good_op _ _ (Hw _ He))) as [H|[H|[H|H]]];
      [exists Opens|exists Reads|exists Writes|exists Closes]; cbn; by rewrite H. }
  exists st. apply list_elem_of_split in He as (w1 & w2 & ->).
  apply Forall_app in Hw as [Hw1 Hw2]. apply Forall_cons in Hw2 as [_ Hw2].
  rewrite total_app. cbn [total]. unfold share. rewrite decide_True, Hst by done.
  pose proof (total_range B w1 (Path e) st HB Hw1). pose proof (total_range B w2 (Path e) st HB Hw2). lia.
Qed.

Lemma isZero_get c : isZero c = true ↔ ∀ st, get st c = 0.
Proof.
  unfold isZero. rewrite !andb_true_iff, !bool_decide_eq_true. split.
  - intros (((((? & ?) & ?) & ?) & ?) & ?) []; done.
  - intros H. pose proof (H Opens). pose proof (H Reads). pose proof (H Writes).
    pose proof (H Closes). pose proof (H ReadBytes). pose proof (H WrittenBytes). tauto.
Qed.

(** One access added to or taken from a counter, when nothing overflows. *)
Lemma count_event_get c e sign st :
  op_ok (Op e) → sign = 1 ∨ sign = -1 → in_s 64 (sign * Bytes e) →
  in_s 64 (get st c + sign * amount st e) →
  get st (count_event c e sign) = get st c + sign * amount st e.
Proof.
  intros Hop Hs Hb. destruct c. unfold count_event, amount.
  destruct (op_cases _ Hop) as [H|[H|[H|H]]]; rewrite H;
    destruct st; cbn [get OpenCount ReadCount WriteCount CloseCount BytesRead BytesWritten];
    rewrite ?decide_True, ?decide_False by done; rewrite ?Z.mul_0_r, ?Z.mul_1_r, ?Z.add_0_r; intros Hr;
    unfold add64, mul64; rewrite ?(swrap_id _ (sign * Bytes e)) by (done || lia); try done;
    apply swrap_id; done || lia.
Qed.

Lemma counter_ok_get c :
  counter_ok c ↔ (∀ st, in_s 64 (get st c)) ∧ ∀ op, op_ok op → in_s 64 (stamp op c).
Proof.
  unfold counter_ok. rewrite !Forall_cons, Forall_nil. split.
  - intros (? & ? & ? & ? & ? & ? & ? & ? & ? & ? & _). split; [by intros []|].
    intros op _. unfold stamp. by repeat case_decide.
  - intros [H1 H2]. pose proof (H1 Opens). pose proof (H1 Reads). pose proof (H1 Writes).
    pose proof (H1 Closes). pose proof (H1 ReadBytes). pose proof (H1 WrittenBytes).
    pose proof (H2 OpOpen ltac:(decided)). pose proof (H2 OpRead ltac:(decided)).
    pose proof (H2 OpWrite ltac:(decided)). pose proof (H2 OpClose ltac:(decided)). done.
Qed.

Lemma newer_range sign ts last : in_s 64 ts → in_s 64 last → in_s 64 (newer sign ts last) ∧ last ≤ newer sign ts last.
Proof. intros. unfold newer. case_decide; split; (done || lia). Qed.

Lemma stamp_clamp op c : stamp op (clampCounter c) = stamp op c.
Proof. done. Qed.

(** Stamps only move forward. *)
Lemma count_event_stamp c e sign op :
  op_ok (Op e) → op_ok op →
  stamp op (count_event c e sign)
  = if decide (op = Op e) then newer sign (Ts e) (stamp op c) else stamp op c.
Proof.
  intros He Hop. destruct c, e as [ts o p b]. cbn [Op Ts] in *.
  destruct (op_cases _ He) as [->|[->|[->| ->]]], (op_cases _ Hop) as [->|[->|[->| ->]]]; reflexivity.
Qed.

Lemma newer_ge sign ts last : 0 < sign → ts ≤ newer sign ts last.
Proof. intros. unfold newer. destruct (decide _) as [|Hn]; [lia|]. apply Z.nlt_ge. tauto. Qed.

Lemma get_clamp st c : get st (clampCounter c) = clamp (get st c).
Proof. by destruct st. Qed.

Lemma cnt_ok m k : keys_ok m → counter_ok (cnt m k).
Proof.
  intros Hm. unfold cnt. destruct (m !! k) as [c|] eqn:E; [by apply (Hm k c E)|].
  repeat constructor; done.
Qed.

Lemma cnt_insert m k c k' : cnt (<[k := c]> m) k' = if decide (k' = k) then c else cnt m k'.
Proof.
  unfold cnt. case_decide as H; [subst; by rewrite lookup_insert_eq|by rewrite lookup_insert_ne].
Qed.

(** [applyEvent] moves the totals from those of [w] to those of [v]. *)
Lemma apply_tally B m w v e sign :
  1 ≤ B < 2 ^ 63 → good B e → sign = 1 ∨ sign = -1 → keys_ok m → sums m w →
  (∀ k st, total v k st = total w k st + sign * share k st e) →
  (∀ k st, 0 ≤ total v k st < 2 ^ 63) →
  ∃ m', applyEvent (Some m) e sign = Ok (Some m') ∧ keys_ok m' ∧ sums m' v
        ∧ (∀ k op, op_ok op → stamp op (cnt m k) ≤ stamp op (cnt m' k))
        ∧ (0 < sign → Ts e ≤ stamp (Op e) (cnt m' (Path e))).
Proof.
  intros HB He Hsign Hm Hs Hv Hr. eexists. split; [reflexivity|].
  change (default zero_counter (m !! Path e)) with (cnt m (Path e)).
  set (c := count_event (cnt m (Path e)) e sign).
  pose proof (cnt_ok m (Path e) Hm) as Hc. apply counter_ok_get in Hc as [Hc1 Hc2].
  pose proof (good_bytes _ _ He) as Hb.
  assert (∀ st, get st c = total v (Path e) st) as Hget.
  { intros st. pose proof (Hv (Path e) st) as Hvk. unfold share in Hvk. rewrite decide_True in Hvk by done.
    pose proof (Hr (Path e) st). rewrite <- Hs in Hvk. unfold c.
    rewrite count_event_get; [lia|apply He|done|widths; lia|widths; lia]. }
  assert (∀ op, op_ok op → in_s 64 (stamp op c) ∧ stamp op (cnt m (Path e)) ≤ stamp op c) as Hst.
  { intros op Hop. unfold c. rewrite count_event_stamp by (done || apply He). specialize (Hc2 op Hop).
    case_decide; [|by split]. apply newer_range; [apply He|done]. }
  assert (∀ st, get st (clampCounter c) = total v (Path e) st) as Hcl.
  { intros st. rewrite get_clamp, Hget. unfold clamp. pose proof (Hr (Path e) st).
    rewrite decide_False by lia. done. }
  split_and!.
  - intros k c' Hk. destruct (decide (k = Path e)) as [->|Hne].
    + rewrite lookup_insert_eq in Hk. injection Hk as <-.
      split_and!; [apply He|apply He|]. apply counter_ok_get. split.
      * intros st. rewrite Hcl. pose proof (Hr (Path e) st). widths. lia.
      * intros op Hop. rewrite stamp_clamp. by apply Hst.
    + rewrite lookup_insert_ne in Hk by done. by apply Hm in Hk.
  - intros k st. rewrite cnt_insert. case_decide as Hk; [subst; apply Hcl|].
    rewrite Hs, Hv. unfold share. rewrite decide_False by congruence. lia.
  - intros k op Hop. rewrite cnt_insert. case_decide; [subst; rewrite stamp_clamp; by apply Hst|lia].
  - rewrite cnt_insert, decide_True by done. rewrite stamp_clamp. unfold c.
    rewrite count_event_stamp, decide_True by (done || apply He). apply newer_ge.
Qed.

(** Dropping the counters without an access. *)
Lemma compact_tally B m w :
  1 ≤ B → Forall (good B) w → keys_ok m → sums m w → stamps m w → tallies (compact (Some m)) w.
Proof.
  intros HB Hw Hm Hs Hst. cbn [compact default from_option id].
  assert (∀ k, cnt (compact (Some m)) k = cnt m k
               ∨ (∀ st, get st (cnt m k) = 0) ∧ cnt (compact (Some m)) k = zero_counter) as Hcnt.
  { intros k. unfold cnt, compact. cbn [default from_option id]. set (flt := filter _ m).
    destruct (m !! k) as [c|] eqn:E; cbn; [destruct (isZero c) eqn:Hz|].
    - right. split; [by apply isZero_get|]. assert (flt !! k = None) as ->; [|done].
      apply map_lookup_filter_None. right. intros c' Hc'. by simplify_eq/=; rewrite Hz.
    - left. assert (flt !! k = Some c) as ->; [|done]. by apply map_lookup_filter_Some.
    - left. assert (flt !! k = None) as ->; [|done]. apply map_lookup_filter_None. by left. }
  split.
  - intros k st. rewrite <- Hs. destruct (Hcnt k) as [->|[H0 ->]]; [done|]. rewrite H0. by destruct st.
  - intros e He. destruct (Hcnt (Path e)) as [->|[H0 _]]; [by apply Hst|].
    destruct (total_pos B w e HB Hw He) as [st Hpos]. rewrite <- Hs, H0 in Hpos. lia.
  - intros k c Hk. unfold compact in Hk. apply map_lookup_filter_Some in Hk as [Hk _]. by apply Hm.
  - intros k c Hk. unfold compact in Hk. by apply map_lookup_filter_Some in Hk as [_ Hk].
Qed.
End Tallies.
Import Tallies.

(** ** The slots of the ring *)
Module Ring.

Definition fits (slot : Z) (e : Event) : Prop := zlen (Marshal (Event_json e)) + 1 ≤ slot.
#[global] Instance fits_dec slot e : Decision (fits slot e).
Proof. unfold fits. apply _. Defined.

Lemma zlen_slot_text slot e : fits slot e → zlen (slot_text slot e) = slot.
Proof. intros H. unfold fits in H. unfold slot_text. zl. Qed.

(** After [n] accesses the window holds the last ones; the access number [i] is in
    slot [i mod cap]. *)
Definition slots (cap slot : Z) (d : bytes) (n : Z) (w : list Event) : Prop :=
  ∀ i e, w !! i = Some e →
    sub d (((n - zlen w + Z.of_nat i) `mod` cap) * slot) slot = slot_text slot e.

Lemma put_read_above f off p lo n :
  0 ≤ off → off + zlen p ≤ lo → off + zlen p ≤ zlen f → sub (OsFile.put f off p) lo n = sub f lo n.
Proof.
  intros H0 Hlo Hf. unfold OsFile.put. replace (zeros _) with (@nil Z).
  2:{ unfold zeros. replace (Z.to_nat _) with 0%nat by lia. done. }
  rewrite app_nil_r. unfold splice, sub. f_equal.
  pose proof (zlen_nonneg p) as Hp. unfold zlen in *.
  rewrite !drop_app, drop_ge by (rewrite length_take; lia).
  rewrite (drop_ge p) by (rewrite length_take; lia). cbn [app].
  rewrite drop_drop, length_take. f_equal. lia.
Qed.

Section ring.
Context (cap slot : Z) (Hcap : 0 < cap) (Hslot : 0 < slot).

Lemma slot_inside n : 0 ≤ (n `mod` cap) * slot ∧ (n `mod` cap) * slot + slot ≤ cap * slot.
Proof. pose proof (Z.mod_pos_bound n cap Hcap). nia. Qed.

Lemma slots_resize d n w :
  Forall (fits slot) w → slots cap slot d n w →
  slots cap slot (sub (d ++ zeros (cap * slot - zlen d)) 0 (cap * slot)) n w.
Proof.
  intros Hf Hs i e Hi. specialize (Hs i e Hi). rewrite Forall_forall in Hf.
  pose proof (zlen_slot_text slot e (Hf e ltac:(by eapply list_elem_of_lookup_2))) as Hl.
  pose proof (slot_inside (n - zlen w + Z.of_nat i)) as [H0 H1].
  rewrite <- Hs in Hl. rewrite zlen_sub in Hl by done.
  rewrite sub_sub, Z.add_0_l by lia. rewrite sub_app_l by lia. done.
Qed.

Lemma zlen_resized d : zlen (sub (d ++ zeros (cap * slot - zlen d)) 0 (cap * slot)) = cap * slot.
Proof. rewrite zlen_sub by lia. zl. Qed.

Lemma slots_tail d n e w : slots cap slot d n (e :: w) → slots cap slot d n w.
Proof.
  intros Hs i e' Hi. rewrite <- (Hs (S i) e' Hi). rewrite zlen_cons. do 3 f_equal. lia.
Qed.

(** The oldest access of a full ring is in the slot that is written next. *)
Lemma slots_oldest d n e w :
  slots cap slot d n (e :: w) → zlen (e :: w) = cap →
  sub d ((n `mod` cap) * slot) slot = slot_text slot e.
Proof.
  intros Hs Hl. rewrite <- (Hs 0%nat e eq_refl). rewrite Hl. do 2 f_equal.
  replace (n - cap + Z.of_nat 0) with (n + (-1) * cap) by lia. by rewrite Z.mod_add by lia.
Qed.

Lemma other_slot n k : 0 < k < cap → (n - k) `mod` cap ≠ n `mod` cap.
Proof.
  intros Hk H. pose proof (Z.div_mod n cap ltac:(lia)). pose proof (Z.div_mod (n - k) cap ltac:(lia)).
  assert (k = cap * (n `div` cap - (n - k) `div` cap)) as Hd by lia.
  assert (0 < n `div` cap - (n - k) `div` cap) by nia. nia.
Qed.

(** Writing the next access keeps the others. *)
Lemma slots_write d n v e :
  zlen d = cap * slot → zlen v < cap → fits slot e → slots cap slot d n v →
  slots cap slot (OsFile.put d ((n `mod` cap) * slot) (slot_text slot e)) (n + 1) (v ++ [e]).
Proof.
  intros Hd Hv He Hs i e' Hi. pose proof (zlen_slot_text slot e He) as Hl.
  pose proof (slot_inside n) as [H0 H1]. rewrite zlen_app. change (zlen [e]) with 1.
  apply lookup_app_Some in Hi as [Hi|[Hge Hi]].
  - pose proof (lookup_lt_Some _ _ _ Hi) as Hlt. rewrite <- (Hs i e' Hi).
    replace (n + 1 - (zlen v + 1) + Z.of_nat i) with (n - (zlen v - Z.of_nat i)) by lia.
    replace (n - zlen v + Z.of_nat i) with (n - (zlen v - Z.of_nat i)) by lia.
    set (k := zlen v - Z.of_nat i). assert (0 < k < cap) as Hk by (unfold k, zlen in *; lia).
    pose proof (other_slot n k Hk). pose proof (slot_inside (n - k)) as [H2 H3].
    destruct (decide ((n - k) `mod` cap < n `mod` cap)).
    + apply OsFile.put_read_below; nia.
    + apply put_read_above; rewrite ?Hl; nia.
  - apply list_lookup_singleton_Some in Hi as [Hi <-].
    replace (n + 1 - (zlen v + 1) + Z.of_nat i) with n by (unfold zlen; lia).
    pose proof (OsFile.put_read_same d _ (slot_text slot e) H0) as Hp. by rewrite Hl in Hp.
Qed.
End ring.
End Ring.
