(* ===== verification/HotnessClaims.v ===== *)
(** * HotnessClaims: what the access log promises

    [holds] is the invariant of the files under the root of a store; [Record] keeps
    it, and so the counters a reader loads are the totals over the last accesses. *)

From S2P Require Import Prelude GoStd GoText GoFs GoFsSpec GoJson GoJsonSpec.
From S2P Require Import Hotness HotnessText HotnessSpec.
Import Strings Fs Json Hotness Texts Tallies Ring.

(** ** The files under the root *)
Module RootFiles.
Section root.
Context (s : Store).

Definition look (f : fs) (x : bytes) : option node := node_at f (Root s ++ [x]).
Definition in_root (f : fs) : Prop := nofile f (Root s) ∧ node_at f (Root s) = Some Dir.

Definition lock_name : bytes := str "hotness.lock".
Definition meta_name : bytes := str "ring.meta.json".
Definition counters_name : bytes := str "raw_counters.json".
Definition ring_name : bytes := str "ring.dat".

Lemma lockPath_eq : lockPath s = Root s ++ [lock_name].
Proof. apply Join_plain. decided. Qed.
Lemma metaPath_eq : metaPath s = Root s ++ [meta_name].
Proof. apply Join_plain. decided. Qed.
Lemma countersPath_eq : countersPath s = Root s ++ [counters_name].
Proof. apply Join_plain. decided. Qed.
Lemma ringPath_eq : ringPath s = Root s ++ [ring_name].
Proof. apply Join_plain. decided. Qed.

Lemma file_nonempty x : Root s ++ [x] ≠ [].
Proof. by destruct (Root s). Qed.

Lemma not_prefix x : ¬ (Root s ++ [x]) `prefix_of` Root s.
Proof. intros H%prefix_length. rewrite length_app in H. cbn in H. lia. Qed.

Lemma look_nodes f f' x : nodes f' = nodes f → look f' x = look f x.
Proof. apply node_at_nodes. Qed.
Lemma in_root_nodes f f' : nodes f' = nodes f → in_root f → in_root f'.
Proof.
  intros Hf [H1 H2]. split; [|by rewrite (node_at_nodes _ _ _ Hf)].
  intros q Hq. rewrite (node_at_nodes _ _ _ Hf). by apply H1.
Qed.

Lemma look_added f f' x : dirs_added f f' (Root s) → look f' x = look f x.
Proof. intros H. destruct (H (Root s ++ [x])) as [|(Hp & _)]; [done|]. by apply not_prefix in Hp. Qed.

Lemma look_upd f x n f' y :
  upd f (Root s ++ [x]) n f' → look f' y = if decide (y = x) then Some n else look f y.
Proof.
  intros H. unfold look. rewrite H. case_decide as H1; case_decide as H2; try done.
  - exfalso. apply H2. by apply app_inj_tail in H1 as [_ ->].
  - by subst.
Qed.
Lemma in_root_upd f x n f' : upd f (Root s ++ [x]) n f' → in_root f → in_root f'.
Proof.
  intros H [H1 H2]. assert (∀ q, q `prefix_of` Root s → node_at f' q = node_at f q) as Hq.
  { intros q Hq. eapply upd_other; [done|]. intros ->. by apply not_prefix in Hq. }
  split; [|by rewrite Hq]. intros q Hp. rewrite Hq by done. by apply H1.
Qed.

(** Reading a file that may be missing. *)
Lemma wp_read_if_exists f x (Q : fs → option bytes → Prop) (E : fs → Prop) :
  nofile f (Root s) → look f x ≠ Some Dir →
  (∀ f', nodes f' = nodes f → Q f' (match look f x with Some (File d) => Some d | _ => None end)) →
  (∀ f', nodes f' = nodes f → E f') →
  wp (read_if_exists (Root s ++ [x])) Q E f.
Proof. intros. apply wp_read_optional; [by rewrite DirOf_snoc|done..]. Qed.

(** [writeJSONAtomic] to a file of the root. *)
Lemma wp_writeJSONAtomic f x v (Q : fs → unit → Prop) (E : fs → Prop) :
  in_root f → look f x ≠ Some Dir →
  (∀ f', in_root f' → (∀ y, look f' y = if decide (y = x) then Some (File (MarshalIndent v ++ [10]))
                                    else look f y) → Q f' tt) →
  (∀ f', E f') → wp (writeJSONAtomic (Root s ++ [x]) v) Q E f.
Proof.
  intros [Hn Hdir] Hd HQ HE. unfold writeJSONAtomic. rewrite DirOf_snoc.
  apply wp_bind, wp_MkdirAll_over; [done| |auto]. intros f1 Ha H1.
  apply wp_bind, (wp_CreateTemp _ f1 f1); [done|done| |auto]. intros f2 Hf2.
  do 3 (apply wp_bind, (wp_syscall_from _ f1); [done| |auto]; clear f2 Hf2; intros f2 Hf2).
  apply (wp_Rename _ _ _ f1); [done|apply file_nonempty| | |auto].
  - fold (look f1 x). by rewrite (look_added _ _ _ Ha).
  - intros f3 Hu. apply HQ.
    + eapply in_root_upd; [done|]. split; [by eapply nofile_added|done].
    + intros y. rewrite (look_upd _ _ _ _ _ Hu). case_decide; [done|]. by apply look_added.
Qed.

(** [f'] has the files of [f], the lock apart. *)
Definition kept (f f' : fs) : Prop :=
  in_root f' ∧ look f' lock_name ≠ Some Dir ∧ ∀ y, y ≠ lock_name → look f' y = look f y.

Lemma wp_lock f (E : fs → Prop) :
  nofile f (Root s) → look f lock_name ≠ Some Dir → (∀ f', E f') →
  wp (lock s) (λ f' _, kept f f') E f.
Proof.
  intros Hn Hl HE. unfold lock. rewrite lockPath_eq.
  apply wp_bind, wp_MkdirAll_over; [done| |auto]. intros f1 Ha H1.
  assert (look f1 lock_name = look f lock_name) as El by (by apply look_added).
  apply wp_bind, wp_OpenCreate; [apply file_nonempty|by rewrite DirOf_snoc|by fold (look f1 lock_name); rewrite El| |auto].
  fold (look f1 lock_name). intros f2 Hu. apply wp_syscall; [|auto]. intros f3 Hf3.
  split_and!.
  - eapply in_root_nodes; [done|]. eapply in_root_upd; [done|]. split; [by eapply nofile_added|done].
  - rewrite (look_nodes _ _ _ Hf3), (look_upd _ _ _ _ _ Hu), decide_True, El by done.
    destruct (look f lock_name) as [[]|]; done.
  - intros y Hy. rewrite (look_nodes _ _ _ Hf3), (look_upd _ _ _ _ _ Hu), decide_False by done.
    by apply look_added.
Qed.
End root.
End RootFiles.
Import RootFiles.

(** ** The invariant *)
Module Window.
Section window.
Context (s : Store) (B : Z).

(** Sizes for which no offset and no total overflows. *)
Definition sized : Prop :=
  0 < Capacity s ∧ 0 < SlotSize s ∧ Capacity s * SlotSize s < 2 ^ 63
  ∧ 1 ≤ B ∧ Capacity s * B < 2 ^ 63.

(** The position after [n] accesses. *)
Definition meta_at (n : Z) : Meta :=
  MkMeta (Capacity s) (SlotSize s) (n `mod` Capacity s)
    (Z.max 0 (n - Capacity s) `mod` Capacity s) (Z.min n (Capacity s)).

Definition default_meta : Meta := MkMeta (Capacity s) (SlotSize s) 0 0 0.

(** [n] accesses were recorded, [w] are the last of them. *)
Record holds (f : fs) (n : Z) (w : list Event) : Prop := Holds {
  h_root : nofile f (Root s);
  h_lock : look s f lock_name ≠ Some Dir;
  h_n : 0 ≤ n;
  h_len : zlen w = Z.min n (Capacity s);
  h_good : Forall (good B) w;
  h_fits : Forall (fits (SlotSize s)) w;
  h_meta :
    match look s f meta_name with
    | None => n = 0
    | Some (File d) => parse_meta default_meta d = Ok (meta_at n)
    | Some Dir => False
    end;
  h_counters :
    match look s f counters_name with
    | None => w = []
    | Some (File d) => ∃ m, parse_counters d = Ok (Some m) ∧ tallies m w
    | Some Dir => False
    end;
  h_ring :
    match look s f ring_name with
    | None => n = 0
    | Some (File d) => slots (Capacity s) (SlotSize s) d n w
    | Some Dir => False
    end;
}.

Lemma holds_kept f f' n w : holds f n w → kept s f f' → holds f' n w.
Proof.
  intros [H1 H2 H3 H4 H5 H6 H7 H8 H9] ([Hr _] & Hl & Hk).
  split; try done; rewrite Hk by decided; done.
Qed.

Lemma holds_ring f f' n w d :
  holds f n w → in_root s f' → slots (Capacity s) (SlotSize s) d n w →
  (∀ y, look s f' y = if decide (y = ring_name) then Some (File d) else look s f y) →
  holds f' n w.
Proof.
  intros [H1 H2 H3 H4 H5 H6 H7 H8 H9] [Hr _] Hd Hl.
  split; try done; rewrite Hl; [by rewrite decide_False by decided..|by rewrite decide_True].
Qed.

(** An empty disk. *)
Lemma holds_empty fl : sized → holds (MkFs ∅ fl) 0 [].
Proof.
  intros Hs. assert (∀ x, look s (MkFs ∅ fl) x = None) as Hn.
  { intros x. unfold look. pose proof (file_nonempty s x). destruct (Root s ++ [x]); [done|]. apply lookup_empty. }
  split; rewrite ?Hn; try done; [|unfold sized in Hs; change (zlen (@nil Event)) with 0; lia].
  intros [|c q] _; [done|]. cbn. by rewrite lookup_empty.
Qed.

Hypothesis Hsized : sized.

(** What the files load as. *)
Definition reads_as (m : counter_map) (o : option node) (w : list Event) : Prop :=
  tallies m w ∧ match o with Some (File d) => parse_counters d = Ok (Some m) | _ => m = ∅ end.

Lemma tallies_empty : tallies ∅ [].
Proof.
  split; [intros k []; reflexivity|intros e He; set_solver|intros k c Hk|intros k c Hk]; by rewrite lookup_empty in Hk.
Qed.

Lemma holds_counters f n w : holds f n w → ∃ m, reads_as m (look s f counters_name) w.
Proof.
  intros H. pose proof (h_counters _ _ _ H) as Hc. unfold reads_as.
  destruct (look s f counters_name) as [[d|]|]; [|done|subst; exists ∅; split; [apply tallies_empty|done]].
  destruct Hc as (m & ? & ?). by exists m.
Qed.

Lemma wp_loadMeta f n w (E : fs → Prop) :
  holds f n w → (∀ f', E f') →
  wp (loadMeta s) (λ f' meta, nodes f' = nodes f ∧ meta = meta_at n) E f.
Proof.
  intros H HE. unfold loadMeta. rewrite metaPath_eq. pose proof (h_meta _ _ _ H) as Hm.
  apply wp_bind, wp_read_if_exists; [apply H|by destruct (look s f meta_name) as [[]|]| |auto].
  intros f' Hf. destruct (look s f meta_name) as [[d|]|]; [|done|].
  - by apply (wp_lift _ (meta_at n)).
  - apply wp_ret. split; [done|]. subst n. unfold meta_at.
    destruct Hsized as (? & ? & _). rewrite Z.mod_0_l by lia.
    replace (Z.max 0 (0 - Capacity s)) with 0 by lia. rewrite Z.mod_0_l by lia.
    f_equal. lia.
Qed.

Lemma wp_loadCounters f n w m (E : fs → Prop) :
  holds f n w → reads_as m (look s f counters_name) w → (∀ f', E f') →
  wp (loadCounters s) (λ f' c, nodes f' = nodes f ∧ c = Some m) E f.
Proof.
  intros H [_ Hm] HE. unfold loadCounters. rewrite countersPath_eq.
  pose proof (h_counters _ _ _ H) as Hc.
  apply wp_bind, wp_read_if_exists; [apply H|by destruct (look s f counters_name) as [[]|]| |auto].
  intros f' Hf. destruct (look s f counters_name) as [[d|]|]; [|done|].
  - by apply (wp_lift _ (Some m)).
  - apply wp_ret. by subst.
Qed.

(** The accesses that stay when one more comes. *)
Definition stay (w : list Event) : list Event := if decide (zlen w = Capacity s) then tail w else w.

Lemma total_bound w k st :
  Forall (good B) w → zlen w ≤ Capacity s → 0 ≤ total w k st < 2 ^ 63.
Proof.
  intros Hw Hl. destruct Hsized as (? & _ & _ & ? & ?).
  pose proof (total_range B w k st ltac:(lia) Hw). nia.
Qed.

(** The ring as [Record] finds it once it is open. *)
Record open_ring (f : fs) (n : Z) (w : list Event) (d : bytes) : Prop := OpenRing {
  or_holds : holds f n w;
  or_root : in_root s f;
  or_look : look s f ring_name = Some (File d);
  or_len : zlen d = Capacity s * SlotSize s;
  or_slots : slots (Capacity s) (SlotSize s) d n w;
}.

Lemma open_ring_nodes f f' n w d : nodes f' = nodes f → open_ring f n w d → open_ring f' n w d.
Proof.
  intros Hf [H1 H2 H3 H4 H5].
  assert (in_root s f') as Hr by (by eapply in_root_nodes).
  split; [|done|by rewrite (look_nodes _ _ _ _ Hf)|done|done].
  eapply holds_kept; [done|]. split_and!; [done| |].
  - rewrite (look_nodes _ _ _ _ Hf). apply H1.
  - intros y _. by apply look_nodes.
Qed.

Definition room (n : Z) (meta : Meta) : Prop :=
  m_Capacity meta = Capacity s ∧ m_SlotSize meta = SlotSize s ∧ Head meta = n `mod` Capacity s
  ∧ Tail meta = Tail (meta_at (n + 1)) ∧ Size meta = Size (meta_at (n + 1)).

Lemma evict_full_tail n :
  Capacity s ≤ n →
  go_rem (add64 (Tail (meta_at n)) 1) (Capacity s) = Ok (Tail (meta_at (n + 1))).
Proof.
  intros Hn. destruct Hsized as (Hc & ? & Hb & _). unfold go_rem, meta_at. cbn [Tail].
  rewrite decide_False by lia.
  pose proof (Z.mod_pos_bound (Z.max 0 (n - Capacity s)) (Capacity s) Hc).
  unfold add64. rewrite swrap_id by (widths; nia || lia). rewrite Z.rem_mod_nonneg by lia.
  rewrite Z.add_mod_idemp_l by lia. do 2 f_equal. lia.
Qed.

Lemma wp_evict now f n w d m (E : fs → Prop) :
  open_ring f n w d → tallies m w → (∀ f', E f') →
  wp (evict now s (meta_at n) (Some m))
    (λ f' '(meta, c), nodes f' = nodes f ∧ room n meta
       ∧ ∃ m', c = Some m' ∧ keys_ok m' ∧ sums m' (stay w) ∧ stamps m' (stay w)) E f.
Proof.
  intros Ho [Hsum Hst Hk _] HE. pose proof Hsized as (Hc & Hs & Hb & HB & HBc).
  destruct Ho as [H Hroot Hlook Hlen Hslots]. pose proof (h_len _ _ _ H) as Hl.
  pose proof (h_n _ _ _ H) as Hn. unfold evict, stay.
  destruct (decide (Size (meta_at n) = m_Capacity (meta_at n))) as [Hfull|Hfull]; cbn [meta_at Size m_Capacity] in Hfull.
  - rewrite decide_True by lia. destruct w as [|e w]; [change (zlen (@nil Event)) with 0 in Hl; lia|].
    cbn [tail]. pose proof (h_good _ _ _ H) as Hg. apply Forall_cons in Hg as [He Hg].
    pose proof (slot_inside (Capacity s) (SlotSize s) Hc Hs n) as [Ha Hz].
    apply wp_bind. unfold readSlot. cbn [meta_at Head m_SlotSize]. rewrite decide_False by lia.
    apply wp_bind. rewrite ringPath_eq.
    assert (mul64 (n `mod` Capacity s) (SlotSize s) = (n `mod` Capacity s) * SlotSize s) as ->.
    { unfold mul64. apply swrap_id; [lia|]. widths. nia. }
    eapply wp_ReadAt; [exact Hlook| |auto]. intros f1 Hf1.
    rewrite OsFile.ReadAt_full by lia. rewrite (slots_oldest _ _ Hc _ _ _ _ Hslots) by lia.
    eapply wp_lift; [apply (parse_slot_text B); [nia|done]|].
    destruct (apply_tally B m (e :: w) w e (-1)) as (m' & -> & Hk' & Hs' & Hst' & _); try done.
    { nia. } { by right. }
    { intros k st. cbn [total]. lia. }
    { intros k st. apply total_bound; [done|]. rewrite zlen_cons in Hl. lia. }
    apply wp_bind. eapply wp_lift; [done|]. apply wp_bind. cbn [m_Capacity].
    eapply wp_lift; [apply evict_full_tail; lia|]. apply wp_ret. split; [done|]. split.
    + unfold room. cbn. split_and!; try done. lia.
    + exists m'. split_and!; try done. intros e' He'. etransitivity; [apply Hst; set_solver|].
      apply Hst'. rewrite Forall_forall in Hg. by apply Hg.
  - rewrite decide_False by lia. apply wp_ret. split; [done|]. split; [|by exists m].
    unfold room, meta_at. cbn. split_and!; try done.
    + f_equal. lia.
    + unfold add64. rewrite swrap_id by (widths; nia || lia). lia.
Qed.

Definition prepared (n : Z) (w : list Event) (f : fs) (mc : Meta * option counter_map) : Prop :=
  ∃ d m, open_ring f n w d ∧ room n mc.1 ∧ mc.2 = Some m ∧ keys_ok m
         ∧ sums m (stay w) ∧ stamps m (stay w).

(** Opening the ring at its full size. *)
Lemma wp_open_ring now f n w m (E : fs → Prop) :
  holds f n w → in_root s f → tallies m w → (∀ f', E f') →
  wp (OpenCreate (ringPath s) ;;
      Truncate (ringPath s) (mul64 (Capacity s) (SlotSize s)) ;;
      evict now s (meta_at n) (Some m)) (prepared n w) E f.
Proof.
  intros H Hr Hm HE. pose proof Hsized as (Hc & Hs & Hb & _).
  pose proof (h_ring _ _ _ H) as Hring. apply wp_bind. rewrite ringPath_eq.
  apply wp_OpenCreate; [apply file_nonempty|rewrite DirOf_snoc; apply Hr| | |auto].
  { fold (look s f ring_name). by destruct (look s f ring_name) as [[]|]. }
  fold (look s f ring_name). intros f1 Hu1.
  set (d0 := match look s f ring_name with Some (File d) => d | _ => [] end).
  assert (slots (Capacity s) (SlotSize s) d0 n w) as Hd0.
  { unfold d0. destruct (look s f ring_name) as [[]|]; [done|done|]. intros i e Hi.
    apply lookup_lt_Some in Hi. pose proof (h_len _ _ _ H). unfold zlen in *. lia. }
  assert (upd f (Root s ++ [ring_name]) (File d0) f1) as Hu.
  { unfold d0. by destruct (look s f ring_name) as [[]|]. }
  assert (mul64 (Capacity s) (SlotSize s) = Capacity s * SlotSize s) as ->.
  { unfold mul64. apply swrap_id; [lia|]. widths. nia. }
  apply wp_bind. eapply wp_Truncate; [apply file_nonempty|by eapply upd_same|nia| |auto].
  set (d := sub _ _ _). intros f2 Hu2.
  assert (in_root s f2) as Hr2 by (by eapply in_root_upd, in_root_upd).
  assert (slots (Capacity s) (SlotSize s) d n w) as Hd by (apply slots_resize; [done..|apply H|done]).
  assert (open_ring f2 n w d) as Ho2.
  { split; [|done|by eapply upd_same|by apply zlen_resized|done].
    eapply (holds_ring f); [done..|]. intros y. rewrite (look_upd _ _ _ _ _ _ Hu2).
    case_decide; [done|]. by rewrite (look_upd _ _ _ _ _ _ Hu), decide_False by done. }
  eapply wp_mono; [by apply (wp_evict now f2 n w d m)| |done].
  cbv beta. intros f3 [meta c] (Hf3 & Hroom & m' & ? & ?). exists d, m'. split; [|done].
  by eapply open_ring_nodes.
Qed.

Lemma kept_nodes f f' : nodes f' = nodes f → in_root s f → look s f lock_name ≠ Some Dir → kept s f f'.
Proof.
  intros Hf Hr Hl. split_and!; [by eapply in_root_nodes|by rewrite (look_nodes _ _ _ _ Hf)|].
  intros; by apply look_nodes.
Qed.

Lemma wp_prepare now f n w (E : fs → Prop) :
  holds f n w → (∀ f', E f') → wp (prepare now s) (prepared n w) E f.
Proof.
  intros H HE. unfold prepare.
  apply wp_bind, wp_MkdirAll_over; [apply H| |auto]. intros f1 Ha _.
  apply wp_bind. eapply wp_mono; [apply (wp_lock s f1 E)| |done]; [|..|exact HE|].
  { by eapply nofile_added, H. }
  { rewrite (look_added _ _ _ _ Ha). apply H. }
  cbv beta. intros f2 _ (Hr2 & Hl2 & Hy2).
  assert (holds f2 n w) as H2.
  { eapply holds_kept; [exact H|]. split_and!; [done..|].
    intros y Hne. rewrite Hy2 by done. by apply look_added. }
  destruct (holds_counters f2 n w H2) as [m Hm].
  apply wp_bind. eapply wp_mono; [by apply (wp_loadMeta f2 n w)| |done]. cbv beta. intros f3 meta [Hf3 ->].
  assert (holds f3 n w) as H3 by (eapply holds_kept; [exact H2|by apply kept_nodes]).
  apply wp_bind. eapply wp_mono; [apply (wp_loadCounters f3 n w m)| |done]; [done|..|done|].
  { by rewrite (look_nodes _ _ _ _ Hf3). }
  cbv beta. intros f4 c [Hf4 ->]. assert (nodes f4 = nodes f2) as Hf42 by congruence.
  change (m_Capacity (meta_at n)) with (Capacity s). change (m_SlotSize (meta_at n)) with (SlotSize s).
  apply wp_open_ring; [eapply holds_kept; [exact H2|by apply kept_nodes]|by eapply in_root_nodes|apply Hm|done].
Qed.

(** What stays of a window. *)
Lemma stay_facts f n w d :
  holds f n w → slots (Capacity s) (SlotSize s) d n w →
  zlen (stay w) < Capacity s ∧ zlen (stay w) + 1 = Z.min (n + 1) (Capacity s)
  ∧ Forall (good B) (stay w) ∧ Forall (fits (SlotSize s)) (stay w)
  ∧ slots (Capacity s) (SlotSize s) d n (stay w).
Proof.
  intros H Hs. pose proof Hsized as (Hc & _). pose proof (h_len _ _ _ H) as Hl. pose proof (h_n _ _ _ H).
  pose proof (h_good _ _ _ H) as Hg. pose proof (h_fits _ _ _ H) as Hf. unfold stay. case_decide as Hd.
  - destruct w as [|x w]; [change (zlen (@nil Event)) with 0 in *; lia|]. cbn [tail].
    rewrite zlen_cons in *. apply Forall_cons in Hg as [_ Hg]. apply Forall_cons in Hf as [_ Hf].
    split_and!; [lia|lia|done|done|by eapply slots_tail].
  - split_and!; [lia|lia|done..].
Qed.

Lemma meta_at_ok n : 0 ≤ n → meta_ok (meta_at n) ∧ check_meta (meta_at n) = Ok (meta_at n).
Proof.
  intros Hn. pose proof Hsized as (Hc & Hs & Hb & _).
  pose proof (Z.mod_pos_bound n (Capacity s) Hc).
  pose proof (Z.mod_pos_bound (Z.max 0 (n - Capacity s)) (Capacity s) Hc). split.
  - unfold meta_ok. repeat apply Forall_cons_2; [..|apply Forall_nil_2]; cbn; widths; nia.
  - unfold check_meta. cbn [meta_at m_Capacity m_SlotSize Head Tail Size].
    by rewrite !decide_False by lia.
Qed.

Lemma next_head n :
  0 ≤ n → go_rem (add64 (n `mod` Capacity s) 1) (Capacity s) = Ok ((n + 1) `mod` Capacity s).
Proof.
  intros Hn. pose proof Hsized as (Hc & Hs & Hb & _). pose proof (Z.mod_pos_bound n (Capacity s) Hc).
  unfold go_rem. rewrite decide_False by lia. unfold add64. rewrite swrap_id by (widths; nia || lia).
  rewrite Z.rem_mod_nonneg by lia. by rewrite Z.add_mod_idemp_l by lia.
Qed.

(** The counters with the new access in. *)
Lemma apply_new m w e :
  good B e → keys_ok m → Forall (good B) w → zlen w < Capacity s → sums m w → stamps m w →
  ∃ m', applyEvent (Some m) e 1 = Ok (Some m') ∧ tallies (compact (Some m')) (w ++ [e]).
Proof.
  intros He Hk Hw Hl Hs Hst. pose proof Hsized as (Hc & _ & _ & HB & HBc).
  assert (Forall (good B) (w ++ [e])) as Hw' by (apply Forall_app_2; [done|by apply Forall_singleton]).
  destruct (apply_tally B m w (w ++ [e]) e 1) as (m' & Ha & Hk' & Hs' & Hst' & Hnew); try done.
  { nia. } { by left. }
  { intros k st. rewrite total_app. cbn [total]. lia. }
  { intros k st. apply total_bound; [done|]. rewrite zlen_app. change (zlen [e]) with 1. lia. }
  exists m'. split; [done|]. apply (compact_tally B); try done.
  intros e' He'. apply elem_of_app in He' as [He'| ->%list_elem_of_singleton]; [|by apply Hnew].
  etransitivity; [by apply Hst|]. apply Hst'. rewrite Forall_forall in Hw. by apply Hw.
Qed.

(** [Record] of an access that fits its slot. *)
Lemma wp_record now f n w e e' (E : fs → Prop) :
  holds f n w → normalize now e = Ok e' → good B e' → fits (SlotSize s) e' → (∀ f', E f') →
  wp (Record_ now s e) (λ f' _, holds f' (n + 1) (stay w ++ [e'])) E f.
Proof.
  intros H Hn He Hf HE. pose proof Hsized as (Hc & Hs & Hb & HB & HBc). pose proof (h_n _ _ _ H) as Hn0.
  unfold Record_. apply wp_bind. eapply wp_lift; [done|]. apply wp_bind.
  eapply wp_mono; [by apply (wp_prepare now f n w)| |done]. cbv beta. intros f1 [meta c].
  intros (d & m & Ho & (E1 & E2 & E3 & E4 & E5) & Hcm & Hk & Hsum & Hst). cbn [fst snd] in *. subst c.
  destruct meta as [c0 s0 hd tl sz]. cbn [m_Capacity m_SlotSize Head Tail Size] in *. subst.
  destruct Ho as [H1 Hr1 Hl1 Hlen Hsl].
  destruct (stay_facts _ _ _ _ H Hsl) as (Hlt & Hlen' & Hg & Hft & Hsl').
  destruct (apply_new m (stay w) e') as (m' & Ha & Ht); [done..|].
  pose proof (slot_inside (Capacity s) (SlotSize s) Hc Hs n) as [Hlo Hhi].
  apply wp_bind. unfold writeSlot. rewrite decide_False by (unfold fits in Hf; lia).
  assert (mul64 (n `mod` Capacity s) (SlotSize s) = n `mod` Capacity s * SlotSize s) as ->.
  { unfold mul64. apply swrap_id; [lia|]. widths. nia. }
  rewrite ringPath_eq. eapply wp_WriteAt; [apply file_nonempty|exact Hl1|lia| |auto]. intros f2 Hu2.
  assert (in_root s f2) as Hr2 by (by eapply in_root_upd).
  apply wp_bind. eapply wp_lift; [exact Ha|].
  apply wp_bind. eapply wp_lift; [by apply next_head|]. unfold saveCounters, saveMeta.
  rewrite countersPath_eq, metaPath_eq. pose proof (h_counters _ _ _ H1). pose proof (h_meta _ _ _ H1).
  apply wp_bind, wp_writeJSONAtomic; [done| | |done].
  { rewrite (look_upd _ _ _ _ _ _ Hu2), decide_False by decided.
    by destruct (look s f1 counters_name) as [[]|]. }
  intros f3 Hr3 Hl3. apply wp_writeJSONAtomic; [done| | |done].
  { rewrite Hl3, decide_False by decided. rewrite (look_upd _ _ _ _ _ _ Hu2), decide_False by decided.
    by destruct (look s f1 meta_name) as [[]|]. }
  intros f4 Hr4 Hl4. destruct (meta_at_ok (n + 1)) as [Hok Hchk]; [lia|].
  split; [apply Hr4|..|lia|rewrite zlen_app; exact Hlen'| | | | |].
  - rewrite Hl4, decide_False, Hl3, decide_False by decided.
    rewrite (look_upd _ _ _ _ _ _ Hu2), decide_False by decided. apply H1.
  - apply Forall_app_2; [done|by apply Forall_singleton].
  - apply Forall_app_2; [done|by apply Forall_singleton].
  - rewrite Hl4, decide_True by done. rewrite parse_meta_text by exact Hok. exact Hchk.
  - rewrite Hl4, decide_False, Hl3, decide_True by decided. exists (compact (Some m')).
    split; [|done]. apply parse_counters_text, Ht.
  - rewrite Hl4, decide_False, Hl3, decide_False by decided. rewrite (look_upd _ _ _ _ _ _ Hu2), decide_True by done.
    by apply slots_write.
Qed.
End window.
End Window.
Import Window.

(** ** Claims *)
Module HotnessRuns.
Section runs.
Context (s : Store) (B : Z).

Definition lastn {A} (n : Z) (l : list A) : list A := drop (length l - Z.to_nat n) l.

(** The form in which an access is kept, when it is. *)
Definition accepted (call : Z * Event) : option Event :=
  match normalize call.1 call.2 with
  | Ok e => if decide (fits (SlotSize s) e) then Some e else None
  | _ => None
  end.

Fixpoint record_all (calls : list (Z * Event)) (f : fs) : fs :=
  match calls with
  | [] => f
  | (now, e) :: calls => record_all calls (Record_ now s e f).1
  end.

Lemma stay_lastn w e : 0 < Capacity s → zlen w ≤ Capacity s → stay s w ++ [e] = lastn (Capacity s) (w ++ [e]).
Proof.
  intros Hc Hl. unfold stay, lastn, zlen in *. rewrite length_app. cbn [length]. case_decide.
  - replace (length w + 1 - _)%nat with 1%nat by lia. destruct w; [cbn in *; lia|done].
  - replace (length w + 1 - _)%nat with 0%nat by lia. done.
Qed.

Lemma lastn_app {A} n (l k : list A) : lastn n (lastn n l ++ k) = lastn n (l ++ k).
Proof.
  unfold lastn. rewrite !length_app, length_drop.
  destruct (decide (Z.to_nat n ≤ length l)%nat).
  - rewrite <- (drop_app_le l k) by lia. rewrite drop_drop. f_equal. lia.
  - replace (length l - Z.to_nat n)%nat with 0%nat by lia. rewrite drop_0. f_equal. lia.
Qed.
Lemma lastn_idem {A} n (l : list A) : lastn n (lastn n l) = lastn n l.
Proof. pose proof (lastn_app n l []) as H. by rewrite !app_nil_r in H. Qed.

Lemma normalize_no_panic now e : normalize now e ≠ Panic.
Proof. unfold normalize. by repeat case_match. Qed.

(** One call, in the absence of faults. *)
Lemma record_step f n w now e :
  sized s B → holds s B f n w → faults f = [] → admissible B now e →
  ∃ f' r, Record_ now s e f = (f', r) ∧ faults f' = []
    ∧ match accepted (now, e) with
      | Some e' => r = Ok tt ∧ holds s B f' (n + 1) (lastn (Capacity s) (w ++ [e']))
      | None => (∃ err, r = Fail err) ∧ holds s B f' n w
      end.
Proof.
  intros Hs H Hq Ha. pose proof (h_len _ _ _ _ _ H) as Hl. unfold accepted. cbn [fst snd].
  destruct (normalize now e) as [e'|err|] eqn:Hn; [| |by apply normalize_no_panic in Hn].
  2:{ exists f, (Fail err). split; [|eauto]. unfold Record_, mbind, SE_bind, se_lift. by rewrite Hn. }
  assert (good B e') as He by (by eapply admissible_good). case_decide as Hf.
  - destruct (wp_run _ _ _ _ (wp_record s B Hs now f n w e e' (λ _, True) H Hn He Hf ltac:(done)) Hq)
      as (f' & [] & Hrun & Hq' & H').
    exists f', (Ok tt). split_and!; [done..|]. rewrite <- stay_lastn; [done|apply Hs|lia].
  - destruct (wp_run _ _ _ _ (wp_prepare s B Hs now f n w (λ _, True) H ltac:(done)) Hq)
      as (f' & [meta c] & Hrun & Hq' & (d & m & Ho & (E1 & E2 & _) & _)).
    exists f', (Fail (Errorf "hotness event too large for slot")).
    split; [|split_and!; [done|by eexists|apply Ho]].
    unfold Record_, mbind, SE_bind, se_lift. rewrite Hn, Hrun. unfold writeSlot. cbn [fst] in E2.
    rewrite E2, decide_True by (unfold fits in Hf; lia). done.
Qed.

Lemma record_all_holds calls f n w :
  sized s B → holds s B f n w → faults f = [] → w = lastn (Capacity s) w →
  Forall (λ c, admissible B c.1 c.2) calls →
  ∃ n', holds s B (record_all calls f) n' (lastn (Capacity s) (w ++ omap accepted calls))
        ∧ faults (record_all calls f) = [].
Proof.
  intros Hs H Hq Hw Hc. revert f n w H Hq Hw. induction Hc as [|[now e] calls Ha Hc IH]; intros f n w H Hq Hw.
  { exists n. cbn. rewrite app_nil_r, <- Hw. done. }
  destruct (record_step f n w now e Hs H Hq Ha) as (f' & r & Hr & Hq' & H').
  cbn [record_all omap list_omap]. rewrite Hr. cbn [fst].
  destruct (accepted (now, e)) as [e'|].
  - destruct H' as [_ H']. destruct (IH f' _ _ H' Hq') as (n' & Hn' & Hqn); [by rewrite lastn_idem|].
    exists n'. split; [|done]. rewrite lastn_app, <- app_assoc in Hn'. exact Hn'.
  - destruct H' as [_ H']. by apply (IH f' n w).
Qed.

Lemma load_counters f n w :
  sized s B → holds s B f n w → faults f = [] →
  ∃ f' m, LoadCounters s f = (f', Ok (Some m)) ∧ tallies m w.
Proof.
  intros Hs H Hq. unfold LoadCounters.
  assert (wp (lock s ;; loadCounters s) (λ _ c, ∃ m, c = Some m ∧ tallies m w) (λ _, True) f) as Hwp.
  { apply wp_bind. eapply wp_mono; [apply (wp_lock s f (λ _, True)); [apply H|apply H|done]| |done].
    cbv beta. intros f1 _ Hk. assert (holds s B f1 n w) as H1 by (by eapply holds_kept).
    destruct (holds_counters s B Hs f1 n w H1) as [m Hm].
    eapply wp_mono; [apply (wp_loadCounters s B f1 n w m (λ _, True)); [exact H1|exact Hm|done]| |done]. cbv beta.
    intros f2 c [_ ->]. exists m. split; [done|apply Hm]. }
  destruct (wp_run _ _ _ _ Hwp Hq) as (f' & c & Hrun & _ & m & -> & Ht). eauto.
Qed.

(** A path has an entry exactly when it was accessed. *)
Lemma tallies_dom m w k : 1 ≤ B → Forall (good B) w → tallies m w → is_Some (m !! k) ↔ ∃ e, e ∈ w ∧ Path e = k.
Proof.
  intros HB Hw [Hs _ _ Hu]. split.
  - intros [c Hc]. destruct (decide (Exists (λ e, Path e = k) w)) as [Hx|Hx].
    { apply Exists_exists in Hx as (e & ? & ?). eauto. }
    assert (∀ st, total w k st = 0) as H0.
    { intros st. apply not_Exists_Forall in Hx; [|intros; apply _]. clear -Hx.
      induction Hx as [|e w He _ IH]; [done|]. cbn [total]. unfold share. by rewrite decide_False. }
    apply Hu in Hc as Hz. assert (isZero c = true) as Hz'; [|congruence]. apply isZero_get. intros st.
    rewrite <- (H0 st), <- (Hs k st). unfold cnt. by rewrite Hc.
  - intros (e & He & <-). destruct (total_pos B w e HB Hw He) as [st Hpos].
    rewrite <- (Hs (Path e) st) in Hpos. unfold cnt in Hpos. destruct (m !! Path e); [done|].
    destruct st; cbn in Hpos; lia.
Qed.
End runs.
End HotnessRuns.
Import HotnessRuns.

Module HotnessTheorems.

(** [Record] keeps the invariant of the access log: an access that is accepted
    becomes the newest of the window, which drops its oldest access when it is full;
    an access that is malformed or does not fit its slot is refused and leaves the
    window and the counters as they were.  No call panics. *)
Theorem record_window s B f n w now e :
  sized s B → holds s B f n w → faults f = [] → admissible B now e →
  ∃ f' r, Record_ now s e f = (f', r) ∧ faults f' = []
    ∧ match accepted s (now, e) with
      | Some e' => r = Ok tt ∧ holds s B f' (n + 1) (lastn (Capacity s) (w ++ [e']))
      | None => (∃ err, r = Fail err) ∧ holds s B f' n w
      end.
Proof. apply record_step. Qed.

(** C27: After any sequence of [Record] calls on a new store, with valid UTF-8 paths and no
    failing system call, [LoadCounters] gives
    for every path the exact number of opens, reads, writes and closes and of bytes
    read and written among the last [Capacity] accepted accesses, and an entry for
    exactly the paths that occur among them. *)
Theorem counters_exact s B calls :
  sized s B → Forall (λ c, admissible B c.1 c.2) calls →
  ∃ f' m, LoadCounters s (record_all s calls (MkFs ∅ [])) = (f', Ok (Some m))
    ∧ ∀ k, let w := lastn (Capacity s) (omap (accepted s) calls) in
           (∀ st, get st (cnt m k) = total w k st)
           ∧ (is_Some (m !! k) ↔ ∃ e, e ∈ w ∧ Path e = k).
Proof.
  intros Hs Hc. assert (1 ≤ B) as HB by apply Hs.
  destruct (record_all_holds s B calls (MkFs ∅ []) 0 []) as (n & H & Hq);
    [done|by apply holds_empty|done|done|done|]. cbn [app] in H.
  destruct (load_counters s B _ _ _ Hs H Hq) as (f' & m & Hl & Ht).
  exists f', m. split; [done|]. intros k w. split; [apply Ht|].
  apply (tallies_dom B); [done|apply H|done].
Qed.

(** *** Witnesses *)

Definition a_store : Store := NewWithOptions [] (str "/h") 2 256.
Definition some_calls : list (Z * Event) :=
  [(5, MkEvent 1 (str "Open") (str "/a.txt") 0); (6, MkEvent 2 OpRead (str "/a.txt") 10);
   (7, MkEvent 0 OpWrite (str "b.txt") 7); (8, MkEvent 3 (str "stat") (str "/a.txt") 0)].

Lemma a_store_sized : sized a_store 100.
Proof. repeat split; vm_compute; congruence. Qed.

#[local] Instance admissible_dec B now e : Decision (admissible B now e).
Proof. unfold admissible, in_s. destruct (normalize now e); apply _. Defined.

Lemma record_window_witness :
  ∃ f' r, Record_ 5 a_store (MkEvent 1 (str "Open") (str "/a.txt") 0) (MkFs ∅ []) = (f', r)
    ∧ faults f' = []
    ∧ match accepted a_store (5, MkEvent 1 (str "Open") (str "/a.txt") 0) with
      | Some e' => r = Ok tt ∧ holds a_store 100 f' (0 + 1) (lastn (Capacity a_store) ([] ++ [e']))
      | None => (∃ err, r = Fail err) ∧ holds a_store 100 f' 0 []
      end.
Proof.
  apply (record_window a_store 100 (MkFs ∅ []) 0 [] 5 (MkEvent 1 (str "Open") (str "/a.txt") 0)).
  - apply a_store_sized.
  - apply holds_empty, a_store_sized.
  - reflexivity.
  - decided.
Defined.

Lemma counters_exact_witness :
  ∃ f' m, LoadCounters a_store (record_all a_store some_calls (MkFs ∅ [])) = (f', Ok (Some m))
    ∧ ∀ k, let w := lastn (Capacity a_store) (omap (accepted a_store) some_calls) in
           (∀ st, get st (cnt m k) = total w k st)
           ∧ (is_Some (m !! k) ↔ ∃ e, e ∈ w ∧ Path e = k).
Proof.
  apply (counters_exact a_store 100 some_calls); [apply a_store_sized|]. decided.
Defined.

(** The window of the example: the open was pushed out, the unknown operation was
    refused, and the write took its time from the clock. *)
Example some_window :
  lastn (Capacity a_store) (omap (accepted a_store) some_calls)
  = [MkEvent 2 OpRead (str "/a.txt") 10; MkEvent 7 OpWrite (str "/b.txt") 7].
Proof. vm_compute. reflexivity. Qed.

(** When the last rename of [Record] fails, the counters have the access and the
    position does not: the call reports an error, and calling it again counts the
    access twice for one slot. *)
Example half_recorded :
  let e := MkEvent 1 OpOpen (str "/a") 0 in
  let '(f1, r1) := Record_ 5 a_store e (MkFs ∅ (replicate 17 false ++ [true])) in
  let '(f2, r2) := Record_ 5 a_store e f1 in
  r1 = Fail ErrIO ∧ r2 = Ok tt
  ∧ (match (LoadMeta a_store f2).2 with Ok m => Size m | _ => 0 end) = 1
  ∧ (match (LoadCounters a_store f2).2 with Ok (Some m) => OpenCount (cnt m (str "/a")) | _ => 0 end) = 2.
Proof. vm_compute. repeat split; reflexivity. Qed.

(** A path that is not valid UTF-8 never gets past its first access. *)
Example invalid_path_lost :
  let e := MkEvent 1 OpOpen [47; 255] 0 in
  let f := record_all a_store [(5, e); (6, e)] (MkFs ∅ []) in
  match (LoadCounters a_store f).2 with
  | Ok (Some m) => OpenCount (cnt m [47; 239; 191; 189]) = 1 ∧ OpenCount (cnt m [47; 255]) = 0
  | _ => False
  end.
Proof. vm_compute. split; reflexivity. Qed.
End HotnessTheorems.
