(* ===== verification/Events.v ===== *)
(** * Events: the tag event log of tagindex/internal/events

    Tag changes are appended to a log of JSON lines; [ReplayTagEvents] applies the
    ones the index has not seen, from the offset of a checkpoint file, and marks them
    as seen by rewriting the log.  The definitions follow replay.go. *)

From S2P Require Import Prelude GoStd GoText GoFs GoJson TagIndex.
Import Strings Fs Json.

Module Events.

Record TagEvent := MkTagEvent {
  Ts : Z; Source : bytes; Op : bytes; Path : bytes; Tags : list bytes; IndexUpdated : bool }.

Record ReplayResult := MkResult { StartOffset : Z; EndOffset : Z; Applied : Z; Skipped : Z }.

#[global] Instance tag_event_eq_dec : EqDecision TagEvent.
Proof. solve_decision. Defined.
#[global] Instance replay_result_eq_dec : EqDecision ReplayResult.
Proof. solve_decision. Defined.

Definition TagEvent_json (e : TagEvent) : json :=
  JObj ([(str "ts", JInt (Ts e))]
        ++ omit (bool_decide (Source e = [])) (str "source", JStr (Source e))
        ++ [(str "op", JStr (Op e)); (str "path", JStr (Path e))]
        ++ omit (bool_decide (Tags e = [])) (str "tags", JArr (JStr <$> Tags e))
        ++ [(str "index_updated", JBool (IndexUpdated e))]).

Definition TagEvent_field (x : TagEvent) (kv : bytes * json) : res TagEvent :=
  let '(k, v) := kv in
  let '(MkTagEvent t s o p g u) := x in
  if is_field "ts" k then y ← into_int64 t v; mret (MkTagEvent y s o p g u)
  else if is_field "source" k then y ← into_string s v; mret (MkTagEvent t y o p g u)
  else if is_field "op" k then y ← into_string o v; mret (MkTagEvent t s y p g u)
  else if is_field "path" k then y ← into_string p v; mret (MkTagEvent t s o y g u)
  else if is_field "tags" k then y ← into_strings g v; mret (MkTagEvent t s o p y u)
  else if is_field "index_updated" k then y ← into_bool u v; mret (MkTagEvent t s o p g y)
  else mret x.

Definition no_event : TagEvent := MkTagEvent 0 [] [] [] [] false.
Definition parse_event (line : bytes) : res TagEvent :=
  v ← parse line; into_struct TagEvent_field no_event v.

(** The path with a suffix to its last component, [p + ".lock"]. *)
Definition with_suffix (p : path) (ext : bytes) : path := DirOf p ++ [default [] (last p) ++ ext].

Definition lockEventLog (logPath : path) : SE fs unit :=
  MkdirAll (DirOf logPath) ;;
  OpenCreate (with_suffix logPath (str ".lock")) ;;
  syscall.

(** A path that may be the empty string is [None] when it is. *)
Definition AppendTagEvent (logPath : option path) (e : TagEvent) : SE fs unit :=
  match logPath with
  | None => mret tt
  | Some logPath =>
      MkdirAll (DirOf logPath) ;;
      lockEventLog logPath ;;
      OpenCreate logPath ;;
      Append logPath (Marshal (TagEvent_json e) ++ [10]) ;;
      syscall
  end.

Definition parse_checkpoint (data : bytes) : res Z :=
  let text := TrimSpace data in
  if decide (text = []) then Ok 0
  else match Strconv.Atoi text with
       | (offset, None) => Ok offset
       | _ => Fail (Errorf "parse checkpoint %s: %w")
       end.

Definition ReadCheckpoint (p : option path) : SE fs Z :=
  match p with
  | None => mret 0
  | Some p =>
      o ← se_catch (d ← ReadFile p; mret (Some d))
            (λ e, if decide (e = ErrNotExist) then mret None else se_fail e);
      match o with
      | None => mret 0
      | Some data => se_lift (parse_checkpoint data)
      end
  end.

Definition WriteCheckpoint (p : option path) (offset : Z) : SE fs unit :=
  match p with
  | None => mret tt
  | Some p =>
      MkdirAll (DirOf p) ;;
      let tmp := with_suffix p (str ".tmp") in
      WriteFile tmp (Strconv.Itoa offset ++ [10]) ;;
      RenameFile tmp p
  end.

(** [reader.ReadString(10)] until the end of the data: the lines with their newline,
    and the unfinished rest. *)
Fixpoint read_lines (cur data : bytes) : list bytes * bytes :=
  match data with
  | [] => ([], cur)
  | c :: data =>
      if decide (c = 10) then
        let '(ls, rest) := read_lines [] data in ((cur ++ [10]) :: ls, rest)
      else read_lines (cur ++ [c]) data
  end.

(** The rewritten line of an event. *)
Definition mark (e : TagEvent) : TagEvent :=
  MkTagEvent (Ts e) (Source e) (Op e) (Path e) (Tags e) true.

Fixpoint mark_loop (lines : list bytes) (offset throughOffset : Z) : res bytes :=
  match lines with
  | [] => Ok []
  | line :: lines =>
      let nextOffset := add64 offset (zlen line) in
      out ← (if decide (TrimSpace line ≠ [] ∧ nextOffset ≤ throughOffset) then
               match parse_event (TrimSpace line) with
               | Ok e => Ok (Marshal (TagEvent_json (mark e)) ++ [10])
               | Fail _ => Fail (Errorf "parse event at offset %d while marking updated: %w")
               | Panic => Panic
               end
             else Ok line);
      rest ← mark_loop lines nextOffset throughOffset;
      mret (out ++ rest)
  end.

Definition markEventsUpdated (logPath : path) (data : bytes) (throughOffset : Z) : SE fs unit :=
  let '(lines, rest) := read_lines [] data in
  out ← se_lift (mark_loop lines 0 throughOffset);
  CreateTemp (DirOf logPath) ;;
  syscall ;; syscall ;; syscall ;;
  Rename (out ++ rest) logPath.

(** What an event asks of the index. *)
Definition apply_event (store : TagIndex.Store) (e : TagEvent) : SE fs unit :=
  let op := ToLower (Op e) in
  if decide (op = str "set") then TagIndex.SetTags store (Path e) (Tags e)
  else if decide (op = str "delete_all") then TagIndex.SetTags store (Path e) []
  else se_fail (Errorf "unsupported event op %q at offset %d").

(** The loop over the lines; the state is the offset, the result and [needsRewrite]. *)
Fixpoint replay_loop (store : TagIndex.Store) (checkpoint : option path) (lines : list bytes)
    (offset : Z) (r : ReplayResult) (needsRewrite : bool) : SE fs (ReplayResult * bool) :=
  match lines with
  | [] => mret (r, needsRewrite)
  | line :: lines =>
      let offset := add64 offset (zlen line) in
      let line := TrimSpace line in
      if decide (line = []) then
        WriteCheckpoint checkpoint offset ;;
        replay_loop store checkpoint lines offset r needsRewrite
      else
        e ← se_lift (match parse_event line with
                     | Fail _ => Fail (Errorf "parse event at offset %d: %w")
                     | x => x
                     end);
        if decide (Path e = []) then se_fail (Errorf "event at offset %d has empty path")
        else
          '(r, needsRewrite) ←
            (if IndexUpdated e then
               mret (MkResult (StartOffset r) (EndOffset r) (Applied r) (add64 (Skipped r) 1), needsRewrite)
             else
               apply_event store e ;;
               mret (MkResult (StartOffset r) (EndOffset r) (add64 (Applied r) 1) (Skipped r), true));
          WriteCheckpoint checkpoint offset ;;
          replay_loop store checkpoint lines offset
            (MkResult (StartOffset r) offset (Applied r) (Skipped r)) needsRewrite
  end.

Definition ReplayTagEvents (logPath : path) (checkpoint : option path) (indexRoot : path) :
    SE fs ReplayResult :=
  startOffset ← ReadCheckpoint checkpoint;
  let store := TagIndex.New indexRoot in
  lockEventLog logPath ;;
  o ← se_catch (d ← ReadFile logPath; mret (Some d))
        (λ e, if decide (e = ErrNotExist) then mret None else se_fail e);
  match o with
  | None =>
      TagIndex.RebuildAllTagged store ;;
      mret (MkResult startOffset startOffset 0 0)
  | Some data =>
      let result :=
        if decide (zlen data < startOffset) then MkResult 0 startOffset 0 0
        else MkResult startOffset startOffset 0 0 in
      let startOffset := if decide (zlen data < startOffset) then 0 else startOffset in
      if decide (startOffset < 0) then se_lift Panic
      else
        let '(lines, _) := read_lines [] (drop (Z.to_nat startOffset) data) in
        '(result, needsRewrite) ← replay_loop store checkpoint lines startOffset result false;
        (if (needsRewrite : bool) then markEventsUpdated logPath data (EndOffset result) else mret tt) ;;
        TagIndex.RebuildAllTagged store ;;
        mret result
  end.

End Events.
