(* ===== verification/EventsText.v ===== *)
(** * EventsText: the lines of the tag event log

    An event is one line of the log, it is read back as it was appended, and marking
    it makes its line one byte shorter. *)

From S2P Require Import Prelude GoStd GoText GoFs GoJson GoJsonSpec HotnessText Events.
Import Strings Json Runes Quoting Values Codecs Trims Events.

(** ** Printed values are one line *)
Module OneLine.

Lemma digit_not_newline d : 0 ≤ d < 16 → Strconv.digit_char d ≠ 10.
Proof. intros. unfold Strconv.digit_char. case_decide; lia. Qed.

Lemma u_escape_line r : 10 ∉ u_escape r.
Proof.
  unfold u_escape. rewrite !not_elem_of_cons. split_and!; try done; try (intros H; symmetry in H; revert H; apply digit_not_newline; mlia).
  apply not_elem_of_nil.
Qed.

Lemma ascii_escape_line b : 10 ∉ ascii_escape b.
Proof.
  unfold ascii_escape. destruct (safe b) eqn:Hs.
  { rewrite list_elem_of_singleton. intros <-. done. }
  repeat (case_decide; [destruct_or?; subst; decided|]). apply u_escape_line.
Qed.

Lemma quote_loop_line n s : bytes_ok s → 10 ∉ quote_loop n s.
Proof.
  revert s. induction n as [|n IH]; intros s Hs; [apply not_elem_of_nil|].
  destruct s as [|b s]; [apply not_elem_of_nil|]. cbn [quote_loop].
  destruct (decide (b < 128)).
  { apply Forall_cons in Hs as [_ Hs]. rewrite elem_of_app. intros [H|H]; [by eapply ascii_escape_line|by eapply IH]. }
  destruct (DecodeRune_cases (b :: s) Hs ltac:(done)) as [(p & r & t & Heq & Hp & Hd)|Hd]; rewrite Hd.
  - rewrite elem_of_app. intros [H|H]; [|eapply IH; [|exact H]; by apply Forall_drop].
    case_decide; [by apply u_escape_line in H|]. case_decide; [by apply u_escape_line in H|].
    rewrite Heq, take_app_length in H.
    destruct Hp; cbn [app] in Heq; injection Heq as -> ->; rewrite ?elem_of_cons, elem_of_nil in H; lia.
  - rewrite elem_of_app. intros [H|H]; [|eapply IH; [|exact H]; by apply Forall_drop].
    rewrite decide_True in H by done. by apply u_escape_line in H.
Qed.

Lemma quote_line s : bytes_ok s → 10 ∉ quote s.
Proof.
  intros Hs. unfold quote. rewrite elem_of_cons, elem_of_app, list_elem_of_singleton.
  intros [H|[H|H]]; [done| |done]. by apply quote_loop_line in H.
Qed.

Lemma Itoa_line z : in_s 64 z → 10 ∉ Strconv.Itoa z.
Proof.
  intros Hz. assert (∀ n, in_u 64 n → 10 ∉ Strconv.FormatUint n 10) as Hu.
  { intros n Hn. destruct (FileId.FormatUint_shape n Hn) as (ds & -> & Hok & _).
    intros (d & Hd & Hin)%list_elem_of_fmap. unfold FileId.digits_ok in Hok. rewrite Forall_forall in Hok.
    symmetry in Hd. revert Hd. apply digit_not_newline. specialize (Hok _ Hin). lia. }
  unfold Strconv.Itoa. case_decide; [|apply Hu; widths; lia].
  rewrite elem_of_cons. intros [?|?]; [done|]. eapply Hu; [|done]. widths. lia.
Qed.

Lemma bracketed_line l r items :
  l ≠ 10 → r ≠ 10 → Forall (λ x : bytes, 10 ∉ x) items → 10 ∉ bracketed false 0 l r items.
Proof.
  intros Hl Hr Hi. assert (10 ∉ join [44] items) as Hj.
  { induction Hi as [|x items Hx Hi IH]; [apply not_elem_of_nil|]. destruct items; [done|].
    cbn [join]. rewrite !elem_of_app, list_elem_of_singleton. naive_solver. }
  destruct items as [|x items]; [unfold bracketed; set_solver|]. unfold bracketed. cbn [newline].
  rewrite elem_of_cons, app_nil_l, !elem_of_app, elem_of_nil, list_elem_of_singleton. naive_solver.
Qed.

(** Compact texts have no newline. *)
Lemma print_line h v d : printable h v → 10 ∉ print false d v.
Proof.
  revert v d. induction h as [h IH] using (well_founded_induction lt_wf). intros v d Hv.
  destruct Hv as [| h b|h z Hz|h s Hs|h l Hl|h l Hl].
  - decided.
  - destruct b; decided.
  - by apply Itoa_line.
  - by apply quote_line.
  - apply bracketed_line; [done..|]. apply Forall_fmap. eapply Forall_impl; [exact Hl|].
    intros v Hv. apply (IH h); [lia|done].
  - apply bracketed_line; [done..|]. apply Forall_fmap. eapply Forall_impl; [exact Hl|].
    intros kv [Hk Hv]. change (10 ∉ quote kv.1 ++ 58 :: print false (S d) kv.2).
    rewrite elem_of_app, elem_of_cons. intros [H|[H|H]]; [|done|].
    + by apply quote_line in H.
    + eapply (IH h); [lia|done|exact H].
Qed.
End OneLine.
Import OneLine.

(** ** Events as lines *)
Module EventLines.

(** Strings that JSON keeps as they are. *)
Definition text (s : bytes) : Prop := bytes_ok s ∧ valid s.
#[global] Instance text_dec s : Decision (text s).
Proof. unfold text, is_byte. apply _. Defined.

Definition event_ok (e : TagEvent) : Prop :=
  in_s 64 (Ts e) ∧ text (Source e) ∧ text (Op e) ∧ text (Path e) ∧ Forall text (Tags e).
#[global] Instance event_ok_dec e : Decision (event_ok e).
Proof. unfold event_ok, in_s. apply _. Defined.

Definition line_of (e : TagEvent) : bytes := Marshal (TagEvent_json e) ++ [10].
Definition log_of (es : list TagEvent) : bytes := es ≫= line_of.

Lemma tags_into old tags : into_elems old (JStr <$> tags) = Ok tags.
Proof. revert old. induction tags as [|t tags IH]; intros old; [done|]. cbn. by rewrite IH. Qed.

Lemma event_into_tag e :
  in_s 64 (Ts e) → into_struct TagEvent_field no_event (TagEvent_json e) = Ok e.
Proof.
  intros Ht. destruct e as [ts src op p tags u]. cbn [Ts] in Ht.
  unfold TagEvent_json, no_event, omit. cbn [into_struct Ts Source Op Path Tags IndexUpdated].
  unfold TagEvent_field.
  do 2 case_bool_decide; subst; cbn [app];
    repeat (cbn [into_fields]; pick_fields; try (rewrite into_int64_JInt by done);
            cbn [mbind res_bind mret res_ret into_string into_bool into_strings];
            rewrite ?tags_into); done.
Qed.

Lemma text_clean s : text s → to_valid s = s.
Proof. intros [_ H]. exact H. Qed.

Lemma tags_clean tags : Forall text tags → map clean (JStr <$> tags) = JStr <$> tags.
Proof.
  induction 1 as [|t tags Ht _ IH]; [done|]. rewrite fmap_cons. cbn [map clean].
  by rewrite IH, text_clean.
Qed.

Lemma tag_event_clean e : event_ok e → clean (TagEvent_json e) = TagEvent_json e.
Proof.
  intros (_ & Hs & Ho & Hp & Ht). unfold TagEvent_json, omit.
  destruct (bool_decide (Source e = [])), (bool_decide (Tags e = [])); cbn [app clean map fst snd JInt];
    rewrite ?tags_clean, ?(text_clean (Source e)), ?(text_clean (Op e)), ?(text_clean (Path e)) by done;
    reflexivity.
Qed.

Lemma tag_event_printable e : event_ok e → printable 2 (TagEvent_json e).
Proof.
  intros (Hz & [Hs _] & [Ho _] & [Hp _] & Ht). constructor. unfold omit.
  assert (printable 1 (JArr (JStr <$> Tags e))) as Ha.
  { constructor. apply Forall_fmap. eapply Forall_impl; [exact Ht|]. intros t [H _]. by constructor. }
  destruct (bool_decide (Source e = [])), (bool_decide (Tags e = [])); cbn [app];
    repeat apply Forall_cons_2; try apply Forall_nil_2; (split; [apply str_ok|]); cbn [snd];
    first [exact Ha|by apply p_int|by apply p_str|apply p_bool].
Qed.

Lemma tag_event_ends e : ∃ s, Marshal (TagEvent_json e) = 123 :: s ++ [125].
Proof. apply Texts.bracketed_ends. by destruct e. Qed.

Lemma parse_event_text e : event_ok e → parse_event (Marshal (TagEvent_json e)) = Ok e.
Proof.
  intros He. unfold parse_event, Marshal. rewrite <- (app_nil_r (print _ _ _)).
  rewrite (parse_print 2), bind_ok; [|by apply tag_event_printable|done|constructor].
  rewrite tag_event_clean by done. apply event_into_tag, He.
Qed.

Lemma trim_line e : TrimSpace (line_of e) = Marshal (TagEvent_json e).
Proof.
  unfold line_of. destruct (tag_event_ends e) as [s Hs]. apply TrimSpace_newline; rewrite Hs; [|done].
  apply trimmed_between; decided.
Qed.

Lemma trim_line_nonempty e : TrimSpace (line_of e) ≠ [].
Proof. rewrite trim_line. destruct (tag_event_ends e) as [s ->]. done. Qed.

(** Cutting a text into lines. *)
Lemma read_lines_line cur l s :
  10 ∉ l → read_lines cur (l ++ 10 :: s) = ((cur ++ l ++ [10]) :: (read_lines [] s).1, (read_lines [] s).2).
Proof.
  revert cur. induction l as [|c l IH]; intros cur Hl; cbn [app read_lines].
  - rewrite decide_True by done. by destruct (read_lines [] s).
  - rewrite decide_False by set_solver. rewrite IH by set_solver. by rewrite <- app_assoc.
Qed.

Lemma read_lines_log es : Forall event_ok es → read_lines [] (log_of es) = (line_of <$> es, []).
Proof.
  induction 1 as [|e es He _ IH]; [done|]. unfold log_of. cbn [mbind list_bind].
  fold (log_of es). unfold line_of at 1. rewrite <- app_assoc. cbn [app].
  rewrite read_lines_line by (eapply print_line, tag_event_printable, He).
  change (es ≫= line_of) with (log_of es). by rewrite IH.
Qed.

Lemma log_of_app es fs : log_of (es ++ fs) = log_of es ++ log_of fs.
Proof. unfold log_of. apply bind_app. Qed.

Lemma zlen_log_cons e es : zlen (log_of (e :: es)) = zlen (line_of e) + zlen (log_of es).
Proof. unfold log_of. cbn [mbind list_bind]. apply zlen_app. Qed.

(** Rewriting a whole log. *)
Lemma mark_log es off through :
  Forall event_ok es → 0 ≤ off → off + zlen (log_of es) ≤ through → through < 2 ^ 63 →
  mark_loop (line_of <$> es) off through = Ok (log_of (mark <$> es)).
Proof.
  intros Hes. revert off. induction Hes as [|e es He _ IH]; intros off Ho Hb Ht; [done|].
  rewrite zlen_log_cons in Hb. pose proof (zlen_nonneg (log_of es)). pose proof (zlen_nonneg (line_of e)).
  rewrite fmap_cons. cbn [mark_loop].
  unfold add64. rewrite swrap_id by (widths; lia).
  rewrite decide_True by (split; [apply trim_line_nonempty|lia]).
  rewrite trim_line, parse_event_text, bind_ok by done. rewrite IH by lia. done.
Qed.

(** A marked line is one byte shorter. *)
Lemma mark_shorter e :
  IndexUpdated e = false → zlen (line_of e) = zlen (line_of (mark e)) + 1.
Proof.
  intros Hu. unfold line_of, Marshal, TagEvent_json, mark. cbn [Ts Source Op Path Tags IndexUpdated].
  rewrite Hu. generalize (omit (bool_decide (Source e = [])) (str "source", JStr (Source e))) as a.
  generalize (omit (bool_decide (Tags e = [])) (str "tags", JArr (JStr <$> Tags e))) as b. intros b a.
  set (front := [(str "ts", JInt (Ts e))] ++ a ++ [(str "op", JStr (Op e)); (str "path", JStr (Path e))] ++ b).
  assert (∀ u, [(str "ts", JInt (Ts e))] ++ a ++ [(str "op", JStr (Op e)); (str "path", JStr (Path e))]
     ++ b ++ [(str "index_updated", JBool u)] = front ++ [(str "index_updated", JBool u)]) as Hf.
  { intros u. unfold front. by rewrite <- !app_assoc. }
  rewrite !Hf. cbn [print]. rewrite !map_app. cbn [map fst snd].
  assert (front ≠ []) as Hne by done. clearbody front. destruct front as [|kv front]; [done|].
  cbn [map app]. unfold bracketed. cbn [newline].
  rewrite !zlen_app, !zlen_cons, !app_nil_l, !zlen_app. 
  set (g := λ kv : bytes * json, _).
  assert (∀ x items y, zlen (join [44] (x :: items ++ [y])) = zlen (join [44] (x :: items)) + 1 + zlen y) as Hj.
  { intros x items y. revert x. induction items as [|z items IH]; intros x.
    - cbn [app join]. rewrite zlen_app, zlen_cons. lia.
    - cbn [app]. rewrite (join_cons _ x (z :: items ++ [y])), (join_cons _ x (z :: items)) by done.
      rewrite !zlen_app, IH. lia. }
  rewrite !Hj. rewrite !zlen_app. cbn [print].
  change (zlen (str "false")) with 5. change (zlen (str "true")) with 4. lia.
Qed.
End EventLines.
