(* ===== verification/EventsSpec.v ===== *)
(** * EventsSpec: replaying the tag event log

    [state] ties the log, the checkpoint and the index on a disk; [ReplayTagEvents]
    gives every path the tags of the last pending event about it. *)

From S2P Require Import Prelude GoStd GoText GoFs GoFsSpec GoJson GoJsonSpec.
From S2P Require Import TagIndex TagIndexSpec TagIndexProps Events EventsText.
Import Strings Fs Json AbstractIndex EventLines.
Import Events.

(** ** The index next to other files *)
Module Apart.
Section apart.
Context (s : TagIndex.Store).

(** A disk with the same index. *)
Lemma rep_agree f f' x :
  rep s f x → nofile f' (TagIndex.byTagDir s) →
  (∀ q, TagIndex.byTagDir s `prefix_of` q ∨ q = TagIndex.allTaggedPath s → node_at f' q = node_at f q) →
  rep s f' x.
Proof.
  intros [H1 H2 H3 H4 H5] Hn Hq. split; [done| | |done|].
  - intros n. rewrite Hq; [done|]. left. by apply prefix_app_r.
  - rewrite Hq; [done|]. by right.
  - rewrite Hq; [done|]. by left.
Qed.

Lemma rep_upd f f' x p n :
  rep s f x → outside s p → upd f p n f' → rep s f' x.
Proof.
  intros H (Ho1 & Ho2 & Ho3) Hu. eapply rep_agree; [exact H| |].
  - intros q Hq. rewrite (upd_other _ _ _ _ _ Hu) by (intros ->; done). by apply H.
  - intros q Hq. eapply upd_other; [exact Hu|]. intros ->. destruct Hq; done.
Qed.

(** A directory that is not in the index. *)
Definition off_index (d : path) : Prop :=
  ¬ TagIndex.byTagDir s `prefix_of` d ∧ ¬ TagIndex.allTaggedPath s `prefix_of` d.

Lemma rep_mkdir f f' x d : rep s f x → off_index d → dirs_added f f' d → rep s f' x.
Proof.
  intros H [Hd1 Hd2] Ha. eapply rep_agree; [exact H| |].
  - intros q Hq. destruct (Ha q) as [->|(_ & _ & ->)]; [by apply H|done].
  - intros q Hq. destruct (Ha q) as [?|(Hp & _)]; [done|]. exfalso. destruct Hq as [Hq| ->].
    + apply Hd1. by transitivity q.
    + done.
Qed.

(** Directories stay free of files when only the index changes. *)
Lemma nofile_rest f f' x' d :
  rep s f' x' → rest_same s f f' → off_index d → nofile f d → nofile f' d.
Proof.
  intros Hr Hs [Hd1 Hd2] Hn q Hq.
  destruct (decide (q `prefix_of` TagIndex.byTagDir s)) as [Hp|Hp]; [by apply Hr|].
  rewrite Hs; [by apply Hn|]. split_and!; [|done|].
  - intros H. apply Hd1. by transitivity q.
  - intros ->. done.
Qed.

Lemma does_rebuild x :
  does s (λ _ _, True) x (TagIndex.RebuildAllTagged s)
    (λ _ x', x' = Index (idx x) (Some (tagged x))).
Proof.
  intros f Hf. pose proof (rep_lines _ _ _ Hf) as (_ & Hlt & _).
  refine ((_ : does s (λ _ _, True) x _ _) f Hf). unfold TagIndex.RebuildAllTagged.
  eapply does_bind; [intros ?; done|by apply does_allPaths|]. intros ls x' [-> ->]. split; [done|].
  by apply does_write_all.
Qed.
End apart.
End Apart.
Import Apart.

(** ** Checkpoints *)
Module Checkpoints.
Import HotnessText.Trims.

Lemma digit_heads c :
  48 ≤ c ≤ 57 →
  Forall (λ e, head e ≠ Some c ∧ e ≠ []) spaces ∧ Forall (λ e, head e ≠ Some c ∧ e ≠ []) (reverse <$> spaces).
Proof.
  intros Hc. assert (Forall (λ c, Forall (λ e, head e ≠ Some c ∧ e ≠ []) spaces
    ∧ Forall (λ e, head e ≠ Some c ∧ e ≠ []) (reverse <$> spaces)) (seqZ 48 10)) as H by decided.
  rewrite Forall_forall in H. apply H, elem_of_seqZ. lia.
Qed.

Lemma digits_trimmed s : s ≠ [] → Forall (λ c, 48 ≤ c ≤ 57) s → trimmed s.
Proof.
  intros Hne Hs. split.
  - destruct s as [|c s]; [done|]. apply Forall_cons in Hs as [Hc _].
    by apply leading_other, digit_heads.
  - apply Forall_reverse in Hs. destruct (reverse s) as [|c r] eqn:E.
    { apply (f_equal reverse) in E. by rewrite reverse_involutive in E. }
    apply Forall_cons in Hs as [Hc _]. by apply leading_other, digit_heads.
Qed.

Lemma FormatUint_digits n : in_u 64 n → Forall (λ c, 48 ≤ c ≤ 57) (Strconv.FormatUint n 10).
Proof.
  intros Hn. destruct (FileId.FormatUint_shape n Hn) as (ds & -> & Hok & _).
  apply Forall_fmap. eapply Forall_impl; [exact Hok|]. intros d Hd. cbn in Hd |- *.
  unfold Strconv.digit_char. rewrite decide_True by lia. lia.
Qed.

Lemma parse_checkpoint_text z :
  0 ≤ z < 2 ^ 63 → parse_checkpoint (Strconv.Itoa z ++ [10]) = Ok z.
Proof.
  intros Hz. assert (in_u 64 z) as Hu by (widths; lia). unfold parse_checkpoint.
  assert (Strconv.Itoa z = Strconv.FormatUint z 10) as E.
  { unfold Strconv.Itoa. by rewrite decide_False by lia. }
  destruct (Numbers.FormatUint_cons z Hu) as (c & r & Hc & _).
  rewrite E, TrimSpace_newline.
  - rewrite decide_False by (by rewrite Hc). rewrite <- E, Numbers.Atoi_Itoa by (widths; lia). done.
  - apply digits_trimmed; [by rewrite Hc|by apply FormatUint_digits].
  - by rewrite Hc.
Qed.
End Checkpoints.
Import Checkpoints.

(** ** The log, the checkpoint and the index *)
Module LogState.

Definition lock_of (log : path) : path := with_suffix log (str ".lock").
Definition tmp_of (cp : path) : path := with_suffix cp (str ".tmp").

(** Where the files may be: apart from one another, from the directories on the way
    to them, and from the index. *)
Definition layout (s : TagIndex.Store) (log cp : path) : Prop :=
  let files := [log; lock_of log; cp; tmp_of cp] in
  let dirs := [DirOf log; DirOf cp] in
  log ≠ [] ∧ cp ≠ [] ∧ NoDup files ∧ Forall (outside s) (DirOf log :: files) ∧ Forall (off_index s) dirs
  ∧ Forall (λ p, Forall (λ d, ¬ p `prefix_of` d) dirs) files.
#[global] Instance layout_dec s log cp : Decision (layout s log cp).
Proof. unfold layout, outside, off_index. apply _. Defined.

Section state.
Context (s : TagIndex.Store) (log cp : path) (Hlay : layout s log cp).

(** The log holds [d] (or is missing), the checkpoint stands for the offset [k]. *)
Record state (f : fs) (x : index) (d : option bytes) (k : Z) : Prop := State {
  st_rep : rep s f x;
  st_logdir : nofile f (DirOf log);
  st_cpdir : nofile f (DirOf cp);
  st_log : node_at f log = File <$> d;
  st_lock : node_at f (lock_of log) ≠ Some Dir;
  st_cp :
    match node_at f cp with
    | None => k = 0
    | Some (File t) => parse_checkpoint t = Ok k
    | Some Dir => False
    end;
  st_tmp : node_at f (tmp_of cp) ≠ Some Dir;
}.

Lemma with_suffix_dir p e : DirOf (with_suffix p e) = DirOf p.
Proof. unfold with_suffix. apply DirOf_snoc. Qed.
Lemma with_suffix_nonempty p e : with_suffix p e ≠ [].
Proof. unfold with_suffix. by destruct (DirOf p). Qed.

(** Agreement on the files of a state. *)
Lemma state_agree f f' x x' d k :
  state f x d k → rep s f' x' → nofile f' (DirOf log) → nofile f' (DirOf cp) →
  (∀ q, q ∈ [log; lock_of log; cp; tmp_of cp] → node_at f' q = node_at f q) →
  state f' x' d k.
Proof.
  intros [H1 H2 H3 H4 H5 H6 H7] Hr Hl Hc Hq.
  split; [done|done|done|..]; rewrite Hq by (rewrite !elem_of_cons; tauto); done.
Qed.

Lemma state_nodes f f' x d k : nodes f' = nodes f → state f x d k → state f' x d k.
Proof.
  intros Hf H. eapply state_agree; [exact H|eapply rep_nodes; [exact Hf|apply H]|..].
  - intros q Hq. rewrite (node_at_nodes _ _ _ Hf). by apply (st_logdir _ _ _ _ H).
  - intros q Hq. rewrite (node_at_nodes _ _ _ Hf). by apply (st_cpdir _ _ _ _ H).
  - intros q _. by apply node_at_nodes.
Qed.

(** Only the index changes. *)
Lemma state_rest f f' x x' d k :
  state f x d k → rep s f' x' → rest_same s f f' → state f' x' d k.
Proof.
  intros H Hr Hs. destruct Hlay as (_ & _ & _ & Hout & Hoff & _).
  rewrite !Forall_cons in Hoff. destruct Hoff as (? & ? & _).
  eapply state_agree; [exact H|done|..].
  - eapply nofile_rest; [exact Hr|exact Hs|done|exact (st_logdir _ _ _ _ H)].
  - eapply nofile_rest; [exact Hr|exact Hs|done|exact (st_cpdir _ _ _ _ H)].
  - intros q Hq. apply Hs. apply Forall_cons in Hout as [_ Hout]. rewrite Forall_forall in Hout. by apply Hout.
Qed.

(** Directories are made on the way to a file of the state. *)
Lemma state_mkdir f f' x d k p :
  p ∈ [DirOf log; DirOf cp] → state f x d k → dirs_added f f' p → state f' x d k.
Proof.
  intros Hp H Ha. destruct Hlay as (_ & _ & _ & _ & Hoff & Hway).
  rewrite Forall_forall in Hoff, Hway. specialize (Hoff p Hp).
  assert (∀ q d', nofile f d' → q `prefix_of` d' → is_file (node_at f' q) = false) as Hn.
  { intros q d' Hd Hq. destruct (Ha q) as [->|(_ & _ & ->)]; [by apply (Hd q)|done]. }
  eapply state_agree; [exact H|by eapply rep_mkdir; [apply H|exact Hoff|exact Ha]|..].
  - intros q Hq. by eapply Hn; [apply (st_logdir _ _ _ _ H)|].
  - intros q Hq. by eapply Hn; [apply (st_cpdir _ _ _ _ H)|].
  - intros q Hq. destruct (Ha q) as [?|(Hpre & _)]; [done|]. exfalso.
    specialize (Hway q Hq). rewrite Forall_forall in Hway. by apply (Hway p).
Qed.

(** One file of the state gets new contents. *)
Lemma upd_common f f' x p n :
  p ∈ [log; lock_of log; cp; tmp_of cp] → rep s f x → nofile f (DirOf log) → nofile f (DirOf cp) →
  upd f p n f' → rep s f' x ∧ nofile f' (DirOf log) ∧ nofile f' (DirOf cp).
Proof.
  intros Hp Hr Hl Hc Hu. destruct Hlay as (_ & _ & _ & Hout & _ & Hway). apply Forall_cons in Hout as [_ Hout].
  rewrite Forall_forall in Hout, Hway. specialize (Hway p Hp). rewrite Forall_forall in Hway.
  split_and!; [by eapply rep_upd; [exact Hr|by apply Hout|]|..];
    intros q Hq; rewrite (upd_other _ _ _ _ _ Hu); auto; intros ->; eapply Hway; try exact Hq; rewrite !elem_of_cons; tauto.
Qed.

Lemma files_distinct :
  lock_of log ≠ log ∧ cp ≠ log ∧ tmp_of cp ≠ log ∧ cp ≠ lock_of log ∧ tmp_of cp ≠ lock_of log
  ∧ tmp_of cp ≠ cp.
Proof.
  destruct Hlay as (_ & _ & Hnd & _). rewrite !NoDup_cons, !not_elem_of_cons in Hnd.
  destruct Hnd as ((? & ? & ? & _) & (? & ? & _) & (? & _) & _). split_and!; congruence.
Qed.

Lemma state_upd_log f f' x d d' k :
  state f x d k → upd f log (File d') f' → state f' x (Some d') k.
Proof.
  intros [H1 H2 H3 H4 H5 H6 H7] Hu. destruct files_distinct as (? & ? & ? & ? & ? & ?).
  destruct (upd_common f f' x log (File d')) as (? & ? & ?);
    [rewrite !elem_of_cons; tauto|exact H1|exact H2|exact H3|exact Hu|].
  split; [done|done|done|by rewrite (upd_same _ _ _ _ Hu)|..];
    rewrite (upd_other _ _ _ _ _ Hu) by done; assumption.
Qed.

Lemma state_upd_lock f f' x d k n :
  state f x d k → n ≠ Dir → upd f (lock_of log) n f' → state f' x d k.
Proof.
  intros [H1 H2 H3 H4 H5 H6 H7] Hn Hu. destruct files_distinct as (? & ? & ? & ? & ? & ?).
  destruct (upd_common f f' x (lock_of log) n) as (? & ? & ?);
    [rewrite !elem_of_cons; tauto|exact H1|exact H2|exact H3|exact Hu|].
  split; [done|done|done| |rewrite (upd_same _ _ _ _ Hu); congruence|..];
    rewrite (upd_other _ _ _ _ _ Hu) by done; assumption.
Qed.

(** ** The operations on it *)

(** The directory of the log is there while the lock is held. *)
Definition held (f : fs) (x : index) (d : option bytes) (k : Z) : Prop :=
  state f x d k ∧ node_at f (DirOf log) = Some Dir.

Lemma held_nodes f f' x d k : nodes f' = nodes f → held f x d k → held f' x d k.
Proof. intros Hf [H Hd]. split; [by eapply state_nodes|by rewrite (node_at_nodes _ _ _ Hf)]. Qed.

Lemma held_rest f f' x x' d k : held f x d k → rep s f' x' → rest_same s f f' → held f' x' d k.
Proof.
  intros [H Hd] Hr Hs. split; [by eapply state_rest|]. rewrite Hs; [done|].
  destruct Hlay as (_ & _ & _ & Hout & _). by apply Forall_cons in Hout as [? _].
Qed.

Lemma not_logdir q : q ∈ [log; lock_of log; cp; tmp_of cp] → DirOf log ≠ q.
Proof.
  intros Hq E. destruct Hlay as (_ & _ & _ & _ & _ & Hway). rewrite Forall_forall in Hway.
  specialize (Hway q Hq). rewrite Forall_forall in Hway. apply (Hway (DirOf log)); [rewrite !elem_of_cons; tauto|].
  by rewrite E.
Qed.

Lemma wp_lockEventLog f x d k (E : fs → Prop) :
  state f x d k → (∀ f', E f') →
  wp (lockEventLog log) (λ f' _, held f' x d k) E f.
Proof.
  intros H HE. unfold lockEventLog. fold (lock_of log).
  apply wp_bind, wp_MkdirAll_over; [exact (st_logdir _ _ _ _ H)| |auto]. intros f1 Ha Hd.
  assert (state f1 x d k) as H1.
  { eapply state_mkdir; [|exact H|exact Ha]. rewrite !elem_of_cons. tauto. }
  apply wp_bind, wp_OpenCreate; [apply with_suffix_nonempty|unfold lock_of; by rewrite with_suffix_dir|exact (st_lock _ _ _ _ H1)| |auto].
  intros f2 Hu. apply wp_syscall; [|auto]. intros f3 Hf3. split.
  - eapply state_nodes; [exact Hf3|]. eapply state_upd_lock; [exact H1| |exact Hu].
    pose proof (st_lock _ _ _ _ H1). destruct (node_at f1 (lock_of log)) as [[]|]; done.
  - rewrite (node_at_nodes _ _ _ Hf3), (upd_other _ _ _ _ _ Hu); [done|].
    apply not_logdir. rewrite !elem_of_cons. tauto.
Qed.

Lemma wp_ReadCheckpoint f x d k (E : fs → Prop) :
  state f x d k → (∀ f', E f') →
  wp (ReadCheckpoint (Some cp)) (λ f' z, state f' x d k ∧ z = k) E f.
Proof.
  intros H HE. cbn [ReadCheckpoint]. pose proof (st_cp _ _ _ _ H) as Hc.
  apply wp_bind, wp_read_optional; [exact (st_cpdir _ _ _ _ H)|by destruct (node_at f cp) as [[]|]| |auto].
  intros f' Hf. assert (state f' x d k) by (by eapply state_nodes).
  destruct (node_at f cp) as [[t|]|]; [|done|].
  - by apply (wp_lift _ k).
  - by apply wp_ret.
Qed.

Lemma state_upd_cp f f' x d k z :
  state f x d k → parse_checkpoint z.2 = Ok z.1 →
  (∀ q, node_at f' q = if decide (q = cp) then Some (File z.2)
                       else if decide (q = tmp_of cp) then None else node_at f q) →
  state f' x d z.1.
Proof.
  intros [H1 H2 H3 H4 H5 H6 H7] Hz Hq. destruct files_distinct as (N1 & N2 & N3 & N4 & N5 & N6).
  pose proof Hlay as (_ & _ & _ & Hout & _ & Hway). apply Forall_cons in Hout as [_ Hout].
  rewrite !Forall_cons in Hout. destruct Hout as (_ & _ & Oc & Ot & _).
  rewrite !Forall_cons in Hway. destruct Hway as (_ & _ & (Wc1 & Wc2 & _) & (Wt1 & Wt2 & _) & _).
  assert (∀ q, q ≠ cp → q ≠ tmp_of cp → node_at f' q = node_at f q) as Hn.
  { intros q Hc Ht. by rewrite Hq, !decide_False. }
  assert (∀ d' q, ¬ cp `prefix_of` d' → ¬ tmp_of cp `prefix_of` d' → q `prefix_of` d' → node_at f' q = node_at f q) as Hd.
  { intros d' q ? ? Hp. apply Hn; intros ->; done. }
  split.
  - eapply rep_agree; [exact H1| |].
    + intros q Hp. rewrite (Hd (TagIndex.byTagDir s)); [by apply H1|apply Oc|apply Ot|done].
    + intros q Hp. apply Hn; intros ->; destruct Hp as [Hp|Hp]; revert Hp; first [apply Oc|apply Ot].
  - intros q Hp. rewrite (Hd (DirOf log)) by done. by apply H2.
  - intros q Hp. rewrite (Hd (DirOf cp)) by done. by apply H3.
  - rewrite Hn by done. exact H4.
  - rewrite Hn by done. exact H5.
  - rewrite Hq, decide_True by done. exact Hz.
  - rewrite Hq, decide_False, decide_True by done. done.
Qed.

Lemma wp_WriteCheckpoint f x d k z (E : fs → Prop) :
  held f x d k → 0 ≤ z < 2 ^ 63 → (∀ f', E f') →
  wp (WriteCheckpoint (Some cp) z) (λ f' _, held f' x d z) E f.
Proof.
  intros [H Hd] Hz HE. cbn [WriteCheckpoint]. fold (tmp_of cp).
  destruct files_distinct as (_ & _ & _ & _ & _ & N6). pose proof Hlay as (_ & Hcp & _).
  apply wp_bind, wp_MkdirAll_over; [exact (st_cpdir _ _ _ _ H)| |auto]. intros f1 Ha Hd1.
  assert (state f1 x d k) as H1.
  { eapply state_mkdir; [|exact H|exact Ha]. rewrite !elem_of_cons. tauto. }
  assert (node_at f1 (DirOf log) = Some Dir) as Hl1.
  { destruct (Ha (DirOf log)) as [->|(_ & ? & _)]; congruence. }
  assert (DirOf (tmp_of cp) = DirOf cp) as Edir by apply with_suffix_dir.
  apply wp_bind, wp_WriteFile; [apply with_suffix_nonempty|by rewrite Edir|exact (st_tmp _ _ _ _ H1)| |auto].
  intros f2 Hu. pose proof (st_cp _ _ _ _ H1) as P1.
  eapply wp_RenameFile; [done|done|apply with_suffix_nonempty|by eapply upd_same| | | |auto].
  { rewrite (upd_other _ _ _ _ _ Hu) by done. intros He. by rewrite He in P1. }
  { rewrite (upd_other _ _ _ _ _ Hu); [done|]. intros Heq. rewrite Heq in Edir.
    apply (f_equal length) in Edir. unfold DirOf at 1 in Edir. rewrite length_take in Edir.
    pose proof (with_suffix_nonempty cp (str ".tmp")) as Hne. fold (tmp_of cp) in Hne.
    destruct (tmp_of cp); [done|]. cbn in Edir. lia. }
  intros f3 Hf3.
  assert (∀ q, node_at f3 q = if decide (q = cp) then Some (File (Strconv.Itoa z ++ [10]))
                       else if decide (q = tmp_of cp) then None else node_at f1 q) as Hq.
  { intros q. rewrite Hf3. case_decide; [done|]. case_decide; [done|]. by eapply upd_other. }
  split.
  - apply (state_upd_cp f1 f3 x d k (z, Strconv.Itoa z ++ [10])); [done| |done].
    by apply parse_checkpoint_text.
  - rewrite Hq, !decide_False; [done|apply not_logdir; rewrite !elem_of_cons; tauto..].
Qed.

Lemma wp_AppendTagEvent f x d k e (E : fs → Prop) :
  state f x d k → (∀ f', E f') →
  wp (AppendTagEvent (Some log) e) (λ f' _, state f' x (Some (default [] d ++ line_of e)) k) E f.
Proof.
  intros H HE. pose proof Hlay as (Hlog & _). cbn [AppendTagEvent].
  apply wp_bind, wp_MkdirAll_over; [exact (st_logdir _ _ _ _ H)| |auto]. intros f1 Ha _.
  assert (state f1 x d k) as H1.
  { eapply state_mkdir; [|exact H|exact Ha]. rewrite !elem_of_cons. tauto. }
  apply wp_bind. eapply wp_mono; [by apply (wp_lockEventLog f1 x d k E)| |done].
  cbv beta. intros f2 _ [H2 Hd2]. pose proof (st_log _ _ _ _ H2) as Hl2.
  apply wp_bind, wp_OpenCreate; [done|done|rewrite Hl2; by destruct d| |auto].
  rewrite Hl2. intros f3 Hu3.
  assert (upd f2 log (File (default [] d)) f3) as Hu by (by destruct d).
  apply wp_bind. eapply wp_Append; [done|by eapply upd_same| |auto]. intros f4 Hu4.
  apply wp_syscall; [|auto]. intros f5 Hf5. eapply state_nodes; [exact Hf5|].
  eapply state_upd_log; [exact H2|]. by eapply upd_upd.
Qed.

Lemma wp_markEventsUpdated f x es k through (E : fs → Prop) :
  held f x (Some (log_of es)) k → Forall event_ok es → zlen (log_of es) ≤ through < 2 ^ 63 → (∀ f', E f') →
  wp (markEventsUpdated log (log_of es) through) (λ f' _, held f' x (Some (log_of (mark <$> es))) k) E f.
Proof.
  intros [H Hd] Hes Hz HE. pose proof Hlay as (Hlog & _). unfold markEventsUpdated.
  rewrite read_lines_log by done. apply wp_bind.
  eapply wp_lift; [apply mark_log; [done|lia..]|]. rewrite app_nil_r.
  apply wp_bind, (wp_CreateTemp _ f f); [done|done| |auto]. intros f1 Hf1.
  do 3 (apply wp_bind, (wp_syscall_from _ f); [done| |auto]; clear f1 Hf1; intros f1 Hf1).
  apply (wp_Rename _ _ _ f); [done|done|rewrite (st_log _ _ _ _ H); done| |auto].
  intros f2 Hu. split; [by eapply state_upd_log|].
  rewrite (upd_other _ _ _ _ _ Hu); [done|]. apply not_logdir. rewrite !elem_of_cons. tauto.
Qed.

Lemma wp_rebuild f x d k (E : fs → Prop) :
  held f x d k → (∀ f', E f') →
  wp (TagIndex.RebuildAllTagged s) (λ f' _, held f' (Index (idx x) (Some (tagged x))) d k) E f.
Proof.
  intros H HE. eapply wp_mono; [apply (does_rebuild s x f), H| |auto]. cbv beta.
  intros f' _ ((x' & Hr & ->) & Hs). by eapply held_rest.
Qed.
End state.
End LogState.
Import LogState.

(** ** What a replay does *)
Module Replays.

(** What an event asks for, when it is of use to the index. *)
Definition wanted (e : TagEvent) : list bytes :=
  if decide (ToLower (Op e) = str "set") then TagIndex.normalizeTags (Tags e) else [].
Definition place (e : TagEvent) : bytes :=
  match TagIndex.normalizePath (Path e) with Ok q => q | _ => [] end.

Definition replayable (e : TagEvent) : Prop :=
  event_ok e ∧ Path e ≠ []
  ∧ (IndexUpdated e = false →
     line_ok (place e) ∧ Forall plain (wanted e)
     ∧ (ToLower (Op e) = str "set" ∨ ToLower (Op e) = str "delete_all")).
#[global] Instance replayable_dec e : Decision (replayable e).
Proof. unfold replayable. apply _. Defined.

(** The tags the last pending event about [q] asks for. *)
Fixpoint last_wanted (es : list TagEvent) (q : bytes) : option (list bytes) :=
  match es with
  | [] => None
  | e :: es =>
      match last_wanted es q with
      | Some ts => Some ts
      | None => if IndexUpdated e then None else if decide (place e = q) then Some (wanted e) else None
      end
  end.

(** The index [x'] has for each path the tags last asked for, else those in [x]. *)
Definition follows (es : list TagEvent) (x x' : index) : Prop :=
  ∀ n q, q ∈ get x' n ↔ match last_wanted es q with Some ts => n ∈ ts | None => q ∈ get x n end.

Lemma follows_skip e es x x' : IndexUpdated e = true → follows es x x' → follows (e :: es) x x'.
Proof. intros Hu H n q. rewrite (H n q). cbn [last_wanted]. rewrite Hu. by destruct (last_wanted es q). Qed.

Lemma follows_step e es x x1 x' :
  IndexUpdated e = false → retagged (place e) x (wanted e) x1 → follows es x1 x' → follows (e :: es) x x'.
Proof.
  intros Hu [Hr _] H n q. rewrite (H n q). cbn [last_wanted]. rewrite Hu.
  destruct (last_wanted es q); [done|]. rewrite Hr.
  destruct (decide (place e = q)) as [<-|Hq]; case_decide; set_solver.
Qed.

Definition is_pending (e : TagEvent) : bool := negb (IndexUpdated e).
Definition pending (es : list TagEvent) : Z := zlen (filter (λ e, is_pending e = true) es).
Definition seen (es : list TagEvent) : Z := zlen es - pending es.

Lemma pending_nil : pending [] = 0 ∧ seen [] = 0.
Proof. done. Qed.
Lemma pending_cons e es :
  pending (e :: es) = (if IndexUpdated e then 0 else 1) + pending es
  ∧ seen (e :: es) = (if IndexUpdated e then 1 else 0) + seen es.
Proof.
  unfold seen, pending, is_pending. rewrite filter_cons, zlen_cons.
  destruct (IndexUpdated e); cbn [negb].
  - rewrite decide_False by done. lia.
  - rewrite decide_True by done. rewrite zlen_cons. lia.
Qed.
Lemma pending_range es : 0 ≤ pending es ≤ zlen es ∧ 0 ≤ seen es.
Proof.
  unfold seen, pending. pose proof (length_filter (λ e, is_pending e = true) es). unfold zlen. lia.
Qed.

Section replays.
Context (s : TagIndex.Store) (log cp : path) (Hlay : layout s log cp).

Lemma wp_apply_event f x d k e (E : fs → Prop) :
  held s log cp f x d k → replayable e → IndexUpdated e = false → (∀ f', E f') →
  wp (apply_event s e)
    (λ f' _, ∃ x', held s log cp f' x' d k ∧ retagged (place e) x (wanted e) x') E f.
Proof.
  intros H (_ & Hp & Hr) Hu HE. destruct (Hr Hu) as (Hline & Hpl & Hop).
  assert (TagIndex.normalizePath (Path e) = Ok (place e)) as Hq.
  { unfold place. unfold TagIndex.normalizePath. rewrite decide_False by done. by case_match. }
  assert (∀ tags, TagIndex.normalizeTags tags = wanted e →
    wp (TagIndex.SetTags s (Path e) tags)
      (λ f' _, ∃ x', held s log cp f' x' d k ∧ retagged (place e) x (wanted e) x') E f) as Hset.
  { intros tags Ht. rewrite <- Ht in Hpl.
    eapply wp_mono; [by apply (does_SetTags s (Path e) (place e) tags x Hq Hline Hpl f), H| |auto].
    cbv beta. intros f' _ ((x' & Hx & Hret & _) & Hs). exists x'. rewrite <- Ht.
    split; [by eapply held_rest|done]. }
  unfold apply_event. destruct Hop as [Ho|Ho].
  - rewrite decide_True by done. apply Hset. unfold wanted. by rewrite decide_True.
  - rewrite decide_False by (rewrite Ho; done). rewrite decide_True by done.
    apply Hset. unfold wanted. rewrite decide_False by (rewrite Ho; done). done.
Qed.

(** The loop over the lines of [es], which start at [off]. *)
Lemma wp_replay_loop es f x d k off r needs (E : fs → Prop) :
  held s log cp f x d k → Forall replayable es → 0 ≤ off → off + zlen (log_of es) < 2 ^ 63 →
  0 ≤ Applied r → 0 ≤ Skipped r → Applied r + Skipped r + zlen es < 2 ^ 63 → (∀ f', E f') →
  wp (replay_loop s (Some cp) (line_of <$> es) off r needs)
    (λ f' '(r', needs'), ∃ x', follows es x x'
       ∧ held s log cp f' x' d (if decide (es = []) then k else off + zlen (log_of es))
       ∧ r' = MkResult (StartOffset r) (if decide (es = []) then EndOffset r else off + zlen (log_of es))
                (Applied r + pending es) (Skipped r + seen es)
       ∧ needs' = needs || bool_decide (0 < pending es)) E f.
Proof.
  intros H Hes. revert f x k off r needs H. induction Hes as [|e es He Hes IH];
    intros f x k off r needs H Ho Hb Ha Hs Hc HE.
  { apply wp_ret. exists x. destruct pending_nil as [-> ->]. destruct r. rewrite orb_false_r.
    split_and!; try done. f_equal; cbn; lia. }
  rewrite fmap_cons. cbn [replay_loop]. rewrite zlen_log_cons in *. rewrite zlen_cons in Hc.
  pose proof (zlen_nonneg (log_of es)). pose proof (zlen_nonneg (line_of e)). pose proof (zlen_nonneg es).
  rewrite (decide_False (P := TrimSpace _ = [])) by apply trim_line_nonempty.
  assert (add64 off (zlen (line_of e)) = off + zlen (line_of e)) as -> by (apply swrap_id; [lia|widths; lia]).
  apply wp_bind. eapply wp_lift; [rewrite trim_line, parse_event_text; [reflexivity|apply He]|].
  rewrite decide_False by apply He. apply wp_bind.
  destruct (pending_cons e es) as [-> ->]. pose proof (pending_range es) as [Hpr Hsr].
  set (off1 := off + zlen (line_of e)).
  assert (∀ f1 x1 a1 s1 needs1,
    held s log cp f1 x1 d k → (∀ x', follows es x1 x' → follows (e :: es) x x') →
    a1 = Applied r + (if IndexUpdated e then 0 else 1) → s1 = Skipped r + (if IndexUpdated e then 1 else 0) →
    needs1 = needs || negb (IndexUpdated e) →
    wp (WriteCheckpoint (Some cp) off1 ;;
        replay_loop s (Some cp) (line_of <$> es) off1 (MkResult (StartOffset r) off1 a1 s1) needs1)
      (λ f' '(r', needs'), ∃ x', follows (e :: es) x x'
       ∧ held s log cp f' x' d (if decide (e :: es = []) then k else off + (zlen (line_of e) + zlen (log_of es)))
       ∧ r' = MkResult (StartOffset r)
                (if decide (e :: es = []) then EndOffset r else off + (zlen (line_of e) + zlen (log_of es)))
                (Applied r + ((if IndexUpdated e then 0 else 1) + pending es))
                (Skipped r + ((if IndexUpdated e then 1 else 0) + seen es))
       ∧ needs' = needs || bool_decide (0 < (if IndexUpdated e then 0 else 1) + pending es)) E f1) as Htail.
  { intros f1 x1 a1 s1 needs1 Hh1 Hf -> -> ->. apply wp_bind.
    eapply wp_mono; [apply (wp_WriteCheckpoint s log cp Hlay f1 x1 d k off1 E); [done|unfold off1; lia|done]| |done].
    cbv beta. intros f2 _ Hh2. eapply wp_mono; [apply (IH f2 x1 off1); cbn [Applied Skipped];
      [done|unfold off1; lia|unfold off1; lia|destruct (IndexUpdated e); lia..|done]| |done].
    cbv beta. intros f3 [r' needs'] (x' & Hx & Hh & -> & ->). exists x'. split; [by apply Hf|].
    rewrite !(decide_False (P := e :: es = [])) by done. cbn [StartOffset EndOffset Applied Skipped] in *.
    assert ((if decide (es = []) then off1 else off1 + zlen (log_of es))
            = off + (zlen (line_of e) + zlen (log_of es))) as Ez.
    { unfold off1. case_decide; [subst es; change (zlen (log_of [])) with 0; lia|lia]. }
    rewrite Ez in *. split; [done|]. split; [f_equal; lia|]. rewrite <- orb_assoc. f_equal.
    destruct (IndexUpdated e); cbn [negb orb]; [done|].
    symmetry. apply bool_decide_eq_true. lia. }
  destruct (IndexUpdated e) eqn:Hu; cbn [negb] in Htail.
  - apply wp_ret. cbv beta iota. cbn [StartOffset EndOffset Applied Skipped]. apply (Htail f x); [done|by intros; apply follows_skip|cbn; lia| |by rewrite orb_false_r].
    cbn. apply swrap_id; [lia|widths; lia].
  - apply wp_bind. eapply wp_mono; [by apply (wp_apply_event f x d k e E)| |done].
    cbv beta. intros f1 _ (x1 & Hh1 & Hret). apply wp_ret.
    cbv beta iota. cbn [StartOffset EndOffset Applied Skipped]. apply (Htail f1 x1); [done|by intros; eapply follows_step| |cbn; lia|by rewrite orb_true_r].
    cbn. apply swrap_id; [lia|widths; lia].
Qed.
End replays.
End Replays.
