(* ===== verification/EventsClaims.v ===== *)
(** * EventsClaims: what a replay of the tag event log achieves

    [Whole]: [ReplayTagEvents] from its checkpoint.  [Misplaced]: what the checkpoint
    of one replay does to the next.  [EventTheorems]: the statements. *)

From S2P Require Import Prelude GoStd GoText GoFs GoFsSpec GoJson GoJsonSpec.
From S2P Require Import TagIndex TagIndexSpec TagIndexProps Events EventsText EventsSpec.
Import Strings Fs Json AbstractIndex EventLines.
Import Events LogState Replays.

(** ** A whole replay *)
Module Whole.

(** A replay that starts at [k] leaves out the events [es1] of a log and takes [es2]:
    [k] is where [es2] starts, or past the end of the log, which starts over. *)
Definition resume (k : Z) (es1 es2 : list TagEvent) : Prop :=
  k = zlen (log_of es1) ∨ es1 = [] ∧ zlen (log_of es2) < k.

Definition end_of (k : Z) (es1 es2 : list TagEvent) : Z :=
  if decide (es2 = []) then k else zlen (log_of (es1 ++ es2)).
Definition marked (es1 es2 : list TagEvent) : list TagEvent :=
  if decide (0 < pending es2) then mark <$> es1 ++ es2 else es1 ++ es2.

Lemma line_pos e : 1 ≤ zlen (line_of e).
Proof. unfold line_of. rewrite zlen_app, zlen_cons. 
  pose proof (zlen_nonneg (Marshal (TagEvent_json e))). change (zlen ([] : bytes)) with 0. lia.
Qed.

Lemma zlen_events es : zlen es ≤ zlen (log_of es).
Proof.
  induction es as [|e es IH]; [done|]. rewrite zlen_log_cons, zlen_cons. pose proof (line_pos e). lia.
Qed.

Lemma drop_log es1 es2 : drop (Z.to_nat (zlen (log_of es1))) (log_of (es1 ++ es2)) = log_of es2.
Proof. rewrite log_of_app. unfold zlen. rewrite Nat2Z.id. by rewrite drop_app_length. Qed.

Lemma resume_start k es1 es2 :
  resume k es1 es2 → 0 ≤ k →
  let d := log_of (es1 ++ es2) in
  (if decide (zlen d < k) then 0 else k) = zlen (log_of es1)
  ∧ (if decide (zlen d < k) then MkResult 0 k 0 0 else MkResult k k 0 0) = MkResult (zlen (log_of es1)) k 0 0.
Proof.
  intros Hk Hk0 d. unfold d. rewrite log_of_app, zlen_app.
  pose proof (zlen_nonneg (log_of es2)). destruct Hk as [->|[-> Hk]].
  - rewrite !decide_False by lia. done.
  - rewrite !decide_True by (change (zlen (log_of [])) with 0; lia). done.
Qed.

Section whole.
Context (root : path) (log cp : path) (Hlay : layout (TagIndex.New root) log cp).
#[local] Abbreviation s := (TagIndex.New root).

Lemma wp_mark_if f x es1 es2 k (E : fs → Prop) :
  held s log cp f x (Some (log_of (es1 ++ es2))) (end_of k es1 es2) →
  Forall event_ok es1 → Forall event_ok es2 → zlen (log_of es1) + zlen (log_of es2) < 2 ^ 63 → (∀ f', E f') →
  wp (if bool_decide (0 < pending es2) then markEventsUpdated log (log_of (es1 ++ es2)) (end_of k es1 es2)
      else mret tt)
    (λ f' _, held s log cp f' x (Some (log_of (marked es1 es2))) (end_of k es1 es2)) E f.
Proof.
  intros H H1 H2 Hb HE. unfold marked. case_bool_decide as Hp.
  - rewrite decide_True by done. assert (es2 ≠ []) as Hne by (by intros ->).
    unfold end_of in *. rewrite decide_False in * by done.
    apply wp_markEventsUpdated; [done|done|by apply Forall_app|rewrite log_of_app, zlen_app; lia|done].
  - rewrite decide_False by done. by apply wp_ret.
Qed.

Lemma wp_replay f x k es1 es2 (E : fs → Prop) :
  state s log cp f x (Some (log_of (es1 ++ es2))) k → resume k es1 es2 →
  Forall event_ok es1 → Forall replayable es2 → 0 ≤ k → zlen (log_of (es1 ++ es2)) < 2 ^ 63 → (∀ f', E f') →
  wp (ReplayTagEvents log (Some cp) root)
    (λ f' r, r = MkResult (zlen (log_of es1)) (end_of k es1 es2) (pending es2) (seen es2)
       ∧ ∃ x', follows es2 x x'
           ∧ state s log cp f' (Index (idx x') (Some (tagged x'))) (Some (log_of (marked es1 es2)))
               (end_of k es1 es2)) E f.
Proof.
  intros H Hk H1 H2 Hk0 Hb HE. unfold ReplayTagEvents.
  apply wp_bind. eapply wp_mono; [by apply (wp_ReadCheckpoint s log cp f x (Some (log_of (es1 ++ es2))) k E)| |done].
  cbv beta. intros f1 z [Hs1 ->].
  apply wp_bind. eapply wp_mono; [by apply (wp_lockEventLog s log cp Hlay f1 x (Some (log_of (es1 ++ es2))) k E)| |done].
  cbv beta. intros f2 _ Hh2. pose proof (proj1 Hh2) as Hs2. pose proof (st_log _ _ _ _ _ _ _ Hs2) as Hl2.
  apply wp_bind, wp_read_optional; [exact (st_logdir _ _ _ _ _ _ _ Hs2)|by rewrite Hl2| |auto].
  intros f3 Hf3. rewrite Hl2. cbn [fmap option_fmap option_map].
  assert (held s log cp f3 x (Some (log_of (es1 ++ es2))) k) as Hh3 by (by eapply held_nodes).
  cbv beta iota zeta. destruct (resume_start k es1 es2 Hk Hk0) as [-> ->].
  pose proof (zlen_nonneg (log_of es1)). rewrite decide_False by lia. rewrite drop_log.
  assert (Forall event_ok es2) as H2' by (eapply Forall_impl; [exact H2|]; intros e He; apply He).
  rewrite read_lines_log by done. apply wp_bind.
  rewrite log_of_app, zlen_app in Hb. pose proof (zlen_events es2). pose proof (zlen_nonneg (log_of es2)).
  eapply wp_mono; [apply (wp_replay_loop s log cp Hlay es2 f3 x (Some (log_of (es1 ++ es2))) k (zlen (log_of es1)) (MkResult (zlen (log_of es1)) k 0 0) false E); cbn [Applied Skipped];
    [done|done|lia..|done]| |done].
  cbv beta. intros f4 [r needs] (x4 & Hfol & Hh4 & -> & ->). cbn [StartOffset EndOffset Applied Skipped orb].
  assert ((if decide (es2 = []) then k else zlen (log_of es1) + zlen (log_of es2)) = end_of k es1 es2) as Ee.
  { unfold end_of. rewrite log_of_app, zlen_app. done. }
  rewrite Ee in *. rewrite !Z.add_0_l. apply wp_bind.
  eapply wp_mono; [apply (wp_mark_if f4 x4 es1 es2 k E); done| |done].
  cbv beta. intros f5 _ Hh5. apply wp_bind.
  eapply wp_mono; [by apply (wp_rebuild s log cp Hlay f5 x4 (Some (log_of (marked es1 es2))) (end_of k es1 es2) E)| |done].
  cbv beta. intros f6 _ Hh6. apply wp_ret. split; [done|]. exists x4. split; [done|apply Hh6].
Qed.
End whole.
End Whole.
Import Whole.

(** ** A checkpoint that points into a line *)
Module Misplaced.

(** All but the first byte of the line of an event. *)
Lemma line_tail e :
  event_ok e →
  ∃ s, line_of e = 123 :: s ++ [10] ∧ 10 ∉ s
    ∧ TrimSpace (s ++ [10]) = s ∧ s ≠ [] ∧ parse_event s = Fail ErrSyntax.
Proof.
  intros He. destruct (tag_event_ends e) as [m Hm].
  assert (10 ∉ Marshal (TagEvent_json e)) as Hn by (eapply OneLine.print_line, tag_event_printable, He).
  assert (∃ t, Marshal (TagEvent_json e) = [123; 34; 116; 115; 34; 58] ++ t) as [t Ht].
  { unfold Marshal, TagEvent_json. cbn [print map app]. unfold bracketed. cbn [newline fst snd].
    generalize (print false 1 (JInt (Ts e))) as v. intros v.
    destruct (map _ (omit _ _ ++ _)); cbn [join]; eexists; reflexivity. }
  exists (m ++ [125]). unfold line_of. rewrite Hm. split; [done|].
  rewrite Hm in Ht, Hn. destruct m as [|c m]; [done|]. cbn [app] in Ht. injection Ht as -> Ht.
  split; [set_solver|]. cbn [app].
  assert (TrimSpace ((34 :: m ++ [125]) ++ [10]) = 34 :: m ++ [125]) as Htr.
  { apply HotnessText.Trims.TrimSpace_newline; [|done]. apply HotnessText.Trims.trimmed_between; decided. }
  split; [exact Htr|]. split; [done|]. rewrite Ht. unfold parse_event, parse.
  reflexivity.
Qed.

Lemma run_bind {A B} (m : SE fs A) (c : A → SE fs B) f f' a : m f = (f', Ok a) → (m ≫= c) f = c a f'.
Proof. intros H. unfold mbind, SE_bind. by rewrite H. Qed.

Section misplaced.
Context (root : path) (log cp : path) (Hlay : layout (TagIndex.New root) log cp).
#[local] Abbreviation s := (TagIndex.New root).

Definition stuck (es : list TagEvent) (e : TagEvent) (es' : list TagEvent) (f : fs) (x : index) : Prop :=
  state s log cp f x (Some (log_of (es ++ e :: es'))) (zlen (log_of es) + 1) ∧ faults f = [].

Lemma replay_misplaced f x es e es' :
  stuck es e es' f x → event_ok e →
  ∃ f', ReplayTagEvents log (Some cp) root f = (f', Fail (Errorf "parse event at offset %d: %w"))
    ∧ stuck es e es' f' x.
Proof.
  intros [H Hq] He. set (d := log_of (es ++ e :: es')). set (k := zlen (log_of es) + 1).
  destruct (wp_run _ _ _ _ (wp_ReadCheckpoint s log cp f x (Some d) k (λ _, True) H (λ _, I)) Hq)
    as (f1 & ? & R1 & Q1 & Hs1 & ->).
  destruct (wp_run _ _ _ _ (wp_lockEventLog s log cp Hlay f1 x (Some d) k (λ _, True) Hs1 (λ _, I)) Q1)
    as (f2 & [] & R2 & Q2 & Hh2).
  pose proof (proj1 Hh2) as Hs2. pose proof (st_log _ _ _ _ _ _ _ Hs2) as Hl2.
  destruct (wp_run _ _ _ _ (wp_read_optional f2 log (λ f' o, nodes f' = nodes f2 ∧ o = Some d) (λ _, True)
     (st_logdir _ _ _ _ _ _ _ Hs2) ltac:(by rewrite Hl2) ltac:(intros; by rewrite Hl2) (λ _ _, I)) Q2)
    as (f3 & ? & R3 & Q3 & Hf3 & ->).
  exists f3. split; [|split; [by eapply state_nodes|done]].
  unfold ReplayTagEvents. rewrite (run_bind _ _ _ _ _ R1), (run_bind _ _ _ _ _ R2), (run_bind _ _ _ _ _ R3).
  destruct (line_tail e He) as (t & Ht & Hnt & Htrim & Hne & Hparse).
  assert (d = log_of es ++ (123 :: t ++ [10]) ++ log_of es') as Ed.
  { unfold d. rewrite log_of_app. unfold log_of at 2. cbn [mbind list_bind]. by rewrite Ht. }
  assert (drop (Z.to_nat k) d = t ++ 10 :: log_of es') as Edrop.
  { unfold k. rewrite Ed. unfold zlen. replace (Z.to_nat _) with (length (log_of es) + 1)%nat by lia.
    rewrite drop_app_add. cbn [app drop]. by rewrite <- app_assoc. }
  pose proof (zlen_nonneg (log_of es)).
  assert (¬ zlen d < k) as Hk.
  { unfold k. rewrite Ed, zlen_app. cbn [app]. rewrite zlen_cons.
    pose proof (zlen_nonneg ((t ++ [10]) ++ log_of es')). lia. }
  rewrite !(decide_False (P := zlen d < k)) by done. rewrite decide_False by lia.
  rewrite Edrop, read_lines_line by done. cbn [replay_loop app].
  rewrite Htrim, decide_False by done. rewrite Hparse. done.
Qed.
(** Later calls: an event is appended, or the log is replayed. *)
Definition later (op : option TagEvent) (f : fs) : fs :=
  match op with
  | Some e => (AppendTagEvent (Some log) e f).1
  | None => (ReplayTagEvents log (Some cp) root f).1
  end.

Lemma append_run f x d k e :
  state s log cp f x d k → faults f = [] →
  ∃ f', AppendTagEvent (Some log) e f = (f', Ok tt) ∧ faults f' = []
    ∧ state s log cp f' x (Some (default [] d ++ line_of e)) k.
Proof.
  intros H Hq.
  destruct (wp_run _ _ _ _ (wp_AppendTagEvent s log cp Hlay f x d k e (λ _, True) H (λ _, I)) Hq)
    as (f' & [] & R & Q & Hs). eauto.
Qed.

Lemma log_of_snoc es e : log_of (es ++ [e]) = log_of es ++ line_of e.
Proof. rewrite log_of_app. unfold log_of at 2. cbn [mbind list_bind]. by rewrite app_nil_r. Qed.

Lemma stuck_later es e es' f x ops :
  stuck es e es' f x → event_ok e → ∃ es'', stuck es e es'' (foldl (λ f op, later op f) f ops) x.
Proof.
  intros H He. revert es' f H. induction ops as [|[e'|] ops IH]; intros es' f H; cbn [foldl later].
  - eauto.
  - destruct H as [H Hq]. destruct (append_run f x _ _ e' H Hq) as (f' & -> & Hq' & H').
    apply (IH (es' ++ [e'])). split; [|done].
    rewrite app_comm_cons, app_assoc, log_of_snoc. exact H'.
  - destruct (replay_misplaced f x es e es' H He) as (f' & -> & H'). by apply (IH es').
Qed.

Lemma mark_same es : Forall (λ e, IndexUpdated e = true) es → mark <$> es = es.
Proof.
  induction 1 as [|e es He _ IH]; [done|]. rewrite fmap_cons, IH. f_equal. destruct e. unfold mark; cbn in *. by subst.
Qed.

(** One pending event, at the end of the log. *)
Lemma marked_last es1 e1 :
  Forall (λ e, IndexUpdated e = true) es1 → IndexUpdated e1 = false →
  marked es1 [e1] = es1 ++ [mark e1] ∧ zlen (log_of (es1 ++ [e1])) = zlen (log_of (es1 ++ [mark e1])) + 1.
Proof.
  intros H1 Hu. unfold marked. destruct (pending_cons e1 []) as [-> _]. rewrite Hu.
  rewrite decide_True by done. rewrite fmap_app, mark_same by done. split; [done|].
  rewrite !log_of_snoc, !zlen_app, (mark_shorter e1) by done. lia.
Qed.
End misplaced.
End Misplaced.
Import Misplaced.

Module EventTheorems.

(** C28: [ReplayTagEvents], when its checkpoint is at the start of a line or past the end
    of the log (which starts over), no system call fails, and the paths and tags of the
    events left can be stored (trimmed paths, tags that name files): it takes the events
    from there on, gives every path the tags of the last pending event about it and leaves
    all other paths alone, rebuilds the list of tagged paths, marks the log, moves the
    checkpoint, and reports how many events it applied and skipped.  The checkpoint it
    writes itself need not be such a place once more is appended: [replay_loses_place]. *)
Theorem replay_applies root log cp f x k es1 es2 :
  layout (TagIndex.New root) log cp →
  state (TagIndex.New root) log cp f x (Some (log_of (es1 ++ es2))) k → faults f = [] →
  resume k es1 es2 → 0 ≤ k → zlen (log_of (es1 ++ es2)) < 2 ^ 63 →
  Forall event_ok es1 → Forall replayable es2 →
  ∃ f' x',
    ReplayTagEvents log (Some cp) root f
      = (f', Ok (MkResult (zlen (log_of es1)) (end_of k es1 es2) (pending es2) (seen es2)))
    ∧ follows es2 x x' ∧ consistent x'
    ∧ state (TagIndex.New root) log cp f' x' (Some (log_of (marked es1 es2))) (end_of k es1 es2).
Proof.
  intros Hl H Hq Hk Hk0 Hb H1 H2.
  destruct (wp_run _ _ _ _ (wp_replay root log cp Hl f x k es1 es2 (λ _, True) H Hk H1 H2 Hk0 Hb (λ _, I)) Hq)
    as (f' & r & R & _ & -> & x' & Hf & Hs).
  exists f', (Index (idx x') (Some (tagged x'))). done.
Qed.

(** C29: The checkpoint of a replay that applied one event points one byte past the
    rewritten log.  When an event is appended before the next replay, that replay
    starts inside its line, fails to parse the rest of it, and so does every later
    one, whatever is appended and replayed in between: the index stays as it is. *)
Theorem replay_loses_place root log cp f x es1 e1 e2 :
  layout (TagIndex.New root) log cp →
  state (TagIndex.New root) log cp f x (Some (log_of (es1 ++ [e1]))) (zlen (log_of es1)) → faults f = [] →
  zlen (log_of (es1 ++ [e1])) < 2 ^ 63 →
  Forall event_ok es1 → Forall (λ e, IndexUpdated e = true) es1 →
  replayable e1 → IndexUpdated e1 = false → event_ok e2 →
  ∃ f1 r f2 x',
    ReplayTagEvents log (Some cp) root f = (f1, Ok r) ∧ follows [e1] x x'
    ∧ AppendTagEvent (Some log) e2 f1 = (f2, Ok tt)
    ∧ ∀ ops, let f' := foldl (λ f op, later root log cp op f) f2 ops in
        (ReplayTagEvents log (Some cp) root f').2 = Fail (Errorf "parse event at offset %d: %w")
        ∧ rep (TagIndex.New root) f' x'.
Proof.
  intros Hl H Hq Hb H1 Hall Hr Hu He2.
  assert (resume (zlen (log_of es1)) es1 [e1]) as Hk by by left.
  destruct (wp_run _ _ _ _ (wp_replay root log cp Hl f x _ es1 [e1] (λ _, True) H Hk H1
    ltac:(by constructor) (zlen_nonneg _) Hb (λ _, I)) Hq) as (f1 & r & R & Q1 & _ & x' & Hf & Hs).
  destruct (marked_last es1 e1 Hall Hu) as [Em El]. rewrite Em in Hs.
  destruct (append_run root log cp Hl _ _ _ _ e2 Hs Q1) as (f2 & R2 & Q2 & Hs2).
  exists f1, r, f2, (Index (idx x') (Some (tagged x'))). split; [done|]. split; [done|]. split; [done|].
  intros ops f'.
  assert (stuck root log cp (es1 ++ [mark e1]) e2 [] f2 (Index (idx x') (Some (tagged x')))) as Hst.
  { split; [|done]. rewrite log_of_snoc. unfold end_of in Hs2. rewrite decide_False, El in Hs2 by done. exact Hs2. }
  destruct (stuck_later root log cp Hl _ _ _ _ _ ops Hst He2) as [es'' Hs'].
  destruct (replay_misplaced root log cp Hl _ _ _ _ _ Hs' He2) as (f3 & R3 & _).
  split; [unfold f'; by rewrite R3|]. exact (st_rep _ _ _ _ _ _ _ (proj1 Hs')).
Qed.

(** *** Witnesses *)

Definition a_root : path := [str "index"].
Definition a_log : path := [str "index"; str "events"; str "events.log"].
Definition a_cp : path := [str "index"; str "events"; str "offset"].
Definition first_event : TagEvent := MkTagEvent 1 (str "s3") (str "set") (str "/a.txt") [str "red"; str "big"] false.
Definition next_event : TagEvent := MkTagEvent 2 [] (str "delete_all") (str "/a.txt") [] false.
Definition a_disk : fs := (AppendTagEvent (Some a_log) first_event (MkFs ∅ [])).1.

Lemma a_layout : layout (TagIndex.New a_root) a_log a_cp.
Proof. decided. Qed.

Lemma empty_disk_state s log cp :
  layout s log cp → state s log cp (MkFs ∅ []) (Index ∅ None) None 0.
Proof.
  intros (Hl & Hc & _ & _).
  assert (∀ q, q ≠ [] → node_at (MkFs ∅ []) q = None) as Hn.
  { intros [] ?; [done|]. apply lookup_empty. }
  assert (∀ d, nofile (MkFs ∅ []) d) as Hd.
  { intros d [|c q] _; [done|]. by rewrite Hn. }
  split; [apply TagClaims.rep_empty_disk|done|done|..]; rewrite Hn by (done || apply with_suffix_nonempty); done.
Qed.

Lemma a_disk_state :
  state (TagIndex.New a_root) a_log a_cp a_disk (Index ∅ None) (Some (log_of ([] ++ [first_event]))) 0
  ∧ faults a_disk = [].
Proof.
  destruct (append_run a_root a_log a_cp a_layout (MkFs ∅ []) (Index ∅ None) None 0 first_event)
    as (f & R & Q & H); [apply empty_disk_state, a_layout|done|].
  unfold a_disk. rewrite R, log_of_snoc. done.
Qed.

Lemma replay_applies_witness :
  ∃ f' x',
    ReplayTagEvents a_log (Some a_cp) a_root a_disk
      = (f', Ok (MkResult 0 (end_of 0 [] [first_event]) (pending [first_event]) (seen [first_event])))
    ∧ follows [first_event] (Index ∅ None) x' ∧ consistent x'
    ∧ state (TagIndex.New a_root) a_log a_cp f' x' (Some (log_of (marked [] [first_event])))
        (end_of 0 [] [first_event]).
Proof.
  apply (replay_applies a_root a_log a_cp a_disk (Index ∅ None) 0 [] [first_event]).
  - apply a_layout.
  - apply a_disk_state.
  - apply a_disk_state.
  - left. reflexivity.
  - lia.
  - vm_compute. reflexivity.
  - constructor.
  - decided.
Defined.

Lemma replay_loses_place_witness :
  ∃ f1 r f2 x',
    ReplayTagEvents a_log (Some a_cp) a_root a_disk = (f1, Ok r) ∧ follows [first_event] (Index ∅ None) x'
    ∧ AppendTagEvent (Some a_log) next_event f1 = (f2, Ok tt)
    ∧ ∀ ops, let f' := foldl (λ f op, later a_root a_log a_cp op f) f2 ops in
        (ReplayTagEvents a_log (Some a_cp) a_root f').2 = Fail (Errorf "parse event at offset %d: %w")
        ∧ rep (TagIndex.New a_root) f' x'.
Proof.
  apply (replay_loses_place a_root a_log a_cp a_disk (Index ∅ None) [] first_event next_event).
  - apply a_layout.
  - apply a_disk_state.
  - apply a_disk_state.
  - vm_compute. reflexivity.
  - constructor.
  - constructor.
  - decided.
  - reflexivity.
  - decided.
Defined.

(** What the example asks for: the path has both tags, and no other path has any. *)
Example first_event_asks :
  last_wanted [first_event] (str "/a.txt") = Some [str "big"; str "red"]
  ∧ last_wanted [first_event; next_event] (str "/a.txt") = Some []
  ∧ last_wanted [first_event] (str "/b.txt") = None.
Proof. vm_compute. repeat split; reflexivity. Qed.
End EventTheorems.
