(* ===== verification/FilerChunks.v ===== *)
(** * FilerChunks: the chunks of a file in the filer

    A file is a list of chunks, each holding a range of its bytes with a
    modification time; where chunks overlap the newest is visible.  Modelled:
    interval lists (interval_list.go), the sweep that computes the visible
    intervals (filechunks_read.go), chunk views, manifests and garbage
    (filechunks.go, filechunk_manifest.go), the sections of an open file
    (filechunk_section.go, filechunk_group.go) and reading through the views
    (reader_at.go).  Locks, caches and prefetching are left out.

    The doubly linked list of the source is the list of its nodes from the first
    to the last; a node inserted or cut by [insertInterval] is one of that list. *)

From S2P Require Import Prelude GoStd.

(** ** Interval lists *)
Module IntervalList.

(** The interface [IntervalValue]; [Clone] copies, which a value needs not. *)
Class IntervalValue (T : Type) := SetStartStop : T → Z → Z → T.

Section list.
Context {T : Type} `{!IntervalValue T}.

Record Interval := MkInterval {
  StartOffset : Z; StopOffset : Z; TsNs : Z; Value : T;
}.

Definition Size (i : Interval) : Z := sub64 (StopOffset i) (StartOffset i).

(** Move the start of a node and of its value. *)
Definition set_start (i : Interval) (start : Z) : Interval :=
  MkInterval start (StopOffset i) (TsNs i) (SetStartStop (Value i) start (StopOffset i)).
(** The clone [t] of a node, from its start to [stop]. *)
Definition left_of (i : Interval) (stop : Z) : Interval :=
  MkInterval (StartOffset i) stop (TsNs i) (SetStartStop (Value i) (StartOffset i) stop).

Definition NewIntervalList : list Interval := [].
Definition AppendInterval (l : list Interval) (i : Interval) : list Interval := l ++ [i].
Definition Len (l : list Interval) : Z := zlen l.

(** [rest] starts at [next]. *)
Fixpoint insertInterval (interval : Interval) (rest : list Interval) : list Interval :=
  if decide (StopOffset interval ≤ StartOffset interval) then rest
  else
    match rest with
    | [] => [interval]
    | next :: rest' =>
        if decide (StopOffset interval ≤ StartOffset next) then interval :: next :: rest'
        else if decide (StopOffset next ≤ StartOffset interval) then
          next :: insertInterval interval rest'
        else if decide (TsNs next ≤ TsNs interval) then
          (* interval is newer *)
          let '(t, next) :=
            if decide (StartOffset next < StartOffset interval)
            then ([left_of next (StartOffset interval)], set_start next (StartOffset interval))
            else ([], next) in
          if decide (StopOffset interval < StopOffset next)
          then t ++ interval :: set_start next (StopOffset interval) :: rest'
          else t ++ insertInterval interval rest'
        else
          (* next is newer *)
          let '(t, interval) :=
            if decide (StartOffset interval < StartOffset next)
            then ([left_of interval (StartOffset next)], set_start interval (StartOffset next))
            else ([], interval) in
          if decide (StopOffset next < StopOffset interval)
          then t ++ next :: insertInterval (set_start interval (StopOffset next)) rest'
          else t ++ next :: rest'
    end.

Definition InsertInterval (l : list Interval) (startOffset stopOffset tsNs : Z) (value : T) :
    list Interval :=
  insertInterval
    (MkInterval startOffset stopOffset tsNs (SetStartStop value startOffset stopOffset)) l.

(** The nodes before [p.Next], and the nodes after [q.Prev]. *)
Fixpoint before_start (l : list Interval) (start : Z) : list Interval * list Interval :=
  match l with
  | [] => ([], [])
  | i :: l' => if decide (StopOffset i ≤ start)
               then let '(a, b) := before_start l' start in (i :: a, b) else ([], l)
  end.
Fixpoint after_stop (rev_l : list Interval) (stop : Z) (acc : list Interval) :
    list Interval * list Interval :=
  match rev_l with
  | [] => ([], acc)
  | i :: l' => if decide (stop ≤ StartOffset i) then after_stop l' stop (i :: acc) else (rev_l, acc)
  end.

(** Values are shared by the pieces, not adjusted. *)
Definition overlayInterval (l : list Interval) (interval : Interval) : list Interval :=
  let '(front, from_p) := before_start l (StartOffset interval) in
  let '(upto_q, back) := after_stop (reverse l) (StopOffset interval) [] in
  let t := match from_p with
    | n :: _ => if decide (StartOffset n < StartOffset interval)
                then [MkInterval (StartOffset n) (StartOffset interval) (TsNs n) (Value n)] else []
    | [] => []
    end in
  let t' := match upto_q with
    | n :: _ => if decide (StopOffset interval < StopOffset n)
                then [MkInterval (StopOffset interval) (StopOffset n) (TsNs n) (Value n)] else []
    | [] => []
    end in
  front ++ t ++ interval :: t' ++ back.

Definition Overlay (l : list Interval) (startOffset stopOffset tsNs : Z) (value : T) :
    list Interval :=
  if decide (stopOffset ≤ startOffset) then l
  else overlayInterval l (MkInterval startOffset stopOffset tsNs value).
End list.
Arguments Interval : clear implicits.
End IntervalList.

(** ** File chunks and their views *)
Module FileChunks.
Import IntervalList.

Definition MaxInt64 : Z := 2 ^ 63 - 1.

(** The fields of [filer_pb.FileChunk] the code reads.  [FileId] is the string
    [GetFileIdString] returns (entries are deserialised with it filled in). *)
Record FileChunk := MkChunk {
  FileId : bytes; Offset : Z; Size : Z; ModifiedTsNs : Z;
  CipherKey : bytes; IsCompressed : bool; IsChunkManifest : bool; SourceFileId : bytes;
  SseType : Z;
}.
#[global] Instance FileChunk_eq_dec : EqDecision FileChunk.
Proof. solve_decision. Defined.

Record VisibleInterval := MkVisible {
  v_start : Z; v_stop : Z; v_modifiedTsNs : Z; v_fileId : bytes;
  v_offsetInChunk : Z; v_chunkSize : Z; v_cipherKey : bytes; v_isGzipped : bool;
}.
#[global] Instance VisibleInterval_value : IntervalValue VisibleInterval := λ v start stop,
  MkVisible start stop (v_modifiedTsNs v) (v_fileId v)
    (add64 (v_offsetInChunk v) (sub64 start (v_start v)))
    (v_chunkSize v) (v_cipherKey v) (v_isGzipped v).

Record ChunkView := MkView {
  cv_FileId : bytes; cv_OffsetInChunk : Z; cv_ViewSize : Z; cv_ViewOffset : Z;
  cv_ChunkSize : Z; cv_CipherKey : bytes; cv_IsGzipped : bool; cv_ModifiedTsNs : Z;
}.
#[global] Instance ChunkView_value : IntervalValue ChunkView := λ cv start stop,
  MkView (cv_FileId cv) (add64 (cv_OffsetInChunk cv) (sub64 start (cv_ViewOffset cv)))
    (u64 (stop - start)) start (cv_ChunkSize cv) (cv_CipherKey cv) (cv_IsGzipped cv)
    (cv_ModifiedTsNs cv).

Definition IsFullChunk (cv : ChunkView) : bool :=
  bool_decide (cv_OffsetInChunk cv = 0) && bool_decide (cv_ViewSize cv = cv_ChunkSize cv).

Definition min (x y : Z) : Z := if decide (x ≤ y) then x else y.
Definition max (x y : Z) : Z := if decide (x ≤ y) then y else x.

(** [chunk.Offset + int64(chunk.Size)]. *)
Definition chunk_stop (c : FileChunk) : Z := add64 (Offset c) (s64 (Size c)).

Definition TotalSize (chunks : list FileChunk) : Z :=
  foldl (λ size c, let t := u64 (chunk_stop c) in if decide (size < t) then t else size) 0 chunks.

(** *** The sweep over chunk ends *)

Record Point := MkPoint { x : Z; ts : Z; chunk : FileChunk; isStart : bool }.

Definition point_cmp (a b : Point) : Z :=
  if decide (x a ≠ x b) then sub64 (x a) (x b)
  else if decide (ts a ≠ ts b) then sub64 (ts a) (ts b)
  else if isStart a then 1
  else if isStart b then -1
  else 0.

Fixpoint points_of (chunks : list FileChunk) (startOffset stopOffset : Z) : list Point :=
  match chunks with
  | [] => []
  | c :: chunks =>
      let start := max (Offset c) startOffset in
      let stop := min (chunk_stop c) stopOffset in
      if decide (stop ≤ start) then points_of chunks startOffset stopOffset
      else MkPoint (Offset c) (ModifiedTsNs c) c true
           :: MkPoint (chunk_stop c) (ModifiedTsNs c) c false
           :: points_of chunks startOffset stopOffset
  end.

Definition addToVisibles (visibles : list (Interval VisibleInterval)) (prevX : Z)
    (startPoint point : Point) : list (Interval VisibleInterval) :=
  if decide (prevX < x point) then
    let c := chunk startPoint in
    let v := MkVisible prevX (x point) (ModifiedTsNs c) (FileId c) (sub64 prevX (Offset c))
               (Size c) (CipherKey c) (IsCompressed c) in
    AppendInterval visibles (MkInterval (v_start v) (v_stop v) (v_modifiedTsNs v) v)
  else visibles.

(** [queue.InsertBefore] the first point that is newer; without one, nothing. *)
Fixpoint insert_before_newer (queue : list Point) (point : Point) : list Point :=
  match queue with
  | [] => []
  | e :: queue => if decide (ts point < ts e) then point :: e :: queue
                  else e :: insert_before_newer queue point
  end.

(** From the back: remove the first point with the time; [isLast] when that is the
    back of the queue, or the queue is empty. *)
Fixpoint remove_ts (rev_queue : list Point) (t : Z) : list Point :=
  match rev_queue with
  | [] => []
  | e :: queue => if decide (ts e = t) then queue else e :: remove_ts queue t
  end.
Definition is_last (queue : list Point) (t : Z) : bool :=
  match last queue with Some e => bool_decide (ts e = t) | None => true end.

Record sweep := Sweep {
  prevX : Z; queue : list Point; visibles : list (Interval VisibleInterval);
}.

Definition sweep_step (s : sweep) (point : Point) : sweep :=
  let prevPoint := last (queue s) in
  if isStart point then
    let '(px, vis) :=
      match prevPoint with
      | Some p => if decide (x point ≠ prevX s ∧ ts p < ts point)
                  then (x point, addToVisibles (visibles s) (prevX s) p point)
                  else (prevX s, visibles s)
      | None => (prevX s, visibles s)
      end in
    match prevPoint with
    | Some p => if decide (ts p < ts point) then Sweep (x point) (queue s ++ [point]) vis
                else Sweep px (insert_before_newer (queue s) point) vis
    | None => Sweep (x point) (queue s ++ [point]) vis
    end
  else
    let q := reverse (remove_ts (reverse (queue s)) (ts point)) in
    match prevPoint with
    | Some p => if is_last (queue s) (ts point)
                then Sweep (x point) q (addToVisibles (visibles s) (prevX s) p point)
                else Sweep (prevX s) q (visibles s)
    | None => Sweep (prevX s) q (visibles s)
    end.

Section chunks.
(** [slices.SortFunc] of more than 12 points, and the manifest of a chunk as
    fetched from a volume server and unmarshalled. *)
Context (sort_long : (Point → Point → Z) → list Point → list Point).
Context (fetchManifest : FileChunk → res (list FileChunk)).

Definition readResolvedChunks (chunks : list FileChunk) (startOffset stopOffset : Z) :
    list (Interval VisibleInterval) :=
  visibles (foldl sweep_step (Sweep 0 [] [])
    (Slices.SortFunc sort_long point_cmp (points_of chunks startOffset stopOffset))).

(** *** Manifests *)

Definition HasChunkManifest (chunks : list FileChunk) : bool := existsb IsChunkManifest chunks.

Definition SeparateManifestChunks (chunks : list FileChunk) : list FileChunk * list FileChunk :=
  (filter (λ c, IsChunkManifest c = true) chunks, filter (λ c, IsChunkManifest c = false) chunks).

Definition ResolveOneChunkManifest (c : FileChunk) : res (list FileChunk) :=
  if IsChunkManifest c then fetchManifest c else Ok [].

(** [depth] bounds the nesting of manifests; running out of it is a [Panic]. *)
Fixpoint ResolveChunkManifest (depth : nat) (chunks : list FileChunk)
    (startOffset stopOffset : Z) : res (list FileChunk * list FileChunk) :=
  match depth with
  | O => Panic
  | S depth =>
      foldl (λ acc c,
        '(data, manifests) ← acc;
        if decide (min (chunk_stop c) stopOffset ≤ max (Offset c) startOffset) then
          Ok (data, manifests)
        else if negb (IsChunkManifest c) then Ok (data ++ [c], manifests)
        else
          resolved ← ResolveOneChunkManifest c;
          '(subData, subManifests) ← ResolveChunkManifest depth resolved startOffset stopOffset;
          Ok (data ++ subData, manifests ++ [c] ++ subManifests))
        (Ok ([], [])) chunks
  end.

Definition NonOverlappingVisibleIntervals (depth : nat) (chunks : list FileChunk)
    (startOffset stopOffset : Z) : res (list (Interval VisibleInterval)) :=
  '(data, _) ← ResolveChunkManifest depth chunks startOffset stopOffset;
  Ok (readResolvedChunks data 0 MaxInt64).

(** *** Views *)

Definition ViewFromVisibleIntervals (visibles : list (Interval VisibleInterval))
    (offset size : Z) : list (Interval ChunkView) :=
  let stop := add64 offset size in
  let stop := if decide (size = MaxInt64) then MaxInt64 else stop in
  let stop := if decide (stop < offset) then MaxInt64 else stop in
  foldl (λ views iv,
    let c := Value iv in
    let chunkStart := max offset (v_start c) in
    let chunkStop := min stop (v_stop c) in
    if decide (chunkStart < chunkStop) then
      AppendInterval views (MkInterval chunkStart chunkStop (v_modifiedTsNs c)
        (MkView (v_fileId c) (add64 (sub64 chunkStart (v_start c)) (v_offsetInChunk c))
           (u64 (chunkStop - chunkStart)) chunkStart (v_chunkSize c) (v_cipherKey c)
           (v_isGzipped c) (v_modifiedTsNs c)))
    else views) NewIntervalList visibles.

(** The error of a failed resolution is dropped; the nil list that comes with it is
    dereferenced. *)
Definition ViewFromChunks (depth : nat) (chunks : list FileChunk) (offset size : Z) :
    res (list (Interval ChunkView)) :=
  match NonOverlappingVisibleIntervals depth chunks offset (add64 offset size) with
  | Ok visibles => Ok (ViewFromVisibleIntervals visibles offset size)
  | Fail _ => Panic
  | Panic => Panic
  end.

Definition MergeIntoVisibles (visibles : list (Interval VisibleInterval)) (start stop : Z)
    (c : FileChunk) : list (Interval VisibleInterval) :=
  InsertInterval visibles start stop (ModifiedTsNs c)
    (MkVisible start stop (ModifiedTsNs c) (FileId c) (sub64 start (Offset c)) (Size c)
       (CipherKey c) (IsCompressed c)).

Definition MergeIntoChunkViews (chunkViews : list (Interval ChunkView)) (start stop : Z)
    (c : FileChunk) : list (Interval ChunkView) :=
  InsertInterval chunkViews start stop (ModifiedTsNs c)
    (MkView (FileId c) (sub64 start (Offset c)) (u64 (stop - start)) start (Size c)
       (CipherKey c) (IsCompressed c) (ModifiedTsNs c)).

(** *** Garbage *)

Definition visible_ids (visibles : list (Interval VisibleInterval)) : gset bytes :=
  list_to_set ((λ iv, v_fileId (Value iv)) <$> visibles).

Definition SeparateGarbageChunks (visibles : list (Interval VisibleInterval))
    (chunks : list FileChunk) : list FileChunk * list FileChunk :=
  let fileIds := visible_ids visibles in
  (filter (λ c, FileId c ∈ fileIds) chunks, filter (λ c, FileId c ∉ fileIds) chunks).

(** As in [ViewFromChunks], a failed resolution ends in a nil dereference. *)
Definition CompactFileChunks (depth : nat) (chunks : list FileChunk) :
    res (list FileChunk * list FileChunk) :=
  match NonOverlappingVisibleIntervals depth chunks 0 MaxInt64 with
  | Ok visibles => Ok (SeparateGarbageChunks visibles chunks)
  | Fail _ => Panic
  | Panic => Panic
  end.

Definition FindGarbageChunks (visibles : list (Interval VisibleInterval)) (start stop : Z) :
    gset bytes :=
  list_to_set ((λ iv, v_fileId (Value iv)) <$> filter (λ iv,
    let v := Value iv in
    let offset := sub64 (v_start v) (v_offsetInChunk v) in
    start ≤ offset ∧ add64 offset (s64 (v_chunkSize v)) ≤ stop) visibles).

Definition DoMinusChunks (as_ bs : list FileChunk) : list FileChunk :=
  let fileIds : gset bytes := list_to_set (FileId <$> bs) in
  filter (λ c, FileId c ∉ fileIds) as_.

Definition DoMinusChunksBySourceFileId (as_ bs : list FileChunk) : list FileChunk :=
  let fileIds : gset bytes := list_to_set (FileId <$> bs) ∪ list_to_set (SourceFileId <$> bs) in
  filter (λ c, SourceFileId c ∉ fileIds ∧ FileId c ∉ fileIds) as_.

Definition MinusChunks (depth : nat) (as_ bs : list FileChunk) : res (list FileChunk) :=
  '(aData, aMeta) ← ResolveChunkManifest depth as_ 0 MaxInt64;
  '(bData, bMeta) ← ResolveChunkManifest depth bs 0 MaxInt64;
  Ok (DoMinusChunks aData bData ++ DoMinusChunks aMeta bMeta).
End chunks.
End FileChunks.
