(* ===== verification/FilerChunksSpec.v ===== *)
(** * FilerChunksSpec: the newest chunk is the visible one

    What a list of intervals says at an offset is a [cell]: the chunk to read, the
    position inside it and its time.  [insertInterval] merges cells by time, the
    sweep of [readResolvedChunks] computes the newest chunk at every offset, and so
    the two ways to maintain the visible intervals of a file agree. *)

From S2P Require Import Prelude GoStd FilerChunks.
Import IntervalList FileChunks.

(** ** Cells *)
Module Cells.

Record cell := Cell {
  c_id : bytes; c_ts : Z; c_off : Z; c_size : Z; c_key : bytes; c_gz : bool;
}.

(** What the values of interval lists promise: moving the ends of a value does not
    change what it says about an offset. *)
Class CellValue (T : Type) `{!IntervalValue T} := {
  cell_at : T → Z → cell;
  cell_set v start stop y : cell_at (SetStartStop v start stop) y = cell_at v y;
}.

Lemma moved_offset off start start' y :
  s64 (add64 off (sub64 start' start) + (y - start')) = s64 (off + (y - start)).
Proof.
  unfold add64, sub64. rewrite swrap_add_l.
  replace (off + s64 (start' - start) + (y - start'))
    with (s64 (start' - start) + (off + (y - start'))) by lia.
  rewrite swrap_add_l. f_equal. lia.
Qed.

#[global, refine] Instance visible_cell : CellValue VisibleInterval := {
  cell_at v y := Cell (v_fileId v) (v_modifiedTsNs v) (s64 (v_offsetInChunk v + (y - v_start v)))
                   (v_chunkSize v) (v_cipherKey v) (v_isGzipped v);
}.
Proof. intros. cbn. by rewrite moved_offset. Defined.

#[global, refine] Instance view_cell : CellValue ChunkView := {
  cell_at v y := Cell (cv_FileId v) (cv_ModifiedTsNs v)
                   (s64 (cv_OffsetInChunk v + (y - cv_ViewOffset v)))
                   (cv_ChunkSize v) (cv_CipherKey v) (cv_IsGzipped v);
}.
Proof. intros. cbn. by rewrite moved_offset. Defined.

Section lists.
Context {T : Type} `{!IntervalValue T, !CellValue T}.
Implicit Types (i : Interval T) (l : list (Interval T)).

Definition inside i (y : Z) : Prop := StartOffset i ≤ y < StopOffset i.

Fixpoint view_at l (y : Z) : option cell :=
  match l with
  | [] => None
  | i :: l => if decide (inside i y) then Some (cell_at (Value i) y) else view_at l y
  end.

(** Non-empty, in order, without overlap, from [lo] on. *)
Fixpoint ordered (lo : Z) l : Prop :=
  match l with
  | [] => True
  | i :: l => lo ≤ StartOffset i ∧ StartOffset i < StopOffset i ∧ ordered (StopOffset i) l
  end.

(** The time of an interval is that of its cells. *)
Definition timed i : Prop := ∀ y, c_ts (cell_at (Value i) y) = TsNs i.

(** The newer of two cells, the second when they have the same time. *)
Definition newer (old new : option cell) : option cell :=
  match old, new with
  | Some o, Some n => if decide (c_ts o ≤ c_ts n) then Some n else Some o
  | None, n => n
  | o, None => o
  end.

Lemma view_at_app l l' y :
  view_at (l ++ l') y = match view_at l y with Some c => Some c | None => view_at l' y end.
Proof. induction l as [|i l IH]; simpl; [done|]. by case_decide. Qed.

Lemma ordered_weaken lo lo' l : lo' ≤ lo → ordered lo l → ordered lo' l.
Proof. destruct l; simpl; [done|]. intros ? (? & ?). split; [lia|done]. Qed.

Lemma view_at_below lo l y : ordered lo l → y < lo → view_at l y = None.
Proof.
  revert lo. induction l as [|i l IH]; intros lo Ho Hy; simpl; [done|].
  destruct Ho as (? & ? & Ho). rewrite decide_False by (unfold inside; lia).
  apply (IH _ Ho). lia.
Qed.

Lemma timed_set_start i s : timed i → timed (set_start i s).
Proof. intros H y. cbn. rewrite cell_set. apply H. Qed.
Lemma timed_left_of i s : timed i → timed (left_of i s).
Proof. intros H y. cbn. rewrite cell_set. apply H. Qed.

Lemma insert_ordered iv l lo :
  ordered lo l → lo ≤ StartOffset iv → ordered lo (insertInterval iv l).
Proof.
  revert iv lo. induction l as [|n l IH]; intros iv lo Ho Hlo; simpl.
  { case_decide; simpl; [done|]. split_and!; [lia|lia|done]. }
  destruct Ho as (H1 & H2 & Ho).
  case_decide; [simpl; split_and!; auto|].
  case_decide; [simpl; split_and!; auto; lia|].
  case_decide; [simpl; split_and!; [lia|lia|]; apply IH; [done|lia]|].
  case_decide; repeat case_decide; simpl in *;
    repeat match goal with |- _ ∧ _ => split end; try lia;
    first [done | apply IH; simpl; [eapply ordered_weaken; [|exact Ho]; lia|lia]].
Qed.

Lemma insert_timed iv l : timed iv → Forall timed l → Forall timed (insertInterval iv l).
Proof.
  intros Hiv Hl. revert iv Hiv. induction Hl as [|n l Hn Hl IH]; intros iv Hiv; simpl.
  { case_decide; auto. }
  repeat case_decide; simpl; repeat constructor; auto;
    auto using timed_set_start, timed_left_of.
Qed.

Definition cell_of i (y : Z) : option cell :=
  if decide (inside i y) then Some (cell_at (Value i) y) else None.

(** [insertInterval] keeps, offset by offset, the newer cell. *)
Lemma insert_view iv l lo y :
  ordered lo l → timed iv → Forall timed l →
  view_at (insertInterval iv l) y = newer (view_at l y) (cell_of iv y).
Proof.
  intros Ho Hiv Hl. revert iv lo Ho Hiv. induction Hl as [|n l Hn Hl IH]; intros iv lo Ho Hiv.
  { simpl. unfold cell_of. case_decide; simpl; [rewrite decide_False by (unfold inside; lia)|]; done. }
  destruct Ho as (H1 & H2 & Ho). pose proof (view_at_below _ _ y Ho) as Hbelow.
  pose proof (Hn y) as Hny. pose proof (Hiv y) as Hivy.
  assert (∀ iv' : Interval T, timed iv' →
    view_at (insertInterval iv' l) y = newer (view_at l y) (cell_of iv' y)) as IH'.
  { intros. by eapply IH. }
  clear IH. simpl. repeat case_decide; rewrite ?view_at_app; simpl;
    rewrite ?IH' by auto using timed_set_start; unfold cell_of, inside in *; simpl;
    rewrite ?cell_set; repeat case_decide; try lia; rewrite ?Hbelow by lia; simpl;
    rewrite ?Hny, ?Hivy; repeat case_decide; try lia; try done.
  all: clear IH'; simpl in *; try lia; destruct (view_at l y); simpl; repeat case_decide;
    try lia; try done.
  all: discriminate Hbelow; lia.
Qed.
End lists.
End Cells.
Export Cells.

(** ** The newest chunk at an offset *)
Module Newest.

Definition chunk_ok (c : FileChunk) : Prop :=
  0 ≤ Offset c ∧ 0 ≤ FileChunks.Size c ∧ Offset c + FileChunks.Size c < 2 ^ 63
  ∧ 0 ≤ ModifiedTsNs c < 2 ^ 63.
#[global] Instance chunk_ok_dec c : Decision (chunk_ok c).
Proof. unfold chunk_ok. apply _. Defined.

Lemma chunk_stop_eq c : chunk_ok c → chunk_stop c = Offset c + FileChunks.Size c.
Proof.
  intros (? & ? & ? & ?). unfold chunk_stop, add64.
  rewrite (swrap_id 64 (FileChunks.Size c)) by (widths; lia). apply swrap_id; widths; lia.
Qed.

Definition covers (c : FileChunk) (y : Z) : Prop := Offset c ≤ y < Offset c + FileChunks.Size c.

Definition chunk_cell (c : FileChunk) (y : Z) : cell :=
  Cell (FileId c) (ModifiedTsNs c) (y - Offset c) (FileChunks.Size c) (CipherKey c) (IsCompressed c).

(** Later chunks of the list win when times are equal. *)
Definition newest (cs : list FileChunk) (y : Z) : option cell :=
  foldl (λ best c, newer best (if decide (covers c y) then Some (chunk_cell c y) else None)) None cs.

Lemma newest_snoc cs c y :
  newest (cs ++ [c]) y = newer (newest cs y) (if decide (covers c y) then Some (chunk_cell c y) else None).
Proof. unfold newest. by rewrite foldl_snoc. Qed.

Lemma newest_spec cs y :
  match newest cs y with
  | None => ∀ c, c ∈ cs → ¬ covers c y
  | Some d => ∃ c, c ∈ cs ∧ covers c y ∧ d = chunk_cell c y
                   ∧ ∀ c', c' ∈ cs → covers c' y → ModifiedTsNs c' ≤ ModifiedTsNs c
  end.
Proof.
  induction cs as [|c cs IH] using rev_ind; [cbn; set_solver|].
  rewrite newest_snoc. destruct (newest cs y) as [d|].
  - destruct IH as (c0 & Hc0 & Hcov & -> & Hmax). case_decide as Hc; cbn [newer].
    + cbn. case_decide.
      * exists c. split_and!; [set_solver|done|done|].
        intros c' [Hc'|Hc'%list_elem_of_singleton]%elem_of_app Hcov'; [|by subst].
        specialize (Hmax c' Hc' Hcov'). lia.
      * exists c0. split_and!; [set_solver|done|done|].
        intros c' [Hc'|Hc'%list_elem_of_singleton]%elem_of_app Hcov'; [auto|subst; lia].
    + exists c0. split_and!; [set_solver|done|done|].
      intros c' [Hc'|Hc'%list_elem_of_singleton]%elem_of_app Hcov'; [auto|by subst].
  - case_decide as Hc; cbn [newer].
    + exists c. split_and!; [set_solver|done|done|].
      intros c' [Hc'|Hc'%list_elem_of_singleton]%elem_of_app Hcov'; [|by subst].
      by destruct (IH c').
    + intros c' [Hc'|Hc'%list_elem_of_singleton]%elem_of_app; [auto|by subst].
Qed.

(** Chunks of one list have different times. *)
Definition distinct (cs : list FileChunk) : Prop := NoDup (ModifiedTsNs <$> cs).

Lemma distinct_eq cs c c' :
  distinct cs → c ∈ cs → c' ∈ cs → ModifiedTsNs c = ModifiedTsNs c' → c = c'.
Proof. apply NoDup_fmap_eq. Qed.

Lemma newest_eq cs c y :
  distinct cs → c ∈ cs → covers c y →
  (∀ c', c' ∈ cs → covers c' y → ModifiedTsNs c' ≤ ModifiedTsNs c) →
  newest cs y = Some (chunk_cell c y).
Proof.
  intros Hd Hc Hcov Hmax. pose proof (newest_spec cs y) as H.
  destruct (newest cs y) as [d|]; [|by destruct (H c)].
  destruct H as (c0 & Hc0 & Hcov0 & -> & Hmax0). do 2 f_equal.
  eapply distinct_eq; eauto. apply Z.le_antisymm; auto.
Qed.

Lemma newest_none cs y : (∀ c, c ∈ cs → ¬ covers c y) → newest cs y = None.
Proof.
  intros H. pose proof (newest_spec cs y) as Hs. destruct (newest cs y) as [d|]; [|done].
  destruct Hs as (c & Hc & Hcov & _). by destruct (H c).
Qed.

(** Only the chunks that cover the offset matter. *)
Lemma newest_covering cs cs' y :
  distinct cs → (∀ c, c ∈ cs' → c ∈ cs) → distinct cs' →
  (∀ c, c ∈ cs → covers c y → c ∈ cs' ∨ ∃ c', c' ∈ cs' ∧ covers c' y ∧ ModifiedTsNs c < ModifiedTsNs c') →
  newest cs' y = newest cs y.
Proof.
  intros Hd Hsub Hd' H. pose proof (newest_spec cs y) as Hs.
  destruct (newest cs y) as [d|].
  - destruct Hs as (c & Hc & Hcov & -> & Hmax). apply newest_eq; [done| |done|auto].
    destruct (H c Hc Hcov) as [|(c' & Hc' & Hcov' & Hlt)]; [done|].
    specialize (Hmax c' (Hsub _ Hc') Hcov'). lia.
  - apply newest_none. auto.
Qed.
End Newest.
Export Newest.

(** ** The sweep *)
Module SweepSpec.

Definition start_of (c : FileChunk) : Point := MkPoint (Offset c) (ModifiedTsNs c) c true.
Definition stop_of (c : FileChunk) : Point := MkPoint (chunk_stop c) (ModifiedTsNs c) c false.

(** Everything ends at or before [b]. *)
Definition upto (b : Z) (l : list (Interval VisibleInterval)) : Prop :=
  Forall (λ i, StopOffset i ≤ b) l.

(** The interval and its value name the same range. *)
Definition aligned (i : Interval VisibleInterval) : Prop :=
  v_start (Value i) = StartOffset i ∧ v_stop (Value i) = StopOffset i
  ∧ v_modifiedTsNs (Value i) = TsNs i.

Lemma ordered_snoc lo l (i : Interval VisibleInterval) :
  ordered lo l → upto (StartOffset i) l → lo ≤ StartOffset i < StopOffset i → ordered lo (l ++ [i]).
Proof.
  revert lo. induction l as [|j l IH]; intros lo Ho Hu Hi; simpl in *; [split_and!; [lia|lia|done]|].
  destruct Ho as (? & ? & Ho). apply Forall_cons in Hu as [Hj Hu]. split_and!; [done|done|].
  apply IH; [done|done|lia].
Qed.

Lemma upto_mono a b l : a ≤ b → upto a l → upto b l.
Proof. intros ? H. eapply Forall_impl; [exact H|]. cbv beta. intros. lia. Qed.

Lemma view_at_upto b l y : upto b l → b ≤ y → view_at l y = None.
Proof.
  induction 1 as [|i l Hi _ IH]; intros Hy; simpl; [done|].
  rewrite decide_False by (unfold inside; lia). by apply IH.
Qed.

Lemma insert_before_split q p e q1 q2 :
  q = q1 ++ e :: q2 → Forall (λ a, ts a ≤ ts p) q1 → ts p < ts e →
  insert_before_newer q p = q1 ++ p :: e :: q2.
Proof.
  intros -> H1 He. induction H1 as [|a q1 Ha _ IH]; simpl.
  - by rewrite decide_True.
  - rewrite decide_False by lia. by f_equal.
Qed.

Lemma remove_ts_split q1 e q2 :
  Forall (λ a, ts a ≠ ts e) q2 →
  reverse (remove_ts (reverse (q1 ++ e :: q2)) (ts e)) = q1 ++ q2.
Proof.
  intros H. rewrite reverse_app, reverse_cons, <- app_assoc. simpl.
  assert (∀ r, Forall (λ a, ts a ≠ ts e) r →
    remove_ts (r ++ e :: reverse q1) (ts e) = r ++ reverse q1) as Hr.
  { induction 1 as [|a r Ha _ IH]; simpl; [by rewrite decide_True|].
    rewrite decide_False by done. by f_equal. }
  rewrite Hr by (by apply Forall_reverse). by rewrite reverse_app, !reverse_involutive.
Qed.

(** The place where an older point goes. *)
Lemma split_newer q p :
  (∀ a, a ∈ q → ts a ≠ ts p) → (∃ e, e ∈ q ∧ ts p < ts e) →
  ∃ q1 e q2, q = q1 ++ e :: q2 ∧ Forall (λ a, ts a < ts p) q1 ∧ ts p < ts e.
Proof.
  induction q as [|a q IH]; intros Hne (e & He & Hlt); [set_solver|].
  destruct (decide (ts p < ts a)); [by exists [], a, q|].
  destruct IH as (q1 & e' & q2 & -> & H1 & H2).
  - intros b Hb. apply Hne. set_solver.
  - exists e. split; [|done]. apply elem_of_cons in He as [-> |]; [lia|done].
  - exists (a :: q1), e', q2. split_and!; [done| |done]. constructor; [|done].
    specialize (Hne a ltac:(set_solver)). lia.
Qed.

Section sweep.
Context (cs : list FileChunk).
Context (Hok : ∀ c, c ∈ cs → chunk_ok c) (Hne : ∀ c, c ∈ cs → 0 < FileChunks.Size c).
Context (Hd : distinct cs).

(** The chunks whose start has been passed and whose end has not. *)
Definition active (done : list Point) (c : FileChunk) : Prop :=
  c ∈ cs ∧ start_of c ∈ done ∧ stop_of c ∉ done.

Record inv (done : list Point) (X : Z) (s : sweep) : Prop := Inv {
  inv_queue : ∀ p, p ∈ queue s ↔ ∃ c, p = start_of c ∧ active done c;
  inv_sorted : StronglySorted (λ a b, ts a < ts b) (queue s);
  inv_ordered : ordered 0 (visibles s);
  inv_timed : Forall timed (visibles s);
  inv_aligned : Forall aligned (visibles s);
  inv_seen : match last (queue s) with
    | None => upto X (visibles s) ∧ ∀ y, y < X → view_at (visibles s) y = newest cs y
    | Some p => 0 ≤ prevX s ≤ X ∧ upto (prevX s) (visibles s)
        ∧ (∀ y, y < prevX s → view_at (visibles s) y = newest cs y)
        ∧ ∀ y, prevX s ≤ y < X → newest cs y = Some (chunk_cell (chunk p) y)
    end;
}.

(** The top of the queue is the newest active chunk. *)
Lemma last_newest done X s p c :
  inv done X s → last (queue s) = Some p → active done c → ModifiedTsNs c ≤ ts p.
Proof.
  intros Hi Hl Hc. apply last_Some in Hl as [q Hq].
  assert (start_of c ∈ queue s) as Hin by (apply (inv_queue _ _ _ Hi); eauto).
  pose proof (inv_sorted _ _ _ Hi) as Hs. rewrite Hq in Hin, Hs.
  apply elem_of_app in Hin as [Hin|Hin%list_elem_of_singleton]; [|by rewrite <- Hin].
  pose proof (StronglySorted_app_1_elem_of _ _ _ _ p Hs Hin ltac:(set_solver)) as H. cbn in H. lia.
Qed.

Lemma queue_active done X s p :
  inv done X s → p ∈ queue s → p = start_of (chunk p) ∧ active done (chunk p).
Proof. intros Hi Hp. apply (inv_queue _ _ _ Hi) in Hp as (c & -> & Hc). done. Qed.

(** Between two points the active chunks are those that cover the offset. *)
Lemma inv_advance done todo X X' s :
  inv done X s → X ≤ X' →
  (∀ p, p ∈ done → x p ≤ X) → (∀ p, p ∈ todo → X' ≤ x p) →
  (∀ c, c ∈ cs → start_of c ∈ done ++ todo ∧ stop_of c ∈ done ++ todo) →
  inv done X' s.
Proof.
  intros Hi HX Hdone Htodo Hall.
  assert (∀ y c, X ≤ y < X' → c ∈ cs → covers c y ↔ active done c) as Hcov.
  { intros y c Hy Hc. destruct (Hall c Hc) as [Hs He].
    pose proof (chunk_stop_eq c (Hok c Hc)) as Hst. rewrite elem_of_app in Hs, He. split.
    - intros [H1 H2]. split_and!; [done| |].
      + destruct Hs as [|Hs]; [done|]. apply Htodo in Hs. cbn in Hs. lia.
      + intros Hin. apply Hdone in Hin. cbn in Hin. lia.
    - intros (_ & H1 & H2). apply Hdone in H1. cbn in H1.
      destruct He as [|He]; [done|]. apply Htodo in He. cbn in He. unfold covers. lia. }
  destruct Hi as [Hq Hs Ho Ht Ha Hseen]. split; [done..|].
  pose proof (Inv done X s Hq Hs Ho Ht Ha Hseen) as Hi.
  destruct (last (queue s)) as [p|] eqn:Hl.
  - destruct Hseen as (Hp & Hu & Hb & Hm). split_and!; [lia|lia|done|done|].
    intros y Hy. destruct (decide (y < X)); [apply Hm; lia|].
    assert (p ∈ queue s) as Hin by (apply last_Some in Hl as [q ->]; set_solver).
    destruct (queue_active _ _ _ _ Hi Hin) as [He Hact].
    apply newest_eq; [done|apply Hact|apply Hcov; [lia|apply Hact|done]|].
    intros c' Hc' Hcov'. apply Hcov in Hcov'; [|lia|done].
    pose proof (last_newest _ _ _ _ _ Hi Hl Hcov') as H. by rewrite He in H.
  - destruct Hseen as (Hu & Hb). split; [by eapply upto_mono|].
    intros y Hy. destruct (decide (y < X)); [by apply Hb|].
    rewrite (view_at_upto X) by (done || lia). symmetry. apply newest_none.
    intros c Hc Hcov'. apply Hcov in Hcov'; [|lia|done].
    apply last_None in Hl.
    assert (start_of c ∈ queue s) as Hin by (apply Hq; eauto). rewrite Hl in Hin. set_solver.
Qed.

(** What the visible intervals say up to [b]. *)
Definition good (b : Z) (vis : list (Interval VisibleInterval)) : Prop :=
  ordered 0 vis ∧ Forall timed vis ∧ Forall aligned vis ∧ upto b vis
  ∧ ∀ y, y < b → view_at vis y = newest cs y.

(** [addToVisibles] writes out the range of the newest chunk. *)
Lemma emit vis px p pt :
  good px vis → 0 ≤ px ≤ x pt → x pt < 2 ^ 63 → chunk_ok (chunk p) →
  (∀ y, px ≤ y < x pt → newest cs y = Some (chunk_cell (chunk p) y)) →
  good (x pt) (addToVisibles vis px p pt).
Proof.
  intros (Ho & Ht & Ha & Hu & Hv) Hpx Hx Hc Hm. unfold addToVisibles. case_decide as Hlt.
  2:{ assert (px = x pt) as -> by lia. done. }
  unfold AppendInterval; cbn. split_and!.
  - apply ordered_snoc; cbn; [done|done|lia].
  - apply Forall_app. split; [done|]. constructor; [intros y; done|done].
  - apply Forall_app. split; [done|]. by repeat constructor.
  - apply Forall_app. split; [by eapply upto_mono; [|exact Hu]; lia|]. constructor; [cbn; lia|done].
  - intros y Hy. rewrite view_at_app. simpl. unfold inside; cbn.
    destruct (decide (y < px)).
    + rewrite Hv by done. rewrite decide_False by lia. by destruct (newest cs y).
    + rewrite (view_at_upto px) by (done || lia). rewrite decide_True by lia.
      rewrite Hm by lia. unfold chunk_cell, sub64. do 2 f_equal. destruct Hc as (? & ? & ? & ?).
      rewrite swrap_add_l, swrap_id by (widths; lia). lia.
Qed.

(** *** One point *)
Section step.
Context (done todo : list Point) (p : Point) (s : sweep) (c : FileChunk).
Context (Hinv : inv done (x p) s) (Hc : c ∈ cs).
Context (Hdone : ∀ a, a ∈ done → x a ≤ x p) (Hnew : p ∉ done).

Lemma queue_other a : p = start_of c → a ∈ queue s → ts a ≠ ts p.
Proof.
  intros -> Ha He. destruct (queue_active _ _ _ _ Hinv Ha) as [Hs (Hin & Hst & _)].
  rewrite Hs in He. cbn in He.
  assert (chunk a = c) as Hac by (by eapply distinct_eq). rewrite Hac in Hst. done.
Qed.

(** Passing the start of [c] makes it active. *)
Lemma active_start c' : p = start_of c → active (done ++ [p]) c' ↔ c' = c ∨ active done c'.
Proof.
  intros ->. unfold active. rewrite !elem_of_app, !list_elem_of_singleton. split.
  - intros (Hin & [Hst|He] & Hsp); [right; split_and!; auto|]. left. by inversion He.
  - intros [->|(Hin & Hst & Hsp)]; split_and!; auto; intros [He|He]; [|done| |done].
    + apply Hdone in He. cbn in He. rewrite chunk_stop_eq in He by auto.
      specialize (Hne c Hc). lia.
    + done.
Qed.

(** Passing its end makes it inactive. *)
Lemma active_stop c' : p = stop_of c → active (done ++ [p]) c' ↔ active done c' ∧ c' ≠ c.
Proof.
  intros ->. unfold active. rewrite !elem_of_app, !list_elem_of_singleton. split.
  - intros (Hin & [Hst|He] & Hsp); [|by inversion He]. split_and!; auto. intros ->. auto.
  - intros ((Hin & Hst & Hsp) & Hneq). split_and!; auto. intros [?|He]; [auto|].
    inversion He. auto.
Qed.

Lemma seen_top top :
  last (queue s) = Some top →
  good (prevX s) (visibles s) ∧ 0 ≤ prevX s ≤ x p ∧ chunk_ok (chunk top)
  ∧ ∀ y, prevX s ≤ y < x p → newest cs y = Some (chunk_cell (chunk top) y).
Proof.
  intros Hl. destruct Hinv as [Hq Hs Ho Ht Ha Hseen] eqn:E. clear E. rewrite Hl in Hseen.
  destruct Hseen as (H1 & H2 & H3 & H4). split_and!; try done; [lia..|].
  apply Hok. assert (top ∈ queue s) as Hin by (apply last_Some in Hl as [q ->]; set_solver).
  apply Hq in Hin as (c' & -> & Hact). apply Hact.
Qed.

Lemma seen_none : last (queue s) = None → good (x p) (visibles s).
Proof.
  intros Hl. destruct Hinv as [Hq Hs Ho Ht Ha Hseen] eqn:E. clear E. rewrite Hl in Hseen.
  destruct Hseen. done.
Qed.

(** The invariant from its parts. *)
Lemma inv_of px q vis :
  (∀ a, a ∈ q ↔ ∃ c', a = start_of c' ∧ active (done ++ [p]) c') →
  StronglySorted (λ a b, ts a < ts b) q →
  (match last q with
   | None => good (x p) vis
   | Some top => good px vis ∧ 0 ≤ px ≤ x p
       ∧ ∀ y, px ≤ y < x p → newest cs y = Some (chunk_cell (chunk top) y)
   end) →
  inv (done ++ [p]) (x p) (Sweep px q vis).
Proof.
  intros Hq Hs H. destruct (last q) as [top|] eqn:Hl.
  - destruct H as ((? & ? & ? & ? & ?) & ? & ?). split; cbn; auto. by rewrite Hl.
  - destruct H as (? & ? & ? & ? & ?). split; cbn; auto. by rewrite Hl.
Qed.

Lemma members_start (q : list Point) :
  p = start_of c → (∀ a, a ∈ q ↔ a = p ∨ a ∈ queue s) →
  ∀ a, a ∈ q ↔ ∃ c', a = start_of c' ∧ active (done ++ [p]) c'.
Proof.
  intros Hp Hq a. rewrite Hq, (inv_queue _ _ _ Hinv). setoid_rewrite (λ c', active_start c' Hp).
  naive_solver.
Qed.

Lemma step_start : p = start_of c → inv (done ++ [p]) (x p) (sweep_step s p).
Proof.
  intros Hp. pose proof (λ a, queue_other a Hp) as Hother.
  assert (0 ≤ x p < 2 ^ 63) as Hx.
  { subst p. cbn. destruct (Hok c Hc) as (? & ? & ? & ?). specialize (Hne c Hc). lia. }
  unfold sweep_step. replace (isStart p) with true by (by rewrite Hp).
  destruct (last (queue s)) as [top|] eqn:Hl.
  2:{ apply inv_of.
      - apply members_start; [done|]. apply last_None in Hl as ->. set_solver.
      - apply last_None in Hl as ->. repeat constructor.
      - rewrite last_snoc. split_and!; [by apply seen_none|lia|lia|lia]. }
  destruct (seen_top top Hl) as (Hgood & Hpx & Htop & Hm).
  assert (top ∈ queue s) as Hin by (apply last_Some in Hl as [q ->]; set_solver).
  destruct (decide (ts top < ts p)) as [Hlt|Hge].
  - assert (∀ vis, good (x p) vis → inv (done ++ [p]) (x p) (Sweep (x p) (queue s ++ [p]) vis)) as Hpush.
    { intros vis Hvis. apply inv_of.
      - apply members_start; [done|]. set_solver.
      - apply StronglySorted_app. split_and!; [|apply (inv_sorted _ _ _ Hinv)|by repeat constructor].
        intros a b Ha Hb%list_elem_of_singleton. subst b.
        destruct (queue_active _ _ _ _ Hinv Ha) as [He Hact].
        pose proof (last_newest _ _ _ _ _ Hinv Hl Hact) as H. rewrite He. cbn. lia.
      - rewrite last_snoc. split_and!; [done|lia|lia|lia]. }
    destruct (decide (x p ≠ prevX s ∧ ts top < ts p)) as [Hcut|Hcut]; apply Hpush.
    + apply emit; [done|lia|lia|done|done].
    + assert (x p = prevX s) as -> by lia. done.
  - rewrite decide_False by tauto. specialize (Hother top Hin) as Hne'.
    destruct (split_newer (queue s) p) as (q1 & e & q2 & Hq & H1 & He).
    { intros a Ha. by apply Hother. }
    { exists top. split; [done|lia]. }
    pose proof (inv_sorted _ _ _ Hinv) as Hs. rewrite Hq in Hs.
    apply StronglySorted_app in Hs as (H12 & Hs1 & Hs2).
    rewrite (insert_before_split _ p e q1 q2 Hq); [|eapply Forall_impl; [exact H1|simpl; lia]|done].
    apply inv_of.
    + apply members_start; [done|]. rewrite Hq. set_solver.
    + apply StronglySorted_app. split_and!; [|done|].
      * intros a b Ha Hb. apply elem_of_cons in Hb as [-> |Hb]; [|by apply H12].
        rewrite Forall_forall in H1. by apply H1.
      * constructor; [done|]. constructor; [done|].
        inversion_clear Hs2 as [|?? _ Hall]. eapply Forall_impl; [exact Hall|]. simpl. lia.
    + rewrite last_app_cons, last_cons_cons, <- (last_app_cons q1), <- Hq, Hl. done.
Qed.

Lemma step_stop :
  p = stop_of c → start_of c ∈ done → inv (done ++ [p]) (x p) (sweep_step s p).
Proof.
  intros Hp Hst.
  assert (0 ≤ x p < 2 ^ 63) as Hx.
  { subst p. cbn. rewrite chunk_stop_eq by auto. destruct (Hok c Hc) as (? & ? & ? & ?). lia. }
  assert (start_of c ∈ queue s) as Hin.
  { apply (inv_queue _ _ _ Hinv). exists c. split; [done|]. split_and!; [done|done|by rewrite <- Hp]. }
  apply list_elem_of_split in Hin as (q1 & q2 & Hq).
  pose proof (inv_sorted _ _ _ Hinv) as Hs. rewrite Hq in Hs.
  apply StronglySorted_app in Hs as (H12 & Hs1 & Hs2).
  inversion_clear Hs2 as [|?? Hs2' Hall]. rewrite Forall_forall in Hall.
  assert (ts p = ts (start_of c)) as Hts by (by rewrite Hp).
  assert (reverse (remove_ts (reverse (queue s)) (ts p)) = q1 ++ q2) as Hrem.
  { rewrite Hq, Hts. apply remove_ts_split, Forall_forall. intros a Ha%Hall. lia. }
  assert (∀ a, a ∈ q1 ++ q2 ↔ ∃ c', a = start_of c' ∧ active (done ++ [p]) c') as Hmem.
  { intros a. setoid_rewrite (λ c', active_stop c' Hp).
    assert (a ∈ q1 ++ q2 ↔ a ∈ queue s ∧ a ≠ start_of c) as ->.
    { rewrite Hq. split; [|set_solver]. intros Ha. split; [set_solver|]. intros ->.
      apply elem_of_app in Ha as [Ha|Ha].
      - specialize (H12 _ (start_of c) Ha ltac:(set_solver)). lia.
      - specialize (Hall _ Ha). lia. }
    rewrite (inv_queue _ _ _ Hinv). naive_solver. }
  assert (StronglySorted (λ a b, ts a < ts b) (q1 ++ q2)) as Hsort.
  { apply StronglySorted_app. split_and!; [|done|done]. intros a b Ha Hb. apply H12; set_solver. }
  unfold sweep_step. replace (isStart p) with false by (by rewrite Hp). rewrite Hrem.
  unfold is_last. destruct (last (queue s)) as [top|] eqn:Hl.
  2:{ apply last_None in Hl. rewrite Hl in Hq. by destruct q1. }
  destruct (seen_top top Hl) as (Hgood & Hpx & Htop & Hm).
  destruct (last q2) as [b|] eqn:Hb.
  - assert (top = b) as <-.
    { apply last_Some in Hb as [q2' ->]. rewrite Hq, app_comm_cons, app_assoc, last_snoc in Hl. congruence. }
    rewrite bool_decide_eq_false_2.
    2:{ apply last_Some in Hb as [q2' ->]. specialize (Hall top ltac:(set_solver)). lia. }
    apply inv_of; [done|done|]. assert (last (q1 ++ q2) = Some top) as ->.
    { apply last_Some in Hb as [q2' ->]. by rewrite app_assoc, last_snoc. }
    done.
  - apply last_None in Hb as ->. rewrite Hq, last_snoc in Hl. injection Hl as <-.
    rewrite bool_decide_eq_true_2 by done.
    assert (good (x p) (addToVisibles (visibles s) (prevX s) (start_of c) p)) as Hg
      by (apply emit; [done|lia|lia|done|done]).
    apply inv_of; [done|done|]. destruct (last (q1 ++ [])); [|done]. split_and!; [done|lia|lia|lia].
Qed.
End step.

(** *** All points *)

Lemma inv_fold todo : ∀ done X s,
  inv done X s → (∀ a, a ∈ done → x a ≤ X) → (∀ a, a ∈ todo → X ≤ x a) →
  NoDup (done ++ todo) → StronglySorted (λ a b, x a ≤ x b) todo →
  (∀ a, a ∈ done ++ todo → ∃ c, c ∈ cs ∧ (a = start_of c ∨ a = stop_of c)) →
  (∀ c, c ∈ cs → start_of c ∈ done ++ todo ∧ stop_of c ∈ done ++ todo) →
  ∃ X', inv (done ++ todo) X' (foldl sweep_step s todo) ∧ ∀ a, a ∈ done ++ todo → x a ≤ X'.
Proof.
  induction todo as [|p todo IH]; intros done X s Hi Hdone Htodo Hnd Hs Hpts Hall; simpl.
  { exists X. rewrite app_nil_r. done. }
  inversion_clear Hs as [|?? Hs' Hle]. rewrite Forall_forall in Hle.
  assert (X ≤ x p) as HXp by (apply Htodo; set_solver).
  assert (inv done (x p) s) as Hi'.
  { eapply inv_advance; [exact Hi|done|done| |exact Hall].
    intros a [-> |Ha]%elem_of_cons; [lia|by apply Hle]. }
  assert (∀ a, a ∈ done → x a ≤ x p) as Hdp by (intros a Ha%Hdone; lia).
  assert (p ∉ done) as Hnew by (apply NoDup_app in Hnd as (_ & Hn & _); set_solver).
  assert (inv (done ++ [p]) (x p) (sweep_step s p)) as Hstep.
  { destruct (Hpts p) as (c & Hc & [Hp|Hp]); [set_solver|by eapply step_start|].
    eapply step_stop; eauto. destruct (Hall c Hc) as [Hst _].
    apply elem_of_app in Hst as [Hst|Hst]; [done|]. exfalso.
    assert (x p ≤ x (start_of c)) as H.
    { apply elem_of_cons in Hst as [He|Hst]; [rewrite He; lia|by apply Hle]. }
    rewrite Hp in H. cbn in H. rewrite chunk_stop_eq in H by auto. specialize (Hne c Hc). lia. }
  rewrite (cons_middle p done todo), app_assoc in *.
  apply (IH (done ++ [p]) (x p)); auto.
  intros a Ha. apply elem_of_app in Ha as [Ha|Ha%list_elem_of_singleton]; [auto|by subst].
Qed.

Lemma inv_init : inv [] 0 (Sweep 0 [] []).
Proof.
  split; cbn; try done; try constructor; try constructor.
  - intros H. inversion H.
  - intros (c & _ & _ & H & _). inversion H.
  - intros y Hy. symmetry. apply newest_none. intros c Hc [H _].
    destruct (Hok c Hc) as (? & _). lia.
Qed.

Lemma sweep_all pts :
  NoDup pts → StronglySorted (λ a b, x a ≤ x b) pts →
  (∀ a, a ∈ pts ↔ ∃ c, c ∈ cs ∧ (a = start_of c ∨ a = stop_of c)) →
  let vis := visibles (foldl sweep_step (Sweep 0 [] []) pts) in
  ordered 0 vis ∧ Forall timed vis ∧ Forall aligned vis ∧ ∀ y, view_at vis y = newest cs y.
Proof.
  intros Hnd Hs Hpts.
  destruct (inv_fold pts [] 0 (Sweep 0 [] [])) as (X & Hi & HX); auto using inv_init.
  - intros a Ha. inversion Ha.
  - intros a (c & Hc & [-> | -> ])%Hpts; cbn.
    + apply (Hok c Hc).
    + rewrite chunk_stop_eq by auto. destruct (Hok c Hc) as (? & ? & _). lia.
  - intros a. apply Hpts.
  - intros c Hc. split; apply Hpts; eauto.
  - simpl in Hi, HX. destruct Hi as [Hq Hso Ho Ht Ha Hseen] eqn:E. clear E.
    split_and!; [done..|]. intros y.
    assert (inv pts (Z.max X (y + 1)) (foldl sweep_step (Sweep 0 [] []) pts)) as Hi'.
    { eapply (inv_advance pts [] X); [done|lia|done| |].
      - intros p Hp. inversion Hp.
      - intros c Hc. rewrite app_nil_r. split; apply Hpts; eauto. }
    pose proof (inv_seen _ _ _ Hi') as Hsn.
    destruct (last (queue _)) as [top|] eqn:Hl; [|apply Hsn; lia].
    apply last_Some in Hl as [q Hq']. exfalso.
    destruct (queue_active _ _ _ top Hi' ltac:(rewrite Hq'; set_solver)) as (_ & Hc & _ & Hno).
    apply Hno, Hpts. eauto.
Qed.
End sweep.

(** *** The points of a list of chunks *)

Definition live (cs : list FileChunk) (a b : Z) : list FileChunk :=
  filter (λ c, max (Offset c) a < min (chunk_stop c) b) cs.

Lemma points_of_live cs a b :
  points_of cs a b = live cs a b ≫= λ c, [start_of c; stop_of c].
Proof.
  induction cs as [|c cs IH]; [done|]. simpl. unfold live. rewrite filter_cons. fold (live cs a b).
  case_decide as H1; case_decide as H2; try lia; [done|]. by rewrite IH.
Qed.

Lemma elem_of_points cs p :
  p ∈ (cs ≫= λ c, [start_of c; stop_of c]) ↔ ∃ c, c ∈ cs ∧ (p = start_of c ∨ p = stop_of c).
Proof.
  rewrite list_elem_of_bind. setoid_rewrite elem_of_cons. setoid_rewrite list_elem_of_singleton.
  naive_solver.
Qed.

Section order.
Context (cs : list FileChunk).
Context (Hok : ∀ c, c ∈ cs → chunk_ok c) (Hne : ∀ c, c ∈ cs → 0 < FileChunks.Size c).
Context (Hd : distinct cs).
Let pts := cs ≫= λ c, [start_of c; stop_of c].

Lemma point_range p : p ∈ pts → 0 ≤ x p < 2 ^ 63 ∧ 0 ≤ ts p < 2 ^ 63.
Proof.
  intros (c & Hc & [-> | -> ])%elem_of_points; cbn; rewrite ?chunk_stop_eq by auto;
    destruct (Hok c Hc) as (? & ? & ? & ?); specialize (Hne c Hc); lia.
Qed.

(** Two points with the same position and time are one. *)
Lemma point_eq p p' : p ∈ pts → p' ∈ pts → x p = x p' → ts p = ts p' → p = p'.
Proof.
  intros (c & Hc & Hp)%elem_of_points (c' & Hc' & Hp')%elem_of_points Hx Ht.
  assert (c = c') as <-.
  { eapply distinct_eq; [exact Hd|done|done|]. destruct Hp as [-> | -> ], Hp' as [-> | -> ]; done. }
  specialize (Hne c Hc). pose proof (chunk_stop_eq c (Hok c Hc)).
  destruct Hp as [-> | -> ], Hp' as [-> | -> ]; cbn in *; [done|lia|lia|done].
Qed.

Lemma point_cmp_lt p p' :
  p ∈ pts → p' ∈ pts →
  point_cmp p p' < 0 ↔ x p < x p' ∨ (x p = x p' ∧ ts p < ts p') ∨
                       (x p = x p' ∧ ts p = ts p' ∧ isStart p = false ∧ isStart p' = true).
Proof.
  intros Hp Hp'. destruct (point_range p Hp), (point_range p' Hp').
  unfold point_cmp, sub64. repeat case_decide; rewrite ?swrap_id by (widths; lia); try lia.
  destruct (isStart p), (isStart p'); naive_solver lia.
Qed.

Lemma orders_points : Slices.orders point_cmp pts.
Proof.
  split_and!.
  - intros a b Ha Hb Hab. rewrite !point_cmp_lt by done.
    destruct (decide (x a = x b)) as [Hx|]; [|lia].
    destruct (decide (ts a = ts b)) as [Ht|]; [|lia]. by destruct Hab; apply point_eq.
  - intros a b c Ha Hb Hc. rewrite !point_cmp_lt by done.
    destruct (isStart a), (isStart b), (isStart c); lia.
  - intros a b Ha Hb. rewrite !point_cmp_lt by done. destruct (isStart a), (isStart b); lia.
Qed.

Lemma NoDup_points : NoDup pts.
Proof.
  unfold pts. assert (NoDup cs) as Hnd by by eapply NoDup_fmap_1.
  clear pts Hd. induction Hnd as [|c l Hc _ IH]; [constructor|].
  change ((c :: l) ≫= ?f) with (f c ++ (l ≫= f)). simpl.
  constructor; [|constructor].
  - intros [H|(c' & Hc' & [H|H])%elem_of_points]%elem_of_cons; [done|by inversion H; subst|done].
  - intros (c' & Hc' & [H|H])%elem_of_points; [done|by inversion H; subst].
  - apply IH; intros; [apply Hok|apply Hne]; set_solver.
Qed.
End order.

Lemma live_live cs a b c : c ∈ live cs a b → chunk_ok c → 0 < FileChunks.Size c.
Proof.
  intros [Hlt _]%list_elem_of_filter Hc. rewrite chunk_stop_eq in Hlt by done.
  unfold max, min in Hlt. repeat case_decide; lia.
Qed.

Lemma distinct_filter (P : FileChunk → Prop) `{!∀ c, Decision (P c)} cs :
  distinct cs → distinct (filter P cs).
Proof.
  unfold distinct. induction cs as [|c cs IH]; [done|]. rewrite fmap_cons, NoDup_cons.
  intros [Hc Hcs]. rewrite filter_cons. case_decide; [|by apply IH]. rewrite fmap_cons, NoDup_cons.
  split; [|by apply IH]. intros (c' & He & Hc')%list_elem_of_fmap.
  apply list_elem_of_filter in Hc' as [_ Hc']. apply Hc. rewrite He. by apply list_elem_of_fmap_2.
Qed.

(** The sweep computes the newest live chunk. *)
Lemma read_resolved sort_long cs a b :
  Slices.sorts sort_long → (∀ c, c ∈ cs → chunk_ok c) → distinct cs →
  let vis := readResolvedChunks sort_long cs a b in
  ordered 0 vis ∧ Forall timed vis ∧ Forall aligned vis
  ∧ ∀ y, view_at vis y = newest (live cs a b) y.
Proof.
  intros Hsort Hok Hd. unfold readResolvedChunks. rewrite points_of_live.
  assert (∀ c, c ∈ live cs a b → chunk_ok c) as Hok'.
  { intros c [_ Hc]%list_elem_of_filter. auto. }
  assert (∀ c, c ∈ live cs a b → 0 < FileChunks.Size c) as Hne by (intros; eapply live_live; eauto).
  assert (distinct (live cs a b)) as Hd' by by apply distinct_filter.
  set (pts := live cs a b ≫= _).
  destruct (Slices.SortFunc_sorts _ Hsort point_cmp pts) as [Hp Hs];
    [by apply NoDup_points|by apply orders_points|].
  apply sweep_all; auto.
  - rewrite Hp. by apply NoDup_points.
  - assert (∀ p, p ∈ Slices.SortFunc sort_long point_cmp pts → p ∈ pts) as Hin
      by (intros p; by rewrite Hp).
    clear Hp. induction Hs as [|p l _ IH Hall]; [constructor|]. constructor.
    + apply IH. set_solver.
    + rewrite Forall_forall in *. intros p' Hp'. specialize (Hall p' Hp').
      apply (point_cmp_lt (live cs a b)) in Hall; auto; [lia|apply Hin; set_solver..].
  - intros p. rewrite Hp. apply elem_of_points.
Qed.

Lemma newest_live cs a b y :
  (∀ c, c ∈ cs → chunk_ok c) → distinct cs → a ≤ y < b → newest (live cs a b) y = newest cs y.
Proof.
  intros Hok Hd Hy. apply newest_covering; [done| |by apply distinct_filter|].
  - by intros c [_ Hc]%list_elem_of_filter.
  - intros c Hc [H1 H2]. left. apply list_elem_of_filter. split; [|done].
    rewrite chunk_stop_eq by auto. unfold max, min. repeat case_decide; lia.
Qed.
End SweepSpec.
Export SweepSpec.
