(* ===== verification/FilerRead.v ===== *)
(** * FilerRead: the sections of an open file and reading through chunk views

    A file in use is cut into sections of 64 MiB, each with the visible intervals
    and chunk views of its range (filechunk_section.go, filechunk_group.go); a read
    collects the views its range meets, fetches them and fills the gaps with zeros
    (reader_at.go).  Fetching a range of a chunk from a volume server is a
    parameter; so is the mode the access pattern selects. *)

From S2P Require Import Prelude GoStd FilerChunks.
Import IntervalList FileChunks.

(** ** ChunkReadAt *)
Module ChunkReader.

Record chunkReadTask := MkTask {
  t_chunk : ChunkView; bufferStart : Z; bufferEnd : Z; chunkOffset : Z;
}.

(** The loop over the views: tasks, gaps, and where it stopped. *)
Fixpoint collect (offset : Z) (views : list (Interval ChunkView)) (startOffset remaining : Z) :
    list chunkReadTask * list (Z * Z) * Z * Z :=
  match views with
  | [] => ([], [], startOffset, remaining)
  | v :: views =>
      let chunk := Value v in
      if decide (remaining ≤ 0) then ([], [], startOffset, remaining)
      else
        let '(gap, startOffset, remaining) :=
          if decide (startOffset < cv_ViewOffset chunk) then
            let gap := cv_ViewOffset chunk - startOffset in
            ([(startOffset - offset, gap)], cv_ViewOffset chunk, remaining - gap)
          else ([], startOffset, remaining) in
        if decide (remaining ≤ 0) then ([], gap, startOffset, remaining)
        else
          let chunkStart := max (cv_ViewOffset chunk) startOffset in
          let chunkStop := min (add64 (cv_ViewOffset chunk) (s64 (cv_ViewSize chunk)))
                             (startOffset + remaining) in
          if decide (chunkStop ≤ chunkStart) then
            let '(tasks, gaps, so, rem) := collect offset views startOffset remaining in
            (tasks, gap ++ gaps, so, rem)
          else
            let task := MkTask chunk (startOffset - offset)
                          (chunkStop - chunkStart + startOffset - offset)
                          (u64 (chunkStart - cv_ViewOffset chunk + cv_OffsetInChunk chunk)) in
            let '(tasks, gaps, so, rem) :=
              collect offset views chunkStop (remaining - (chunkStop - chunkStart)) in
            (task :: tasks, gap ++ gaps, so, rem)
  end.

(** [zero(buffer, start, length)]. *)
Definition zero (buffer : bytes) (start length : Z) : bytes * Z :=
  if decide (length ≤ 0) then (buffer, 0)
  else
    let end_ := min (start + length) (zlen buffer) in
    let start := max start 0 in
    (splice buffer start (zeros (end_ - start)), end_ - start).

Definition zero_gaps (p : bytes) (gaps : list (Z * Z)) : bytes * Z :=
  foldl (λ '(p, n) '(start, length), let '(p, k) := zero p start length in (p, n + k)) (p, 0) gaps.

Section read.
(** [fetch view off len]: the bytes [readChunkSliceAt] copies, and its error. *)
Context (fetch : ChunkView → Z → Z → bytes * option go_error).

Definition run_task (p : bytes) (t : chunkReadTask) : bytes * Z * option go_error :=
  let '(d, err) := fetch (t_chunk t) (chunkOffset t) (bufferEnd t - bufferStart t) in
  (splice p (bufferStart t) d, zlen d, err).

(** One chunk, or random access: in order, up to the first error. *)
Fixpoint run_sequential (p : bytes) (n ts : Z) (tasks : list chunkReadTask) :
    bytes * Z * Z * option go_error :=
  match tasks with
  | [] => (p, n, ts, None)
  | t :: tasks =>
      let '(p, copied, err) := run_task p t in
      let ts := max ts (cv_ModifiedTsNs (t_chunk t)) in
      match err with
      | Some _ => (p, n + copied, ts, err)
      | None => run_sequential p (n + copied) ts tasks
      end
  end.

(** All tasks, each into its own part of the buffer; the error is one of theirs,
    here the first in the order of the tasks. *)
Fixpoint run_parallel (p : bytes) (n ts : Z) (err : option go_error) (tasks : list chunkReadTask) :
    bytes * Z * Z * option go_error :=
  match tasks with
  | [] => (p, n, ts, err)
  | t :: tasks =>
      let '(p, copied, e) := run_task p t in
      run_parallel p (n + copied) (max ts (cv_ModifiedTsNs (t_chunk t)))
        (match err with Some _ => err | None => e end) tasks
  end.

Definition doReadAt (isRandomMode : bool) (views : list (Interval ChunkView)) (fileSize : Z)
    (p : bytes) (offset : Z) : bytes * Z * Z * option go_error :=
  let '(tasks, gaps, startOffset, remaining) := collect offset views offset (zlen p) in
  let '(p1, n1) := zero_gaps p gaps in
  let '(p2, n2, ts, err) :=
    if decide (zlen tasks ≤ 1 ∨ isRandomMode = true) then run_sequential p1 n1 0 tasks
    else run_parallel p1 n1 0 None tasks in
  match err with
  | Some _ => (p2, n2, ts, err)
  | None =>
      let '(p3, n3) :=
        if decide (0 < remaining ∧ startOffset ≤ fileSize) then
          let delta := min remaining (fileSize - startOffset) in
          let '(p3, k) := zero p2 (startOffset - offset) delta in (p3, n2 + k)
        else (p2, n2) in
      (p3, n3, ts, if decide (fileSize ≤ offset + zlen p) then Some EOF else None)
  end.
End read.
End ChunkReader.

(** ** Sections *)
Module ChunkSection.
Import ChunkReader.

Definition SectionSize : Z := 2 * 1024 * 1024 * 32.

Record FileChunkSection := MkSection {
  sectionIndex : Z; chunks : list FileChunk;
  visibleIntervals : option (list (Interval VisibleInterval));
  chunkViews : option (list (Interval ChunkView));
}.
Definition NewFileChunkSection (si : Z) : FileChunkSection := MkSection si [] None None.

(** The last chunk takes the place of a removed one. *)
Fixpoint remove_loop (fuel : nat) (garbage : gset bytes) (i : nat) (cs : list FileChunk) :
    list FileChunk :=
  match fuel with
  | O => cs
  | S fuel =>
      match cs !! i with
      | None => cs
      | Some t =>
          if decide (FileId t ∈ garbage) then
            let moved := match last cs with
              | Some z => if decide (i < length cs - 1)%nat then <[i := z]> cs else cs
              | None => cs
              end in
            remove_loop fuel garbage i (take (length cs - 1) moved)
          else remove_loop fuel garbage (S i) cs
      end
  end.
Definition removeGarbageChunks (sec : FileChunkSection) (garbage : gset bytes) : FileChunkSection :=
  MkSection (sectionIndex sec) (remove_loop (length (chunks sec)) garbage 0 (chunks sec))
    (visibleIntervals sec) (chunkViews sec).

Section section.
Context (sort_long : (Point → Point → Z) → list Point → list Point).

Definition section_start (sec : FileChunkSection) : Z := sectionIndex sec * SectionSize.
Definition section_stop (sec : FileChunkSection) : Z := (sectionIndex sec + 1) * SectionSize.

Definition addChunk (sec : FileChunkSection) (c : FileChunk) : FileChunkSection :=
  let start := max (section_start sec) (Offset c) in
  let stop := min (section_stop sec) (chunk_stop c) in
  let cs := chunks sec ++ [c] in
  let sec1 :=
    match visibleIntervals sec with
    | None =>
        MkSection (sectionIndex sec) cs
          (Some (readResolvedChunks sort_long cs (section_start sec) (section_stop sec)))
          (chunkViews sec)
    | Some vis =>
        let vis := MergeIntoVisibles vis start stop c in
        removeGarbageChunks (MkSection (sectionIndex sec) cs (Some vis) (chunkViews sec))
          (FindGarbageChunks vis start stop)
    end in
  MkSection (sectionIndex sec1) (chunks sec1) (visibleIntervals sec1)
    (match chunkViews sec1 with
     | None => None
     | Some views => Some (MergeIntoChunkViews views start stop c)
     end).

(** The visible intervals and the views a read or a seek works with. *)
Definition setupForRead (sec : FileChunkSection) : FileChunkSection :=
  let '(cs, vis) :=
    match visibleIntervals sec with
    | Some vis => (chunks sec, vis)
    | None =>
        let vis := readResolvedChunks sort_long (chunks sec) (section_start sec) (section_stop sec) in
        ((SeparateGarbageChunks vis (chunks sec)).1, vis)
    end in
  let views :=
    match chunkViews sec with
    | Some views => views
    | None => ViewFromVisibleIntervals vis (section_start sec) (section_stop sec)
    end in
  MkSection (sectionIndex sec) cs (Some vis) (Some views).

Definition default_list {A} (o : option (list A)) : list A := default [] o.

Definition readDataAt (fetch : ChunkView → Z → Z → bytes * option go_error) (isRandomMode : bool)
    (sec : FileChunkSection) (fileSize : Z) (buff : bytes) (offset : Z) :
    FileChunkSection * (bytes * Z * Z * option go_error) :=
  let sec := setupForRead sec in
  (sec, doReadAt fetch isRandomMode (default_list (chunkViews sec)) fileSize buff offset).

Fixpoint data_start (vis : list (Interval VisibleInterval)) (offset : Z) : Z :=
  match vis with
  | [] => -1
  | v :: vis =>
      if decide (v_stop (Value v) ≤ offset) then data_start vis offset
      else if decide (offset < v_start (Value v)) then offset
      else offset
  end.
Definition DataStartOffset (sec : FileChunkSection) (offset : Z) : FileChunkSection * Z :=
  let sec := setupForRead sec in
  (sec, data_start (default_list (visibleIntervals sec)) offset).

Fixpoint next_stop (vis : list (Interval VisibleInterval)) (isAfterOffset : bool) (offset : Z) : Z :=
  match vis with
  | [] => offset
  | v :: vis =>
      let v := Value v in
      if negb isAfterOffset && bool_decide (v_stop v ≤ offset) then next_stop vis false offset
      else if decide (offset < v_start v) then offset
      else next_stop vis true (if decide (offset < v_stop v) then v_stop v else offset)
  end.
Definition NextStopOffset (sec : FileChunkSection) (offset : Z) : FileChunkSection * Z :=
  let sec := setupForRead sec in
  (sec, next_stop (default_list (visibleIntervals sec)) false offset).

(** *** The group of sections of a file *)

Definition ChunkGroup : Type := gmap Z FileChunkSection.

(** [for si := start; si < stop+1; si++]. *)
Definition section_range (start stop : Z) : list Z := seqZ start (stop + 1 - start).
Definition chunk_sections (c : FileChunk) : list Z :=
  section_range (Z.quot (Offset c) SectionSize) (Z.quot (chunk_stop c) SectionSize).

Definition AddChunk (group : ChunkGroup) (c : FileChunk) : ChunkGroup :=
  foldl (λ group si,
    let sec := default (NewFileChunkSection si) (group !! si) in
    <[si := addChunk sec c]> group) group (chunk_sections c).

(** Putting the data chunks into sections that have not been read yet. *)
Definition place_chunk (sections : ChunkGroup) (c : FileChunk) : ChunkGroup :=
  foldl (λ sections si,
    let sec := default (NewFileChunkSection si) (sections !! si) in
    <[si := MkSection (sectionIndex sec) (chunks sec ++ [c]) (visibleIntervals sec)
              (chunkViews sec)]> sections) sections (chunk_sections c).

(** The first loop of [SetChunks]: manifests are replaced by what they list. *)
Definition data_chunks (fetchManifest : FileChunk → res (list FileChunk)) (cs : list FileChunk) :
    res (list FileChunk) :=
  foldl (λ acc c,
    data ← acc;
    if negb (IsChunkManifest c) then Ok (data ++ [c])
    else resolved ← ResolveOneChunkManifest fetchManifest c; Ok (data ++ resolved)) (Ok []) cs.

Definition SetChunks (fetchManifest : FileChunk → res (list FileChunk)) (cs : list FileChunk) :
    res ChunkGroup :=
  dataChunks ← data_chunks fetchManifest cs;
  Ok (foldl place_chunk ∅ dataChunks).

(** *** Reading and seeking over sections *)

Section group_read.
(** Fetching from a volume server, and the mode the access pattern of each section's
    reader selects. *)
Context (fetch : ChunkView → Z → Z → bytes * option go_error) (isRandomMode : Z → bool).

(** The body of both loops: the part of the buffer that lies in the section. *)
Definition read_section (fileSize offset si : Z) (group : ChunkGroup) (buff : bytes) :
    ChunkGroup * (bytes * Z * Z * option go_error) :=
  let rangeStart := max offset (si * SectionSize) in
  let rangeStop := min (offset + zlen buff) ((si + 1) * SectionSize) in
  if decide (rangeStop ≤ rangeStart) then (group, (buff, 0, 0, None))
  else
    match group !! si with
    | None =>
        let rangeStop := min rangeStop fileSize in
        (group, (splice buff (rangeStart - offset) (zeros (rangeStop - rangeStart)),
                 rangeStop - rangeStart, 0, None))
    | Some sec =>
        let '(sec, (part, xn, xTsNs, xErr)) :=
          readDataAt fetch (isRandomMode si) sec fileSize
            (sub buff (rangeStart - offset) (rangeStop - rangeStart)) rangeStart in
        (<[si := sec]> group, (splice buff (rangeStart - offset) part, xn, xTsNs, xErr))
    end.

Fixpoint readDataAtSequential (fileSize offset : Z) (sis : list Z) (group : ChunkGroup)
    (buff : bytes) (n tsNs : Z) : ChunkGroup * (bytes * Z * Z * option go_error) :=
  match sis with
  | [] => (group, (buff, n, tsNs, None))
  | si :: sis =>
      let '(group, (buff, xn, xTsNs, xErr)) := read_section fileSize offset si group buff in
      match xErr with
      | Some _ => (group, (buff, n + xn, max tsNs xTsNs, xErr))
      | None => readDataAtSequential fileSize offset sis group buff (n + xn) (max tsNs xTsNs)
      end
  end.

(** Every section, each into its own part of the buffer; the end of the file is not
    an error here, and the error is one of the others, here the first in the order
    of the sections. *)
Fixpoint readDataAtParallel (fileSize offset : Z) (sis : list Z) (group : ChunkGroup)
    (buff : bytes) (n tsNs : Z) (err : option go_error) :
    ChunkGroup * (bytes * Z * Z * option go_error) :=
  match sis with
  | [] => (group, (buff, n, tsNs, err))
  | si :: sis =>
      let '(group, (buff, xn, xTsNs, xErr)) := read_section fileSize offset si group buff in
      readDataAtParallel fileSize offset sis group buff (n + xn) (max tsNs xTsNs)
        (match err with
         | Some _ => err
         | None => if decide (xErr = Some EOF) then None else xErr
         end)
  end.

Definition ReadDataAt (concurrentReaders : Z) (group : ChunkGroup) (fileSize : Z) (buff : bytes)
    (offset : Z) : ChunkGroup * (bytes * Z * Z * option go_error) :=
  if decide (fileSize ≤ offset) then (group, (buff, 0, 0, Some EOF))
  else
    let start := Z.quot offset SectionSize in
    let stop := Z.quot (offset + zlen buff) SectionSize in
    if decide (stop - start + 1 ≤ 1 ∨ concurrentReaders ≤ 1) then
      readDataAtSequential fileSize offset (section_range start stop) group buff 0 0
    else readDataAtParallel fileSize offset (section_range start stop) group buff 0 0 None.
End group_read.

(** [SEEK_DATA]: the first section with data at or after the offset. *)
Fixpoint search_data (offset : Z) (sis : list Z) (group : ChunkGroup) : ChunkGroup * (bool * Z) :=
  match sis with
  | [] => (group, (false, 0))
  | si :: sis =>
      match group !! si with
      | None => search_data offset sis group
      | Some sec =>
          let '(sec, sectionStart) := DataStartOffset sec offset in
          let group := <[si := sec]> group in
          if decide (sectionStart = -1) then search_data offset sis group
          else (group, (true, sectionStart))
      end
  end.

(** [SEEK_HOLE]: each section is asked from the offset of the call. *)
Fixpoint search_hole (fileSize offset : Z) (sis : list Z) (group : ChunkGroup) :
    ChunkGroup * (bool * Z) :=
  match sis with
  | [] => (group, (true, fileSize))
  | si :: sis =>
      match group !! si with
      | None => (group, (true, offset))
      | Some sec =>
          let '(sec, holeStart) := NextStopOffset sec offset in
          let group := <[si := sec]> group in
          if decide (Z.rem holeStart SectionSize = 0) then search_hole fileSize offset sis group
          else (group, (true, holeStart))
      end
  end.

Definition SEEK_DATA : Z := 3.
Definition doSearchChunks (group : ChunkGroup) (offset fileSize whence : Z) :
    ChunkGroup * (bool * Z) :=
  let si := Z.quot offset SectionSize in
  let maxSectionIndex := Z.quot fileSize SectionSize in
  if decide (whence = SEEK_DATA) then search_data offset (section_range si maxSectionIndex) group
  else search_hole fileSize offset (section_range si (maxSectionIndex - 1)) group.
End section.
End ChunkSection.
