(* ===== verification/FilerReadSpec.v ===== *)
(** * FilerReadSpec: reading a file gives the bytes written last

    The views of a range say what the visible intervals say; a read through them
    returns the bytes of the newest chunk at every offset and zeros elsewhere; and
    adding chunks to the sections of an open file keeps that in step with the
    sweep over all chunks. *)

From S2P Require Import Prelude GoStd FilerChunks FilerChunksSpec FilerRead.
Import IntervalList FileChunks ChunkReader ChunkSection.

(** ** Views *)
Module ViewSpec.

(** A view that agrees with its interval. *)
Definition view_ok (i : Interval ChunkView) : Prop :=
  cv_ViewOffset (Value i) = StartOffset i ∧ cv_ViewSize (Value i) = StopOffset i - StartOffset i
  ∧ cv_ModifiedTsNs (Value i) = TsNs i ∧ 0 ≤ StartOffset i ∧ StopOffset i < 2 ^ 63
  ∧ in_s 64 (cv_OffsetInChunk (Value i)).

Definition view_stop (offset size : Z) : Z :=
  let stop := add64 offset size in
  let stop := if decide (size = MaxInt64) then MaxInt64 else stop in
  if decide (stop < offset) then MaxInt64 else stop.

(** The part of a visible interval inside [offset, stop). *)
Definition clip (offset stop : Z) (iv : Interval VisibleInterval) : option (Interval ChunkView) :=
  let c := Value iv in
  let a := max offset (v_start c) in
  let b := min stop (v_stop c) in
  if decide (a < b) then
    Some (MkInterval a b (v_modifiedTsNs c)
      (MkView (v_fileId c) (add64 (sub64 a (v_start c)) (v_offsetInChunk c)) (u64 (b - a)) a
         (v_chunkSize c) (v_cipherKey c) (v_isGzipped c) (v_modifiedTsNs c)))
  else None.

Lemma views_clip vis offset size :
  ViewFromVisibleIntervals vis offset size = omap (clip offset (view_stop offset size)) vis.
Proof.
  unfold ViewFromVisibleIntervals. fold (view_stop offset size). unfold NewIntervalList.
  rewrite <- (app_nil_l (omap _ vis)). generalize (@nil (Interval ChunkView)) as acc.
  induction vis as [|iv vis IH]; intros acc; simpl; [by rewrite app_nil_r|].
  rewrite IH. unfold clip at 2, AppendInterval. case_decide; [by rewrite <- app_assoc|done].
Qed.

Lemma clip_cell a b iv y :
  aligned iv →
  match clip a b iv with Some v => cell_of v y | None => None end
  = if decide (a ≤ y < b) then cell_of iv y else None.
Proof.
  intros (H1 & H2 & H3). unfold clip, cell_of, inside. rewrite <- H1, <- H2. unfold max, min.
  repeat (case_decide; simpl; try lia); try done.
  all: do 2 f_equal; unfold add64, sub64.
  all: match goal with |- s64 (s64 (s64 ?d + ?o) + ?e) = _ =>
    rewrite swrap_add_l; replace (s64 d + o + e) with (s64 d + (o + e)) by lia;
    rewrite swrap_add_l; f_equal; lia end.
Qed.

Lemma views_ordered lo a b vis :
  Forall aligned vis → ordered lo vis → ordered lo (omap (clip a b) vis).
Proof.
  intros Hal. revert lo. induction Hal as [|iv vis (H1 & H2 & H3) _ IH]; intros lo Ho; simpl; [done|].
  destruct Ho as (? & ? & Ho). unfold clip at 1. rewrite H1, H2.
  assert (ordered (StopOffset iv) (omap (clip a b) vis)) as Ho' by auto.
  unfold max, min. repeat case_decide; simpl; repeat split; try lia;
    (eapply ordered_weaken; [|exact Ho']; lia).
Qed.

(** [ViewFromVisibleIntervals] restricts what is visible to the range. *)
Lemma views_at vis a b y :
  Forall aligned vis →
  view_at (omap (clip a b) vis) y = if decide (a ≤ y < b) then view_at vis y else None.
Proof.
  induction 1 as [|iv vis Hal _ IH]; [simpl; by case_decide|].
  pose proof (clip_cell a b iv y Hal) as Hc. unfold cell_of in Hc.
  change (omap (clip a b) (iv :: vis)) with
    (match clip a b iv with Some v => v :: omap (clip a b) vis | None => omap (clip a b) vis end).
  destruct (clip a b iv) as [v|]; cbn [view_at]; rewrite IH; clear IH.
  - destruct (decide (inside v y)), (decide (a ≤ y < b)), (decide (inside iv y)); done.
  - destruct (decide (a ≤ y < b)), (decide (inside iv y)); done.
Qed.

Lemma views_ok lo a b vis :
  Forall aligned vis → ordered lo vis → 0 ≤ lo → 0 ≤ a → b < 2 ^ 63 →
  Forall view_ok (omap (clip a b) vis) ∧ Forall timed (omap (clip a b) vis).
Proof.
  intros Hal. revert lo. induction Hal as [|iv vis (H1 & H2 & H3) _ IH]; intros lo Ho Hlo Ha Hb;
    simpl; [done|].
  destruct Ho as (? & ? & Ho). destruct (IH _ Ho ltac:(lia) Ha Hb) as [IH1 IH2].
  unfold clip. rewrite H1, H2. case_decide as Hlt; [|done].
  split; constructor; try done. unfold view_ok; cbn. unfold max, min in *.
  split_and!; try lia; [|repeat case_decide; lia..|by apply swrap_range].
  apply wrap_id. widths. repeat case_decide; lia.
Qed.
End ViewSpec.
Export ViewSpec.

(** ** Reading *)
Module ReadSpec.

(** The view lies inside its chunk. *)
Definition in_chunk (i : Interval ChunkView) : Prop :=
  let v := Value i in
  0 ≤ cv_OffsetInChunk v ∧ cv_OffsetInChunk v + cv_ViewSize v ≤ cv_ChunkSize v < 2 ^ 63.

Definition task_size (t : chunkReadTask) : Z := bufferEnd t - bufferStart t.
Definition sum (l : list Z) : Z := foldr Z.add 0 l.
Lemma sum_cons a l : sum (a :: l) = a + sum l.
Proof. done. Qed.
#[local] Arguments sum : simpl never.

Section collect.
Context (offset E : Z) (Hoff : 0 ≤ offset) (HE : E < 2 ^ 63).

(** The task reads what is visible at its place in the buffer. *)
Definition task_ok (views : list (Interval ChunkView)) (start : Z) (t : chunkReadTask) : Prop :=
  start - offset ≤ bufferStart t ∧ bufferStart t < bufferEnd t ≤ E - offset
  ∧ 0 ≤ chunkOffset t ∧ chunkOffset t + task_size t ≤ cv_ChunkSize (t_chunk t)
  ∧ t_chunk t ∈ (Value <$> views)
  ∧ ∀ y, offset + bufferStart t ≤ y < offset + bufferEnd t →
      ∃ d, view_at views y = Some d ∧ c_id d = cv_FileId (t_chunk t)
           ∧ c_off d = chunkOffset t + (y - offset - bufferStart t).

(** Nothing is visible in a gap. *)
Definition gap_ok (views : list (Interval ChunkView)) (start : Z) (g : Z * Z) : Prop :=
  start - offset ≤ g.1 < E - offset ∧ 0 < g.2
  ∧ ∀ y, offset + g.1 ≤ y < offset + g.1 + g.2 → y < E → view_at views y = None.

Definition gap_size (g : Z * Z) : Z := Z.min (g.1 + g.2) (E - offset) - g.1.

Record collected (views : list (Interval ChunkView)) (start : Z)
    (r : list chunkReadTask * list (Z * Z) * Z * Z) : Prop := Collected {
  col_end : start ≤ r.1.2 ∧ r.1.2 + r.2 = E;
  col_tasks : Forall (task_ok views start) r.1.1.1;
  col_gaps : Forall (gap_ok views start) r.1.1.2;
  col_all : ∀ y, start ≤ y < Z.min r.1.2 E →
    (∃ t, t ∈ r.1.1.1 ∧ offset + bufferStart t ≤ y < offset + bufferEnd t)
    ∨ ∃ g, g ∈ r.1.1.2 ∧ offset + g.1 ≤ y < offset + g.1 + g.2;
  col_rest : ∀ y, r.1.2 ≤ y < E → view_at views y = None;
  col_count : sum (task_size <$> r.1.1.1) + sum (gap_size <$> r.1.1.2) = Z.min r.1.2 E - start;
}.

(** Facts about the views after [v] carry over where [v] says nothing. *)
Lemma collected_tail v views start r :
  StopOffset v ≤ start ∨ E ≤ start →
  collected views start r → collected (v :: views) start r.
Proof.
  intros Hv [H1 H2 H3 H4 H5 H6].
  assert (∀ y, start ≤ y → y < E → view_at (v :: views) y = view_at views y) as Hsame.
  { intros y Hy HyE. simpl. rewrite decide_False; [done|]. unfold inside. lia. }
  split; auto.
  - eapply Forall_impl; [exact H2|]. intros t (? & ? & ? & ? & ? & Hd). split_and!; try done; try lia; [set_solver|].
    intros y Hy. rewrite Hsame by lia. by apply Hd.
  - eapply Forall_impl; [exact H3|]. intros g (? & ? & Hd). split_and!; try done; try lia.
    intros y Hy HyE. rewrite Hsame by lia. by apply Hd.
  - intros y Hy. rewrite Hsame by lia. by apply H5.
Qed.

Lemma collected_gap views start a r :
  start < a → a < E → (∀ y, start ≤ y < a → view_at views y = None) →
  collected views a r →
  collected views start (r.1.1.1, (start - offset, a - start) :: r.1.1.2, r.1.2, r.2).
Proof.
  intros Hlt HaE Hnone [H1 H2 H3 H4 H5 H6]. split; cbn.
  - lia.
  - eapply Forall_impl; [exact H2|]. intros t (? & ? & ? & ? & ? & Hd). split_and!; try done; lia.
  - constructor.
    + split_and!; cbn; try lia. intros y Hy HyE. apply Hnone. lia.
    + eapply Forall_impl; [exact H3|]. intros g (? & ? & Hd). split_and!; try done; lia.
  - intros y Hy. destruct (decide (y < a)).
    + right. exists (start - offset, a - start). split; [by left|]. cbn. lia.
    + destruct (H4 y ltac:(lia)) as [|(g & Hg & Hgy)]; [by left|]. right. exists g. split; [by right|done].
  - done.
  - rewrite sum_cons. unfold gap_size at 1; cbn. lia.
Qed.

Lemma collected_task views start stop t r :
  start < stop → task_ok views start t →
  bufferStart t = start - offset → bufferEnd t = stop - offset →
  collected views stop r →
  collected views start (t :: r.1.1.1, r.1.1.2, r.1.2, r.2).
Proof.
  intros Hlt Ht Hbs Hbe [H1 H2 H3 H4 H5 H6]. split; cbn.
  - lia.
  - constructor; [done|]. eapply Forall_impl; [exact H2|].
    intros t' (? & ? & ? & ? & ? & Hd). split_and!; try done; lia.
  - eapply Forall_impl; [exact H3|]. intros g (? & ? & Hd). split_and!; try done; lia.
  - intros y Hy. destruct (decide (y < stop)).
    + left. exists t. split; [by left|]. lia.
    + destruct (H4 y ltac:(lia)) as [(t' & Ht' & Hty)|]; [|by right]. left. exists t'. split; [by right|done].
  - done.
  - rewrite sum_cons. unfold task_size at 1. lia.
Qed.

Lemma collected_nil views start :
  start ≤ E → (∀ y, start ≤ y < E → view_at views y = None) →
  collected views start ([], [], start, E - start).
Proof. intros HE' Hn. split; cbn; auto; intros; try lia. rewrite !(eq_refl : sum [] = 0). lia. Qed.

(** The task of a view that meets the range. *)
Lemma head_task v views lo start :
  ordered lo (v :: views) → view_ok v → in_chunk v → offset ≤ start →
  StartOffset v ≤ start → start < StopOffset v → start < E →
  let stop := Z.min (StopOffset v) E in
  task_ok (v :: views) start
    (MkTask (Value v) (start - offset) (stop - start + start - offset)
       (u64 (start - cv_ViewOffset (Value v) + cv_OffsetInChunk (Value v)))).
Proof.
  intros Ho (H1 & H2 & _ & H4 & H5 & _) (H6 & H7 & H8) Hos Hs He HsE stop.
  assert (u64 (start - cv_ViewOffset (Value v) + cv_OffsetInChunk (Value v))
          = start - StartOffset v + cv_OffsetInChunk (Value v)) as Hu.
  { rewrite H1. apply wrap_id. widths. lia. }
  split_and!; cbn; rewrite ?Hu; unfold task_size; cbn; try lia; [by left|].
  intros y Hy. exists (cell_at (Value v) y). split_and!; cbn; [|done|].
  - rewrite decide_True; [done|]. unfold inside. lia.
  - rewrite H1. rewrite swrap_id by (widths; lia). lia.
Qed.

Lemma view_stop_eq v : view_ok v → StartOffset v < StopOffset v →
  add64 (cv_ViewOffset (Value v)) (s64 (cv_ViewSize (Value v))) = StopOffset v.
Proof.
  intros (H1 & H2 & _ & H4 & H5 & _) Hlt. rewrite H1, H2. unfold add64.
  rewrite (swrap_id 64 (StopOffset v - _)) by (widths; lia).
  rewrite swrap_id by (widths; lia). lia.
Qed.

(** A view whose start is at or before the position. *)
Lemma collect_here v views lo start :
  ordered lo (v :: views) → view_ok v → in_chunk v → offset ≤ start →
  StartOffset v ≤ start → start < E →
  (∀ start', start ≤ start' ≤ E → collected views start' (collect offset views start' (E - start'))) →
  collected (v :: views) start
    (let chunkStart := max (cv_ViewOffset (Value v)) start in
     let chunkStop := min (add64 (cv_ViewOffset (Value v)) (s64 (cv_ViewSize (Value v))))
                        (start + (E - start)) in
     if decide (chunkStop ≤ chunkStart) then
       let '(tasks, gaps, so, rem) := collect offset views start (E - start) in
       (tasks, [] ++ gaps, so, rem)
     else
       let '(tasks, gaps, so, rem) :=
         collect offset views chunkStop (E - start - (chunkStop - chunkStart)) in
       (MkTask (Value v) (start - offset) (chunkStop - chunkStart + start - offset)
          (u64 (chunkStart - cv_ViewOffset (Value v) + cv_OffsetInChunk (Value v))) :: tasks,
        [] ++ gaps, so, rem)).
Proof.
  intros Ho Hv Hin Hos Hs HsE IH. pose proof Ho as (_ & Hlt & _). cbv zeta.
  rewrite view_stop_eq by done. pose proof Hv as (H1 & H2 & H3 & H4 & H5 & _).
  replace (max (cv_ViewOffset (Value v)) start) with start
    by (rewrite H1; unfold max; case_decide; lia).
  replace (min (StopOffset v) (start + (E - start))) with (Z.min (StopOffset v) E)
    by (unfold min; case_decide; lia).
  case_decide as Hd.
  - specialize (IH start ltac:(lia)).
    destruct (collect offset views start (E - start)) as [[[tasks gaps] so] rem].
    apply collected_tail; [lia|done].
  - specialize (IH (Z.min (StopOffset v) E) ltac:(lia)).
    replace (E - start - (Z.min (StopOffset v) E - start)) with (E - Z.min (StopOffset v) E) by lia.
    destruct (collect offset views (Z.min (StopOffset v) E) _) as [[[tasks gaps] so] rem].
    apply (collected_tail v) in IH; [|lia].
    apply (collected_task (v :: views) start (Z.min (StopOffset v) E) _ (tasks, gaps, so, rem));
      [lia| |done|cbn; lia|exact IH].
    eapply head_task; eauto; lia.
Qed.

Lemma collect_spec views lo start :
  ordered lo views → Forall view_ok views → Forall in_chunk views → offset ≤ start ≤ E →
  collected views start (collect offset views start (E - start)).
Proof.
  revert lo start. induction views as [|v views IH]; intros lo start Ho Hv Hin Hs.
  { apply collected_nil; [lia|done]. }
  pose proof Ho as (Hlo & Hlt & Ho').
  apply Forall_cons in Hv as [Hv Hvs], Hin as [Hi His].
  assert (∀ start', offset ≤ start' ≤ E →
    collected views start' (collect offset views start' (E - start'))) as IH'
    by (intros; by eapply IH).
  pose proof Hv as (H1 & _). cbn [collect].
  case_decide as Hr; [replace start with E by lia; replace (E - E) with (E - E) by lia;
    apply collected_nil; [lia|intros y Hy; lia]|].
  destruct (decide (start < cv_ViewOffset (Value v))) as [Hgap|Hgap].
  - pose proof Hgap as Hgap'. rewrite H1 in Hgap'.
    assert (∀ y, start ≤ y < StartOffset v → view_at (v :: views) y = None) as Hnone.
    { intros y Hy. eapply (view_at_below (StartOffset v)); [|lia]. split_and!; [lia|lia|done]. }
    case_decide as Hr'.
    + assert (∀ y, start ≤ y < E → view_at (v :: views) y = None) as Hn' by (intros; apply Hnone; lia).
      split; cbn; auto; try lia.
      * constructor; [|done]. split_and!; cbn; try lia. intros y Hy HyE. apply Hn'. lia.
      * intros y Hy. right. eexists. split; [by left|]. cbn. lia.
      * rewrite sum_cons. unfold gap_size; cbn. rewrite !(eq_refl : sum [] = 0). lia.
    + set (a := cv_ViewOffset (Value v)) in *.
      replace (E - start - (a - start)) with (E - a) in * by lia.
      pose proof (collect_here v views lo a ltac:(split_and!; [lia|lia|done]) Hv Hi
        ltac:(lia) ltac:(lia) ltac:(lia) ltac:(intros; apply IH'; lia)) as H.
      cbv zeta in H |- *. fold a in H.
      apply (collected_gap _ start a) in H; [|lia|lia|by rewrite H1].
      destruct (decide _) in H |- *; destruct (collect _ _ _ _) as [[[? ?] ?] ?]; exact H.
  - case_decide; [lia|].
    apply (collect_here v views lo start Ho Hv Hi); [lia|lia|lia|intros; apply IH'; lia].
Qed.
End collect.

(** The loop stops at its start or inside the views. *)
Lemma collect_bound offset B views lo : ∀ start rem,
  ordered lo views → Forall view_ok views → Forall (λ i, StopOffset i ≤ B) views →
  let so := (collect offset views start rem).1.2 in so = start ∨ so ≤ B.
Proof.
  revert lo. induction views as [|v views IH]; intros lo start rem Ho Hv HB; [by left|].
  destruct Ho as (_ & Hlt & Ho). apply Forall_cons in Hv as [Hv Hvs], HB as [Hb HBs].
  pose proof (view_stop_eq v Hv Hlt) as Hst. pose proof Hv as (H1 & _). cbn [collect].
  case_decide; [by left|].
  set (a := cv_ViewOffset (Value v)) in *.
  assert (∀ start rem, let so := (collect offset views start rem).1.2 in
    so = start ∨ so ≤ B) as IH' by (intros; by eapply IH).
  destruct (decide (start < a)); (case_decide; [cbn; lia|]); rewrite Hst;
    unfold min, max; repeat case_decide;
    match goal with |- context [collect offset views ?x ?y] =>
      pose proof (IH' x y); destruct (collect offset views x y) as [[[? ?] ?] ?] end;
    cbn in *; lia.
Qed.

(** *** Painting the buffer *)

Lemma splice_lookup {A} (b : list A) off d (i : Z) :
  0 ≤ off → off + zlen d ≤ zlen b → 0 ≤ i →
  splice b off d !! Z.to_nat i
  = if decide (off ≤ i < off + zlen d) then d !! Z.to_nat (i - off) else b !! Z.to_nat i.
Proof.
  intros Ho Hd Hi. unfold splice, zlen in *.
  destruct (decide (i < off)).
  { rewrite decide_False by lia. rewrite lookup_app_l by (rewrite length_take; lia).
    by rewrite lookup_take_lt by lia. }
  rewrite lookup_app_r by (rewrite length_take; lia). rewrite length_take.
  replace (Z.to_nat i - Z.to_nat off `min` length b)%nat with (Z.to_nat (i - off)) by lia.
  case_decide.
  - by rewrite lookup_app_l by lia.
  - rewrite lookup_app_r by lia. rewrite lookup_drop. f_equal. lia.
Qed.

Section paint.
Context (p : bytes) (F : Z → Z).

(** [b] is [p] with [F] written where [P] holds. *)
Definition painted (P : Z → Prop) (b : bytes) : Prop :=
  zlen b = zlen p ∧ ∀ i, 0 ≤ i < zlen p → P i → b !! Z.to_nat i = Some (F i).

Lemma painted_none : painted (λ _, False) p.
Proof. done. Qed.

Lemma painted_splice (P : Z → Prop) b s d :
  painted P b → 0 ≤ s → s + zlen d ≤ zlen p →
  (∀ k, 0 ≤ k < zlen d → d !! Z.to_nat k = Some (F (s + k))) →
  painted (λ i, P i ∨ s ≤ i < s + zlen d) (splice b s d).
Proof.
  intros [Hl HP] Hs Hd HF. split; [rewrite zlen_splice; lia|]. intros i Hi HPi.
  rewrite splice_lookup by lia. case_decide.
  - rewrite HF by lia. do 2 f_equal. lia.
  - apply HP; [done|]. destruct HPi; [done|lia].
Qed.

Lemma painted_iff (P Q : Z → Prop) b : (∀ i, 0 ≤ i < zlen p → Q i → P i) → painted P b → painted Q b.
Proof. intros H [Hl HP]. split; [done|]. intros. apply HP; [done|by apply H]. Qed.

Lemma lookup_zeros n k : 0 ≤ k < n → zeros n !! Z.to_nat k = Some 0.
Proof. intros. unfold zeros. apply lookup_replicate_2. lia. Qed.

(** [zero] on a stretch where [F] is zero. *)
Lemma painted_zero (P : Z → Prop) b s l :
  painted P b → 0 ≤ s < zlen p → 0 < l →
  (∀ i, s ≤ i < s + l → i < zlen p → F i = 0) →
  (zero b s l).2 = Z.min (s + l) (zlen p) - s
  ∧ painted (λ i, P i ∨ s ≤ i < s + l) (zero b s l).1.
Proof.
  intros Hb Hs Hl HF. pose proof Hb as [Hlen _]. unfold zero. rewrite decide_False by lia. cbn.
  assert (max s 0 = s) as -> by (unfold max; case_decide; lia).
  assert (min (s + l) (zlen b) = Z.min (s + l) (zlen p)) as -> by (unfold min; case_decide; lia).
  split; [done|]. eapply painted_iff; [|eapply (painted_splice P b s); [done|lia|..]].
  - cbv beta. rewrite zlen_zeros. intros i Hi [?|?]; [by left|right; lia].
  - rewrite zlen_zeros. lia.
  - rewrite zlen_zeros. intros k Hk. rewrite lookup_zeros by lia. rewrite HF by lia. done.
Qed.

Lemma painted_gaps gaps b n (P : Z → Prop) :
  painted P b →
  Forall (λ g, 0 ≤ g.1 < zlen p ∧ 0 < g.2
               ∧ ∀ i, g.1 ≤ i < g.1 + g.2 → i < zlen p → F i = 0) gaps →
  let r := foldl (λ '(p, n) '(start, length), let '(p, k) := zero p start length in (p, n + k))
             (b, n) gaps in
  r.2 = n + sum ((λ g, Z.min (g.1 + g.2) (zlen p) - g.1) <$> gaps)
  ∧ painted (λ i, P i ∨ ∃ g, g ∈ gaps ∧ g.1 ≤ i < g.1 + g.2) r.1.
Proof.
  revert b n P. induction gaps as [|[s l] gaps IH]; intros b n P Hb Hg; cbn [foldl].
  { cbn. split; [rewrite (eq_refl : sum [] = 0); lia|]. eapply painted_iff; [|done].
    intros i _ [?|(g & Hg' & _)]; [done|]. inversion Hg'. }
  apply Forall_cons in Hg as [(H1 & H2 & H3) Hg]. cbn in H1, H2, H3.
  destruct (painted_zero P b s l Hb H1 H2 H3) as [Hn Hz].
  destruct (zero b s l) as [b' k]. cbn in Hn, Hz.
  destruct (IH b' (n + k) _ Hz Hg) as [IHn IHp]. split.
  - etransitivity; [exact IHn|]. rewrite fmap_cons, sum_cons. cbn. lia.
  - eapply painted_iff; [|exact IHp]. intros i _ [?|(g & [->|Hg']%elem_of_cons & Hi)]; [by left; left|by left; right|].
    right. by exists g.
Qed.

(** What is left after the last view: zeros up to the end of the file. *)
Lemma read_tail offset so rem fileSize b :
  offset ≤ so → so + rem = offset + zlen p → so = offset ∨ so ≤ fileSize →
  painted (λ i, i < Z.min so (offset + zlen p) - offset) b →
  (∀ i, so - offset ≤ i < zlen p → F i = 0) →
  ∃ b', (if decide (0 < rem ∧ so ≤ fileSize) then
           let delta := min rem (fileSize - so) in
           let '(b', k) := zero b (so - offset) delta in
           (b', Z.min so (offset + zlen p) - offset + k)
         else (b, Z.min so (offset + zlen p) - offset))
        = (b', Z.max 0 (Z.min (zlen p) (fileSize - offset)))
    ∧ zlen b' = zlen p
    ∧ ∀ i, 0 ≤ i < Z.max 0 (Z.min (zlen p) (fileSize - offset)) →
        b' !! Z.to_nat i = Some (F i).
Proof.
  intros Hso Hsum Hb Hp HF. pose proof (zlen_nonneg p) as Hp0. cbv zeta.
  destruct (decide (0 < rem ∧ so ≤ fileSize)) as [[Hrem Hle]|Hno].
  2:{ exists b. split_and!; [f_equal; lia|apply Hp|]. intros i Hi. apply Hp; lia. }
  destruct (decide (so = fileSize)) as [Heq|Hne].
  { unfold zero. rewrite decide_True by (unfold min; case_decide; lia).
    exists b. split_and!; [f_equal; lia|apply Hp|]. intros i Hi. apply Hp; lia. }
  destruct (painted_zero _ b (so - offset) (min rem (fileSize - so)) Hp) as [Hk Hp4].
  { lia. }
  { unfold min. case_decide; lia. }
  { intros i Hi Hil. apply HF. lia. }
  destruct (zero b (so - offset) (min rem (fileSize - so))) as [b' k]. cbn in Hk, Hp4.
  exists b'. split_and!; [f_equal; rewrite Hk; unfold min; case_decide; lia|apply Hp4|].
  intros i Hi. apply Hp4; [lia|]. unfold min. case_decide; lia.
Qed.

(** *** Tasks *)
Context (fetch : ChunkView → Z → Z → bytes * option go_error).

(** The fetch of a task succeeds and brings what [F] has there. *)
Definition delivers (t : chunkReadTask) : Prop :=
  0 ≤ bufferStart t ∧ bufferEnd t ≤ zlen p ∧
  ∃ d, fetch (t_chunk t) (chunkOffset t) (bufferEnd t - bufferStart t) = (d, None)
       ∧ zlen d = task_size t
       ∧ ∀ k, 0 ≤ k < zlen d → d !! Z.to_nat k = Some (F (bufferStart t + k)).

Lemma painted_task (P : Z → Prop) b t :
  painted P b → delivers t →
  ∃ b', run_task fetch b t = (b', task_size t, None)
        ∧ painted (λ i, P i ∨ bufferStart t ≤ i < bufferEnd t) b'.
Proof.
  intros Hb (H1 & H2 & d & Hd & Hl & HF). unfold run_task. rewrite Hd, Hl.
  eexists. split; [reflexivity|]. unfold task_size in Hl.
  eapply painted_iff; [|eapply (painted_splice P b (bufferStart t) d); [done|done|lia|done]].
  intros i Hi [?|?]; [by left|right; lia].
Qed.

Lemma run_tasks tasks : ∀ b n ts (P : Z → Prop),
  painted P b → Forall delivers tasks →
  ∃ b' ts', painted (λ i, P i ∨ ∃ t, t ∈ tasks ∧ bufferStart t ≤ i < bufferEnd t) b'
    ∧ run_sequential fetch b n ts tasks = (b', n + sum (task_size <$> tasks), ts', None)
    ∧ run_parallel fetch b n ts None tasks = (b', n + sum (task_size <$> tasks), ts', None).
Proof.
  induction tasks as [|t tasks IH]; intros b n ts P Hb Hd; cbn [run_sequential run_parallel].
  { exists b, ts. change (sum (task_size <$> [])) with 0. rewrite Z.add_0_r. split_and!; [|done|done].
    eapply painted_iff; [|done]. intros i _ [?|(t & Ht & _)]; [done|]. inversion Ht. }
  apply Forall_cons in Hd as [Ht Hd]. destruct (painted_task P b t Hb Ht) as (b1 & Hr & Hb1).
  rewrite Hr. destruct (IH b1 (n + task_size t) (max ts (cv_ModifiedTsNs (t_chunk t))) _ Hb1 Hd)
    as (b' & ts' & Hp & Hs & Hpar).
  exists b', ts'. rewrite Hs, Hpar, fmap_cons, sum_cons, Z.add_assoc. split_and!; [|done|done].
  eapply painted_iff; [|exact Hp].
  intros i _ [?|(t' & [->|Ht']%elem_of_cons & Hi)]; [by left; left|by left; right|].
  right. by exists t'.
Qed.
End paint.

(** *** The whole read *)
Section read.
Context (content : bytes → Z → Z).
Context (fetch : ChunkView → Z → Z → bytes * option go_error).
Context (views : list (Interval ChunkView)).

(** Volume servers return the bytes of the chunk. *)
Definition serves : Prop := ∀ v off len, v ∈ views →
  0 ≤ off → 0 ≤ len → off + len ≤ cv_ChunkSize (Value v) →
  fetch (Value v) off len = (content (cv_FileId (Value v)) <$> seqZ off len, None).

(** The byte of the file at [y]. *)
Definition byte_at (y : Z) : Z :=
  match view_at views y with Some d => content (c_id d) (c_off d) | None => 0 end.

Lemma zlen_seqZ a n : 0 ≤ n → zlen (seqZ a n) = n.
Proof. intros. unfold zlen. rewrite length_seqZ. lia. Qed.

Lemma task_delivers offset E start (p : bytes) t :
  serves → offset ≤ start → E = offset + zlen p →
  task_ok offset E views start t → delivers p (λ i, byte_at (offset + i)) fetch t.
Proof.
  intros Hserve Hos HE (H1 & H2 & H3 & H4 & H5 & H6).
  apply list_elem_of_fmap in H5 as (v & Hv & Hin). split; [lia|]. split; [lia|].
  eexists. rewrite Hv in *. split; [apply Hserve; auto; unfold task_size in *; lia|].
  assert (zlen (content (cv_FileId (Value v)) <$> seqZ (chunkOffset t) (bufferEnd t - bufferStart t))
          = task_size t) as Hl.
  { unfold zlen. rewrite length_fmap. fold (zlen (seqZ (chunkOffset t) (bufferEnd t - bufferStart t))).
    rewrite zlen_seqZ by lia. done. }
  split; [done|]. rewrite Hl. unfold task_size. intros k Hk.
  rewrite list_lookup_fmap, lookup_seqZ_lt by lia. cbn. f_equal. unfold byte_at.
  destruct (H6 (offset + (bufferStart t + k)) ltac:(lia)) as (d & -> & -> & ->). f_equal. lia.
Qed.

(** A read through chunk views fills the buffer with the file's bytes: where a
    view is visible the bytes of its chunk, zeros elsewhere, up to the end of the
    file, whether the chunks are fetched one after the other or in parallel; it
    reports the end of the file exactly when the range reaches it. *)
Lemma read_views_at random fileSize p offset :
  ordered 0 views → Forall view_ok views → Forall in_chunk views →
  Forall (λ i, StopOffset i ≤ fileSize) views → serves →
  0 ≤ offset → offset + zlen p < 2 ^ 63 →
  ∃ p' ts, let n := Z.max 0 (Z.min (zlen p) (fileSize - offset)) in
    doReadAt fetch random views fileSize p offset
      = (p', n, ts, if decide (fileSize ≤ offset + zlen p) then Some EOF else None)
    ∧ zlen p' = zlen p ∧ ∀ i, 0 ≤ i < n → p' !! Z.to_nat i = Some (byte_at (offset + i)).
Proof.
  intros Ho Hok Hin HB Hserve Hoff Hmax. set (E := offset + zlen p).
  pose proof (zlen_nonneg p) as Hp0.
  pose proof (collect_spec offset E Hoff ltac:(lia) views 0 offset Ho Hok Hin ltac:(lia)) as Hc.
  pose proof (collect_bound offset fileSize views 0 offset (E - offset) Ho Hok HB) as Hb.
  unfold doReadAt. replace (collect offset views offset (zlen p))
    with (collect offset views offset (E - offset)) by (f_equal; lia).
  destruct (collect offset views offset (E - offset)) as [[[tasks gaps] so] rem]. cbn in Hb.
  destruct Hc as [[H1 H1'] H2 H3 H4 H5 H6]. cbn in H1, H1', H2, H3, H4, H5, H6.
  set (F := λ i, byte_at (offset + i)).
  destruct (painted_gaps p F gaps p 0 _ (painted_none p F)) as [Hn1 Hp1].
  { eapply Forall_impl; [exact H3|]. intros g (Hg1 & Hg2 & Hg3). split_and!; [lia|lia|done|].
    intros i Hi Hil. unfold F, byte_at. by rewrite Hg3 by lia. }
  unfold zero_gaps. destruct (foldl _ (p, 0) gaps) as [p1 n1]. cbn in Hn1, Hp1.
  assert (Forall (delivers p F fetch) tasks) as Hdel.
  { eapply Forall_impl; [exact H2|]. intros t Ht. eapply (task_delivers offset E offset); auto; lia. }
  destruct (run_tasks p F fetch tasks p1 n1 0 _ Hp1 Hdel) as (p2 & ts & Hp2 & Hs & Hpar).
  assert (n1 + sum (task_size <$> tasks) = Z.min so E - offset) as Hn2.
  { rewrite <- H6, Hn1. unfold gap_size. replace (E - offset) with (zlen p) by lia. lia. }
  assert (painted p F (λ i, i < Z.min so E - offset) p2) as Hp3.
  { eapply painted_iff; [|exact Hp2]. intros i Hi Hlt.
    destruct (H4 (offset + i) ltac:(lia)) as [(t & Ht & Hti)|(g & Hg & Hgi)].
    - right. exists t. split; [done|lia].
    - left. right. exists g. split; [done|lia]. }
  rewrite Hn2 in Hs, Hpar.
  replace (if decide (zlen tasks ≤ 1 ∨ random = true) then run_sequential fetch p1 n1 0 tasks
           else run_parallel fetch p1 n1 0 None tasks)
    with (p2, Z.min so E - offset, ts, @None go_error)
    by (destruct (decide (zlen tasks ≤ 1 ∨ random = true)); congruence).
  clear Hs Hpar Hp2 Hp1 H4 H6 Hn2.
  destruct (read_tail p F offset so rem fileSize p2) as (p3 & Heq & Hl3 & Hp4); auto.
  { intros i Hi. unfold F, byte_at. by rewrite H5 by lia. }
  fold E in Heq. cbv zeta in Heq |- *. rewrite Heq. by exists p3, ts.
Qed.
End read.
End ReadSpec.
