(* ===== verification/FilerGroupSpec.v ===== *)
(** * FilerGroupSpec: the sections of an open file follow its chunks

    Whatever order chunks are set and added in, every section shows the newest
    chunk at each of its offsets, and reads return its bytes. *)

From S2P Require Import Prelude GoStd FilerChunks FilerChunksSpec FilerRead FilerReadSpec.
Import IntervalList FileChunks ChunkReader ChunkSection ReadSpec.

(** ** Merging one chunk into a list *)
Module MergeSpec.

(** Properties of the nodes that cutting keeps hold after an insertion. *)
Lemma insert_Forall {T} `{!IntervalValue T} (P : Interval T → Prop) iv l lo :
  (∀ i s, P i → StartOffset i ≤ s < StopOffset i → P (set_start i s)) →
  (∀ i s, P i → StartOffset i < s ≤ StopOffset i → P (left_of i s)) →
  ordered lo l → P iv → Forall P l → Forall P (insertInterval iv l).
Proof.
  intros Hset Hleft Ho Hiv Hl. revert iv lo Hiv Ho.
  induction Hl as [|n l Hn Hl IH]; intros iv lo Hiv Ho; simpl.
  { case_decide; auto. }
  destruct Ho as (? & ? & Ho).
  assert (∀ iv, P iv → Forall P (insertInterval iv l)) as IH' by eauto.
  repeat case_decide; simpl in *; repeat constructor; auto;
    try (apply Hset; [|simpl; lia]); try (apply Hleft; [|simpl; lia]); auto;
    try (apply IH'; apply Hset; [|simpl; lia]); try (apply Hset; [|simpl; lia]); auto.
Qed.

Lemma insert_aligned iv l lo :
  ordered lo l → aligned iv → Forall aligned l → Forall aligned (insertInterval iv l).
Proof.
  intros Ho. eapply insert_Forall; [| |exact Ho].
  - intros i s (_ & _ & H3) _. by split_and!.
  - intros i s (_ & _ & H3) _. by split_and!.
Qed.

Lemma insert_view_ok iv l lo :
  ordered lo l → view_ok iv → Forall view_ok l → Forall view_ok (insertInterval iv l).
Proof.
  intros Ho. eapply insert_Forall; [| |exact Ho].
  - intros i s (H1 & H2 & H3 & H4 & H5 & _) Hs. split_and!; cbn; try lia; try done.
    + apply wrap_id. widths. lia.
    + by apply swrap_range.
  - intros i s (H1 & H2 & H3 & H4 & H5 & _) Hs. split_and!; cbn; try lia; try done.
    + apply wrap_id. widths. lia.
    + by apply swrap_range.
Qed.

Lemma insert_empty {T} `{!IntervalValue T} (iv : Interval T) l :
  StopOffset iv ≤ StartOffset iv → insertInterval iv l = l.
Proof. intros H. destruct l; simpl; by rewrite decide_True. Qed.

(** Every cell is that of a chunk at the offset. *)
Definition genuine {T} `{!IntervalValue T, !CellValue T} (cs : list FileChunk)
    (l : list (Interval T)) : Prop :=
  ∀ y d, view_at l y = Some d → ∃ c, c ∈ cs ∧ covers c y ∧ d = chunk_cell c y.

(** A list that shows the newest of [cs] on [a, b). *)
Definition shows {T} `{!IntervalValue T, !CellValue T} (cs : list FileChunk) (a b : Z)
    (l : list (Interval T)) : Prop :=
  ordered 0 l ∧ Forall timed l ∧ genuine cs l ∧ ∀ y, a ≤ y < b → view_at l y = newest cs y.

Section merge.
Context {T : Type} `{!IntervalValue T, !CellValue T}.
Context (cs : list FileChunk) (a b : Z) (c : FileChunk) (value : T).
Context (Ha : 0 ≤ a) (Hc : chunk_ok c).
Let start := max a (Offset c).
Let stop := min b (chunk_stop c).
Context (Hcell : ∀ y, start ≤ y < stop → cell_at value y = chunk_cell c y).
Context (Hts : ∀ y, c_ts (cell_at value y) = ModifiedTsNs c).

Lemma merge_range y : a ≤ y < b → start ≤ y < stop ↔ covers c y.
Proof.
  intros Hy. unfold start, stop, covers. rewrite chunk_stop_eq by done.
  unfold max, min. repeat case_decide; lia.
Qed.

Lemma merge_shows l :
  shows cs a b l →
  shows (cs ++ [c]) a b (InsertInterval l start stop (ModifiedTsNs c) value).
Proof.
  intros (Ho & Ht & Hg & Hv). unfold InsertInterval.
  set (iv := MkInterval start stop (ModifiedTsNs c) (SetStartStop value start stop)).
  assert (timed iv) as Hiv by (intros y; cbn; rewrite cell_set; apply Hts).
  assert (0 ≤ StartOffset iv) as H0.
  { cbn. destruct Hc. unfold start, max. case_decide; lia. }
  assert (∀ y, cell_of iv y = if decide (start ≤ y < stop) then Some (chunk_cell c y) else None) as Hcc.
  { intros y. unfold cell_of, inside; cbn. case_decide; [|done]. by rewrite cell_set, Hcell. }
  split_and!.
  - by apply insert_ordered.
  - by apply insert_timed.
  - intros y d. rewrite (insert_view _ _ 0) by done. rewrite Hcc.
    intros Hd. assert (view_at l y = Some d ∨ (start ≤ y < stop ∧ d = chunk_cell c y)) as [H|[H ->]].
    { destruct (view_at l y); repeat case_decide; simpl in Hd; repeat case_decide; naive_solver. }
    + destruct (Hg y d H) as (c' & ? & ?). exists c'. split; [set_solver|done].
    + exists c. split_and!; [set_solver| |done]. unfold covers, start, stop in *.
      rewrite chunk_stop_eq in H by done. unfold max, min in H. repeat case_decide; lia.
  - intros y Hy. rewrite (insert_view _ _ 0) by done. rewrite Hcc, Hv, newest_snoc by done.
    f_equal. pose proof (merge_range y Hy). repeat case_decide; tauto.
Qed.
End merge.

Lemma shows_more {T} `{!IntervalValue T, !CellValue T} cs a b c (l : list (Interval T)) :
  (∀ y, a ≤ y < b → ¬ covers c y) → shows cs a b l → shows (cs ++ [c]) a b l.
Proof.
  intros Hn (Ho & Ht & Hg & Hv). split_and!; [done|done| |].
  - intros y d Hd. destruct (Hg y d Hd) as (c' & ? & ?). exists c'. split; [set_solver|done].
  - intros y Hy. rewrite newest_snoc, decide_False by auto. rewrite Hv by done. by destruct (newest cs y).
Qed.

(** The position in the chunk of the merged values. *)
Lemma merged_offset c start y :
  chunk_ok c → 0 ≤ start ≤ y → y < 2 ^ 63 → s64 (sub64 start (Offset c) + (y - start)) = y - Offset c.
Proof.
  intros (? & ? & ? & _) Hs Hy. unfold sub64. rewrite swrap_add_l. rewrite swrap_id by (widths; lia). lia.
Qed.

Lemma merge_visibles_shows cs a b c l :
  0 ≤ a → b < 2 ^ 63 → chunk_ok c → shows cs a b l → Forall aligned l →
  let l' := MergeIntoVisibles l (max a (Offset c)) (min b (chunk_stop c)) c in
  shows (cs ++ [c]) a b l' ∧ Forall aligned l'.
Proof.
  intros Ha Hb Hc Hs Hal. unfold MergeIntoVisibles. split.
  - apply merge_shows; [done|done| |done|done]. intros y Hy. cbn. unfold chunk_cell. f_equal.
    apply merged_offset; [done| |]; unfold max, min in *; repeat case_decide; lia.
  - eapply insert_aligned; [apply Hs|by split_and!|done].
Qed.

Lemma merge_views_shows cs a b c l :
  0 ≤ a → b < 2 ^ 63 → chunk_ok c → shows cs a b l → Forall view_ok l →
  let l' := MergeIntoChunkViews l (max a (Offset c)) (min b (chunk_stop c)) c in
  shows (cs ++ [c]) a b l' ∧ Forall view_ok l'.
Proof.
  intros Ha Hb Hc Hs Hal. unfold MergeIntoChunkViews. split.
  - apply merge_shows; [done|done| |done|done]. intros y Hy. cbn. unfold chunk_cell. f_equal.
    apply merged_offset; [done| |]; unfold max, min in *; repeat case_decide; lia.
  - unfold InsertInterval. set (iv := MkInterval _ _ _ _).
    destruct (decide (StopOffset iv ≤ StartOffset iv)); [by rewrite insert_empty|].
    eapply insert_view_ok; [apply Hs| |done]. cbn in *.
    split_and!; cbn; try done; [apply wrap_id; widths| | |by apply swrap_range];
      unfold max, min in *; repeat case_decide; lia.
Qed.
End MergeSpec.
Export MergeSpec.

(** ** Sections *)
Module SectionSpec.

Section section.
Context (sort_long : (Point → Point → Z) → list Point → list Point).
Context (Hsort : Slices.sorts sort_long).

(** Section numbers whose end is still an [int64]. *)
Definition index_ok (si : Z) : Prop := 0 ≤ si ∧ (2 * si + 2) * SectionSize < 2 ^ 63.

(** The section stands for the chunks [cs] of the file. *)
Record sec_ok (cs : list FileChunk) (sec : FileChunkSection) : Prop := SecOk {
  sec_chunks : visibleIntervals sec = None →
    chunkViews sec = None ∧ chunks sec `sublist_of` cs
    ∧ ∀ y, section_start sec ≤ y < section_stop sec → newest (chunks sec) y = newest cs y;
  sec_visible vis : visibleIntervals sec = Some vis →
    shows cs (section_start sec) (section_stop sec) vis ∧ Forall aligned vis;
  sec_views views : chunkViews sec = Some views →
    shows cs (section_start sec) (section_stop sec) views ∧ Forall view_ok views;
}.

Lemma sublist_chunks (cs' cs : list FileChunk) :
  cs' `sublist_of` cs → (∀ c, c ∈ cs → chunk_ok c) → distinct cs →
  (∀ c, c ∈ cs' → chunk_ok c) ∧ distinct cs'.
Proof.
  intros Hs Hok Hd. split.
  - intros c Hc. apply Hok. by eapply elem_of_sublist.
  - unfold distinct in *. eapply sublist_NoDup; [exact Hd|by apply fmap_sublist].
Qed.

(** The sweep of a section that has not been read. *)
Lemma sweep_shows cs sec :
  index_ok (sectionIndex sec) → (∀ c, c ∈ cs → chunk_ok c) → distinct cs →
  chunks sec `sublist_of` cs →
  (∀ y, section_start sec ≤ y < section_stop sec → newest (chunks sec) y = newest cs y) →
  let vis := readResolvedChunks sort_long (chunks sec) (section_start sec) (section_stop sec) in
  shows cs (section_start sec) (section_stop sec) vis ∧ Forall aligned vis.
Proof.
  intros Hi Hok Hd Hsub Hn. destruct (sublist_chunks _ _ Hsub Hok Hd) as [Hok' Hd'].
  destruct (read_resolved sort_long (chunks sec) (section_start sec) (section_stop sec) Hsort Hok' Hd')
    as (H1 & H2 & H3 & H4).
  split; [|done]. split_and!; [done|done| |].
  - intros y d. rewrite H4. intros Hnew. pose proof (newest_spec (live (chunks sec) (section_start sec)
      (section_stop sec)) y) as Hs. rewrite Hnew in Hs. destruct Hs as (c & Hc & Hcov & -> & _).
    exists c. split_and!; [|done|done]. apply list_elem_of_filter in Hc as [_ Hc].
    by eapply elem_of_sublist.
  - intros y Hy. by rewrite H4, newest_live, Hn.
Qed.

Lemma addChunk_ok cs sec c :
  index_ok (sectionIndex sec) → (∀ c', c' ∈ cs ++ [c] → chunk_ok c') → distinct (cs ++ [c]) →
  sec_ok cs sec →
  sec_ok (cs ++ [c]) (addChunk sort_long sec c)
  ∧ sectionIndex (addChunk sort_long sec c) = sectionIndex sec.
Proof.
  intros Hi Hok Hd [H1 H2 H3].
  assert (chunk_ok c) as Hc by (apply Hok; set_solver).
  assert (0 ≤ section_start sec ∧ section_stop sec < 2 ^ 63) as [Ha Hb].
  { destruct Hi. unfold section_start, section_stop. unfold SectionSize in *. lia. }
  unfold addChunk. destruct (visibleIntervals sec) as [vis|] eqn:Hvis.
  - destruct (H2 vis eq_refl) as [Hs Hal].
    destruct (merge_visibles_shows cs _ _ c vis Ha Hb Hc Hs Hal) as [Hs' Hal'].
    split; [|done]. split; cbn.
    + done.
    + intros vis' [= <-]. done.
    + intros views. destruct (chunkViews sec) as [views0|] eqn:Hv; [|done]. intros [= <-].
      destruct (H3 views0 eq_refl) as [Hs3 Hok3]. by apply merge_views_shows.
  - destruct (H1 eq_refl) as (Hv & Hsub & Hn). rewrite Hv. split; [|done]. split; cbn; [done| |done].
    intros vis' [= <-].
    apply (sweep_shows (cs ++ [c]) (MkSection (sectionIndex sec) (chunks sec ++ [c]) None None));
      cbn; auto.
    + by apply sublist_app.
    + intros y Hy. change (newest (chunks sec ++ [c]) y = newest (cs ++ [c]) y).
      by rewrite !newest_snoc, Hn.
Qed.

Lemma setup_ok cs sec :
  index_ok (sectionIndex sec) → (∀ c, c ∈ cs → chunk_ok c) → distinct cs →
  sec_ok cs sec →
  ∃ vis views, visibleIntervals (setupForRead sort_long sec) = Some vis
    ∧ chunkViews (setupForRead sort_long sec) = Some views
    ∧ shows cs (section_start sec) (section_stop sec) vis ∧ Forall aligned vis
    ∧ shows cs (section_start sec) (section_stop sec) views ∧ Forall view_ok views.
Proof.
  intros Hi Hok Hd [H1 H2 H3].
  assert (∃ vis, visibleIntervals (setupForRead sort_long sec) = Some vis
    ∧ chunkViews (setupForRead sort_long sec) = Some
        (match chunkViews sec with Some views => views
         | None => ViewFromVisibleIntervals vis (section_start sec) (section_stop sec) end)
    ∧ shows cs (section_start sec) (section_stop sec) vis ∧ Forall aligned vis) as (vis & Hv1 & Hv2 & Hs & Hal).
  { unfold setupForRead. destruct (visibleIntervals sec) as [vis|] eqn:Hvis; cbn; eexists.
    - split_and!; [done|done|by apply H2..].
    - destruct (H1 eq_refl) as (_ & Hsub & Hn).
      destruct (sweep_shows cs sec Hi Hok Hd Hsub Hn). split_and!; [done|done|done|done]. }
  exists vis. rewrite Hv1, Hv2. destruct (chunkViews sec) as [views|] eqn:Hview.
  { exists views. by destruct (H3 views eq_refl). }
  eexists. split; [reflexivity|]. split; [reflexivity|]. split; [done|]. split; [done|].
  rewrite views_clip. destruct Hi as [Hi0 Hi1].
  assert (view_stop (section_start sec) (section_stop sec)
               = section_start sec + section_stop sec) as ->
    by (unfold view_stop, add64, section_start, section_stop in *; unfold SectionSize in *;
        rewrite swrap_id by (widths; lia); unfold MaxInt64;
        rewrite (decide_False (P := _ = 2 ^ 63 - 1)) by lia; by rewrite decide_False by lia).
  destruct Hs as (Ho & Ht & Hg & Hn).
  destruct (views_ok 0 (section_start sec) (section_start sec + section_stop sec) vis Hal Ho)
    as [Hvo Hvt]; [lia|unfold section_start, SectionSize; lia
                  |unfold section_start, section_stop, SectionSize in *; lia|].
  split; [|done]. split_and!; [by apply views_ordered|done| |].
  - intros y d. rewrite views_at by done. case_decide; [|done]. apply Hg.
  - intros y Hy. rewrite views_at by done. rewrite decide_True; [by apply Hn|].
    unfold section_start, section_stop, SectionSize in *. lia.
Qed.

(** The views of chunks lie inside them. *)
Lemma shows_in_chunk cs a b (views : list (Interval ChunkView)) B :
  (∀ c, c ∈ cs → chunk_ok c ∧ chunk_stop c ≤ B) → shows cs a b views → Forall view_ok views →
  Forall in_chunk views ∧ Forall (λ i, StopOffset i ≤ B) views.
Proof.
  intros Hok (Ho & _ & Hg & _) Hv. rewrite <- Forall_and, Forall_forall. intros i Hi.
  rewrite Forall_forall in Hv. destruct (Hv i Hi) as (H1 & H2 & H3 & H4 & H5 & H6).
  assert (StartOffset i < StopOffset i ∧ ∀ y, inside i y → view_at views y = Some (cell_at (Value i) y))
    as [Hlt Hat].
  { clear -Ho Hi. revert Ho. generalize 0 as lo. induction views as [|j l IH]; intros lo Ho; [inversion Hi|].
    destruct Ho as (Hj & Hlt & Ho). apply elem_of_cons in Hi as [->|Hi].
    - split; [done|]. intros y Hy. simpl. by rewrite decide_True.
    - destruct (IH Hi _ Ho) as [H1 H2]. split; [done|]. intros y Hy. simpl.
      rewrite decide_False; [by apply H2|]. intros [_ Hyj]. specialize (H2 y Hy).
      rewrite (view_at_below _ _ _ Ho) in H2; [done|lia]. }
  destruct (Hg (StartOffset i) _ (Hat (StartOffset i) ltac:(unfold inside; lia)))
    as (c0 & Hc0 & Hcov0 & He0).
  destruct (Hg (StopOffset i - 1) _ (Hat (StopOffset i - 1) ltac:(unfold inside; lia)))
    as (c1 & Hc1 & Hcov1 & He1).
  destruct (Hok c0 Hc0) as [Hk0 _], (Hok c1 Hc1) as [Hk1 Hst1].
  rewrite chunk_stop_eq in Hst1 by done. unfold covers in *.
  destruct Hk0 as (? & ? & ? & _), Hk1 as (? & ? & ? & _).
  pose proof (f_equal c_off He0) as Ho0. pose proof (f_equal c_off He1) as Ho1.
  pose proof (f_equal c_size He1) as Hs1. pose proof (f_equal c_size He0) as Hs0.
  cbn in Ho0, Ho1, Hs0, Hs1. rewrite H1, Z.sub_diag, Z.add_0_r in Ho0.
  rewrite swrap_id in Ho0 by (done || lia).
  rewrite H1, swrap_id in Ho1 by (widths; lia).
  split; [|lia]. split; [lia|]. lia.
Qed.

(** *** The group *)

Definition group_ok (cs : list FileChunk) (g : ChunkGroup) : Prop := ∀ si, index_ok si →
  match g !! si with
  | Some sec => sectionIndex sec = si ∧ sec_ok cs sec
  | None => ∀ y, si * SectionSize ≤ y < (si + 1) * SectionSize → newest cs y = None
  end.

Lemma foldl_insert_lookup {A} (f : Z → option A → A) (l : list Z) (g : gmap Z A) k :
  NoDup l →
  foldl (λ g si, <[si := f si (g !! si)]> g) g l !! k
  = if decide (k ∈ l) then Some (f k (g !! k)) else g !! k.
Proof.
  intros Hnd. revert g. induction Hnd as [|si l Hsi _ IH]; intros g; simpl.
  { done. }
  rewrite IH. destruct (decide (k = si)) as [->|Hk].
  - rewrite (decide_False (P := si ∈ l)) by done. rewrite (decide_True (P := si ∈ si :: l)) by set_solver.
    by rewrite lookup_insert_eq.
  - rewrite lookup_insert_ne by done. destruct (decide (k ∈ l)).
    + by rewrite decide_True by set_solver.
    + by rewrite decide_False by set_solver.
Qed.

Lemma NoDup_sections c : NoDup (chunk_sections c).
Proof. unfold chunk_sections, section_range. apply NoDup_seqZ. Qed.

(** A chunk that covers an offset of a section is put into it. *)
Lemma covers_section c si y :
  chunk_ok c → si * SectionSize ≤ y < (si + 1) * SectionSize → covers c y → si ∈ chunk_sections c.
Proof.
  intros Hc Hy [H1 H2]. unfold chunk_sections, section_range. rewrite chunk_stop_eq by done.
  destruct Hc as (? & ? & ? & _). rewrite !Z.quot_div_nonneg by (unfold SectionSize; lia).
  apply elem_of_seqZ. unfold SectionSize in *. mlia.
Qed.

Lemma sec_ok_more cs sec c :
  (∀ y, section_start sec ≤ y < section_stop sec → ¬ covers c y) → sec_ok cs sec →
  sec_ok (cs ++ [c]) sec.
Proof.
  intros Hn [H1 H2 H3]. split.
  - intros Hv. destruct (H1 Hv) as (? & Hsub & Hnew). split_and!; [done| |].
    + by apply sublist_inserts_r.
    + intros y Hy. rewrite newest_snoc, decide_False by auto. rewrite Hnew by done.
      by destruct (newest cs y).
  - intros vis Hvis. destruct (H2 vis Hvis). split; [by apply shows_more|done].
  - intros views Hviews. destruct (H3 views Hviews). split; [by apply shows_more|done].
Qed.

Lemma new_section_ok cs si :
  (∀ y, si * SectionSize ≤ y < (si + 1) * SectionSize → newest cs y = None) →
  sec_ok cs (NewFileChunkSection si).
Proof.
  intros Hn. split; [|done|done]. intros _. split_and!; [done|apply sublist_nil_l|].
  intros y Hy. symmetry. by apply Hn.
Qed.

(** A step that treats the sections of the chunk like [addChunk] keeps the group, and any property
    of its sections the step keeps. *)
Lemma group_step cs c (P : FileChunkSection → Prop) (f : FileChunkSection → FileChunkSection) g :
  (∀ c', c' ∈ cs ++ [c] → chunk_ok c') →
  (∀ sec, index_ok (sectionIndex sec) → P sec → sec_ok cs sec →
     sec_ok (cs ++ [c]) (f sec) ∧ sectionIndex (f sec) = sectionIndex sec) →
  (∀ sec, P sec → P (f sec)) → (∀ si, P (NewFileChunkSection si)) →
  (∀ si sec, g !! si = Some sec → P sec) → group_ok cs g →
  let g' := foldl (λ g si,
    <[si := f (default (NewFileChunkSection si) (g !! si))]> g) g (chunk_sections c) in
  group_ok (cs ++ [c]) g' ∧ ∀ si sec, g' !! si = Some sec → P sec.
Proof.
  intros Hok Hf HPf HPn HPg Hg. split; intros si; [intros Hi|intros sec];
    rewrite (foldl_insert_lookup (λ si o, f (default (NewFileChunkSection si) o)))
      by apply NoDup_sections.
  - unfold group_ok, ChunkGroup in g, Hg |- *. specialize (Hg si Hi).
    assert (chunk_ok c) as Hc by (apply Hok; set_solver). case_decide as Hin.
    + destruct (g !! si) as [sec|] eqn:Hgs; cbn.
      * destruct Hg as [Hsi Hsec]. destruct (Hf sec) as [H1 H2]; [by rewrite Hsi|by eapply HPg|done|].
        split; [congruence|done].
      * destruct (Hf (NewFileChunkSection si)) as [H1 H2]; [done..|by apply new_section_ok|]. done.
    + assert (∀ y, si * SectionSize ≤ y < (si + 1) * SectionSize → ¬ covers c y) as Hno.
      { intros y Hy Hcov. apply Hin. by eapply covers_section. }
      destruct (g !! si) as [sec|].
      * destruct Hg as [Hsi Hsec]. split; [done|]. apply sec_ok_more; [|done].
        intros y. unfold section_start, section_stop. rewrite Hsi. apply Hno.
      * intros y Hy. rewrite newest_snoc, decide_False by auto. by rewrite Hg.
  - unfold ChunkGroup in g, HPg |- *. case_decide; [|apply HPg]. intros [= <-]. apply HPf.
    destruct (g !! si) as [sec|] eqn:Hsi; [by eapply HPg|apply HPn].
Qed.

Lemma AddChunk_ok cs c g :
  (∀ c', c' ∈ cs ++ [c] → chunk_ok c') → distinct (cs ++ [c]) → group_ok cs g →
  group_ok (cs ++ [c]) (AddChunk sort_long g c).
Proof.
  intros Hok Hd Hg.
  apply (group_step cs c (λ _, True) (λ sec, addChunk sort_long sec c)); [done| |done..].
  intros sec Hi _ Hsec. by apply addChunk_ok.
Qed.

(** Sections that have only been given chunks. *)
Definition fresh_group (g : ChunkGroup) : Prop :=
  ∀ si sec, g !! si = Some sec → visibleIntervals sec = None.

Lemma place_chunk_ok cs c g :
  (∀ c', c' ∈ cs ++ [c] → chunk_ok c') → fresh_group g → group_ok cs g →
  group_ok (cs ++ [c]) (place_chunk g c) ∧ fresh_group (place_chunk g c).
Proof.
  intros Hok Hfr Hg.
  apply (group_step cs c (λ sec, visibleIntervals sec = None) (λ sec,
    MkSection (sectionIndex sec) (chunks sec ++ [c]) (visibleIntervals sec) (chunkViews sec))); try done.
  intros sec _ Hv [H1 _ _]. destruct (H1 Hv) as (Hcv & Hsub & Hn). split; [split; cbn|done].
  - intros _. split_and!; [done|by apply sublist_app|]. intros y Hy.
    change (newest (chunks sec ++ [c]) y = newest (cs ++ [c]) y). by rewrite !newest_snoc, Hn.
  - by rewrite Hv.
  - by rewrite Hcv.
Qed.
Lemma place_all cs :
  (∀ c, c ∈ cs → chunk_ok c) → group_ok cs (foldl place_chunk ∅ cs).
Proof.
  intros Hok. apply (proj1 (B := fresh_group (foldl place_chunk ∅ cs))).
  induction cs as [|c cs IH] using rev_ind; [|rewrite foldl_snoc].
  { unfold group_ok, fresh_group, ChunkGroup. cbn [foldl].
    split; intros si; rewrite lookup_empty; done. }
  destruct IH as [IH1 IH2]; [intros; apply Hok; set_solver|]. by apply place_chunk_ok.
Qed.

Lemma setup_index sec : sectionIndex (setupForRead sort_long sec) = sectionIndex sec.
Proof. unfold setupForRead. by destruct (visibleIntervals sec). Qed.

Lemma setup_keeps cs sec :
  index_ok (sectionIndex sec) → (∀ c, c ∈ cs → chunk_ok c) → distinct cs →
  sec_ok cs sec → sec_ok cs (setupForRead sort_long sec).
Proof.
  intros Hi Hok Hd Hs. destruct (setup_ok cs sec Hi Hok Hd Hs) as (vis & views & Hv & Hw & ? & ? & ? & ?).
  split; unfold section_start, section_stop; rewrite ?Hv, ?Hw, ?setup_index.
  - done.
  - by intros ? [= <-].
  - by intros ? [= <-].
Qed.

(** Preparing a section for reads keeps the group. *)
Lemma group_setup cs g si sec :
  (∀ c, c ∈ cs → chunk_ok c) → distinct cs → group_ok cs g → g !! si = Some sec →
  group_ok cs (<[si := setupForRead sort_long sec]> g).
Proof.
  intros Hok Hd Hg Hsi k Hk. specialize (Hg k Hk). unfold ChunkGroup in *.
  destruct (decide (k = si)) as [->|Hne].
  - rewrite lookup_insert_eq. rewrite Hsi in Hg. destruct Hg as [Hi Hs].
    rewrite setup_index. split; [done|]. apply setup_keeps; [by rewrite Hi|done..].
  - by rewrite lookup_insert_ne.
Qed.
End section.
End SectionSpec.
Export SectionSpec.

(** ** Reading across sections *)
Module GroupSpec.

Section group.
Context (sort_long : (Point → Point → Z) → list Point → list Point).
Context (Hsort : Slices.sorts sort_long).
Context (fetch : ChunkView → Z → Z → bytes * option go_error) (isRandomMode : Z → bool).

(** A read leaves a group that still stands for the chunks, whatever it returns. *)
Lemma read_section_keeps cs fileSize offset si g buff :
  (∀ c, c ∈ cs → chunk_ok c) → distinct cs → group_ok cs g →
  group_ok cs (read_section sort_long fetch isRandomMode fileSize offset si g buff).1.
Proof.
  intros Hok Hd Hg. unfold read_section. case_decide; [done|].
  destruct (g !! si) as [sec|] eqn:Hsi; [|done]. unfold readDataAt.
  destruct (doReadAt _ _ _ _ _ _) as [[[??]?]?]. cbn. by eapply group_setup.
Qed.

Lemma sequential_keeps cs fileSize offset sis :
  (∀ c, c ∈ cs → chunk_ok c) → distinct cs → ∀ g buff n t, group_ok cs g →
  group_ok cs (readDataAtSequential sort_long fetch isRandomMode fileSize offset sis g buff n t).1.
Proof.
  intros Hok Hd. induction sis as [|si sis IH]; intros g buff n t Hg; [done|].
  cbn [readDataAtSequential].
  pose proof (read_section_keeps cs fileSize offset si g buff Hok Hd Hg) as Hk.
  destruct (read_section _ _ _ _ _ _ _ _) as [g' [[[b xn] xt] [err|]]]; [done|by apply IH].
Qed.

Lemma parallel_keeps cs fileSize offset sis :
  (∀ c, c ∈ cs → chunk_ok c) → distinct cs → ∀ g buff n t e, group_ok cs g →
  group_ok cs (readDataAtParallel sort_long fetch isRandomMode fileSize offset sis g buff n t e).1.
Proof.
  intros Hok Hd. induction sis as [|si sis IH]; intros g buff n t e Hg; [done|].
  cbn [readDataAtParallel].
  pose proof (read_section_keeps cs fileSize offset si g buff Hok Hd Hg) as Hk.
  destruct (read_section _ _ _ _ _ _ _ _) as [g' [[[b xn] xt] err]]. by apply IH.
Qed.

Lemma ReadDataAt_keeps cs readers g fileSize buff offset :
  (∀ c, c ∈ cs → chunk_ok c) → distinct cs → group_ok cs g →
  group_ok cs (ReadDataAt sort_long fetch isRandomMode readers g fileSize buff offset).1.
Proof.
  intros Hok Hd Hg. unfold ReadDataAt. repeat case_decide;
    [done|by apply sequential_keeps|by apply parallel_keeps].
Qed.

Lemma search_keeps cs g offset fileSize whence :
  (∀ c, c ∈ cs → chunk_ok c) → distinct cs → group_ok cs g →
  group_ok cs (doSearchChunks sort_long g offset fileSize whence).1.
Proof.
  intros Hok Hd Hg. unfold doSearchChunks. case_decide; generalize dependent g;
    [generalize (section_range (Z.quot offset SectionSize) (Z.quot fileSize SectionSize)) as sis
    |generalize (section_range (Z.quot offset SectionSize) (Z.quot fileSize SectionSize - 1)) as sis];
    induction sis as [|si sis IH]; intros g Hg; cbn [search_data search_hole]; try done;
    (destruct (g !! si) as [sec|] eqn:Hsi; [|by auto]);
    pose proof (group_setup sort_long Hsort cs g si sec Hok Hd Hg Hsi); cbn;
    case_decide; auto.
Qed.

(** *** What a read returns *)

(** The bytes of the chunks by file id, and the volume servers that serve them. *)
Context (content : bytes → Z → Z).
Definition fetches : Prop := ∀ v off len, 0 ≤ off → 0 ≤ len → off + len ≤ cv_ChunkSize v →
  fetch v off len = (content (cv_FileId v) <$> seqZ off len, None).
Context (Hfetch : fetches).

(** The byte of the file at [y]: that of the newest chunk there, zero in a hole. *)
Definition file_byte (cs : list FileChunk) (y : Z) : Z :=
  match newest cs y with Some d => content (c_id d) (c_off d) | None => 0 end.

Context (cs : list FileChunk) (fileSize : Z).
Context (Hok : ∀ c, c ∈ cs → chunk_ok c ∧ chunk_stop c ≤ fileSize) (Hd : distinct cs).

Lemma chunks_ok c : c ∈ cs → chunk_ok c.
Proof using Hok. intros Hc. apply (Hok c Hc). Qed.

Lemma readDataAt_spec sec random b offset :
  index_ok (sectionIndex sec) → sec_ok cs sec →
  section_start sec ≤ offset → offset + zlen b ≤ section_stop sec →
  ∃ b' ts, let n := Z.max 0 (Z.min (zlen b) (fileSize - offset)) in
    readDataAt sort_long fetch random sec fileSize b offset
      = (setupForRead sort_long sec,
         (b', n, ts, if decide (fileSize ≤ offset + zlen b) then Some EOF else None))
    ∧ zlen b' = zlen b ∧ ∀ i, 0 ≤ i < n → b' !! Z.to_nat i = Some (file_byte cs (offset + i)).
Proof using Hsort Hfetch Hok Hd.
  intros Hi Hs Ha Hb.
  destruct (setup_ok sort_long Hsort cs sec Hi chunks_ok Hd Hs) as (vis & views & _ & Hw & _ & _ & Hsh & Hv).
  destruct (shows_in_chunk cs _ _ views fileSize Hok Hsh Hv) as [Hin HB].
  pose proof Hsh as (Ho & _ & _ & Hn). unfold readDataAt. rewrite Hw.
  change (default_list (Some views)) with views.
  destruct (read_views_at content fetch views random fileSize b offset) as (b' & ts & He & Hl & Hby); auto.
  - intros v off len _. apply Hfetch.
  - destruct Hi. unfold section_start in *. unfold SectionSize in *. lia.
  - destruct Hi. unfold section_stop in *. unfold SectionSize in *. lia.
  - exists b', ts. cbv zeta in He |- *. rewrite He. split; [done|]. split; [done|]. intros i Hi'.
    rewrite Hby by done. unfold byte_at, file_byte. by rewrite Hn by lia.
Qed.

Section read.
Context (p : bytes) (offset : Z) (H0 : 0 ≤ offset < fileSize) (Hmax : offset + zlen p ≤ 2 ^ 61).
Let F (i : Z) : Z := file_byte cs (offset + i).

(** How far the file's bytes are known when section [si] is next. *)
Definition upto (si : Z) : Z :=
  Z.min (Z.max offset (Z.min (si * SectionSize) (offset + zlen p))) fileSize - offset.

(** A part put behind what is known, of which the first [m] bytes are the file's. *)
Lemma painted_upto b s m d :
  painted p F (λ i, i < s) b → 0 ≤ s → 0 ≤ m ≤ zlen d → s + zlen d ≤ zlen p →
  (∀ k, 0 ≤ k < m → d !! Z.to_nat k = Some (F (s + k))) →
  painted p F (λ i, i < s + m) (splice b s d).
Proof.
  intros [Hl HP] Hs Hm Hd' HF. split; [rewrite zlen_splice; lia|]. intros i Hi Hlt.
  rewrite splice_lookup by lia. case_decide.
  - rewrite HF by lia. do 2 f_equal. lia.
  - apply HP; lia.
Qed.

(** One section: its part of the buffer is filled up to the end of the file. *)
Lemma read_section_spec si g b :
  group_ok cs g → 0 ≤ si → offset < (si + 1) * SectionSize →
  (si * SectionSize < offset + zlen p → si * SectionSize ≤ fileSize) →
  painted p F (λ i, i < upto si) b →
  ∃ g' b' ts err,
    read_section sort_long fetch isRandomMode fileSize offset si g b
      = (g', (b', upto (si + 1) - upto si, ts, err))
    ∧ group_ok cs g' ∧ painted p F (λ i, i < upto (si + 1)) b'
    ∧ err = if decide (Z.max offset (si * SectionSize) < Z.min (offset + zlen p) ((si + 1) * SectionSize)
                       ∧ fileSize ≤ Z.min (offset + zlen p) ((si + 1) * SectionSize) ∧ is_Some (g !! si))
            then Some EOF else None.
Proof using Hsort Hfetch Hok Hd H0 Hmax.
  intros Hg Hsi0 Hcur Hend Hb. pose proof Hb as [Hlen _].
  pose proof (zlen_nonneg p) as Hp0.
  unfold read_section. rewrite Hlen.
  assert (max offset (si * SectionSize) = Z.max offset (si * SectionSize)) as ->
    by (unfold max; case_decide; lia).
  assert (min (offset + zlen p) ((si + 1) * SectionSize)
          = Z.min (offset + zlen p) ((si + 1) * SectionSize)) as ->
    by (unfold min; case_decide; lia).
  set (lo := Z.max _ _). set (hi := Z.min _ _). case_decide as Hlh.
  { assert (upto (si + 1) = upto si) as Hu by (unfold upto; unfold SectionSize in *; lia).
    exists g, b, 0, None. rewrite Hu, Z.sub_diag, decide_False by lia. split_and!; auto. }
  assert (index_ok si) as Hi by (unfold index_ok; unfold SectionSize in *; lia).
  assert (upto si = lo - offset) as Hu0 by (unfold upto; unfold SectionSize in *; lia).
  assert (upto (si + 1) = Z.min hi fileSize - offset) as Hu1 by (unfold upto; unfold SectionSize in *; lia).
  assert (lo ≤ fileSize) as Hlof by (unfold SectionSize in *; lia).
  pose proof (Hg si Hi) as Hgi. destruct (g !! si) as [sec|] eqn:Hsi.
  - destruct Hgi as [Hx Hs].
    assert (zlen (sub b (lo - offset) (hi - lo)) = hi - lo) as Hsl by (rewrite zlen_sub; lia).
    destruct (readDataAt_spec sec (isRandomMode si) (sub b (lo - offset) (hi - lo)) lo)
      as (d & ts & He & Hdl & Hdb); [by rewrite Hx|done|unfold section_start; rewrite Hx; lia
                                    |unfold section_stop; rewrite Hx, Hsl; lia|].
    rewrite Hsl in *. cbv zeta in He. rewrite He.
    do 4 eexists. split; [|split_and!].
    + replace (upto (si + 1) - upto si) with (Z.max 0 (Z.min (hi - lo) (fileSize - lo))) by lia. reflexivity.
    + by eapply group_setup; eauto using chunks_ok.
    + eapply painted_iff; [|apply (painted_upto _ (lo - offset) (Z.max 0 (Z.min (hi - lo) (fileSize - lo))));
        [by rewrite <- Hu0|lia..|]].
      * intros i _. cbv beta. lia.
      * intros k Hk. rewrite Hdb by lia. unfold F. do 2 f_equal. lia.
    + apply decide_ext. split; [intros; split_and!; [lia|lia|by eexists]|intros (_ & ? & _); lia].
  - assert (min hi fileSize = Z.min hi fileSize) as -> by (unfold min; case_decide; lia).
    exists g. do 3 eexists. split; [|split_and!; [done| |rewrite decide_False; [reflexivity|by intros (_ & _ & [? ?])]]].
    + replace (upto (si + 1) - upto si) with (Z.min hi fileSize - lo) by lia. reflexivity.
    + eapply painted_iff; [|apply (painted_splice p F (λ i, i < upto si)); [done|lia|rewrite zlen_zeros; lia|]].
      * intros i Hi' Hlt. rewrite zlen_zeros. lia.
      * intros k Hk. rewrite zlen_zeros in Hk. rewrite lookup_zeros by lia. f_equal.
        unfold F, file_byte. by rewrite Hgi by lia.
Qed.

Lemma section_error (P : Prop) {dP : Decision P} (err : option go_error) :
  err = (if decide P then Some EOF else None) → err = None ∨ err = Some EOF ∧ P.
Proof. intros ->. case_decide; auto. Qed.

(** The sections from [si] on, one after the other. *)
Definition past (si : Z) : Prop :=
  offset < (si + 1) * SectionSize ∧ (0 ≤ si)
  ∧ ∀ si', si' * SectionSize < offset + zlen p → si' * SectionSize ≤ fileSize.

Lemma upto_end si : offset + zlen p < si * SectionSize → upto si = Z.min (zlen p) (fileSize - offset).
Proof using H0. pose proof (zlen_nonneg p). unfold upto. lia. Qed.

Lemma parallel_spec k : ∀ si g b n ts,
  past si → group_ok cs g → painted p F (λ i, i < upto si) b →
  ∃ g' b' ts', readDataAtParallel sort_long fetch isRandomMode fileSize offset (seqZ si (Z.of_nat k))
      g b n ts None = (g', (b', n + (upto (si + Z.of_nat k) - upto si), ts', None))
    ∧ painted p F (λ i, i < upto (si + Z.of_nat k)) b'.
Proof using Hsort Hfetch Hok Hd H0 Hmax.
  induction k as [|k IH]; intros si g b n ts (H1 & H2 & H3) Hg Hb.
  { exists g, b, ts. rewrite Z.add_0_r, Z.sub_diag, Z.add_0_r. done. }
  rewrite seqZ_cons by lia. cbn [readDataAtParallel].
  destruct (read_section_spec si g b) as (g1 & b1 & t1 & e1 & -> & Hg1 & Hb1 & He); auto.
  replace (if decide (e1 = Some EOF) then None else e1) with (@None go_error)
    by (destruct (section_error _ _ He) as [->|[-> _]]; done).
  destruct (IH (Z.succ si) g1 b1 (n + (upto (si + 1) - upto si)) (max ts t1)) as (g2 & b2 & t2 & He2 & Hb2);
    [split_and!; [unfold SectionSize in *; lia|lia|done]|done|done|].
  replace (Z.pred (Z.of_nat (S k))) with (Z.of_nat k) by lia.
  replace (si + Z.of_nat (S k)) with (Z.succ si + Z.of_nat k) by lia.
  exists g2, b2, t2. split; [|done]. rewrite He2. do 2 f_equal. do 2 f_equal. unfold Z.succ. lia.
Qed.

Lemma sequential_spec k : ∀ si g b n ts,
  past si → group_ok cs g → painted p F (λ i, i < upto si) b →
  offset + zlen p < (si + Z.of_nat k) * SectionSize →
  ∃ g' b' ts' err, readDataAtSequential sort_long fetch isRandomMode fileSize offset
      (seqZ si (Z.of_nat k)) g b n ts
      = (g', (b', n + (Z.min (zlen p) (fileSize - offset) - upto si), ts', err))
    ∧ painted p F (λ i, i < Z.min (zlen p) (fileSize - offset)) b'
    ∧ (err = None ∨ err = Some EOF ∧ fileSize ≤ offset + zlen p).
Proof using Hsort Hfetch Hok Hd H0 Hmax.
  induction k as [|k IH]; intros si g b n ts (H1 & H2 & H3) Hg Hb Hk.
  { rewrite Z.add_0_r in Hk. rewrite upto_end in Hb |- * by done. exists g, b, ts, None.
    rewrite Z.sub_diag, Z.add_0_r. auto. }
  rewrite seqZ_cons by lia. cbn [readDataAtSequential].
  destruct (read_section_spec si g b) as (g1 & b1 & t1 & e1 & -> & Hg1 & Hb1 & He); auto.
  destruct (section_error _ _ He) as [->|(-> & _ & He' & _)].
  - destruct (IH (Z.succ si) g1 b1 (n + (upto (si + 1) - upto si)) (max ts t1))
      as (g2 & b2 & t2 & e2 & He2 & Hb2);
      [split_and!; [unfold SectionSize in *; lia|lia|done]|done|done|unfold SectionSize in *; lia|].
    replace (Z.pred (Z.of_nat (S k))) with (Z.of_nat k) by lia.
    exists g2, b2, t2, e2. split; [|done]. rewrite He2. do 4 f_equal. unfold Z.succ. lia.
  - assert (upto (si + 1) = Z.min (zlen p) (fileSize - offset)) as Hu
      by (unfold upto; unfold SectionSize in *; lia).
    rewrite Hu in *. do 4 eexists. split; [reflexivity|]. split; [done|]. right. split; [done|lia].
Qed.

(** The error of a read: within one section the end of the file, when the range
    reaches it and the section has chunks; none in parallel over several. *)
Definition read_error (readers : Z) (g : ChunkGroup) (err : option go_error) : Prop :=
  let first := offset / SectionSize in
  let last := (offset + zlen p) / SectionSize in
  (err = None ∨ err = Some EOF ∧ fileSize ≤ offset + zlen p)
  ∧ (first = last → err = if decide (fileSize ≤ offset + zlen p ∧ is_Some (g !! first)) then Some EOF else None)
  ∧ (first ≠ last → 1 < readers → err = None).

Lemma one_section_error (g : ChunkGroup) err :
  offset / SectionSize = (offset + zlen p) / SectionSize →
  err = (if decide (Z.max offset (offset / SectionSize * SectionSize)
                      < Z.min (offset + zlen p) ((offset / SectionSize + 1) * SectionSize)
                    ∧ fileSize ≤ Z.min (offset + zlen p) ((offset / SectionSize + 1) * SectionSize)
                    ∧ is_Some (g !! (offset / SectionSize))) then Some EOF else None) →
  err = if decide (fileSize ≤ offset + zlen p ∧ is_Some (g !! (offset / SectionSize))) then Some EOF else None.
Proof using H0.
  intros Heq ->. apply decide_ext. pose proof (zlen_nonneg p).
  pose proof (Z.div_mod offset SectionSize ltac:(done)). pose proof (Z.mod_pos_bound offset SectionSize ltac:(done)).
  pose proof (Z.div_mod (offset + zlen p) SectionSize ltac:(done)).
  pose proof (Z.mod_pos_bound (offset + zlen p) SectionSize ltac:(done)).
  split; [intros (? & ? & ?)|intros [? ?]]; split_and!; try done; unfold SectionSize in *; lia.
Qed.

Lemma ReadDataAt_spec readers g :
  group_ok cs g → (offset + zlen p - 1) / SectionSize * SectionSize ≤ fileSize →
  ∃ g' p' ts err, let n := Z.min (zlen p) (fileSize - offset) in
    ReadDataAt sort_long fetch isRandomMode readers g fileSize p offset = (g', (p', n, ts, err))
    ∧ read_error readers g err
    ∧ zlen p' = zlen p ∧ ∀ i, 0 ≤ i < n → p' !! Z.to_nat i = Some (file_byte cs (offset + i)).
Proof using Hsort Hfetch Hok Hd H0 Hmax.
  intros Hg Hend. pose proof (zlen_nonneg p) as Hp0.
  unfold ReadDataAt. rewrite decide_False by lia. unfold section_range.
  rewrite !Z.quot_div_nonneg by (unfold SectionSize; lia).
  set (start := offset / SectionSize). set (stop := (offset + zlen p) / SectionSize).
  assert (start ≤ stop) as Hss by (apply Z.div_le_mono; unfold SectionSize; lia).
  assert (start * SectionSize ≤ offset < (start + 1) * SectionSize) as Hst
    by (unfold start; unfold SectionSize; mlia).
  assert (offset + zlen p < (stop + 1) * SectionSize) as Hsp by (unfold stop; unfold SectionSize; mlia).
  assert (0 ≤ start) as Hs0 by (apply Z.div_pos; unfold SectionSize; lia).
  assert (past start) as Hpast.
  { split_and!; [lia|done|]. intros si' Hsi'. etrans; [|exact Hend].
    apply Z.mul_le_mono_nonneg_r; [unfold SectionSize; lia|]. apply Z.div_le_lower_bound; [unfold SectionSize; lia|].
    unfold SectionSize in *. lia. }
  assert (upto start = 0) as Hu by (unfold upto; lia).
  assert (painted p F (λ i, i < upto start) p) as Hb.
  { rewrite Hu. eapply painted_iff; [|apply painted_none]. cbv beta. lia. }
  destruct (decide (start = stop)) as [Heq|Hne].
  { rewrite decide_True by (left; lia). replace (stop + 1 - start) with 1 by lia.
    rewrite seqZ_cons by lia. cbn [readDataAtSequential].
    destruct (read_section_spec start g p) as (g1 & b1 & t1 & e1 & -> & Hg1 & [Hl Hp] & He); auto; [apply Hpast|apply Hpast|].
    pose proof (one_section_error g e1 Heq He) as He1. rewrite upto_end in Hp |- * by (unfold SectionSize in *; lia).
    rewrite Hu, Z.sub_0_r, Z.add_0_l.
    assert (read_error readers g e1) as Hre.
    { split_and!; [|done|done]. destruct (section_error _ _ He1) as [->|[-> [? _]]]; auto. }
    destruct e1; do 4 eexists; (split; [reflexivity|]); split_and!; auto; intros i Hi; apply Hp; lia. }
  replace (stop + 1 - start) with (Z.of_nat (Z.to_nat (stop + 1 - start))) by lia.
  case_decide as Hseq.
  - destruct (sequential_spec (Z.to_nat (stop + 1 - start)) start g p 0 0)
      as (g' & p' & ts & err & -> & [Hl Hp] & He); auto; [unfold SectionSize in *; lia|].
    exists g', p', ts, err. rewrite Hu, Z.sub_0_r, Z.add_0_l. split_and!; auto; [|intros i Hi; apply Hp; lia].
    split_and!; [done|done|]. intros _ Hr. lia.
  - destruct (parallel_spec (Z.to_nat (stop + 1 - start)) start g p 0 0) as (g' & p' & ts & -> & [Hl Hp]); auto.
    rewrite upto_end in Hp |- * by (unfold SectionSize in *; lia).
    exists g', p', ts, None. rewrite Hu, Z.sub_0_r, Z.add_0_l. split_and!; auto; [|intros i Hi; apply Hp; lia].
    split_and!; [by left|done|done].
Qed.
End read.
End group.
End GroupSpec.
