(* ===== verification/FilerClaims.v ===== *)
(** * FilerClaims: what a file's chunks show to its readers

    Theorems on whole operations: the views of a range, compaction, adding one chunk
    to resolved intervals, and reads of an open file whose chunks are set and added
    while it is read and seeked. *)

From S2P Require Import Prelude GoStd FilerChunks FilerChunksSpec FilerRead FilerReadSpec FilerGroupSpec.
Import IntervalList FileChunks ChunkReader ChunkSection ReadSpec GroupSpec.

(** ** Resolving chunks that are no manifests *)
Module Resolved.

Lemma resolve_plain fetchManifest depth cs a b :
  (∀ c, c ∈ cs → IsChunkManifest c = false) →
  ResolveChunkManifest fetchManifest (S depth) cs a b = Ok (live cs a b, []).
Proof.
  intros Hm. cbn [ResolveChunkManifest]. generalize (ResolveChunkManifest fetchManifest depth) as rec.
  intros rec. induction cs as [|c cs IH] using rev_ind; [done|].
  rewrite foldl_snoc, IH by (intros; apply Hm; set_solver).
  cbn [res_bind mbind]. unfold live. rewrite filter_app, filter_cons, filter_nil.
  rewrite (Hm c) by set_solver. simpl.
  repeat case_decide; try lia; [by rewrite app_nil_r|done].
Qed.

Lemma live_sub cs a b c : c ∈ live cs a b → c ∈ cs.
Proof. by intros [_ ?]%list_elem_of_filter. Qed.

(** What a resolved list shows, inside the range it was resolved for. *)
Lemma visibles_newest fetchManifest sort_long depth cs a b :
  Slices.sorts sort_long → (∀ c, c ∈ cs → chunk_ok c ∧ IsChunkManifest c = false) → distinct cs →
  ∃ vis, NonOverlappingVisibleIntervals sort_long fetchManifest (S depth) cs a b = Ok vis
    ∧ ordered 0 vis ∧ Forall timed vis ∧ Forall aligned vis
    ∧ ∀ y, (0 ≤ a → a ≤ y < b → view_at vis y = newest cs y)
           ∧ (∀ d, view_at vis y = Some d → ∃ c, c ∈ cs ∧ covers c y ∧ d = chunk_cell c y).
Proof.
  intros Hsort Hok Hd. unfold NonOverlappingVisibleIntervals.
  rewrite resolve_plain by apply Hok. cbn [res_bind mbind]. eexists. split; [reflexivity|].
  assert (∀ c, c ∈ live cs a b → chunk_ok c) as Hok' by (intros c Hc%live_sub; by apply Hok).
  assert (distinct (live cs a b)) as Hd' by by apply distinct_filter.
  destruct (read_resolved sort_long (live cs a b) 0 MaxInt64 Hsort Hok' Hd') as (H1 & H2 & H3 & H4).
  split_and!; [done|done|done|]. intros y. split.
  - intros Ha Hy. rewrite H4. destruct (decide (y < MaxInt64)).
    + rewrite newest_live by (done || lia). apply newest_live; [by intros; apply Hok|done|done].
    + rewrite !newest_none; [done| |]; intros c Hc [? ?]; [destruct (Hok c) as [(?&?&?&_) _]; [done|]
        |destruct (Hok c) as [(?&?&?&_) _]; [by eapply live_sub, live_sub|]]; unfold MaxInt64 in *; lia.
  - intros d Hv. rewrite H4 in Hv. pose proof (newest_spec (live (live cs a b) 0 MaxInt64) y) as Hs.
    rewrite Hv in Hs. destruct Hs as (c & Hc & Hcov & -> & _). exists c. eauto using live_sub.
Qed.
End Resolved.
Export Resolved.

(** ** Ids on view *)
Module Ids.

Lemma view_in_ids vis y d :
  view_at vis y = Some d → c_id d ∈ visible_ids vis.
Proof.
  unfold visible_ids. induction vis as [|iv vis IH]; [done|]. simpl. case_decide.
  - intros [= <-]. set_solver.
  - intros H'. specialize (IH H'). set_solver.
Qed.

(** An id of the list is on view somewhere. *)
Lemma ids_in_view vis lo i :
  ordered lo vis → i ∈ visible_ids vis → ∃ y d, view_at vis y = Some d ∧ c_id d = i.
Proof.
  unfold visible_ids. rewrite elem_of_list_to_set. revert lo.
  induction vis as [|iv vis IH]; intros lo Ho Hi; [by apply elem_of_nil in Hi|].
  destruct Ho as (_ & Hlt & Ho). rewrite fmap_cons in Hi. apply elem_of_cons in Hi as [->|Hi].
  - exists (StartOffset iv), (cell_at (Value iv) (StartOffset iv)). split; [|done].
    simpl. rewrite decide_True; [done|unfold inside; lia].
  - destruct (IH _ Ho Hi) as (y & d & Hv & <-). exists y, d. split; [|done]. simpl.
    rewrite decide_False; [done|]. intros [_ Hy]. rewrite (view_at_below _ _ _ Ho) in Hv; [done|lia].
Qed.

Lemma outside_none cs y :
  (∀ c, c ∈ cs → chunk_ok c) → ¬ (0 ≤ y < MaxInt64) → newest cs y = None.
Proof.
  intros Hok Hy. apply newest_none. intros c Hc [? ?]. destruct (Hok c Hc) as (?&?&?&_).
  unfold MaxInt64 in *. lia.
Qed.
End Ids.
Import Ids.

(** ** Compaction *)
Module Compaction.

Lemma compact_spec sort_long fetchManifest depth cs :
  Slices.sorts sort_long → (∀ c, c ∈ cs → chunk_ok c ∧ IsChunkManifest c = false) → distinct cs →
  ∃ compacted garbage,
    CompactFileChunks sort_long fetchManifest (S depth) cs = Ok (compacted, garbage)
    ∧ compacted ++ garbage ≡ₚ cs
    ∧ (∀ y, newest compacted y = newest cs y)
    ∧ (∀ c y d, c ∈ garbage → newest cs y = Some d → c_id d ≠ FileId c)
    ∧ (∀ c, c ∈ compacted → ∃ y d, newest cs y = Some d ∧ c_id d = FileId c).
Proof.
  intros Hsort Hok Hd.
  destruct (visibles_newest fetchManifest sort_long depth cs 0 MaxInt64 Hsort Hok Hd)
    as (vis & He & Hord & _ & _ & Hv).
  assert (∀ y, view_at vis y = newest cs y) as Hvn.
  { intros y. destruct (decide (0 ≤ y < MaxInt64)); [by apply Hv|].
    rewrite (outside_none cs y) by (done || intros; by apply Hok).
    destruct (view_at vis y) as [d|] eqn:Hy; [|done]. destruct (Hv y) as [_ Hc].
    destruct (Hc d Hy) as (c & Hcs & Hcov & _). pose proof (outside_none [c] y) as Hn.
    pose proof (newest_spec [c] y) as Hsp. rewrite Hn in Hsp; [by destruct (Hsp c); [set_solver|]| |done].
    intros ? ->%list_elem_of_singleton. by apply Hok. }
  unfold CompactFileChunks. rewrite He. unfold SeparateGarbageChunks. do 2 eexists.
  split; [reflexivity|]. split_and!.
  - apply (filter_app_complement (λ c, FileId c ∈ visible_ids vis)).
  - intros y. apply newest_covering; [done|by intros ? [_ ?]%list_elem_of_filter|by apply distinct_filter|].
    intros c Hc Hcov. pose proof (newest_spec cs y) as Hn.
    destruct (newest cs y) as [d|] eqn:Hy; [|by destruct (Hn c)].
    destruct Hn as (c0 & Hc0 & Hcov0 & -> & Hmax).
    assert (c0 ∈ filter (λ c, FileId c ∈ visible_ids vis) cs) as Hin.
    { apply list_elem_of_filter. split; [|done].
      apply (view_in_ids vis y (chunk_cell c0 y)). by rewrite Hvn. }
    destruct (decide (ModifiedTsNs c = ModifiedTsNs c0)) as [Heq|Hne].
    + left. by rewrite (distinct_eq cs c c0).
    + right. exists c0. split_and!; [done|done|]. specialize (Hmax c Hc Hcov). lia.
  - intros c y d [Hc _]%list_elem_of_filter Hy Hid. apply Hc. rewrite <- Hid.
    apply (view_in_ids vis y). by rewrite Hvn.
  - intros c [Hc _]%list_elem_of_filter. destruct (ids_in_view vis 0 _ Hord Hc) as (y & d & Hy & Hid).
    exists y, d. by rewrite <- Hvn.
Qed.
End Compaction.
Export Compaction.

Module ChunkClaims.

(** The chunks of the witnesses: an old one overwritten in the middle, and one that is
    hidden completely. *)
Definition ex_chunk (i off size t : Z) : FileChunk := MkChunk [i] off size t [] false false [] 0.
Definition ex_chunks : list FileChunk := [ex_chunk 1 0 10 5; ex_chunk 2 4 3 7; ex_chunk 3 5 1 6].

Lemma ex_ok : (∀ c, c ∈ ex_chunks → chunk_ok c ∧ IsChunkManifest c = false) ∧ distinct ex_chunks.
Proof.
  split.
  - rewrite <- Forall_forall. unfold ex_chunks. repeat constructor; cbn; lia.
  - unfold distinct, ex_chunks. decided.
Qed.
Lemma ex_sorts : Slices.sorts (@Slices.insertion_sort Point).
Proof. intros cmp l. apply Slices.insertion_sort_spec. Qed.

(** C34: The views of a range of a file whose chunks are no manifests are in order and
    without overlap, and show at every offset of the range the chunk written last
    there, at the right place inside it, and nothing outside the range.  (The range ends
    before the largest offset, which stands for the whole file.) *)
Theorem views_newest sort_long fetchManifest depth cs offset size :
  Slices.sorts sort_long → (∀ c, c ∈ cs → chunk_ok c ∧ IsChunkManifest c = false) → distinct cs →
  0 ≤ offset → 0 ≤ size → offset + size < MaxInt64 →
  ∃ views, ViewFromChunks sort_long fetchManifest (S depth) cs offset size = Ok views
    ∧ ordered 0 views ∧ Forall view_ok views
    ∧ ∀ y, view_at views y = if decide (offset ≤ y < offset + size) then newest cs y else None.
Proof.
  intros Hsort Hok Hd Ho Hs Hlt. unfold MaxInt64 in Hlt.
  assert (add64 offset size = offset + size) as Hadd by (apply swrap_id; widths; lia).
  destruct (visibles_newest fetchManifest sort_long depth cs offset (offset + size) Hsort Hok Hd)
    as (vis & He & Hord & _ & Hal & Hv).
  unfold ViewFromChunks. rewrite Hadd, He. eexists. split; [reflexivity|].
  rewrite views_clip. assert (view_stop offset size = offset + size) as ->.
  { unfold view_stop, MaxInt64. rewrite Hadd, (decide_False (P := size = _)) by lia. by rewrite decide_False by lia. }
  destruct (views_ok 0 offset (offset + size) vis Hal Hord) as [Hvo _]; [lia..|].
  split_and!; [by apply views_ordered|done|]. intros y. rewrite views_at by done.
  case_decide; [|done]. by apply Hv.
Qed.

Lemma views_newest_witness :
  ∃ views, ViewFromChunks Slices.insertion_sort (λ _, Ok []) 1 ex_chunks 2 4 = Ok views
    ∧ ordered 0 views ∧ Forall view_ok views
    ∧ ∀ y, view_at views y = if decide (2 ≤ y < 2 + 4) then newest ex_chunks y else None.
Proof.
  apply (views_newest Slices.insertion_sort (λ _, Ok []) 0 ex_chunks 2 4);
    [apply ex_sorts|apply ex_ok|apply ex_ok|unfold MaxInt64; lia..].
Defined.

(** C32: Compaction keeps the content of a file of data chunks with distinct times: they
    are divided into those kept
    and the garbage, the kept ones show at every offset what all of them showed, and
    no offset of the file is served from a chunk with the file id of a garbage one. *)
Theorem compact_keeps_content sort_long fetchManifest depth cs :
  Slices.sorts sort_long → (∀ c, c ∈ cs → chunk_ok c ∧ IsChunkManifest c = false) → distinct cs →
  ∃ compacted garbage,
    CompactFileChunks sort_long fetchManifest (S depth) cs = Ok (compacted, garbage)
    ∧ compacted ++ garbage ≡ₚ cs
    ∧ (∀ y, newest compacted y = newest cs y)
    ∧ (∀ c y d, c ∈ garbage → newest cs y = Some d → c_id d ≠ FileId c)
    ∧ (∀ c, c ∈ compacted → ∃ y d, newest cs y = Some d ∧ c_id d = FileId c).
Proof. apply compact_spec. Qed.

Lemma compact_keeps_content_witness :
  ∃ compacted garbage,
    CompactFileChunks Slices.insertion_sort (λ _, Ok []) 1 ex_chunks = Ok (compacted, garbage)
    ∧ compacted ++ garbage ≡ₚ ex_chunks
    ∧ (∀ y, newest compacted y = newest ex_chunks y)
    ∧ (∀ c y d, c ∈ garbage → newest ex_chunks y = Some d → c_id d ≠ FileId c)
    ∧ (∀ c, c ∈ compacted → ∃ y d, newest ex_chunks y = Some d ∧ c_id d = FileId c).
Proof.
  apply (compact_keeps_content Slices.insertion_sort (λ _, Ok []) 0 ex_chunks);
    [apply ex_sorts|apply ex_ok|apply ex_ok].
Defined.

(** Adding a chunk to resolved intervals agrees with resolving all chunks again: on
    the range the intervals were resolved for, both show the same chunk at the same
    place at every offset, whether the chunk is newer or older than those it meets. *)
Theorem merge_agrees sort_long cs c a b :
  Slices.sorts sort_long → (∀ c', c' ∈ cs ++ [c] → chunk_ok c') → distinct (cs ++ [c]) →
  0 ≤ a → b < 2 ^ 63 →
  let merged := MergeIntoVisibles (readResolvedChunks sort_long cs a b)
                  (max a (Offset c)) (min b (chunk_stop c)) c in
  ordered 0 merged ∧ ∀ y, a ≤ y < b →
    view_at merged y = view_at (readResolvedChunks sort_long (cs ++ [c]) a b) y.
Proof.
  intros Hsort Hok Hd Ha Hb.
  assert (∀ c, c ∈ cs → chunk_ok c) as Hok' by (intros; apply Hok; set_solver).
  assert (distinct cs) as Hd' by (eapply sublist_chunks; [by apply sublist_inserts_r|done|done]).
  destruct (read_resolved sort_long cs a b Hsort Hok' Hd') as (H1 & H2 & H3 & H4).
  destruct (read_resolved sort_long (cs ++ [c]) a b Hsort Hok Hd) as (_ & _ & _ & H5).
  destruct (merge_visibles_shows cs a b c (readResolvedChunks sort_long cs a b)) as [(Ho & _ & _ & Hv) _];
    [done|done|apply Hok; set_solver| |done|].
  - split_and!; [done|done| |].
    + intros y d Hy. rewrite H4 in Hy. pose proof (newest_spec (live cs a b) y) as Hs.
      rewrite Hy in Hs. destruct Hs as (c' & Hc' & Hcov & -> & _). exists c'. eauto using live_sub.
    + intros y Hy. by rewrite H4, newest_live.
  - split; [done|]. intros y Hy. by rewrite Hv, H5, newest_live.
Qed.

Lemma merge_agrees_witness :
  let c := ex_chunk 4 2 6 6 in
  let merged := MergeIntoVisibles (readResolvedChunks Slices.insertion_sort (take 2 ex_chunks) 0 8)
                  (max 0 (Offset c)) (min 8 (chunk_stop c)) c in
  ordered 0 merged ∧ ∀ y, 0 ≤ y < 8 →
    view_at merged y = view_at (readResolvedChunks Slices.insertion_sort (take 2 ex_chunks ++ [c]) 0 8) y.
Proof.
  apply (merge_agrees Slices.insertion_sort (take 2 ex_chunks) (ex_chunk 4 2 6 6) 0 8);
    [apply ex_sorts| |unfold distinct; decided|lia|lia].
  rewrite <- Forall_forall. repeat constructor; cbn; lia.
Defined.
End ChunkClaims.

(** ** An open file *)
Module OpenFile.
Import ChunkClaims.

Section file.
Context (sort_long : (Point → Point → Z) → list Point → list Point).
Context (fetchManifest : FileChunk → res (list FileChunk)).
Context (fetch : ChunkView → Z → Z → bytes * option go_error) (isRandomMode : Z → bool).

(** The groups of sections an open file with the data chunks [cs] can have: its
    chunks are set when it is opened, then chunks are added by writes, in between
    reads and seeks of any range. *)
Inductive opened : list FileChunk → ChunkGroup → Prop :=
  | opened_set cs data g :
      data_chunks fetchManifest cs = Ok data → SetChunks fetchManifest cs = Ok g → opened data g
  | opened_add cs g c : opened cs g → opened (cs ++ [c]) (AddChunk sort_long g c)
  | opened_read cs g readers fileSize buff offset :
      opened cs g →
      opened cs (ReadDataAt sort_long fetch isRandomMode readers g fileSize buff offset).1
  | opened_seek cs g offset fileSize whence :
      opened cs g → opened cs (doSearchChunks sort_long g offset fileSize whence).1.

Lemma opened_ok cs g :
  Slices.sorts sort_long → opened cs g → (∀ c, c ∈ cs → chunk_ok c) → distinct cs → group_ok cs g.
Proof.
  intros Hsort. induction 1 as [cs data g Hdata Hset|cs g c _ IH|cs g readers fs buff off _ IH|cs g o f w _ IH];
    intros Hok Hd.
  - unfold SetChunks in Hset. rewrite Hdata in Hset. injection Hset as <-. by apply (place_all sort_long).
  - destruct (sublist_chunks cs (cs ++ [c])) as [??]; [by apply sublist_inserts_r|done|done|].
    apply AddChunk_ok; auto.
  - apply ReadDataAt_keeps; auto.
  - apply search_keeps; auto.
Qed.

(** C22: Whatever chunks of distinct modification times have been set and added and
    whatever ranges have been read and seeked before, a read of an open file whose chunks
    end within it and can be fetched returns as many bytes as the buffer and the rest of
    the file allow, each the byte of the chunk written last there or zero where there is
    none, over one section or several, read one after the other or in parallel.  At or
    past the end it reads nothing and reports the end of the file.  Before it, a read
    within one section reports the end exactly when it reaches it and the section has
    chunks, a parallel read of several sections never does, and any read reports no other
    error.  The range must not enter a section that starts behind the end of the file
    ([behind_the_end]). *)
Theorem open_file_read content readers cs g fileSize buff offset :
  Slices.sorts sort_long → fetches fetch content → opened cs g →
  (∀ c, c ∈ cs → chunk_ok c ∧ chunk_stop c ≤ fileSize) → distinct cs →
  0 ≤ offset → offset + zlen buff ≤ 2 ^ 61 →
  (offset < fileSize → (offset + zlen buff - 1) / SectionSize * SectionSize ≤ fileSize) →
  ∃ g' buff' ts err, let n := Z.max 0 (Z.min (zlen buff) (fileSize - offset)) in
    ReadDataAt sort_long fetch isRandomMode readers g fileSize buff offset = (g', (buff', n, ts, err))
    ∧ (if decide (offset < fileSize) then read_error fileSize buff offset readers g err else err = Some EOF)
    ∧ zlen buff' = zlen buff
    ∧ ∀ i, 0 ≤ i < n → buff' !! Z.to_nat i = Some (file_byte content cs (offset + i)).
Proof.
  intros Hsort Hf Hop Hok Hd H0 Hmax Hend. pose proof (zlen_nonneg buff) as Hb0.
  destruct (decide (offset < fileSize)) as [Hlt|Hge].
  - rewrite Z.max_r by lia. apply ReadDataAt_spec; auto. apply opened_ok; [done|done|by intros; apply Hok|done].
  - unfold ReadDataAt. rewrite decide_True by lia. exists g, buff, 0, (Some EOF). cbv zeta.
    rewrite Z.max_l by lia. split_and!; [done|done|done|]. intros. lia.
Qed.
End file.

(** A file whose chunks cross into the second section, read while they are added. *)
Definition ex_fetch (v : ChunkView) (off len : Z) : bytes * option go_error :=
  ((λ i, (i + default 0 (head (cv_FileId v))) mod 256) <$> seqZ off len, None).
Definition ex_content (i : bytes) (off : Z) : Z := (off + default 0 (head i)) mod 256.
Definition ex_big : list FileChunk :=
  [ex_chunk 1 0 (SectionSize + 6) 5; ex_chunk 2 (SectionSize - 3) 4 7].

Lemma open_file_read_witness :
  let sort := @Slices.insertion_sort Point in
  let g0 := foldl place_chunk ∅ (take 1 ex_big) in
  let g1 := (ReadDataAt sort ex_fetch (λ _, false) 16 g0 (SectionSize + 6) (zeros 4) 2).1 in
  let g2 := AddChunk sort g1 (ex_chunk 2 (SectionSize - 3) 4 7) in
  ∃ g' buff' ts err, let n := Z.max 0 (Z.min 12 (SectionSize + 6 - (SectionSize - 5))) in
    ReadDataAt sort ex_fetch (λ _, false) 16 g2 (SectionSize + 6) (zeros 12) (SectionSize - 5)
      = (g', (buff', n, ts, err))
    ∧ read_error (SectionSize + 6) (zeros 12) (SectionSize - 5) 16 g2 err
    ∧ zlen buff' = 12
    ∧ ∀ i, 0 ≤ i < n → buff' !! Z.to_nat i = Some (file_byte ex_content ex_big (SectionSize - 5 + i)).
Proof.
  apply (open_file_read Slices.insertion_sort (λ _, Ok []) ex_fetch (λ _, false) ex_content 16 ex_big
    _ (SectionSize + 6) (zeros 12) (SectionSize - 5)).
  - apply ex_sorts.
  - intros v off len _ _ _. done.
  - apply (opened_add _ _ _ _ (take 1 ex_big)), opened_read.
    by apply (opened_set _ _ _ _ (take 1 ex_big)).
  - rewrite <- Forall_forall. unfold ex_big. repeat constructor; by vm_compute.
  - unfold distinct, ex_big. decided.
  - unfold SectionSize. lia.
  - by vm_compute.
  - by vm_compute.
Defined.

(** A range that enters the section behind the end of the file: the missing section
    takes back what was counted, and the last bytes of the file are reported as none. *)
Example behind_the_end :
  let sort := @Slices.insertion_sort Point in
  let g := foldl place_chunk ∅ [ex_chunk 1 0 (SectionSize - 2) 5] in
  (ReadDataAt sort ex_fetch (λ _, false) 16 g (SectionSize - 2) (zeros 8) (SectionSize - 4)).2.1.1.2 = 0
  ∧ (ReadDataAt sort ex_fetch (λ _, false) 16 g (SectionSize - 2) (zeros 4) (SectionSize - 4)).2.1.1.2 = 2.
Proof. by vm_compute. Qed.

(** Looking for a hole in three full sections: the second section is asked from the
    offset of the call, which lies before it, and reports a hole there. *)
Example seek_hole_in_data :
  let sort := @Slices.insertion_sort Point in
  let cs := (λ i, ex_chunk i (i * SectionSize) SectionSize (5 + i)) <$> [0; 1; 2] in
  let g := foldl place_chunk ∅ cs in
  (doSearchChunks sort g 5 (3 * SectionSize) 4).2 = (true, 5) ∧ newest cs 5 ≠ None.
Proof. by vm_compute. Qed.

(** Looking for data from a hole returns the offset in the hole. *)
Example seek_data_in_hole :
  let sort := @Slices.insertion_sort Point in
  let cs := [ex_chunk 1 10 10 5] in
  (doSearchChunks sort (foldl place_chunk ∅ cs) 3 20 SEEK_DATA).2 = (true, 3) ∧ newest cs 3 = None.
Proof. by vm_compute. Qed.

(** Two chunks of the same time: the sweep drops the one that starts inside the
    other, and with it the bytes only it has; merging it does not. *)
Example equal_times_lose_data :
  let c := ex_chunk 2 5 10 5 in
  let vis := readResolvedChunks Slices.insertion_sort [ex_chunk 1 0 10 5] 0 20 in
  view_at (readResolvedChunks Slices.insertion_sort [ex_chunk 1 0 10 5; c] 0 20) 12 = None
  ∧ view_at (MergeIntoVisibles vis 5 15 c) 12 = Some (chunk_cell c 12).
Proof. by vm_compute. Qed.
End OpenFile.
