(* ===== verification/FilerManifest.v ===== *)
(** * FilerManifest: storing the chunk list of a large file, and cleaning it up

    [filechunk_manifest.go] moves batches of data chunks into manifest chunks, whose
    content is the list of chunks; [cleanupChunks] (weed/server/filer_grpc_server.go)
    is what the filer does with the chunks of an entry before it stores it: find what
    the update makes garbage, drop the chunks nobody can see any more, and fold the
    rest into manifests.  Saving a manifest and fetching it back are parameters.  The
    file id of a chunk is what [GetFileIdString] returns, which stays the same when
    [BeforeEntrySerialization] moves the text into the parsed field. *)

From S2P Require Import Prelude GoStd FilerChunks FilerChunksSpec FilerRead FilerReadSpec FilerGroupSpec FilerClaims.
Import IntervalList FileChunks.

Module Manifest.

Definition ManifestBatch : Z := 10000.
Definition MinInt64 : Z := - 2 ^ 63.

Section manifest.
(** The chunk a list of chunks is saved as (marshalled and uploaded). *)
Context (saveFunc : list FileChunk → res FileChunk).

Definition mergeIntoManifest (dataChunks : list FileChunk) : res FileChunk :=
  let '(minOffset, maxOffset) := foldl (λ '(lo, hi) c,
    (if decide (Offset c < lo) then Offset c else lo,
     if decide (hi < chunk_stop c) then chunk_stop c else hi)) (MaxInt64, MinInt64) dataChunks in
  c ← saveFunc dataChunks;
  Ok (MkChunk (FileId c) minOffset (u64 (maxOffset - minOffset)) (ModifiedTsNs c) (CipherKey c)
        (IsCompressed c) true (SourceFileId c) (SseType c)).

(** Whole batches from the front; the fuel is the number of chunks and one. *)
Fixpoint merge_batches (fuel : nat) (mergeFactor : Z) (rest chunks : list FileChunk) :
    res (list FileChunk) :=
  match fuel with
  | O => Panic
  | S fuel =>
      if decide (mergeFactor ≤ zlen rest) then
        c ← mergeIntoManifest (take (Z.to_nat mergeFactor) rest);
        merge_batches fuel mergeFactor (drop (Z.to_nat mergeFactor) rest) (chunks ++ [c])
      else Ok (chunks ++ rest)
  end.

(** On an error the data chunks alone are returned with it. *)
Definition doMaybeManifestize (inputChunks : list FileChunk) (mergeFactor : Z) :
    res (list FileChunk * option go_error) :=
  let '(chunks, dataChunks) := SeparateManifestChunks inputChunks in
  match merge_batches (S (length dataChunks)) mergeFactor dataChunks chunks with
  | Ok chunks => Ok (chunks, None)
  | Fail e => Ok (dataChunks, Some e)
  | Panic => Panic
  end.

Definition MaybeManifestize (inputChunks : list FileChunk) : res (list FileChunk * option go_error) :=
  if existsb (λ c, bool_decide (SseType c ≠ 0)) inputChunks then Ok (inputChunks, None)
  else doMaybeManifestize inputChunks ManifestBatch.

(** [cleanupChunks]: the chunks to store, those to delete, and an error.  The chunks of
    the existing entry are [None] when there is none. *)
Section cleanup.
Context (sort_long : (Point → Point → Z) → list Point → list Point).
Context (fetchManifest : FileChunk → res (list FileChunk)).

Definition cleanupChunks (depth : nat) (existing : option (list FileChunk)) (newChunks : list FileChunk)
    (hasAttributes : bool) : res (list FileChunk * list FileChunk * option go_error) :=
  match match existing with
        | Some old => MinusChunks fetchManifest depth old newChunks
        | None => Ok []
        end with
  | Panic => Panic
  | Fail e => Ok (newChunks, [], Some e)
  | Ok garbage =>
      let '(manifestChunks, nonManifestChunks) := SeparateManifestChunks newChunks in
      '(chunks, coveredChunks) ← CompactFileChunks sort_long fetchManifest depth nonManifestChunks;
      let garbage := garbage ++ coveredChunks in
      '(chunks, err) ← if hasAttributes then MaybeManifestize chunks else Ok (chunks, None);
      Ok (manifestChunks ++ chunks, garbage, err)
  end.
End cleanup.
End manifest.
End Manifest.

(** ** Resolving *)
Module ResolveSpec.
Import Manifest.

Section resolve.
Context (fetchManifest : FileChunk → res (list FileChunk)) (a b : Z).
Let R := λ depth cs, ResolveChunkManifest fetchManifest depth cs a b.

Definition join (r s : res (list FileChunk * list FileChunk)) : res (list FileChunk * list FileChunk) :=
  '(d1, m1) ← r; '(d2, m2) ← s; Ok (d1 ++ d2, m1 ++ m2).

(** What one chunk adds. *)
Definition resolve_one (depth : nat) (c : FileChunk) : res (list FileChunk * list FileChunk) :=
  if decide (min (chunk_stop c) b ≤ max (Offset c) a) then Ok ([], [])
  else if negb (IsChunkManifest c) then Ok ([c], [])
  else cs ← ResolveOneChunkManifest fetchManifest c; '(d, m) ← R depth cs; Ok (d, c :: m).

Lemma resolve_snoc depth cs c :
  R (S depth) (cs ++ [c]) = join (R (S depth) cs) (resolve_one depth c).
Proof.
  unfold R. cbn [ResolveChunkManifest]. rewrite foldl_snoc. unfold join, resolve_one.
  match goal with |- mbind _ ?x = _ => destruct x as [[d m]|e|] end; [|done|done]. cbn.
  case_decide; [cbn; by rewrite !app_nil_r|]. destruct (IsChunkManifest c); cbn; [|by rewrite app_nil_r].
  destruct (ResolveOneChunkManifest _ _) as [cs'|e|]; [|done|done]. cbn. unfold R.
  by destruct (ResolveChunkManifest _ _ _ _ _) as [[??]|e|].
Qed.

Lemma resolve_app depth cs cs' :
  R (S depth) (cs ++ cs') = join (R (S depth) cs) (R (S depth) cs').
Proof.
  assert (∀ r s t, join (join r s) t = join r (join s t)) as Hassoc.
  { intros [[??]|?|] [[??]|?|] [[??]|?|]; cbn; try done. by rewrite !app_assoc. }
  induction cs' as [|c cs' IH] using rev_ind.
  - assert (R (S depth) [] = Ok ([], [])) as -> by done.
    rewrite app_nil_r. destruct (R (S depth) cs) as [[??]|?|]; cbn; [|done|done].
    by rewrite !app_nil_r.
  - by rewrite app_assoc, !resolve_snoc, IH, Hassoc.
Qed.

Lemma join_ok r s d m :
  join r s = Ok (d, m) →
  ∃ d1 m1 d2 m2, r = Ok (d1, m1) ∧ s = Ok (d2, m2) ∧ d = d1 ++ d2 ∧ m = m1 ++ m2.
Proof. destruct r as [[??]|?|], s as [[??]|?|]; cbn; try done. intros [= <- <-]. by eexists _, _, _, _. Qed.

(** More depth changes nothing. *)
Lemma resolve_deeper depth cs r : R depth cs = Ok r → R (S depth) cs = Ok r.
Proof.
  revert cs r. induction depth as [|depth IH]; intros cs r; [done|].
  revert r. induction cs as [|c cs IHcs] using rev_ind; intros [d m]; [done|].
  rewrite !resolve_snoc. intros (d1 & m1 & d2 & m2 & Hr & Hs & -> & ->)%join_ok.
  rewrite (IHcs _ Hr). unfold resolve_one in *. case_decide; [by rewrite Hs|].
  destruct (IsChunkManifest c); cbn in *; [|by simplify_eq].
  destruct (ResolveOneChunkManifest _ _) as [cs'|e|]; [|done|done]. cbn in *.
  destruct (R depth cs') as [[d3 m3]|e|] eqn:He; [|done|done]. rewrite (IH _ _ He). cbn in *. by simplify_eq.
Qed.

Lemma resolve_metas depth cs d m : R depth cs = Ok (d, m) → ∀ c, c ∈ m → IsChunkManifest c = true.
Proof.
  revert cs d m. induction depth as [|depth IH]; intros cs d m; [done|].
  revert d m. induction cs as [|c cs IHcs] using rev_ind; intros d m.
  { intros [= <- <-] c Hc. by apply elem_of_nil in Hc. }
  rewrite resolve_snoc. intros (d1 & m1 & d2 & m2 & Hr & Hs & -> & ->)%join_ok c' [Hc|Hc]%elem_of_app;
    [by eapply IHcs|]. unfold resolve_one in Hs. case_decide; [by simplify_eq; apply elem_of_nil in Hc|].
  destruct (IsChunkManifest c) eqn:Hm; cbn in Hs; [|by simplify_eq; apply elem_of_nil in Hc].
  destruct (ResolveOneChunkManifest _ _) as [cs'|e|]; [|done|done]. cbn in Hs.
  destruct (R depth cs') as [[d3 m3]|e|] eqn:He; [|done|done]. cbn in Hs. simplify_eq.
  apply elem_of_cons in Hc as [->|Hc]; [done|by eapply IH].
Qed.

(** The data of manifests and of plain chunks, apart. *)
Lemma resolve_separate depth cs d m :
  R (S depth) cs = Ok (d, m) →
  ∃ dm, R (S depth) (filter (λ c, IsChunkManifest c = true) cs) = Ok (dm, m)
    ∧ d ≡ₚ dm ++ live (filter (λ c, IsChunkManifest c = false) cs) a b.
Proof.
  revert d m. induction cs as [|c cs IH] using rev_ind; intros d m; [intros [= <- <-]; by exists []|].
  rewrite resolve_snoc. intros (d1 & m1 & d2 & m2 & Hr & Hs & -> & ->)%join_ok.
  destruct (IH _ _ Hr) as (dm & Hdm & Hp). rewrite !filter_app, !filter_cons, !filter_nil.
  destruct (IsChunkManifest c) eqn:Hm; simpl.
  - exists (dm ++ d2). rewrite resolve_snoc, Hdm, Hs. split; [done|].
    rewrite app_nil_r, Hp. rewrite <- !(assoc_L (++)). f_equiv. by rewrite (comm (++)).
  - unfold resolve_one in Hs. rewrite Hm in Hs. cbn in Hs. rewrite app_nil_r.
    exists dm. unfold live in *. rewrite filter_app, filter_cons, filter_nil.
    assert (m2 = []) as -> by (case_decide; by simplify_eq).
    rewrite app_nil_r. split; [done|]. rewrite Hp, <- (assoc_L (++)). do 2 f_equiv.
    case_decide; simplify_eq; case_decide; try lia; done.
Qed.
End resolve.
End ResolveSpec.
Export ResolveSpec.

(** ** Manifests of a list of chunks *)
Module ManifestSpec.
Import Manifest.
#[local] Arguments ResolveChunkManifest : simpl never.

(** The range of the manifest. *)
Lemma merge_bounds d :
  d ≠ [] → (∀ c, c ∈ d → chunk_ok c) →
  ∃ lo hi, foldl (λ '(lo, hi) c,
      (if decide (Offset c < lo) then Offset c else lo,
       if decide (hi < chunk_stop c) then chunk_stop c else hi)) (MaxInt64, MinInt64) d = (lo, hi)
    ∧ 0 ≤ lo ≤ hi ∧ hi < 2 ^ 63 ∧ ∀ c, c ∈ d → lo ≤ Offset c ∧ chunk_stop c ≤ hi.
Proof.
  induction d as [|c d IH] using rev_ind; [done|]. intros _ Hok. rewrite foldl_snoc.
  destruct (Hok c) as (H1 & H2 & H3 & H4); [set_solver|].
  assert (chunk_stop c = Offset c + FileChunks.Size c) as Hst by (apply chunk_stop_eq, Hok; set_solver).
  destruct d as [|c' d'].
  - cbn [foldl]. unfold MaxInt64, MinInt64.
    do 2 eexists. split; [reflexivity|]. split_and!; try (repeat case_decide; lia).
    intros c' ->%list_elem_of_singleton. repeat case_decide; lia.
  - destruct IH as (lo & hi & -> & H5 & H6 & Hin); [done|intros; apply Hok; set_solver|].
    do 2 eexists. split; [reflexivity|]. split_and!; try (repeat case_decide; lia).
    intros x [Hx%Hin|Hx%list_elem_of_singleton]%elem_of_app; [|subst x]; repeat case_decide; lia.
Qed.

Section manifest.
Context (saveFunc : list FileChunk → res FileChunk).
Context (fetchManifest : FileChunk → res (list FileChunk)).
(** What was saved as a manifest is what is fetched. *)
Definition saved : Prop := ∀ d m, mergeIntoManifest saveFunc d = Ok m → fetchManifest m = Ok d.
Context (Hsaved : saved) (a b : Z).
Let R := λ depth cs, ResolveChunkManifest fetchManifest depth cs a b.

Lemma manifest_resolves depth d m :
  d ≠ [] → (∀ c, c ∈ d → chunk_ok c ∧ IsChunkManifest c = false) →
  mergeIntoManifest saveFunc d = Ok m → ∃ ms, R (S (S depth)) [m] = Ok (live d a b, ms).
Proof using Hsaved.
  intros Hne Hok Hm. pose proof (Hsaved d m Hm) as Hf.
  destruct (merge_bounds d Hne) as (lo & hi & Hlh & Hlo & Hhi & Hin); [by intros; apply Hok|].
  unfold mergeIntoManifest in Hm. rewrite Hlh in Hm. destruct (saveFunc d) as [c|e|]; [|done|done].
  cbn in Hm. injection Hm as <-.
  set (m := MkChunk _ _ _ _ _ _ _ _ _) in *.
  assert (chunk_stop m = hi) as Hst.
  { unfold chunk_stop, add64; cbn. rewrite (wrap_id 64 (hi - lo)) by (widths; lia).
    rewrite (swrap_id 64 (hi - lo)) by (widths; lia). rewrite swrap_id by (widths; lia). lia. }
  change [m] with ([] ++ [m]). unfold R. rewrite resolve_snoc.
  change (ResolveChunkManifest _ _ [] _ _) with (@Ok (list FileChunk * list FileChunk) ([], [])).
  unfold resolve_one. rewrite Hst. case_decide as Hout.
  - exists []. cbn. do 2 f_equal. symmetry. apply elem_of_nil_inv.
    intros c' [Hlt Hc]%list_elem_of_filter. destruct (Hin c' Hc). cbn in Hout.
    unfold max, min in *. repeat case_decide; lia.
  - cbn [negb IsChunkManifest m]. unfold ResolveOneChunkManifest. cbn [IsChunkManifest m].
    rewrite Hf.
    pose proof (resolve_plain fetchManifest depth d a b) as Hp. specialize (Hp ltac:(intros; by apply Hok)).
    cbn -[ResolveChunkManifest]. rewrite Hp. cbn. by eexists.
Qed.

(** The batches and what is left of the data resolve to the data. *)
Lemma batches_resolve depth k : ∀ fuel rest chunks,
  (∀ d, saveFunc d ≠ Panic) → 0 < k → (length rest < fuel)%nat →
  (∀ c, c ∈ rest → chunk_ok c ∧ IsChunkManifest c = false) →
  match merge_batches saveFunc fuel k rest chunks with
  | Ok out => ∃ new ms, out = chunks ++ new ∧ R (S (S depth)) new = Ok (live rest a b, ms)
  | Fail _ => True
  | Panic => False
  end.
Proof using Hsaved.
  intros fuel. induction fuel as [|fuel IH]; intros rest chunks Hp Hk Hf Hok; [lia|].
  cbn [merge_batches]. case_decide as Hlen.
  - set (batch := take (Z.to_nat k) rest).
    assert (length batch = Z.to_nat k) as Hb by (unfold batch; rewrite length_take; unfold zlen in *; lia).
    assert (rest = batch ++ drop (Z.to_nat k) rest) as Hr by (symmetry; apply take_drop).
    destruct (mergeIntoManifest saveFunc batch) as [m|e|] eqn:Hm; [|done|].
    + cbn [mbind res_bind]. specialize (IH (drop (Z.to_nat k) rest) (chunks ++ [m]) Hp Hk).
      cbn. destruct (merge_batches _ _ _ _ _) as [out|e|]; [|done|].
      * destruct IH as (new & ms & -> & Hnew); [rewrite length_drop; unfold zlen in *; lia
                                               |intros c Hc; apply Hok; rewrite Hr; set_solver|].
        destruct (manifest_resolves depth batch m) as [ms' Hms]; [by destruct batch; cbn in *; [lia|]
          |intros c Hc; apply Hok; rewrite Hr; set_solver|done|].
        exists (m :: new), (ms' ++ ms). split; [by rewrite <- app_assoc|].
        pose proof (resolve_app fetchManifest a b (S depth) [m] new) as Happ.
        unfold R in *. cbv zeta beta in Happ. cbn [app] in Happ. rewrite Happ, Hms, Hnew. cbn.
        do 2 f_equal. trans (live (batch ++ drop (Z.to_nat k) rest) a b); [|by rewrite <- Hr].
        unfold live. by rewrite filter_app.
      * apply IH; [rewrite length_drop; unfold zlen in *; lia|intros c Hc; apply Hok; rewrite Hr; set_solver].
    + unfold mergeIntoManifest in Hm. destruct (foldl _ _ _). destruct (saveFunc batch) eqn:Hs; try done.
      by destruct (Hp batch).
  - exists rest, []. split; [done|]. unfold R. apply resolve_plain. intros. by apply Hok.
Qed.

Lemma manifestize_spec depth k input data ms :
  (∀ d, saveFunc d ≠ Panic) → 0 < k →
  (∀ c, c ∈ input → IsChunkManifest c = false → chunk_ok c) →
  R (S depth) input = Ok (data, ms) →
  ∃ chunks err, doMaybeManifestize saveFunc input k = Ok (chunks, err)
    ∧ match err with
      | None => ∃ data' ms', R (S (S depth)) chunks = Ok (data', ms') ∧ data' ≡ₚ data
      | Some _ => chunks = filter (λ c, IsChunkManifest c = false) input
      end.
Proof using Hsaved.
  intros Hp Hk Hok Hr. unfold doMaybeManifestize, SeparateManifestChunks.
  set (mani := filter (λ c, IsChunkManifest c = true) input).
  set (plain := filter (λ c, IsChunkManifest c = false) input).
  pose proof (batches_resolve depth k (S (length plain)) plain mani Hp Hk ltac:(lia)) as Hb.
  destruct (merge_batches _ _ _ _ _) as [out|e|].
  - destruct Hb as (new & msn & -> & Hnew); [intros c [? ?]%list_elem_of_filter; auto|].
    do 2 eexists. split; [reflexivity|]. cbn.
    destruct (resolve_separate fetchManifest a b depth input data ms Hr) as (dm & Hdm & Hperm).
    apply (resolve_deeper fetchManifest) in Hdm. unfold R in *. rewrite resolve_app.
    fold mani in Hdm. rewrite Hdm, Hnew. cbn. do 2 eexists. split; [reflexivity|]. by rewrite Hperm.
  - by do 2 eexists.
  - destruct Hb. intros c [? ?]%list_elem_of_filter; auto.
Qed.
End manifest.
End ManifestSpec.
Export ManifestSpec.

(** ** Cleaning up *)
Module CleanupSpec.
Import Manifest.

Lemma distinct_perm cs cs' : cs ≡ₚ cs' → distinct cs → distinct cs'.
Proof. unfold distinct. by intros ->. Qed.

Lemma live_full cs c a b :
  chunk_ok c → 0 < FileChunks.Size c → a ≤ 0 → MaxInt64 ≤ b → c ∈ cs → c ∈ live cs a b.
Proof.
  intros Hc Hs Ha Hb Hin. apply list_elem_of_filter. split; [|done]. rewrite chunk_stop_eq by done.
  destruct Hc as (? & ? & ? & _). unfold MaxInt64 in *. unfold max, min. repeat case_decide; lia.
Qed.

Lemma distinct_app_l cs cs' : distinct (cs ++ cs') → distinct cs.
Proof. unfold distinct. rewrite fmap_app. by intros (? & _)%NoDup_app. Qed.

(** Leaving out chunks of [cs] that are not seen among [cs] changes nothing beside [dm]. *)
Lemma newest_replace dm cs cs' rest data data' :
  distinct data → data ≡ₚ dm ++ cs → data' ≡ₚ dm ++ cs' → cs ≡ₚ cs' ++ rest →
  (∀ y, newest cs' y = newest cs y) → ∀ y, newest data' y = newest data y.
Proof.
  intros Hd Hp Hp' Hsub Hn y.
  assert (distinct (dm ++ cs)) as Hd1 by by eapply distinct_perm.
  apply newest_covering; [done| | |].
  - intros c Hc. rewrite Hp, Hsub. rewrite Hp' in Hc. set_solver.
  - eapply distinct_perm; [symmetry; exact Hp'|]. apply (distinct_app_l _ rest).
    eapply distinct_perm; [|exact Hd1]. by rewrite Hsub, (assoc_L (++)).
  - intros c Hc Hcov. rewrite Hp in Hc.
    apply elem_of_app in Hc as [Hc|Hc]; [left; rewrite Hp'; set_solver|].
    pose proof (newest_spec cs y) as H1. pose proof (newest_spec cs' y) as H2. rewrite Hn in H2.
    destruct (newest cs y) as [d|]; [|by destruct (H1 c)].
    destruct H2 as (c' & Hc' & Hcov' & -> & _), H1 as (c0 & Hc0 & Hcov0 & He & Hmax).
    assert (ModifiedTsNs c' = ModifiedTsNs c0) as Hts by (injection He; done).
    destruct (decide (ModifiedTsNs c = ModifiedTsNs c')) as [Heq|Hne].
    + left. rewrite Hp'. rewrite (distinct_eq (dm ++ cs) c c'); [set_solver|done|set_solver| |done].
      rewrite Hsub. set_solver.
    + right. exists c'. split_and!; [rewrite Hp'; set_solver|done|]. specialize (Hmax c Hc Hcov). lia.
Qed.

Lemma newest_live_all cs y :
  (∀ c, c ∈ cs → chunk_ok c) → distinct cs → newest (live cs 0 MaxInt64) y = newest cs y.
Proof.
  intros Hok Hd. destruct (decide (0 ≤ y < MaxInt64)) as [Hy|Hy]; [by apply newest_live|].
  rewrite !Ids.outside_none; [done|done|done|intros c Hc; by eapply Hok, live_sub|done].
Qed.

Lemma minus_elem (l1 l2 : list FileChunk) c :
  c ∈ DoMinusChunks l1 l2 → c ∈ l1 ∧ ∀ c', c' ∈ l2 → FileId c' ≠ FileId c.
Proof.
  intros [Hn Hc]%list_elem_of_filter. split; [done|]. intros c' Hc' He. apply Hn.
  apply elem_of_list_to_set. rewrite <- He. by apply list_elem_of_fmap_2.
Qed.

(** The data chunks an update gives up are not among the new ones. *)
Lemma minus_spec fetchManifest depth existing new data ms :
  (∀ old, existing = Some old → ∃ r, ResolveChunkManifest fetchManifest (S depth) old 0 MaxInt64 = Ok r) →
  ResolveChunkManifest fetchManifest (S depth) new 0 MaxInt64 = Ok (data, ms) →
  ∃ garbage, match existing with
             | Some old => MinusChunks fetchManifest (S depth) old new
             | None => Ok []
             end = Ok garbage
    ∧ ∀ c, c ∈ garbage → IsChunkManifest c = false → ∀ c', c' ∈ data → FileId c' ≠ FileId c.
Proof.
  intros Hold Hnew. destruct existing as [old|]; [|by exists []; split; [|intros ? ?%elem_of_nil]].
  destruct (Hold old eq_refl) as [[ad am] Ha]. unfold MinusChunks. rewrite Ha, Hnew. cbn.
  eexists. split; [reflexivity|]. intros c [[_ Hc]%minus_elem|[Hc _]%minus_elem]%elem_of_app Hm; [done|].
  by rewrite (resolve_metas fetchManifest 0 MaxInt64 (S depth) old ad am Ha c Hc) in Hm.
Qed.

(** A chunk of [plain] whose id is seen in the whole file is seen among [plain]. *)
Lemma newest_by_id data plain c y d :
  NoDup (FileId <$> data) → (∀ c', c' ∈ plain → c' ∈ data) → distinct plain → c ∈ plain →
  newest data y = Some d → c_id d = FileId c → newest plain y = Some d.
Proof.
  intros Hids Hsub Hd Hc Hy Hid. pose proof (newest_spec data y) as Hs. rewrite Hy in Hs.
  destruct Hs as (c0 & Hc0 & Hcov & -> & Hmax).
  assert (c0 = c) as -> by (apply (NoDup_fmap_eq FileId data); auto).
  apply newest_eq; [done|done|done|]. intros c' Hc'. apply Hmax. auto.
Qed.

(** Folding plain chunks, or leaving them. *)
Lemma maybe_spec saveFunc fetchManifest depth input (fold : bool) a b :
  saved saveFunc fetchManifest → (∀ d, saveFunc d ≠ Panic) →
  (∀ c, c ∈ input → chunk_ok c ∧ IsChunkManifest c = false) →
  ∃ chunks err, (if fold then MaybeManifestize saveFunc input else Ok (input, None)) = Ok (chunks, err)
    ∧ ∃ data' ms', ResolveChunkManifest fetchManifest (S (S depth)) chunks a b = Ok (data', ms')
                   ∧ data' ≡ₚ live input a b.
Proof.
  intros Hs Hp Hok.
  assert (∀ depth, ResolveChunkManifest fetchManifest (S depth) input a b = Ok (live input a b, [])) as Hr
    by (intros; apply resolve_plain; intros; by apply Hok).
  destruct fold; [|do 2 eexists; split; [done|]; by rewrite Hr; do 2 eexists].
  unfold MaybeManifestize. destruct (existsb _ _); [do 2 eexists; split; [done|]; by rewrite Hr; do 2 eexists|].
  destruct (manifestize_spec saveFunc fetchManifest Hs a b depth ManifestBatch input _ [] Hp ltac:(done)
    ltac:(intros; by apply Hok) (Hr depth)) as (chunks & err & -> & He).
  exists chunks, err. split; [done|]. destruct err as [e|]; [|done]. subst chunks.
  rewrite filter_all by (intros; by apply Hok). rewrite Hr. by do 2 eexists.
Qed.
End CleanupSpec.
Import CleanupSpec.

Module ManifestClaims.
Import Manifest ChunkClaims.

(** C35: Folding a chunk list into manifests keeps the file: the new list resolves to the
    same data chunks, for any range asked for.  When saving a manifest fails, the plain
    data chunks come back with the error, without the manifests the list had. *)
Theorem manifestize_keeps_content saveFunc fetchManifest a b depth k input data ms :
  saved saveFunc fetchManifest → (∀ d, saveFunc d ≠ Panic) → 0 < k →
  (∀ c, c ∈ input → IsChunkManifest c = false → chunk_ok c) →
  ResolveChunkManifest fetchManifest (S depth) input a b = Ok (data, ms) →
  ∃ chunks err, doMaybeManifestize saveFunc input k = Ok (chunks, err)
    ∧ match err with
      | None => ∃ data' ms', ResolveChunkManifest fetchManifest (S (S depth)) chunks a b = Ok (data', ms')
                             ∧ data' ≡ₚ data
      | Some _ => chunks = filter (λ c, IsChunkManifest c = false) input
      end.
Proof. intros Hs. by apply manifestize_spec. Qed.

(** C33: What the filer stores for an entry is the file it was given, for chunks of
    distinct times whose manifests can be resolved: the chunks left
    after compaction and folding resolve to data that shows the same chunk at every
    offset, also when saving a manifest failed, and no data chunk that is given up is
    shown anywhere in the new file. *)
Theorem cleanup_keeps_content sort_long saveFunc fetchManifest depth existing new hasAttributes data ms :
  Slices.sorts sort_long → saved saveFunc fetchManifest → (∀ d, saveFunc d ≠ Panic) →
  (∀ old, existing = Some old → ∃ r, ResolveChunkManifest fetchManifest (S depth) old 0 MaxInt64 = Ok r) →
  ResolveChunkManifest fetchManifest (S depth) new 0 MaxInt64 = Ok (data, ms) →
  (∀ c, c ∈ new → IsChunkManifest c = false → chunk_ok c ∧ 0 < FileChunks.Size c) →
  distinct data → NoDup (FileId <$> data) →
  ∃ chunks garbage err,
    cleanupChunks saveFunc sort_long fetchManifest (S depth) existing new hasAttributes
      = Ok (chunks, garbage, err)
    ∧ (∃ data' ms', ResolveChunkManifest fetchManifest (S (S depth)) chunks 0 MaxInt64 = Ok (data', ms')
        ∧ ∀ y, newest data' y = newest data y)
    ∧ ∀ c y d, c ∈ garbage → IsChunkManifest c = false → newest data y = Some d → c_id d ≠ FileId c.
Proof.
  intros Hsort Hsaved Hp Hold Hnew Hok Hd Hids.
  destruct (minus_spec fetchManifest depth existing new data ms Hold Hnew) as (g0 & Hg0 & Hgarb).
  destruct (resolve_separate fetchManifest 0 MaxInt64 depth new data ms Hnew) as (dm & Hdm & Hperm).
  unfold cleanupChunks, SeparateManifestChunks. rewrite Hg0.
  set (plain := filter (λ c, IsChunkManifest c = false) new) in *.
  assert (∀ c, c ∈ plain → (chunk_ok c ∧ IsChunkManifest c = false) ∧ 0 < FileChunks.Size c) as Hpl.
  { intros c [Hm Hc]%list_elem_of_filter. destruct (Hok c Hc Hm). auto. }
  assert (live plain 0 MaxInt64 = plain) as Hlive.
  { apply filter_all. intros c Hc. destruct (Hpl c Hc) as [[Hck _] Hs].
    assert (c ∈ live [c] 0 MaxInt64) as [? _]%list_elem_of_filter; [|done].
    apply live_full; [done..|set_solver]. }
  rewrite Hlive in Hperm. assert (distinct (dm ++ plain)) as Hd1 by by eapply distinct_perm.
  assert (distinct plain) as Hd2.
  { apply (distinct_app_l _ dm). eapply distinct_perm; [|exact Hd1]. by rewrite (comm (++)). }
  destruct (compact_spec sort_long fetchManifest depth plain Hsort) as (kept & covered & Hcomp & Hkp & Hkn & Hkg & _);
    [intros; by apply Hpl|done|]. rewrite Hcomp. cbn -[ResolveChunkManifest].
  assert (∀ c, c ∈ kept → chunk_ok c ∧ IsChunkManifest c = false) as Hkok.
  { intros c Hc. apply Hpl. rewrite <- Hkp. set_solver. }
  destruct (maybe_spec saveFunc fetchManifest depth kept hasAttributes 0 MaxInt64 Hsaved Hp Hkok)
    as (chunks & err & -> & data' & ms' & Hr' & Hp').
  cbn -[ResolveChunkManifest]. do 3 eexists. split; [reflexivity|].
  assert (live kept 0 MaxInt64 = kept) as Hlk.
  { apply filter_all. intros c Hc. assert (c ∈ live plain 0 MaxInt64) as [? _]%list_elem_of_filter; [|done].
    rewrite Hlive, <- Hkp. set_solver. }
  split.
  - pose proof (resolve_app fetchManifest 0 MaxInt64 (S depth)
      (filter (λ c, IsChunkManifest c = true) new) chunks) as Happ. cbv zeta beta in Happ.
    apply (resolve_deeper fetchManifest) in Hdm. rewrite Happ, Hdm, Hr'. cbn.
    do 2 eexists. split; [reflexivity|].
    eapply (newest_replace dm plain kept covered); [done|done|by rewrite Hp', Hlk|by rewrite Hkp|done].
  - intros c y d [Hc|Hc]%elem_of_app Hm Hy.
    + pose proof (newest_spec data y) as Hs. rewrite Hy in Hs. destruct Hs as (c0 & Hc0 & _ & -> & _).
      by apply (Hgarb c Hc Hm).
    + intros Hid. apply (Hkg c y d Hc); [|done]. apply (newest_by_id data plain c y d); auto.
      * intros c' Hc'. rewrite Hperm. set_solver.
      * rewrite <- Hkp. set_solver.
Qed.

(** A list of chunks that can be saved, and where it is saved. *)
Definition ex_save (d : list FileChunk) : res FileChunk :=
  if decide (d = take 2 ex_chunks) then Ok (ex_chunk 9 0 0 8) else Fail ErrIO.
Definition ex_load (c : FileChunk) : res (list FileChunk) :=
  if decide (FileId c = [9]) then Ok (take 2 ex_chunks) else Fail ErrIO.

Lemma ex_saved : saved ex_save ex_load.
Proof.
  intros d m. unfold mergeIntoManifest, ex_save, ex_load. destruct (foldl _ _ _).
  case_decide; [|done]. subst d. by intros [= <-].
Qed.
Lemma ex_save_total d : ex_save d ≠ Panic.
Proof. unfold ex_save. by case_decide. Qed.

Lemma manifestize_keeps_content_witness :
  ∃ chunks err, doMaybeManifestize ex_save ex_chunks 2 = Ok (chunks, err)
    ∧ match err with
      | None => ∃ data' ms', ResolveChunkManifest ex_load 2 chunks 0 100 = Ok (data', ms')
                             ∧ data' ≡ₚ ex_chunks
      | Some _ => chunks = filter (λ c, IsChunkManifest c = false) ex_chunks
      end.
Proof.
  apply (manifestize_keeps_content ex_save ex_load 0 100 0 2 ex_chunks ex_chunks []);
    [apply ex_saved|apply ex_save_total|lia|by intros; apply ex_ok|done].
Defined.

Lemma cleanup_keeps_content_witness :
  ∃ chunks garbage err,
    cleanupChunks ex_save Slices.insertion_sort ex_load 1 (Some [ex_chunk 4 0 3 2]) ex_chunks true
      = Ok (chunks, garbage, err)
    ∧ (∃ data' ms', ResolveChunkManifest ex_load 2 chunks 0 MaxInt64 = Ok (data', ms')
        ∧ ∀ y, newest data' y = newest ex_chunks y)
    ∧ ∀ c y d, c ∈ garbage → IsChunkManifest c = false → newest ex_chunks y = Some d → c_id d ≠ FileId c.
Proof.
  apply (cleanup_keeps_content Slices.insertion_sort ex_save ex_load 0 (Some [ex_chunk 4 0 3 2]) ex_chunks true
    ex_chunks []); [apply ex_sorts|apply ex_saved|apply ex_save_total| |by vm_compute| |apply ex_ok|decided].
  - intros old [= <-]. by eexists.
  - intros c Hc _. split; [by apply ex_ok|]. revert c Hc. rewrite <- Forall_forall. decided.
Defined.

(** Appending to a file whose chunks are in a manifest when saving the next one fails:
    the chunk list that comes back has lost the manifest. *)
Example failed_save_drops_manifest :
  let old := MkChunk [8] 0 10 1 [] false true [] 0 in
  doMaybeManifestize (λ _, Fail ErrIO) (old :: ex_chunks) 2 = Ok (ex_chunks, Some ErrIO).
Proof. done. Qed.
End ManifestClaims.
