(* ===== verification/Wildcard.v ===== *)
(** * Wildcard: the pattern matcher of weed/util/wildcard

    [*] stands for any bytes and [?] for one byte.  [matchWildcardString] walks pattern
    and text with one place to go back to; [glob] is what the pattern means.  The cache
    of matchers is a map with a list of its keys, least recently used first. *)

From S2P Require Import Prelude GoStd GoText.
Import Strings.

Module Wildcard.

(** The places in a text are natural numbers; [lastStarIndex] is [None] for -1. *)
Fixpoint match_loop (fuel : nat) (pattern s : bytes) (targetIndex patternIndex : nat)
    (lastStarIndex : option nat) (lastStarMatchIndex : nat) : res (option nat) :=
  match fuel with
  | O => Panic
  | S fuel =>
      match s !! targetIndex with
      | None => Ok (Some patternIndex)
      | Some c =>
          match pattern !! patternIndex with
          | Some p =>
              if decide (p = 63 ∨ p = c) then
                match_loop fuel pattern s (S targetIndex) (S patternIndex) lastStarIndex lastStarMatchIndex
              else if decide (p = 42) then
                match_loop fuel pattern s targetIndex (S patternIndex) (Some patternIndex) targetIndex
              else
                match lastStarIndex with
                | Some i =>
                    match_loop fuel pattern s (S lastStarMatchIndex) (S i) lastStarIndex (S lastStarMatchIndex)
                | None => Ok None
                end
          | None =>
              match lastStarIndex with
              | Some i =>
                  match_loop fuel pattern s (S lastStarMatchIndex) (S i) lastStarIndex (S lastStarMatchIndex)
              | None => Ok None
              end
          end
      end
  end.

(** The loop over the stars that are left. *)
Fixpoint skip_stars (rest : bytes) : bytes :=
  match rest with
  | c :: rest' => if decide (c = 42) then skip_stars rest' else rest
  | [] => []
  end.

Definition loop_fuel (pattern s : bytes) : nat := S (length s) * S (length pattern).

Definition matchWildcardString (pattern s : bytes) : res bool :=
  if decide (pattern = [42]) then Ok true
  else if decide (pattern = s) then Ok true
  else
    o ← match_loop (S (loop_fuel pattern s)) pattern s 0 0 None 0;
    match o with
    | None => Ok false
    | Some patternIndex => Ok (bool_decide (skip_stars (drop patternIndex pattern) = []))
    end.

Definition MatchesWildcard := matchWildcardString.

(** A matcher never uses its regular expression: [NewWildcardMatcher] leaves
    [useRegex] false. *)
Record WildcardMatcher := MkMatcher { pattern : bytes }.
Definition NewWildcardMatcher (p : bytes) : WildcardMatcher := MkMatcher p.
Definition Match_ (m : WildcardMatcher) (s : bytes) : res bool := matchWildcardString (pattern m) s.

(** ** The cache *)

Record WildcardMatcherCache := MkCache {
  matchers : gmap bytes WildcardMatcher; maxSize : Z; accessOrder : list bytes }.

Definition NewWildcardMatcherCache (max : Z) : WildcardMatcherCache :=
  MkCache ∅ (if decide (max ≤ 0) then 1000 else max) [].

(** The first occurrence of [p] is taken out. *)
Fixpoint remove_first (p : bytes) (l : list bytes) : list bytes :=
  match l with
  | [] => []
  | q :: l => if decide (q = p) then l else q :: remove_first p l
  end.

Definition updateAccessOrder (p : bytes) (c : WildcardMatcherCache) : WildcardMatcherCache :=
  MkCache (matchers c) (maxSize c) (remove_first p (accessOrder c) ++ [p]).

Definition evictLeastRecentlyUsed (c : WildcardMatcherCache) : WildcardMatcherCache :=
  match accessOrder c with
  | [] => c
  | lru :: rest => MkCache (delete lru (matchers c)) (maxSize c) rest
  end.

(** What is done under the write lock when the pattern was not found. *)
Definition add_locked (p : bytes) (c : WildcardMatcherCache) : WildcardMatcherCache * WildcardMatcher :=
  match matchers c !! p with
  | Some m => (updateAccessOrder p c, m)
  | None =>
      let m := NewWildcardMatcher p in
      let c := if decide (maxSize c ≤ Z.of_nat (size (matchers c))) then evictLeastRecentlyUsed c else c in
      (MkCache (<[p := m]> (matchers c)) (maxSize c) (accessOrder c ++ [p]), m)
  end.

Definition GetCachedWildcardMatcher (p : bytes) (c : WildcardMatcherCache) :
    WildcardMatcherCache * WildcardMatcher :=
  match matchers c !! p with
  | Some m => (updateAccessOrder p c, m)
  | None => add_locked p c
  end.

Definition FastMatchesWildcard (p s : bytes) (c : WildcardMatcherCache) : WildcardMatcherCache * res bool :=
  let '(c, m) := GetCachedWildcardMatcher p c in (c, Match_ m s).

Definition ClearCache (c : WildcardMatcherCache) : WildcardMatcherCache := MkCache ∅ (maxSize c) [].

Definition GetCacheStats (c : WildcardMatcherCache) : Z * Z := (Z.of_nat (size (matchers c)), maxSize c).

(** ** Filters *)

Definition CompileWildcardMatchers (filter : bytes) : list WildcardMatcher :=
  omap (λ part, let trimmed := TrimSpace part in
                if decide (trimmed = []) then None else Some (NewWildcardMatcher trimmed))
       (Split filter 44).

Fixpoint any_match (ms : list WildcardMatcher) (value : bytes) : res bool :=
  match ms with
  | [] => Ok false
  | m :: ms => b ← Match_ m value; if (b : bool) then Ok true else any_match ms value
  end.

Definition MatchesAnyWildcard (ms : list WildcardMatcher) (value : bytes) : res bool :=
  match ms with
  | [] => Ok true
  | _ => any_match ms value
  end.

End Wildcard.
