(* ===== verification/WildcardSpec.v ===== *)
(** * WildcardSpec: what wildcard patterns match

    [Globs]: the meaning of a pattern.  [Backtracking]: the loop with one place to go
    back to decides it, on texts without a star of their own.  [WildcardClaims]: the
    statements, the cache included. *)

From S2P Require Import Prelude GoStd GoText Wildcard.
Import Strings Wildcard.

(** ** The meaning of a pattern *)
Module Globs.

Inductive glob : bytes → bytes → Prop :=
  | glob_nil : glob [] []
  | glob_byte c p s : c ≠ 42 → c ≠ 63 → glob p s → glob (c :: p) (c :: s)
  | glob_any c p s : glob p s → glob (63 :: p) (c :: s)
  | glob_star p t s : glob p s → glob (42 :: p) (t ++ s).

Lemma glob_app p q s t : glob p s → glob q t → glob (p ++ q) (s ++ t).
Proof.
  induction 1; intros; cbn [app]; [done|constructor; auto..|].
  rewrite <- app_assoc. constructor. auto.
Qed.

Lemma glob_self c : glob [c] [c].
Proof.
  destruct (decide (c = 42)) as [->|]; [apply (glob_star [] [42] []), glob_nil|].
  destruct (decide (c = 63)) as [->|]; repeat constructor; done.
Qed.

Lemma glob_nil_inv s : glob [] s → s = [].
Proof. by inversion 1. Qed.

(** Only stars match nothing. *)
Lemma glob_stars p : glob p [] ↔ skip_stars p = [].
Proof.
  split.
  - remember ([] : bytes) as e eqn:E. induction 1; try done.
    apply app_eq_nil in E as [-> ->]. cbn [skip_stars]. rewrite decide_True by done. auto.
  - induction p as [|c p IH]; [constructor|]. cbn [skip_stars]. case_decide; [subst|done].
    intros H. apply (glob_star p [] []). auto.
Qed.

Lemma glob_star_inv p s : glob (42 :: p) s → ∃ n, (n ≤ length s)%nat ∧ glob p (drop n s).
Proof.
  inversion 1 as [| | |? t s']; subst; [done|]. exists (length t). split; [rewrite length_app; lia|].
  by rewrite drop_app_length.
Qed.

(** Any other byte of a pattern takes one byte. *)
Lemma glob_one_inv c p s :
  c ≠ 42 → glob (c :: p) s → ∃ d s', s = d :: s' ∧ glob p s' ∧ (c = 63 ∨ c = d).
Proof. intros Hc. inversion 1; subst; [eauto 7..|done]. Qed.

Lemma glob_block q p s :
  Forall (λ c, c ≠ 42) q → glob (q ++ p) s → (length q ≤ length s)%nat ∧ glob p (drop (length q) s).
Proof.
  intros Hq. revert s. induction Hq as [|c q Hc _ IH]; intros s H; cbn [app length] in *.
  { split; [lia|by rewrite drop_0]. }
  apply glob_one_inv in H as (d & s' & -> & H & _); [|done]. apply IH in H as [??].
  cbn [length drop]. split; [lia|done].
Qed.
End Globs.
Import Globs.

(** ** The loop *)
Module Backtracking.
Section loop.
Context (pat s : bytes).

(** What was consumed matches; so does what came before the star. *)
Record sound (ti pi : nat) (star : option nat) (starm : nat) : Prop := Sound {
  so_ti : (ti ≤ length s)%nat; so_pi : (pi ≤ length pat)%nat; so_m : (starm ≤ ti)%nat;
  so_here : glob (take pi pat) (take ti s);
  so_star : ∀ i, star = Some i →
    pat !! i = Some 42 ∧ ∃ m, (m ≤ starm)%nat ∧ glob (take i pat) (take m s) }.

(** A match of the whole can still be found: from here, or from the star. *)
Definition open_ (ti pi : nat) (star : option nat) (starm : nat) : Prop :=
  match star with
  | None => glob (drop pi pat) (drop ti s)
  | Some i =>
      (i < pi)%nat ∧ (ti - starm = pi - S i)%nat ∧ (starm ≤ ti)%nat
      ∧ Forall (λ c, c ≠ 42) (take (pi - S i) (drop (S i) pat))
      ∧ ∃ m, (starm ≤ m ≤ length s)%nat ∧ glob (drop (S i) pat) (drop m s)
  end.

Lemma sound_step ti pi star m c p :
  sound ti pi star m → s !! ti = Some c → pat !! pi = Some p → p = 63 ∨ p = c → sound (S ti) (S pi) star m.
Proof.
  intros [H1 H2 H3 H4 H5] Hs Hp Hc. apply lookup_lt_Some in Hs as Hl, Hp as Hl'.
  split; [lia..| |done]. rewrite (take_S_r _ _ _ Hs), (take_S_r _ _ _ Hp).
  apply glob_app; [done|]. destruct Hc as [->| ->]; [repeat constructor|apply glob_self].
Qed.

Lemma sound_set ti pi star m :
  sound ti pi star m → pat !! pi = Some 42 → sound ti (S pi) (Some pi) ti.
Proof.
  intros [H1 H2 H3 H4 H5] Hp. apply lookup_lt_Some in Hp as Hl. split; [lia..| |].
  - rewrite (take_S_r _ _ _ Hp), <- (app_nil_r (take ti s)). apply glob_app; [done|].
    apply (glob_star [] [] []), glob_nil.
  - intros ? [= <-]. eauto.
Qed.

Lemma sound_back ti pi i m :
  sound ti pi (Some i) m → (ti < length s)%nat → sound (S m) (S i) (Some i) (S m).
Proof.
  intros [H1 H2 H3 H4 H5] Ht. destruct (H5 i eq_refl) as (Hi & m0 & Hm & Hg).
  apply lookup_lt_Some in Hi as Hl. split; [lia..| |].
  - rewrite (take_S_r _ _ _ Hi).
    assert (take (S m) s = take m0 s ++ drop m0 (take (S m) s) ++ []) as ->.
    { rewrite app_nil_r. rewrite <- (take_drop m0 (take (S m) s)) at 1. rewrite take_take.
      by replace (m0 `min` S m)%nat with m0 by lia. }
    apply glob_app; [done|]. apply glob_star, glob_nil.
  - intros ? [= <-]. split; [done|]. exists m0. split; [lia|done].
Qed.

(** From the star, the bytes between it and here take as many bytes of the text. *)
Lemma open_here ti pi i m n :
  open_ ti pi (Some i) m → (pi ≤ length pat)%nat → (n ≤ length s)%nat → glob (drop (S i) pat) (drop n s) →
  (n + (ti - m) ≤ length s)%nat ∧ glob (drop pi pat) (drop (n + (ti - m)) s).
Proof.
  intros (Hi & He & Hm & Hf & _) Hp Hn Hg.
  rewrite <- (take_drop (pi - S i) (drop (S i) pat)) in Hg.
  apply glob_block in Hg as [Hl Hg]; [|done].
  assert (length (take (pi - S i) (drop (S i) pat)) = pi - S i)%nat as El
    by (rewrite length_take, length_drop; lia).
  rewrite El, !drop_drop in Hg. rewrite El, length_drop in Hl.
  replace (S i + (pi - S i))%nat with pi in Hg by lia. rewrite He. split; [lia|done].
Qed.

Lemma open_step ti pi star m c p :
  open_ ti pi star m → s !! ti = Some c → pat !! pi = Some p → p = 63 ∨ p = c → c ≠ 42 →
  open_ (S ti) (S pi) star m.
Proof.
  intros H Hs Hp Hc Hn. assert (p ≠ 42) as Hp42 by (destruct Hc; subst; done).
  unfold open_ in *. destruct star as [i|].
  - destruct H as (Hi & He & Hm & Hf & Hx). split_and!; [lia..| |done].
    replace (S pi - S i)%nat with (S (pi - S i)) by lia. rewrite (take_S_r _ _ p).
    { apply Forall_app. split; [done|]. by constructor. }
    rewrite lookup_drop. by replace (S i + (pi - S i))%nat with pi by lia.
  - rewrite (drop_S _ _ _ Hs), (drop_S _ _ _ Hp) in H.
    apply glob_one_inv in H as (d & s' & [= <- <-] & H & _); done.
Qed.

Lemma open_set ti pi star m :
  open_ ti pi star m → (ti ≤ length s)%nat → pat !! pi = Some 42 → open_ ti (S pi) (Some pi) ti.
Proof.
  intros H Ht Hp. apply lookup_lt_Some in Hp as Hl.
  assert (∃ n, (ti ≤ n ≤ length s)%nat ∧ glob (drop pi pat) (drop n s)) as (n & Hn & Hg).
  { destruct star as [i|]; [|exists ti; cbn in H; done].
    pose proof H as (Hi & He & Hm & _ & k & Hk & Hg).
    destruct (open_here _ _ _ _ k H) as [H1 H2]; [lia..|done|]. exists (k + (ti - m))%nat. split; [lia|done]. }
  rewrite (drop_S _ _ _ Hp) in Hg. apply glob_star_inv in Hg as (k & Hk & Hg).
  rewrite drop_drop in Hg. rewrite length_drop in Hk.
  cbn [open_]. split_and!; [lia..| |exists (n + k)%nat; split; [lia|done]].
  by replace (S pi - S pi)%nat with 0%nat by lia.
Qed.

(** Where the text and the pattern disagree there is no match. *)
Definition disagree (ti pi : nat) : Prop :=
  ∃ c, s !! ti = Some c ∧ ∀ p, pat !! pi = Some p → p ≠ 63 ∧ p ≠ c ∧ p ≠ 42.

Lemma disagree_glob ti pi : disagree ti pi → ¬ glob (drop pi pat) (drop ti s).
Proof.
  intros (c & Hs & Hp) H. rewrite (drop_S _ _ _ Hs) in H. destruct (pat !! pi) as [p|] eqn:E.
  - destruct (Hp p eq_refl) as (? & ? & ?). rewrite (drop_S _ _ _ E) in H.
    apply glob_one_inv in H as (d & s' & [= <- <-] & _ & []); done.
  - rewrite (drop_ge pat) in H by (by apply lookup_ge_None). by apply glob_nil_inv in H.
Qed.

Lemma open_back ti pi i m :
  open_ ti pi (Some i) m → (pi ≤ length pat)%nat → disagree ti pi → open_ (S m) (S i) (Some i) (S m).
Proof.
  intros H Hp Hd. pose proof H as (Hi & He & Hm & Hf & k & Hk & Hg).
  destruct (decide (k = m)) as [->|Hne].
  { destruct (open_here _ _ _ _ m H) as [_ H2]; [lia..|done|].
    replace (m + (ti - m))%nat with ti in H2 by lia. by apply disagree_glob in H2. }
  cbn [open_]. split_and!; [lia..| |exists k; split; [lia|done]].
  by replace (S i - S i)%nat with 0%nat by lia.
Qed.

Lemma open_end ti pi star m :
  open_ ti pi star m → (pi ≤ length pat)%nat → ti = length s → skip_stars (drop pi pat) = [].
Proof.
  intros H Hp ->. apply glob_stars. rewrite <- (drop_ge s (length s)) by lia.
  destruct star as [i|]; [|done]. pose proof H as (Hi & He & Hm & _ & k & Hk & Hg).
  destruct (open_here _ _ _ _ k H) as [H1 H2]; [lia..|done|].
  by replace (k + (length s - m))%nat with (length s) in H2 by lia.
Qed.

(** The loop ends: going back moves the place of the star, all else the pattern. *)
Definition measure_ (pi m : nat) : nat := (length s - m) * S (length pat) + (length pat - pi).

Lemma loop_result fuel ti pi star m :
  sound ti pi star m → (measure_ pi m < fuel)%nat →
  ∃ r, match_loop fuel pat s ti pi star m = Ok r
    ∧ (∀ k, r = Some k → glob (take k pat) s)
    ∧ (42 ∉ s → open_ ti pi star m → ∃ k, r = Some k ∧ skip_stars (drop k pat) = []).
Proof.
  revert ti pi star m. induction fuel as [|fuel IH]; intros ti pi star m Hs Hf; [lia|].
  pose proof Hs as [H1 H2 H3 H4 H5]. cbn [match_loop].
  destruct (s !! ti) as [c|] eqn:Ec; cycle 1.
  { apply lookup_ge_None in Ec. assert (ti = length s) as Et by lia. exists (Some pi). split; [done|]. split.
    - intros ? [= <-]. rewrite <- (take_ge s ti) by lia. done.
    - intros _ Ho. exists pi. split; [done|]. by eapply open_end. }
  apply lookup_lt_Some in Ec as Hl.
  assert (disagree ti pi → ∃ r,
    match star with
    | Some i => match_loop fuel pat s (S m) (S i) star (S m)
    | None => Ok None
    end = Ok r ∧ (∀ k, r = Some k → glob (take k pat) s)
    ∧ (42 ∉ s → open_ ti pi star m → ∃ k, r = Some k ∧ skip_stars (drop k pat) = [])) as Hback.
  { intros Hd. destruct star as [i|]; cycle 1.
    { exists None. split_and!; [done|done|]. intros _ Ho. exfalso. exact (disagree_glob _ _ Hd Ho). }
    destruct (IH (S m) (S i) (Some i) (S m)) as (r & Hr & Hr1 & Hr2).
    { by eapply sound_back. }
    { unfold measure_ in *. replace (length s - m)%nat with (S (length s - S m)) in Hf by lia. lia. }
    exists r. split_and!; [done|done|]. intros Hn Ho. apply Hr2; [done|]. by eapply open_back. }
  destruct (pat !! pi) as [p|] eqn:Ep; cycle 1.
  { apply Hback. exists c. split; [done|]. by rewrite Ep. }
  apply lookup_lt_Some in Ep as Hl'. case_decide as Hc.
  { destruct (IH (S ti) (S pi) star m) as (r & Hr & Hr1 & Hr2);
      [by eapply sound_step|unfold measure_ in *; lia|]. exists r. split_and!; [done|done|].
    intros Hn Ho. apply Hr2; [done|]. eapply open_step; [done..|]. intros ->. by apply Hn, list_elem_of_lookup_2 with ti. }
  case_decide as H42.
  { subst p. destruct (IH ti (S pi) (Some pi) ti) as (r & Hr & Hr1 & Hr2).
    { by eapply sound_set. }
    { unfold measure_ in *. assert (length s - ti ≤ length s - m)%nat by lia. nia. }
    exists r. split_and!; [done|done|]. intros Hn Ho. apply Hr2; [done|]. by eapply open_set. }
  apply Hback. exists c. split; [done|]. rewrite Ep. intros ? [= <-]. tauto.
Qed.
End loop.

(** The whole match. *)
Lemma match_result pat s :
  ∃ b, matchWildcardString pat s = Ok b ∧ (b = true → glob pat s) ∧ (42 ∉ s → glob pat s → b = true).
Proof.
  unfold matchWildcardString. case_decide as H1.
  { exists true. split_and!; [done| |done]. intros _. subst pat. rewrite <- (app_nil_r s). apply glob_star, glob_nil. }
  case_decide as H2.
  { exists true. split_and!; [done| |done]. intros _. subst s. clear. induction pat as [|c p IH]; [constructor|].
    apply (glob_app [c] p [c] p); [apply glob_self|done]. }
  destruct (loop_result pat s (S (loop_fuel pat s)) 0 0 None 0) as (r & -> & Hr1 & Hr2).
  { split; [lia..|constructor|done]. }
  { unfold measure_, loop_fuel. lia. }
  rewrite bind_ok. destruct r as [k|].
  - eexists. split; [done|]. split.
    + intros Hb%bool_decide_eq_true. apply glob_stars in Hb. rewrite <- (take_drop k pat), <- (app_nil_r s).
      apply glob_app; [by apply Hr1|done].
    + intros Hn Hg. apply bool_decide_eq_true. destruct (Hr2 Hn) as (? & [= <-] & ?); done.
  - exists false. split_and!; [done|done|]. intros Hn Hg. destruct (Hr2 Hn) as (? & ? & ?); done.
Qed.
End Backtracking.
Import Backtracking.

(** ** A star in the text *)
Module Literals.

(** Up to a star in both, pattern and text go on together, and the star of the text
    hides that of the pattern. *)
Lemma star_consumed p r fuel n :
  42 ∉ p → r ≠ [] → (n ≤ S (length p))%nat → (S (length p) - n < fuel)%nat →
  match_loop fuel (p ++ [42]) (p ++ 42 :: r) n n None 0 = Ok None.
Proof.
  intros Hp Hr. revert n. induction fuel as [|fuel IH]; intros n Hn Hf; [lia|]. cbn [match_loop].
  destruct (decide (n < length p)%nat) as [Hl|Hl].
  { apply lookup_lt_is_Some in Hl as [c Hc]. apply lookup_lt_Some in Hc as Hl.
    rewrite !lookup_app_l, Hc by done. rewrite decide_True by auto. apply IH; lia. }
  destruct (decide (n = length p)) as [->|Hne].
  - rewrite !lookup_app_r, Nat.sub_diag by lia. cbn. rewrite decide_True by auto. apply IH; lia.
  - assert (n = S (length p)) as -> by lia. rewrite !lookup_app_r by lia.
    replace (S (length p) - length p)%nat with 1%nat by lia. destruct r; done.
Qed.

Lemma star_missed p r :
  p ≠ [] → 42 ∉ p → r ≠ [] → matchWildcardString (p ++ [42]) (p ++ 42 :: r) = Ok false.
Proof.
  intros Hne Hp Hr. unfold matchWildcardString. rewrite decide_False by (by destruct p as [|? []]).
  rewrite decide_False.
  - rewrite star_consumed; [done..|lia|]. unfold loop_fuel. rewrite !length_app. cbn [length]. lia.
  - intros E%app_inv_head. by injection E as <-.
Qed.
End Literals.
Import Literals.

(** ** The cache *)
Module MatcherCache.

(** The list has every pattern of the cache once. *)
Record cached (c : WildcardMatcherCache) : Prop := Cached {
  ca_max : 1 ≤ maxSize c;
  ca_size : Z.of_nat (size (matchers c)) ≤ maxSize c;
  ca_order : NoDup (accessOrder c);
  ca_dom : list_to_set (accessOrder c) = dom (matchers c);
  ca_own : ∀ p m, matchers c !! p = Some m → m = NewWildcardMatcher p }.

Lemma remove_first_perm p l : p ∈ l → l ≡ₚ p :: remove_first p l.
Proof.
  induction l as [|q l IH]; [by intros ?%elem_of_nil|]. cbn [remove_first]. case_decide as Hq; [by subst|].
  rewrite elem_of_cons. intros [->|Hl]; [done|]. rewrite (IH Hl) at 1. constructor.
Qed.

Lemma cached_new n : cached (NewWildcardMatcherCache n).
Proof.
  split; cbn.
  - case_decide; lia.
  - rewrite map_size_empty. case_decide; lia.
  - constructor.
  - by rewrite dom_empty_L.
  - intros p m. by rewrite lookup_empty.
Qed.

Lemma cached_touch c p : cached c → is_Some (matchers c !! p) → cached (updateAccessOrder p c).
Proof.
  intros [H1 H2 H3 H4 H5] Hp. assert (p ∈ accessOrder c) as Hin.
  { apply elem_of_dom in Hp. rewrite <- H4 in Hp. by apply elem_of_list_to_set in Hp. }
  assert (accessOrder c ≡ₚ remove_first p (accessOrder c) ++ [p]) as E.
  { rewrite (remove_first_perm p) at 1 by done. apply Permutation_cons_append. }
  split; cbn; [done..|by rewrite <- E| |done]. by rewrite <- E.
Qed.

Lemma cached_evict c :
  cached c → accessOrder c ≠ [] →
  cached (evictLeastRecentlyUsed c)
  ∧ Z.of_nat (size (matchers (evictLeastRecentlyUsed c))) < Z.of_nat (size (matchers c)).
Proof.
  intros [H1 H2 H3 H4 H5] Hne. unfold evictLeastRecentlyUsed. destruct (accessOrder c) as [|p l]; [done|].
  apply NoDup_cons in H3 as [Hn H3].
  assert (is_Some (matchers c !! p)) as [m Hm] by (apply elem_of_dom; rewrite <- H4; set_solver).
  assert (size (delete p (matchers c)) = size (matchers c) - 1)%nat as Es.
  { rewrite map_size_delete, Hm. lia. }
  assert (0 < size (matchers c))%nat.
  { assert (size (matchers c) ≠ 0%nat); [|lia]. intros E%map_size_empty_iff. by rewrite E, lookup_empty in Hm. }
  split; [split; cbn [matchers maxSize accessOrder]|cbn [matchers]; lia].
  - done.
  - lia.
  - done.
  - rewrite dom_delete_L, <- H4. set_solver.
  - intros q m' Hq. apply lookup_delete_Some in Hq as [_ Hq]. by apply H5.
Qed.

Lemma cached_insert c p :
  cached c → matchers c !! p = None → Z.of_nat (size (matchers c)) < maxSize c →
  cached (MkCache (<[p := NewWildcardMatcher p]> (matchers c)) (maxSize c) (accessOrder c ++ [p])).
Proof.
  intros [H1 H2 H3 H4 H5] Hp Hs. split; cbn.
  - done.
  - rewrite map_size_insert_None by done. lia.
  - apply NoDup_app. split_and!; [done| |apply NoDup_singleton].
    intros q Hq ->%list_elem_of_singleton. apply not_elem_of_dom in Hp. rewrite <- H4 in Hp. set_solver.
  - rewrite dom_insert_L, <- H4, list_to_set_app_L. set_solver.
  - intros q m. rewrite lookup_insert_Some. intros [[<- <-]|[_ Hq]]; [done|by apply H5].
Qed.

Lemma cached_get c p :
  cached c → cached (GetCachedWildcardMatcher p c).1 ∧ (GetCachedWildcardMatcher p c).2 = NewWildcardMatcher p.
Proof.
  intros H. unfold GetCachedWildcardMatcher, add_locked. destruct (matchers c !! p) as [m|] eqn:Hm; cbn [fst snd].
  { split; [by apply cached_touch|by eapply ca_own]. }
  split; [|done]. case_decide as Hs; cycle 1.
  { apply cached_insert; [done|done|lia]. }
  destruct (cached_evict c H) as [He Hlt].
  { intros E. pose proof (ca_dom c H) as Hd. rewrite E in Hd. symmetry in Hd. apply dom_empty_inv_L in Hd.
    rewrite Hd, map_size_empty in Hs. pose proof (ca_max c H). lia. }
  assert (maxSize (evictLeastRecentlyUsed c) = maxSize c) as Em.
  { unfold evictLeastRecentlyUsed. by destruct (accessOrder c). }
  apply cached_insert; [done| |pose proof (ca_size c H); lia].
  unfold evictLeastRecentlyUsed. destruct (accessOrder c); [done|]. cbn. by apply lookup_delete_None; right.
Qed.

(** Calls one after the other. *)
Inductive call := Fast (p s : bytes) | Clear.
Definition answer (c : call) : option (res bool) :=
  match c with Fast p s => Some (MatchesWildcard p s) | Clear => None end.
Definition run_call (k : call) (c : WildcardMatcherCache) : WildcardMatcherCache * option (res bool) :=
  match k with
  | Fast p s => let '(c, b) := FastMatchesWildcard p s c in (c, Some b)
  | Clear => (ClearCache c, None)
  end.
Fixpoint run_calls (ks : list call) (c : WildcardMatcherCache) : WildcardMatcherCache * list (option (res bool)) :=
  match ks with
  | [] => (c, [])
  | k :: ks => let '(c, b) := run_call k c in let '(c, bs) := run_calls ks c in (c, b :: bs)
  end.

Lemma run_calls_cached ks c : cached c → cached (run_calls ks c).1 ∧ (run_calls ks c).2 = answer <$> ks.
Proof.
  revert c. induction ks as [|k ks IH]; intros c H; [done|]. cbn [run_calls].
  assert (cached (run_call k c).1 ∧ (run_call k c).2 = answer k) as [Hc Ha].
  { destruct k as [p s|]; cbn [run_call].
    - unfold FastMatchesWildcard. destruct (cached_get c p H) as [Hg Em].
      destruct (GetCachedWildcardMatcher p c) as [c' m]. cbn in *. by subst.
    - cbn. split; [|done]. split; cbn; [apply H| |constructor|by rewrite dom_empty_L|intros ? ?; by rewrite lookup_empty].
      rewrite map_size_empty. pose proof (ca_max c H). lia. }
  destruct (run_call k c) as [c' b]. cbn in *. destruct (IH c' Hc) as [H1 H2].
  destruct (run_calls ks c') as [c'' bs]. cbn in *. by subst.
Qed.
End MatcherCache.
Import MatcherCache.

Module WildcardClaims.

(** C30: Wildcard matching always ends.  What it accepts is what the pattern means,
    and on texts without a star of their own it accepts all of it. *)
Theorem wildcard_meaning pat s :
  ∃ b, matchWildcardString pat s = Ok b ∧ (b = true → glob pat s) ∧ (42 ∉ s → glob pat s → b = true).
Proof. apply match_result. Qed.

(** C31: A star in the text at the place of the star in the pattern is taken
    literally: a prefix pattern does not match such a text although it means to. *)
Theorem wildcard_star_missed p r :
  p ≠ [] → 42 ∉ p → 63 ∉ p → r ≠ [] →
  glob (p ++ [42]) (p ++ 42 :: r) ∧ matchWildcardString (p ++ [42]) (p ++ 42 :: r) = Ok false.
Proof.
  intros Hne H1 H2 Hr. split; [|by apply star_missed]. apply glob_app.
  - clear Hne. induction p as [|c p IH]; [constructor|]. constructor; set_solver.
  - rewrite <- (app_nil_r (42 :: r)). apply glob_star, glob_nil.
Qed.

(** The cache is transparent: any sequence of matches and clearings answers as
    matching without a cache does, keeps at most [maxSize] matchers, and lists each of
    them once. *)
Theorem cache_transparent n ks :
  let '(c, answers) := run_calls ks (NewWildcardMatcherCache n) in
  answers = answer <$> ks ∧ cached c.
Proof.
  destruct (run_calls_cached ks _ (cached_new n)) as [H1 H2].
  destruct (run_calls ks (NewWildcardMatcherCache n)). cbn in *. done.
Qed.

Lemma wildcard_star_missed_witness :
  glob (str "private" ++ [42]) (str "private" ++ 42 :: str "x")
  ∧ matchWildcardString (str "private" ++ [42]) (str "private" ++ 42 :: str "x") = Ok false.
Proof. apply (wildcard_star_missed (str "private") (str "x")); decided. Defined.

Example some_matches :
  matchWildcardString (str "a*b?c") (str "aXXbYbZc") = Ok true
  ∧ matchWildcardString (str "a*b?c") (str "aXXbYbZd") = Ok false
  ∧ matchWildcardString (str "**") [] = Ok true.
Proof. vm_compute. repeat split; reflexivity. Qed.

(** When a hit is entered into the list after its pattern was evicted, the list has a
    pattern that the cache has not, and a later eviction frees nothing. *)
Example late_touch_grows :
  let c := NewWildcardMatcherCache 1 in
  let c := (add_locked (str "a") c).1 in
  (* a call finds a and lets go of the lock *)
  let c := (add_locked (str "b") c).1 in
  let c := updateAccessOrder (str "a") c in
  let c := (add_locked (str "c") c).1 in
  let c := (add_locked (str "d") c).1 in
  GetCacheStats c = (2, 1).
Proof. vm_compute. reflexivity. Qed.
End WildcardClaims.
