(* ===== verification/GoMd5.v ===== *)
(** * GoMd5: [crypto/md5] and [util.HashStringToLong]

    The digest as RFC 1321 gives it, on byte strings, and the 64-bit number that
    weed/util/bytes.go makes of its first eight bytes. *)

From S2P Require Import Prelude GoStd.

Module Md5.

Definition shifts (i : nat) : Z :=
  nth (i mod 4) (nth (i / 16) [[7; 12; 17; 22]; [5; 9; 14; 20]; [4; 11; 16; 23]; [6; 10; 15; 21]] []) 0.

Definition sines : list Z :=
  [3614090360; 3905402710; 606105819; 3250441966; 4118548399; 1200080426; 2821735955; 4249261313;
   1770035416; 2336552879; 4294925233; 2304563134; 1804603682; 4254626195; 2792965006; 1236535329;
   4129170786; 3225465664; 643717713; 3921069994; 3593408605; 38016083; 3634488961; 3889429448;
   568446438; 3275163606; 4107603335; 1163531501; 2850285829; 4243563512; 1735328473; 2368359562;
   4294588738; 2272392833; 1839030562; 4259657740; 2763975236; 1272893353; 4139469664; 3200236656;
   681279174; 3936430074; 3572445317; 76029189; 3654602809; 3873151461; 530742520; 3299628645;
   4096336452; 1126891415; 2878612391; 4237533241; 1700485571; 2399980690; 4293915773; 2240044497;
   1873313359; 4264355552; 2734768916; 1309151649; 4149444226; 3174756917; 718787259; 3951481745].

Definition not32 (x : Z) : Z := 4294967295 - x.
Definition rotl (x n : Z) : Z := Z.lor (u32 (Z.shiftl x n)) (Z.shiftr x (32 - n)).

(** Little-endian words. *)
Definition le32 (x : Z) : bytes :=
  (λ i, Z.land (Z.shiftr x (8 * Z.of_nat i)) 255) <$> seq 0 4.
Fixpoint words (b : bytes) : list Z :=
  match b with
  | b0 :: b1 :: b2 :: b3 :: b => (b0 + 256 * b1 + 65536 * b2 + 16777216 * b3) :: words b
  | _ => []
  end.

Definition state : Type := Z * Z * Z * Z.

Definition round (m : list Z) (st : state) (i : nat) : state :=
  let '(a, b, c, d) := st in
  let '(f, g) :=
    match (i / 16)%nat with
    | 0%nat => (Z.lor (Z.land b c) (Z.land (not32 b) d), i)
    | 1%nat => (Z.lor (Z.land d b) (Z.land (not32 d) c), (5 * i + 1) mod 16)%nat
    | 2%nat => (Z.lxor b (Z.lxor c d), (3 * i + 5) mod 16)%nat
    | _ => (Z.lxor c (Z.lor b (not32 d)), (7 * i) mod 16)%nat
    end in
  let f := u32 (f + a + nth i sines 0 + nth g m 0) in
  (d, u32 (b + rotl f (shifts i)), b, c).

Definition block (st : state) (m : list Z) : state :=
  let '(a, b, c, d) := st in
  let '(a', b', c', d') := foldl (round m) st (seq 0 64) in
  (u32 (a + a'), u32 (b + b'), u32 (c + c'), u32 (d + d')).

Definition pad (s : bytes) : bytes :=
  s ++ 128 :: replicate (Z.to_nat ((55 - zlen s) mod 64)) 0
    ++ le32 (u32 (8 * zlen s)) ++ le32 (u32 (Z.shiftr (8 * zlen s) 32)).

Fixpoint blocks (fuel : nat) (st : state) (ws : list Z) : state :=
  match fuel, ws with
  | S fuel, _ :: _ => blocks fuel (block st (take 16 ws)) (drop 16 ws)
  | _, _ => st
  end.

Definition Sum (s : bytes) : bytes :=
  let ws := words (pad s) in
  let '(a, b, c, d) := blocks (length ws) (1732584193, 4023233417, 2562383102, 271733878) ws in
  le32 a ++ le32 b ++ le32 c ++ le32 d.

Example sum_vectors :
  Sum [] = [212; 29; 140; 217; 143; 0; 178; 4; 233; 128; 9; 152; 236; 248; 66; 126]
  ∧ Sum (str "abc") = [144; 1; 80; 152; 60; 210; 79; 176; 214; 150; 63; 125; 40; 225; 127; 114].
Proof. vm_compute. split; reflexivity. Qed.

(** Two blocks. *)
Example sum_long :
  Sum (str "12345678901234567890123456789012345678901234567890123456789012345678901234567890")
  = [87; 237; 244; 162; 43; 227; 201; 85; 172; 73; 218; 46; 33; 7; 182; 122].
Proof. vm_compute. reflexivity. Qed.

(** The sum of the first eight bytes, each after a shift of the others. *)
Definition HashStringToLong (dir : bytes) : Z :=
  foldl (λ v b, s64 (s64 (v * 256) + b)) 0 (take 8 (Sum dir)).

Lemma hash_range dir : in_s 64 (HashStringToLong dir).
Proof.
  unfold HashStringToLong. generalize (take 8 (Sum dir)) as l. intros l.
  destruct l as [|b l _] using rev_ind; [done|]. rewrite foldl_snoc. apply swrap_range. lia.
Qed.
End Md5.
