(* ===== verification/LockManager.v ===== *)
(** * LockManager: the locks of weed/cluster/lock_manager

    A [LockManager] hands out named locks until a time; [LockRing] is the list of the
    servers that keep locks, and [DistributedLockManager] asks the manager of a server
    only for the keys that the ring gives to it.  The clock ([now], in nanoseconds) and
    the new UUID ([fresh]) are arguments. *)

From S2P Require Import Prelude GoStd GoText GoMd5.
Import SortStrings.

Module LockManager.

Definition LockErrorNonEmptyTokenOnNewLock := Errorf "lock: non-empty token on a new lock".
Definition LockErrorNonEmptyTokenOnExpiredLock := Errorf "lock: non-empty token on an expired lock".
Definition UnlockErrorTokenMismatch := Errorf "unlock: token mismatch".
Definition LockNotFound := Errorf "lock not found".

Record Lock := MkLock { Token : bytes; ExpiredAtNs : Z; Key : bytes; Owner : bytes }.
#[global] Instance lock_eq_dec : EqDecision Lock.
Proof. solve_decision. Defined.

Abbreviation locks := (gmap bytes Lock).

Definition expired (now : Z) (l : Lock) : Prop := 0 < ExpiredAtNs l ∧ ExpiredAtNs l < now.
#[global] Instance expired_dec now l : Decision (expired now l).
Proof. unfold expired. apply _. Defined.

(** The results are [lockOwner], [renewToken] and [err]. *)
Definition Lock_ (now : Z) (fresh : bytes) (path : bytes) (expiredAtNs : Z) (token owner : bytes)
    (lm : locks) : locks * (bytes * bytes * option go_error) :=
  let new := <[path := MkLock fresh expiredAtNs [] owner]> lm in
  match lm !! path with
  | Some oldValue =>
      if decide (expired now oldValue) then
        if decide (token ≠ []) then (lm, ([], [], Some LockErrorNonEmptyTokenOnExpiredLock))
        else (new, ([], fresh, None))
      else
        let lockOwner := Owner oldValue in
        if decide (Token oldValue = token) then (new, (lockOwner, fresh, None))
        else if decide (token = []) then (lm, (lockOwner, [], Some (Errorf "lock already owned by %v")))
        else (lm, (lockOwner, [], Some (Errorf "lock: token mismatch")))
  | None =>
      if decide (token = []) then (new, ([], fresh, None))
      else (lm, ([], [], Some LockErrorNonEmptyTokenOnNewLock))
  end.

Definition Unlock (now : Z) (path token : bytes) (lm : locks) : locks * (bool * option go_error) :=
  match lm !! path with
  | Some oldValue =>
      if decide (expired now oldValue) then (delete path lm, (true, None))
      else if decide (Token oldValue = token) then (delete path lm, (true, None))
      else (lm, (false, Some UnlockErrorTokenMismatch))
  | None => (lm, (false, Some LockNotFound))
  end.

(** One pass of the loop that runs every minute. *)
Definition CleanUp (now : Z) (lm : locks) : locks := filter (λ kv, ¬ ExpiredAtNs kv.2 < now) lm.

(** [order] is the order in which the map is visited. *)
Fixpoint select_loop (now : Z) (selectFn : bytes → res bool) (order : list bytes) (lm : locks)
    (taken : list Lock) : locks * res (list Lock) :=
  match order with
  | [] => (lm, Ok taken)
  | key :: order =>
      match lm !! key with
      | None => select_loop now selectFn order lm taken
      | Some lock =>
          if decide (ExpiredAtNs lock < now) then select_loop now selectFn order (delete key lm) taken
          else
            match selectFn key with
            | Ok true =>
                select_loop now selectFn order (delete key lm)
                  (taken ++ [MkLock (Token lock) (ExpiredAtNs lock) key (Owner lock)])
            | Ok false => select_loop now selectFn order lm taken
            | Fail e => (lm, Fail e)
            | Panic => (lm, Panic)
            end
      end
  end.

Definition SelectLocks (now : Z) (selectFn : bytes → res bool) (order : list bytes) (lm : locks) :
    locks * res (list Lock) := select_loop now selectFn order lm [].

Definition InsertLock (path : bytes) (expiredAtNs : Z) (token owner : bytes) (lm : locks) : locks :=
  <[path := MkLock token expiredAtNs [] owner]> lm.

Definition GetLockOwner (key : bytes) (lm : locks) : res bytes :=
  match lm !! key with
  | Some lock => Ok (Owner lock)
  | None => Fail LockNotFound
  end.

End LockManager.

(** ** The ring of servers *)
Module LockRing.
Import Md5.

(** [servers] is [None] for a nil slice. *)
Record LockRingSnapshot := MkSnapshot { servers : option (list bytes); ts : Z }.

Record LockRing := MkRing {
  snapshots : list LockRingSnapshot; candidateServers : gset bytes;
  lastUpdateTime : Z; lastCompactTime : Z; snapshotInterval : Z }.

Definition NewLockRing (interval : Z) : LockRing := MkRing [] ∅ 0 0 interval.

Definition getSortedServers (r : LockRing) : list bytes := Strings (elements (candidateServers r)).

(** The new snapshot comes first; the callback is told its servers by the caller of
    these definitions. *)
Definition addOneSnapshot (now : Z) (ss : option (list bytes)) (r : LockRing) : LockRing :=
  MkRing (MkSnapshot ss now :: snapshots r) (candidateServers r) (lastUpdateTime r) (lastCompactTime r)
    (snapshotInterval r).

Definition doTakeSnapshot (now : Z) (r : LockRing) : LockRing := addOneSnapshot now (Some (getSortedServers r)) r.

Definition with_candidates (now : Z) (c : gset bytes) (r : LockRing) : LockRing :=
  MkRing (snapshots r) c now (lastCompactTime r) (snapshotInterval r).

Definition AddServer (now : Z) (server : bytes) (r : LockRing) : LockRing :=
  if decide (server ∈ candidateServers r) then r
  else doTakeSnapshot now (with_candidates now ({[server]} ∪ candidateServers r) r).

Definition RemoveServer (now : Z) (server : bytes) (r : LockRing) : LockRing :=
  if decide (server ∉ candidateServers r) then r
  else doTakeSnapshot now (with_candidates now (candidateServers r ∖ {[server]}) r).

Definition SetSnapshot (now : Z) (ss : option (list bytes)) (r : LockRing) : LockRing :=
  let ss := Strings <$> ss in
  addOneSnapshot now ss (with_candidates now (list_to_set (default [] ss) ∪ candidateServers r) r).

(** The index of the first snapshot after the newest that is older than the interval. *)
Fixpoint recent_index (now interval : Z) (i : nat) (rest : list LockRingSnapshot) : nat :=
  match rest with
  | [] => i
  | s :: rest => if decide (interval < now - ts s) then i else recent_index now interval (S i) rest
  end.

(** What the delayed goroutine does. *)
Definition compactSnapshots (now : Z) (r : LockRing) : LockRing :=
  let i := recent_index now (snapshotInterval r) 1 (drop 1 (snapshots r)) in
  let ss := if decide (i + 1 ≤ length (snapshots r))%nat then take (i + 1) (snapshots r) else snapshots r in
  MkRing ss (candidateServers r) (lastUpdateTime r) now (snapshotInterval r).

Definition GetSnapshot (r : LockRing) : option (list bytes) :=
  match snapshots r with [] => None | s :: _ => servers s end.

Definition GetSnapshotCount (r : LockRing) : Z := zlen (snapshots r).

Definition hashKeyToServer (key : bytes) (ss : list bytes) : res bytes :=
  if decide (zlen ss = 0) then Ok []
  else
    let x := HashStringToLong key in
    let x := if decide (x < 0) then s64 (- x) else x in
    let x := Z.rem x (zlen ss) in
    if decide (x < 0) then Panic
    else match ss !! Z.to_nat x with Some s => Ok s | None => Panic end.
End LockRing.

(** ** The locks of a server *)
Module Dlm.
Import LockManager LockRing.

Definition RenewInterval : Z := 3 * 1000000000.
Definition LiveLockTTL : Z := 7 * 1000000000.
Definition NoLockServerError := Errorf "no lock server found".

Record DistributedLockManager := MkDlm { lockManager : locks; Ring : LockRing; Host : bytes }.

Definition NewDistributedLockManager (host : bytes) : DistributedLockManager :=
  MkDlm ∅ (NewLockRing (5 * 1000000000)) host.

Definition with_locks (lm : locks) (d : DistributedLockManager) : DistributedLockManager :=
  MkDlm lm (Ring d) (Host d).

Definition findLockOwningFiler (key : bytes) (d : DistributedLockManager) : res bytes :=
  match GetSnapshot (Ring d) with
  | None => Fail NoLockServerError
  | Some ss => hashKeyToServer key ss
  end.

(** The results are [lockOwner], [renewToken], [movedTo] and [err]. *)
Definition LockWithTimeout (now : Z) (fresh key : bytes) (expiredAtNs : Z) (token owner : bytes)
    (d : DistributedLockManager) : DistributedLockManager * res (bytes * bytes * bytes * option go_error) :=
  match findLockOwningFiler key d with
  | Panic => (d, Panic)
  | Fail e => (d, Ok ([], [], [], Some e))
  | Ok movedTo =>
      if decide (movedTo ≠ Host d) then (d, Ok ([], [], movedTo, None))
      else
        let '(lm, (lockOwner, renewToken, err)) := Lock_ now fresh key expiredAtNs token owner (lockManager d) in
        (with_locks lm d, Ok (lockOwner, renewToken, movedTo, err))
  end.

Definition FindLockOwner (key : bytes) (d : DistributedLockManager) : res (bytes * bytes * option go_error) :=
  match findLockOwningFiler key d with
  | Panic => Panic
  | Fail e => Ok ([], [], Some e)
  | Ok movedTo =>
      if decide (movedTo ≠ Host d) then Ok ([], movedTo, None)
      else match GetLockOwner key (lockManager d) with
           | Ok owner => Ok (owner, movedTo, None)
           | Fail e => Ok ([], movedTo, Some e)
           | Panic => Panic
           end
  end.

Definition Unlock (now : Z) (key token : bytes) (d : DistributedLockManager) :
    DistributedLockManager * res (bytes * option go_error) :=
  match GetSnapshot (Ring d) with
  | None => (d, Ok ([], Some NoLockServerError))
  | Some ss =>
      match hashKeyToServer key ss with
      | Ok server =>
          if decide (server ≠ Host d) then (d, Ok (server, None))
          else let '(lm, (_, err)) := LockManager.Unlock now key token (lockManager d) in
               (with_locks lm d, Ok ([], err))
      | _ => (d, Panic)
      end
  end.

Definition InsertLock (key : bytes) (expiredAtNs : Z) (token owner : bytes) (d : DistributedLockManager) :=
  with_locks (LockManager.InsertLock key expiredAtNs token owner (lockManager d)) d.

Definition SelectNotOwnedLocks (now : Z) (ss : list bytes) (order : list bytes) (d : DistributedLockManager) :
    DistributedLockManager * res (list Lock) :=
  let '(lm, taken) :=
    SelectLocks now (λ key, s ← hashKeyToServer key ss; mret (bool_decide (s ≠ Host d))) order (lockManager d) in
  (with_locks lm d, taken).

Definition CalculateTargetServer (key : bytes) (ss : list bytes) : res bytes := hashKeyToServer key ss.

(** The handler of the filer for locks that another server hands over; [Key] is the
    name of the lock in the request. *)
Definition TransferLocks (req : list Lock) (d : DistributedLockManager) : DistributedLockManager :=
  foldl (λ d lock, InsertLock (Key lock) (ExpiredAtNs lock) (Token lock) (Owner lock) d) d req.

(** The transfers that the filer sends when its ring becomes [ss]: to whom, and the
    lock. *)
Fixpoint transfers (ss : list bytes) (taken : list Lock) : res (list (bytes * Lock)) :=
  match taken with
  | [] => Ok []
  | lock :: taken =>
      server ← CalculateTargetServer (Key lock) ss;
      rest ← transfers ss taken;
      mret ((server, lock) :: rest)
  end.
Definition OnDlmChangeSnapshot (now : Z) (ss : list bytes) (order : list bytes) (d : DistributedLockManager) :
    DistributedLockManager * res (list (bytes * Lock)) :=
  let '(d, taken) := SelectNotOwnedLocks now ss order d in (d, taken ≫= transfers ss).

Definition IsLocal (key : bytes) (d : DistributedLockManager) : res bool :=
  let ss := default [] (GetSnapshot (Ring d)) in
  if decide (zlen ss ≤ 1) then Ok true
  else s ← hashKeyToServer key ss; mret (bool_decide (s = Host d)).
End Dlm.
