(* ===== verification/LockManagerSpec.v ===== *)
(** * LockManagerSpec: who holds a lock

    [Holding]: a lock that has not run out stays with its token whatever else is asked
    of its manager.  [Cluster]: servers that agree on the ring send every request for a
    key to one of them.  [LockClaims]: exclusion in a cluster, that a lock is free again
    after its time, and what a change of the ring hands over. *)

From S2P Require Import Prelude GoStd GoText GoMd5 LockManager.
Import LockManager LockRing.

(** ** One manager *)
Module Holding.

Inductive request :=
  | RLock (now : Z) (fresh path : bytes) (exp : Z) (token owner : bytes)
  | RUnlock (now : Z) (path token : bytes)
  | RCleanUp (now : Z)
  | RSelect (now : Z) (selectFn : bytes → res bool) (order : list bytes)
  | RInsert (path : bytes) (exp : Z) (token owner : bytes).

(** The manager after a request. *)
Definition handle (r : request) (lm : locks) : locks :=
  match r with
  | RLock now fresh path exp token owner => (Lock_ now fresh path exp token owner lm).1
  | RUnlock now path token => (Unlock now path token lm).1
  | RCleanUp now => CleanUp now lm
  | RSelect now sel order => (SelectLocks now sel order lm).1
  | RInsert path exp token owner => InsertLock path exp token owner lm
  end.

(** Requests that do not have the token of a lock on [p], made before it runs out. *)
Definition quiet (p token : bytes) (until : Z) (r : request) : Prop :=
  match r with
  | RLock now _ q _ t _ => q = p → now ≤ until ∧ t ≠ token
  | RUnlock now q t => q = p → now ≤ until ∧ t ≠ token
  | RCleanUp now => now ≤ until
  | RSelect now sel _ => now ≤ until ∧ sel p = Ok false
  | RInsert q _ _ _ => q ≠ p
  end.

Lemma select_keeps now sel order lm taken p l :
  lm !! p = Some l → now ≤ ExpiredAtNs l → sel p = Ok false → (select_loop now sel order lm taken).1 !! p = Some l.
Proof.
  intros Hp Hn Hs. revert lm taken Hp. induction order as [|k order IH]; intros lm taken Hp; [done|].
  cbn [select_loop]. destruct (lm !! k) as [lk|] eqn:Hk; [|by apply IH].
  destruct (decide (k = p)) as [->|Hne].
  - rewrite Hp in Hk. injection Hk as <-. rewrite decide_False by lia. rewrite Hs. by apply IH.
  - assert (delete k lm !! p = Some l) by (by rewrite lookup_delete_ne).
    case_decide; [by apply IH|]. destruct (sel k) as [[]| |]; auto.
Qed.

Lemma lock_refused now fresh p exp token owner lm l :
  lm !! p = Some l → ¬ expired now l → token ≠ Token l →
  ∃ e, Lock_ now fresh p exp token owner lm = (lm, (Owner l, [], Some e)).
Proof.
  intros Hp He Ht. unfold Lock_. rewrite Hp, decide_False by done. rewrite decide_False by done.
  case_decide; eauto.
Qed.

Lemma lock_other now fresh q exp token owner lm p :
  q ≠ p → (Lock_ now fresh q exp token owner lm).1 !! p = lm !! p.
Proof.
  intros Hq. unfold Lock_. repeat case_match; cbn; try done; by rewrite lookup_insert_ne.
Qed.

Lemma unlock_other now q token lm p : q ≠ p → (Unlock now q token lm).1 !! p = lm !! p.
Proof. intros Hq. unfold Unlock. repeat case_match; cbn; try done; by rewrite lookup_delete_ne. Qed.

Lemma quiet_keeps r lm p l :
  lm !! p = Some l → quiet p (Token l) (ExpiredAtNs l) r → handle r lm !! p = Some l.
Proof.
  intros Hp Hq. destruct r as [now fresh q exp t o|now q t|now|now sel order|q exp t o]; cbn [handle quiet] in *.
  - destruct (decide (q = p)) as [->|Hne]; [|by rewrite lock_other].
    destruct (Hq eq_refl) as [Hn Ht].
    destruct (lock_refused now fresh p exp t o lm l) as [e ->]; [done|unfold expired; lia|done|done].
  - destruct (decide (q = p)) as [->|Hne]; [|by rewrite unlock_other].
    destruct (Hq eq_refl) as [Hn Ht]. unfold Unlock. rewrite Hp, decide_False by (unfold expired; lia).
    by rewrite decide_False.
  - unfold CleanUp. apply map_lookup_filter_Some. split; [done|]. cbn. lia.
  - destruct Hq. by apply select_keeps.
  - unfold InsertLock. by rewrite lookup_insert_ne.
Qed.

(** A grant puts the new token into the map. *)
Lemma lock_granted now fresh p exp token owner lm lm' o t :
  Lock_ now fresh p exp token owner lm = (lm', (o, t, None)) → 
  t = fresh ∧ lm' = <[p := MkLock fresh exp [] owner]> lm.
Proof. unfold Lock_. intros H. repeat case_match; simplify_eq; done. Qed.

Lemma lock_not_granted now fresh p exp token owner lm lm' o t e :
  Lock_ now fresh p exp token owner lm = (lm', (o, t, Some e)) → t = [] ∧ lm' = lm.
Proof. unfold Lock_. intros H. repeat case_match; simplify_eq; done. Qed.

(** The holder renews. *)
Lemma lock_renewed now fresh p exp owner lm l :
  lm !! p = Some l → ¬ expired now l →
  Lock_ now fresh p exp (Token l) owner lm = (<[p := MkLock fresh exp [] owner]> lm, (Owner l, fresh, None)).
Proof. intros Hp He. unfold Lock_. rewrite Hp, decide_False by done. by rewrite decide_True. Qed.

(** ** Times *)

(** The requests about [p] ask for times that satisfy [P]. *)
Definition asks (P : Z → Prop) (p : bytes) (r : request) : Prop :=
  match r with
  | RLock _ _ q exp _ _ => q = p → P exp
  | RInsert q exp _ _ => q = p → P exp
  | _ => True
  end.

Definition ends (P : Z → Prop) (p : bytes) (lm : locks) : Prop :=
  ∀ l, lm !! p = Some l → P (ExpiredAtNs l).

Lemma select_from now sel order lm taken p l :
  (select_loop now sel order lm taken).1 !! p = Some l → lm !! p = Some l.
Proof.
  revert lm taken. induction order as [|k order IH]; intros lm taken H; [done|]. cbn [select_loop] in H.
  destruct (lm !! k) as [lk|]; [|by eapply IH].
  assert (delete k lm !! p = Some l → lm !! p = Some l) as Hd by (intros [_ ?]%lookup_delete_Some; done).
  case_decide; [by apply IH in H; auto|]. destruct (sel k) as [[]| |]; cbn in H; eauto.
Qed.

Lemma handle_ends P r lm p : ends P p lm → asks P p r → ends P p (handle r lm).
Proof.
  intros H Hb l Hl. destruct r as [now fresh q exp t o|now q t|now|now sel order|q exp t o]; cbn [handle asks] in *.
  - destruct (decide (q = p)) as [->|Hne]; [|rewrite lock_other in Hl by done; by apply H].
    unfold Lock_ in Hl. repeat case_match; cbn in Hl; try (rewrite lookup_insert_eq in Hl; injection Hl as <-; by apply Hb);
      by apply H.
  - unfold Unlock in Hl. repeat case_match; cbn in Hl; try (apply lookup_delete_Some in Hl as [_ Hl]); by apply H.
  - unfold CleanUp in Hl. apply map_lookup_filter_Some in Hl as [Hl _]. by apply H.
  - apply select_from in Hl. by apply H.
  - unfold InsertLock in Hl. apply lookup_insert_Some in Hl as [[-> <-]|[_ Hl]]; [by apply Hb|by apply H].
Qed.

Lemma foldl_ends P rs lm p : ends P p lm → Forall (asks P p) rs → ends P p (foldl (λ lm r, handle r lm) lm rs).
Proof.
  intros H Hr. revert lm H. induction Hr as [|r rs Hr _ IH]; intros lm H; [done|]. cbn. by apply IH, handle_ends.
Qed.
End Holding.
Import Holding.

(** ** Servers with one ring *)
Module Cluster.
Import Dlm.

Inductive message :=
  | MLock (host : bytes) (now : Z) (fresh key : bytes) (exp : Z) (token owner : bytes)
  | MUnlock (host : bytes) (now : Z) (key token : bytes)
  | MCleanUp (host : bytes) (now : Z)
  | MTransfer (host : bytes) (req : list Lock)
  | MChange (host : bytes) (now : Z) (order : list bytes).
Definition host_of (m : message) : bytes :=
  match m with
  | MLock h _ _ _ _ _ _ => h | MUnlock h _ _ _ => h | MCleanUp h _ => h | MTransfer h _ => h | MChange h _ _ => h
  end.

Abbreviation cluster := (gmap bytes DistributedLockManager).

(** A server and its reply to a message.  [MChange] announces the ring the server has
    already; the transfers it sends for it are messages of their own. *)
Definition serve (m : message) (d : DistributedLockManager) :
    DistributedLockManager * option (res (bytes * bytes * bytes * option go_error)) :=
  match m with
  | MLock _ now fresh key exp token owner =>
      let '(d, r) := LockWithTimeout now fresh key exp token owner d in (d, Some r)
  | MUnlock _ now key token => ((Dlm.Unlock now key token d).1, None)
  | MCleanUp _ now => (with_locks (CleanUp now (lockManager d)) d, None)
  | MTransfer _ req => (TransferLocks req d, None)
  | MChange _ now order => ((OnDlmChangeSnapshot now (default [] (GetSnapshot (Ring d))) order d).1, None)
  end.
Definition send (m : message) (cl : cluster) :
    cluster * option (res (bytes * bytes * bytes * option go_error)) :=
  match cl !! host_of m with
  | None => (cl, None)
  | Some d => let '(d, r) := serve m d in (<[host_of m := d]> cl, r)
  end.
Definition token_of (r : option (res (bytes * bytes * bytes * option go_error))) : bytes :=
  match r with Some (Ok (_, t, _, _)) => t | _ => [] end.

(** Every server knows itself and has the same ring. *)
Definition agree (ss : list bytes) (cl : cluster) : Prop :=
  map_Forall (λ h d, Host d = h ∧ GetSnapshot (Ring d) = Some ss) cl.

(** The messages without the token of the lock on [p], and without a transfer of it. *)
Definition mquiet (p token : bytes) (until : Z) (m : message) : Prop :=
  match m with
  | MLock _ now _ q _ t _ => q = p → now ≤ until ∧ t ≠ token
  | MUnlock _ now q t => q = p → now ≤ until ∧ t ≠ token
  | MCleanUp _ now => now ≤ until
  | MTransfer _ req => Forall (λ l, Key l ≠ p) req
  | MChange _ now _ => now ≤ until
  end.

Definition keeps (cl : cluster) (h p : bytes) (l : Lock) : Prop :=
  ∃ d, cl !! h = Some d ∧ lockManager d !! p = Some l.

Lemma transfer_spec req d :
  let d' := TransferLocks req d in
  Host d' = Host d ∧ Ring d' = Ring d
  ∧ ∀ p, Forall (λ l, Key l ≠ p) req → lockManager d' !! p = lockManager d !! p.
Proof.
  revert d. induction req as [|l req IH]; intros d; [done|].
  destruct (IH (InsertLock (Key l) (ExpiredAtNs l) (Token l) (Owner l) d)) as (E1 & E2 & H).
  change (TransferLocks (l :: req) d)
    with (TransferLocks req (InsertLock (Key l) (ExpiredAtNs l) (Token l) (Owner l) d)).
  intros d'. subst d'. rewrite E1, E2. split_and!; [done|done|].
  intros p [Hl Hr]%Forall_cons. cbn in H. rewrite H by done. unfold LockManager.InsertLock. by rewrite lookup_insert_ne.
Qed.

Lemma change_locks now ss order d :
  (OnDlmChangeSnapshot now ss order d).1
  = with_locks (SelectLocks now (λ key, s ← hashKeyToServer key ss; mret (bool_decide (s ≠ Host d))) order
      (lockManager d)).1 d.
Proof. unfold OnDlmChangeSnapshot, SelectNotOwnedLocks. by destruct (SelectLocks _ _ _ _). Qed.

Lemma serve_same m d : Host (serve m d).1 = Host d ∧ Ring (serve m d).1 = Ring d.
Proof.
  destruct m as [h now fresh q exp t o|h now q t|h now|h req|h now order]; cbn [serve fst].
  - unfold LockWithTimeout. repeat case_match; simplify_eq; done.
  - unfold Dlm.Unlock. repeat case_match; cbn; simplify_eq; done.
  - done.
  - by destruct (transfer_spec req d) as (-> & -> & _).
  - by rewrite change_locks.
Qed.

Lemma send_agree ss m cl : agree ss cl → agree ss (send m cl).1.
Proof.
  intros H. unfold send. destruct (cl !! host_of m) as [d|] eqn:Hd; [|done].
  destruct (serve_same m d) as [E1 E2]. destruct (serve m d) as [d' r]. cbn in *.
  apply map_Forall_insert_2; [|done]. rewrite E1, E2. exact (H _ _ Hd).
Qed.

(** The server of the key refuses, all others point to it. *)
Lemma serve_quiet ss m d w p l :
  GetSnapshot (Ring d) = Some ss → hashKeyToServer p ss = Ok w →
  (Host d = w → lockManager d !! p = Some l) → mquiet p (Token l) (ExpiredAtNs l) m →
  (Host d = w → lockManager (serve m d).1 !! p = Some l)
  ∧ (∀ h now fresh exp t o, m = MLock h now fresh p exp t o → token_of (serve m d).2 = []).
Proof.
  intros Hr Hw Hl Hq. destruct m as [h now fresh q exp t o|h now q t|h now|h req|h now order]; cbn [serve mquiet] in *.
  - unfold LockWithTimeout, findLockOwningFiler. rewrite Hr.
    destruct (hashKeyToServer q ss) as [s|e|] eqn:Hs; [|split; [done|by intros]..].
    case_decide as Hh; [split; [done|by intros]|].
    destruct (Lock_ now fresh q exp t o (lockManager d)) as [lm [[lo rt] err]] eqn:El. cbn [fst snd token_of lockManager with_locks].
    split.
    + intros HH. specialize (Hl HH). pose proof (quiet_keeps (RLock now fresh q exp t o) _ p l Hl Hq) as Hk.
      cbn [handle] in Hk. by rewrite El in Hk.
    + intros ???? ?? [= _ _ _ -> _ _ _]. rewrite Hw in Hs. injection Hs as ->.
      destruct (Hq eq_refl) as [Hn Ht]. assert (Host d = s) as HH by (destruct (decide (s = Host d)); [done|by destruct Hh]).
      destruct (lock_refused now fresh p exp t o (lockManager d) l) as [e E];
        [by apply Hl|unfold expired; lia|done|]. rewrite E in El. by simplify_eq.
  - split; [|done]. intros HH. specialize (Hl HH). unfold Dlm.Unlock. rewrite Hr.
    destruct (hashKeyToServer q ss) as [s|e|]; [|done..]. case_decide; [done|].
    pose proof (quiet_keeps (RUnlock now q t) _ p l Hl Hq) as Hk. cbn [handle] in Hk.
    destruct (LockManager.Unlock now q t (lockManager d)) as [lm [b err]]. done.
  - split; [|done]. intros HH. by apply (quiet_keeps (RCleanUp now) _ p l (Hl HH)).
  - split; [|done]. intros HH. destruct (transfer_spec req d) as (_ & _ & H). cbn. rewrite H by done. by apply Hl.
  - split; [|done]. intros HH. rewrite Hr. cbn [fst default]. rewrite change_locks.
    apply (quiet_keeps (RSelect now _ order) _ p l (Hl HH)). split; [done|]. cbn. rewrite Hw. cbn.
    f_equal. by apply bool_decide_eq_false; rewrite <- HH; intros [].
Qed.

Lemma send_quiet ss m cl w p l :
  agree ss cl → hashKeyToServer p ss = Ok w → keeps cl w p l → mquiet p (Token l) (ExpiredAtNs l) m →
  keeps (send m cl).1 w p l
  ∧ (∀ h now fresh exp t o, m = MLock h now fresh p exp t o → token_of (send m cl).2 = []).
Proof.
  intros Ha Hw Hk Hq. unfold send. destruct (cl !! host_of m) as [d|] eqn:Hd; [|done].
  destruct (Ha _ _ Hd) as [Hh Hr]. destruct Hk as (dw & Hdw & Hl).
  destruct (serve_quiet ss m d w p l Hr Hw) as [H1 H2]; [|done|].
  { intros E. rewrite <- Hh, E, Hdw in Hd. by injection Hd as ->. }
  destruct (serve m d) as [d' r] eqn:Es. cbn in *. split; [|done].
  destruct (decide (host_of m = w)) as [E|Hne].
  - exists d'. rewrite E, lookup_insert_eq. split; [done|]. apply H1. congruence.
  - exists dw. by rewrite lookup_insert_ne.
Qed.

Fixpoint run (ms : list message) (cl : cluster) :
    cluster * list (option (res (bytes * bytes * bytes * option go_error))) :=
  match ms with
  | [] => (cl, [])
  | m :: ms => let '(cl, r) := send m cl in let '(cl, rs) := run ms cl in (cl, r :: rs)
  end.

Lemma run_quiet ss ms cl w p l :
  agree ss cl → hashKeyToServer p ss = Ok w → keeps cl w p l →
  Forall (mquiet p (Token l) (ExpiredAtNs l)) ms →
  agree ss (run ms cl).1 ∧ keeps (run ms cl).1 w p l
  ∧ Forall2 (λ m r, ∀ h now fresh exp t o, m = MLock h now fresh p exp t o → token_of r = []) ms (run ms cl).2.
Proof.
  intros Ha Hw Hk Hq. revert cl Ha Hk. induction Hq as [|m ms Hm _ IH]; intros cl Ha Hk.
  { split_and!; [done|done|constructor]. }
  cbn [run]. destruct (send_quiet ss m cl w p l Ha Hw Hk Hm) as [H1 H2].
  pose proof (send_agree ss m cl Ha) as H3. destruct (send m cl) as [cl' r]. cbn [fst snd] in *.
  destruct (IH cl' H3 H1) as (H4 & H5 & H6). destruct (run ms cl') as [cl'' rs]. cbn [fst snd] in *.
  split_and!; [done|done|by constructor].
Qed.

(** A token for [p] comes from the server of [p], which keeps it. *)
Lemma send_granted ss cl h now fresh p exp token owner cl' r :
  agree ss cl → send (MLock h now fresh p exp token owner) cl = (cl', r) → token_of r ≠ [] →
  token_of r = fresh ∧ hashKeyToServer p ss = Ok h ∧ keeps cl' h p (MkLock fresh exp [] owner).
Proof.
  intros Ha Hs Ht. unfold send in Hs. cbn [host_of] in Hs. destruct (cl !! h) as [d|] eqn:Hd; [|by simplify_eq].
  destruct (Ha _ _ Hd) as [Hh Hr]. cbn [serve] in Hs. unfold LockWithTimeout, findLockOwningFiler in Hs.
  rewrite Hr in Hs. destruct (hashKeyToServer p ss) as [w|e|] eqn:Hw; [|by simplify_eq..].
  case_decide as Hn; [by simplify_eq|]. assert (w = h) as -> by (destruct (decide (w = Host d)); [congruence|done]).
  destruct (Lock_ now fresh p exp token owner (lockManager d)) as [lm [[lo rt] [e|]]] eqn:El; simplify_eq.
  - apply lock_not_granted in El as [-> _]. done.
  - apply lock_granted in El as [-> ->]. split; [done|]. split; [done|].
    eexists. rewrite lookup_insert_eq. split; [done|]. cbn. by rewrite lookup_insert_eq.
Qed.

Lemma send_renewed ss cl w p l now fresh exp owner :
  agree ss cl → hashKeyToServer p ss = Ok w → keeps cl w p l → ¬ expired now l →
  token_of (send (MLock w now fresh p exp (Token l) owner) cl).2 = fresh.
Proof.
  intros Ha Hw (d & Hd & Hl) He. destruct (Ha _ _ Hd) as [Hh Hr]. unfold send. cbn [host_of serve].
  rewrite Hd. unfold LockWithTimeout, findLockOwningFiler. rewrite Hr, Hw, decide_False by (rewrite Hh; tauto).
  by rewrite lock_renewed.
Qed.
End Cluster.
Import Cluster.

(** ** Moving locks *)
Module Moving.
Import Dlm Md5.

(** What stays of an entry of the map, and what is handed over. *)
Definition stays (now : Z) (sel : bytes → res bool) (k : bytes) (o : option Lock) : option Lock :=
  l ← o; if decide (ExpiredAtNs l < now ∨ sel k = Ok true) then None else Some l.
Definition moves (now : Z) (sel : bytes → res bool) (k : bytes) (o : option Lock) : option Lock :=
  l ← o; if decide (¬ ExpiredAtNs l < now ∧ sel k = Ok true)
         then Some (MkLock (Token l) (ExpiredAtNs l) k (Owner l)) else None.

Lemma select_loop_spec now sel order lm taken :
  NoDup order → Forall (λ k, ∃ b, sel k = Ok b) order →
  ∃ lm' , select_loop now sel order lm taken = (lm', Ok (taken ++ omap (λ k, moves now sel k (lm !! k)) order))
    ∧ ∀ k, lm' !! k = if decide (k ∈ order) then stays now sel k (lm !! k) else lm !! k.
Proof.
  intros Hnd Hs. revert lm taken Hnd. induction Hs as [|k order [b Hb] _ IH]; intros lm taken Hnd.
  { exists lm. cbn. rewrite app_nil_r. done. }
  apply NoDup_cons in Hnd as [Hk Hnd]. cbn [select_loop].
  assert (∀ lm1 : locks, (∀ q, q ≠ k → lm1 !! q = lm !! q) →
    omap (λ q, moves now sel q (lm1 !! q)) order = omap (λ q, moves now sel q (lm !! q)) order) as Hom.
  { intros lm1 H1. apply list_omap_ext. apply Forall_Forall2_diag, Forall_forall. intros q Hq.
    rewrite H1; [done|]. intros ->. done. }
  assert (∀ (lm1 : locks) tk m, (∀ q, q ≠ k → lm1 !! q = lm !! q) → lm1 !! k = stays now sel k (lm !! k) →
    tk = taken ++ option_list m → m = moves now sel k (lm !! k) →
    ∃ lm', select_loop now sel order lm1 tk
             = (lm', Ok (taken ++ omap (λ k, moves now sel k (lm !! k)) (k :: order)))
      ∧ ∀ q, lm' !! q = if decide (q ∈ k :: order) then stays now sel q (lm !! q) else lm !! q) as Hstep.
  { intros lm1 tk m H1 H2 -> Em. destruct (IH lm1 (taken ++ option_list m) Hnd) as (lm' & E & Hl).
    exists lm'. split.
    - rewrite E, (Hom lm1 H1), <- app_assoc. cbn [omap list_omap]. rewrite <- Em. by destruct m.
    - intros q. rewrite Hl. destruct (decide (q = k)) as [->|Hq].
      + rewrite decide_False by done. rewrite decide_True by (by left). done.
      + rewrite H1 by done. destruct (decide (q ∈ order)).
        * by rewrite decide_True by (by right).
        * rewrite decide_False; [done|]. by intros [?|?]%elem_of_cons. }
  destruct (lm !! k) as [l|] eqn:Hl; cycle 1.
  { apply (Hstep lm taken None); [done|by rewrite Hl|by rewrite app_nil_r|done]. }
  assert (∀ q, q ≠ k → delete k lm !! q = lm !! q) as Hd by (intros; by rewrite lookup_delete_ne).
  case_decide as He.
  { apply (Hstep (delete k lm) taken None); [done| |by rewrite app_nil_r|].
    - rewrite lookup_delete_eq. cbn. by rewrite decide_True by auto.
    - cbn. by rewrite decide_False by tauto. }
  rewrite Hb. destruct b.
  - apply (Hstep (delete k lm) _ (Some (MkLock (Token l) (ExpiredAtNs l) k (Owner l)))); [done| |done|].
    + rewrite lookup_delete_eq. cbn. by rewrite decide_True by auto.
    + cbn. by rewrite decide_True by auto.
  - apply (Hstep lm taken None); [done| |by rewrite app_nil_r|].
    + rewrite Hl. cbn. rewrite decide_False; [done|]. rewrite Hb. by intros [?|?].
    + cbn. rewrite decide_False; [done|]. rewrite Hb. by intros [? ?].
Qed.

(** Every key has a server, save one whose hash has no absolute value. *)
Lemma hash_total key ss :
  ss ≠ [] → HashStringToLong key ≠ - 2 ^ 63 → ∃ s, hashKeyToServer key ss = Ok s ∧ s ∈ ss.
Proof.
  intros Hne Hh. pose proof (hash_range key) as Hr. unfold hashKeyToServer.
  set (x := HashStringToLong key) in *. pose proof (zlen_nonneg ss).
  assert (zlen ss ≠ 0) as Hz by (destruct ss; [done|]; rewrite zlen_cons in *; pose proof (zlen_nonneg ss); lia).
  rewrite decide_False by done.
  assert (0 ≤ (if decide (x < 0) then s64 (- x) else x)) as Hx.
  { case_decide; [|lia]. rewrite swrap_id; [lia|lia|]. revert Hr. unfold in_s. widths. lia. }
  set (y := if decide (x < 0) then _ else _) in *.
  pose proof (Z.rem_bound_pos y (zlen ss) Hx) as Hb. rewrite decide_False by lia.
  destruct (lookup_lt_is_Some_2 ss (Z.to_nat (Z.rem y (zlen ss)))) as [s Es]; [unfold zlen in *; lia|].
  rewrite Es. exists s. split; [done|]. by eapply list_elem_of_lookup_2.
Qed.
End Moving.
Import Moving.

Module LockClaims.

(** C12: Exclusion in a cluster whose servers have the same ring: when a server has handed
    out a lock until a time, no server hands out a token for that key before then to
    anyone who does not have the token, whatever requests for locks, unlocks, clean-ups,
    announcements of the ring and transfers of locks on other keys the servers get and in
    whatever order, and the holder can still renew it.  A transfer of a lock on the same
    key is not among them: it overwrites the lock ([transfer_overwrites]). *)
Theorem cluster_exclusive ss cl h now fresh p exp token owner cl1 r ms :
  agree ss cl → send (MLock h now fresh p exp token owner) cl = (cl1, r) → token_of r ≠ [] →
  Forall (mquiet p fresh exp) ms →
  Forall2 (λ m r, ∀ h now fresh exp t o, m = MLock h now fresh p exp t o → token_of r = []) ms (run ms cl1).2
  ∧ ∀ now' fresh' exp' owner', now' ≤ exp →
      token_of (send (MLock h now' fresh' p exp' (token_of r) owner') (run ms cl1).1).2 = fresh'.
Proof.
  intros Ha Hs Ht Hq. destruct (send_granted _ _ _ _ _ _ _ _ _ _ _ Ha Hs Ht) as (Er & Hw & Hk).
  assert (agree ss cl1) as Ha1 by (change cl1 with (cl1, r).1; rewrite <- Hs; by apply send_agree).
  destruct (run_quiet ss ms cl1 h p _ Ha1 Hw Hk Hq) as (Ha2 & Hk2 & H2). split; [done|].
  intros now' fresh' exp' owner' Hn. rewrite Er.
  apply (send_renewed ss _ h p (MkLock fresh exp [] owner)); [done|done|done|unfold expired; cbn; lia].
Qed.

(** C13: No lock stays for ever: after any requests that ask for times up to [T] on a
    path, a request without a token made after [T] is granted when a pass of the
    clean-up that runs every minute came after [T] too, and also without such a pass
    when all the times asked for were positive.  (Before the pass, a lock whose time is
    not positive is refused to others: see [timeless_lock_lost].) *)
Theorem lock_available p T rs now now' fresh exp owner :
  Forall (asks (λ e, e ≤ T) p) rs → T < now → T < now' →
  let lm := foldl (λ lm r, handle r lm) ∅ rs in
  let granted lm := Lock_ now fresh p exp [] owner lm
                    = (<[p := MkLock fresh exp [] owner]> lm, ([], fresh, None)) in
  granted (CleanUp now' lm) ∧ (Forall (asks (λ e, 0 < e) p) rs → granted lm).
Proof.
  intros Hb Hn Hn' lm granted. assert (∀ P, ends P p ∅) as H0 by (intros P l; by rewrite lookup_empty).
  pose proof (foldl_ends _ rs ∅ p (H0 _) Hb) as HT. fold lm in HT. unfold granted, Lock_. split.
  - destruct (CleanUp now' lm !! p) as [l|] eqn:Hl; [|done].
    apply map_lookup_filter_Some in Hl as [Hl He]. specialize (HT l Hl). cbn in He, HT. lia.
  - intros Hp. pose proof (foldl_ends _ rs ∅ p (H0 _) Hp) as H1. fold lm in H1.
    destruct (lm !! p) as [l|] eqn:Hl; [|done]. specialize (HT l Hl). specialize (H1 l Hl). cbn in HT, H1.
    by rewrite decide_True by (unfold expired; lia).
Qed.

(** C14: When the ring changes, a server hands over exactly its locks that have not run
    out and now belong to another server, with their tokens and owners; it keeps the
    others and forgets those that have run out. *)
Theorem locks_handed_over now ss order d :
  ss ≠ [] → order ≡ₚ (map_to_list (Dlm.lockManager d)).*1 →
  Forall (λ k, Md5.HashStringToLong k ≠ - 2 ^ 63) order →
  let here k := hashKeyToServer k ss = Ok (Dlm.Host d) in
  ∃ d' taken, Dlm.SelectNotOwnedLocks now ss order d = (d', Ok taken)
    ∧ (∀ k l, Dlm.lockManager d' !! k = Some l ↔
         Dlm.lockManager d !! k = Some l ∧ now ≤ ExpiredAtNs l ∧ here k)
    ∧ (∀ l', l' ∈ taken ↔ ∃ k l, Dlm.lockManager d !! k = Some l ∧ now ≤ ExpiredAtNs l ∧ ¬ here k
         ∧ l' = MkLock (Token l) (ExpiredAtNs l) k (Owner l)).
Proof.
  intros Hne Hord Hh here. unfold Dlm.SelectNotOwnedLocks, SelectLocks.
  set (sel := λ key, s ← hashKeyToServer key ss; mret (bool_decide (s ≠ Dlm.Host d))).
  assert (NoDup order) as Hnd by (rewrite Hord; apply NoDup_fst_map_to_list).
  assert (∀ k, k ∈ order ↔ is_Some (Dlm.lockManager d !! k)) as Hin.
  { intros k. rewrite Hord, list_elem_of_fmap. split.
    - intros ([q l] & -> & ?%elem_of_map_to_list). eauto.
    - intros [l ?]. exists (k, l). split; [done|]. by apply elem_of_map_to_list. }
  assert (∀ k, k ∈ order → ∃ b, sel k = Ok b ∧ (b = false ↔ here k)) as Hsel.
  { intros k Hk. rewrite Forall_forall in Hh. destruct (hash_total k ss Hne (Hh k Hk)) as (s & Es & _).
    exists (bool_decide (s ≠ Dlm.Host d)). unfold sel, here. rewrite Es. split; [done|].
    rewrite bool_decide_eq_false. split; [|intros [= ->]; tauto]. intros H. f_equal. by destruct (decide (s = Dlm.Host d)). }
  destruct (select_loop_spec now sel order (Dlm.lockManager d) [] Hnd) as (lm' & E & Hl).
  { apply Forall_forall. intros k Hk. destruct (Hsel k Hk) as (b & ? & _). eauto. }
  rewrite E. eexists _, _. split; [done|]. cbn [Dlm.lockManager Dlm.with_locks app]. split.
  - intros k l. rewrite Hl. case_decide as Hk.
    + destruct (Hsel k Hk) as (b & Eb & Hb). unfold stays. rewrite Eb. rewrite bind_Some. split.
      * intros (l0 & ? & H). case_decide as Hc; [done|]. injection H as ->. split; [done|].
        split; [lia|]. apply Hb. destruct b; [tauto|done].
      * intros (? & ? & H). exists l. split; [done|]. apply Hb in H as ->. rewrite decide_False; [done|]. intros [?|?]; [lia|done].
    + rewrite Hin in Hk. split; [intros H|intros [H _]]; destruct Hk; eauto.
  - intros l'. rewrite list_elem_of_omap. split.
    + intros (k & Hk & H). destruct (Hsel k Hk) as (b & Eb & Hb). unfold moves in H. rewrite Eb in H.
      apply bind_Some in H as (l & ? & H). case_decide as Hc; [|done]. injection H as <-.
      destruct Hc as [? [= ->]]. exists k, l. split_and!; [done|lia|by intros ?%Hb|done].
    + intros (k & l & Hlk & Hn & Hk & ->). assert (k ∈ order) as Hko by (apply Hin; eauto).
      exists k. split; [done|]. destruct (Hsel k Hko) as (b & Eb & Hb). unfold moves. rewrite Hlk, Eb. cbn.
      rewrite decide_True; [done|]. split; [lia|]. destruct b; [done|]. destruct Hk. by apply Hb.
Qed.

(** *** Witnesses *)

Definition two_servers : list bytes := [str "filer1:8888"; str "filer2:8888"].
Definition a_server (h : bytes) : Dlm.DistributedLockManager :=
  Dlm.MkDlm ∅ (SetSnapshot 1 (Some two_servers) (NewLockRing 5)) h.
Definition a_cluster : cluster :=
  list_to_map ((λ h, (h, a_server h)) <$> two_servers).

(** The key of the example belongs to the second server. *)
Definition a_message (h : bytes) (now : Z) (fresh : string) (token : bytes) : message :=
  MLock h now (str fresh) (str "/topics") 100 token (str "broker").

Lemma a_cluster_agrees : agree two_servers a_cluster.
Proof. unfold agree. decided. Qed.

Lemma cluster_exclusive_witness :
  ∃ cl1 r, send (a_message (str "filer2:8888") 10 "t1" []) a_cluster = (cl1, r) ∧
  let ms := [a_message (str "filer2:8888") 20 "t2" []; a_message (str "filer1:8888") 30 "t3" [];
             MCleanUp (str "filer2:8888") 60; MChange (str "filer2:8888") 70 [str "/topics"];
             MTransfer (str "filer2:8888") [MkLock (str "t9") 500 (str "/etc") (str "other")]] in
  Forall2 (λ m r, ∀ h now fresh exp t o, m = MLock h now fresh (str "/topics") exp t o → token_of r = [])
    ms (run ms cl1).2
  ∧ ∀ now' fresh' exp' owner', now' ≤ 100 →
      token_of (send (MLock (str "filer2:8888") now' fresh' (str "/topics") exp' (token_of r) owner') (run ms cl1).1).2
      = fresh'.
Proof.
  destruct (send (a_message (str "filer2:8888") 10 "t1" []) a_cluster) as [cl1 r] eqn:E.
  exists cl1, r. split; [done|].
  apply (cluster_exclusive two_servers a_cluster (str "filer2:8888") 10 (str "t1") (str "/topics") 100 []
    (str "broker") cl1 r).
  - apply a_cluster_agrees.
  - exact E.
  - assert (token_of (send (a_message (str "filer2:8888") 10 "t1" []) a_cluster).2 = str "t1") as Ht
      by (vm_compute; reflexivity).
    rewrite E in Ht. cbn [snd] in Ht. rewrite Ht. done.
  - repeat apply Forall_cons_2; [intros _; split; [lia|decided]..|cbn; lia|cbn; lia|decided|apply Forall_nil_2|apply Forall_nil_2].
Defined.

Lemma lock_available_witness :
  let rs := [RLock 1 (str "t1") (str "/a") 50 [] (str "x"); RLock 2 (str "t2") (str "/a") 70 (str "t1") (str "x")] in
  let lm := foldl (λ lm r, handle r lm) ∅ rs in
  let granted lm := Lock_ 72 (str "t3") (str "/a") 90 [] (str "y") lm
                    = (<[str "/a" := MkLock (str "t3") 90 [] (str "y")]> lm, ([], str "t3", None)) in
  granted (CleanUp 71 lm) ∧ granted lm.
Proof.
  intros rs lm granted.
  destruct (lock_available (str "/a") 70 rs 72 71 (str "t3") 90 (str "y")) as [H1 H2].
  - repeat apply Forall_cons_2; [intros _; lia..|apply Forall_nil_2].
  - lia.
  - lia.
  - split; [exact H1|]. apply H2. repeat apply Forall_cons_2; [intros _; lia..|apply Forall_nil_2].
Defined.

Definition moved_locks : locks :=
  list_to_map [(str "/topics", MkLock (str "t1") 100 [] (str "x")); (str "/etc", MkLock (str "t2") 5 [] (str "y"))].
Definition a_holder : Dlm.DistributedLockManager :=
  Dlm.MkDlm moved_locks (NewLockRing 5) (str "filer1:8888").

Lemma locks_handed_over_witness :
  let here k := hashKeyToServer k two_servers = Ok (Dlm.Host a_holder) in
  ∃ d' taken, Dlm.SelectNotOwnedLocks 10 two_servers [str "/etc"; str "/topics"] a_holder = (d', Ok taken)
    ∧ (∀ k l, Dlm.lockManager d' !! k = Some l ↔
         Dlm.lockManager a_holder !! k = Some l ∧ 10 ≤ ExpiredAtNs l ∧ here k)
    ∧ (∀ l', l' ∈ taken ↔ ∃ k l, Dlm.lockManager a_holder !! k = Some l ∧ 10 ≤ ExpiredAtNs l ∧ ¬ here k
         ∧ l' = MkLock (Token l) (ExpiredAtNs l) k (Owner l)).
Proof.
  apply (locks_handed_over 10 two_servers [str "/etc"; str "/topics"] a_holder).
  - done.
  - decided.
  - decided.
Defined.

(** A transfer that arrives late overwrites the lock that the new server has granted
    meanwhile: its holder cannot renew it, the old holder can. *)
Example transfer_overwrites :
  let lock now fresh token := a_message (str "filer2:8888") now fresh token in
  let ms := [lock 10 "t1" []; MTransfer (str "filer2:8888") [MkLock (str "t0") 90 (str "/topics") (str "old")];
             lock 20 "t2" (str "t1"); lock 30 "t3" (str "t0")] in
  token_of <$> (run ms a_cluster).2 = [str "t1"; []; []; str "t3"].
Proof. vm_compute. reflexivity. Qed.

(** A lock without a time never runs out for [Lock_], but the next pass of [CleanUp]
    removes it and another client gets it. *)
Example timeless_lock_lost :
  let lm := (Lock_ 1 (str "t1") (str "/a") 0 [] (str "x") ∅).1 in
  (Lock_ 2 (str "t2") (str "/a") 0 [] (str "y") lm).2 = (str "x", [], Some (Errorf "lock already owned by %v"))
  ∧ (Lock_ 4 (str "t2") (str "/a") 0 [] (str "y") (CleanUp 3 lm)).2 = ([], str "t2", None).
Proof. vm_compute. split; reflexivity. Qed.
End LockClaims.
