(* ===== verification/VolumeLayout.v ===== *)
(** * VolumeLayout: which volumes the master gives out for writing

    weed/topology/volume_layout.go and volume_location_list.go: for the volumes of one
    kind, where their copies are and which of them take writes.  A data node is a
    handle with an address; what the nodes report of their volumes (data_node.go,
    disk.go) is a state beside the layout, as it changes behind its back. *)

From S2P Require Import Prelude GoStd StorageTypes SuperBlock Needle.

Module VolumeLayout.

(** ** Data nodes

    Of a report, what layouts look at. *)

Record VolumeInfo := MkInfo {
  Id : Z; Size : Z; ReadOnly : bool; Version : Z; FileCount : Z; DeleteCount : Z; DeletedByteCount : Z }.

(** [Ptr] tells objects for the same server apart. *)
Record DataNode := MkNode {
  Ptr : Z; Ip : bytes; Port : Z; NodeId : bytes; DataCenter : bytes; Rack : bytes }.
#[global] Instance data_node_eq_dec : EqDecision DataNode.
Proof. solve_decision. Defined.

(** The disks of a node, in the order in which its map of children is visited. *)
Record NodeState := MkNodeState { LastSeen : Z; children : list (gmap Z VolumeInfo) }.
Definition nodes := DataNode → NodeState.

Definition Disk_GetVolumesById (d : gmap Z VolumeInfo) (id : Z) : option VolumeInfo := d !! id.

Fixpoint find_on (ds : list (gmap Z VolumeInfo)) (id : Z) : option VolumeInfo :=
  match ds with
  | [] => None
  | d :: ds => match Disk_GetVolumesById d id with Some v => Some v | None => find_on ds id end
  end.
Definition GetVolumesById (ns : nodes) (dn : DataNode) (id : Z) : option VolumeInfo :=
  find_on (children (ns dn)) id.

(** ** Locations of a volume *)

Definition same_address (a b : DataNode) : Prop := Ip a = Ip b ∧ Port a = Port b.
#[global] Instance same_address_dec a b : Decision (same_address a b).
Proof. unfold same_address. apply _. Defined.

Abbreviation VolumeLocationList := (list DataNode).

Definition Head (l : VolumeLocationList) : option DataNode := head l.
Definition Rest (l : VolumeLocationList) : res (list DataNode) :=
  match l with [] => Panic | _ :: l => Ok l end.
Definition Length (o : option VolumeLocationList) : Z :=
  match o with None => 0 | Some l => zlen l end.

Fixpoint Set_ (loc : DataNode) (l : VolumeLocationList) : VolumeLocationList :=
  match l with
  | [] => [loc]
  | dn :: l => if decide (same_address loc dn) then loc :: l else dn :: Set_ loc l
  end.

Fixpoint Remove (loc : DataNode) (l : VolumeLocationList) : VolumeLocationList * bool :=
  match l with
  | [] => ([], false)
  | dn :: l =>
      if decide (same_address loc dn) then (l, true)
      else let '(l, b) := Remove loc l in (dn :: l, b)
  end.

Definition Refresh (ns : nodes) (fresh : Z) (l : VolumeLocationList) : VolumeLocationList :=
  filter (λ dn, fresh ≤ LastSeen (ns dn)) l.

Fixpoint Stats (ns : nodes) (vid fresh : Z) (l : VolumeLocationList) : Z * Z :=
  match l with
  | [] => (0, 0)
  | dn :: l =>
      if decide (LastSeen (ns dn) < fresh) then
        match GetVolumesById ns dn vid with
        | Some v => (wrap 64 (Size v - DeletedByteCount v), s64 (FileCount v - DeleteCount v))
        | None => Stats ns vid fresh l
        end
      else Stats ns vid fresh l
  end.

(** ** Sets of volumes with copies in some state *)

Inductive copyState := noCopies | insufficientCopies | enoughCopies_.
Definition ExistCopies (s : copyState) : bool := match s with noCopies => false | _ => true end.
Definition NoCopies (s : copyState) : bool := match s with noCopies => true | _ => false end.

Record volumesBinaryState := MkState {
  rp_ : ReplicaPlacement.t; indicator : copyState → bool; copyMap : gmap Z VolumeLocationList }.
Definition NewVolumesBinaryState (rp : ReplicaPlacement.t) (i : copyState → bool) : volumesBinaryState :=
  MkState rp i ∅.

Definition copy_state (b : volumesBinaryState) (l : option VolumeLocationList) : copyState :=
  match l with
  | None => noCopies
  | Some l => if decide (zlen l < ReplicaPlacement.GetCopyCount (rp_ b)) then insufficientCopies else enoughCopies_
  end.
Definition IsTrue (b : volumesBinaryState) (vid : Z) : bool := indicator b (copy_state b (copyMap b !! vid)).
Definition with_map (m : gmap Z VolumeLocationList) (b : volumesBinaryState) : volumesBinaryState :=
  MkState (rp_ b) (indicator b) m.
Definition Add (vid : Z) (dn : DataNode) (b : volumesBinaryState) : volumesBinaryState :=
  match copyMap b !! vid with
  | Some l => with_map (<[vid := Set_ dn l]> (copyMap b)) b
  | None => with_map (<[vid := Set_ dn []]> (copyMap b)) b
  end.
Definition State_Remove (vid : Z) (dn : DataNode) (b : volumesBinaryState) : volumesBinaryState :=
  match copyMap b !! vid with
  | Some l =>
      let l := (Remove dn l).1 in
      if decide (zlen l = 0) then with_map (delete vid (copyMap b)) b
      else with_map (<[vid := l]> (copyMap b)) b
  | None => b
  end.
(** In the order in which the map is visited. *)
Definition Dump (b : volumesBinaryState) : list Z :=
  omap (λ '(vid, l), if indicator b (copy_state b (Some l)) then Some vid else None) (map_to_list (copyMap b)).

(** ** The layout

    [ttl] and [diskType] are only reported, and [vacuumedVolumes] is never used. *)

Record t := MkLayout {
  rp : ReplicaPlacement.t;
  vid2location : gmap Z VolumeLocationList;
  writables : list Z;
  crowded : gset Z;
  readonlyVolumes : volumesBinaryState;
  oversizedVolumes : volumesBinaryState;
  volumeSizeLimit : Z;
  replicationAsMin : bool;
  growRequest : bool;
  lastGrowCount : Z }.

Definition NewVolumeLayout (rp : ReplicaPlacement.t) (limit : Z) (asMin : bool) : t :=
  MkLayout rp ∅ [] ∅ (NewVolumesBinaryState rp ExistCopies) (NewVolumesBinaryState rp ExistCopies) limit asMin
    false 0.

Definition with_locations (m : gmap Z VolumeLocationList) (vl : t) : t :=
  let '(MkLayout rp _ w c ro ov lim am g n) := vl in MkLayout rp m w c ro ov lim am g n.
Definition with_writables (w : list Z) (vl : t) : t :=
  let '(MkLayout rp m _ c ro ov lim am g n) := vl in MkLayout rp m w c ro ov lim am g n.
Definition with_crowded (c : gset Z) (vl : t) : t :=
  let '(MkLayout rp m w _ ro ov lim am g n) := vl in MkLayout rp m w c ro ov lim am g n.
Definition with_readonly (f : volumesBinaryState → volumesBinaryState) (vl : t) : t :=
  let '(MkLayout rp m w c ro ov lim am g n) := vl in MkLayout rp m w c (f ro) ov lim am g n.
Definition with_oversized (f : volumesBinaryState → volumesBinaryState) (vl : t) : t :=
  let '(MkLayout rp m w c ro ov lim am g n) := vl in MkLayout rp m w c ro (f ov) lim am g n.
Definition with_grow (g : bool) (n : Z) (vl : t) : t :=
  let '(MkLayout rp m w c ro ov lim am _ _) := vl in MkLayout rp m w c ro ov lim am g n.

Fixpoint remove_id (vid : Z) (l : list Z) : list Z * bool :=
  match l with
  | [] => ([], false)
  | id :: l => if decide (id = vid) then (l, true) else let '(l, b) := remove_id vid l in (id :: l, b)
  end.
Definition removeFromWritable (vid : Z) (vl : t) : t * bool :=
  let '(w, b) := remove_id vid (writables vl) in (with_writables w vl, b).
Definition setVolumeWritable (vid : Z) (vl : t) : t * bool :=
  if decide (vid ∈ writables vl) then (vl, false) else (with_writables (writables vl ++ [vid]) vl, true).

Definition isOversized (v : VolumeInfo) (vl : t) : bool := bool_decide (volumeSizeLimit vl ≤ Size v).
Definition enoughCopies (vid : Z) (vl : t) : bool :=
  let locations := Length (vid2location vl !! vid) in
  let desired := ReplicaPlacement.GetCopyCount (rp vl) in
  bool_decide (locations = desired) || (replicationAsMin vl && bool_decide (desired < locations)).

Definition isAllWritable (ns : nodes) (vid : Z) (vl : t) : bool :=
  match vid2location vl !! vid with
  | Some l =>
      forallb (λ dn, match GetVolumesById ns dn vid with Some v => negb (ReadOnly v) | None => true end) l
  | None => false
  end.

Definition ensureCorrectWritables (ns : nodes) (vid : Z) (vl : t) : t :=
  if enoughCopies vid vl && isAllWritable ns vid vl && negb (IsTrue (oversizedVolumes vl) vid)
  then (setVolumeWritable vid vl).1 else (removeFromWritable vid vl).1.
Definition EnsureCorrectWritables (ns : nodes) (v : VolumeInfo) (vl : t) : t := ensureCorrectWritables ns (Id v) vl.

Definition rememberOversizedVolume (v : VolumeInfo) (dn : DataNode) (vl : t) : t :=
  if isOversized v vl then with_oversized (Add (Id v) dn) vl else with_oversized (State_Remove (Id v) dn) vl.

(** The loop of [RegisterVolume], which ends at the first copy that cannot be written. *)
Fixpoint register_loop (ns : nodes) (vid : Z) (l : list DataNode) (vl : t) : t :=
  match l with
  | [] => vl
  | dn :: l =>
      match GetVolumesById ns dn vid with
      | Some vInfo =>
          if ReadOnly vInfo then with_readonly (Add vid dn) (removeFromWritable vid vl).1
          else register_loop ns vid l (with_readonly (State_Remove vid dn) vl)
      | None => with_readonly (State_Remove vid dn) (removeFromWritable vid vl).1
      end
  end.

Definition RegisterVolume (ns : nodes) (v : VolumeInfo) (dn : DataNode) (vl : t) : t :=
  let l := Set_ dn (default [] (vid2location vl !! Id v)) in
  let vl := with_locations (<[Id v := l]> (vid2location vl)) vl in
  rememberOversizedVolume v dn (register_loop ns (Id v) l vl).

Definition removeFromCrowded (vid : Z) (vl : t) : t := with_crowded (crowded vl ∖ {[vid]}) vl.

Definition UnRegisterVolume (ns : nodes) (v : VolumeInfo) (dn : DataNode) (vl : t) : t :=
  match vid2location vl !! Id v with
  | None => vl
  | Some location =>
      let '(location, removed) := Remove dn location in
      if (removed : bool) then
        let vl := with_locations (<[Id v := location]> (vid2location vl)) vl in
        let vl := with_readonly (State_Remove (Id v) dn) vl in
        let vl := with_oversized (State_Remove (Id v) dn) vl in
        let vl := ensureCorrectWritables ns (Id v) vl in
        if decide (zlen location = 0) then
          removeFromCrowded (Id v) (with_locations (delete (Id v) (vid2location vl)) vl)
        else vl
      else vl
  end.

Definition isWritable (v : VolumeInfo) (vl : t) : bool :=
  negb (isOversized v vl) && bool_decide (Version v = Needle.GetCurrentVersion) && negb (ReadOnly v).

Definition isEmpty (vl : t) : bool := bool_decide (vid2location vl = ∅).
Definition Lookup_ (vid : Z) (vl : t) : list DataNode := default [] (vid2location vl !! vid).

(** The order in which the map is visited is an argument. *)
Definition ListVolumeServers (order : list (Z * VolumeLocationList)) : list DataNode := order ≫= snd.
Definition CloneWritableVolumes (vl : t) : list Z := writables vl.

Record VolumeLayoutStats := MkStats { TotalSize : Z; UsedSize : Z; StatFileCount : Z }.
Definition Layout_Stats (ns : nodes) (now : Z) (vl : t) : VolumeLayoutStats :=
  map_fold (λ vid vll ret,
      let '(size, fileCount) := Stats ns vid (now - 60) vll in
      let used := wrap 64 (size * zlen vll) in
      MkStats
        (wrap 64 (TotalSize ret + (if IsTrue (readonlyVolumes vl) vid then used
                                   else wrap 64 (volumeSizeLimit vl * zlen vll))))
        (wrap 64 (UsedSize ret + used)) (wrap 64 (StatFileCount ret + wrap 64 fileCount)))
    (MkStats 0 0 0) (vid2location vl).

Definition SetVolumeReadOnly (dn : DataNode) (vid : Z) (vl : t) : t * bool :=
  match vid2location vl !! vid with
  | Some _ => removeFromWritable vid (with_readonly (Add vid dn) vl)
  | None => (vl, true)
  end.

Definition SetVolumeWritable (dn : DataNode) (vid : Z) (vl : t) : t * bool :=
  let vl := match vid2location vl !! vid with
            | Some _ => with_readonly (State_Remove vid dn) vl
            | None => vl
            end in
  if enoughCopies vid vl then setVolumeWritable vid vl else (vl, false).

Definition SetVolumeUnavailable (dn : DataNode) (vid : Z) (vl : t) : t * bool :=
  match vid2location vl !! vid with
  | Some location =>
      let '(location, removed) := Remove dn location in
      if (removed : bool) then
        let vl := with_locations (<[vid := location]> (vid2location vl)) vl in
        let vl := with_readonly (State_Remove vid dn) vl in
        let vl := with_oversized (State_Remove vid dn) vl in
        if decide (zlen location < ReplicaPlacement.GetCopyCount (rp vl)) then removeFromWritable vid vl
        else (vl, false)
      else (vl, false)
  | None => (vl, false)
  end.

(** The list of an unknown volume is nil. *)
Definition SetVolumeAvailable (ns : nodes) (dn : DataNode) (vid : Z) (isReadOnly isFullCapacity : bool) (vl : t) :
    res (t * bool) :=
  match GetVolumesById ns dn vid with
  | None => Ok (vl, false)
  | Some vInfo =>
      match vid2location vl !! vid with
      | None => Panic
      | Some l =>
          let vl := with_locations (<[vid := Set_ dn l]> (vid2location vl)) vl in
          if ReadOnly vInfo || isReadOnly || isFullCapacity then Ok (vl, false)
          else if enoughCopies vid vl then Ok (setVolumeWritable vid vl) else Ok (vl, false)
      end
  end.

Definition SetVolumeCapacityFull (vid : Z) (vl : t) : t * bool := removeFromWritable vid vl.
Definition SetVolumeCrowded (vid : Z) (vl : t) : t := with_crowded (crowded vl ∪ {[vid]}) vl.

Definition HasGrowRequest (vl : t) : bool := growRequest vl.
Definition AddGrowRequest (vl : t) : t := with_grow true (lastGrowCount vl) vl.
Definition DoneGrowRequest (vl : t) : t := with_grow false (lastGrowCount vl) vl.
Definition SetLastGrowCount (count : Z) (vl : t) : t :=
  if decide (lastGrowCount vl ≠ count ∧ count ≠ 0) then with_grow (growRequest vl) count vl else vl.
Definition GetLastGrowCount (vl : t) : Z := lastGrowCount vl.

Definition GetWritableVolumeCount (vl : t) : Z * Z := (zlen (writables vl), Z.of_nat (size (crowded vl))).
Definition ShouldGrowVolumes (vl : t) : bool :=
  let '(writable, crowded) := GetWritableVolumeCount vl in bool_decide (writable ≤ crowded).

(** ** Choosing a volume *)

Record VolumeGrowOption := MkOption { oDataCenter : bytes; oRack : bytes; oDataNode : bytes }.

Record picked := MkPicked {
  vid_ : Z; counter : Z; locationList : option VolumeLocationList; shouldGrow : bool; err : option go_error }.

Definition NoWritableVolumes := Errorf "No writable volumes".

Definition fits (o : VolumeGrowOption) (dn : DataNode) : bool :=
  negb ((bool_decide (oDataCenter o ≠ []) && bool_decide (DataCenter dn ≠ oDataCenter o))
        || (bool_decide (oRack o ≠ []) && bool_decide (Rack dn ≠ oRack o))
        || (bool_decide (oDataNode o ≠ []) && bool_decide (NodeId dn ≠ oDataNode o))).

Fixpoint pick_loop (count : Z) (o : VolumeGrowOption) (ids : list Z) (vl : t) : res picked :=
  match ids with
  | [] => Ok (MkPicked 0 count None true (Some NoWritableVolumes))
  | vid :: ids =>
      match vid2location vl !! vid with
      | None => Panic
      | Some l =>
          if existsb (fits o) l then Ok (MkPicked vid count (Some l) false None)
          else pick_loop count o ids vl
      end
  end.

(** [rand_] is the random index, [shuffled] the shuffled copy of the writable volumes. *)
Definition PickForWrite (rand_ : nat) (shuffled : list Z) (count : Z) (o : VolumeGrowOption) (vl : t) :
    res picked :=
  if decide (zlen (writables vl) ≤ 0) then Ok (MkPicked 0 0 None true (Some NoWritableVolumes))
  else if decide (oDataCenter o = [] ∧ oRack o = [] ∧ oDataNode o = []) then
    match writables vl !! rand_ with
    | None => Panic
    | Some vid =>
        match vid2location vl !! vid with
        | Some (dn :: l) => Ok (MkPicked vid count (Some (dn :: l)) false None)
        | _ => Ok (MkPicked 0 0 None false (Some (Errorf "Strangely vid %s is on no machine!")))
        end
    end
  else pick_loop count o shuffled vl.

(** What the topology does with a volume that a node reports. *)
Definition RegisterVolumeLayout (ns : nodes) (v : VolumeInfo) (dn : DataNode) (vl : t) : t :=
  EnsureCorrectWritables ns v (RegisterVolume ns v dn vl).

(** [None] when the layout is empty and the topology drops it. *)
Definition UnRegisterVolumeLayout (ns : nodes) (v : VolumeInfo) (dn : DataNode) (vl : t) : option t :=
  let vl := UnRegisterVolume ns v dn vl in if isEmpty vl then None else Some vl.

End VolumeLayout.
