(* ===== verification/VolumeLayoutSpec.v ===== *)
(** * VolumeLayoutSpec: writable volumes have their copies

    [sane] is the invariant of a layout; [reachable] are the layouts that the operations
    lead to, in any order and with any reports of the data nodes in between. *)

From S2P Require Import Prelude GoStd StorageTypes SuperBlock VolumeLayout.
Import VolumeLayout.

(** ** Lists of locations *)
Module Locations.

Definition address (dn : DataNode) : bytes * Z := (Ip dn, Port dn).

Lemma same_address_eq a b : same_address a b ↔ address a = address b.
Proof. unfold same_address, address. split; [intros [-> ->]; done|by intros [= -> ->]]. Qed.

Lemma Set_addresses dn l :
  address <$> Set_ dn l = (address <$> l) ∨ (address dn ∉ address <$> l ∧ address <$> Set_ dn l = (address <$> l) ++ [address dn]).
Proof.
  induction l as [|a l IH]; cbn [Set_]; [right; split; [apply not_elem_of_nil|done]|]. case_decide as Hs.
  - left. rewrite !fmap_cons. f_equal. by apply same_address_eq.
  - rewrite !fmap_cons. destruct IH as [->|[Hn ->]]; [by left|right]. split; [|done].
    rewrite not_elem_of_cons. split; [|done]. by intros ?%same_address_eq.
Qed.

Lemma Set_distinct dn l : NoDup (address <$> l) → NoDup (address <$> Set_ dn l).
Proof.
  intros H. destruct (Set_addresses dn l) as [->|[Hn ->]]; [done|]. apply NoDup_app.
  split_and!; [done| |apply NoDup_singleton]. intros x Hx ->%list_elem_of_singleton. done.
Qed.

Lemma Set_longer dn l : zlen l ≤ zlen (Set_ dn l).
Proof.
  destruct (Set_addresses dn l) as [E|[_ E]]; apply (f_equal length) in E;
    rewrite ?length_app, !length_fmap in E; unfold zlen; cbn in *; lia.
Qed.

Lemma Remove_sublist dn l : (Remove dn l).1 `sublist_of` l.
Proof.
  induction l as [|a l IH]; cbn [Remove]; [constructor|]. case_decide; [by apply sublist_cons|].
  destruct (Remove dn l) as [l' b]. by apply sublist_skip.
Qed.

Lemma Remove_distinct dn l : NoDup (address <$> l) → NoDup (address <$> (Remove dn l).1).
Proof. intros H. eapply sublist_NoDup; [exact H|]. apply fmap_sublist, Remove_sublist. Qed.
End Locations.
Import Locations.

(** ** The invariant *)
Module Sanity.

Record sane (vl : t) : Prop := Sane {
  sn_nodup : NoDup (writables vl);
  sn_distinct : ∀ vid l, vid2location vl !! vid = Some l → NoDup (address <$> l);
  sn_copies : ∀ vid, vid ∈ writables vl →
    ∃ l, vid2location vl !! vid = Some l ∧ ReplicaPlacement.GetCopyCount (rp vl) ≤ zlen l }.

Lemma fields_with vl m w c f :
  (rp (with_locations m vl) = rp vl ∧ writables (with_locations m vl) = writables vl
   ∧ vid2location (with_locations m vl) = m)
  ∧ (rp (with_writables w vl) = rp vl ∧ writables (with_writables w vl) = w
     ∧ vid2location (with_writables w vl) = vid2location vl)
  ∧ (rp (with_crowded c vl) = rp vl ∧ writables (with_crowded c vl) = writables vl
     ∧ vid2location (with_crowded c vl) = vid2location vl)
  ∧ (rp (with_readonly f vl) = rp vl ∧ writables (with_readonly f vl) = writables vl
     ∧ vid2location (with_readonly f vl) = vid2location vl)
  ∧ (rp (with_oversized f vl) = rp vl ∧ writables (with_oversized f vl) = writables vl
     ∧ vid2location (with_oversized f vl) = vid2location vl).
Proof. by destruct vl. Qed.

Lemma sane_same vl vl' :
  sane vl → rp vl' = rp vl → writables vl' = writables vl → vid2location vl' = vid2location vl → sane vl'.
Proof. intros [H1 H2 H3] E1 E2 E3. split; rewrite ?E1, ?E2, ?E3; done. Qed.

Lemma sane_readonly f vl : sane vl → sane (with_readonly f vl).
Proof. intros H. by eapply sane_same; [exact H|destruct vl..]. Qed.
Lemma sane_oversized f vl : sane vl → sane (with_oversized f vl).
Proof. intros H. by eapply sane_same; [exact H|destruct vl..]. Qed.
Lemma sane_crowded c vl : sane vl → sane (with_crowded c vl).
Proof. intros H. by eapply sane_same; [exact H|destruct vl..]. Qed.
Lemma sane_grow g n vl : sane vl → sane (with_grow g n vl).
Proof. intros H. by eapply sane_same; [exact H|destruct vl..]. Qed.

Lemma remove_id_spec vid l :
  NoDup l → NoDup (remove_id vid l).1 ∧ ∀ x, x ∈ (remove_id vid l).1 ↔ x ∈ l ∧ x ≠ vid.
Proof.
  induction l as [|a l IH]; cbn [remove_id]; intros H; [split; [constructor|set_solver]|].
  apply NoDup_cons in H as [Hn H]. destruct (IH H) as [H1 H2]. case_decide as Ha.
  - subst a. split; [done|]. intros x. cbn [fst]. rewrite elem_of_cons. split; [|tauto]. intros Hx.
    split; [tauto|]. intros ->. done.
  - destruct (remove_id vid l) as [l' b]. cbn [fst] in *. split.
    + apply NoDup_cons. split; [|done]. rewrite H2. tauto.
    + intros x. rewrite !elem_of_cons, H2. split; [|tauto]. intros [->|]; tauto.
Qed.

Lemma removed_fields vid vl :
  rp (removeFromWritable vid vl).1 = rp vl ∧ vid2location (removeFromWritable vid vl).1 = vid2location vl
  ∧ writables (removeFromWritable vid vl).1 = (remove_id vid (writables vl)).1
  ∧ oversizedVolumes (removeFromWritable vid vl).1 = oversizedVolumes vl.
Proof. unfold removeFromWritable. destruct (remove_id vid (writables vl)) as [w b]. by destruct vl. Qed.

Lemma sane_remove vid vl : sane vl → sane (removeFromWritable vid vl).1.
Proof.
  intros [H1 H2 H3]. destruct (removed_fields vid vl) as (E1 & E2 & E3 & _).
  destruct (remove_id_spec vid (writables vl) H1) as [Hn Hw].
  split; rewrite ?E1, ?E2, ?E3; [done..|]. intros v Hv. apply Hw in Hv as [Hv _]. by apply H3.
Qed.

(** Off the writable list, the copies of a volume may change. *)
Lemma sane_locations vid l vl :
  sane vl → NoDup (address <$> l) →
  (vid ∈ writables vl → ReplicaPlacement.GetCopyCount (rp vl) ≤ zlen l) →
  sane (with_locations (<[vid := l]> (vid2location vl)) vl).
Proof.
  intros [H1 H2 H3] Hl Hc. destruct (fields_with vl (<[vid := l]> (vid2location vl)) [] ∅ id) as ((E1 & E2 & E3) & _).
  split; rewrite ?E1, ?E2, ?E3; [done|..].
  - intros v k [[<- <-]|[_ Hk]]%lookup_insert_Some; [done|by eapply H2].
  - intros v Hv. destruct (decide (v = vid)) as [->|Hne].
    + exists l. rewrite lookup_insert_eq. auto.
    + rewrite lookup_insert_ne by done. by apply H3.
Qed.

Lemma enough_copies vid vl :
  1 ≤ ReplicaPlacement.GetCopyCount (rp vl) → enoughCopies vid vl = true →
  ∃ l, vid2location vl !! vid = Some l ∧ ReplicaPlacement.GetCopyCount (rp vl) ≤ zlen l.
Proof.
  intros Hc He. unfold enoughCopies in He. rewrite orb_true_iff, andb_true_iff, !bool_decide_eq_true in He.
  destruct (vid2location vl !! vid) as [l|]; cbn [Length] in He; [|lia]. exists l. split; [done|lia].
Qed.

Lemma sane_set vid vl :
  1 ≤ ReplicaPlacement.GetCopyCount (rp vl) → enoughCopies vid vl = true → sane vl → sane (setVolumeWritable vid vl).1.
Proof.
  intros Hc He H. unfold setVolumeWritable. case_decide as Hw; [done|]. cbn [fst]. destruct H as [H1 H2 H3].
  destruct (fields_with vl ∅ (writables vl ++ [vid]) ∅ id) as (_ & (E1 & E2 & E3) & _).
  split; rewrite ?E1, ?E2, ?E3; [|done|].
  - apply NoDup_app. split_and!; [done|set_solver|apply NoDup_singleton].
  - intros v [Hv| ->%list_elem_of_singleton]%elem_of_app; [by apply H3|by apply enough_copies].
Qed.

Section steps.
Context (ns : nodes).

Lemma sane_ensure vid vl :
  1 ≤ ReplicaPlacement.GetCopyCount (rp vl) → sane vl → sane (ensureCorrectWritables ns vid vl).
Proof.
  intros Hc H. unfold ensureCorrectWritables. destruct (enoughCopies vid vl) eqn:He; [|by apply sane_remove].
  destruct (_ && _); [by apply sane_set|by apply sane_remove].
Qed.

Lemma register_loop_sane vid l vl :
  sane vl → sane (register_loop ns vid l vl) ∧ rp (register_loop ns vid l vl) = rp vl.
Proof.
  revert vl. induction l as [|dn l IH]; intros vl H; [done|]. cbn [register_loop].
  destruct (removed_fields vid vl) as (E1 & _).
  assert (∀ f, sane (with_readonly f (removeFromWritable vid vl).1)
    ∧ rp (with_readonly f (removeFromWritable vid vl).1) = rp vl) as Hf.
  { intros f. split; [by apply sane_readonly, sane_remove|]. rewrite <- E1. by destruct (removeFromWritable vid vl).1. }
  destruct (GetVolumesById ns dn vid) as [v|]; [|apply Hf]. destruct (ReadOnly v); [apply Hf|].
  destruct (IH (with_readonly (State_Remove vid dn) vl)) as [H1 H2]; [by apply sane_readonly|].
  split; [done|]. rewrite H2. by destruct vl.
Qed.

Lemma sane_register v dn vl : sane vl → sane (RegisterVolume ns v dn vl) ∧ rp (RegisterVolume ns v dn vl) = rp vl.
Proof.
  intros H. unfold RegisterVolume. set (l := Set_ dn _).
  assert (sane (with_locations (<[Id v := l]> (vid2location vl)) vl)) as H1.
  { apply sane_locations; [done|..].
    - apply Set_distinct. destruct (vid2location vl !! Id v) as [k|] eqn:E; [by eapply sn_distinct|constructor].
    - intros Hw. destruct (sn_copies _ H _ Hw) as (k & E & Hk). unfold l. rewrite E. cbn.
      pose proof (Set_longer dn k). lia. }
  destruct (register_loop_sane (Id v) l _ H1) as [H2 E2]. unfold rememberOversizedVolume.
  assert (rp (with_locations (<[Id v := l]> (vid2location vl)) vl) = rp vl) as E1 by (by destruct vl).
  rewrite E1 in E2. set (vl' := register_loop _ _ _ _) in *.
  destruct (isOversized v vl'); (split; [by apply sane_oversized|]); rewrite <- E2; by destruct vl'.
Qed.

(** All but the copies of one volume. *)
Definition almost (vid : Z) (vl : t) : Prop :=
  NoDup (writables vl)
  ∧ (∀ v l, vid2location vl !! v = Some l → NoDup (address <$> l))
  ∧ ∀ v, v ∈ writables vl → v ≠ vid →
      ∃ l, vid2location vl !! v = Some l ∧ ReplicaPlacement.GetCopyCount (rp vl) ≤ zlen l.

Lemma almost_locations vid l vl :
  sane vl → NoDup (address <$> l) → almost vid (with_locations (<[vid := l]> (vid2location vl)) vl).
Proof.
  intros [H1 H2 H3] Hl. destruct (fields_with vl (<[vid := l]> (vid2location vl)) [] ∅ id) as ((E1 & E2 & E3) & _).
  unfold almost. rewrite E1, E2, E3. split_and!; [done|..].
  - intros v k [[<- <-]|[_ Hk]]%lookup_insert_Some; [done|by eapply H2].
  - intros v Hv Hne. rewrite lookup_insert_ne by done. by apply H3.
Qed.

Lemma almost_same vid vl vl' :
  almost vid vl → rp vl' = rp vl → writables vl' = writables vl → vid2location vl' = vid2location vl → almost vid vl'.
Proof. unfold almost. by intros H -> -> ->. Qed.

Lemma almost_remove vid vl : almost vid vl → sane (removeFromWritable vid vl).1.
Proof.
  intros (H1 & H2 & H3). destruct (removed_fields vid vl) as (E1 & E2 & E3 & _).
  destruct (remove_id_spec vid (writables vl) H1) as [Hn Hw].
  split; rewrite ?E1, ?E2, ?E3; [done..|]. intros v [Hv Hne]%Hw. by apply H3.
Qed.

Lemma almost_enough vid vl :
  almost vid vl → (∃ l, vid2location vl !! vid = Some l ∧ ReplicaPlacement.GetCopyCount (rp vl) ≤ zlen l) → sane vl.
Proof.
  intros (H1 & H2 & H3) He. split; [done|done|]. intros v Hv. destruct (decide (v = vid)) as [->|]; auto.
Qed.

Lemma almost_ensure vid vl :
  1 ≤ ReplicaPlacement.GetCopyCount (rp vl) → almost vid vl →
  sane (ensureCorrectWritables ns vid vl) ∧ rp (ensureCorrectWritables ns vid vl) = rp vl
  ∧ vid2location (ensureCorrectWritables ns vid vl) = vid2location vl
  ∧ (enoughCopies vid vl = false → vid ∉ writables (ensureCorrectWritables ns vid vl)).
Proof.
  intros Hc Ha. destruct (removed_fields vid vl) as (E1 & E2 & E3 & _).
  destruct (enoughCopies vid vl) eqn:He.
  - assert (sane vl) as Hs by (by eapply almost_enough, enough_copies).
    split; [by apply sane_ensure|]. unfold ensureCorrectWritables.
    destruct (_ && _); [|done]. unfold setVolumeWritable. case_decide; [done|]. by destruct vl.
  - unfold ensureCorrectWritables. rewrite He. cbn [andb]. split; [by apply almost_remove|].
    split_and!; [done..|]. intros _. rewrite E3. destruct Ha as (H1 & _).
    destruct (remove_id_spec vid (writables vl) H1) as [_ Hw]. rewrite Hw. tauto.
Qed.

Lemma sane_delete vid vl :
  sane vl → vid ∉ writables vl → sane (with_locations (delete vid (vid2location vl)) vl).
Proof.
  intros [H1 H2 H3] Hn. destruct (fields_with vl (delete vid (vid2location vl)) [] ∅ id) as ((E1 & E2 & E3) & _).
  split; rewrite ?E1, ?E2, ?E3; [done|..].
  - intros v l [_ Hv]%lookup_delete_Some. by eapply H2.
  - intros v Hv. rewrite lookup_delete_ne by (intros ->; done). by apply H3.
Qed.

Lemma not_enough vid vl :
  1 ≤ ReplicaPlacement.GetCopyCount (rp vl) → Length (vid2location vl !! vid) = 0 → enoughCopies vid vl = false.
Proof.
  intros Hc Hl. unfold enoughCopies. rewrite Hl. rewrite orb_false_iff, andb_false_iff.
  split; [apply bool_decide_eq_false; lia|]. right. apply bool_decide_eq_false. lia.
Qed.

(** Taking a copy away. *)
Definition without (dn : DataNode) (vid : Z) (l : VolumeLocationList) (vl : t) : t :=
  with_oversized (State_Remove vid dn)
    (with_readonly (State_Remove vid dn) (with_locations (<[vid := (Remove dn l).1]> (vid2location vl)) vl)).

Lemma without_almost dn vid l vl :
  sane vl → vid2location vl !! vid = Some l →
  almost vid (without dn vid l vl) ∧ rp (without dn vid l vl) = rp vl
  ∧ vid2location (without dn vid l vl) !! vid = Some (Remove dn l).1.
Proof.
  intros H Hl. assert (NoDup (address <$> (Remove dn l).1)) as Hd by (by eapply Remove_distinct, sn_distinct).
  split_and!; [|by destruct vl|].
  - eapply almost_same; [by apply (almost_locations vid (Remove dn l).1 vl)|by destruct vl..].
  - destruct vl. cbn. apply lookup_insert_eq.
Qed.

Lemma sane_unregister v dn vl :
  1 ≤ ReplicaPlacement.GetCopyCount (rp vl) → sane vl →
  sane (UnRegisterVolume ns v dn vl) ∧ rp (UnRegisterVolume ns v dn vl) = rp vl.
Proof.
  intros Hc H. unfold UnRegisterVolume. destruct (vid2location vl !! Id v) as [l|] eqn:Hl; [|done].
  destruct (without_almost dn (Id v) l vl H Hl) as (Ha & Er & El). unfold without in *.
  destruct (Remove dn l) as [l' []]; [|done]. cbn [fst] in *. set (vl' := with_oversized _ _) in *.
  destruct (almost_ensure (Id v) vl') as (H1 & H2 & H3 & H4); [by rewrite Er|done|].
  case_decide as Hz; [|split; [done|by rewrite H2]]. unfold removeFromCrowded.
  assert (sane (with_locations (delete (Id v) (vid2location (ensureCorrectWritables ns (Id v) vl')))
    (ensureCorrectWritables ns (Id v) vl'))) as Hs.
  { apply sane_delete; [done|]. apply H4, not_enough; [by rewrite Er|]. by rewrite El. }
  split; [by apply sane_crowded|]. rewrite <- Er, <- H2. by destruct (ensureCorrectWritables ns (Id v) vl').
Qed.

Lemma sane_unavailable dn vid vl :
  sane vl → sane (SetVolumeUnavailable dn vid vl).1 ∧ rp (SetVolumeUnavailable dn vid vl).1 = rp vl.
Proof.
  intros H. unfold SetVolumeUnavailable. destruct (vid2location vl !! vid) as [l|] eqn:Hl; [|done].
  destruct (without_almost dn vid l vl H Hl) as (Ha & Er & El). unfold without in *.
  destruct (Remove dn l) as [l' []]; [|done]. cbn [fst] in *. set (vl' := with_oversized _ _) in *.
  case_decide as Hz.
  - split; [by apply almost_remove|]. destruct (removed_fields vid vl') as (-> & _). done.
  - split; [|done]. eapply almost_enough; [exact Ha|]. exists l'. split; [done|]. cbn [fst]. lia.
Qed.

Lemma sane_available dn vid ro full vl vl' b :
  1 ≤ ReplicaPlacement.GetCopyCount (rp vl) → sane vl →
  SetVolumeAvailable ns dn vid ro full vl = Ok (vl', b) → sane vl' ∧ rp vl' = rp vl.
Proof.
  intros Hc H E. unfold SetVolumeAvailable in E. destruct (GetVolumesById ns dn vid) as [v|]; [|by simplify_eq].
  destruct (vid2location vl !! vid) as [l|] eqn:Hl; [|done].
  set (vl1 := with_locations (<[vid := Set_ dn l]> (vid2location vl)) vl) in *.
  assert (rp vl1 = rp vl) as E1 by (by destruct vl).
  assert (sane vl1) as H1.
  { apply sane_locations; [done|by eapply Set_distinct, sn_distinct|].
    intros Hw. destruct (sn_copies _ H _ Hw) as (k & Ek & Hk). simplify_eq. pose proof (Set_longer dn l). lia. }
  destruct (_ || full); [by simplify_eq|]. destruct (enoughCopies vid vl1) eqn:He; simplify_eq; [|done].
  assert (setVolumeWritable vid vl1 = (vl', b)) as E2 by congruence.
  replace vl' with (setVolumeWritable vid vl1).1 by (by rewrite E2).
  split; [apply sane_set; [by rewrite E1|done|done]|]. rewrite <- E1. unfold setVolumeWritable.
  case_decide; [done|]. by destruct vl1.
Qed.

Lemma sane_writable dn vid vl :
  1 ≤ ReplicaPlacement.GetCopyCount (rp vl) → sane vl →
  sane (SetVolumeWritable dn vid vl).1 ∧ rp (SetVolumeWritable dn vid vl).1 = rp vl.
Proof.
  intros Hc H. unfold SetVolumeWritable. set (vl1 := match _ with Some _ => _ | None => _ end).
  assert (sane vl1 ∧ rp vl1 = rp vl) as [H1 E1].
  { unfold vl1. case_match; [|done]. split; [by apply sane_readonly|by destruct vl]. }
  destruct (enoughCopies vid vl1) eqn:He; [|done].
  split; [apply sane_set; [by rewrite E1|done|done]|]. rewrite <- E1. unfold setVolumeWritable.
  case_decide; [done|]. by destruct vl1.
Qed.
End steps.
End Sanity.
Import Sanity.

(** ** The layouts that are reached *)
Module LayoutClaims.

(** Every call of an operation, with what the data nodes report at that time. *)
Inductive layout_step : t → t → Prop :=
  | step_register ns v dn vl : layout_step vl (RegisterVolume ns v dn vl)
  | step_unregister ns v dn vl : layout_step vl (UnRegisterVolume ns v dn vl)
  | step_ensure ns v vl : layout_step vl (EnsureCorrectWritables ns v vl)
  | step_readonly dn vid vl : layout_step vl (SetVolumeReadOnly dn vid vl).1
  | step_writable dn vid vl : layout_step vl (SetVolumeWritable dn vid vl).1
  | step_unavailable dn vid vl : layout_step vl (SetVolumeUnavailable dn vid vl).1
  | step_available ns dn vid ro full vl vl' b :
      SetVolumeAvailable ns dn vid ro full vl = Ok (vl', b) → layout_step vl vl'
  | step_full vid vl : layout_step vl (SetVolumeCapacityFull vid vl).1
  | step_crowded vid vl : layout_step vl (SetVolumeCrowded vid vl)
  | step_grow b vl : layout_step vl (if (b : bool) then AddGrowRequest vl else DoneGrowRequest vl)
  | step_count n vl : layout_step vl (SetLastGrowCount n vl).

Lemma step_sane vl vl' :
  1 ≤ ReplicaPlacement.GetCopyCount (rp vl) → sane vl → layout_step vl vl' → sane vl' ∧ rp vl' = rp vl.
Proof.
  intros Hc Hs Hst. revert Hc Hs. destruct Hst; intros Hc Hs;
    try (by eauto using sane_register, sane_unregister, sane_unavailable, sane_writable, sane_available).
  - unfold EnsureCorrectWritables. destruct (almost_ensure ns (Id v) vl) as (H1 & H2 & _); [done| |done].
    split_and!; [apply Hs..|]. intros u Hu _. by apply Hs.
  - unfold SetVolumeReadOnly. case_match; [|done]. set (vl1 := with_readonly _ _).
    destruct (removed_fields vid vl1) as (-> & _). split; [by apply sane_remove, sane_readonly|by destruct vl].
  - unfold SetVolumeCapacityFull. split; [by apply sane_remove|apply removed_fields].
  - unfold SetVolumeCrowded. split; [by apply sane_crowded|by destruct vl].
  - destruct b; (split; [by apply sane_grow|by destruct vl]).
  - unfold SetLastGrowCount. case_decide; [|done]. split; [by apply sane_grow|by destruct vl].
Qed.

Definition reachable (rp0 : ReplicaPlacement.t) (limit : Z) (asMin : bool) : t → Prop :=
  rtc layout_step (NewVolumeLayout rp0 limit asMin).

Lemma reachable_sane rp0 limit asMin vl :
  1 ≤ ReplicaPlacement.GetCopyCount rp0 → reachable rp0 limit asMin vl → sane vl ∧ rp vl = rp0.
Proof.
  intros Hc. refine (rtc_ind_r (λ vl, sane vl ∧ rp vl = rp0) _ _ _ vl).
  - split; [|done]. split; cbn; [constructor|intros ? ?; by rewrite lookup_empty|by intros ? ?%elem_of_nil].
  - intros y z _ Hs [H1 H2]. destruct (step_sane y z) as [H3 H4]; [by rewrite H2|done|done|]. split; [done|congruence].
Qed.

Lemma pick_loop_ok count o ids vl :
  (∀ vid, vid ∈ ids → is_Some (vid2location vl !! vid)) →
  (∃ vid l dn, pick_loop count o ids vl = Ok (MkPicked vid count (Some l) false None)
     ∧ vid ∈ ids ∧ vid2location vl !! vid = Some l ∧ dn ∈ l ∧ fits o dn = true)
  ∨ pick_loop count o ids vl = Ok (MkPicked 0 count None true (Some NoWritableVolumes))
    ∧ ∀ vid l dn, vid ∈ ids → vid2location vl !! vid = Some l → dn ∈ l → fits o dn = false.
Proof.
  induction ids as [|vid ids IH]; intros H; cbn [pick_loop]; [right; split; [done|by intros ??? ?%elem_of_nil]|].
  destruct (H vid) as [l Hl]; [by left|]. rewrite Hl. destruct (existsb (fits o) l) eqn:Ex.
  - left. apply existsb_exists in Ex as (dn & Hd & Hf). exists vid, l, dn.
    split_and!; [done|by left|done|by apply list_elem_of_In|done].
  - destruct IH as [(v & k & dn & ? & ? & ? & ? & ?)|[E Hn]].
    + intros v Hv. apply H. by right.
    + left. exists v, k, dn. split_and!; [done|by right|done..].
    + right. split; [done|]. intros v k dn [->|Hv]%elem_of_cons Hk Hd; [|by eapply Hn].
      rewrite Hl in Hk. injection Hk as <-. destruct (fits o dn) eqn:Hf; [|done].
      assert (existsb (fits o) l = true); [|congruence]. apply existsb_exists. exists dn. by rewrite <- list_elem_of_In.
Qed.

(** C10: On any layout that the operations reach, choosing a volume for writing never
    panics and never finds a writable volume without machines.  The chosen volume is
    writable and its copies are on at least as many different servers as the
    replication asks for, one of them in the data center, rack and node asked for;
    there is none only when no writable volume has a copy there. *)
Theorem pick_replicated rp0 limit asMin vl rand_ shuffled count o :
  1 ≤ ReplicaPlacement.GetCopyCount rp0 → reachable rp0 limit asMin vl →
  (writables vl ≠ [] → (rand_ < length (writables vl))%nat) → shuffled ≡ₚ writables vl →
  ∃ r, PickForWrite rand_ shuffled count o vl = Ok r
    ∧ match err r with
      | None => ∃ l dn, vid_ r ∈ writables vl ∧ locationList r = Some l ∧ vid2location vl !! vid_ r = Some l
          ∧ NoDup (address <$> l) ∧ ReplicaPlacement.GetCopyCount rp0 ≤ zlen l ∧ dn ∈ l ∧ fits o dn = true
      | Some e => e = NoWritableVolumes ∧ shouldGrow r = true
          ∧ ∀ vid l dn, vid ∈ writables vl → vid2location vl !! vid = Some l → dn ∈ l → fits o dn = false
      end.
Proof.
  intros Hc Hr Hrand Hsh. destruct (reachable_sane _ _ _ _ Hc Hr) as [Hs Erp]. unfold PickForWrite.
  assert (∀ vid l, vid ∈ writables vl → vid2location vl !! vid = Some l →
    NoDup (address <$> l) ∧ ReplicaPlacement.GetCopyCount rp0 ≤ zlen l) as Hl.
  { intros vid l Hv Hl. split; [by eapply sn_distinct|]. destruct (sn_copies _ Hs _ Hv) as (k & Ek & Hk).
    rewrite Hl in Ek. injection Ek as <-. by rewrite <- Erp. }
  case_decide as Hw.
  { eexists. split; [done|]. cbn. split_and!; [done..|]. intros vid l dn Hv.
    destruct (writables vl) as [|a w]; [by apply elem_of_nil in Hv|].
    rewrite zlen_cons in Hw. pose proof (zlen_nonneg w). lia. }
  assert (writables vl ≠ []) as Hne by (intros E; rewrite E in Hw; done).
  case_decide as Ho.
  - destruct (lookup_lt_is_Some_2 (writables vl) rand_ (Hrand Hne)) as [vid Hv]. rewrite Hv.
    apply list_elem_of_lookup_2 in Hv as Hin. destruct (sn_copies _ Hs _ Hin) as (l & El & Hk). rewrite El.
    destruct l as [|dn l]; [rewrite Erp in Hk; change (zlen ([] : list DataNode)) with 0 in Hk; lia|].
    eexists. split; [done|]. cbn [err vid_ locationList]. destruct (Hl vid _ Hin El).
    exists (dn :: l), dn. split_and!; [done..|by left|]. destruct Ho as (E1 & E2 & E3). unfold fits.
    rewrite E1, E2, E3. done.
  - destruct (pick_loop_ok count o shuffled vl) as [(vid & l & dn & -> & Hv & El & Hd & Hf)|[-> Hn]].
    + intros vid Hv. rewrite Hsh in Hv. destruct (sn_copies _ Hs _ Hv) as (l & -> & _). eauto.
    + eexists. split; [done|]. cbn [err vid_ locationList]. rewrite Hsh in Hv. destruct (Hl vid l Hv El).
      exists l, dn. done.
    + eexists. split; [done|]. cbn. split_and!; [done..|]. intros vid l dn Hv. apply Hn. by rewrite Hsh.
Qed.
(** ** What a report of a volume decides *)

Lemma ensure_spec ns vid vl :
  NoDup (writables vl) →
  let vl' := ensureCorrectWritables ns vid vl in
  (∃ w, vl' = with_writables w vl)
  ∧ (vid ∈ writables vl' ↔
      enoughCopies vid vl && isAllWritable ns vid vl && negb (IsTrue (oversizedVolumes vl) vid) = true)
  ∧ ∀ v, v ≠ vid → v ∈ writables vl' ↔ v ∈ writables vl.
Proof.
  intros Hn vl'. unfold vl', ensureCorrectWritables. destruct (remove_id_spec vid (writables vl) Hn) as [_ Hw].
  destruct (_ && _).
  - unfold setVolumeWritable. case_decide as Hv; cbn [fst].
    { split_and!; [exists (writables vl); by destruct vl|done|done]. }
    destruct (fields_with vl ∅ (writables vl ++ [vid]) ∅ id) as (_ & (_ & -> & _) & _).
    split_and!; [eauto|rewrite elem_of_app, list_elem_of_singleton; tauto|].
    intros v Hne. rewrite elem_of_app, list_elem_of_singleton. tauto.
  - destruct (removed_fields vid vl) as (_ & _ & -> & _). split_and!.
    + unfold removeFromWritable. destruct (remove_id vid (writables vl)). eauto.
    + rewrite Hw. split; [tauto|done].
    + intros v Hne. rewrite Hw. tauto.
Qed.

Lemma register_loop_fields ns vid l vl :
  NoDup (writables vl) →
  let vl' := register_loop ns vid l vl in
  NoDup (writables vl') ∧ vid2location vl' = vid2location vl ∧ oversizedVolumes vl' = oversizedVolumes vl
  ∧ volumeSizeLimit vl' = volumeSizeLimit vl ∧ ∀ v, v ≠ vid → v ∈ writables vl' ↔ v ∈ writables vl.
Proof.
  cbv zeta. revert vl. induction l as [|dn l IH]; intros vl Hn; [done|]. cbn [register_loop].
  destruct (remove_id_spec vid (writables vl) Hn) as [Hr Hw].
  assert (∀ f, let vl' := with_readonly f (removeFromWritable vid vl).1 in
    NoDup (writables vl') ∧ vid2location vl' = vid2location vl ∧ oversizedVolumes vl' = oversizedVolumes vl
    ∧ volumeSizeLimit vl' = volumeSizeLimit vl ∧ ∀ v, v ≠ vid → v ∈ writables vl' ↔ v ∈ writables vl) as Hf.
  { intros f. unfold removeFromWritable. destruct (remove_id vid (writables vl)) as [w b]. cbn [fst] in *.
    destruct vl. cbn in *. split_and!; try done. intros v Hv. rewrite Hw. tauto. }
  destruct (GetVolumesById ns dn vid) as [v|]; [|apply Hf]. destruct (ReadOnly v); [apply Hf|].
  destruct (IH (with_readonly (State_Remove vid dn) vl)) as (H1 & H2 & H3 & H4 & H5); [by destruct vl|].
  split_and!; [done|..]; [rewrite H2|rewrite H3|rewrite H4|intros u Hu; rewrite H5 by done]; by destruct vl.
Qed.

Lemma Set_in dn l : dn ∈ Set_ dn l.
Proof. induction l as [|a l IH]; cbn [Set_]; [by left|]. case_decide; [by left|by right]. Qed.

Lemma add_true vid dn b : indicator b = ExistCopies → IsTrue (Add vid dn b) vid = true.
Proof.
  intros Hi. unfold IsTrue, Add. destruct (copyMap b !! vid) as [l|]; cbn; rewrite Hi, lookup_insert_eq; cbn;
    by case_decide.
Qed.

Lemma register_fields ns v dn vl :
  NoDup (writables vl) →
  let vl' := RegisterVolume ns v dn vl in
  NoDup (writables vl')
  ∧ vid2location vl' = <[Id v := Set_ dn (Lookup_ (Id v) vl)]> (vid2location vl)
  ∧ (indicator (oversizedVolumes vl) = ExistCopies → volumeSizeLimit vl ≤ Size v →
     IsTrue (oversizedVolumes vl') (Id v) = true)
  ∧ ∀ u, u ≠ Id v → u ∈ writables vl' ↔ u ∈ writables vl.
Proof.
  intros Hn. cbv zeta. unfold RegisterVolume. fold (Lookup_ (Id v) vl).
  set (l := Set_ dn (Lookup_ (Id v) vl)). set (vl1 := with_locations _ vl).
  destruct (register_loop_fields ns (Id v) l vl1) as (H1 & H2 & H3 & H4 & H5); [by destruct vl|].
  set (vl2 := register_loop _ _ _ _) in *.
  assert (vid2location vl1 = <[Id v := l]> (vid2location vl) ∧ oversizedVolumes vl1 = oversizedVolumes vl
    ∧ volumeSizeLimit vl1 = volumeSizeLimit vl ∧ writables vl1 = writables vl) as (E2 & E3 & E4 & E5) by (by destruct vl).
  rewrite E2 in H2. rewrite E3 in H3. rewrite E4 in H4. setoid_rewrite E5 in H5. unfold rememberOversizedVolume, isOversized.
  destruct vl2 as [r m w c ro ov lim am g n]. cbn in *. subst. case_bool_decide as Hs; cbn.
  - split_and!; [done|done| |done]. intros Hi _. by apply add_true.
  - split_and!; [done|done| |done]. intros _ Hc. done.
Qed.

(** The size limit and the way oversized volumes are told never change. *)
Definition settings (vl : t) : Z * (copyState → bool) := (volumeSizeLimit vl, indicator (oversizedVolumes vl)).

Lemma settings_locations m vl : settings (with_locations m vl) = settings vl.
Proof. by destruct vl. Qed.
Lemma settings_crowded c vl : settings (with_crowded c vl) = settings vl.
Proof. by destruct vl. Qed.
Lemma settings_readonly f vl : settings (with_readonly f vl) = settings vl.
Proof. by destruct vl. Qed.
Lemma settings_grow b n vl : settings (with_grow b n vl) = settings vl.
Proof. by destruct vl. Qed.
Lemma settings_added vid dn vl : settings (with_oversized (Add vid dn) vl) = settings vl.
Proof. destruct vl. unfold settings, Add. cbn. by case_match. Qed.
Lemma settings_dropped vid dn vl : settings (with_oversized (State_Remove vid dn) vl) = settings vl.
Proof. destruct vl. unfold settings, State_Remove. cbn. case_match; [by case_decide|done]. Qed.
Lemma settings_removed vid vl : settings (removeFromWritable vid vl).1 = settings vl.
Proof. unfold removeFromWritable. destruct (remove_id vid (writables vl)). by destruct vl. Qed.
Lemma settings_set vid vl : settings (setVolumeWritable vid vl).1 = settings vl.
Proof. unfold setVolumeWritable. case_decide; [done|by destruct vl]. Qed.
#[local] Hint Rewrite settings_locations settings_crowded settings_readonly settings_grow settings_added
  settings_dropped settings_removed settings_set : settings.
Lemma settings_ensure ns vid vl : settings (ensureCorrectWritables ns vid vl) = settings vl.
Proof. unfold ensureCorrectWritables. destruct (_ && _); by autorewrite with settings. Qed.
#[local] Hint Rewrite settings_ensure : settings.

Lemma register_settings ns v dn vl : settings (RegisterVolume ns v dn vl) = settings vl.
Proof.
  unfold RegisterVolume. set (l := Set_ dn _). set (vl1 := with_locations _ vl).
  assert (∀ l vl, settings (register_loop ns (Id v) l vl) = settings vl) as Hl.
  { clear. intros l. induction l as [|a l IH]; intros vl; [done|]. cbn [register_loop].
    destruct (GetVolumesById ns a (Id v)) as [i|]; [destruct (ReadOnly i)|]; [|rewrite IH|]; by autorewrite with settings. }
  unfold rememberOversizedVolume. destruct (isOversized v _); autorewrite with settings; rewrite Hl; unfold vl1; by autorewrite with settings.
Qed.

Lemma step_settings vl vl' : layout_step vl vl' → settings vl' = settings vl.
Proof.
  intros [ns v dn vl0|ns v dn vl0|ns v vl0|dn vid vl0|dn vid vl0|dn vid vl0|ns dn vid ro full vl0 vl1 b E|vid vl0|vid vl0|b vl0|n vl0].
  - apply register_settings.
  - unfold UnRegisterVolume, removeFromCrowded. repeat case_match; by autorewrite with settings.
  - unfold EnsureCorrectWritables. by autorewrite with settings.
  - unfold SetVolumeReadOnly. case_match; by autorewrite with settings.
  - unfold SetVolumeWritable. set (vl1 := match _ with Some _ => _ | None => _ end).
    assert (settings vl1 = settings vl0) as <- by (unfold vl1; case_match; by autorewrite with settings).
    destruct (enoughCopies vid vl1); [by autorewrite with settings|done].
  - unfold SetVolumeUnavailable. destruct (vid2location vl0 !! vid) as [l|]; [|done].
    destruct (Remove dn l) as [l' []]; [|done]. case_decide; cbn [fst]; by autorewrite with settings.
  - unfold SetVolumeAvailable in E. destruct (GetVolumesById ns dn vid) as [v|]; [|by simplify_eq].
    destruct (vid2location vl0 !! vid) as [l|]; [|done]. cbv zeta in E.
    rewrite <- (settings_locations (<[vid := Set_ dn l]> (vid2location vl0)) vl0).
    set (vl2 := with_locations _ vl0) in *. destruct (_ || full); [by simplify_eq|].
    destruct (enoughCopies vid vl2); [|by simplify_eq]. injection E as E.
    change vl1 with (vl1, b).1. rewrite <- E. apply settings_set.
  - unfold SetVolumeCapacityFull. by autorewrite with settings.
  - unfold SetVolumeCrowded. by autorewrite with settings.
  - destruct b; [unfold AddGrowRequest|unfold DoneGrowRequest]; by autorewrite with settings.
  - unfold SetLastGrowCount. case_decide; by autorewrite with settings.
Qed.

Lemma reachable_settings rp0 limit asMin vl : reachable rp0 limit asMin vl → settings vl = (limit, ExistCopies).
Proof.
  refine (rtc_ind_r (λ vl, settings vl = (limit, ExistCopies)) _ _ _ vl); [done|].
  intros y z _ Hs <-. by apply step_settings.
Qed.

(** C11: After a node has reported a volume, the volume takes writes exactly when it
    has enough copies, no copy is reported read-only and no copy is marked as
    oversized; a report of a volume at the size limit marks it.  The node is among the
    copies, and the other volumes are as they were. *)
Theorem register_decides rp0 limit asMin ns v dn vl :
  1 ≤ ReplicaPlacement.GetCopyCount rp0 → reachable rp0 limit asMin vl →
  let vl' := RegisterVolumeLayout ns v dn vl in
  (Id v ∈ writables vl' ↔
     enoughCopies (Id v) vl' = true
     ∧ (∀ dn' i, dn' ∈ Lookup_ (Id v) vl' → GetVolumesById ns dn' (Id v) = Some i → ReadOnly i = false)
     ∧ IsTrue (oversizedVolumes vl') (Id v) = false)
  ∧ (limit ≤ Size v → IsTrue (oversizedVolumes vl') (Id v) = true)
  ∧ dn ∈ Lookup_ (Id v) vl'
  ∧ ∀ u, u ≠ Id v → Lookup_ u vl' = Lookup_ u vl ∧ (u ∈ writables vl' ↔ u ∈ writables vl).
Proof.
  intros Hc Hr. destruct (reachable_sane _ _ _ _ Hc Hr) as [Hs _]. cbv zeta.
  destruct (register_fields ns v dn vl (sn_nodup _ Hs)) as (H1 & H2 & H3 & H4).
  pose proof (reachable_settings _ _ _ _ Hr) as [= El0 Ei].
  unfold RegisterVolumeLayout, EnsureCorrectWritables. set (vl1 := RegisterVolume ns v dn vl) in *.
  destruct (ensure_spec ns (Id v) vl1 H1) as ([w Ew] & Hw & Ho). cbv zeta in Ew, Hw, Ho.
  set (vl2 := ensureCorrectWritables ns (Id v) vl1) in *.
  assert (vid2location vl2 = vid2location vl1) as E2 by (rewrite Ew; by destruct vl1).
  assert (enoughCopies (Id v) vl2 = enoughCopies (Id v) vl1) as E3 by (rewrite Ew; by destruct vl1).
  assert (oversizedVolumes vl2 = oversizedVolumes vl1) as E4 by (rewrite Ew; by destruct vl1).
  assert (Lookup_ (Id v) vl2 = Set_ dn (Lookup_ (Id v) vl)) as El.
  { unfold Lookup_ at 1. by rewrite E2, H2, lookup_insert_eq. }
  split_and!.
  - rewrite Hw, E3, E4, El, !andb_true_iff, negb_true_iff. unfold isAllWritable.
    rewrite H2, lookup_insert_eq, forallb_forall.
    assert ((∀ x, In x (Set_ dn (Lookup_ (Id v) vl)) →
        match GetVolumesById ns x (Id v) with Some v0 => negb (ReadOnly v0) | None => true end = true)
      ↔ ∀ dn' i, dn' ∈ Set_ dn (Lookup_ (Id v) vl) → GetVolumesById ns dn' (Id v) = Some i → ReadOnly i = false) as Hall.
    { setoid_rewrite <- list_elem_of_In. split.
      - intros H x i Hx Hi. specialize (H x Hx). rewrite Hi in H. by apply negb_true_iff.
      - intros H x Hx. destruct (GetVolumesById ns x (Id v)) as [i|] eqn:Hi; [|done]. apply negb_true_iff. by eapply H. }
    tauto.
  - intros Hz. rewrite E4. apply H3; [done|lia].
  - rewrite El. apply Set_in.
  - intros u Hu. split; [|by rewrite Ho, H4]. unfold Lookup_. by rewrite E2, H2, lookup_insert_ne.
Qed.

(** *** Witnesses *)

Definition a_node (p : Z) (ip : string) (rack : string) : DataNode :=
  MkNode p (str ip) 8080 (str ip) (str "dc1") (str rack).
Definition an_info : VolumeInfo := MkInfo 7 100 false 3 1 0 0.
Definition some_nodes : nodes := λ _, MkNodeState 5 [{[7 := an_info]}].
Definition two_copies : ReplicaPlacement.t := ReplicaPlacement.Mk 1 0 0.
Definition a_layout : t :=
  RegisterVolumeLayout some_nodes an_info (a_node 2 "b" "r2")
    (RegisterVolumeLayout some_nodes an_info (a_node 1 "a" "r1") (NewVolumeLayout two_copies 1000 false)).

Lemma a_layout_reachable : reachable two_copies 1000 false a_layout.
Proof.
  unfold reachable, a_layout, RegisterVolumeLayout.
  do 4 (eapply rtc_r; [|first [apply step_ensure|apply step_register]]). apply rtc_refl.
Qed.

Lemma pick_replicated_witness :
  let o := MkOption [] (str "r2") [] in
  ∃ r, PickForWrite 0 [7] 1 o a_layout = Ok r
    ∧ match err r with
      | None => ∃ l dn, vid_ r ∈ writables a_layout ∧ locationList r = Some l
          ∧ vid2location a_layout !! vid_ r = Some l
          ∧ NoDup (address <$> l) ∧ ReplicaPlacement.GetCopyCount two_copies ≤ zlen l ∧ dn ∈ l ∧ fits o dn = true
      | Some e => e = NoWritableVolumes ∧ shouldGrow r = true
          ∧ ∀ vid l dn, vid ∈ writables a_layout → vid2location a_layout !! vid = Some l → dn ∈ l → fits o dn = false
      end.
Proof.
  apply (pick_replicated two_copies 1000 false a_layout 0 [7] 1 (MkOption [] (str "r2") [])).
  - vm_compute. congruence.
  - apply a_layout_reachable.
  - vm_compute. lia.
  - vm_compute. reflexivity.
Defined.

Lemma register_decides_witness :
  let vl' := RegisterVolumeLayout some_nodes an_info (a_node 3 "c" "r3") a_layout in
  (7 ∈ writables vl' ↔
     enoughCopies 7 vl' = true
     ∧ (∀ dn' i, dn' ∈ Lookup_ 7 vl' → GetVolumesById some_nodes dn' 7 = Some i → ReadOnly i = false)
     ∧ IsTrue (oversizedVolumes vl') 7 = false)
  ∧ (1000 ≤ Size an_info → IsTrue (oversizedVolumes vl') 7 = true)
  ∧ a_node 3 "c" "r3" ∈ Lookup_ 7 vl'
  ∧ ∀ u, u ≠ 7 → Lookup_ u vl' = Lookup_ u a_layout ∧ (u ∈ writables vl' ↔ u ∈ writables a_layout).
Proof.
  apply (register_decides two_copies 1000 false some_nodes an_info (a_node 3 "c" "r3") a_layout).
  - vm_compute. congruence.
  - apply a_layout_reachable.
Defined.

(** One copy is not enough, two are, a third is one too many. *)
Example copies_counted :
  let one := RegisterVolumeLayout some_nodes an_info (a_node 1 "a" "r1") (NewVolumeLayout two_copies 1000 false) in
  writables one = [] ∧ writables a_layout = [7]
  ∧ writables (RegisterVolumeLayout some_nodes an_info (a_node 3 "c" "r3") a_layout) = [].
Proof. vm_compute. repeat split; reflexivity. Qed.

(** Making a volume writable again does not look at its size or its other copies. *)
Example oversized_writable :
  let big := MkInfo 7 5000 false 3 1 0 0 in
  let vl := RegisterVolumeLayout some_nodes big (a_node 2 "b" "r2")
              (RegisterVolumeLayout some_nodes big (a_node 1 "a" "r1") (NewVolumeLayout two_copies 1000 false)) in
  writables vl = [] ∧ writables (SetVolumeWritable (a_node 1 "a" "r1") 7 vl).1 = [7].
Proof. vm_compute. split; reflexivity. Qed.

(** A copy that comes back for a volume that was forgotten meanwhile. *)
Example available_unknown :
  SetVolumeAvailable some_nodes (a_node 1 "a" "r1") 7 false false (NewVolumeLayout two_copies 1000 false) = Panic.
Proof. vm_compute. reflexivity. Qed.
End LayoutClaims.
